(* ===== verification/_CoqProject ===== *)
-Q . S2P
Prelude.v
Graph.v
StackBudget.v
StackBudgetBuild.v
StackBudgetFacts.v
StackBudgetProps.v
Domains.v
DomainsFacts.v
DomainsProps.v
SpillSlotPlan.v
SpillSlotFacts.v
SpillSlotSound.v
SpillSlotProps.v
Arith.v
ArithFacts.v
ArithProps.v
ExpandMem.v
ExpandMemProps.v
Fiber.v
FiberFacts.v
FiberPool.v
FiberProps.v
FiberRace.v
Host.v
HostProps.v
HostLife.v
HostAlloc.v
HostSamples.v
Bytes.v
Atomics.v
AtomicsFacts.v
AtomicsProps.v
AtomicsPolicy.v
Allocator.v
AllocatorRace.v
AllocatorCalls.v
AllocatorProps.v
AllocatorSamples.v
Frames.v
FramesFacts.v
FramesProps.v
StackMachine.v
StackMachineFacts.v
StackMachineInv.v
StackMachineSim.v
StackMachineCalls.v
StackMachineProps.v
RegionIds.v
RegionIdsFacts.v
StackCompiled.v
StackSamples.v
Liveness.v
LivenessProps.v
FixedImage.v
FixedImageFacts.v
FixedImageSound.v
FixedLayout.v
FixedImageProps.v
FixedSamples.v
HeapAccess.v
HeapAccessProps.v
HeapAccessClaims.v
StackAccess.v
Arena.v
ArenaFacts.v
ArenaTables.v
ArenaProps.v
ArenaLayout.v
ArenaInit.v
ArenaInitProps.v
ArenaSamples.v
SoftFloat.v
SoftFloatRun.v
SoftFloatClass.v
SoftFloatTypes.v
SoftFloatFacts.v
SoftFloatSim.v
SoftFloatVerdict.v
SoftFloatProps.v
SoftFloatSamples.v
