(* ===== verification/Prelude.v ===== *)
(** * BPF Capsule: a verification library

    BPF Capsule compiles ordinary C to programs the Linux BPF verifier accepts.
    Code is split in a native domain (entry programs) and a Capsule domain,
    whose functions run as resumable fibers on a software stack.  The parts are
    LLVM passes ([src/src/pass]), a guest runtime that pools fibers and
    allocates memory ([src/src/runtime/guest], [src/src/runtime/platform]), and
    a host library that sizes and initialises the maps
    ([src/src/runtime/host]).  The passes run in order: domains are assigned,
    arithmetic, memory intrinsics and atomics are lowered, Stackify moves
    Capsule frames to the software stack, and machine passes place spills and
    bound the kernel stack.  At run time the guest drives fibers through the
    code the passes emitted and the host plans the memory both use.

    ** Files

    - [Prelude], [Graph], [Bytes]: errors as values ([result], [foldM]), words
      as [Z] with [wrap], powers of two, reachability, little-endian memory.
    - [StackBudget*] (machine_stack_budget.cpp, C1-C3): the call graph of
      flatten classes, the depth and byte limits, and the budget of each unit.
      Accepted programs respect 512 bytes and eight frames on every path, the
      budget is exact, rejections name a real fault, no sum wraps.
    - [Domains*] (capsule_domains.cpp, class attributes of common.cpp, C5-C7):
      the closures of both domains, overlap and global ownership.
    - [SpillSlot*] (spill_slot_plan.cpp, C10-C11): the dataflow that decides
      how a spill slot is represented; it ends, is sound for every reachable
      state, and survives slot colouring.
    - [Arith*] (lower_sdiv.cpp, split_shift63.cpp, expand_i128.cpp, C15):
      blocks before and after lowering, as refinements.
    - [ExpandMem*] (expand_mem.cpp, C16): the emitted copy and fill loops
      against memmove and memset.
    - [Fiber*] (bpf_capsule.c/.h, C18-C19, C21, C24): the fiber pool,
      continuations, the driver and plan validation, on the arena and the fixed tier; an abstract
      boundary they refine; interleaved claims in [FiberRace].
    - [Host*] (bpf_capsule_host.c, C25-C26, C28-C29, C32): planning, configuration with
      rollback, the life of a handle, relocation, the memory view, host-side
      allocation.  [HostSamples] has concrete runs.
    - [Atomics*] (atomics.cpp, C33-C35): the code emitted for each atomic
      operation run among arbitrary other writers, and the three-pass policy.
    - [Allocator*] (allocator.c, C36-C37): the synchronised islands over a heap
      class (TLSF), any number of processors, and calloc, realloc and
      posix_memalign; [AllocatorSamples] instantiates the class.
    - [Frames*] (stackify.cpp, C38): the static layout of the software stack.
    - [RegionIds*] (stackify.cpp): units, physical roots and the packed region
      identifiers control goes through (part of C39).
    - [StackMachine*], [StackCompiled], [StackSamples] (stackify.cpp, C39):
      [StackMachine] has the emitted code as operations on control words and
      memory, an abstract call stack, and the interface [StackABI];
      [StackMachineFacts] its laws, [StackMachineInv] the relation between the
      two, [StackMachineSim], [StackMachineCalls] and [StackMachineProps] the
      simulation; [StackCompiled] discharges the interface with the layout of
      [Frames], so the theorem is about accepted modules.
    - [Liveness*] (stackify.cpp, C40): the analysis that decides which values
      survive a suspension, against paths to a use.
    - [FixedImage*], [FixedLayout], [FixedSamples] (memory.cpp, C4, C9, C14):
      [FixedImage] has the fixed tier's pass - map budget, placement of
      globals, serialisation with its fixup table, regions and configuration
      record; [FixedImageFacts] the meaning of an initialiser at a window,
      [FixedImageSound] that serialisation produces it, [FixedLayout] the
      placement, [FixedImageProps] the composition with the host's
      relocation and planner; [FixedSamples] a data layout and an object.
    - [HeapAccess*], [StackAccess] (memory.cpp, C8, C17, C20, C22, C27): what
      the emitted accessors, split, direct and stack accesses compute over
      the region maps, as loads and stores of one flat memory.
    - [Arena*] (memory.cpp, C23, C30, C31): [Arena] has the arena tier's pass -
      sparse layout, initialisers stripped of addresses, affine resolution of
      those addresses, the fixup tables - and [ArenaInit] the generated
      initialiser program and the test at every entry, as threads on shared
      state; [ArenaFacts] shows that stripping loses nothing, [ArenaTables]
      what the tables store, [ArenaProps] that they restore the initialisers,
      [ArenaLayout] the layout and its agreement with the host's planner,
      [ArenaInitProps] the phases under every interleaving; [ArenaSamples]
      has an object, a loop and a kernel.
    - [SoftFloat*] (softfloat.cpp, validate_no_float.cpp, C12-C13): [SoftFloat]
      has the pass over functions in SSA form - unsupported types, retyping,
      constants, the code for each instruction, the names asked of the link -
      and the later check; [SoftFloatRun] an interpreter of programs before
      and after, with IEEE rounding and the runtime's routines as parameters;
      [SoftFloatClass] the comparisons and class tests on bits,
      [SoftFloatTypes] classification and retyping, [SoftFloatFacts] values,
      memory and single instructions, [SoftFloatSim] whole runs,
      [SoftFloatVerdict] diagnostics and what is left; [SoftFloatSamples]
      instantiates the parameters with the Standard Library's IEEE 754.

    ** Conventions

    A definition keeps the name of the function it translates; helpers for a
    part of a long function are mapped to its lines.  [report_fatal_error] and
    [emitError] return a diagnostic as [Err].  LLVM's own facts (types, use
    lists, dominators) are fields or parameters; third-party code (kernel
    helpers, TLSF, compiler-rt) is a parameter with its documented behaviour as
    hypotheses or class laws, each instantiated by a sample.  A theorem with
    hypotheses has a [_witness] that applies it to a concrete input.

    ** Fuel

    Loops that are not structural take fuel, and their termination is proved:
    [solveFuel] bounds the sweeps of the spill plan by its lattice height
    (C10), [rounds] the liveness iteration by blocks times values (C40), the
    fiber driver has the source's own trip counts (C21), the budget's traversal
    stops on a cycle or after all nodes (C3).

    ** Findings

    A sub-word compare-exchange whose first relaxed load shows another value
    reports failure without an ordered access, whatever failure ordering was
    asked for (atomics.cpp:205; the refinement of C33 is in coherence order).
    A floating-point load or store with an atomic ordering is rebuilt without
    it (softfloat.cpp:913); the memory of [SoftFloatRun] has one thread.

    ** Not modelled

    Of stackify.cpp: loop classification and chunking, region formation and the
    balancing of units, the generated step functions, setjmp/longjmp, frame
    addresses, and the IR surgery of demotion (LLVM's [DemoteRegToStack]).
    Values pass through the software stack as the bytes of their allocated
    size; where a provisional state number comes from is a hypothesis of C39
    (each is given out once).  Of memory.cpp: which instruction is routed to
    which access, the licensing casts of arena accesses, the rewriting of the
    uses of moved globals in code.  Of softfloat.cpp: va_arg, vectors of
    integers, attributes, debug information and the order in which replaced
    instructions are erased.  Also unified_spills_mir.cpp and
    machine_flatten.cpp (rewrites of machine code), the linker driver,
    the other clean-up and validation passes, BTF rewriting, pass registration,
    libc glue, examples and tests.  The plan's remainder: the generated dispatch
    and setjmp/longjmp. *)

From Stdlib Require Import ZArith Lia.
From stdpp Require Import base numbers list gmap strings sets fin_maps relations.

Declare Scope capsule_scope.
Delimit Scope capsule_scope with capsule.

(** ** Errors as values

    The passes stop with [report_fatal_error] or [emitError]; the model
    returns the diagnostic as a value. *)

Inductive result (E A : Type) : Type :=
| Ok (a : A)
| Err (e : E).
Arguments Ok {E A} a.
Arguments Err {E A} e.

Global Instance result_ret {E} : MRet (result E) := λ A a, Ok a.
Global Instance result_bind {E} : MBind (result E) := λ A B f m,
  match m with Ok a => f a | Err e => Err e end.

Definition is_Ok {E A} (m : result E A) : bool :=
  match m with Ok _ => true | Err _ => false end.

(** A [for] loop over a vector whose body may stop with a diagnostic. *)
Fixpoint foldM {E A S} (f : A → S → result E S) (l : list A) (s : S) : result E S :=
  match l with
  | [] => Ok s
  | x :: l => match f x s with Ok s' => foldM f l s' | Err e => Err e end
  end.

Lemma foldM_app {E A S} (f : A → S → result E S) l1 l2 s :
  foldM f (l1 ++ l2) s =
  match foldM f l1 s with Ok s' => foldM f l2 s' | Err e => Err e end.
Proof.
  revert s. induction l1 as [|x l1 IH]; intros s; simpl; [done|].
  by destruct (f x s).
Qed.

Lemma bind_Ok {E A B} (f : A → result E B) (x : result E A) y :
  x ≫= f = Ok y ↔ ∃ z, x = Ok z ∧ f z = Ok y.
Proof. destruct x; split; naive_solver. Qed.

Lemma bind_ok {E A B} (f : A → result E B) (x : A) : Ok x ≫= f = f x.
Proof. done. Qed.

Lemma bind_Err {E A B} (f : A → result E B) (x : result E A) e :
  x ≫= f = Err e ↔ x = Err e ∨ ∃ z, x = Ok z ∧ f z = Err e.
Proof. destruct x; split; naive_solver. Qed.

Lemma foldM_Ok_invariant {E A S} (f : A → S → result E S) (P : list A → S → Prop) l s s' :
  P [] s →
  (∀ pre x s0 s1, (∃ post, l = pre ++ x :: post) → P pre s0 → f x s0 = Ok s1 → P (pre ++ [x]) s1) →
  foldM f l s = Ok s' → P l s'.
Proof.
  intros H0 Hstep. revert s s' H0 Hstep.
  induction l as [|x l IH] using rev_ind; intros s s' H0 Hstep Hf.
  - simpl in Hf. by injection Hf as ->.
  - rewrite foldM_app in Hf. destruct (foldM f l s) as [s0|] eqn:E0; [|done].
    simpl in Hf. destruct (f x s0) as [s1|] eqn:E1; [|done]. injection Hf as ->.
    eapply Hstep; [by exists []| |exact E1].
    eapply IH; [exact H0| |exact E0].
    intros pre y t0 t1 [post ->] Hp Hy. eapply Hstep; [|exact Hp|exact Hy].
    exists (post ++ [x]). by rewrite <-app_assoc.
Qed.

(** An error of a loop is an error of one of its iterations, reached after
    the iterations before it succeeded. *)
Lemma foldM_Err_split {E A S} (f : A → S → result E S) l s e :
  foldM f l s = Err e →
  ∃ pre x post s0, l = pre ++ x :: post ∧ foldM f pre s = Ok s0 ∧ f x s0 = Err e.
Proof.
  revert s. induction l as [|x l IH]; intros s Hf; simpl in *; [done|].
  destruct (f x s) as [s1|e'] eqn:Ef.
  - apply IH in Hf as (pre & y & post & s0 & -> & Hpre & Hy).
    exists (x :: pre), y, post, s0. simpl. by rewrite Ef.
  - simplify_eq. by exists [], x, l, s.
Qed.

Lemma foldM_Err {E A S} (f : A → S → result E S) (P : S → Prop) l s e :
  P s → (∀ x s0 s1, x ∈ l → P s0 → f x s0 = Ok s1 → P s1) → foldM f l s = Err e →
  ∃ x s0, x ∈ l ∧ P s0 ∧ f x s0 = Err e.
Proof.
  intros HP Hok (pre & x & post & s0 & -> & Hpre & Hx)%foldM_Err_split.
  exists x, s0. split_and!; [apply elem_of_app; right; by left| |done].
  eapply (foldM_Ok_invariant f (λ _, P)); [exact HP| |exact Hpre].
  intros pre' y t0 t1 [post' ->] Ht Hy. eapply Hok; [|done|done].
  rewrite !elem_of_app. left. right. by left.
Qed.

(** An invariant of the iterations holds where a loop stops with an error. *)
Lemma foldM_Err_invariant {E A S} (f : A → S → result E S) (P : list A → S → Prop) l s e :
  P [] s →
  (∀ pre x s0 s1, (∃ post, l = pre ++ x :: post) → P pre s0 → f x s0 = Ok s1 → P (pre ++ [x]) s1) →
  foldM f l s = Err e →
  ∃ pre x post s0, l = pre ++ x :: post ∧ P pre s0 ∧ f x s0 = Err e.
Proof.
  intros HP Hstep (pre & x & post & s0 & -> & Hpre & Hx)%foldM_Err_split.
  exists pre, x, post, s0. split_and!; [done| |done].
  eapply (foldM_Ok_invariant f P); [exact HP| |exact Hpre].
  intros pre' y t0 t1 [post' ->] Ht Hy. eapply Hstep; [|done|done].
  exists (post' ++ x :: post). by rewrite <-app_assoc.
Qed.

(** A loop whose iterations keep an invariant, grow the state and cover their
    element: at the end every element is covered. *)
Lemma foldM_covers {E A S} (f : A → S → result E S) (Inv : S → Prop) (le : relation S) `{!PreOrder le} (Q : A → S → Prop) l :
  (∀ x s s', x ∈ l → Inv s → f x s = Ok s' → Inv s' ∧ le s s' ∧ Q x s') → (∀ x s s', le s s' → Q x s → Q x s') →
  ∀ s s', Inv s → foldM f l s = Ok s' → Inv s' ∧ le s s' ∧ ∀ x, x ∈ l → Q x s'.
Proof.
  intros Hf Hmono. induction l as [|x l IH]; intros s s' Hi H; simpl in H.
  { injection H as <-. split_and!; [done|done|]. by intros x ?%not_elem_of_nil. }
  destruct (f x s) as [s1|] eqn:E1; [|done]. apply Hf in E1 as (Hi1 & Hle1 & Hq); [|by left|done].
  apply IH in H as (Hi2 & Hle2 & Hqs); [|intros; eapply Hf; [by right|done|done]|done].
  split_and!; [done|by etransitivity|]. intros y [->|Hy]%elem_of_cons; [by eapply Hmono|by apply Hqs].
Qed.

(** Every iteration of a loop that ends well ended well. *)
Lemma foldM_each {E A S} (f : A → S → result E S) l s s' x : foldM f l s = Ok s' → x ∈ l → ∃ s0 s1, f x s0 = Ok s1.
Proof.
  revert s. induction l as [|y l IH]; intros s H Hx; [by apply not_elem_of_nil in Hx|]. simpl in H. destruct (f y s) as [s1|] eqn:E1; [|done].
  apply elem_of_cons in Hx as [->|Hx]; [by exists s, s1|by eapply IH].
Qed.

(** A loop that collects what its body returns. *)
Fixpoint mapResult {E A B} (f : A → result E B) (l : list A) : result E (list B) :=
  match l with
  | [] => Ok []
  | x :: l => match f x with
              | Ok y => match mapResult f l with Ok ys => Ok (y :: ys) | Err e => Err e end
              | Err e => Err e
              end
  end.

Lemma mapResult_Forall2 {E A B} (f : A → result E B) l l' : mapResult f l = Ok l' → Forall2 (λ x y, f x = Ok y) l l'.
Proof.
  revert l'. induction l as [|x l IH]; intros l' H; cbn in H; [injection H as <-; constructor|].
  destruct (f x) as [y|] eqn:Ex; [|done]. destruct (mapResult f l) as [ys|]; [|done]. injection H as <-. constructor; auto.
Qed.

Lemma mapResult_Err {E A B} (f : A → result E B) l e : mapResult f l = Err e → ∃ x, x ∈ l ∧ f x = Err e.
Proof.
  induction l as [|x l IH]; cbn; [done|]. destruct (f x) as [y|e'] eqn:Ex.
  - destruct (mapResult f l); [done|]. intros H. destruct IH as (z & ? & ?); [congruence|]. exists z. split; [by right|done].
  - intros [= ->]. exists x. split; [by left|done].
Qed.

(** ** Tactics *)

(** Turn every boolean test on integers of the context and goal into the
    proposition it decides. *)
Ltac bool_to_prop :=
  repeat match goal with
  | H : (_ && _)%bool = true |- _ => apply andb_true_iff in H as [? ?]
  | H : (_ || _)%bool = false |- _ => apply orb_false_iff in H as [? ?]
  | H : negb _ = true |- _ => apply negb_true_iff in H
  | H : negb _ = false |- _ => apply negb_false_iff in H
  | H : Z.eqb _ _ = true |- _ => apply Z.eqb_eq in H
  | H : Z.eqb _ _ = false |- _ => apply Z.eqb_neq in H
  | H : Z.ltb _ _ = true |- _ => apply Z.ltb_lt in H
  | H : Z.ltb _ _ = false |- _ => apply Z.ltb_ge in H
  | H : Z.leb _ _ = true |- _ => apply Z.leb_le in H
  | H : Z.leb _ _ = false |- _ => apply Z.leb_gt in H
  | H : bool_decide _ = true |- _ => apply bool_decide_eq_true in H
  | H : bool_decide _ = false |- _ => apply bool_decide_eq_false in H
  end.

(** Split on the scrutinee of the first [match] or [if] of hypothesis [H]. *)
Ltac case_in H :=
  match type of H with
  | context [match ?x with _ => _ end] => destruct x eqn:?
  end.

Create HintDb capsule discriminated.

(** ** Words

    A [w]-bit unsigned integer is a [Z] in [0, 2^w); [wrap] is the
    conversion the C and LLVM arithmetic performs. *)

Local Open Scope Z_scope.

Definition wrap (w x : Z) : Z := x mod 2 ^ w.
Definition u32 (x : Z) : Z := wrap 32 x.
Definition u64 (x : Z) : Z := wrap 64 x.

(** Two's complement reading of a [w]-bit word. *)
Definition sgn (w x : Z) : Z := if x <? 2 ^ (w - 1) then x else x - 2 ^ w.

Lemma pow2_pos w : 0 <= w → 0 < 2 ^ w.
Proof. intros; apply Z.pow_pos_nonneg; lia. Qed.
#[export] Hint Resolve pow2_pos : capsule.

Lemma wrap_range w x : 0 <= w → 0 <= wrap w x < 2 ^ w.
Proof. intros; apply Z.mod_pos_bound; auto with capsule. Qed.

Lemma wrap_small w x : 0 <= x < 2 ^ w → wrap w x = x.
Proof. apply Z.mod_small. Qed.

Lemma wrap_idemp w x : 0 <= w → wrap w (wrap w x) = wrap w x.
Proof. intros. apply wrap_small, wrap_range; done. Qed.

(** ** Powers of two *)

Definition powerOfTwo (al : Z) : Prop := ∃ k, 0 <= k ∧ al = 2 ^ k.

(** The bit test of the alignment. *)
Lemma land_pow2_iff al : 0 < al → Z.land al (al - 1) = 0 ↔ powerOfTwo al.
Proof.
  intros Hal. split.
  - intros Hz. exists (Z.log2 al). split; [apply Z.log2_nonneg|].
    destruct (Z.log2_spec al) as [Hlo Hhi]; [lia|]. destruct (decide (al = 2 ^ Z.log2 al)) as [|Hne]; [done|exfalso].
    assert (Hb : Z.testbit (Z.land al (al - 1)) (Z.log2 al) = true); [|by rewrite Hz, Z.bits_0 in Hb].
    rewrite Z.land_spec, Z.bit_log2 by lia. simpl.
    assert (Hl : Z.log2 (al - 1) = Z.log2 al).
    { apply Z.log2_unique; [apply Z.log2_nonneg|]. rewrite Z.pow_succ_r in * by apply Z.log2_nonneg. lia. }
    rewrite <-Hl. apply Z.bit_log2. pose proof (pow2_pos (Z.log2 al) (Z.log2_nonneg al)). lia.
  - intros (k & Hk & ->). rewrite Z.sub_1_r, <-Z.ones_equiv, Z.land_ones by done. apply Z.mod_same.
    pose proof (pow2_pos k Hk). lia.
Qed.

Lemma land_pred_pow2 al : 0 < al < 2 ^ 64 → Z.land al (u64 (al - 1)) = 0 ↔ powerOfTwo al.
Proof. intros Hal. unfold u64. rewrite wrap_small by lia. apply land_pow2_iff. lia. Qed.

(** Masking with [al - 1] is the remainder. *)
Lemma land_pow2_mod x al : powerOfTwo al → Z.land x (al - 1) = x mod al.
Proof. intros (k & Hk & ->). by rewrite Z.sub_1_r, <-Z.ones_equiv, Z.land_ones. Qed.

Lemma pow2_gt0 x : powerOfTwo x → 0 < x.
Proof. intros (k & Hk & ->). by apply pow2_pos. Qed.
#[export] Hint Resolve pow2_gt0 : capsule.

(** The smaller power divides the larger. *)
Lemma pow2_divide x y : powerOfTwo x → powerOfTwo y → x <= y → (x | y).
Proof.
  intros (j & Hj & ->) (k & Hk & ->) Hle. apply Z.pow_le_mono_r_iff in Hle; [|lia|lia].
  exists (2 ^ (k - j)). rewrite <-Z.pow_add_r by lia. f_equal. lia.
Qed.

Lemma pow2_max x y : powerOfTwo x → powerOfTwo y → powerOfTwo (Z.max x y).
Proof. intros Hx Hy. destruct (Z.max_spec x y) as [[_ ->]|[_ ->]]; done. Qed.

Lemma mod_divide_trans x y z : 0 < y → (y | z) → x mod z = 0 → 0 < z → x mod y = 0.
Proof.
  intros Hy Hd Hx Hz. apply Z.mod_divide in Hx; [|lia]. apply Z.mod_divide; [lia|]. by eapply Z.divide_trans.
Qed.

(** Sum of an integer measure over a list. *)
Fixpoint Zsum {A} (f : A → Z) (l : list A) : Z :=
  match l with [] => 0 | x :: l => f x + Zsum f l end.

Lemma Zsum_app {A} (f : A → Z) l1 l2 : Zsum f (l1 ++ l2) = Zsum f l1 + Zsum f l2.
Proof. induction l1; simpl; lia. Qed.

Lemma Zsum_le {A} (f g : A → Z) l : (∀ x, x ∈ l → f x <= g x) → Zsum f l <= Zsum g l.
Proof.
  induction l as [|x l IH]; intros H; simpl; [lia|].
  specialize (H x) as Hx. ospecialize (Hx _); [by left|].
  ospecialize (IH _); [intros y Hy; apply H; by right|]. lia.
Qed.

(** The first element of a list that satisfies a boolean test. *)
Lemma Exists_or_Forall_first {A} (f : A → bool) l :
  (∀ x, x ∈ l → f x = false) ∨
  ∃ l1 x l2, l = l1 ++ x :: l2 ∧ f x = true ∧ ∀ y, y ∈ l1 → f y = false.
Proof.
  induction l as [|x l IH]; [left; by intros x ?%not_elem_of_nil|].
  destruct (f x) eqn:E.
  - right. exists [], x, l. split_and!; [done|done|]. by intros y ?%not_elem_of_nil.
  - destruct IH as [IH|(l1 & y & l2 & -> & Hy & Hl)].
    + left. intros y [->|?]%elem_of_cons; auto.
    + right. exists (x :: l1), y, l2. split_and!; [done|done|].
      intros z [->|?]%elem_of_cons; auto.
Qed.

(** A [foldl] keeps an invariant its body keeps. *)
Lemma foldl_invariant {A B} (f : B → A → B) (P : list A → B → Prop) l b :
  P [] b →
  (∀ pre x b0, (∃ post, l = pre ++ x :: post) → P pre b0 → P (pre ++ [x]) (f b0 x)) →
  P l (foldl f b l).
Proof.
  revert b. induction l as [|x l IH] using rev_ind; intros b H0 Hstep; [done|].
  rewrite foldl_app. simpl. apply Hstep; [by exists []|].
  apply IH; [done|]. intros pre y b0 [post ->] HP.
  apply Hstep; [|done]. exists (post ++ [x]). by rewrite <-app_assoc.
Qed.
