(* ===== verification/Graph.v ===== *)
(** * Directed graphs: paths, depth-first search, topological orders

    The generic part of the call-graph analyses: [machine_stack_budget.cpp]
    and [capsule_domains.cpp] both walk a call graph, the first with a
    three-colour search that also yields a postorder, the second with a
    worklist and a visited set.  This file holds the path vocabulary and the
    facts about a list sorted topologically. *)

From Stdlib Require Import ZArith Lia.
From stdpp Require Import base numbers list gmap sets fin_maps relations.
From S2P Require Import Prelude.

Section graph.
Context {A : Type} (succ : A → list A).

Definition edge (x y : A) : Prop := y ∈ succ x.

(** A non-empty walk along the edges. *)
Inductive chain : list A → Prop :=
| chain_one x : chain [x]
| chain_cons x y l : edge x y → chain (y :: l) → chain (x :: y :: l).

Lemma chain_nonempty : ¬ chain [].
Proof. inversion 1. Qed.

Lemma chain_snoc l x y : chain (l ++ [x]) → edge x y → chain (l ++ [x; y]).
Proof.
  intros Hc He. remember (l ++ [x]) as k eqn:Ek. revert l Ek.
  induction Hc as [z|z w k Hzw Hc IH]; intros l Ek.
  - destruct l as [|a l]; simplify_eq/=; [by repeat constructor|].
    by destruct l.
  - destruct l as [|a [|b l]]; simplify_eq/=.
    + constructor; [done|]. by repeat constructor.
    + constructor; [done|]. by apply (IH (b :: l)).
Qed.

Lemma chain_app_l l1 x l2 : chain (l1 ++ x :: l2) → chain (l1 ++ [x]).
Proof.
  induction l1 as [|a l1 IH]; simpl; intros Hc; [constructor|].
  inversion Hc as [|? b l Hab Hc' Heq]; subst; [by destruct l1|].
  destruct l1 as [|c l1]; simplify_eq/=; eauto using chain.
Qed.

Lemma chain_app_r l1 x l2 : chain (l1 ++ x :: l2) → chain (x :: l2).
Proof.
  induction l1 as [|a l1 IH]; simpl; intros Hc; [done|].
  apply IH. destruct l1 as [|b l1]; by inv Hc.
Qed.

Lemma chain_last_edge l x y : chain (l ++ [x; y]) → edge x y.
Proof. intros Hc. apply chain_app_r in Hc. by inv Hc. Qed.

(** ** Topological lists

    [topo l]: [l] lists nodes with every successor of a node strictly
    before it, without repetition - a postorder of an acyclic graph. *)
Inductive topo : list A → Prop :=
| topo_nil : topo []
| topo_snoc l x : topo l → (∀ y, edge x y → y ∈ l) → x ∉ l → topo (l ++ [x]).

Lemma topo_NoDup l : topo l → NoDup l.
Proof.
  induction 1 as [|l x _ IH _ Hx]; [constructor|].
  apply NoDup_app. repeat split; [done| |apply NoDup_singleton].
  intros y Hy ->%list_elem_of_singleton. done.
Qed.

Lemma topo_prefix l1 l2 : topo (l1 ++ l2) → topo l1.
Proof.
  induction l2 as [|x l2 IH] using rev_ind; [by rewrite app_nil_r|].
  rewrite app_assoc. intros Ht. apply IH. inversion Ht as [Hn|l y Hl Hy Hx Heq].
  - by destruct (l1 ++ l2).
  - apply app_inj_2 in Heq as [-> _]; [done|done].
Qed.

Lemma topo_succ l1 x l2 y : topo (l1 ++ x :: l2) → edge x y → y ∈ l1.
Proof.
  rewrite (app_assoc l1 [x] l2 : l1 ++ x :: l2 = _).
  intros Ht%topo_prefix Hxy. inversion Ht as [Hn|l z Hl Hz Hx Heq].
  - by destruct l1.
  - apply app_inj_2 in Heq as [-> Heq]; [|done]. simplify_eq. by apply Hz.
Qed.

Lemma topo_closed l x y : topo l → x ∈ l → edge x y → y ∈ l.
Proof.
  intros Ht Hx Hxy. apply list_elem_of_split in Hx as (l1 & l2 & ->).
  apply elem_of_app. left. by eapply topo_succ.
Qed.

Lemma topo_reach l x y : topo l → x ∈ l → rtc edge x y → y ∈ l.
Proof. intros Ht Hx Hr. induction Hr; [done|]. eauto using topo_closed. Qed.

(** Along a chain inside a topological list positions strictly descend, so
    no node repeats. *)
Lemma topo_chain_before l1 x l2 k :
  topo (l1 ++ x :: l2) → chain (x :: k) → ∀ y, y ∈ k → y ∈ l1.
Proof.
  intros Ht Hc. remember (x :: k) as p eqn:Ep. revert x k l1 l2 Ht Ep.
  induction Hc as [z|z w p Hzw Hc IH]; intros x k l1 l2 Ht Ep y Hy; simplify_eq/=.
  - by apply not_elem_of_nil in Hy.
  - assert (Hw : w ∈ l1) by by eapply topo_succ.
    apply elem_of_cons in Hy as [->|Hy]; [done|].
    apply list_elem_of_split in Hw as (m1 & m2 & ->).
    apply elem_of_app. left. eapply (IH w p m1 (m2 ++ x :: l2)); [|done|done].
    by rewrite <-app_assoc in Ht.
Qed.

Lemma topo_chain_NoDup l p : topo l → chain p → (∀ x, head p = Some x → x ∈ l) → NoDup p.
Proof.
  intros Ht Hc. induction Hc as [z|z w p Hzw Hc IH]; intros Hl.
  - apply NoDup_singleton.
  - assert (Hz : z ∈ l) by by apply Hl.
    apply NoDup_cons. split.
    + intros Hin. pose proof (topo_NoDup _ Ht) as Hnd.
      apply list_elem_of_split in Hz as (l1 & l2 & ->).
      assert (z ∈ l1) as Hz1.
      { eapply (topo_chain_before l1 z l2 (w :: p)); [done| |done]. by constructor. }
      apply NoDup_app in Hnd as (_ & Hnd & _). apply (Hnd z Hz1). apply elem_of_cons; by left.
    + apply IH. intros x [= <-]. by eapply topo_closed.
Qed.

(** A property passed along the edges of a closed set holds along a chain. *)
Lemma chain_transport (C P : A → Prop) x l :
  (∀ a b, C a → edge a b → C b) → (∀ a b, C a → P a → edge a b → P b) →
  C x → P x → chain (x :: l) → ∀ w, w ∈ x :: l → C w ∧ P w.
Proof.
  intros HC HP. revert x. induction l as [|y l IH]; intros x Cx Px Hc w Hw.
  - apply list_elem_of_singleton in Hw as ->. done.
  - inv Hc. apply elem_of_cons in Hw as [->|Hw]; [done|].
    apply (IH y); eauto.
Qed.

Lemma chain_rtc x l y : chain (x :: l ++ [y]) → rtc edge x y.
Proof.
  revert x. induction l as [|z l IH]; intros x Hc; simpl in *; inv Hc.
  - by apply rtc_once.
  - eapply rtc_l; [done|]. by apply IH.
Qed.
End graph.

Arguments chain {A} succ l.
Arguments topo {A} succ l.
Arguments edge {A} succ x y.

(** ** Worklists

    A worklist in which node [i] of a table pushes [w] entries, once.  The
    entries not pushed yet decrease by exactly that number when a node is
    first reached. *)
Section pending.
Context {B : Type} (w : B → nat).

Definition weight (reached : gset nat) (p : nat * B) : nat :=
  if bool_decide (p.1 ∈ reached) then 0 else w p.2.

Definition pending_weight (l : list B) (reached : gset nat) : nat :=
  sum_list (weight reached <$> imap pair l).

Lemma weight_other f reached p : p.1 ≠ f → weight ({[f]} ∪ reached) p = weight reached p.
Proof.
  intros Hne. unfold weight.
  rewrite (bool_decide_ext (p.1 ∈ {[f]} ∪ reached) (p.1 ∈ reached)); [done|set_solver].
Qed.

Lemma weights_drop (l : list (nat * B)) f fn reached :
  NoDup l.*1 → (f, fn) ∈ l → f ∉ reached →
  (sum_list (weight ({[f]} ∪ reached) <$> l) + w fn = sum_list (weight reached <$> l))%nat.
Proof.
  intros Hnd Hin Hr. induction l as [|[g gn] l IH]; [by apply not_elem_of_nil in Hin|].
  rewrite !fmap_cons in *. apply NoDup_cons in Hnd as [Hg Hnd]. cbn [sum_list foldr fst] in *.
  unfold sum_list in *. cbn [foldr].
  apply elem_of_cons in Hin as [[= -> ->]|Hin].
  - assert (E : weight ({[g]} ∪ reached) <$> l = weight reached <$> l).
    { apply list_fmap_ext. intros i p Hp. apply weight_other. intros <-.
      apply Hg, list_elem_of_fmap. exists p. split; [done|]. by eapply list_elem_of_lookup_2. }
    rewrite E. unfold weight at 1 3. simpl.
    rewrite bool_decide_true, bool_decide_false by set_solver. lia.
  - specialize (IH Hnd Hin). rewrite weight_other; [lia|]. simpl. intros ->.
    apply Hg, list_elem_of_fmap. by exists (f, fn).
Qed.

Lemma imap_pair_fst (l : list B) k : (imap (λ i x, (k + i, x)%nat) l).*1 = seq k (length l).
Proof.
  revert k. induction l as [|x l IH]; intros k; [done|]. simpl. rewrite Nat.add_0_r. f_equal.
  rewrite <-IH. f_equal. apply imap_ext. intros i y _. simpl. f_equal. lia.
Qed.

Lemma pending_visit l f fn reached :
  l !! f = Some fn → f ∉ reached →
  (pending_weight l ({[f]} ∪ reached) + w fn = pending_weight l reached)%nat.
Proof.
  intros Hf Hr. apply weights_drop; [|by apply elem_of_lookup_imap_2|done].
  change (imap pair l) with (imap (λ i x, (0 + i, x)%nat) l).
  rewrite imap_pair_fst. apply NoDup_seq.
Qed.

Lemma pending_absent l f reached :
  (length l <= f)%nat → pending_weight l ({[f]} ∪ reached) = pending_weight l reached.
Proof.
  intros Hf. unfold pending_weight. f_equal. apply list_fmap_ext. intros i p Hp.
  apply weight_other. rewrite list_lookup_imap in Hp.
  destruct (l !! i) eqn:E; simplify_eq/=. apply lookup_lt_Some in E. lia.
Qed.

Lemma pending_empty l : pending_weight l ∅ = sum_list (w <$> l).
Proof.
  unfold pending_weight. f_equal. rewrite fmap_imap. rewrite <-(imap_const w l).
  apply imap_ext. intros i x _. unfold weight. simpl. by rewrite bool_decide_false by set_solver.
Qed.
End pending.
