(* ===== verification/StackBudget.v ===== *)
(** * The native call-stack budget ([src/src/pass/machine_stack_budget.cpp])

    Linux charges the whole BPF-to-BPF call path against 512 bytes and eight
    frames.  The pass contracts every flatten class of the selected machine
    program into one call-graph node, rejects recursion, nested Capsule
    frames, paths of more than eight frames and fixed paths over 512 bytes,
    and records on every allocation unit the part of the 512 bytes its own
    frame may use.  This file translates the pass; [StackBudgetProps]
    proves that an accepted program respects both kernel limits on every
    call path.

    Sizes are unbounded integers here; [StackBudgetProps] also shows that
    the sums stay below 2^64, where the pass's [uint64_t] does not wrap.
    [std::vector]s indexed by node and initialised with a sentinel (colour 0,
    call depth 0, predecessor -1, the [Invalid] size) are finite maps in
    which an absent key is the sentinel. *)

From Stdlib Require Import ZArith Lia.
From stdpp Require Import base numbers list gmap sets fin_maps strings pretty sorting.
From S2P Require Import Prelude Graph.

Local Open Scope Z_scope.

Module StackBudget.

Definition KernelStackBytes : Z := 512.
Definition PortableStackGranule : Z := 32.
Definition KernelCallFrames : Z := 8.

(** ** The machine program the pass reads *)

Inductive md_operand :=
| MdInt (value : Z)
| MdOther.
Abbreviation mdnode := (list md_operand).

(** A [GlobalValue] an instruction operand names: a function by identity, or
    another global. *)
Inductive global_ref :=
| GFunction (id : nat) (declaration : bool)
| GOther.

Inductive moperand :=
| OpReg (physical : bool) (name : string)
| OpImm (value : Z)
| OpGlobal (g : global_ref)
| OpOther.

Record minstr := MInstr { mi_opcode : string; mi_operands : list moperand }.

Record machine := Machine { mach_stack_size : Z; mach_blocks : list (list minstr) }.

Record mfunction := MFunction {
  mf_id : nat;
  mf_name : string;
  mf_declaration : bool;
  mf_section : option string;
  mf_flatten_root : option mdnode;
  mf_flatten_unit : option mdnode;
  mf_allocation_unit : option mdnode;
  mf_machine : option machine;
}.

(** [bpf::IsEntryProgram] *)
Definition IsEntryProgram (section : option string) : bool :=
  match section with
  | Some s => negb (String.eqb s ".ksyms")
  | None => false
  end.

Record Node := MkNode {
  FlattenClass : option Z;
  Members : list mfunction;
  Root : option mfunction;
  VariableFrame : bool;
  FixedFloor : Z;
  Successors : list nat;
}.
Definition emptyNode : Node := MkNode None [] None false 0 [].
Global Instance Node_inhabited : Inhabited Node := populate emptyNode.

Inductive error :=
| MalformedMetadata (f : nat)
| ConflictingClasses (f : nat)
| DuplicateRoots (f g : nat)
| NoOutputRoot (cls : Z)
| UnselectedReference (caller callee : nat)
| RecursivePath (cycle : list nat)
| NestedFrames (previous node : nat)
| TooManyFrames (frames : Z) (path : list nat)
| NativePathOverflow (bytes : Z) (path : list nat)
| NoFrameFits (path : list nat) (fixed floor : Z)
| OutOfFuel.

(** [metadataClass]: the single integer operand of a class marker. *)
Definition metadataClass (f : nat) (metadata : option mdnode) : result error (option Z) :=
  match metadata with
  | None => Ok None
  | Some [MdInt v] => if v <? 2 ^ 32 then Ok (Some v) else Err (MalformedMetadata f)
  | Some _ => Err (MalformedMetadata f)
  end.

Definition starts_with (p s : string) : bool := String.prefix p s.
Fixpoint contains (p s : string) : bool :=
  starts_with p s ||
  match s with
  | EmptyString => false
  | String _ s => contains p s
  end.

Definition isStackMemoryOpcode (name : string) : bool :=
  existsb (String.eqb name)
    ["LDD"; "LDW"; "LDW32"; "LDH"; "LDH32"; "LDB"; "LDB32";
     "STD"; "STW"; "STW32"; "STH"; "STH32"; "STB"; "STB32"]%string
  || (starts_with "ST" name && contains "_imm" name).

(** The stack bytes below [r10] one instruction touches, when it is a load or
    store based on [r10] with a negative immediate. *)
Definition stackAccess (i : minstr) : option Z :=
  if isStackMemoryOpcode (mi_opcode i) then
    match mi_operands i !! 1%nat, mi_operands i !! 2%nat with
    | Some (OpReg physical base), Some (OpImm offset) =>
        if physical && String.eqb base "R10" && (offset <? 0) then Some (- offset) else None
    | _, _ => None
    end
  else None.

Definition alignTo (value granule : Z) : Z := (value + granule - 1) / granule * granule.

Definition rawFrameBytes (m : machine) : Z :=
  foldl (λ raw i, match stackAccess i with Some b => Z.max raw b | None => raw end)
        (mach_stack_size m) (concat (mach_blocks m)).

Definition portableFrameBytes (m : machine) : Z :=
  alignTo (Z.max (rawFrameBytes m) 1) PortableStackGranule.

(** ** Diagnostics *)

Definition nodeName (node : Node) : string :=
  match Root node, Members node with
  | Some r, _ => mf_name r
  | None, m :: _ => mf_name m
  | None, [] => EmptyString
  end.

Fixpoint printPath (nodes : list Node) (path : list nat) (frameBytes : bool) : string :=
  match path with
  | [] => EmptyString
  | n :: rest =>
      let node := nodes !!! n in
      let self := nodeName node +:+
        (if frameBytes then "(" +:+ pretty (FixedFloor node) +:+ " bytes)" else EmptyString) in
      match rest with
      | [] => self
      | _ => self +:+ " -> " +:+ printPath nodes rest frameBytes
      end
  end.

(** Follow a predecessor (or successor) vector until the sentinel; [fuel]
    bounds the walk by the number of nodes. *)
Fixpoint followPath (fuel : nat) (next : gmap nat nat) (node : nat) : list nat :=
  match fuel with
  | O => []
  | S fuel => node :: match next !! node with Some m => followPath fuel next m | None => [] end
  end.

Definition prefixPath (fuel : nat) (node : nat) (predecessor : gmap nat nat) : list nat :=
  reverse (followPath fuel predecessor node).
Definition suffixPath (fuel : nat) (node : nat) (successor : gmap nat nat) : list nat :=
  followPath fuel successor node.

(** ** Contracting the call graph *)

(** The functions selected for code generation, in the iteration order of the
    [machines] map. *)
Definition selected (module : list mfunction) : list (mfunction * machine) :=
  omap (λ f, if mf_declaration f then None
             else match mf_machine f with Some m => Some (f, m) | None => None end) module.

Definition classOf (f : mfunction) : result error (option Z) :=
  root ← metadataClass (mf_id f) (mf_flatten_root f);
  unit ← metadataClass (mf_id f) (mf_flatten_unit f);
  match root, unit with
  | Some r, Some u => if r =? u then Ok (Some r) else Err (ConflictingClasses (mf_id f))
  | Some r, None => Ok (Some r)
  | None, u => Ok u
  end.

Record build := Build {
  b_classNodes : gmap Z nat;
  b_nodeOf : gmap nat nat;
  b_nodes : list Node;
}.

Definition addClassNode (fm : mfunction * machine) (b : build) : result error build :=
  cls ← classOf fm.1;
  match cls with
  | None => Ok b
  | Some c =>
      match b_classNodes b !! c with
      | Some n => Ok (Build (b_classNodes b) (<[mf_id fm.1 := n]> (b_nodeOf b)) (b_nodes b))
      | None =>
          let n := length (b_nodes b) in
          Ok (Build (<[c := n]> (b_classNodes b)) (<[mf_id fm.1 := n]> (b_nodeOf b))
                    (b_nodes b ++ [MkNode (Some c) [] None false 0 []]))
      end
  end.

Definition addPlainNode (b : build) (fm : mfunction * machine) : build :=
  match b_nodeOf b !! mf_id fm.1 with
  | Some _ => b
  | None =>
      Build (b_classNodes b) (<[mf_id fm.1 := length (b_nodes b)]> (b_nodeOf b))
            (b_nodes b ++ [emptyNode])
  end.

Definition has_metadata (m : option mdnode) : bool :=
  match m with Some _ => true | None => false end.

(** Enter one function into its node: member list, output root, and either
    the variable-frame flag or the fixed frame floor. *)
Definition fillNode (f : mfunction) (m : machine) (node : Node) : result error Node :=
  let node := MkNode (FlattenClass node) (Members node ++ [f]) (Root node)
                     (VariableFrame node) (FixedFloor node) (Successors node) in
  node ← (if has_metadata (mf_flatten_root f) then
            match Root node with
            | Some r => Err (DuplicateRoots (mf_id r) (mf_id f))
            | None => Ok (MkNode (FlattenClass node) (Members node) (Some f)
                                 (VariableFrame node) (FixedFloor node) (Successors node))
            end
          else Ok node);
  if has_metadata (mf_allocation_unit f) then
    Ok (MkNode (FlattenClass node) (Members node) (Root node) true
               (FixedFloor node) (Successors node))
  else
    Ok (MkNode (FlattenClass node) (Members node) (Root node) (VariableFrame node)
               (Z.max (FixedFloor node) (portableFrameBytes m)) (Successors node)).

Definition nodeIndex (nodeOf : gmap nat nat) (f : nat) : nat := default 0%nat (nodeOf !! f).

Definition fillNodes (nodeOf : gmap nat nat) (fm : mfunction * machine) (nodes : list Node)
    : result error (list Node) :=
  let i := nodeIndex nodeOf (mf_id fm.1) in
  node ← fillNode fm.1 fm.2 (nodes !!! i);
  Ok (<[i := node]> nodes).

Definition checkRoot (node : Node) (_ : unit) : result error unit :=
  match FlattenClass node, Root node with
  | Some c, None => Err (NoOutputRoot c)
  | _, _ => Ok ()
  end.

(** ** Call edges *)

Definition findFunction (sel : list (mfunction * machine)) (id : nat) : option mfunction :=
  match list_find (λ fm : mfunction * machine, mf_id fm.1 = id) sel with
  | Some (_, fm) => Some fm.1
  | None => None
  end.

(** machine-flatten removes every call whose target is a unit of the
    caller's class; a call back to the root is not removed. *)
Definition removedByFlatten (sel : list (mfunction * machine)) (nodeOf : gmap nat nat)
    (caller callee to : nat) : bool :=
  Nat.eqb (nodeIndex nodeOf caller) to &&
  match findFunction sel callee with
  | Some g => has_metadata (mf_flatten_unit g)
  | None => false
  end.

(** One operand of a selected instruction of [caller]. *)
Definition operandEdge (sel : list (mfunction * machine)) (nodeOf : gmap nat nat)
    (caller : mfunction) (op : moperand) (successors : gset nat) : result error (gset nat) :=
  match op with
  | OpGlobal (GFunction callee declaration) =>
      if declaration then Ok successors
      else match nodeOf !! callee with
           | None => Err (UnselectedReference (mf_id caller) callee)
           | Some to =>
               Ok (if removedByFlatten sel nodeOf (mf_id caller) callee to
                   then successors else {[ to ]} ∪ successors)
           end
  | _ => Ok successors
  end.

Definition sortNodes (l : list nat) : list nat := merge_sort Nat.le l.

Definition callerEdges (sel : list (mfunction * machine)) (nodeOf : gmap nat nat)
    (fm : mfunction * machine) (nodes : list Node) : result error (list Node) :=
  let from := nodeIndex nodeOf (mf_id fm.1) in
  successors ← foldM (operandEdge sel nodeOf fm.1)
                     (concat (mi_operands <$> concat (mach_blocks fm.2))) (∅ : gset nat);
  let node := nodes !!! from in
  Ok (<[from := MkNode (FlattenClass node) (Members node) (Root node) (VariableFrame node)
                       (FixedFloor node)
                       (Successors node ++ sortNodes (elements successors))]> nodes).

(** [llvm::sort] followed by [erase(unique)]. *)
Definition sortUnique (l : list nat) : list nat := sortNodes (remove_dups l).

Definition normalizeNode (node : Node) : Node :=
  MkNode (FlattenClass node) (Members node) (Root node) (VariableFrame node)
         (FixedFloor node) (sortUnique (Successors node)).

Record callgraph := CallGraph {
  cg_nodes : list Node;
  cg_nodeOf : gmap nat nat;
  cg_entries : list nat;
}.

Definition succs (nodes : list Node) (n : nat) : list nat := Successors (nodes !!! n).

(** Lines 167-284: everything up to the list of entry nodes. *)
Definition buildGraph (module : list mfunction) : result error callgraph :=
  let sel := selected module in
  b ← foldM addClassNode sel (Build ∅ ∅ []);
  let b := foldl addPlainNode b sel in
  let nodeOf := b_nodeOf b in
  nodes ← foldM (fillNodes nodeOf) sel (b_nodes b);
  _ ← foldM checkRoot nodes ();
  nodes ← foldM (callerEdges sel nodeOf) sel nodes;
  let nodes := normalizeNode <$> nodes in
  let entries := sortUnique (nodeIndex nodeOf <$> (mf_id ∘ fst <$>
                   filter (λ fm : mfunction * machine, IsEntryProgram (mf_section fm.1)) sel)) in
  Ok (CallGraph nodes nodeOf entries).

(** ** The three-colour search *)

Record dfs := Dfs { color : gmap nat Z; active : list nat; postorder : list nat }.

(** From the first occurrence of [node] on the active path back to it. *)
Definition cycleAt (active : list nat) (node : nat) : list nat :=
  match list_find (eq node) active with
  | Some (i, _) => drop i active ++ [node]
  | None => [node]
  end.

Fixpoint visit (fuel : nat) (nodes : list Node) (node : nat) (st : dfs) : result error dfs :=
  match fuel with
  | O => Err OutOfFuel
  | S fuel =>
      let c := default 0 (color st !! node) in
      if c =? 2 then Ok st
      else if c =? 1 then Err (RecursivePath (cycleAt (active st) node))
      else
        let st := Dfs (<[node := 1]> (color st)) (active st ++ [node]) (postorder st) in
        st ← foldM (visit fuel nodes) (succs nodes node) st;
        Ok (Dfs (<[node := 2]> (color st)) (take (length (active st) - 1) (active st))
                (postorder st ++ [node]))
  end.

Definition emptyDfs : dfs := Dfs ∅ [] [].

(** Every visit on the stack paints a node of the vector, so [length nodes]
    nested calls and one more suffice ([visit_no_OutOfFuel]). *)
Definition topologicalPostorder (cg : callgraph) : result error (list nat) :=
  st ← foldM (visit (S (length (cg_nodes cg))) (cg_nodes cg)) (cg_entries cg) emptyDfs;
  Ok (postorder st).

(** ** At most one variable frame per path *)

Definition varsAt (prev : gmap nat (gset nat)) (n : nat) : gset nat := default ∅ (prev !! n).

(** [*set.begin()]: the least element. *)
Definition firstOf (s : gset nat) : nat := default 0%nat (head (sortNodes (elements s))).

Definition variableStep (nodes : list Node) (node : nat) (prev : gmap nat (gset nat))
    : result error (gmap nat (gset nat)) :=
  prev ← (if VariableFrame (nodes !!! node) then
            if bool_decide (varsAt prev node = ∅)
            then Ok (<[node := {[ node ]}]> prev)
            else Err (NestedFrames (firstOf (varsAt prev node)) node)
          else Ok prev);
  Ok (foldl (λ p s, <[s := varsAt p s ∪ varsAt p node]> p) prev (succs nodes node)).

(** ** Call depth *)

Record depths := Depths { callFrames : gmap nat Z; callPredecessor : gmap nat nat }.

Definition framesAt (d : depths) (n : nat) : Z := default 0 (callFrames d !! n).

Definition relaxDepth (node : nat) (d : depths) (s : nat) : depths :=
  if framesAt d s <? framesAt d node + 1
  then Depths (<[s := framesAt d node + 1]> (callFrames d)) (<[s := node]> (callPredecessor d))
  else d.

Definition depthStep (nodes : list Node) (node : nat) (d : depths) : result error depths :=
  if framesAt d node =? 0 then Ok d
  else if KernelCallFrames <? framesAt d node then
    Err (TooManyFrames (framesAt d node) (prefixPath (length nodes) node (callPredecessor d)))
  else Ok (foldl (relaxDepth node) d (succs nodes node)).

Definition initialDepths (entries : list nat) : depths :=
  Depths (foldl (λ m e, <[e := 1]> m) ∅ entries) ∅.

(** ** Longest fixed-only prefix and suffix *)

Record sizes := Sizes { bytes : gmap nat Z; via : gmap nat nat }.

Definition initialPrefix (nodes : list Node) (entries : list nat) : sizes :=
  Sizes (foldl (λ m e, if VariableFrame (nodes !!! e) then m
                       else <[e := FixedFloor (nodes !!! e)]> m) ∅ entries) ∅.

Definition relaxPrefix (nodes : list Node) (node : nat) (here : Z) (p : sizes) (s : nat) : sizes :=
  if VariableFrame (nodes !!! s) then p
  else
    let candidate := here + FixedFloor (nodes !!! s) in
    let improve := Sizes (<[s := candidate]> (bytes p)) (<[s := node]> (via p)) in
    match bytes p !! s with
    | None => improve
    | Some old => if old <? candidate then improve else p
    end.

Definition prefixStep (nodes : list Node) (node : nat) (p : sizes) : result error sizes :=
  if VariableFrame (nodes !!! node) then Ok p
  else match bytes p !! node with
       | None => Ok p
       | Some here =>
           if KernelStackBytes <? here then
             Err (NativePathOverflow here (prefixPath (length nodes) node (via p)))
           else Ok (foldl (relaxPrefix nodes node here) p (succs nodes node))
       end.

Definition improveSuffix (nodes : list Node) (node : nat) (suffix : gmap nat Z)
    (best : Z * option nat) (s : nat) : Z * option nat :=
  if VariableFrame (nodes !!! s) then best
  else match suffix !! s with
       | None => best
       | Some v =>
           let candidate := FixedFloor (nodes !!! node) + v in
           if best.1 <? candidate then (candidate, Some s) else best
       end.

Definition suffixStep (nodes : list Node) (p : sizes) (node : nat) : sizes :=
  if VariableFrame (nodes !!! node) then p
  else
    let best := foldl (improveSuffix nodes node (bytes p))
                      (FixedFloor (nodes !!! node), None) (succs nodes node) in
    Sizes (<[node := best.1]> (bytes p))
          (match best.2 with Some s => <[node := s]> (via p) | None => via p end).

(** ** The budget of each variable frame *)

Definition beforeStep (nodes : list Node) (prefix : gmap nat Z) (variable : nat)
    (acc : Z * option nat) (candidate : nat) : Z * option nat :=
  match prefix !! candidate with
  | Some here =>
      if bool_decide (variable ∈ succs nodes candidate) then
        match acc.2 with
        | None => (here, Some candidate)
        | Some _ => if acc.1 <? here then (here, Some candidate) else acc
        end
      else acc
  | None => acc
  end.

Definition afterStep (suffix : gmap nat Z) (acc : Z * option nat) (s : nat) : Z * option nat :=
  match suffix !! s with
  | Some here => if acc.1 <? here then (here, Some s) else acc
  | None => acc
  end.

Definition budgetOf (nodes : list Node) (reachable : list nat) (prefix suffix : sizes)
    (variable : nat) : result error Z :=
  let node := nodes !!! variable in
  let before := foldl (beforeStep nodes (bytes prefix) variable) (0, None) (seq 0 (length nodes)) in
  let after := foldl (afterStep (bytes suffix)) (0, None) (Successors node) in
  let fixed := before.1 + after.1 in
  let reached := bool_decide (variable ∈ reachable) in
  let budget := if reached
                then (if fixed <? KernelStackBytes then KernelStackBytes - fixed else 0)
                else KernelStackBytes in
  let path :=
    (match before.2 with
     | Some b => prefixPath (length nodes) b (via prefix)
     | None => [] end)
    ++ [variable]
    ++ (match after.2 with
        | Some a => suffixPath (length nodes) a (via suffix)
        | None => [] end) in
  if reached && ((budget <? PortableStackGranule) || (budget <? FixedFloor node))
  then Err (NoFrameFits path fixed (FixedFloor node))
  else Ok budget.

(** The metadata written: the [NativeStackBudget] of each function. *)
Definition assignBudget (nodes : list Node) (reachable : list nat) (prefix suffix : sizes)
    (variable : nat) (budgets : gmap nat Z) : result error (gmap nat Z) :=
  let node := nodes !!! variable in
  if VariableFrame node then
    budget ← budgetOf nodes reachable prefix suffix variable;
    Ok (foldl (λ b m, if has_metadata (mf_allocation_unit m)
                      then <[mf_id m := budget]> b else b) budgets (Members node))
  else Ok budgets.

Record plan := Plan {
  pl_graph : callgraph;
  pl_postorder : list nat;
  pl_depths : depths;
  pl_prefix : sizes;
  pl_suffix : sizes;
  pl_budgets : gmap nat Z;
}.

(** [runOnModule]; the plan keeps the intermediate vectors next to the
    budgets it writes. *)
Definition runOnModule (module : list mfunction) : result error plan :=
  cg ← buildGraph module;
  post ← topologicalPostorder cg;
  let nodes := cg_nodes cg in
  let order := reverse post in
  _ ← foldM (variableStep nodes) order ∅;
  d ← foldM (depthStep nodes) order (initialDepths (cg_entries cg));
  prefix ← foldM (prefixStep nodes) order (initialPrefix nodes (cg_entries cg));
  let suffix := foldl (suffixStep nodes) (Sizes ∅ ∅) post in
  budgets ← foldM (assignBudget nodes order prefix suffix) (seq 0 (length nodes)) ∅;
  Ok (Plan cg post d prefix suffix budgets).

End StackBudget.
