(* ===== verification/StackBudgetBuild.v ===== *)
(** * The contracted call graph

    What [StackBudget.buildGraph] establishes: every selected function is a
    member of its node, fixed frames are covered by the node's floor, every
    function reference that machine-flatten does not remove is an edge, and
    every edge stays inside the node vector. *)

From Stdlib Require Import ZArith Lia.
From stdpp Require Import base numbers list gmap sets fin_maps strings sorting relations.
From S2P Require Import Prelude Graph StackBudget.

Local Open Scope Z_scope.
Import StackBudget.

Lemma elem_of_sortNodes l n : n ∈ sortNodes l ↔ n ∈ l.
Proof. unfold sortNodes. by rewrite merge_sort_Permutation. Qed.

Lemma elem_of_sortUnique l n : n ∈ sortUnique l ↔ n ∈ l.
Proof. unfold sortUnique. by rewrite elem_of_sortNodes, elem_of_remove_dups. Qed.

(** ** Node creation *)

Definition blank (node : Node) : Prop :=
  Members node = [] ∧ VariableFrame node = false ∧ FixedFloor node = 0 ∧ Successors node = [].

Record build_ok (done : list (mfunction * machine)) (b : build) : Prop := {
  bo_range f n : b_nodeOf b !! f = Some n → (n < length (b_nodes b))%nat;
  bo_class c n : b_classNodes b !! c = Some n → (n < length (b_nodes b))%nat;
  bo_blank : Forall blank (b_nodes b);
}.

Lemma blank_append l n : Forall blank l → blank n → Forall blank (l ++ [n]).
Proof. intros. apply Forall_app. auto. Qed.

Lemma addClassNode_ok done fm b b' :
  build_ok done b → addClassNode fm b = Ok b' → build_ok (done ++ [fm]) b'.
Proof.
  intros Hb. unfold addClassNode. destruct (classOf fm.1) as [[c|]|]; simpl; [| |done].
  - destruct (b_classNodes b !! c) as [n|] eqn:E; intros [= <-]; split; simpl.
    + intros f m. rewrite lookup_insert. case_decide; [intros [= <-]; by eapply bo_class|by eapply bo_range].
    + apply Hb.
    + apply Hb.
    + intros f m. rewrite length_app, lookup_insert. simpl.
      case_decide; [intros [= <-]; lia|]. intros ?%(bo_range _ _ Hb). lia.
    + intros f m. rewrite length_app, lookup_insert. simpl.
      case_decide; [intros [= <-]; lia|]. intros ?%(bo_class _ _ Hb). lia.
    + apply blank_append; [apply Hb|done].
  - intros [= <-]. split; apply Hb.
Qed.

Lemma addPlainNode_ok done fm b : build_ok done b → build_ok (done ++ [fm]) (addPlainNode b fm).
Proof.
  intros Hb. unfold addPlainNode. destruct (b_nodeOf b !! mf_id fm.1); [split; apply Hb|].
  split; simpl.
  - intros f m. rewrite length_app, lookup_insert. simpl.
    case_decide; [intros [= <-]; lia|]. intros ?%(bo_range _ _ Hb). lia.
  - intros f m. rewrite length_app. simpl. intros ?%(bo_class _ _ Hb). lia.
  - apply blank_append; [apply Hb|done].
Qed.

(** After the second loop every selected function has a node. *)
Lemma addPlainNode_total b l fm :
  fm ∈ l → is_Some (b_nodeOf (foldl addPlainNode b l) !! mf_id fm.1).
Proof.
  assert (Hmono : ∀ l b f, is_Some (b_nodeOf b !! f) → is_Some (b_nodeOf (foldl addPlainNode b l) !! f)).
  { clear. induction l as [|g l IH]; intros b f Hf; [done|]. simpl. apply IH.
    unfold addPlainNode. destruct (b_nodeOf b !! mf_id g.1); [done|]. simpl.
    rewrite lookup_insert. case_decide; done. }
  revert b. induction l as [|g l IH]; intros b; [by intros ?%not_elem_of_nil|].
  intros [->|Hin]%elem_of_cons; simpl; [|by apply IH].
  apply Hmono. unfold addPlainNode. destruct (b_nodeOf b !! mf_id g.1) eqn:E; [done|].
  simpl. rewrite lookup_insert_eq. done.
Qed.

(** ** Members, roots and floors *)

Section fill.
Context (nodeOf : gmap nat nat).

(** What a node knows about the functions entered so far. *)
Record filled (done : list (mfunction * machine)) (i : nat) (node : Node) : Prop := {
  fl_floor : 0 <= FixedFloor node;
  fl_member f : f ∈ Members node → nodeIndex nodeOf (mf_id f) = i ∧ ∃ m, (f, m) ∈ done;
  fl_unit f m : (f, m) ∈ done → nodeIndex nodeOf (mf_id f) = i →
    f ∈ Members node ∧
    (if has_metadata (mf_allocation_unit f) then VariableFrame node = true
     else portableFrameBytes m <= FixedFloor node);
  fl_fixed : VariableFrame node = false → ∀ f, f ∈ Members node → mf_allocation_unit f = None;
  fl_succ : Successors node = [];
}.

Lemma filled_blank i node : blank node → filled [] i node.
Proof.
  intros (HM & HV & HF & HS). split; [lia| | | |done].
  - rewrite HM. by intros f ?%not_elem_of_nil.
  - by intros f m ?%not_elem_of_nil.
  - rewrite HM. by intros _ f ?%not_elem_of_nil.
Qed.

Lemma filled_other done i node fm :
  nodeIndex nodeOf (mf_id fm.1) ≠ i → filled done i node → filled (done ++ [fm]) i node.
Proof.
  intros Hne Hf. split; try apply Hf.
  - intros f Hin. destruct (fl_member _ _ _ Hf f Hin) as [? [m ?]].
    split; [done|]. exists m. apply elem_of_app. by left.
  - intros f m [Hin|Hin%list_elem_of_singleton]%elem_of_app Hi; [by apply Hf|].
    destruct fm. simplify_eq/=.
Qed.

Lemma fillNode_filled done f m node node' :
  let i := nodeIndex nodeOf (mf_id f) in
  filled done i node → fillNode f m node = Ok node' → filled (done ++ [(f, m)]) i node'.
Proof.
  intros i Hf. unfold fillNode.
  assert (Hcore : ∀ root, filled (done ++ [(f, m)]) i
    (if has_metadata (mf_allocation_unit f)
     then MkNode (FlattenClass node) (Members node ++ [f]) root true (FixedFloor node) (Successors node)
     else MkNode (FlattenClass node) (Members node ++ [f]) root (VariableFrame node)
            (Z.max (FixedFloor node) (portableFrameBytes m)) (Successors node))).
  { intros root. pose proof (fl_floor _ _ _ Hf).
    destruct (mf_allocation_unit f) as [md|] eqn:Eu; simpl; split; simpl; try lia; try apply Hf; try done.
    all: try (intros g [Hin| ->%list_elem_of_singleton]%elem_of_app;
      [destruct (fl_member _ _ _ Hf g Hin) as [? [k ?]]; split; [done|]; exists k;
       apply elem_of_app; by left
      |split; [done|]; exists m; apply elem_of_app; right; by left]).
    all: try (intros g k [Hin|Hin%list_elem_of_singleton]%elem_of_app Hi;
      [destruct (fl_unit _ _ _ Hf g k Hin Hi) as [? Hu];
       split; [apply elem_of_app; by left|]; destruct (has_metadata _); [done|lia]
      |simplify_eq; rewrite Eu; simpl; split; [apply elem_of_app; right; by left|done || lia]]).
    intros HV g [Hin| ->%list_elem_of_singleton]%elem_of_app; [|done].
    by eapply (fl_fixed _ _ _ Hf). }
  simpl. destruct (has_metadata (mf_flatten_root f)); simpl.
  - destruct (Root node); simpl; [done|].
    specialize (Hcore (Some f)). destruct (has_metadata (mf_allocation_unit f)); by intros [= <-].
  - specialize (Hcore (Root node)). destruct (has_metadata (mf_allocation_unit f)); by intros [= <-].
Qed.

Definition all_filled (len : nat) (done : list (mfunction * machine)) (nodes : list Node) : Prop :=
  length nodes = len ∧ ∀ i node, nodes !! i = Some node → filled done i node.

Lemma fillNodes_ok len done fm nodes nodes' :
  (nodeIndex nodeOf (mf_id fm.1) < len)%nat →
  all_filled len done nodes → fillNodes nodeOf fm nodes = Ok nodes' →
  all_filled len (done ++ [fm]) nodes'.
Proof.
  intros Hr [Hlen Hall]. unfold fillNodes.
  destruct (fillNode fm.1 fm.2 _) as [node'|] eqn:E; simpl; [|done]. intros [= <-].
  split; [by rewrite length_insert|].
  intros i node. destruct (decide (nodeIndex nodeOf (mf_id fm.1) = i)) as [<-|Hne].
  - rewrite list_lookup_insert_eq by lia. intros [= <-].
    destruct fm as [f m]. eapply fillNode_filled; [|done]. simpl in *.
    apply Hall, list_lookup_lookup_total_lt. lia.
  - rewrite list_lookup_insert_ne by done. intros Hi. by apply filled_other, Hall.
Qed.
End fill.

(** ** Edges *)

Section edges.
Context (sel : list (mfunction * machine)) (nodeOf : gmap nat nat) (len : nat).
Hypothesis nodeOf_range : ∀ f n, nodeOf !! f = Some n → (n < len)%nat.

Definition operands (m : machine) : list moperand := concat (mi_operands <$> concat (mach_blocks m)).

(** The machine code [m] names the defined function [callee]. *)
Definition references (m : machine) (callee : nat) : Prop :=
  OpGlobal (GFunction callee false) ∈ operands m.

(** The call is an edge unless machine-flatten removes it. *)
Definition edge_ok (caller callee : nat) (present : nat → Prop) : Prop :=
  ∃ to, nodeOf !! callee = Some to ∧
        (removedByFlatten sel nodeOf caller callee to = true ∨ present to).

Lemma operandEdge_ok f op s s' :
  operandEdge sel nodeOf f op s = Ok s' →
  (∀ n, n ∈ s → n ∈ s') ∧ (∀ n, n ∈ s' → n ∈ s ∨ (n < len)%nat) ∧
  (∀ callee, op = OpGlobal (GFunction callee false) → edge_ok (mf_id f) callee (.∈ s')).
Proof.
  unfold operandEdge. destruct op as [| |[callee []|]|]; try (intros [= <-]; naive_solver).
  destruct (nodeOf !! callee) as [to|] eqn:Eto; [|done]. intros [= <-].
  destruct (removedByFlatten sel nodeOf (mf_id f) callee to) eqn:E.
  - split_and!; [done|by left|]. intros c [= <-]. exists to. auto.
  - split_and!; [set_solver| |].
    + intros n [->%elem_of_singleton|?]%elem_of_union; [right; by eapply nodeOf_range|by left].
    + intros c [= <-]. exists to. split; [done|]. right. set_solver.
Qed.

Lemma edge_ok_mono caller callee (P Q : nat → Prop) :
  (∀ n, P n → Q n) → edge_ok caller callee P → edge_ok caller callee Q.
Proof. unfold edge_ok. naive_solver. Qed.

Lemma operandEdges_ok f ops s s' :
  foldM (operandEdge sel nodeOf f) ops s = Ok s' →
  (∀ n, n ∈ s' → n ∈ s ∨ (n < len)%nat) ∧
  (∀ callee, OpGlobal (GFunction callee false) ∈ ops → edge_ok (mf_id f) callee (.∈ s')).
Proof.
  revert s. induction ops as [|op ops IH]; intros s; simpl.
  { intros [= <-]. split; [by left|]. by intros c ?%not_elem_of_nil. }
  destruct (operandEdge sel nodeOf f op s) as [s1|] eqn:E; [|done]. intros Hf.
  apply operandEdge_ok in E as (_ & H2 & H3).
  assert (Hmono : ∀ n, n ∈ s1 → n ∈ s').
  { clear -Hf nodeOf_range. revert s1 Hf. induction ops as [|o ops IH]; intros s1; simpl; [by intros [= <-]|].
    destruct (operandEdge sel nodeOf f o s1) as [s2|] eqn:E; [|done]. intros Hf n Hn.
    apply operandEdge_ok in E as (H1 & _). eauto. }
  destruct (IH s1 Hf) as [I1 I2]. split; [naive_solver|].
  intros c [<-|Hc]%elem_of_cons; [|by apply I2].
  eapply edge_ok_mono; [apply Hmono|]. by apply H3.
Qed.

Definition same_core (n n' : Node) : Prop :=
  FlattenClass n = FlattenClass n' ∧ Members n = Members n' ∧ Root n = Root n' ∧
  VariableFrame n = VariableFrame n' ∧ FixedFloor n = FixedFloor n'.

Record edged (nodes0 : list Node) (done : list (mfunction * machine)) (nodes : list Node) : Prop := {
  ed_core : Forall2 same_core nodes0 nodes;
  ed_range i n : n ∈ Successors (nodes !!! i) → (n < len)%nat;
  ed_edges f m callee : (f, m) ∈ done → references m callee →
    edge_ok (mf_id f) callee (.∈ Successors (nodes !!! nodeIndex nodeOf (mf_id f)));
}.

Lemma callerEdges_ok nodes0 done fm nodes nodes' :
  (nodeIndex nodeOf (mf_id fm.1) < length nodes)%nat →
  edged nodes0 done nodes → callerEdges sel nodeOf fm nodes = Ok nodes' →
  edged nodes0 (done ++ [fm]) nodes'.
Proof.
  intros Hi He. unfold callerEdges. set (i := nodeIndex nodeOf (mf_id fm.1)) in *.
  destruct (foldM _ _ _) as [s|] eqn:Ef; simpl; [|done]. intros [= <-].
  apply operandEdges_ok in Ef as [Hr Hedge].
  set (node' := MkNode _ _ _ _ _ _).
  assert (Hat : ∀ j n, n ∈ Successors (<[i:=node']> nodes !!! j) ↔
    n ∈ Successors (nodes !!! j) ∨ j = i ∧ n ∈ s).
  { intros j n. destruct (decide (i = j)) as [<-|Hne].
    - rewrite list_lookup_total_insert_eq by lia. simpl.
      rewrite elem_of_app, elem_of_sortNodes, elem_of_elements. naive_solver.
    - rewrite list_lookup_total_insert_ne by done. naive_solver. }
  split.
  - assert (H0 : nodes0 !! i = Some (nodes0 !!! i)).
    { apply list_lookup_lookup_total_lt. by rewrite (Forall2_length _ _ _ (ed_core _ _ _ He)). }
    rewrite <-(list_insert_id nodes0 i _ H0).
    apply Forall2_insert; [apply He|].
    pose proof (ed_core _ _ _ He) as Hc. rewrite Forall2_lookup in Hc. specialize (Hc i).
      rewrite H0, (list_lookup_lookup_total_lt nodes i) in Hc by done. by inv Hc.
  - intros j n [?|[_ Hn]]%Hat; [by eapply ed_range|].
    destruct (Hr n Hn) as [?|?]; [set_solver|done].
  - intros f m callee [Hin|Hin%list_elem_of_singleton]%elem_of_app Href.
    + eapply edge_ok_mono; [|by eapply ed_edges]. intros n Hn. apply Hat. by left.
    + subst fm. simpl in *. eapply edge_ok_mono; [|by apply Hedge].
      intros n Hn. apply Hat. by right.
Qed.
End edges.

(** ** The whole construction *)

(** The graph as the rest of the pass sees it. *)
Record graph_ok (module : list mfunction) (cg : callgraph) : Prop := {
  go_succ i n : n ∈ succs (cg_nodes cg) i → (n < length (cg_nodes cg))%nat;
  go_entry e : e ∈ cg_entries cg → (e < length (cg_nodes cg))%nat;
  go_floor i : 0 <= FixedFloor (cg_nodes cg !!! i);
  go_member i f : f ∈ Members (cg_nodes cg !!! i) →
    nodeIndex (cg_nodeOf cg) (mf_id f) = i ∧ ∃ m, (f, m) ∈ selected module;
  go_selected f m : (f, m) ∈ selected module →
    let node := cg_nodes cg !!! nodeIndex (cg_nodeOf cg) (mf_id f) in
    f ∈ Members node ∧
    (if has_metadata (mf_allocation_unit f) then VariableFrame node = true
     else portableFrameBytes m <= FixedFloor node);
  go_entries f m : (f, m) ∈ selected module → IsEntryProgram (mf_section f) = true →
    nodeIndex (cg_nodeOf cg) (mf_id f) ∈ cg_entries cg;
  go_fixed i f : VariableFrame (cg_nodes cg !!! i) = false →
    f ∈ Members (cg_nodes cg !!! i) → mf_allocation_unit f = None;
  go_edges f m callee : (f, m) ∈ selected module → references m callee →
    edge_ok (selected module) (cg_nodeOf cg) (mf_id f) callee
      (λ n, n ∈ succs (cg_nodes cg) (nodeIndex (cg_nodeOf cg) (mf_id f)));
}.

Lemma nodeIndex_range nodeOf len f n :
  (∀ f n, nodeOf !! f = Some n → (n < len)%nat) → nodeOf !! f = Some n → (nodeIndex nodeOf f < len)%nat.
Proof. intros Hr Hf. unfold nodeIndex. rewrite Hf. simpl. eauto. Qed.

Lemma lookup_total_normalize (nodes : list Node) i :
  (normalizeNode <$> nodes) !!! i = normalizeNode (nodes !!! i).
Proof.
  rewrite !list_lookup_total_alt, list_lookup_fmap. by destruct (nodes !! i).
Qed.

Lemma succs_normalize nodes i n :
  n ∈ succs (normalizeNode <$> nodes) i ↔ n ∈ Successors (nodes !!! i).
Proof. unfold succs. rewrite lookup_total_normalize. simpl. apply elem_of_sortUnique. Qed.

Section stages.
Context (sel : list (mfunction * machine)).

Lemma node_stage b0 :
  foldM addClassNode sel (Build ∅ ∅ []) = Ok b0 →
  let b := foldl addPlainNode b0 sel in
  build_ok sel b ∧
  ∀ fm, fm ∈ sel → (nodeIndex (b_nodeOf b) (mf_id fm.1) < length (b_nodes b))%nat.
Proof.
  intros E0 b. assert (B0 : build_ok sel b0).
  { eapply (foldM_Ok_invariant _ build_ok); [| |exact E0].
    - split; simpl; [done|done|constructor].
    - intros. by eapply addClassNode_ok. }
  assert (B : build_ok sel b).
  { apply (foldl_invariant _ build_ok); [destruct B0; by split|].
    intros. by apply addPlainNode_ok. }
  split; [done|]. intros fm Hin. destruct (addPlainNode_total b0 sel fm Hin) as [n Hn].
  eapply nodeIndex_range; [apply B|exact Hn].
Qed.

Lemma fill_stage b nodes :
  build_ok sel b →
  (∀ fm, fm ∈ sel → (nodeIndex (b_nodeOf b) (mf_id fm.1) < length (b_nodes b))%nat) →
  foldM (fillNodes (b_nodeOf b)) sel (b_nodes b) = Ok nodes →
  all_filled (b_nodeOf b) (length (b_nodes b)) sel nodes.
Proof.
  intros B Hidx. apply (foldM_Ok_invariant _ (all_filled (b_nodeOf b) (length (b_nodes b)))).
  - split; [done|]. intros i node Hi. apply filled_blank.
    pose proof (bo_blank _ _ B) as Hb. rewrite Forall_lookup in Hb. eauto.
  - intros pre x s0 s1 [post Hpost] HP Hx. eapply fillNodes_ok; [|done|done].
    apply Hidx. rewrite Hpost. apply elem_of_app. right. by left.
Qed.

Lemma all_filled_total nodeOf len nodes i :
  all_filled nodeOf len sel nodes → (i < len)%nat → filled nodeOf sel i (nodes !!! i).
Proof. intros [Hl Hf] Hi. apply Hf, list_lookup_lookup_total_lt. lia. Qed.

Lemma all_filled_succ nodeOf len nodes i :
  all_filled nodeOf len sel nodes → Successors (nodes !!! i) = [].
Proof.
  intros [Hl Hf]. rewrite list_lookup_total_alt.
  destruct (nodes !! i) as [node|] eqn:E; [|done]. simpl. by eapply fl_succ, Hf.
Qed.

Lemma edge_stage nodeOf nodes nodes' :
  (∀ f n, nodeOf !! f = Some n → (n < length nodes)%nat) →
  (∀ fm, fm ∈ sel → (nodeIndex nodeOf (mf_id fm.1) < length nodes)%nat) →
  all_filled nodeOf (length nodes) sel nodes →
  foldM (callerEdges sel nodeOf) sel nodes = Ok nodes' →
  edged sel nodeOf (length nodes) nodes sel nodes'.
Proof.
  intros Hr Hidx F. apply (foldM_Ok_invariant _ (edged sel nodeOf (length nodes) nodes)).
  - split.
    + apply Forall2_same_length_lookup_2; [done|]. by intros i x y -> [= ->].
    + intros i n. rewrite (all_filled_succ _ _ _ i F). by intros ?%not_elem_of_nil.
    + by intros f m c ?%not_elem_of_nil.
  - intros pre x s0 s1 [post Hpost] HP Hx. eapply callerEdges_ok; [done| |done|done].
    rewrite <-(Forall2_length _ _ _ (ed_core _ _ _ _ _ _ HP)).
    apply Hidx. rewrite Hpost. apply elem_of_app. right. by left.
Qed.

Lemma same_core_total nodes nodes' i :
  Forall2 same_core nodes nodes' → same_core (nodes !!! i) (normalizeNode (nodes' !!! i)).
Proof.
  intros Hc. rewrite Forall2_lookup in Hc. specialize (Hc i). rewrite !list_lookup_total_alt.
  by destruct Hc.
Qed.

(** A filled node out of range is the empty node, which has no member. *)
Lemma filled_members nodeOf len nodes i f :
  all_filled nodeOf len sel nodes → f ∈ Members (nodes !!! i) → filled nodeOf sel i (nodes !!! i).
Proof.
  intros [Hl Hf]. rewrite list_lookup_total_alt.
  destruct (nodes !! i) as [node|] eqn:E; [intros _; by apply Hf|].
  by intros ?%not_elem_of_nil.
Qed.

Lemma filled_floor nodeOf len nodes i :
  all_filled nodeOf len sel nodes → 0 <= FixedFloor (nodes !!! i).
Proof.
  intros [Hl Hf]. rewrite list_lookup_total_alt.
  destruct (nodes !! i) as [node|] eqn:E; [by eapply fl_floor, Hf|done].
Qed.
End stages.

Lemma buildGraph_ok module cg : buildGraph module = Ok cg → graph_ok module cg.
Proof.
  unfold buildGraph. set (sel := selected module).
  destruct (foldM addClassNode sel (Build ∅ ∅ [])) as [b0|] eqn:E0; simpl; [|done].
  apply node_stage in E0 as [B Hidx]. set (b := foldl addPlainNode b0 sel) in *.
  set (nodeOf := b_nodeOf b) in *.
  destruct (foldM (fillNodes nodeOf) sel (b_nodes b)) as [nodes1|] eqn:E1; simpl; [|done].
  apply fill_stage in E1 as F; [|done|done]. pose proof F as [Flen _]. rewrite <-Flen in *.
  destruct (foldM checkRoot nodes1 ()) as [[]|]; simpl; [|done].
  destruct (foldM (callerEdges sel nodeOf) sel nodes1) as [nodes2|] eqn:E2; simpl; [|done].
  intros [= <-].
  apply edge_stage in E2 as Ed; [|intros f n Hf; rewrite Flen; by eapply B|done|done].
  assert (Hlen : length nodes2 = length nodes1) by (symmetry; eapply Forall2_length, Ed).
  assert (Hsame : ∀ i, same_core (nodes1 !!! i) ((normalizeNode <$> nodes2) !!! i)).
  { intros i. rewrite lookup_total_normalize. apply same_core_total, Ed. }
  split; cbn [cg_nodes cg_nodeOf cg_entries]; rewrite ?length_fmap, ?Hlen.
  - intros i n Hn%(succs_normalize nodes2). by eapply (ed_range _ _ _ _ _ _ Ed).
  - intros e He. apply elem_of_sortUnique, list_elem_of_fmap in He as (f & -> & He).
    apply list_elem_of_fmap in He as (fm & -> & He). apply list_elem_of_filter in He as [_ He]. by apply Hidx.
  - intros i. destruct (Hsame i) as (_ & _ & _ & _ & <-). by eapply filled_floor.
  - intros i f. destruct (Hsame i) as (_ & <- & _). intros Hin.
    eapply fl_member; [by eapply filled_members|done].
  - intros f m Hin. destruct (Hsame (nodeIndex nodeOf (mf_id f))) as (_ & <- & _ & <- & <-).
    eapply fl_unit; [|done|done]. eapply all_filled_total; [done|]. by apply (Hidx (f, m)).
  - intros f m Hin He. apply elem_of_sortUnique. apply list_elem_of_fmap.
    exists (mf_id f). split; [done|]. apply list_elem_of_fmap. exists (f, m). split; [done|].
    apply list_elem_of_filter. split; [|done]. simpl. by rewrite He.
  - intros i f. destruct (Hsame i) as (_ & <- & _ & <- & _). intros HV Hin.
    by eapply (fl_fixed nodeOf sel i); [eapply filled_members| |].
  - intros f m callee Hin Href. eapply edge_ok_mono; [|by eapply ed_edges].
    intros n Hn. by apply succs_normalize.
Qed.
