(* ===== verification/StackBudgetFacts.v ===== *)
(** * Soundness of the native call-stack budget

    Facts about the search, the dynamic programs over its postorder and the
    final budget, then the properties of [StackBudget.runOnModule]. *)

From Stdlib Require Import ZArith Lia.
From stdpp Require Import base numbers list gmap sets fin_maps strings sorting relations.
From S2P Require Import Prelude Graph StackBudget StackBudgetBuild.

Local Open Scope Z_scope.
Import StackBudget.

(** ** The three-colour search *)

Section search.
Context (nodes : list Node).
Local Abbreviation succ := (succs nodes).

Record dfs_ok (st : dfs) : Prop := {
  ok_active n : n ∈ active st ↔ color st !! n = Some 1;
  ok_post n : n ∈ postorder st ↔ color st !! n = Some 2;
  ok_active_nodup : NoDup (active st);
  ok_topo : topo succ (postorder st);
}.

(** What a returning visit of [ns] leaves behind. *)
Record visited (ns : list nat) (st st' : dfs) : Prop := {
  vis_ok : dfs_ok st';
  vis_active : active st' = active st;
  vis_mono n : n ∈ postorder st → n ∈ postorder st';
  vis_done n : n ∈ ns → n ∈ postorder st';
  vis_reach n : n ∈ postorder st' → n ∈ postorder st ∨ ∃ m, m ∈ ns ∧ rtc (edge succ) m n;
}.

Lemma visited_nil st : dfs_ok st → visited [] st st.
Proof. intros H. split; auto. intros n Hn. by apply not_elem_of_nil in Hn. Qed.

Lemma visited_trans ns1 ns2 st1 st2 st3 :
  visited ns1 st1 st2 → visited ns2 st2 st3 → visited (ns1 ++ ns2) st1 st3.
Proof.
  intros V1 V2. split.
  - apply V2.
  - rewrite (vis_active _ _ _ V2). apply V1.
  - eauto using vis_mono.
  - intros n [Hn|Hn]%elem_of_app; eauto using vis_mono, vis_done.
  - intros n [Hn|(m & Hm & Hr)]%(vis_reach _ _ _ V2).
    + destruct (vis_reach _ _ _ V1 n Hn) as [?|(m & ? & ?)]; [by left|].
      right. exists m. split; [apply elem_of_app; by left|done].
    + right. exists m. split; [apply elem_of_app; by right|done].
Qed.

Lemma foldM_visited f ns st st' :
  (∀ n s s', n ∈ ns → dfs_ok s → f n s = Ok s' → visited [n] s s') →
  dfs_ok st → foldM f ns st = Ok (E:=error) st' → visited ns st st'.
Proof.
  intros Hf Hok Hfold.
  eapply (foldM_Ok_invariant f (λ pre s, visited pre st s)); [by apply visited_nil| |done].
  intros pre x s0 s1 [post ->] HV Hx. eapply visited_trans; [done|].
  apply Hf; [|apply HV|done]. apply elem_of_app. right. by left.
Qed.

Lemma dfs_ok_enter st n :
  dfs_ok st → color st !! n ≠ Some 1 → color st !! n ≠ Some 2 →
  dfs_ok (Dfs (<[n := 1]> (color st)) (active st ++ [n]) (postorder st)).
Proof.
  intros Hok H1 H2. split; simpl.
  - intros m. rewrite elem_of_app, list_elem_of_singleton, (ok_active _ Hok).
    destruct (decide (m = n)) as [->|]; simplify_map_eq; naive_solver.
  - intros m. rewrite (ok_post _ Hok).
    destruct (decide (m = n)) as [->|]; simplify_map_eq; naive_solver.
  - apply NoDup_app. split; [apply Hok|]. split; [|apply NoDup_singleton].
    intros m Hm ->%list_elem_of_singleton. by apply (ok_active _ Hok) in Hm.
  - apply Hok.
Qed.

Lemma dfs_ok_leave st n l :
  dfs_ok st → active st = l ++ [n] → (∀ m, edge succ n m → m ∈ postorder st) →
  dfs_ok (Dfs (<[n := 2]> (color st)) l (postorder st ++ [n])).
Proof.
  intros Hok Hact Hedge.
  assert (Hn : n ∈ active st) by (rewrite Hact; apply elem_of_app; right; by left).
  pose proof (ok_active_nodup _ Hok) as Hnd. rewrite Hact in Hnd.
  apply NoDup_app in Hnd as (Hl & Hdis & _).
  assert (n ∉ l) by (intros Hin; apply (Hdis n Hin); by left).
  apply (ok_active _ Hok) in Hn.
  split; simpl.
  - intros m. destruct (decide (m = n)) as [->|]; simplify_map_eq; [naive_solver|].
    rewrite <-(ok_active _ Hok), Hact, elem_of_app, list_elem_of_singleton. naive_solver.
  - intros m. rewrite elem_of_app, list_elem_of_singleton, (ok_post _ Hok).
    destruct (decide (m = n)) as [->|]; simplify_map_eq; naive_solver.
  - done.
  - constructor; [apply Hok|done|]. rewrite (ok_post _ Hok), Hn. done.
Qed.

Lemma take_snoc {A} (l : list A) x : take (length (l ++ [x]) - 1) (l ++ [x]) = l.
Proof.
  rewrite length_app. simpl. replace (length l + 1 - 1)%nat with (length l) by lia.
  by rewrite take_app_length.
Qed.

(** The visit of an unpainted node, given what visiting its successors does. *)
Lemma visited_node st s1 n :
  dfs_ok st → color st !! n ≠ Some 1 → color st !! n ≠ Some 2 →
  visited (succ n) (Dfs (<[n := 1]> (color st)) (active st ++ [n]) (postorder st)) s1 →
  visited [n] st (Dfs (<[n := 2]> (color s1)) (take (length (active s1) - 1) (active s1))
                      (postorder s1 ++ [n])).
Proof.
  intros Hok H1 H2 V. pose proof (vis_active _ _ _ V) as Ha; simpl in Ha.
  rewrite Ha, take_snoc. split; simpl.
  - apply dfs_ok_leave; [apply V|done|intros m Hm; by eapply vis_done].
  - done.
  - intros m Hm. apply elem_of_app. left. by eapply (vis_mono _ _ _ V).
  - intros m ->%list_elem_of_singleton. apply elem_of_app. right. by left.
  - intros m [Hm| ->%list_elem_of_singleton]%elem_of_app.
    + destruct (vis_reach _ _ _ V m Hm) as [?|(k & Hk & Hr)]; [by left|right].
      exists n. split; [by left|]. by eapply rtc_l.
    + right. exists n. split; [by left|done].
Qed.

Lemma color_cases st n :
  let c := default 0 (color st !! n) in
  ((c =? 2) = true → color st !! n = Some 2) ∧
  ((c =? 1) = true → color st !! n = Some 1) ∧
  ((c =? 2) = false → color st !! n ≠ Some 2) ∧
  ((c =? 1) = false → color st !! n ≠ Some 1).
Proof.
  destruct (color st !! n) as [c|]; simpl; rewrite ?Z.eqb_eq, ?Z.eqb_neq; naive_solver lia.
Qed.

Lemma visit_visited fuel n st st' :
  dfs_ok st → visit fuel nodes n st = Ok st' → visited [n] st st'.
Proof.
  revert n st st'. induction fuel as [|fuel IH]; intros n st st' Hok Hv; [done|].
  simpl in Hv. destruct (color_cases st n) as (C2 & C1 & N2 & N1).
  case_match eqn:E2; [|case_match eqn:E1; [done|]].
  - simplify_eq. split; auto.
    intros m ->%list_elem_of_singleton. by apply (ok_post _ Hok), C2.
  - destruct (foldM _ _ _) as [s1|] eqn:Ef in Hv; [|done]. injection Hv as <-.
    apply visited_node; auto. eapply foldM_visited; [|by apply dfs_ok_enter; auto|done]. eauto.
Qed.

(** Loops over successors keep the search invariant and the active path. *)
Lemma visit_keeps fuel act x s s' :
  dfs_ok s ∧ active s = act → visit fuel nodes x s = Ok s' → dfs_ok s' ∧ active s' = act.
Proof.
  intros [H1 H2] Hv. apply visit_visited in Hv; [|done].
  split; [apply Hv|]. by rewrite (vis_active _ _ _ Hv).
Qed.

(** The search never runs out of fuel: the active path has no repetition and
    stays inside the vector. *)
Lemma active_bound st : dfs_ok st → (∀ n, n ∈ active st → (n < length nodes)%nat) →
  (length (active st) <= length nodes)%nat.
Proof.
  intros Hok Hin. rewrite <-(length_seq (length nodes) 0).
  apply submseteq_length, NoDup_submseteq; [apply Hok|].
  intros n Hn. apply elem_of_seq. specialize (Hin n Hn). lia.
Qed.

(** A reported recursion is a real closed call path. *)
Definition closed_path (c : list nat) : Prop :=
  chain succ c ∧ ∃ x l, c = x :: l ++ [x].

Lemma cycleAt_closed act n :
  n ∈ act → chain succ (act ++ [n]) → closed_path (cycleAt act n).
Proof.
  intros Hin Hc. unfold cycleAt.
  destruct (list_find (eq n) act) as [[i m]|] eqn:E.
  - apply list_find_Some in E as (Hi & <- & _).
    apply take_drop_middle in Hi as Hsplit. rewrite <-Hsplit in Hc.
    rewrite (drop_S act n i) by done. split.
    + rewrite <-app_assoc in Hc. by eapply chain_app_r.
    + by eexists _, _.
  - apply list_find_None in E. rewrite Forall_forall in E. by destruct (E n).
Qed.

Lemma visit_RecursivePath fuel n st c :
  dfs_ok st → chain succ (active st ++ [n]) →
  visit fuel nodes n st = Err (RecursivePath c) → closed_path c.
Proof.
  revert n st. induction fuel as [|fuel IH]; intros n st Hok Hc; simpl; [done|].
  destruct (color_cases st n) as (C2 & C1 & N2 & N1).
  case_match; [done|]. case_match.
  - intros [= <-]. apply cycleAt_closed; [|done]. by apply (ok_active _ Hok), C1.
  - set (s0 := Dfs _ _ _).
    assert (Hs0 : dfs_ok s0) by (apply dfs_ok_enter; auto).
    destruct (foldM _ _ _) as [s1|e] eqn:Ef; [done|]. intros [= ->].
    apply (foldM_Err _ (λ s, dfs_ok s ∧ active s = active s0)) in Ef
      as (x & s1 & Hx & [H1 H2] & Hv); [|done|eauto using visit_keeps].
    apply (IH x s1); [done| |done].
    rewrite H2. simpl. rewrite <-app_assoc. by apply chain_snoc.
Qed.

Hypothesis succ_bound : ∀ n m, m ∈ succ n → (m < length nodes)%nat.

Lemma visit_no_OutOfFuel fuel n st :
  dfs_ok st → (∀ m, m ∈ active st → (m < length nodes)%nat) → (n < length nodes)%nat →
  (S (length nodes) <= fuel + length (active st))%nat → visit fuel nodes n st ≠ Err OutOfFuel.
Proof.
  revert n st. induction fuel as [|fuel IH]; intros n st Hok Hin Hn Hf.
  - pose proof (active_bound st Hok Hin). lia.
  - simpl. destruct (color_cases st n) as (C2 & C1 & N2 & N1).
    case_match; [done|]. case_match; [done|].
    set (s0 := Dfs _ _ _).
    assert (Hs0 : dfs_ok s0) by (apply dfs_ok_enter; auto).
    assert (Hin0 : ∀ m, m ∈ active s0 → (m < length nodes)%nat).
    { intros m [?| ->%list_elem_of_singleton]%elem_of_app; auto. }
    destruct (foldM _ _ _) as [s1|e] eqn:Ef; [done|]. intros [= ->].
    apply (foldM_Err _ (λ s, dfs_ok s ∧ active s = active s0)) in Ef
      as (x & s1 & Hx & [H1 H2] & Hv); [|done|eauto using visit_keeps].
    revert Hv. apply IH; [done|by rewrite H2|by eapply succ_bound|].
    rewrite H2. simpl. rewrite length_app. simpl. lia.
Qed.
End search.

(** ** Dynamic programs over the postorder *)

Section programs.
Context (nodes : list Node) (post : list nat).
Local Abbreviation succ := (succs nodes).
Hypothesis post_topo : topo succ post.

(** In reverse postorder the successors of a node come after it. *)
Lemma order_split pre x rest :
  reverse post = pre ++ x :: rest →
  x ∉ pre ∧ ∀ y, edge succ x y → y ∉ pre ∧ y ≠ x ∧ y ∈ rest.
Proof.
  intros Hr. assert (Hp : post = reverse rest ++ x :: reverse pre).
  { rewrite <-(reverse_involutive post), Hr, reverse_app, reverse_cons, <-app_assoc. done. }
  pose proof post_topo as Ht. rewrite Hp in Ht.
  pose proof (topo_NoDup _ _ Ht) as Hnd.
  apply NoDup_app in Hnd as (_ & Hdis & Hnd). apply NoDup_cons in Hnd as [Hx _].
  rewrite elem_of_reverse in Hx. split; [done|].
  intros y Hy. eapply topo_succ in Hy; [|done].
  specialize (Hdis y Hy). rewrite elem_of_cons, elem_of_reverse in Hdis.
  rewrite elem_of_reverse in Hy. naive_solver.
Qed.

(** *** Variable frames *)

Definition vars_le (p q : gmap nat (gset nat)) : Prop := ∀ n, varsAt p n ⊆ varsAt q n.

Lemma varsAt_insert p n s m :
  varsAt (<[n := s]> p) m = if decide (n = m) then s else varsAt p m.
Proof. unfold varsAt. rewrite lookup_insert. by case_decide. Qed.

Lemma variableStep_spread node prev l :
  node ∉ l →
  let q := foldl (λ p s, <[s := varsAt p s ∪ varsAt p node]> p) prev l in
  vars_le prev q ∧ (∀ n, n ∉ l → varsAt q n = varsAt prev n) ∧
  (∀ s, s ∈ l → varsAt prev node ⊆ varsAt q s).
Proof.
  intros Hnode. revert prev. induction l as [|s l IH]; intros prev; simpl.
  { split_and!; [by intros n|done|]. by intros s ?%not_elem_of_nil. }
  apply not_elem_of_cons in Hnode as [Hne Hl].
  destruct (IH Hl (<[s:=varsAt prev s ∪ varsAt prev node]> prev)) as (H1 & H2 & H3).
  split_and!.
  - intros n. specialize (H1 n). rewrite varsAt_insert in H1. case_decide; set_solver.
  - intros n [Hn ?]%not_elem_of_cons. rewrite H2, varsAt_insert by done. by rewrite decide_False.
  - intros t [->|Ht]%elem_of_cons.
    + specialize (H1 s). rewrite varsAt_insert, decide_True in H1 by done. set_solver.
    + specialize (H3 t Ht). by rewrite varsAt_insert, decide_False in H3.
Qed.

(** After the loop: a processed node passes its set to its successors, and a
    processed variable node has only itself. *)
Record vars_inv (done : list nat) (prev : gmap nat (gset nat)) : Prop := {
  vi_edge n s : n ∈ done → edge succ n s → varsAt prev n ⊆ varsAt prev s;
  vi_var n : n ∈ done → VariableFrame (nodes !!! n) = true → varsAt prev n = {[ n ]};
}.

(** Every member of a set is a variable node at or above the set's owner. *)
Definition vars_real (done : list nat) (prev : gmap nat (gset nat)) : Prop :=
  ∀ n u, u ∈ varsAt prev n →
    VariableFrame (nodes !!! u) = true ∧ (u = n ∧ n ∈ done ∨ tc (edge succ) u n).

Lemma vars_spread_real node done prev l :
  (∀ s, s ∈ l → edge succ node s) → node ∈ done → vars_real done prev →
  vars_real done (foldl (λ p s, <[s := varsAt p s ∪ varsAt p node]> p) prev l).
Proof.
  intros Hl Hnode. revert prev Hl. induction l as [|s l IH]; intros prev Hl Hr; [done|].
  simpl. apply IH; [intros; apply Hl; by right|].
  intros n u. rewrite varsAt_insert. case_decide as Hd; [subst s|apply Hr].
  intros [Hu|Hu]%elem_of_union; [by apply Hr|].
  destruct (Hr node u Hu) as [HV Hor]. split; [done|]. right.
  assert (He : edge succ node n) by (apply Hl; by left).
  destruct Hor as [[-> _]|Htc]; [by constructor|]. by eapply tc_r.
Qed.

Lemma vars_step_real pre x p q :
  vars_real pre p → variableStep nodes x p = Ok q → vars_real (pre ++ [x]) q.
Proof.
  intros Hr. unfold variableStep.
  assert (Hr' : vars_real (pre ++ [x]) p).
  { intros n u Hu. destruct (Hr n u Hu) as [? [[-> ?]|?]]; split; auto.
    left. split; [done|]. apply elem_of_app. by left. }
  assert (Hx : x ∈ pre ++ [x]) by (apply elem_of_app; right; by left).
  destruct (VariableFrame (nodes !!! x)) eqn:EV; simpl.
  - case_bool_decide; simpl; [|done]. intros [= <-]. apply vars_spread_real; [by intros|done|].
    intros n u. rewrite varsAt_insert. case_decide as Hd; [subst n|apply Hr'].
    intros ->%elem_of_singleton. auto.
  - intros [= <-]. by apply vars_spread_real.
Qed.

Lemma firstOf_elem (s : gset nat) : s ≠ ∅ → firstOf s ∈ s.
Proof.
  intros Hs. unfold firstOf. destruct (sortNodes (elements s)) as [|n l] eqn:E.
  - destruct Hs. apply set_eq. intros n. rewrite <-elem_of_elements, <-elem_of_sortNodes, E.
    split; [by intros ?%not_elem_of_nil|set_solver].
  - simpl. apply elem_of_elements, elem_of_sortNodes. rewrite E. by left.
Qed.

Lemma vars_error u v :
  foldM (variableStep nodes) (reverse post) ∅ = Err (NestedFrames u v) →
  VariableFrame (nodes !!! u) = true ∧ VariableFrame (nodes !!! v) = true ∧ tc (edge succ) u v.
Proof.
  intros Hf. apply (foldM_Err_invariant _ vars_real) in Hf as (pre & x & rest & s0 & Hs & Hr & Hx).
  - unfold variableStep in Hx. destruct (VariableFrame (nodes !!! x)) eqn:EV; [|done].
    case_bool_decide; simpl in Hx; [done|]. injection Hx as <- <-.
    destruct (Hr x (firstOf (varsAt s0 x))) as [HV [[_ Hin]|Htc]]; [by apply firstOf_elem| |done].
    by destruct (order_split _ _ _ Hs).
  - intros n u'. unfold varsAt. rewrite lookup_empty. set_solver.
  - eauto using vars_step_real.
Qed.

Lemma vars_step_inv pre x rest p q :
  reverse post = pre ++ x :: rest → vars_inv pre p →
  variableStep nodes x p = Ok q → vars_inv (pre ++ [x]) q.
Proof.
  intros Hr Hi Hstep. destruct (order_split _ _ _ Hr) as [Hx Hs].
  unfold variableStep in Hstep. simpl in Hstep.
  set (p1 := if VariableFrame (nodes !!! x) then <[x := {[x]}]> p else p).
  assert (Hq : q = foldl (λ p s, <[s := varsAt p s ∪ varsAt p x]> p) p1 (succ x)).
  { unfold p1. destruct (VariableFrame _); [case_bool_decide|]; by simplify_eq/=. }
  assert (Hempty : VariableFrame (nodes !!! x) = true → varsAt p x = ∅).
  { intros E. rewrite E in Hstep. by case_bool_decide. }
  assert (Hvar : VariableFrame (nodes !!! x) = true → varsAt p1 x = {[x]}).
  { intros E. unfold p1. rewrite E, varsAt_insert. by rewrite decide_True. }
  assert (Hp1 : ∀ n, n ≠ x → varsAt p1 n = varsAt p n).
  { intros n Hn. unfold p1. destruct (VariableFrame _); [|done].
    rewrite varsAt_insert. by rewrite decide_False. }
  destruct (variableStep_spread x p1 (succ x)) as (M & K & G).
  { intros Hxx. by destruct (Hs x Hxx) as (_ & ? & _). }
  rewrite <-Hq in *. clear Hstep.
  assert (Keep : ∀ n, n ∈ pre → varsAt q n = varsAt p n).
  { intros n Hn. rewrite K, Hp1; [done|intros ->; done|].
    intros Hxn. by destruct (Hs n Hxn) as (? & _). }
  assert (Kx : varsAt q x = varsAt p1 x).
  { apply K. intros Hxx. by destruct (Hs x Hxx) as (_ & ? & _). }
  split.
  - intros n s [Hn| ->%list_elem_of_singleton]%elem_of_app He.
    + rewrite Keep by done. transitivity (varsAt p s); [by eapply vi_edge|].
      destruct (decide (s = x)) as [->|]; [|rewrite <-(Hp1 s) by done; apply M].
      rewrite Kx. unfold p1. destruct (VariableFrame (nodes !!! x)) eqn:E; [|done].
      rewrite varsAt_insert, decide_True by done.
      rewrite Hempty by done. set_solver.
    + rewrite Kx. by apply G.
  - intros n [Hn| ->%list_elem_of_singleton]%elem_of_app E.
    + rewrite Keep by done. by eapply vi_var.
    + rewrite Kx. auto.
Qed.

Lemma vars_loop q :
  foldM (variableStep nodes) (reverse post) ∅ = Ok q → vars_inv (reverse post) q.
Proof.
  apply (foldM_Ok_invariant _ vars_inv); [|intros; naive_solver eauto using vars_step_inv].
  split; intros n *; by intros ?%not_elem_of_nil.
Qed.

(** No call path of an accepted graph meets two variable frames. *)
Lemma vars_chain q v l w :
  vars_inv (reverse post) q → v ∈ post → VariableFrame (nodes !!! v) = true →
  chain succ (v :: l) → w ∈ l → VariableFrame (nodes !!! w) = false.
Proof.
  intros Hi Hv Hvar Hc Hw. destruct (VariableFrame (nodes !!! w)) eqn:Ew; [exfalso|done].
  assert (Hself : v ∈ varsAt q v).
  { rewrite (vi_var _ _ Hi v); [set_solver|by apply elem_of_reverse|done]. }
  destruct (chain_transport succ (λ n, n ∈ post) (λ n, v ∈ varsAt q n) v l) with w
    as [Hwp Hin]; [by eauto using topo_closed| |done|done|done|by right|].
  { intros a b Ha Hva He. eapply (vi_edge _ _ Hi); [|done|done]. by apply elem_of_reverse. }
  rewrite (vi_var _ _ Hi w), elem_of_singleton in Hin; [|by apply elem_of_reverse|done]. subst w.
  assert (Hnd : NoDup (v :: l)) by (eapply topo_chain_NoDup; [done|done|]; naive_solver).
  apply NoDup_cons in Hnd. naive_solver.
Qed.

(** *** Call depth *)

Context (entries : list nat).
Hypothesis entries_post : ∀ e, e ∈ entries → e ∈ post.

(** A call path from an entry program to node [n]. *)
Definition call_path (p : list nat) (n : nat) : Prop :=
  chain succ p ∧ (∃ e, head p = Some e ∧ e ∈ entries) ∧ last p = Some n.

Lemma call_path_entry e : e ∈ entries → call_path [e] e.
Proof. intros. split_and!; [constructor|eauto|done]. Qed.

Lemma call_path_snoc p n m : call_path p n → edge succ n m → call_path (p ++ [m]) m.
Proof.
  intros (Hc & (e & He & Hin) & Hl) Hnm. apply last_Some in Hl as [p' ->].
  split_and!.
  - rewrite <-app_assoc. by apply chain_snoc.
  - exists e. split; [|done]. by destruct p'.
  - by rewrite last_snoc.
Qed.

Lemma call_path_init p y x n : call_path ((p ++ [y]) ++ [x]) n → call_path (p ++ [y]) y.
Proof.
  intros (Hc & (e & He & Hin) & _). split_and!.
  - rewrite <-app_assoc in Hc. by eapply chain_app_l in Hc.
  - exists e. split; [|done]. by destruct p.
  - by rewrite last_snoc.
Qed.

(** Continue a call path along a chain from its last node. *)
Lemma call_path_extend p n k : call_path p n → chain succ (n :: k) → ∃ m, call_path (p ++ k) m.
Proof.
  revert p n. induction k as [|x k IH]; intros p n Hp Hc; [exists n; by rewrite app_nil_r|].
  inv Hc. destruct (IH (p ++ [x]) x) as [m Hm]; [by eapply call_path_snoc|done|].
  exists m. by rewrite <-app_assoc in Hm.
Qed.

Lemma last_Some_elem_of (p : list nat) n : last p = Some n → n ∈ p.
Proof. intros [l ->]%last_Some. apply elem_of_app. right. by left. Qed.

Record depth_inv (done : list nat) (d : depths) : Prop := {
  di_entry e : e ∈ entries → 1 <= framesAt d e;
  di_edge n s : n ∈ done → 1 <= framesAt d n → edge succ n s → framesAt d n + 1 <= framesAt d s;
  di_bound n : n ∈ done → framesAt d n <= KernelCallFrames;
  di_exact n : framesAt d n = 0 ∨ ∃ p, call_path p n ∧ Z.of_nat (length p) = framesAt d n;
}.

Lemma framesAt_relax node d s n :
  framesAt (relaxDepth node d s) n =
  if decide (n = s) then Z.max (framesAt d s) (framesAt d node + 1) else framesAt d n.
Proof.
  unfold relaxDepth. destruct (Z.ltb_spec (framesAt d s) (framesAt d node + 1)).
  - unfold framesAt at 1. simpl. rewrite lookup_insert. repeat case_decide; simplify_eq/=; [lia|done].
  - case_decide; simplify_eq; [lia|done].
Qed.

Lemma relax_fold node d l :
  node ∉ l →
  let d' := foldl (relaxDepth node) d l in
  (∀ n, framesAt d n <= framesAt d' n) ∧ (∀ n, n ∉ l → framesAt d' n = framesAt d n) ∧
  (∀ s, s ∈ l → framesAt d node + 1 <= framesAt d' s) ∧
  (∀ n, framesAt d' n = framesAt d n ∨ n ∈ l ∧ framesAt d' n = framesAt d node + 1).
Proof.
  intros Hnode. revert d. induction l as [|s l IH]; intros d; simpl.
  { split_and!; [lia|done| |auto]. by intros s ?%not_elem_of_nil. }
  apply not_elem_of_cons in Hnode as [Hne Hl].
  destruct (IH Hl (relaxDepth node d s)) as (H1 & H2 & H3 & H4). clear IH.
  assert (Hnode : framesAt (relaxDepth node d s) node = framesAt d node).
  { rewrite framesAt_relax, decide_False; done. }
  rewrite Hnode in *.
  split_and!; intros n; specialize (H1 n); specialize (H2 n); specialize (H3 n);
    specialize (H4 n); rewrite framesAt_relax in H1, H2, H4.
  - case_decide; subst; lia.
  - intros [? ?]%not_elem_of_cons. rewrite H2 by done. by rewrite decide_False.
  - intros [->|?]%elem_of_cons; [|by apply H3]. rewrite decide_True in H1 by done. lia.
  - rewrite elem_of_cons. case_decide; subst; [|naive_solver]. destruct H4 as [->|[??]]; [|naive_solver].
    lia.
Qed.

Lemma depth_step_inv pre x rest d d' :
  reverse post = pre ++ x :: rest → depth_inv pre d →
  depthStep nodes x d = Ok d' → depth_inv (pre ++ [x]) d'.
Proof.
  intros Hr Hi Hstep. destruct (order_split _ _ _ Hr) as [Hx Hs].
  unfold depthStep in Hstep. case_match eqn:E0; [|case_match eqn:E8; [done|]]; simplify_eq; bool_to_prop.
  - split; try apply Hi.
    + intros n s [Hn| ->%list_elem_of_singleton]%elem_of_app; [by apply Hi|lia].
    + intros n [Hn| ->%list_elem_of_singleton]%elem_of_app; [by apply Hi|unfold KernelCallFrames; lia].
  - destruct (relax_fold x d (succ x)) as (M & K & G & X).
    { intros Hxx. by destruct (Hs x Hxx) as (_ & ? & _). }
    set (d' := foldl _ _ _) in *.
    assert (Keep : ∀ n, n ∈ pre ++ [x] → framesAt d' n = framesAt d n).
    { intros n Hn. apply K. intros Hxn. destruct (Hs n Hxn) as (? & ? & _).
      apply elem_of_app in Hn as [?| ->%list_elem_of_singleton]; done. }
    split.
    + intros e He. specialize (M e). pose proof (di_entry _ _ Hi e He). lia.
    + intros n s Hn. rewrite (Keep n Hn). intros Hpos He.
      apply elem_of_app in Hn as [Hn| ->%list_elem_of_singleton].
      * pose proof (di_edge _ _ Hi n s Hn Hpos He). specialize (M s). lia.
      * by apply G.
    + intros n Hn. rewrite (Keep n Hn).
      apply elem_of_app in Hn as [Hn| ->%list_elem_of_singleton]; [by apply Hi|lia].
    + intros n. destruct (X n) as [->|[Hn ->]]; [apply Hi|right].
      destruct (di_exact _ _ Hi x) as [?|(p & Hp & Hl)]; [lia|].
      exists (p ++ [n]). split; [by eapply call_path_snoc|]. rewrite length_app. simpl. lia.
Qed.

Lemma framesAt_initial n : framesAt (initialDepths entries) n = if bool_decide (n ∈ entries) then 1 else 0.
Proof.
  unfold framesAt, initialDepths. simpl.
  enough (∀ m : gmap nat Z, default 0 (foldl (λ m e, <[e:=1]> m) m entries !! n) =
    if bool_decide (n ∈ entries) then 1 else default 0 (m !! n)) as -> by (by rewrite lookup_empty).
  clear. induction entries as [|e l IH]; intros m; simpl; [done|].
  rewrite IH. repeat case_bool_decide; rewrite ?elem_of_cons in *; try naive_solver.
  - destruct (decide (n = e)); [|naive_solver]. subst. by simplify_map_eq.
  - by rewrite lookup_insert_ne by naive_solver.
Qed.

Lemma depth_initial : depth_inv [] (initialDepths entries).
Proof.
  split; try (intros *; by intros ?%not_elem_of_nil).
  - intros e He. rewrite framesAt_initial. by rewrite bool_decide_true.
  - intros n. rewrite framesAt_initial. case_bool_decide; [|by left].
    right. exists [n]. split; [by apply call_path_entry|done].
Qed.

Lemma depth_loop d :
  foldM (depthStep nodes) (reverse post) (initialDepths entries) = Ok d →
  depth_inv (reverse post) d.
Proof.
  apply (foldM_Ok_invariant _ depth_inv); [apply depth_initial|].
  intros; naive_solver eauto using depth_step_inv.
Qed.

Lemma depth_error k l :
  foldM (depthStep nodes) (reverse post) (initialDepths entries) = Err (TooManyFrames k l) →
  ∃ p n, call_path p n ∧ Z.of_nat (length p) = k ∧ KernelCallFrames < k.
Proof.
  intros Hf. apply (foldM_Err_invariant _ depth_inv) in Hf as (pre & x & rest & d & Hs & Hi & Hx).
  - unfold depthStep in Hx.
    destruct (Z.eqb_spec (framesAt d x) 0); [done|].
    destruct (Z.ltb_spec KernelCallFrames (framesAt d x)); [|done]. simplify_eq.
    destruct (di_exact _ _ Hi x) as [?|(p & Hp & Hl)]; [lia|]. exists p, x. split_and!; [done|lia|lia].
  - apply depth_initial.
  - intros pre x s0 s1 [rest Hr]. by eapply depth_step_inv.
Qed.

Lemma call_path_post p n : call_path p n → ∀ m, m ∈ p → m ∈ post.
Proof.
  intros (Hc & (e & He & Hin) & _) m Hm. destruct p as [|e' p]; simplify_eq/=.
  by destruct (chain_transport succ (λ n, n ∈ post) (λ _, True) e p) with m;
    eauto using topo_closed.
Qed.

Lemma depth_path d p n :
  depth_inv (reverse post) d → call_path p n →
  Z.of_nat (length p) <= framesAt d n.
Proof.
  intros Hi. revert n. induction p as [|x p IH] using rev_ind; intros n Hp.
  { by destruct Hp as (Hc%(chain_nonempty succ) & _). }
  destruct p as [|y p _] using rev_ind.
  - destruct Hp as (_ & (e & He & Hin) & Hl). simplify_eq/=. by apply Hi.
  - assert (Hpre : call_path (p ++ [y]) y) by by eapply call_path_init.
    assert (Hy : y ∈ reverse post).
    { apply elem_of_reverse. eapply call_path_post; [exact Hpre|]. apply elem_of_app; right; by left. }
    specialize (IH _ Hpre). destruct Hp as (Hc & _ & Hl). rewrite last_snoc in Hl. simplify_eq.
    rewrite <-app_assoc in Hc. apply chain_last_edge in Hc.
    rewrite !length_app in *. simpl in *.
    opose proof (di_edge _ _ Hi y n Hy _ Hc); lia.
Qed.

(** *** Fixed-only prefixes *)

Definition floor (n : nat) : Z := FixedFloor (nodes !!! n).
Definition fixed (n : nat) : Prop := VariableFrame (nodes !!! n) = false.

Record prefix_inv (done : list nat) (p : sizes) : Prop := {
  pi_entry e : e ∈ entries → fixed e → ∃ v, bytes p !! e = Some v ∧ floor e <= v;
  pi_edge n s h : n ∈ done → fixed n → fixed s → bytes p !! n = Some h → edge succ n s →
    ∃ v, bytes p !! s = Some v ∧ h + floor s <= v;
  pi_bound n h : n ∈ done → fixed n → bytes p !! n = Some h → h <= KernelStackBytes;
  pi_exact n h : bytes p !! n = Some h →
    ∃ l, call_path l n ∧ Zsum floor l = h ∧ ∀ m, m ∈ l → fixed m;
}.

(** One relaxation, whatever the branch taken. *)
Lemma relaxPrefix_at node here p s n :
  bytes (relaxPrefix nodes node here p s) !! n =
  if decide (n = s ∧ fixed s)
  then Some (match bytes p !! s with
             | Some old => Z.max old (here + floor s)
             | None => here + floor s end)
  else bytes p !! n.
Proof.
  unfold relaxPrefix, fixed, floor. destruct (VariableFrame (nodes !!! s)).
  { rewrite decide_False; [done|naive_solver]. }
  destruct (bytes p !! s) as [old|] eqn:Eo.
  - destruct (Z.ltb_spec old (here + FixedFloor (nodes !!! s))); case_decide as Hd;
      simpl; try (destruct Hd as [-> _]); simplify_map_eq; try (f_equal; lia).
  - case_decide as Hd; simpl; [destruct Hd as [-> _]; by simplify_map_eq|].
    rewrite lookup_insert_ne; naive_solver.
Qed.

Lemma relaxPrefix_fold node here p l :
  node ∉ l → bytes p !! node = Some here →
  let q := foldl (relaxPrefix nodes node here) p l in
  (∀ n v, bytes p !! n = Some v → ∃ w, bytes q !! n = Some w ∧ v <= w) ∧
  (∀ n, n ∉ l → bytes q !! n = bytes p !! n) ∧
  (∀ s, s ∈ l → fixed s → ∃ v, bytes q !! s = Some v ∧ here + floor s <= v) ∧
  (∀ n, bytes q !! n = bytes p !! n ∨
        n ∈ l ∧ fixed n ∧ bytes q !! n = Some (here + floor n)).
Proof.
  intros Hnode. revert p. induction l as [|s l IH]; intros p Hp; simpl.
  { split_and!; [eauto using Z.le_refl|done| |auto]. by intros s ?%not_elem_of_nil. }
  apply not_elem_of_cons in Hnode as [Hne Hl].
  destruct (IH Hl (relaxPrefix nodes node here p s)) as (H1 & H2 & H3 & H4).
  { rewrite relaxPrefix_at, decide_False; [done|naive_solver]. }
  clear IH. split_and!.
  - intros n v Hn. destruct (decide (n = s ∧ fixed s)) as [[-> Hf]|Hd].
    + destruct (H1 s (Z.max v (here + floor s))) as (w & Hw & ?).
      { rewrite relaxPrefix_at, decide_True by done. by rewrite Hn. }
      exists w. split; [done|lia].
    + apply H1. by rewrite relaxPrefix_at, decide_False.
  - intros n [? ?]%not_elem_of_cons. rewrite H2 by done.
    rewrite relaxPrefix_at, decide_False; [done|naive_solver].
  - intros n [->|?]%elem_of_cons Hf; [|by apply H3].
    edestruct (H1 s) as (w & Hw & Hle).
    { rewrite relaxPrefix_at, decide_True; done. }
    exists w. split; [done|]. destruct (bytes p !! s); lia.
  - intros n. rewrite elem_of_cons. destruct (H4 n) as [->|?]; [|naive_solver].
    rewrite relaxPrefix_at. case_decide as Hd; [|by left].
    destruct Hd as [-> Hf]. destruct (bytes p !! s) as [old|]; [|by right; naive_solver].
    destruct (Z.max_spec old (here + floor s)) as [[? ->]|[? ->]]; [right; naive_solver|by left].
Qed.

Lemma prefix_step_inv pre x rest p q :
  reverse post = pre ++ x :: rest → prefix_inv pre p →
  prefixStep nodes x p = Ok q → prefix_inv (pre ++ [x]) q.
Proof.
  intros Hr Hi Hstep. destruct (order_split _ _ _ Hr) as [Hx Hs].
  unfold prefixStep in Hstep.
  destruct (VariableFrame (nodes !!! x)) eqn:Ev; [|destruct (bytes p !! x) as [here|] eqn:Eh].
  - simplify_eq. split; try apply Hi.
    + intros n s h [Hn| ->%list_elem_of_singleton]%elem_of_app Hf; [by apply Hi|].
      unfold fixed in Hf. congruence.
    + intros n h [Hn| ->%list_elem_of_singleton]%elem_of_app Hf; [by apply Hi|].
      unfold fixed in Hf. congruence.
  - case_match eqn:E8; [done|]. simplify_eq; bool_to_prop.
    destruct (relaxPrefix_fold x here p (succ x)) as (M & K & G & X); [|done|].
    { intros Hxx. by destruct (Hs x Hxx) as (_ & ? & _). }
    set (q := foldl _ _ _) in *.
    assert (Keep : ∀ n, n ∈ pre ++ [x] → bytes q !! n = bytes p !! n).
    { intros n Hn. apply K. intros Hxn. destruct (Hs n Hxn) as (? & ? & _).
      apply elem_of_app in Hn as [?| ->%list_elem_of_singleton]; done. }
    split.
    + intros e He Hf. destruct (pi_entry _ _ Hi e He Hf) as (v & Hv & ?).
      destruct (M e v Hv) as (w & ? & ?). exists w. split; [done|lia].
    + intros n s h Hn Hfn Hfs Hh He. rewrite (Keep n Hn) in Hh.
      apply elem_of_app in Hn as [Hn| ->%list_elem_of_singleton].
      * destruct (pi_edge _ _ Hi n s h Hn Hfn Hfs Hh He) as (v & Hv & ?).
        destruct (M s v Hv) as (w & ? & ?). exists w. split; [done|lia].
      * simplify_eq. by apply G.
    + intros n h Hn Hf Hh. rewrite (Keep n Hn) in Hh.
      apply elem_of_app in Hn as [Hn| ->%list_elem_of_singleton]; [by eapply Hi|].
      simplify_eq. lia.
    + intros n h Hn. destruct (X n) as [E|(Hin & Hf & E)]; rewrite E in Hn.
      { by apply Hi. }
      simplify_eq. destruct (pi_exact _ _ Hi x here Eh) as (l & Hl & Hsum & Hfix).
      exists (l ++ [n]). split_and!; [by eapply call_path_snoc| |].
      * rewrite Zsum_app. simpl. lia.
      * intros m [?| ->%list_elem_of_singleton]%elem_of_app; auto.
  - simplify_eq. split; try apply Hi.
    + intros n s h [Hn| ->%list_elem_of_singleton]%elem_of_app; [by apply Hi|congruence].
    + intros n h [Hn| ->%list_elem_of_singleton]%elem_of_app; [by apply Hi|congruence].
Qed.

Lemma prefix_initial_at n :
  bytes (initialPrefix nodes entries) !! n =
  if bool_decide (n ∈ entries ∧ fixed n) then Some (floor n) else None.
Proof.
  unfold initialPrefix. simpl.
  enough (∀ m : gmap nat Z, foldl (λ m e, if VariableFrame (nodes !!! e) then m
             else <[e:=FixedFloor (nodes !!! e)]> m) m entries !! n =
    if bool_decide (n ∈ entries ∧ fixed n) then Some (floor n) else m !! n)
    as -> by (by rewrite lookup_empty).
  clear. unfold fixed, floor. induction entries as [|e l IH]; intros m.
  { rewrite bool_decide_false; [done|]. by intros [?%not_elem_of_nil _]. }
  simpl. rewrite IH. destruct (decide (n = e)) as [->|Hne].
  - destruct (VariableFrame (nodes !!! e)); repeat case_bool_decide;
      rewrite ?elem_of_cons in *; simplify_map_eq; naive_solver.
  - destruct (VariableFrame (nodes !!! e)); repeat case_bool_decide;
      rewrite ?elem_of_cons in *; simplify_map_eq; naive_solver.
Qed.

Lemma prefix_initial : prefix_inv [] (initialPrefix nodes entries).
Proof.
  split; try (intros *; by intros ?%not_elem_of_nil).
  - intros e He Hf. exists (floor e). split; [|lia].
    rewrite prefix_initial_at. by rewrite bool_decide_true.
  - intros n h. rewrite prefix_initial_at. case_bool_decide as Hd; [|done].
    intros [= <-]. exists [n]. split_and!; [by apply call_path_entry, Hd|simpl; lia|].
    intros m ->%list_elem_of_singleton. apply Hd.
Qed.

Lemma prefix_loop p :
  foldM (prefixStep nodes) (reverse post) (initialPrefix nodes entries) = Ok p →
  prefix_inv (reverse post) p.
Proof.
  apply (foldM_Ok_invariant _ prefix_inv); [apply prefix_initial|].
  intros pre x s0 s1 [rest Hr]. by eapply prefix_step_inv.
Qed.

Lemma prefix_error k l :
  foldM (prefixStep nodes) (reverse post) (initialPrefix nodes entries)
    = Err (NativePathOverflow k l) →
  ∃ p n, call_path p n ∧ (∀ m, m ∈ p → fixed m) ∧ Zsum floor p = k ∧ KernelStackBytes < k.
Proof.
  intros Hf. apply (foldM_Err_invariant _ prefix_inv) in Hf as (pre & x & rest & s & Hs & Hi & Hx).
  - unfold prefixStep in Hx. destruct (VariableFrame (nodes !!! x)); [done|].
    destruct (bytes s !! x) as [h|] eqn:E; [|done]. case_match; [|done]. simplify_eq. bool_to_prop.
    destruct (pi_exact _ _ Hi x _ E) as (p & Hp & Hsum & Hfix). exists p, x. split_and!; auto.
  - apply prefix_initial.
  - intros pre x s0 s1 [rest Hr]. by eapply prefix_step_inv.
Qed.

Lemma prefix_path p l n :
  prefix_inv (reverse post) p → call_path l n → (∀ m, m ∈ l → fixed m) →
  ∃ h, bytes p !! n = Some h ∧ Zsum floor l <= h ∧ h <= KernelStackBytes.
Proof.
  intros Hi Hp Hf.
  enough (∃ h, bytes p !! n = Some h ∧ Zsum floor l <= h) as (h & Hh & Hle).
  { exists h. split_and!; [done|done|]. eapply (pi_bound _ _ Hi); [| |done].
    - apply elem_of_reverse. eapply call_path_post; [done|]. apply last_Some_elem_of, Hp.
    - apply Hf, last_Some_elem_of, Hp. }
  revert n Hp Hf. induction l as [|x l IH] using rev_ind; intros n Hp Hf.
  { by destruct Hp as (Hc%(chain_nonempty succ) & _). }
  destruct l as [|y l _] using rev_ind.
  - destruct Hp as (_ & (e & [= He] & Hin) & [= Hl]). subst e x.
    destruct (pi_entry _ _ Hi n Hin) as (v & ? & ?); [apply Hf; by left|].
    exists v. split; [done|simpl; lia].
  - assert (Hpre : call_path (l ++ [y]) y) by by eapply call_path_init.
    assert (Hy : y ∈ l ++ [y]) by (apply elem_of_app; right; by left).
    destruct (IH y Hpre) as (h & Hh & Hle); [intros m Hm; apply Hf; apply elem_of_app; by left|].
    destruct Hp as (Hc & _ & Hl). rewrite last_snoc in Hl. simplify_eq.
    rewrite <-app_assoc in Hc. apply chain_last_edge in Hc.
    destruct (pi_edge _ _ Hi y n h) as (v & ? & ?); [| | |done|done|].
    + apply elem_of_reverse. by eapply call_path_post.
    + apply Hf, elem_of_app. by left.
    + apply Hf, elem_of_app. right. by left.
    + exists v. split; [done|]. rewrite Zsum_app. simpl. lia.
Qed.

(** *** Fixed-only suffixes *)

Record suffix_inv (done : list nat) (p : sizes) : Prop := {
  si_dom n v : bytes p !! n = Some v → n ∈ done ∧ fixed n;
  si_val n : n ∈ done → fixed n → ∃ v, bytes p !! n = Some v ∧ floor n <= v ∧
    ∀ s, fixed s → edge succ n s → ∃ w, bytes p !! s = Some w ∧ floor n + w <= v;
  si_exact n v : bytes p !! n = Some v →
    ∃ l, chain succ (n :: l) ∧ (∀ m, m ∈ n :: l → fixed m) ∧ Zsum floor (n :: l) = v;
}.

Lemma improveSuffix_fold node suf best l :
  let r := foldl (improveSuffix nodes node suf) best l in
  best.1 <= r.1 ∧
  (∀ s w, s ∈ l → fixed s → suf !! s = Some w → floor node + w <= r.1) ∧
  (r.1 = best.1 ∨ ∃ s w, s ∈ l ∧ fixed s ∧ suf !! s = Some w ∧ r.1 = floor node + w).
Proof.
  revert best. induction l as [|s l IH]; intros best; simpl.
  { split_and!; [lia| |by left]. by intros s w ?%not_elem_of_nil. }
  destruct (IH (improveSuffix nodes node suf best s)) as (H1 & H2 & H3). clear IH.
  assert (Hone : best.1 <= (improveSuffix nodes node suf best s).1 ∧
    (∀ w, fixed s → suf !! s = Some w → floor node + w <= (improveSuffix nodes node suf best s).1) ∧
    ((improveSuffix nodes node suf best s).1 = best.1 ∨
     ∃ w, fixed s ∧ suf !! s = Some w ∧ (improveSuffix nodes node suf best s).1 = floor node + w)).
  { unfold improveSuffix, fixed, floor. destruct (VariableFrame (nodes !!! s)); [naive_solver lia|].
    destruct (suf !! s) as [v|]; [|naive_solver lia].
    destruct (Z.ltb_spec best.1 (FixedFloor (nodes !!! node) + v)); simpl; naive_solver lia. }
  destruct Hone as (A & B & C). split_and!; [lia| |].
  - intros t w [->|Ht]%elem_of_cons Hf Hw; [|by eapply H2].
    specialize (B w Hf Hw). lia.
  - setoid_rewrite elem_of_cons. destruct H3 as [->|(t & w & ? & ? & ? & ->)]; [|naive_solver].
    destruct C as [->|(w & ? & ? & ->)]; [by left|]. right. naive_solver.
Qed.

Lemma suffix_step_inv pre x rest p :
  post = pre ++ x :: rest → suffix_inv pre p → suffix_inv (pre ++ [x]) (suffixStep nodes p x).
Proof.
  intros Hp Hi. pose proof post_topo as Ht. rewrite Hp in Ht.
  assert (Hx : x ∉ pre).
  { pose proof (topo_NoDup _ _ Ht) as Hnd. apply NoDup_app in Hnd as (_ & Hd & _).
    intros Hin. apply (Hd x Hin). by left. }
  unfold suffixStep. destruct (VariableFrame (nodes !!! x)) eqn:Ev.
  { split.
    - intros n v Hn. apply Hi in Hn as [? ?]. split; [apply elem_of_app; by left|done].
    - intros n [Hn| ->%list_elem_of_singleton]%elem_of_app Hf; [by apply Hi|].
      unfold fixed in Hf. congruence.
    - apply Hi. }
  destruct (improveSuffix_fold x (bytes p) (FixedFloor (nodes !!! x), None) (succ x)) as (A & B & C).
  set (r := foldl _ _ _) in *. simpl in *.
  assert (Hne : ∀ n, n ∈ pre → x ≠ n) by naive_solver.
  split; simpl.
  - intros n v. destruct (decide (x = n)) as [->|Hn]; simplify_map_eq.
    + intros _. split; [apply elem_of_app; right; by left|done].
    + intros ?%Hi. split; [apply elem_of_app; naive_solver|naive_solver].
  - intros n [Hn| ->%list_elem_of_singleton]%elem_of_app Hf.
    + destruct (si_val _ _ Hi n Hn Hf) as (v & Hv & Hfl & He).
      exists v. rewrite lookup_insert_ne by auto. split_and!; [done|done|].
      intros s Hs Hns. destruct (He s Hs Hns) as (w & Hw & ?). exists w.
      rewrite lookup_insert_ne; [done|]. apply Hne. by eapply Hi.
    + exists r.1. simplify_map_eq. split_and!; [done|done|].
      intros s Hs Hns. assert (Hsp : s ∈ pre) by by eapply topo_succ.
      destruct (si_val _ _ Hi s Hsp Hs) as (w & Hw & _). exists w.
      rewrite lookup_insert_ne by auto. split; [done|]. by eapply B.
  - intros n v. destruct (decide (x = n)) as [->|Hn];
      [rewrite lookup_insert_eq; intros [= <-]|rewrite lookup_insert_ne by done; by apply Hi].
    destruct C as [->|(s & w & Hs & Hf & Hw & ->)].
    + exists []. split_and!; [constructor|by intros m ->%list_elem_of_singleton|simpl; unfold floor; lia].
    + destruct (si_exact _ _ Hi s w Hw) as (l & Hc & Hl & Hsum).
      exists (s :: l). split_and!; [by constructor| |simpl in *; lia].
      intros m [->|Hm]%elem_of_cons; auto.
Qed.

Lemma suffix_loop : suffix_inv post (foldl (suffixStep nodes) (Sizes ∅ ∅) post).
Proof.
  apply (foldl_invariant _ suffix_inv).
  - split; intros n *; simpl; rewrite ?lookup_empty; [done|by intros ?%not_elem_of_nil|done].
  - intros pre x b [rest Hr]. by eapply suffix_step_inv.
Qed.

Lemma suffix_path p n l :
  suffix_inv post p → n ∈ post → chain succ (n :: l) → (∀ m, m ∈ n :: l → fixed m) →
  ∃ v, bytes p !! n = Some v ∧ Zsum floor (n :: l) <= v.
Proof.
  intros Hi. revert n. induction l as [|s l IH]; intros n Hn Hc Hf.
  - destruct (si_val _ _ Hi n Hn) as (v & ? & ? & _); [apply Hf; by left|].
    exists v. simpl. split; [done|lia].
  - inv Hc. destruct (IH s) as (w & Hw & Hle); [by eapply topo_closed|done|intros; apply Hf; by right|].
    destruct (si_val _ _ Hi n Hn) as (v & Hv & _ & He); [apply Hf; by left|].
    destruct (He s) as (w' & Hw' & ?); [apply Hf; right; by left|done|].
    exists v. simplify_eq. split; [done|]. simpl in *. lia.
Qed.

End programs.

(** ** The accepted program *)

Lemma dfs_ok_empty nodes : dfs_ok nodes emptyDfs.
Proof.
  split; simpl; intros *; rewrite ?lookup_empty; try (constructor; fail);
    split; try done; by intros ?%not_elem_of_nil.
Qed.

Lemma postorder_ok cg post :
  topologicalPostorder cg = Ok post →
  topo (succs (cg_nodes cg)) post ∧ (∀ e, e ∈ cg_entries cg → e ∈ post) ∧
  (∀ n, n ∈ post → ∃ e, e ∈ cg_entries cg ∧ rtc (edge (succs (cg_nodes cg))) e n).
Proof.
  unfold topologicalPostorder.
  destruct (foldM _ _ _) as [st|] eqn:E; simpl; [|done]. intros [= <-].
  assert (V : visited (cg_nodes cg) (cg_entries cg) emptyDfs st).
  { eapply foldM_visited; [|apply dfs_ok_empty|exact E]. eauto using visit_visited. }
  split_and!; [apply V|apply V|]. intros n [?%not_elem_of_nil|?]%(vis_reach _ _ _ _ V); done.
Qed.

Section budget.
Context (nodes : list Node) (post entries : list nat) (prefix suffix : sizes).
Local Abbreviation succ := (succs nodes).
Hypothesis post_topo : topo succ post.
Hypothesis entries_post : ∀ e, e ∈ entries → e ∈ post.
Hypothesis floor_nonneg : ∀ n, 0 <= floor nodes n.
Hypothesis prefix_ok : prefix_inv nodes entries (reverse post) prefix.
Hypothesis suffix_ok : suffix_inv nodes post suffix.

Lemma Zsum_floor_nonneg l : 0 <= Zsum (floor nodes) l.
Proof. induction l as [|n l IH]; simpl; [lia|]. specialize (floor_nonneg n). lia. Qed.

Lemma prefix_nonneg n h : bytes prefix !! n = Some h → 0 <= h.
Proof. intros (l & _ & <- & _)%(pi_exact _ _ _ _ prefix_ok). apply Zsum_floor_nonneg. Qed.

Lemma before_fold v acc l :
  let r := foldl (beforeStep nodes (bytes prefix) v) acc l in
  (acc.2 = None → acc.1 = 0) → 0 <= acc.1 →
  acc.1 <= r.1 ∧ (r.2 = None → r.1 = 0) ∧
  (∀ c h, c ∈ l → bytes prefix !! c = Some h → edge succ c v → h <= r.1) ∧
  (r = acc ∨ ∃ c, c ∈ l ∧ bytes prefix !! c = Some r.1 ∧ edge succ c v).
Proof.
  revert acc. induction l as [|c l IH]; intros acc; simpl; intros H0 Hpos.
  { split_and!; [lia|done| |by left]. by intros c h ?%not_elem_of_nil. }
  set (acc' := beforeStep nodes (bytes prefix) v acc c).
  assert (Hone : acc.1 <= acc'.1 ∧ (acc'.2 = None → acc'.1 = 0) ∧
    (∀ h, bytes prefix !! c = Some h → edge succ c v → h <= acc'.1) ∧
    (acc' = acc ∨ bytes prefix !! c = Some acc'.1 ∧ edge succ c v)).
  { unfold acc', beforeStep, edge. destruct (bytes prefix !! c) as [h|] eqn:E; [|naive_solver lia].
    apply prefix_nonneg in E. case_bool_decide; [|naive_solver lia].
    destruct acc as [a [b|]]; simpl in *; [destruct (Z.ltb_spec a h); naive_solver lia|].
    rewrite H0 by done. naive_solver lia. }
  destruct Hone as (A & B & C & D).
  destruct (IH acc') as (I1 & I2 & I3 & I4); [done|lia|]. clear IH.
  split_and!; [lia|done| |].
  - intros c' h [->|Hc]%elem_of_cons Hh He; [|by eapply I3]. specialize (C h Hh He). lia.
  - destruct I4 as [->|(c' & ? & ? & ?)]; [|right; exists c'; rewrite elem_of_cons; naive_solver].
    destruct D as [->|[? ?]]; [by left|right]. exists c. rewrite elem_of_cons. naive_solver.
Qed.

Lemma after_fold acc l :
  let r := foldl (afterStep (bytes suffix)) acc l in
  acc.1 <= r.1 ∧ (∀ s h, s ∈ l → bytes suffix !! s = Some h → h <= r.1) ∧
  (r = acc ∨ ∃ s, s ∈ l ∧ bytes suffix !! s = Some r.1).
Proof.
  revert acc. induction l as [|s l IH]; intros acc; simpl.
  { split_and!; [lia| |by left]. by intros s h ?%not_elem_of_nil. }
  set (acc' := afterStep (bytes suffix) acc s).
  assert (Hone : acc.1 <= acc'.1 ∧ (∀ h, bytes suffix !! s = Some h → h <= acc'.1) ∧
    (acc' = acc ∨ bytes suffix !! s = Some acc'.1)).
  { unfold acc', afterStep. destruct (bytes suffix !! s) as [h|] eqn:E; [|naive_solver lia].
    destruct (Z.ltb_spec acc.1 h); simpl; naive_solver lia. }
  destruct Hone as (A & B & C). destruct (IH acc') as (I1 & I2 & I3). clear IH.
  split_and!; [lia| |].
  - intros t h [->|Ht]%elem_of_cons Hh; [|by eapply I2]. specialize (B h Hh). lia.
  - destruct I3 as [->|(t & ? & ?)]; [|right; exists t; rewrite elem_of_cons; naive_solver].
    destruct C as [->|?]; [by left|right]. exists s. rewrite elem_of_cons. naive_solver.
Qed.

(** The budget covers every fixed frame that can surround the variable one. *)
Lemma budget_covers v b l1 l2 n :
  v ∈ post → budgetOf nodes (reverse post) prefix suffix v = Ok b →
  call_path nodes entries (l1 ++ v :: l2) n →
  (∀ m, m ∈ l1 → fixed nodes m) → (∀ m, m ∈ l2 → fixed nodes m) →
  Zsum (floor nodes) l1 + b + Zsum (floor nodes) l2 <= KernelStackBytes ∧ floor nodes v <= b.
Proof.
  intros Hv Hb Hp Hf1 Hf2. unfold budgetOf in Hb.
  destruct (before_fold v (0, None) (seq 0 (length nodes))) as (B0 & _ & B & _); [done|simpl; lia|].
  destruct (after_fold (0, None) (Successors (nodes !!! v))) as (A0 & A & _).
  set (before := foldl (beforeStep _ _ _) _ _) in *. set (after := foldl (afterStep _) _ _) in *.
  rewrite bool_decide_true in Hb by by apply elem_of_reverse. simpl in *.
  assert (H1 : Zsum (floor nodes) l1 <= before.1).
  { destruct l1 as [|c l1 _] using rev_ind; [simpl; lia|].
    assert (Hpre : call_path nodes entries (l1 ++ [c]) c).
    { destruct Hp as (Hc & (e & He & Hin) & _). split_and!.
      - rewrite <-app_assoc in Hc. by eapply chain_app_l in Hc.
      - exists e. split; [|done]. by destruct l1.
      - by rewrite last_snoc. }
    assert (He : edge succ c v).
    { destruct Hp as (Hc & _). rewrite <-app_assoc in Hc.
      apply (chain_app_r succ l1 c (v :: l2)) in Hc. by inv Hc. }
    destruct (prefix_path nodes post post_topo entries entries_post prefix (l1 ++ [c]) c)
      as (h & Hh & Hle & _); [done|done|done|].
    transitivity h; [done|]. eapply B; [|done|done].
    apply elem_of_seq. split; [lia|]. simpl. destruct (decide (c < length nodes)%nat); [done|].
    unfold edge, succs in He. rewrite list_lookup_total_alt, lookup_ge_None_2 in He by lia.
    by apply not_elem_of_nil in He. }
  assert (H2 : Zsum (floor nodes) l2 <= after.1).
  { destruct l2 as [|s l2]; [simpl; lia|].
    destruct Hp as (Hc & _). apply chain_app_r in Hc. inv Hc.
    destruct (suffix_path nodes post post_topo suffix s l2) as (w & Hw & Hle);
      [done|by eapply topo_closed|done|done|].
    transitivity w; [done|]. by eapply A. }
  destruct (Z.ltb_spec (before.1 + after.1) KernelStackBytes);
    case_match eqn:E; simplify_eq; bool_to_prop; unfold floor, PortableStackGranule in *; lia.
Qed.
End budget.
