(* ===== verification/StackBudgetProps.v ===== *)
(** * The kernel's stack limits hold for every accepted program

    The properties of [StackBudget.runOnModule] ([machine_stack_budget.cpp]):
    soundness of acceptance for call stacks of machine functions, the meaning
    of each rejection, tightness of the budget and termination. *)

From Stdlib Require Import ZArith Lia.
From stdpp Require Import base numbers list gmap sets fin_maps strings sorting relations.
From S2P Require Import Prelude Graph StackBudget StackBudgetBuild StackBudgetFacts.

Local Open Scope Z_scope.
Import StackBudget.

(** ** Call stacks of machine functions *)

Section stacks.
Context (module : list mfunction) (cg : callgraph).

(** [g] can be called from [f]: the code selected for [f] names it. *)
Definition calls (f g : mfunction) : Prop :=
  ∃ m m', (f, m) ∈ selected module ∧ (g, m') ∈ selected module ∧ references m (mf_id g).

Inductive calls_along : list mfunction → Prop :=
| calls_one f m : (f, m) ∈ selected module → calls_along [f]
| calls_cons f g l : calls f g → calls_along (g :: l) → calls_along (f :: g :: l).

(** The frames the emitted program pushes: a call machine-flatten removes
    stays in the frame of its class. *)
Fixpoint emitted (caller : nat) (stack : list mfunction) : list nat :=
  match stack with
  | [] => []
  | g :: stack =>
      let to := nodeIndex (cg_nodeOf cg) (mf_id g) in
      if removedByFlatten (selected module) (cg_nodeOf cg) caller (mf_id g) to
      then emitted (mf_id g) stack
      else to :: emitted (mf_id g) stack
  end.

Definition frames_of (stack : list mfunction) : list nat :=
  match stack with
  | [] => []
  | f :: stack => nodeIndex (cg_nodeOf cg) (mf_id f) :: emitted (mf_id f) stack
  end.

Lemma frames_chain stack :
  graph_ok module cg → calls_along stack → chain (succs (cg_nodes cg)) (frames_of stack).
Proof.
  intros Hg Hs. induction Hs as [f m Hf|f g l (m & m' & Hf & Hgs & Href) Hs IH].
  { constructor. }
  simpl in *. destruct (go_edges _ _ Hg f m (mf_id g) Hf Href) as (to & Hto & Hor).
  assert (Hidx : nodeIndex (cg_nodeOf cg) (mf_id g) = to) by (unfold nodeIndex; by rewrite Hto).
  rewrite Hidx in *. destruct (removedByFlatten _ _ _ _ _) eqn:E.
  - unfold removedByFlatten in E. apply andb_true_iff in E as [E _].
    apply Nat.eqb_eq in E. by rewrite E.
  - destruct Hor as [?|Hor]; [done|]. by constructor.
Qed.
End stacks.

(** The frame of an emitted node: the largest frame of its members. *)
Definition node_frame (frame : nat → Z) (node : Node) : Z :=
  foldr (λ m, Z.max (frame (mf_id m))) 0 (Members node).

Lemma node_frame_le frame node b :
  0 <= b → (∀ m, m ∈ Members node → frame (mf_id m) <= b) → node_frame frame node <= b.
Proof.
  intros Hb. unfold node_frame. induction (Members node) as [|m l IH]; simpl; intros H; [done|].
  apply Z.max_lub; [apply H; by left|]. apply IH. intros; apply H; by right.
Qed.

(** Final frame sizes a code generator may pick: what was measured for an
    ordinary function, at most the recorded budget for an allocation unit. *)
Definition respects (module : list mfunction) (pl : plan) (frame : nat → Z) : Prop :=
  ∀ f m, (f, m) ∈ selected module →
    if has_metadata (mf_allocation_unit f)
    then ∀ b, pl_budgets pl !! mf_id f = Some b → frame (mf_id f) <= b
    else frame (mf_id f) <= portableFrameBytes m.

(** ** What a successful run establishes *)

(** The analyses before the budgets are assigned. *)
Record analysed (module : list mfunction) (pl : plan) : Prop := {
  ac_graph : graph_ok module (pl_graph pl);
  ac_topo : topo (succs (cg_nodes (pl_graph pl))) (pl_postorder pl);
  ac_entries e : e ∈ cg_entries (pl_graph pl) → e ∈ pl_postorder pl;
  ac_vars : ∃ q, vars_inv (cg_nodes (pl_graph pl)) (reverse (pl_postorder pl)) q;
  ac_depth : depth_inv (cg_nodes (pl_graph pl)) (cg_entries (pl_graph pl))
               (reverse (pl_postorder pl)) (pl_depths pl);
  ac_prefix : prefix_inv (cg_nodes (pl_graph pl)) (cg_entries (pl_graph pl))
               (reverse (pl_postorder pl)) (pl_prefix pl);
  ac_suffix : suffix_inv (cg_nodes (pl_graph pl)) (pl_postorder pl) (pl_suffix pl);
  ac_reach n : n ∈ pl_postorder pl → ∃ e, e ∈ cg_entries (pl_graph pl) ∧
    rtc (edge (succs (cg_nodes (pl_graph pl)))) e n;
}.

(** Every node with a variable frame got its budget, written to its units. *)
Definition budgeted (pl : plan) : Prop :=
  ∀ v, (v < length (cg_nodes (pl_graph pl)))%nat →
    VariableFrame (cg_nodes (pl_graph pl) !!! v) = true →
    ∃ b, budgetOf (cg_nodes (pl_graph pl)) (reverse (pl_postorder pl)) (pl_prefix pl)
                  (pl_suffix pl) v = Ok b ∧
         ∀ m, m ∈ Members (cg_nodes (pl_graph pl) !!! v) →
              has_metadata (mf_allocation_unit m) = true → pl_budgets pl !! mf_id m = Some b.

(** The budgets of a node's units, left alone by the other nodes. *)
Lemma assign_fold (b : Z) members (budgets : gmap nat Z) :
  let r := foldl (λ m f, if has_metadata (mf_allocation_unit f)
                         then <[mf_id f := b]> m else m) budgets members in
  (∀ f, f ∈ members → has_metadata (mf_allocation_unit f) = true → r !! mf_id f = Some b) ∧
  (∀ id, (∀ f, f ∈ members → mf_id f ≠ id) → r !! id = budgets !! id).
Proof.
  induction members as [|f l IH] using rev_ind; simpl.
  { split; [by intros f ?%not_elem_of_nil|done]. }
  rewrite foldl_app. simpl. destruct IH as [I1 I2]. split.
  - intros g [Hg| ->%list_elem_of_singleton]%elem_of_app Hu.
    + destruct (has_metadata (mf_allocation_unit f)); [|by apply I1].
      rewrite lookup_insert. case_decide; [done|by apply I1].
    + by rewrite Hu, lookup_insert_eq.
  - intros id Hid. destruct (has_metadata (mf_allocation_unit f)).
    + rewrite lookup_insert_ne by (apply Hid, elem_of_app; right; by left).
      apply I2. intros g Hg. apply Hid, elem_of_app. by left.
    + apply I2. intros g Hg. apply Hid, elem_of_app. by left.
Qed.

Lemma assign_loop module cg reach prefix suffix budgets :
  graph_ok module cg →
  foldM (assignBudget (cg_nodes cg) reach prefix suffix) (seq 0 (length (cg_nodes cg))) ∅
    = Ok budgets →
  ∀ v, v ∈ seq 0 (length (cg_nodes cg)) → VariableFrame (cg_nodes cg !!! v) = true →
  ∃ b, budgetOf (cg_nodes cg) reach prefix suffix v = Ok b ∧
    ∀ m, m ∈ Members (cg_nodes cg !!! v) → has_metadata (mf_allocation_unit m) = true →
         budgets !! mf_id m = Some b.
Proof.
  intros Hg Hf. set (nodes := cg_nodes cg) in *.
  eapply (foldM_Ok_invariant _ (λ done (bs : gmap nat Z), ∀ v, v ∈ done → VariableFrame (nodes !!! v) = true →
    ∃ b, budgetOf nodes reach prefix suffix v = Ok b ∧
    ∀ m, m ∈ Members (nodes !!! v) → has_metadata (mf_allocation_unit m) = true →
         bs !! mf_id m = Some b)); [by intros v ?%not_elem_of_nil| |exact Hf].
  intros pre x s0 s1 [rest Hsplit] IH Hstep v Hv HV. unfold assignBudget in Hstep.
  assert (Hne : v ∈ pre → v ≠ x).
  { pose proof (NoDup_seq 0 (length nodes)) as Hnd. rewrite Hsplit in Hnd.
    apply NoDup_app in Hnd as (_ & Hd & _). intros Hin ->. apply (Hd x Hin). by left. }
  apply elem_of_app in Hv as [Hv| ->%list_elem_of_singleton].
  - destruct (IH v Hv HV) as (b & Hb & Hm). exists b. split; [done|]. intros m Hin Hu.
    rewrite <-(Hm m Hin Hu). destruct (VariableFrame (nodes !!! x)); [|by simplify_eq/=].
    destruct (budgetOf nodes reach prefix suffix x) as [b'|]; simpl in Hstep; [|done]. simplify_eq.
    apply assign_fold. intros f Hf' Heq.
    destruct (go_member _ _ Hg x f Hf') as [Hx _]. destruct (go_member _ _ Hg v m Hin) as [Hvm _].
    rewrite Heq, Hvm in Hx. by apply Hne.
  - rewrite HV in Hstep. destruct (budgetOf nodes reach prefix suffix x) as [b|]; simpl in Hstep; [|done].
    simplify_eq. exists b. split; [done|]. intros m Hin Hu. by apply assign_fold.
Qed.

Lemma run_analysed cg post q d pre module budgets :
  buildGraph module = Ok cg → topologicalPostorder cg = Ok post →
  foldM (variableStep (cg_nodes cg)) (reverse post) ∅ = Ok q →
  foldM (depthStep (cg_nodes cg)) (reverse post) (initialDepths (cg_entries cg)) = Ok d →
  foldM (prefixStep (cg_nodes cg)) (reverse post) (initialPrefix (cg_nodes cg) (cg_entries cg))
    = Ok pre →
  analysed module (Plan cg post d pre (foldl (suffixStep (cg_nodes cg)) (Sizes ∅ ∅) post) budgets).
Proof.
  intros E0 E1 E2 E3 E4. apply buildGraph_ok in E0 as Hg.
  apply postorder_ok in E1 as (Ht & He & Hr). split; simpl; try done.
  - exists q. by eapply vars_loop.
  - by eapply depth_loop.
  - by eapply prefix_loop.
  - by eapply suffix_loop.
Qed.

Lemma run_accepted module pl : runOnModule module = Ok pl → analysed module pl ∧ budgeted pl.
Proof.
  unfold runOnModule. destruct (buildGraph module) as [cg|] eqn:E0; simpl; [|done].
  destruct (topologicalPostorder cg) as [post|] eqn:E1; simpl; [|done].
  destruct (foldM (variableStep _) _ _) as [q|] eqn:E2; simpl; [|done].
  destruct (foldM (depthStep _) _ _) as [d|] eqn:E3; simpl; [|done].
  destruct (foldM (prefixStep _) _ _) as [pre|] eqn:E4; simpl; [|done].
  destruct (foldM (assignBudget _ _ _ _) _ _) as [bs|] eqn:E5; simpl; [|done].
  intros [= <-]. split; [by eapply run_analysed|].
  intros v Hv HV. eapply assign_loop; [by apply buildGraph_ok|exact E5| |done].
  apply elem_of_seq. simpl in *. lia.
Qed.

Lemma edge_range nodes c v : edge (succs nodes) c v → (c < length nodes)%nat.
Proof.
  unfold edge, succs. rewrite list_lookup_total_alt.
  destruct (nodes !! c) as [node|] eqn:E; [intros _; by eapply lookup_lt_Some|].
  by intros ?%not_elem_of_nil.
Qed.

Lemma variable_range nodes v : VariableFrame (nodes !!! v) = true → (v < length nodes)%nat.
Proof.
  rewrite list_lookup_total_alt.
  destruct (nodes !! v) as [node|] eqn:E; [intros _; by eapply lookup_lt_Some|done].
Qed.

Lemma reach_call_path nodes entries e n :
  e ∈ entries → rtc (edge (succs nodes)) e n → ∃ p, call_path nodes entries p n.
Proof.
  intros He. apply (rtc_ind_r (λ n, ∃ p, call_path nodes entries p n)).
  - exists [e]. by apply call_path_entry.
  - intros y z _ Hyz [p Hp]. exists (p ++ [z]). by eapply call_path_snoc.
Qed.

Section accepted_paths.
Context (module : list mfunction) (pl : plan) (H : analysed module pl).
Local Abbreviation nodes := (cg_nodes (pl_graph pl)).
Local Abbreviation entries := (cg_entries (pl_graph pl)).

(** The frames of a call path: none variable, or exactly one. *)
Lemma path_shape p n :
  call_path nodes entries p n →
  (∀ m, m ∈ p → fixed nodes m) ∨
  ∃ l1 v l2, p = l1 ++ v :: l2 ∧ VariableFrame (nodes !!! v) = true ∧
    (∀ m, m ∈ l1 → fixed nodes m) ∧ (∀ m, m ∈ l2 → fixed nodes m).
Proof.
  intros Hp. destruct (Exists_or_Forall_first (λ m, VariableFrame (nodes !!! m)) p)
    as [Hall|(l1 & v & l2 & -> & Hv & H1)].
  - left. intros m Hm. unfold fixed. by apply Hall.
  - right. exists l1, v, l2. split_and!; [done|done|by apply H1|].
    intros m Hm. destruct (ac_vars _ _ H) as [q Hq].
    eapply vars_chain; [apply H|exact Hq| |exact Hv| |exact Hm].
    + eapply call_path_post; [apply H|apply H|exact Hp|]. apply elem_of_app. right. by left.
    + destruct Hp as (Hc & _). by eapply chain_app_r.
Qed.

Lemma node_frame_fixed frame n :
  respects module pl frame → fixed nodes n → node_frame frame (nodes !!! n) <= floor nodes n.
Proof.
  intros Hr Hf. apply node_frame_le; [apply (go_floor _ _ (ac_graph _ _ H))|].
  intros m Hm. destruct (go_member _ _ (ac_graph _ _ H) n m Hm) as [Hn [mm Hsel]].
  destruct (go_selected _ _ (ac_graph _ _ H) m mm Hsel) as [_ Hu].
  specialize (Hr m mm Hsel). rewrite Hn in Hu.
  rewrite (go_fixed _ _ (ac_graph _ _ H) n m Hf Hm) in Hr, Hu. simpl in *. unfold floor. lia.
Qed.

Lemma node_frame_variable frame n b :
  respects module pl frame →
  (∀ m, m ∈ Members (nodes !!! n) → has_metadata (mf_allocation_unit m) = true →
        pl_budgets pl !! mf_id m = Some b) →
  floor nodes n <= b → node_frame frame (nodes !!! n) <= b.
Proof.
  intros Hr Hb Hle. apply node_frame_le.
  { pose proof (go_floor _ _ (ac_graph _ _ H) n). unfold floor in *. lia. }
  intros m Hm. destruct (go_member _ _ (ac_graph _ _ H) n m Hm) as [Hn [mm Hsel]].
  destruct (go_selected _ _ (ac_graph _ _ H) m mm Hsel) as [_ Hu].
  specialize (Hr m mm Hsel). rewrite Hn in Hu.
  destruct (has_metadata (mf_allocation_unit m)) eqn:E; [apply Hr; by apply Hb|].
  unfold floor in *. lia.
Qed.

Lemma path_bytes frame p n :
  budgeted pl → respects module pl frame → call_path nodes entries p n →
  Zsum (λ i, node_frame frame (nodes !!! i)) p <= KernelStackBytes.
Proof.
  intros Hbud Hr Hp. destruct (path_shape p n Hp) as [Hf|(l1 & v & l2 & -> & HV & H1 & H2)].
  - transitivity (Zsum (floor nodes) p).
    { apply Zsum_le. intros m Hm. apply node_frame_fixed; auto. }
    destruct (prefix_path nodes (pl_postorder pl) (ac_topo _ _ H) entries (ac_entries _ _ H)
                (pl_prefix pl) p n) as (h & _ & ? & ?); [apply H|done|done|lia].
  - assert (Hv : v ∈ pl_postorder pl).
    { eapply call_path_post; [apply H|apply H|exact Hp|]. apply elem_of_app. right. by left. }
    destruct (Hbud v (variable_range _ _ HV) HV) as (b & Hb & Hm).
    destruct (budget_covers nodes (pl_postorder pl) entries (pl_prefix pl) (pl_suffix pl)
      (ac_topo _ _ H) (ac_entries _ _ H) (go_floor _ _ (ac_graph _ _ H)) (ac_prefix _ _ H)
      (ac_suffix _ _ H) v b l1 l2 n) as [Hsum Hfl]; [done|done|done|done|done|].
    rewrite Zsum_app. simpl.
    assert (Zsum (λ i, node_frame frame (nodes !!! i)) l1 <= Zsum (floor nodes) l1).
    { apply Zsum_le. intros m ?. apply node_frame_fixed; auto. }
    assert (Zsum (λ i, node_frame frame (nodes !!! i)) l2 <= Zsum (floor nodes) l2).
    { apply Zsum_le. intros m ?. apply node_frame_fixed; auto. }
    pose proof (node_frame_variable frame v b Hr Hm Hfl). lia.
Qed.

Lemma path_frames p n :
  call_path nodes entries p n → Z.of_nat (length p) <= KernelCallFrames ∧ NoDup p.
Proof.
  intros Hp. split.
  - transitivity (framesAt (pl_depths pl) n).
    + eapply depth_path; [apply H|apply H|apply H|done].
    + eapply di_bound; [apply H|]. apply elem_of_reverse.
      eapply call_path_post; [apply H|apply H|exact Hp|]. apply last_Some_elem_of, Hp.
  - destruct Hp as (Hc & (e & He & Hin) & _).
    eapply topo_chain_NoDup; [apply H|done|]. intros x Hx. simplify_eq. by apply H.
Qed.
End accepted_paths.

Lemma stack_call_path module cg f stack :
  graph_ok module cg → calls_along module (f :: stack) → IsEntryProgram (mf_section f) = true →
  ∃ n, call_path (cg_nodes cg) (cg_entries cg) (frames_of module cg (f :: stack)) n.
Proof.
  intros Hg Hs He. pose proof (frames_chain module cg _ Hg Hs) as Hc.
  destruct (last (frames_of module cg (f :: stack))) as [n|] eqn:El; [|by apply last_None in El].
  exists n. split_and!; [done| |done]. eexists. split; [done|].
  assert (∃ m, (f, m) ∈ selected module) as [m Hm].
  { inv Hs; [eauto|]. match goal with H : calls _ _ _ |- _ => destruct H as (? & ? & ? & _); eauto end. }
  by eapply go_entries.
Qed.

(** C1: for every program the pass accepts, whatever final frames the code
    generator picks within the recorded budgets, every call stack that starts
    at an entry program uses at most the kernel's 512 stack bytes and eight
    frames, and no frame is entered twice. *)
Theorem stack_budget_sound (module : list mfunction) (pl : plan) (frame : nat → Z)
    (f : mfunction) (stack : list mfunction) :
  runOnModule module = Ok pl →
  respects module pl frame →
  calls_along module (f :: stack) →
  IsEntryProgram (mf_section f) = true →
  let frames := frames_of module (pl_graph pl) (f :: stack) in
  Zsum (λ n, node_frame frame (cg_nodes (pl_graph pl) !!! n)) frames <= KernelStackBytes ∧
  Z.of_nat (length frames) <= KernelCallFrames ∧ NoDup frames.
Proof.
  intros Hrun Hr Hs He. apply run_accepted in Hrun as [H Hbud].
  destruct (stack_call_path module (pl_graph pl) f stack (ac_graph _ _ H) Hs He) as [n Hp].
  split; [by eapply path_bytes|by eapply path_frames].
Qed.

(** ** A small program

    An entry, the root of class 0, one allocation unit joined into that root
    and a native helper the unit calls. *)
Module Sample.
Definition code (stack : Z) (callees : list nat) : option machine :=
  Some (Machine stack [map (λ c, MInstr "JAL" [OpGlobal (GFunction c false)]) callees]).
Definition entry := MFunction 0 "entry" false (Some "xdp") None None None (code 8 [1%nat]).
Definition root := MFunction 1 "root" false None (Some [MdInt 0]) None None (code 0 [2%nat]).
Definition unit := MFunction 2 "unit" false None None (Some [MdInt 0]) (Some [MdInt 0]) (code 700 [3%nat]).
Definition helper := MFunction 3 "helper" false None None None None (code 40 []).
Definition program : list mfunction := [entry; root; unit; helper].

(** Final frames: the unit uses its whole budget of 416 bytes. *)
Definition frame (id : nat) : Z :=
  match id with 0%nat => 32 | 1%nat => 32 | 2%nat => 416 | _ => 64 end.
Definition stack : list mfunction := [entry; root; unit; helper].

Definition result_plan : plan :=
  match runOnModule program with Ok pl => pl | Err _ => Plan (CallGraph [] ∅ []) [] (Depths ∅ ∅) (Sizes ∅ ∅) (Sizes ∅ ∅) ∅ end.

Lemma runs : runOnModule program = Ok result_plan.
Proof. vm_compute. reflexivity. Qed.

Lemma budget : pl_budgets result_plan !! 2%nat = Some 416.
Proof. vm_compute. reflexivity. Qed.

Lemma calls_stack : calls_along program stack.
Proof.
  assert (Hsel : selected program = [(entry, Machine 8 [[MInstr "JAL" [OpGlobal (GFunction 1 false)]]]);
    (root, Machine 0 [[MInstr "JAL" [OpGlobal (GFunction 2 false)]]]);
    (unit, Machine 700 [[MInstr "JAL" [OpGlobal (GFunction 3 false)]]]);
    (helper, Machine 40 [[]])]) by reflexivity.
  repeat econstructor; try (rewrite Hsel; repeat (by left) || right); by left.
Qed.

Lemma frame_respects : respects program result_plan frame.
Proof.
  intros f m Hin.
  repeat (apply elem_of_cons in Hin as [Hin|Hin];
    [simplify_eq; vm_compute; first [discriminate|intros b [= <-]; discriminate]|]).
  by apply not_elem_of_nil in Hin.
Qed.
End Sample.

Lemma stack_budget_sound_witness :
  Zsum (λ n, node_frame Sample.frame (cg_nodes (pl_graph Sample.result_plan) !!! n))
       (frames_of Sample.program (pl_graph Sample.result_plan) Sample.stack) <= KernelStackBytes ∧
  Z.of_nat (length (frames_of Sample.program (pl_graph Sample.result_plan) Sample.stack))
    <= KernelCallFrames ∧
  NoDup (frames_of Sample.program (pl_graph Sample.result_plan) Sample.stack).
Proof.
  apply (stack_budget_sound Sample.program Sample.result_plan Sample.frame Sample.entry
           [Sample.root; Sample.unit; Sample.helper]).
  - exact Sample.runs.
  - exact Sample.frame_respects.
  - exact Sample.calls_stack.
  - reflexivity.
Defined.

(** ** The budget wastes nothing *)

Section tight.
Context (module : list mfunction) (pl : plan) (H : analysed module pl).
Local Abbreviation nodes := (cg_nodes (pl_graph pl)).
Local Abbreviation entries := (cg_entries (pl_graph pl)).
Local Abbreviation post := (pl_postorder pl).

(** Extend a fixed path to [c] and a fixed path from [s] by [v] between them. *)
Lemma tight_path v l1 l2 :
  (l1 = [] ∧ v ∈ entries ∨ ∃ c, call_path nodes entries l1 c ∧ edge (succs nodes) c v) →
  (l2 = [] ∨ ∃ s k, l2 = s :: k ∧ edge (succs nodes) v s ∧ chain (succs nodes) l2) →
  ∃ n, call_path nodes entries (l1 ++ v :: l2) n.
Proof.
  intros H1 H2. assert (Hv : call_path nodes entries (l1 ++ [v]) v).
  { destruct H1 as [[-> He]|(c & Hc & He)]; [by apply call_path_entry|by eapply call_path_snoc]. }
  destruct H2 as [->|(s & k & -> & He & Hc)]; [by exists v|].
  destruct Hv as (Hc1 & (e & Hhd & Hin) & _).
  exists (default s (last (s :: k))). split_and!.
  - clear -Hc1 He Hc. induction l1 as [|a l1 IH]; simpl in *; [by constructor|].
    inv Hc1; [by destruct l1|]. destruct l1; simplify_eq/=; constructor; auto.
  - exists e. split; [|done]. by destruct l1.
  - rewrite last_app_cons, last_cons_cons. by destruct (last (s :: k)) eqn:E; [|apply last_None in E].
Qed.

(** A variable node the entries reach has a fixed-only call path to it. *)
Lemma reach_variable v :
  v ∈ post → VariableFrame (nodes !!! v) = true →
  ∃ l1, (∀ m, m ∈ l1 → fixed nodes m) ∧
    (l1 = [] ∧ v ∈ entries ∨ ∃ c, call_path nodes entries l1 c ∧ edge (succs nodes) c v).
Proof.
  intros Hv HV. destruct (ac_reach _ _ H v Hv) as (e & He & Hr).
  destruct (reach_call_path nodes entries e v He Hr) as [p Hp].
  destruct p as [|x l1 _] using rev_ind.
  { by destruct Hp as (Hc%chain_nonempty & _). }
  assert (x = v) as ->.
  { destruct Hp as (_ & _ & Hl). rewrite last_snoc in Hl. by injection Hl. }
  exists l1. split.
  - destruct (path_shape module pl H _ _ Hp) as [Hf|(k1 & w & k2 & Heq & HW & H1 & H2)].
    + assert (Hfv : fixed nodes v) by (apply Hf, elem_of_app; right; by left).
      unfold fixed in Hfv. congruence.
    + destruct k2 as [|y k2 _] using rev_ind.
      * apply app_inj_2 in Heq as [-> _]; done.
      * rewrite (app_assoc k1 (w :: k2) [y] : k1 ++ w :: k2 ++ [y] = _) in Heq.
        apply app_inj_2 in Heq as [_ [= ->]]; [|done].
        assert (Hfv : fixed nodes y) by (apply H2, elem_of_app; right; by left).
        unfold fixed in Hfv. congruence.
  - destruct l1 as [|c l1 _] using rev_ind.
    + left. split; [done|]. destruct Hp as (_ & (e' & [= ->] & ?) & _). done.
    + right. exists c. split; [by eapply call_path_init|].
      destruct Hp as (Hc & _). rewrite <-app_assoc in Hc. by apply chain_last_edge in Hc.
Qed.

Lemma before_attained v :
  v ∈ post → VariableFrame (nodes !!! v) = true →
  let before := foldl (beforeStep nodes (bytes (pl_prefix pl)) v) (0, None) (seq 0 (length nodes)) in
  ∃ l1, Zsum (floor nodes) l1 = before.1 ∧ (∀ m, m ∈ l1 → fixed nodes m) ∧
    (l1 = [] ∧ v ∈ entries ∨ ∃ c, call_path nodes entries l1 c ∧ edge (succs nodes) c v).
Proof.
  intros Hv HV before. pose proof (go_floor _ _ (ac_graph _ _ H)) as Hfl.
  destruct (before_fold nodes post entries (pl_prefix pl) Hfl (ac_prefix _ _ H) v (0, None)
    (seq 0 (length nodes))) as (_ & _ & B & BX); [done|simpl; lia|]. fold before in B, BX.
  destruct BX as [E|(c & _ & Hc & He)].
  - destruct (reach_variable v Hv HV) as (l1 & F1 & P1).
    exists l1. split_and!; [|done|done]. rewrite E in *. simpl in *.
    apply Z.le_antisymm; [|by apply Zsum_floor_nonneg].
    destruct P1 as [[-> _]|(c & Hc & He)]; [simpl; lia|].
    destruct (prefix_path nodes post (ac_topo _ _ H) entries (ac_entries _ _ H)
                (pl_prefix pl) l1 c) as (h & Hh & ? & _); [apply H|done|done|].
    transitivity h; [done|]. eapply B; [|done|done].
    apply elem_of_seq. apply edge_range in He. lia.
  - destruct (pi_exact _ _ _ _ (ac_prefix _ _ H) c before.1 Hc) as (l1 & Hp & Hsum & Hfix).
    exists l1. split_and!; [done|done|]. right. by exists c.
Qed.

Lemma after_attained v :
  let after := foldl (afterStep (bytes (pl_suffix pl))) (0, None) (Successors (nodes !!! v)) in
  ∃ l2, Zsum (floor nodes) l2 = after.1 ∧ (∀ m, m ∈ l2 → fixed nodes m) ∧
    (l2 = [] ∨ ∃ s k, l2 = s :: k ∧ edge (succs nodes) v s ∧ chain (succs nodes) l2).
Proof.
  intros after. destruct (after_fold (pl_suffix pl) (0, None) (Successors (nodes !!! v))) as (_ & _ & AX).
  fold after in AX. destruct AX as [->|(s & Hs & Hsuf)].
  - exists []. split_and!; [done| |by left]. by intros m ?%not_elem_of_nil.
  - destruct (si_exact _ _ _ (ac_suffix _ _ H) s after.1 Hsuf) as (k & Hc & Hf & Hsum).
    exists (s :: k). split_and!; [done|done|]. right. by exists s, k.
Qed.

(** The fixed frames the budget computation charges lie on one real call
    path through the variable node. *)
Lemma fixed_attained v :
  v ∈ post → VariableFrame (nodes !!! v) = true →
  ∃ l1 l2 n, call_path nodes entries (l1 ++ v :: l2) n ∧
    (∀ m, m ∈ l1 ++ l2 → fixed nodes m) ∧
    Zsum (floor nodes) l1 + Zsum (floor nodes) l2 =
      (foldl (beforeStep nodes (bytes (pl_prefix pl)) v) (0, None) (seq 0 (length nodes))).1 +
      (foldl (afterStep (bytes (pl_suffix pl))) (0, None) (Successors (nodes !!! v))).1.
Proof.
  intros Hv HV.
  destruct (before_attained v Hv HV) as (l1 & <- & F1 & P1).
  destruct (after_attained v) as (l2 & <- & F2 & P2).
  destruct (tight_path v l1 l2 P1 P2) as [n Hp].
  exists l1, l2, n. split_and!; [done|intros m [?|?]%elem_of_app; auto|done].
Qed.

Lemma budget_attained v b :
  v ∈ post → VariableFrame (nodes !!! v) = true →
  budgetOf nodes (reverse post) (pl_prefix pl) (pl_suffix pl) v = Ok b →
  ∃ l1 l2 n, call_path nodes entries (l1 ++ v :: l2) n ∧
    (∀ m, m ∈ l1 ++ l2 → fixed nodes m) ∧
    Zsum (floor nodes) l1 + b + Zsum (floor nodes) l2 = KernelStackBytes.
Proof.
  intros Hv HV Hb. destruct (fixed_attained v Hv HV) as (l1 & l2 & n & Hp & Hf & Hs).
  exists l1, l2, n. split_and!; [done|done|]. unfold budgetOf in Hb.
  rewrite bool_decide_true in Hb by by apply elem_of_reverse. simpl in Hb. rewrite <-Hs in Hb.
  destruct (Z.ltb_spec (Zsum (floor nodes) l1 + Zsum (floor nodes) l2) KernelStackBytes);
    case_match eqn:E; simplify_eq; bool_to_prop; unfold PortableStackGranule in *; lia.
Qed.
End tight.

(** C2: the budget is exact.  For every allocation unit whose node the entries
    reach there is a call path through that node on which the fixed frames
    and the unit's budget fill the 512 bytes completely: a larger frame would
    overflow that path. *)
Theorem stack_budget_tight (module : list mfunction) (pl : plan) (f : mfunction) (m : machine) (b : Z) :
  runOnModule module = Ok pl →
  (f, m) ∈ selected module → has_metadata (mf_allocation_unit f) = true →
  let v := nodeIndex (cg_nodeOf (pl_graph pl)) (mf_id f) in
  v ∈ pl_postorder pl → pl_budgets pl !! mf_id f = Some b →
  ∃ before after last,
    call_path (cg_nodes (pl_graph pl)) (cg_entries (pl_graph pl)) (before ++ v :: after) last ∧
    (∀ n, n ∈ before ++ after → fixed (cg_nodes (pl_graph pl)) n) ∧
    Zsum (floor (cg_nodes (pl_graph pl))) before + b + Zsum (floor (cg_nodes (pl_graph pl))) after
      = KernelStackBytes.
Proof.
  intros Hrun Hsel Hu v Hv Hb. apply run_accepted in Hrun as [H Hbud].
  destruct (go_selected _ _ (ac_graph _ _ H) f m Hsel) as [Hmem HV]. rewrite Hu in HV.
  destruct (Hbud v (variable_range _ _ HV) HV) as (b' & Hb' & Hall).
  rewrite (Hall f Hmem Hu) in Hb. simplify_eq.
  by eapply budget_attained.
Qed.

Lemma stack_budget_tight_witness :
  ∃ before after last,
    call_path (cg_nodes (pl_graph Sample.result_plan)) (cg_entries (pl_graph Sample.result_plan))
      (before ++ nodeIndex (cg_nodeOf (pl_graph Sample.result_plan)) 2 :: after) last ∧
    (∀ n, n ∈ before ++ after → fixed (cg_nodes (pl_graph Sample.result_plan)) n) ∧
    Zsum (floor (cg_nodes (pl_graph Sample.result_plan))) before + 416 +
    Zsum (floor (cg_nodes (pl_graph Sample.result_plan))) after = KernelStackBytes.
Proof.
  apply (stack_budget_tight Sample.program Sample.result_plan Sample.unit
    (Machine 700 [[MInstr "JAL" [OpGlobal (GFunction 3 false)]]]) 416).
  - exact Sample.runs.
  - right. right. left.
  - reflexivity.
  - vm_compute. left || (right; left) || (right; right; left).
  - exact Sample.budget.
Defined.

(** ** Rejections *)

(** What each diagnostic claims about the contracted call graph. *)
Definition violation (cg : callgraph) (e : error) : Prop :=
  let nodes := cg_nodes cg in
  match e with
  | RecursivePath c => closed_path nodes c
  | NestedFrames u v =>
      VariableFrame (nodes !!! u) = true ∧ VariableFrame (nodes !!! v) = true ∧
      tc (edge (succs nodes)) u v
  | TooManyFrames k _ =>
      ∃ p n, call_path nodes (cg_entries cg) p n ∧ Z.of_nat (length p) = k ∧ KernelCallFrames < k
  | NativePathOverflow k _ =>
      ∃ p n, call_path nodes (cg_entries cg) p n ∧ (∀ m, m ∈ p → fixed nodes m) ∧
             Zsum (floor nodes) p = k ∧ KernelStackBytes < k
  | NoFrameFits _ fixedBytes own =>
      ∃ l1 v l2 n, call_path nodes (cg_entries cg) (l1 ++ v :: l2) n ∧
        (∀ m, m ∈ l1 ++ l2 → fixed nodes m) ∧
        Zsum (floor nodes) l1 + Zsum (floor nodes) l2 = fixedBytes ∧ floor nodes v = own ∧
        KernelStackBytes < fixedBytes + Z.max PortableStackGranule own
  | _ => False
  end.

Lemma search_error module cg e :
  graph_ok module cg → topologicalPostorder cg = Err e → ∃ c, e = RecursivePath c ∧ closed_path (cg_nodes cg) c.
Proof.
  intros Hg. unfold topologicalPostorder.
  destruct (foldM _ _ _) as [st|e'] eqn:E; simpl; [done|]. intros [= ->].
  apply (foldM_Err _ (λ s, dfs_ok (cg_nodes cg) s ∧ active s = [])) in E
    as (x & s0 & Hx & [Hok Ha] & Hv); [| |].
  - destruct e; try (exfalso; revert Hv; clear; revert x s0;
      induction (S (length (cg_nodes cg))) as [|k IH]; intros x s0; simpl; [done|];
      case_match; [done|]; case_match; [done|];
      destruct (foldM _ _ _) as [|e] eqn:E; [done|]; intros [= ->];
      apply (foldM_Err _ (λ _, True)) in E as (y & s1 & _ & _ & Hy); naive_solver).
    + eexists. split; [done|]. eapply visit_RecursivePath; [done| |done].
      rewrite Ha. constructor.
    + exfalso. revert Hv. apply visit_no_OutOfFuel; [by apply (go_succ _ _ Hg)|done| | |].
      * rewrite Ha. by intros m ?%not_elem_of_nil.
      * by apply (go_entry _ _ Hg).
      * lia.
  - split; [apply dfs_ok_empty|done].
  - intros y s0 s1 _ Hs Hv. by eapply visit_keeps.
Qed.

Lemma variables_error nodes post e :
  foldM (variableStep nodes) post ∅ = Err e → ∃ u v, e = NestedFrames u v.
Proof.
  intros (pre & x & rest & s & _ & _ & Hx)%foldM_Err_split. unfold variableStep in Hx.
  destruct (VariableFrame _); [case_bool_decide|]; simplify_eq/=; eauto.
Qed.

Lemma depths_error nodes post d e :
  foldM (depthStep nodes) post d = Err e → ∃ k l, e = TooManyFrames k l.
Proof.
  intros (pre & x & rest & s & _ & _ & Hx)%foldM_Err_split. unfold depthStep in Hx.
  repeat case_match; simplify_eq; eauto.
Qed.

Lemma prefixes_error nodes post d e :
  foldM (prefixStep nodes) post d = Err e → ∃ k l, e = NativePathOverflow k l.
Proof.
  intros (pre & x & rest & s & _ & _ & Hx)%foldM_Err_split. unfold prefixStep in Hx.
  repeat case_match; simplify_eq; eauto.
Qed.

Lemma budgets_error module pl reach l e :
  analysed module pl → reach = reverse (pl_postorder pl) →
  foldM (assignBudget (cg_nodes (pl_graph pl)) reach (pl_prefix pl) (pl_suffix pl)) l ∅ = Err e →
  violation (pl_graph pl) e.
Proof.
  intros H -> (pre & v & rest & s & _ & _ & Hx)%foldM_Err_split. unfold assignBudget in Hx.
  destruct (VariableFrame (cg_nodes (pl_graph pl) !!! v)) eqn:HV; [|done].
  destruct (budgetOf _ _ _ _ _) as [b|e'] eqn:Hb; simpl in Hx; [done|]. injection Hx as ->.
  unfold budgetOf in Hb. case_bool_decide as Hin; simpl in Hb; [|done].
  rewrite elem_of_reverse in Hin.
  destruct (fixed_attained module pl H v Hin HV) as (l1 & l2 & n & Hp & Hf & Hs).
  rewrite <-Hs in Hb. case_match eqn:E; [|done]. injection Hb as <-. simpl.
  exists l1, v, l2, n. split_and!; [done|done|done|done|].
  unfold floor, KernelStackBytes, PortableStackGranule in *.
  apply orb_true_iff in E. rewrite !Z.ltb_lt in E.
  destruct (Z.ltb_spec (Zsum (λ n, FixedFloor (cg_nodes (pl_graph pl) !!! n)) l1 +
                        Zsum (λ n, FixedFloor (cg_nodes (pl_graph pl) !!! n)) l2) 512); lia.
Qed.

(** C3: rejections are real and the pass always returns.  When the pass stops
    after building the call graph, the graph has the violation it reports: a
    closed call path, a variable frame below another one, a call path of
    more than eight frames, a fixed-only call path over 512 bytes, or a call
    path whose fixed frames leave less than 32 bytes, or less than the merged
    root needs, for the variable frame.  In particular the search never runs
    out of fuel. *)
Theorem stack_budget_rejections (module : list mfunction) (cg : callgraph) (e : error) :
  buildGraph module = Ok cg → runOnModule module = Err e → violation cg e.
Proof.
  intros Hg. unfold runOnModule. rewrite Hg. simpl. apply buildGraph_ok in Hg as Hok.
  destruct (topologicalPostorder cg) as [post|e1] eqn:E1; simpl; [|intros [= ->]].
  2: { by destruct (search_error module cg e Hok E1) as (c & -> & Hc). }
  apply postorder_ok in E1 as Hpost. destruct Hpost as (Ht & He & _).
  destruct (foldM (variableStep _) _ _) as [q|e2] eqn:E2; simpl; [|intros [= ->]].
  2: { destruct (variables_error _ _ _ E2) as (u & v & ->). by eapply vars_error. }
  destruct (foldM (depthStep _) _ _) as [d|e3] eqn:E3; simpl; [|intros [= ->]].
  2: { destruct (depths_error _ _ _ _ E3) as (k & l & ->). by eapply depth_error. }
  destruct (foldM (prefixStep _) _ _) as [pre|e4] eqn:E4; simpl; [|intros [= ->]].
  2: { destruct (prefixes_error _ _ _ _ E4) as (k & l & ->). by eapply prefix_error. }
  destruct (foldM (assignBudget _ _ _ _) _ _) as [bs|e5] eqn:E5; simpl; [done|intros [= ->]].
  pose proof (run_analysed cg post q d pre module ∅ Hg E1 E2 E3 E4) as H.
  by apply (budgets_error module _ _ _ e H eq_refl) in E5.
Qed.

Module Recursive.
Definition entry := MFunction 0 "entry" false (Some "xdp") None None None (Sample.code 8 [1%nat]).
Definition loop := MFunction 1 "loop" false None None None None (Sample.code 8 [1%nat]).
Definition program : list mfunction := [entry; loop].
Definition graph : callgraph :=
  match buildGraph program with Ok cg => cg | Err _ => CallGraph [] ∅ [] end.
End Recursive.

Lemma stack_budget_rejections_witness : violation Recursive.graph (RecursivePath [1; 1]%nat).
Proof.
  apply (stack_budget_rejections Recursive.program Recursive.graph).
  - vm_compute. reflexivity.
  - vm_compute. reflexivity.
Defined.

(** ** No wrap-around *)

Lemma Zsum_bound {A} (f : A → Z) B l : (∀ x, f x <= B) → Zsum f l <= Z.of_nat (length l) * B.
Proof. intros Hf. induction l as [|x l IH]; simpl; [lia|]. specialize (Hf x). lia. Qed.

(** No sum the pass forms wraps around.  If every fixed frame is smaller
    than 2^60 bytes, each prefix and suffix total recorded for an accepted
    program is below 2^63, so the [uint64_t] additions of the pass compute
    the integers this model computes. *)
Theorem stack_budget_no_wrap (module : list mfunction) (pl : plan) :
  runOnModule module = Ok pl →
  (∀ n, floor (cg_nodes (pl_graph pl)) n <= 2 ^ 60) →
  ∀ n h, (bytes (pl_prefix pl) !! n = Some h ∨ bytes (pl_suffix pl) !! n = Some h) →
  0 <= h <= 2 ^ 63.
Proof.
  intros Hrun HB n h Hor. apply run_accepted in Hrun as [H _].
  set (nodes := cg_nodes (pl_graph pl)) in *.
  assert (Hpath : ∀ l, (length l <= 8)%nat → Zsum (floor nodes) l <= 2 ^ 63).
  { intros l Hl. pose proof (Zsum_bound (floor nodes) (2 ^ 60) l HB). lia. }
  assert (Hnn : ∀ l, 0 <= Zsum (floor nodes) l).
  { intros l. apply Zsum_floor_nonneg, (go_floor _ _ (ac_graph _ _ H)). }
  destruct Hor as [Hp|Hs].
  - destruct (pi_exact _ _ _ _ (ac_prefix _ _ H) n h Hp) as (l & Hl & <- & _).
    split; [done|]. apply Hpath.
    destruct (path_frames module pl H l n Hl) as [? _]. unfold KernelCallFrames in *. lia.
  - destruct (si_dom _ _ _ (ac_suffix _ _ H) n h Hs) as [Hn _].
    destruct (si_exact _ _ _ (ac_suffix _ _ H) n h Hs) as (k & Hk & _ & <-).
    split; [done|]. apply Hpath.
    destruct (ac_reach _ _ H n Hn) as (e & He & Hr).
    destruct (reach_call_path _ _ e n He Hr) as [p Hp].
    assert (∃ m, call_path nodes (cg_entries (pl_graph pl)) (p ++ k) m) as [m Hm]
      by by eapply call_path_extend.
    destruct (path_frames module pl H _ _ Hm) as [Hlen _]. rewrite length_app in Hlen.
    destruct p as [|x p]; [by destruct Hp as (Hc%chain_nonempty & _)|].
    unfold KernelCallFrames in *. simpl in *. lia.
Qed.

Lemma stack_budget_no_wrap_witness :
  ∃ h, bytes (pl_suffix Sample.result_plan) !! 1%nat = Some h ∧ 0 <= h <= 2 ^ 63.
Proof.
  exists 32. assert (E : bytes (pl_suffix Sample.result_plan) !! 1%nat = Some 32) by reflexivity.
  split; [exact E|].
  apply (stack_budget_no_wrap Sample.program Sample.result_plan Sample.runs) with 1%nat.
  - intros n. do 4 (destruct n as [|n]; [vm_compute; discriminate|]). vm_compute. discriminate.
  - right. exact E.
Defined.
