(* ===== verification/Domains.v ===== *)
(** * The native/Capsule partition ([src/src/pass/capsule_domains.cpp])

    The pass computes the closure of the entry programs (the native domain)
    and the closure of the [capsule_call] targets, exit-marker callers and
    otherwise unclaimed address-taken functions (the Capsule domain), rejects
    overlap, and classifies the globals by their users.  Functions, values,
    users and function types are identified by numbers: indices into the
    tables of the [module] record.  Facts LLVM computes about them
    ([isDeclaration], [hasAddressTaken], [stripPointerCasts], [isInlineAsm],
    ...) are fields of those records. *)

From Stdlib Require Import ZArith Lia.
From stdpp Require Import base numbers list gmap sets fin_maps strings relations.
From S2P Require Import Prelude Graph.

Module Domains.

(** ** The module the pass reads *)

(** A [Value]: the function its pointer-cast-stripped form is, if any, and the
    operands a [Constant] has. *)
Record vnode := VNode {
  v_function : option nat;
  v_constant : bool;
  v_operands : list nat;
}.

Record call := Call {
  c_boundary : bool;              (* carries the "bpf.capsule.call" bundle *)
  c_inline_asm : bool;
  c_intrinsic : bool;
  c_called : option nat;          (* getCalledFunction *)
  c_operand_constant : bool;      (* isa<Constant>(getCalledOperand()) *)
  c_type : nat;                   (* getFunctionType *)
}.

Record instr := Instr { i_operands : list nat; i_call : option call }.

Record func := Func {
  fn_declaration : bool;
  fn_section : option string;
  fn_classes : list string;       (* string attributes *)
  fn_type : nat;
  fn_address_taken : bool;        (* hasAddressTaken once annotations are consumed *)
  fn_body : list instr;
}.

(** A [User] of a global: an instruction, with the function that owns it, or
    another value with users of its own. *)
Inductive user :=
| UInstruction (owner : nat)
| UConstant (users : list nat).

Record global := Global {
  g_declaration : bool;
  g_name : string;
  g_section : option string;
  g_capsule_owned : bool;
  g_users : list nat;
}.

(** A user of the exit marker: whether it is a call whose stripped callee is
    the marker, and the function it is in. *)
Record marker_user := MarkerUser { mu_calls_marker : bool; mu_function : nat }.

(** An entry of [llvm.global.annotations]: the annotated function, if the
    entry has that shape, and its text, if it is a constant string. *)
Record annotation := Annotation { an_function : option nat; an_text : option string }.

Record module := Module {
  m_functions : list func;
  m_values : list vnode;
  m_users : list user;
  m_globals : list global;
  m_exit_marker : option (list marker_user);
  m_classes_flag : bool;          (* module flag "bpf.capsule.classes" *)
  m_annotations : option (list annotation);
}.

Inductive error :=
| BoundaryInCapsule (f : nat)
| BoundaryLostTarget
| SharedFunction (f : nat)
| SharedGlobal (g : nat)
| OutOfFuel.

#[global] Instance error_eq_dec : EqDecision error.
Proof. solve_decision. Defined.

(** ** Function classes ([common.cpp]) *)

Definition capsule_annotation (a : annotation) : option (nat * string) :=
  match an_function a, an_text a with
  | Some f, Some text => if String.prefix "capsule." text then Some (f, text) else None
  | _, _ => None
  end.

Definition addFnAttr (text : string) (f : func) : func :=
  Func (fn_declaration f) (fn_section f)
       (if bool_decide (text ∈ fn_classes f) then fn_classes f else fn_classes f ++ [text])
       (fn_type f) (fn_address_taken f) (fn_body f).

Definition MaterializeFunctionClasses (m : module) : module :=
  if m_classes_flag m then m
  else
    let flagged fs anns :=
      Module fs (m_values m) (m_users m) (m_globals m) (m_exit_marker m) true anns in
    match m_annotations m with
    | None => flagged (m_functions m) None
    | Some anns =>
        let consumed := omap capsule_annotation anns in
        let kept := filter (λ a, capsule_annotation a = None) anns in
        let fs := foldl (λ fs ft, alter (addFnAttr ft.2) ft.1 fs) (m_functions m) consumed in
        flagged fs
          (if Nat.eqb (length kept) (length anns) then Some anns
           else match kept with [] => None | _ => Some kept end)
    end.

Definition HasFunctionClass (f : func) (cls : string) : bool := bool_decide (cls ∈ fn_classes f).

(** [bpf::IsEntryProgram] *)
Definition IsEntryProgram (f : func) : bool :=
  match fn_section f with
  | Some s => negb (String.eqb s ".ksyms")
  | None => false
  end.

Definition IsCompilerDriver (f : func) : bool := HasFunctionClass f "capsule.trampoline".
Definition IsBoundaryCall (c : call) : bool := c_boundary c.

(** ** Possible callees of an indirect call, by function type *)

Definition isIndirectTarget (f : func) : bool :=
  negb (fn_declaration f || IsEntryProgram f || IsCompilerDriver f) && fn_address_taken f.

Definition FindIndirectTargets (m : module) : gmap nat (list nat) :=
  foldl (λ targets p, let '(i, f) := p in
           if isIndirectTarget f
           then <[fn_type f := default [] (targets !! fn_type f) ++ [i]]> targets
           else targets)
        ∅ (imap pair (m_functions m)).

(** ** Functions a value references

    [work] is the vector as a stack, its back at the head of the list. *)
Fixpoint AddReferencedFunctions (fuel : nat) (m : module) (st : list nat * gset nat) (value : nat)
    : list nat * gset nat :=
  match fuel with
  | O => st
  | S fuel =>
      let '(work, seen) := st in
      if bool_decide (value ∈ seen) then st
      else
        let seen := {[ value ]} ∪ seen in
        match m_values m !! value with
        | None => (work, seen)
        | Some v =>
            match v_function v with
            | Some f =>
                (match m_functions m !! f with
                 | Some fn => if fn_declaration fn then work else f :: work
                 | None => work
                 end, seen)
            | None =>
                if v_constant v
                then foldl (AddReferencedFunctions fuel m) (work, seen) (v_operands v)
                else (work, seen)
            end
        end
  end.

(** Each nested call marks a value of the table, so its length bounds the
    recursion ([referenced_complete]). *)
Definition valueFuel (m : module) : nat := S (length (m_values m)).

(** ** Reachability *)

Definition pushCallee (m : module) (targets : gmap nat (list nat)) (c : call) (work : list nat)
    : list nat :=
  if c_inline_asm c || c_intrinsic c then work
  else match c_called c with
       | Some callee =>
           match m_functions m !! callee with
           | Some fn => if fn_declaration fn then work else callee :: work
           | None => work
           end
       | None =>
           if c_operand_constant c then work
           else match targets !! c_type c with
                | Some fs => reverse fs ++ work
                | None => work
                end
       end.

Definition visitInstr (m : module) (targets : gmap nat (list nat)) (native : bool) (f : nat)
    (inst : instr) (work : list nat) : result error (list nat) :=
  let references := (foldl (AddReferencedFunctions (valueFuel m) m) (work, ∅) (i_operands inst)).1 in
  match i_call inst with
  | Some c =>
      if IsBoundaryCall c then
        if native then Ok work else Err (BoundaryInCapsule f)
      else Ok (pushCallee m targets c references)
  | None => Ok references
  end.

Fixpoint Reach (fuel : nat) (m : module) (targets : gmap nat (list nat)) (native : bool)
    (work : list nat) (reached : gset nat) : result error (gset nat) :=
  match fuel with
  | O => Err OutOfFuel
  | S fuel =>
      match work with
      | [] => Ok reached
      | f :: work =>
          match m_functions m !! f with
          | None => Reach fuel m targets native work reached
          | Some fn =>
              if fn_declaration fn || bool_decide (f ∈ reached)
              then Reach fuel m targets native work reached
              else
                work ← foldM (visitInstr m targets native f) (fn_body fn) work;
                Reach fuel m targets native work ({[ f ]} ∪ reached)
          end
      end
  end.

(** ** Users of a global *)

Record owners := Owners { usedNative : bool; usedCapsule : bool }.

Fixpoint FindGlobalOwners (fuel : nat) (m : module) (native capsule : gset nat)
    (work : list nat) (seen : gset nat) (o : owners) : option owners :=
  match fuel with
  | O => None
  | S fuel =>
      match work with
      | [] => Some o
      | u :: work =>
          if bool_decide (u ∈ seen) then FindGlobalOwners fuel m native capsule work seen o
          else
            let seen := {[ u ]} ∪ seen in
            match m_users m !! u with
            | Some (UInstruction owner) =>
                FindGlobalOwners fuel m native capsule work seen
                  (Owners (usedNative o || bool_decide (owner ∈ native))
                          (usedCapsule o || bool_decide (owner ∈ capsule)))
            | Some (UConstant us) =>
                FindGlobalOwners fuel m native capsule (reverse us ++ work) seen o
            | None => FindGlobalOwners fuel m native capsule work seen o
            end
      end
  end.

(** ** The pass *)

(** Targets of the boundary calls of one function. *)
Definition boundaryTargets (fn : func) : result error (list nat) :=
  foldM (λ inst roots,
           match i_call inst with
           | Some c =>
               if IsBoundaryCall c then
                 match c_called c with
                 | Some root => Ok (roots ++ [root])
                 | None => Err BoundaryLostTarget
                 end
               else Ok roots
           | None => Ok roots
           end) (fn_body fn) [].

Definition collectRoots (m : module) : result error (list nat * list nat) :=
  foldM (λ p roots, let '(i, fn) := p in
           let native := if IsEntryProgram fn then roots.1 ++ [i] else roots.1 in
           targets ← boundaryTargets fn;
           Ok (native, roots.2 ++ targets))
        (imap pair (m_functions m)) ([], []).

Definition markerRoots (m : module) : list nat :=
  match m_exit_marker m with
  | Some us => omap (λ u, if mu_calls_marker u then Some (mu_function u) else None) us
  | None => []
  end.

Definition unclaimedCallbacks (m : module) (native : gset nat) : list nat :=
  omap (λ p, let '(i, fn) := p in
          if isIndirectTarget fn && negb (bool_decide (i ∈ native)) then Some i else None)
       (imap pair (m_functions m)).

Record partition := Partition {
  p_native : gset nat;
  p_capsule : gset nat;
  p_global_native : gset nat;
  p_global_capsule : gset nat;
}.

(** How many entries the worklist can ever hold: the roots and everything each
    function pushes once. *)
Definition bodyPushes (m : module) (targets : gmap nat (list nat)) (fn : func) : nat :=
  match foldM (visitInstr m targets true 0) (fn_body fn) [] with
  | Ok w => length w
  | Err _ => 0
  end.
Definition reachFuel (m : module) (targets : gmap nat (list nat)) (roots : list nat) : nat :=
  S (length roots + sum_list (bodyPushes m targets <$> m_functions m)).

Definition userFuel (m : module) (g : global) : nat :=
  S (length (g_users g) +
     sum_list ((λ u, match u with UConstant us => length us | UInstruction _ => 0 end) <$> m_users m)).

Definition classifyGlobal (m : module) (native capsule : gset nat) (p : nat * global)
    (acc : gset nat * gset nat) : result error (gset nat * gset nat) :=
  let '(i, g) := p in
  if g_declaration g || String.prefix "llvm." (g_name g) then Ok acc
  else
    match FindGlobalOwners (userFuel m g) m native capsule (reverse (g_users g)) ∅
            (Owners false false) with
    | None => Err OutOfFuel
    | Some o =>
        if usedNative o && usedCapsule o
           && match g_section g with Some _ => false | None => true end && negb (g_capsule_owned g)
        then Err (SharedGlobal i)
        else Ok (if usedNative o then {[ i ]} ∪ acc.1 else acc.1,
                 if usedCapsule o then {[ i ]} ∪ acc.2 else acc.2)
    end.

(** The order in which the sets of pointers are iterated decides which of
    several shared functions is reported; [elements] picks one. *)
Definition run (m : module) : result error partition :=
  let m := MaterializeFunctionClasses m in
  roots ← collectRoots m;
  let '(nativeRoots, capsuleRoots) := roots in
  let capsuleRoots := capsuleRoots ++ markerRoots m in
  let targets := FindIndirectTargets m in
  native ← Reach (reachFuel m targets nativeRoots) m targets true (reverse nativeRoots) ∅;
  let capsuleRoots := capsuleRoots ++ unclaimedCallbacks m native in
  capsule ← Reach (reachFuel m targets capsuleRoots) m targets false (reverse capsuleRoots) ∅;
  match elements (capsule ∩ native) with
  | f :: _ => Err (SharedFunction f)
  | [] =>
      globals ← foldM (classifyGlobal m native capsule) (imap pair (m_globals m)) (∅, ∅);
      Ok (Partition native capsule globals.1 globals.2)
  end.

End Domains.
