(* ===== verification/DomainsFacts.v ===== *)
(** * Facts about the reachability closures of the domain partition *)

From Stdlib Require Import ZArith Lia.
From stdpp Require Import base numbers list gmap sets fin_sets fin_maps strings relations.
From S2P Require Import Prelude Graph Domains.

Import Domains.

Section facts.
(** [possible t f]: a call through a pointer of type [t] may reach [f]; the index
    of targets holds exactly these. *)
Context (m : module) (targets : gmap nat (list nat)) (possible : nat → nat → Prop)
  (Htargets : ∀ t f, (∃ fs, targets !! t = Some fs ∧ f ∈ fs) ↔ possible t f).

Definition defined (f : nat) : Prop :=
  ∃ fn, m_functions m !! f = Some fn ∧ fn_declaration fn = false.

(** A value that is the defined function [f] up to pointer casts. *)
Definition function_value (x f : nat) : Prop :=
  ∃ v, m_values m !! x = Some v ∧ v_function v = Some f ∧ defined f.

(** An operand of a constant that is not itself a function. *)
Definition constant_edge (x y : nat) : Prop :=
  ∃ v, m_values m !! x = Some v ∧ v_function v = None ∧ v_constant v = true ∧ y ∈ v_operands v.

(** [f] occurs in the constant [x], at any depth. *)
Definition mentions (x f : nat) : Prop := ∃ y, rtc constant_edge x y ∧ function_value y f.

(** ** [AddReferencedFunctions] *)

Definition unseen (seen : gset nat) : nat :=
  size (list_to_set (seq 0 (length (m_values m))) ∖ seen : gset nat).

Lemma unseen_insert seen x :
  (x < length (m_values m))%nat → x ∉ seen → (unseen ({[x]} ∪ seen) < unseen seen)%nat.
Proof.
  intros Hx Hs. unfold unseen. apply subset_size. split; [set_solver|].
  intros Hsub. assert (Hin : x ∈ list_to_set (C:=gset nat) (seq 0 (length (m_values m))) ∖ seen).
  { apply elem_of_difference. split; [|done]. apply elem_of_list_to_set, elem_of_seq. lia. }
  apply Hsub in Hin. set_solver.
Qed.

Lemma unseen_mono s1 s2 : s1 ⊆ s2 → (unseen s2 <= unseen s1)%nat.
Proof. intros. unfold unseen. apply subseteq_size. set_solver. Qed.

(** What processing the values [vs] adds to the stack and to the seen set. *)
Record referenced (vs : list nat) (st st' : list nat * gset nat) : Prop := {
  rf_stack : ∃ p, st'.1 = p ++ st.1 ∧
    (∀ x f, x ∈ st'.2 → x ∉ st.2 → function_value x f → f ∈ p) ∧
    (∀ f, f ∈ p → ∃ v, v ∈ vs ∧ mentions v f);
  rf_mono : st.2 ⊆ st'.2;
  rf_done v : v ∈ vs → v ∈ st'.2;
  rf_closed x y : x ∈ st'.2 → x ∉ st.2 → constant_edge x y → y ∈ st'.2;
}.

Lemma referenced_nil st : referenced [] st st.
Proof.
  split; [|done|by intros v ?%not_elem_of_nil|done].
  exists []. split_and!; [done|done|]. by intros f ?%not_elem_of_nil.
Qed.

Lemma referenced_trans vs1 vs2 s1 s2 s3 :
  referenced vs1 s1 s2 → referenced vs2 s2 s3 → referenced (vs1 ++ vs2) s1 s3.
Proof.
  intros R1 R2. destruct (rf_stack _ _ _ R1) as (p1 & E1 & C1 & S1).
  destruct (rf_stack _ _ _ R2) as (p2 & E2 & C2 & S2).
  pose proof (rf_mono _ _ _ R1) as M1. pose proof (rf_mono _ _ _ R2) as M2.
  split.
  - exists (p2 ++ p1). split_and!.
    + by rewrite E2, E1, app_assoc.
    + intros x f H3 H1 Hf. apply elem_of_app.
      destruct (decide (x ∈ s2.2)); [right; by eapply C1|left; by eapply C2].
    + intros f [Hf|Hf]%elem_of_app.
      * destruct (S2 f Hf) as (v & ? & ?). exists v. split; [apply elem_of_app; by right|done].
      * destruct (S1 f Hf) as (v & ? & ?). exists v. split; [apply elem_of_app; by left|done].
  - set_solver.
  - intros v [Hv|Hv]%elem_of_app; [apply M2; by eapply rf_done|by eapply rf_done].
  - intros x y H3 H1 He. destruct (decide (x ∈ s2.2)) as [H2|H2].
    + apply M2. by eapply (rf_closed _ _ _ R1).
    + by eapply (rf_closed _ _ _ R2).
Qed.

(** Mark [v] as seen and push nothing. *)
Lemma referenced_mark v work seen :
  v ∉ seen → (∀ f, ¬ function_value v f) → (∀ y, ¬ constant_edge v y) →
  referenced [v] (work, seen) (work, {[v]} ∪ seen).
Proof.
  intros Hs Hf Hc. split; simpl.
  - exists []. split_and!; [done| |by intros f ?%not_elem_of_nil].
    intros x f [->%elem_of_singleton|?]%elem_of_union ? ?; [by destruct (Hf f)|done].
  - set_solver.
  - intros x ->%list_elem_of_singleton. set_solver.
  - intros x y [->%elem_of_singleton|?]%elem_of_union ? ?; [by destruct (Hc y)|done].
Qed.

(** Enter the constant [v]: its operands are processed with [v] marked. *)
Lemma referenced_enter v node work seen st' :
  v ∉ seen → m_values m !! v = Some node → v_function node = None → v_constant node = true →
  referenced (v_operands node) (work, {[v]} ∪ seen) st' →
  referenced [v] (work, seen) st'.
Proof.
  intros Hs Hv Hfn Hc R. destruct (rf_stack _ _ _ R) as (p & E & C & S).
  pose proof (rf_mono _ _ _ R) as M. simpl in *. split; simpl.
  - exists p. split_and!; [done| |].
    + intros x f Hx Hxs Hf. destruct (decide (x = v)) as [->|]; [|eapply C; [done|set_solver|done]].
      destruct Hf as (v' & ? & ? & _). congruence.
    + intros f Hf. destruct (S f Hf) as (w & Hw & y & Hr & Hy). exists v. split; [by left|].
      exists y. split; [|done]. eapply rtc_l; [|done]. by exists node.
  - set_solver.
  - intros x ->%list_elem_of_singleton. set_solver.
  - intros x y Hx Hxs He. destruct (decide (x = v)) as [->|].
    + destruct He as (v' & Hv' & _ & _ & Hy). simplify_eq. by eapply rf_done.
    + eapply (rf_closed _ _ _ R); [done|simpl; set_solver|done].
Qed.

Lemma referenced_function v node f work seen :
  v ∉ seen → m_values m !! v = Some node → v_function node = Some f →
  referenced [v] (work, seen)
    (match m_functions m !! f with
     | Some fn => if fn_declaration fn then work else f :: work
     | None => work
     end, {[v]} ∪ seen).
Proof.
  intros Hs Hv Hf.
  assert (Hedge : ∀ y, ¬ constant_edge v y) by (intros y (v' & ? & ? & _); congruence).
  assert (Hfun : ∀ g, function_value v g → g = f ∧ defined f).
  { intros g (v' & ? & ? & ?). split; congruence. }
  destruct (m_functions m !! f) as [fn|] eqn:Efn; [destruct (fn_declaration fn) eqn:Ed|].
  - apply referenced_mark; [done| |done].
    intros g (-> & fn' & ? & ?)%Hfun. congruence.
  - assert (Hdef : defined f) by by exists fn. split; simpl.
    + exists [f]. split_and!; [done| |].
      * intros x g [->%elem_of_singleton|?]%elem_of_union Hx Hg; [|done].
        apply Hfun in Hg as [-> _]. by left.
      * intros g ->%list_elem_of_singleton. exists v. split; [by left|].
        exists v. split; [done|]. by exists node.
    + set_solver.
    + intros x ->%list_elem_of_singleton. set_solver.
    + intros x y [->%elem_of_singleton|?]%elem_of_union ? He; [by destruct (Hedge y)|done].
  - apply referenced_mark; [done| |done].
    intros g (-> & fn' & ? & ?)%Hfun. congruence.
Qed.

Lemma foldl_referenced (step : list nat * gset nat → nat → list nat * gset nat) vs st fuel :
  (∀ v s, v ∈ vs → (unseen s.2 < fuel)%nat → referenced [v] s (step s v)) →
  (unseen st.2 < fuel)%nat → referenced vs st (foldl step st vs).
Proof.
  intros Hstep Hfuel.
  assert (H : referenced vs st (foldl step st vs) ∧ (unseen (foldl step st vs).2 < fuel)%nat).
  { apply (foldl_invariant step (λ pre s, referenced pre st s ∧ (unseen s.2 < fuel)%nat)).
    - split; [apply referenced_nil|done].
    - intros pre v s [rest ->] [R Hs].
      assert (R' : referenced [v] s (step s v)).
      { apply Hstep; [|done]. apply elem_of_app. right. by left. }
      split; [by eapply referenced_trans|].
      eapply Nat.le_lt_trans; [apply unseen_mono, (rf_mono _ _ _ R')|done]. }
  apply H.
Qed.

Lemma AddReferencedFunctions_ok fuel v st :
  (unseen st.2 < fuel)%nat → referenced [v] st (AddReferencedFunctions fuel m st v).
Proof.
  revert v st. induction fuel as [|fuel IH]; intros v [work seen] Hfuel; [lia|]. simpl in *.
  case_bool_decide as Hseen.
  { split; simpl; [|done|by intros x ->%list_elem_of_singleton|done].
    exists []. split_and!; [done|done|by intros f ?%not_elem_of_nil]. }
  destruct (m_values m !! v) as [node|] eqn:Ev.
  - destruct (v_function node) as [f|] eqn:Ef; [by eapply referenced_function|].
    destruct (v_constant node) eqn:Ec.
    + eapply referenced_enter; [done|done|done|done|]. apply (foldl_referenced _ _ _ fuel).
      * intros w s _ Hs. by apply IH.
      * simpl. apply lookup_lt_Some in Ev.
        pose proof (unseen_insert seen v Ev Hseen). lia.
    + apply referenced_mark; [done| |].
      * intros f (v' & ? & ? & _). congruence.
      * intros y (v' & ? & _ & ? & _). congruence.
  - apply referenced_mark; [done| |].
    + intros f (v' & ? & _). congruence.
    + intros y (v' & ? & _). congruence.
Qed.

(** The operands of one instruction push exactly the functions they mention. *)
Lemma operands_referenced ops work :
  ∃ p, (foldl (AddReferencedFunctions (valueFuel m) m) (work, ∅) ops).1 = p ++ work ∧
       ∀ f, f ∈ p ↔ ∃ o, o ∈ ops ∧ mentions o f.
Proof.
  assert (R : referenced ops (work, ∅) (foldl (AddReferencedFunctions (valueFuel m) m) (work, ∅) ops)).
  { apply (foldl_referenced _ _ _ (valueFuel m)).
    - intros v s _ Hs. by apply AddReferencedFunctions_ok.
    - unfold valueFuel, unseen. simpl. rewrite difference_empty_L.
      rewrite size_list_to_set by apply NoDup_seq. rewrite length_seq. lia. }
  destruct (rf_stack _ _ _ R) as (p & E & C & S). exists p. split; [done|].
  intros f. split; [apply S|]. intros (o & Ho & y & Hr & Hy).
  apply (C y f); [|set_solver|done].
  assert (Hin : o ∈ (foldl (AddReferencedFunctions (valueFuel m) m) (work, ∅) ops).2)
    by by eapply rf_done.
  clear Ho Hy. induction Hr as [|x y z He _ IH]; [done|]. apply IH.
  eapply (rf_closed _ _ _ R); [done|set_solver|done].
Qed.

(** ** One instruction, one body *)

Definition callee_refs (c : call) (f : nat) : Prop :=
  c_inline_asm c = false ∧ c_intrinsic c = false ∧
  match c_called c with
  | Some g => f = g ∧ defined g
  | None => c_operand_constant c = false ∧ possible (c_type c) f
  end.

(** [inst] makes [f] part of the domain of the function it is in: it is not
    the explicit boundary, and it mentions [f] or may call it. *)
Definition instr_refs (inst : instr) (f : nat) : Prop :=
  match i_call inst with
  | Some c => c_boundary c = false ∧
              ((∃ o, o ∈ i_operands inst ∧ mentions o f) ∨ callee_refs c f)
  | None => ∃ o, o ∈ i_operands inst ∧ mentions o f
  end.

Definition has_boundary (fn : func) : Prop :=
  ∃ inst c, inst ∈ fn_body fn ∧ i_call inst = Some c ∧ c_boundary c = true.

Lemma pushes_nothing (P : nat → Prop) (work : list nat) :
  (∀ f, ¬ P f) → ∃ p, work = p ++ work ∧ ∀ f, f ∈ p ↔ P f.
Proof.
  intros H. exists []. split; [done|]. intros f. split; [by intros ?%not_elem_of_nil|].
  by intros ?%H.
Qed.

Lemma pushCallee_ok c work :
  ∃ p, pushCallee m targets c work = p ++ work ∧ ∀ f, f ∈ p ↔ callee_refs c f.
Proof.
  unfold pushCallee, callee_refs.
  destruct (c_inline_asm c); simpl; [by apply pushes_nothing; intros f [? _]|].
  destruct (c_intrinsic c); simpl; [by apply pushes_nothing; intros f (_ & ? & _)|].
  destruct (c_called c) as [g|].
  - unfold defined. destruct (m_functions m !! g) as [fn|] eqn:E; [destruct (fn_declaration fn) eqn:Ed|].
    + apply pushes_nothing. intros f (_ & _ & _ & fn' & ? & ?). congruence.
    + exists [g]. split; [done|]. intros f. rewrite list_elem_of_singleton.
      split; [intros ->; eauto 10|by intros (_ & _ & ? & _)].
    + apply pushes_nothing. intros f (_ & _ & _ & fn' & ? & ?). congruence.
  - destruct (c_operand_constant c); [by apply pushes_nothing; intros f (_ & _ & ? & _)|].
    setoid_rewrite <-Htargets. destruct (targets !! c_type c) as [fs|].
    + exists (reverse fs). split; [done|]. intros f. rewrite elem_of_reverse.
      split; [eauto 10|]. by intros (_ & _ & _ & fs' & [= <-] & ?).
    + apply pushes_nothing. by intros f (_ & _ & _ & fs' & ? & _).
Qed.

Lemma visitInstr_ok native f inst work :
  match visitInstr m targets native f inst work with
  | Ok work' => ∃ p, work' = p ++ work ∧ ∀ g, g ∈ p ↔ instr_refs inst g
  | Err e => e = BoundaryInCapsule f ∧ native = false ∧
             ∃ c, i_call inst = Some c ∧ c_boundary c = true
  end.
Proof.
  unfold visitInstr, instr_refs. destruct (operands_referenced (i_operands inst) work) as (p & Ep & Hp).
  destruct (i_call inst) as [c|]; [|exists p; split; [done|]; exact Hp].
  unfold IsBoundaryCall. destruct (c_boundary c) eqn:Eb.
  - destruct native; [|eauto]. apply pushes_nothing. by intros g [? _].
  - rewrite Ep. destruct (pushCallee_ok c (p ++ work)) as (q & -> & Hq).
    exists (q ++ p). split; [by rewrite app_assoc|].
    intros g. rewrite elem_of_app, Hq, Hp. naive_solver.
Qed.

Lemma visitBody_ok native f fn work work' :
  foldM (visitInstr m targets native f) (fn_body fn) work = Ok work' →
  ∃ p, work' = p ++ work ∧
    (∀ g, g ∈ p ↔ ∃ inst, inst ∈ fn_body fn ∧ instr_refs inst g) ∧
    (native = false → ¬ has_boundary fn).
Proof.
  unfold has_boundary. revert work. induction (fn_body fn) as [|inst body IH]; intros work; simpl.
  { intros [= <-]. exists []. split_and!; [done| |].
    - intros g. rewrite elem_of_nil. setoid_rewrite elem_of_nil. naive_solver.
    - intros _ (? & ? & ?%not_elem_of_nil & _). done. }
  pose proof (visitInstr_ok native f inst work) as Hi.
  destruct (visitInstr m targets native f inst work) as [w1|] eqn:E; [|done].
  destruct Hi as (p & -> & Hp). intros (q & -> & Hq & Hb)%IH.
  exists (q ++ p). split_and!; [by rewrite app_assoc| |].
  - intros g. rewrite elem_of_app, Hq, Hp. setoid_rewrite elem_of_cons. naive_solver.
  - intros Hn (inst' & c & [->|Hin]%elem_of_cons & Hc & Hcb); [|by apply Hb; eauto].
    unfold visitInstr in E. rewrite Hc in E. unfold IsBoundaryCall in E. by rewrite Hcb, Hn in E.
Qed.

(** ** The closure *)

(** A call-graph step inside one domain. *)
Definition domain_edge (f g : nat) : Prop :=
  defined g ∧ ∃ fn inst, m_functions m !! f = Some fn ∧ fn_declaration fn = false ∧
    inst ∈ fn_body fn ∧ instr_refs inst g.

Record closure (native : bool) (roots : nat → Prop) (reached : gset nat) : Prop := {
  cl_root f : roots f → defined f → f ∈ reached;
  cl_edge f g : f ∈ reached → domain_edge f g → g ∈ reached;
  cl_reach f : f ∈ reached → defined f ∧ ∃ r, roots r ∧ defined r ∧ rtc domain_edge r f;
  cl_boundary f fn : native = false → f ∈ reached → m_functions m !! f = Some fn → ¬ has_boundary fn;
}.

Record reach_inv (native : bool) (roots : nat → Prop) (work : list nat) (reached : gset nat) : Prop := {
  ri_root f : roots f → defined f → f ∈ reached ∨ f ∈ work;
  ri_edge f g : f ∈ reached → domain_edge f g → g ∈ reached ∨ g ∈ work;
  ri_reach f : f ∈ reached ∨ f ∈ work ∧ defined f →
    defined f ∧ ∃ r, roots r ∧ defined r ∧ rtc domain_edge r f;
  ri_boundary f fn : native = false → f ∈ reached → m_functions m !! f = Some fn → ¬ has_boundary fn;
}.

Lemma reach_inv_skip native roots f work reached :
  reach_inv native roots (f :: work) reached → (defined f → f ∈ reached) →
  reach_inv native roots work reached.
Proof.
  intros Hi Hf. split.
  - intros g Hg Hd. destruct (ri_root _ _ _ _ Hi g Hg Hd) as [?|[->|?]%elem_of_cons]; auto.
  - intros h g Hh He. destruct (ri_edge _ _ _ _ Hi h g Hh He) as [?|[->|?]%elem_of_cons]; auto.
    left. apply Hf. by destruct He.
  - intros g [Hg|[Hg Hd]]; apply (ri_reach _ _ _ _ Hi); [by left|right].
    split; [by right|done].
  - apply Hi.
Qed.

Lemma reach_inv_visit native roots f fn work work' reached :
  reach_inv native roots (f :: work) reached →
  m_functions m !! f = Some fn → fn_declaration fn = false →
  foldM (visitInstr m targets native f) (fn_body fn) work = Ok work' →
  reach_inv native roots work' ({[f]} ∪ reached).
Proof.
  intros Hi Hfn Hd (p & -> & Hp & Hb)%visitBody_ok.
  assert (Hdef : defined f) by by exists fn.
  assert (Hreach : ∃ r, roots r ∧ defined r ∧ rtc domain_edge r f).
  { apply (ri_reach _ _ _ _ Hi). right. split; [by left|done]. }
  assert (Hfe : ∀ g, domain_edge f g → g ∈ p).
  { intros g (Hg & fn' & inst & ? & _ & Hin & Hr). simplify_eq. apply Hp. eauto. }
  split.
  - intros g Hg Hgd. destruct (ri_root _ _ _ _ Hi g Hg Hgd) as [?|[->|?]%elem_of_cons]; set_solver.
  - intros h g [->%elem_of_singleton|Hh]%elem_of_union He.
    + right. apply elem_of_app. left. by apply Hfe.
    + destruct (ri_edge _ _ _ _ Hi h g Hh He) as [?|[->|?]%elem_of_cons]; set_solver.
  - intros g Hg. assert (Hcases : g = f ∨ (g ∈ reached ∨ g ∈ f :: work ∧ defined g) ∨ g ∈ p ∧ defined g) by set_solver.
    destruct Hcases as [->|[Hg'|[Hg' Hgd]]]; [done|by apply (ri_reach _ _ _ _ Hi)|].
    split; [done|]. destruct Hreach as (r & ? & ? & ?). exists r. split_and!; [done|done|].
    eapply rtc_r; [done|]. split; [done|]. apply Hp in Hg' as (inst & ? & ?). by exists fn, inst.
  - intros g gn Hn [->%elem_of_singleton|Hg]%elem_of_union Hgn; [|by eapply ri_boundary].
    simplify_eq. auto.
Qed.

Lemma reach_inv_done native roots reached :
  reach_inv native roots [] reached → closure native roots reached.
Proof.
  intros Hi. split.
  - intros f Hf Hd. by destruct (ri_root _ _ _ _ Hi f Hf Hd) as [?|?%not_elem_of_nil].
  - intros f g Hf He. by destruct (ri_edge _ _ _ _ Hi f g Hf He) as [?|?%not_elem_of_nil].
  - intros f Hf. apply (ri_reach _ _ _ _ Hi). by left.
  - apply Hi.
Qed.

Lemma Reach_inv fuel native roots work reached R :
  reach_inv native roots work reached →
  Reach fuel m targets native work reached = Ok R → closure native roots R.
Proof.
  revert work reached. induction fuel as [|fuel IH]; intros work reached Hi; simpl; [done|].
  destruct work as [|f work].
  { intros [= <-]. by apply reach_inv_done. }
  destruct (m_functions m !! f) as [fn|] eqn:Ef.
  - destruct (fn_declaration fn) eqn:Ed; simpl.
    + apply IH. eapply reach_inv_skip; [done|]. intros (fn' & ? & ?). congruence.
    + case_bool_decide as Hin.
      * apply IH. by eapply reach_inv_skip.
      * destruct (foldM _ _ _) as [work'|] eqn:Eb; simpl; [|done].
        apply IH. by eapply reach_inv_visit.
  - apply IH. eapply reach_inv_skip; [done|]. intros (fn' & ? & _). congruence.
Qed.

Lemma Reach_closure fuel native roots R :
  Reach fuel m targets native (reverse roots) ∅ = Ok R → closure native (.∈ roots) R.
Proof.
  apply Reach_inv. split.
  - intros f Hf _. right. by apply elem_of_reverse.
  - set_solver.
  - intros f [?|[Hf Hd]]; [set_solver|]. split; [done|].
    exists f. split_and!; [by rewrite elem_of_reverse in Hf|done|done].
  - set_solver.
Qed.

Lemma Reach_error fuel native roots work reached e :
  reach_inv native roots work reached → e ≠ OutOfFuel →
  Reach fuel m targets native work reached = Err e →
  native = false ∧ ∃ f fn r, e = BoundaryInCapsule f ∧ roots r ∧ rtc domain_edge r f ∧
    m_functions m !! f = Some fn ∧ has_boundary fn.
Proof.
  intros Hi He. revert work reached Hi. induction fuel as [|fuel IH]; intros work reached Hi; simpl.
  { by intros [= <-]. }
  destruct work as [|f work]; [done|].
  destruct (m_functions m !! f) as [fn|] eqn:Ef.
  - destruct (fn_declaration fn) eqn:Ed; simpl.
    + apply IH. eapply reach_inv_skip; [done|]. intros (fn' & ? & ?). congruence.
    + case_bool_decide as Hin.
      * apply IH. by eapply reach_inv_skip.
      * destruct (foldM _ _ _) as [work'|e'] eqn:Eb; simpl.
        { apply IH. by eapply reach_inv_visit. }
        intros [= ->]. apply foldM_Err_split in Eb as (pre & inst & post & w & Hbody & _ & Hx).
        pose proof (visitInstr_ok native f inst w) as Hv. rewrite Hx in Hv.
        destruct Hv as (-> & Hn & c & Hc & Hcb).
        destruct (ri_reach _ _ _ _ Hi f) as (_ & r & ? & ? & ?).
        { right. split; [by left|by exists fn]. }
        split; [done|]. exists f, fn, r. split_and!; try done.
        exists inst, c. split; [|done]. rewrite Hbody. apply elem_of_app. right. by left.
  - apply IH. eapply reach_inv_skip; [done|]. intros (fn' & ? & _). congruence.
Qed.

(** ** Termination *)

Lemma addref_app fuel work seen v :
  AddReferencedFunctions fuel m (work, seen) v =
  let r := AddReferencedFunctions fuel m ([], seen) v in (r.1 ++ work, r.2).
Proof.
  revert work seen v. induction fuel as [|fuel IH]; intros work seen v; simpl; [done|].
  case_bool_decide; simpl; [done|].
  destruct (m_values m !! v) as [node|]; [|done].
  destruct (v_function node) as [f|]; simpl.
  { destruct (m_functions m !! f) as [fn|]; [by destruct (fn_declaration fn)|done]. }
  destruct (v_constant node); [|done]. generalize ({[v]} ∪ seen) as s.
  assert (Hgen : ∀ ops w1 w2 s, foldl (AddReferencedFunctions fuel m) (w1 ++ w2, s) ops =
    let r := foldl (AddReferencedFunctions fuel m) (w1, s) ops in (r.1 ++ w2, r.2)).
  { induction ops as [|o ops IHo]; intros w1 w2 s; simpl; [done|].
    rewrite (IH (w1 ++ w2)), (IH w1). simpl. rewrite app_assoc. by rewrite IHo. }
  intros s. by apply (Hgen _ []).
Qed.

Lemma operands_app ops work seen :
  foldl (AddReferencedFunctions (valueFuel m) m) (work, seen) ops =
  let r := foldl (AddReferencedFunctions (valueFuel m) m) ([], seen) ops in (r.1 ++ work, r.2).
Proof.
  enough (∀ w1 w2 s, foldl (AddReferencedFunctions (valueFuel m) m) (w1 ++ w2, s) ops =
    let r := foldl (AddReferencedFunctions (valueFuel m) m) (w1, s) ops in (r.1 ++ w2, r.2)) as H
    by apply (H [] work seen).
  induction ops as [|o ops IH]; intros w1 w2 s; cbn [foldl]; [done|].
  rewrite (addref_app _ (w1 ++ w2)), (addref_app _ w1). cbn zeta. rewrite app_assoc. by rewrite IH.
Qed.

(** The pushes of an accepted instruction do not depend on the stack below
    them, on the function it is in, or on the domain. *)
Lemma visitInstr_app native f inst work work' :
  visitInstr m targets native f inst work = Ok work' →
  ∃ p, work' = p ++ work ∧ ∀ w, visitInstr m targets true 0 inst w = Ok (p ++ w).
Proof.
  unfold visitInstr.
  destruct (foldl (AddReferencedFunctions (valueFuel m) m) ([], ∅) (i_operands inst)) as [p s] eqn:Ep.
  assert (Hops : ∀ w, (foldl (AddReferencedFunctions (valueFuel m) m) (w, ∅) (i_operands inst)).1 = p ++ w).
  { intros w. rewrite operands_app, Ep. done. }
  assert (Hpush : ∀ c, ∃ q, ∀ w, pushCallee m targets c w = q ++ w).
  { intros c. unfold pushCallee. repeat case_match; solve [by exists []|by eexists [_]|by eexists]. }
  destruct (i_call inst) as [c|].
  - destruct (IsBoundaryCall c).
    + destruct native; [|done]. intros [= <-]. by exists [].
    + rewrite Hops. destruct (Hpush c) as [q Hq]. rewrite Hq. intros [= <-].
      exists (q ++ p). split; [by rewrite app_assoc|]. intros w. rewrite Hops, Hq. by rewrite app_assoc.
  - rewrite Hops. intros [= <-]. exists p. split; [done|]. intros w. by rewrite Hops.
Qed.

Lemma visitBody_app native f body work work' :
  foldM (visitInstr m targets native f) body work = Ok work' →
  ∃ p, work' = p ++ work ∧ ∀ w, foldM (visitInstr m targets true 0) body w = Ok (p ++ w).
Proof.
  revert work. induction body as [|inst body IH]; intros work; simpl.
  { intros [= <-]. by exists []. }
  destruct (visitInstr m targets native f inst work) as [w1|] eqn:E; [|done].
  apply visitInstr_app in E as (p & -> & Hp). intros (q & -> & Hq)%IH.
  exists (q ++ p). split; [by rewrite app_assoc|]. intros w. rewrite Hp, Hq. by rewrite app_assoc.
Qed.

(** Entries the functions not reached yet may still push. *)
Abbreviation pending := (pending_weight (bodyPushes m targets) (m_functions m)).

Lemma Reach_no_OutOfFuel fuel native work reached :
  (length work + pending reached < fuel)%nat →
  Reach fuel m targets native work reached ≠ Err OutOfFuel.
Proof.
  revert work reached. induction fuel as [|fuel IH]; intros work reached Hf; [lia|]. simpl.
  destruct work as [|f work]; [done|]. simpl in Hf.
  destruct (m_functions m !! f) as [fn|] eqn:Ef; [|apply IH; lia].
  destruct (fn_declaration fn); simpl; [apply IH; lia|].
  case_bool_decide as Hin; [apply IH; lia|].
  destruct (foldM _ _ _) as [work'|e] eqn:Eb; simpl.
  - apply visitBody_app in Eb as (p & -> & Hp). apply IH.
    assert (Hpush : bodyPushes m targets fn = length p).
    { unfold bodyPushes. rewrite (Hp []). by rewrite app_nil_r. }
    pose proof (pending_visit (bodyPushes m targets) _ f fn reached Ef Hin). rewrite length_app. lia.
  - intros [= ->]. apply foldM_Err_split in Eb as (pre & inst & post & w & _ & _ & Hx).
    pose proof (visitInstr_ok native f inst w) as Hv. rewrite Hx in Hv. by destruct Hv.
Qed.

Lemma Reach_terminates native roots :
  Reach (reachFuel m targets roots) m targets native (reverse roots) ∅ ≠ Err OutOfFuel.
Proof.
  apply Reach_no_OutOfFuel. rewrite pending_empty, length_reverse. unfold reachFuel. lia.
Qed.

End facts.

(** ** Users of a global *)

Section users.
Context (m : module).

Definition user_edge (u w : nat) : Prop := ∃ us, m_users m !! u = Some (UConstant us) ∧ w ∈ us.
Definition instruction_of (u f : nat) : Prop := m_users m !! u = Some (UInstruction f).

(** An instruction of [f] uses one of [us], directly or through constants. *)
Definition used_in (us : nat → Prop) (f : nat) : Prop :=
  ∃ u w, us u ∧ rtc user_edge u w ∧ instruction_of w f.

Section owners.
Context (native capsule : gset nat) (us : nat → Prop).

Record owners_inv (work : list nat) (seen : gset nat) (o : owners) : Prop := {
  oi_root u : us u → u ∈ seen ∨ u ∈ work;
  oi_edge u w : u ∈ seen → user_edge u w → w ∈ seen ∨ w ∈ work;
  oi_reach u : u ∈ seen ∨ u ∈ work → ∃ r, us r ∧ rtc user_edge r u;
  oi_native : usedNative o = true ↔ ∃ u f, u ∈ seen ∧ instruction_of u f ∧ f ∈ native;
  oi_capsule : usedCapsule o = true ↔ ∃ u f, u ∈ seen ∧ instruction_of u f ∧ f ∈ capsule;
}.

Lemma owners_inv_skip u work seen o :
  owners_inv (u :: work) seen o → u ∈ seen → owners_inv work seen o.
Proof.
  intros Hi Hu. split; try apply Hi.
  - intros v Hv. destruct (oi_root _ _ _ Hi v Hv) as [?|[->|?]%elem_of_cons]; auto.
  - intros v w Hv He. destruct (oi_edge _ _ _ Hi v w Hv He) as [?|[->|?]%elem_of_cons]; auto.
  - intros v [?|?]; apply (oi_reach _ _ _ Hi); [by left|right; by right].
Qed.

(** Marking [u], whose successors [next] go on the stack; its instruction, if
    it is one, is accounted for in [o']. *)
Lemma owners_inv_mark u next work seen o o' :
  owners_inv (u :: work) seen o →
  (∀ w, user_edge u w ↔ w ∈ next) →
  (usedNative o' = true ↔ usedNative o = true ∨ ∃ f, instruction_of u f ∧ f ∈ native) →
  (usedCapsule o' = true ↔ usedCapsule o = true ∨ ∃ f, instruction_of u f ∧ f ∈ capsule) →
  owners_inv (next ++ work) ({[u]} ∪ seen) o'.
Proof.
  intros Hi Hnext Hn Hc. split.
  - intros v Hv. destruct (oi_root _ _ _ Hi v Hv) as [?|[->|?]%elem_of_cons]; set_solver.
  - intros v w [->%elem_of_singleton|Hv]%elem_of_union He; [apply Hnext in He; set_solver|].
    destruct (oi_edge _ _ _ Hi v w Hv He) as [?|[->|?]%elem_of_cons]; set_solver.
  - intros v Hv. destruct (decide (v ∈ next)) as [Hx|Hx].
    + destruct (oi_reach _ _ _ Hi u) as (r & ? & ?); [right; by left|].
      exists r. split; [done|]. eapply rtc_r; [done|]. by apply Hnext.
    + apply (oi_reach _ _ _ Hi). set_solver.
  - rewrite Hn, (oi_native _ _ _ Hi). split.
    + intros [(v & f & ? & ?)|(f & ?)]; [exists v, f|exists u, f]; set_solver.
    + intros (v & f & [->%elem_of_singleton|?]%elem_of_union & ? & ?); [right; eauto|left; eauto].
  - rewrite Hc, (oi_capsule _ _ _ Hi). split.
    + intros [(v & f & ? & ?)|(f & ?)]; [exists v, f|exists u, f]; set_solver.
    + intros (v & f & [->%elem_of_singleton|?]%elem_of_union & ? & ?); [right; eauto|left; eauto].
Qed.

Lemma FindGlobalOwners_inv fuel work seen o o' :
  owners_inv work seen o → FindGlobalOwners fuel m native capsule work seen o = Some o' →
  ∃ seen', owners_inv [] seen' o'.
Proof.
  revert work seen o. induction fuel as [|fuel IH]; intros work seen o Hi; simpl; [done|].
  destruct work as [|u work]; [intros [= <-]; by exists seen|].
  case_bool_decide as Hu; [by apply IH, (owners_inv_skip u)|].
  destruct (m_users m !! u) as [[f|ws]|] eqn:Eu; intros Hrun; revert Hrun; apply IH.
  - apply (owners_inv_mark u [] work seen o); [done| | |].
    + intros w. rewrite elem_of_nil. split; [by intros (? & ? & _); congruence|done].
    + simpl. rewrite orb_true_iff, bool_decide_eq_true. unfold instruction_of. rewrite Eu. naive_solver.
    + simpl. rewrite orb_true_iff, bool_decide_eq_true. unfold instruction_of. rewrite Eu. naive_solver.
  - apply (owners_inv_mark u (reverse ws) work seen o); [done| | |].
    + intros w. rewrite elem_of_reverse. unfold user_edge. rewrite Eu. naive_solver.
    + unfold instruction_of. rewrite Eu. naive_solver.
    + unfold instruction_of. rewrite Eu. naive_solver.
  - apply (owners_inv_mark u [] work seen o); [done| | |].
    + intros w. rewrite elem_of_nil. split; [by intros (? & ? & _); congruence|done].
    + unfold instruction_of. rewrite Eu. naive_solver.
    + unfold instruction_of. rewrite Eu. naive_solver.
Qed.

Lemma owners_inv_done seen o :
  owners_inv [] seen o →
  (usedNative o = true ↔ ∃ f, used_in us f ∧ f ∈ native) ∧
  (usedCapsule o = true ↔ ∃ f, used_in us f ∧ f ∈ capsule).
Proof.
  intros Hi. assert (Hseen : ∀ u, u ∈ seen ↔ ∃ r, us r ∧ rtc user_edge r u).
  { intros u. split; [intros; apply (oi_reach _ _ _ Hi); by left|]. intros (r & Hr & Hru).
    assert (Hrs : r ∈ seen).
    { destruct (oi_root _ _ _ Hi r Hr) as [?|?%not_elem_of_nil]; done. }
    clear Hr. induction Hru as [|x y z Hxy _ IH]; [done|]. apply IH.
    destruct (oi_edge _ _ _ Hi x y Hrs Hxy) as [?|?%not_elem_of_nil]; done. }
  rewrite (oi_native _ _ _ Hi), (oi_capsule _ _ _ Hi). unfold used_in.
  setoid_rewrite Hseen. split; naive_solver.
Qed.

Lemma FindGlobalOwners_total fuel work seen o :
  (length work +
   pending_weight (λ u, match u with UConstant us => length us | UInstruction _ => 0 end) (m_users m) seen
   < fuel)%nat →
  is_Some (FindGlobalOwners fuel m native capsule work seen o).
Proof.
  revert work seen o. induction fuel as [|fuel IH]; intros work seen o Hf; simpl; [lia|].
  destruct work as [|u work]; [by eexists|]. simpl in Hf.
  case_bool_decide as Hu; [apply IH; lia|].
  destruct (m_users m !! u) as [x|] eqn:Eu.
  - pose proof (pending_visit (λ u, match u with UConstant us => length us | UInstruction _ => 0 end)
      _ u x seen Eu Hu) as Hp.
    destruct x as [f|ws]; apply IH; [lia|]. rewrite length_app, length_reverse. lia.
  - apply IH. rewrite pending_absent; [lia|]. by apply lookup_ge_None.
Qed.
End owners.

(** The owners of a global: exactly whether some instruction of a function of
    the domain uses it. *)
Lemma FindGlobalOwners_ok native capsule g :
  ∃ o, FindGlobalOwners (userFuel m g) m native capsule (reverse (g_users g)) ∅ (Owners false false)
       = Some o ∧
    (usedNative o = true ↔ ∃ f, used_in (λ u, u ∈ g_users g) f ∧ f ∈ native) ∧
    (usedCapsule o = true ↔ ∃ f, used_in (λ u, u ∈ g_users g) f ∧ f ∈ capsule).
Proof.
  destruct (FindGlobalOwners_total native capsule (userFuel m g) (reverse (g_users g)) ∅
    (Owners false false)) as [o Ho].
  { rewrite pending_empty, length_reverse. unfold userFuel. lia. }
  exists o. split; [done|].
  apply (FindGlobalOwners_inv native capsule (λ u, u ∈ g_users g)) in Ho as [seen' Hi].
  - by eapply owners_inv_done.
  - split; simpl.
    + intros u Hu. right. by apply elem_of_reverse.
    + intros u w Hu. set_solver.
    + intros u [Hu|Hu]; [set_solver|]. rewrite elem_of_reverse in Hu. by exists u.
    + split; [done|]. intros (u & f & ? & _). set_solver.
    + split; [done|]. intros (u & f & ? & _). set_solver.
Qed.
End users.
