(* ===== verification/DomainsProps.v ===== *)
(** * What the domain partition guarantees

    The theorems about [Domains.run]: the domains are exactly the two
    closures, they are disjoint and closed under every call or reference but
    the explicit boundary, every rejection names a real conflict, the passes
    over the call graph and over the users of a global terminate, and globals
    carry the labels of their users. *)

From Stdlib Require Import ZArith Lia.
From stdpp Require Import base numbers list gmap sets fin_sets fin_maps strings relations.
From S2P Require Import Prelude Graph Domains DomainsFacts.

Import Domains.

Lemma elem_of_imap_pair {A} (l : list A) i x : (i, x) ∈ imap pair l ↔ l !! i = Some x.
Proof.
  rewrite elem_of_lookup_imap. split; [|eauto]. by intros (j & y & [= <- <-] & ?).
Qed.

(** ** Roots *)

(** A program the kernel enters: it is in a section, and not among the kernel
    symbols. *)
Definition entry_program (fn : func) : Prop := ∃ s, fn_section fn = Some s ∧ s ≠ ".ksyms"%string.

(** A function a pointer can hold: defined, address taken, and neither an
    entry program nor the driver the compiler adds. *)
Definition pointer_callee (fn : func) : Prop :=
  fn_declaration fn = false ∧ ¬ entry_program fn ∧ "capsule.trampoline"%string ∉ fn_classes fn ∧ fn_address_taken fn = true.

(** A call through a pointer may reach every such function of its type. *)
Definition possible_target (m : module) (t f : nat) : Prop :=
  ∃ fn, m_functions m !! f = Some fn ∧ pointer_callee fn ∧ fn_type fn = t.

Lemma IsEntryProgram_spec fn : IsEntryProgram fn = true ↔ entry_program fn.
Proof.
  unfold IsEntryProgram, entry_program. destruct (fn_section fn) as [s|]; [|naive_solver].
  rewrite negb_true_iff, String.eqb_neq. naive_solver.
Qed.

Lemma isIndirectTarget_spec fn : isIndirectTarget fn = true ↔ pointer_callee fn.
Proof.
  unfold isIndirectTarget, pointer_callee. rewrite <-IsEntryProgram_spec.
  unfold IsCompilerDriver, HasFunctionClass. rewrite andb_true_iff, negb_true_iff, !orb_false_iff, bool_decide_eq_false.
  destruct (fn_declaration fn), (IsEntryProgram fn); naive_solver.
Qed.

Definition native_root (m : module) (f : nat) : Prop :=
  ∃ fn, m_functions m !! f = Some fn ∧ entry_program fn.

(** [f] is the static target of a [capsule_call]. *)
Definition boundary_target (m : module) (f : nat) : Prop :=
  ∃ g gn inst c, m_functions m !! g = Some gn ∧ inst ∈ fn_body gn ∧
    i_call inst = Some c ∧ c_boundary c = true ∧ c_called c = Some f.

Definition marker_caller (m : module) (f : nat) : Prop :=
  ∃ us u, m_exit_marker m = Some us ∧ u ∈ us ∧ mu_calls_marker u = true ∧ mu_function u = f.

(** An address-taken function the native closure does not claim. *)
Definition callback_root (m : module) (native : gset nat) (f : nat) : Prop :=
  ∃ fn, m_functions m !! f = Some fn ∧ pointer_callee fn ∧ f ∉ native.

Definition capsule_root (m : module) (native : gset nat) (f : nat) : Prop :=
  boundary_target m f ∨ marker_caller m f ∨ callback_root m native f.

Definition lost_boundary (m : module) : Prop :=
  ∃ g gn inst c, m_functions m !! g = Some gn ∧ inst ∈ fn_body gn ∧
    i_call inst = Some c ∧ c_boundary c = true ∧ c_called c = None.

Lemma boundaryTargets_ok fn :
  match boundaryTargets fn with
  | Ok ts => ∀ f, f ∈ ts ↔ ∃ inst c, inst ∈ fn_body fn ∧ i_call inst = Some c ∧
               c_boundary c = true ∧ c_called c = Some f
  | Err e => e = BoundaryLostTarget ∧ ∃ inst c, inst ∈ fn_body fn ∧ i_call inst = Some c ∧
               c_boundary c = true ∧ c_called c = None
  end.
Proof.
  unfold boundaryTargets. set (step := λ inst roots, _).
  destruct (foldM step (fn_body fn) []) as [ts|e] eqn:E.
  - revert ts E. induction (fn_body fn) as [|inst body IH] using rev_ind; intros ts.
    { intros [= <-] f. rewrite elem_of_nil. setoid_rewrite elem_of_nil. naive_solver. }
    rewrite foldM_app. destruct (foldM step body []) as [ts'|] eqn:E'; simpl; [|done].
    specialize (IH ts' eq_refl).
    destruct (step inst ts') as [ts''|] eqn:Es; [|done]. intros [= ->] f.
    setoid_rewrite elem_of_app. setoid_rewrite list_elem_of_singleton.
    unfold step, IsBoundaryCall in Es. destruct (i_call inst) as [c|] eqn:Ec.
    + destruct (c_boundary c) eqn:Eb; [destruct (c_called c) as [r|] eqn:Er; [|done]|].
      * injection Es as <-. rewrite elem_of_app, list_elem_of_singleton, IH. split.
        { intros [(i & c' & ? & ?)| ->]; [exists i, c'; tauto|exists inst, c; tauto]. }
        intros (i & c' & [?| ->] & ? & ? & ?); [left; eauto 10|right; congruence].
      * injection Es as <-. rewrite IH. split; [intros (i & c' & ? & ?); exists i, c'; tauto|].
        intros (i & c' & [?| ->] & ? & ? & ?); [eauto 10|congruence].
    + injection Es as <-. rewrite IH. split; [intros (i & c' & ? & ?); exists i, c'; tauto|].
      intros (i & c' & [?| ->] & ? & ? & ?); [eauto 10|congruence].
  - apply foldM_Err_split in E as (pre & inst & post & ts & -> & _ & Es).
    unfold step, IsBoundaryCall in Es. destruct (i_call inst) as [c|] eqn:Ec; [|done].
    destruct (c_boundary c) eqn:Eb; [|done]. destruct (c_called c) eqn:Er; [done|].
    injection Es as <-. split; [done|]. exists inst, c. split_and!; try done.
    apply elem_of_app. right. by left.
Qed.

Lemma collectRoots_ok m :
  match collectRoots m with
  | Ok (ns, cs) => (∀ f, f ∈ ns ↔ native_root m f) ∧ (∀ f, f ∈ cs ↔ boundary_target m f)
  | Err e => e = BoundaryLostTarget ∧ lost_boundary m
  end.
Proof.
  unfold collectRoots, native_root, boundary_target, lost_boundary.
  set (step := λ p roots, _). destruct (foldM step _ ([], [])) as [[ns cs]|e] eqn:E;
    try setoid_rewrite <-IsEntryProgram_spec; setoid_rewrite <-elem_of_imap_pair; revert E;
    generalize (imap pair (m_functions m)) as l; intros l E.
  - revert ns cs E. induction l as [|[i fn] l IH] using rev_ind; intros ns cs.
    { intros [= <- <-]. split; intros f; rewrite elem_of_nil; setoid_rewrite elem_of_nil; naive_solver. }
    rewrite foldM_app. destruct (foldM step l ([], [])) as [[ns' cs']|] eqn:E'; simpl; [|done].
    destruct (IH ns' cs' eq_refl) as [Hn Hc]. pose proof (boundaryTargets_ok fn) as Hb.
    destruct (boundaryTargets fn) as [ts|]; simpl; [|done]. intros [= <- <-]. split; intros f.
    + setoid_rewrite elem_of_app. setoid_rewrite list_elem_of_singleton.
      destruct (IsEntryProgram fn) eqn:Ee.
      * rewrite elem_of_app, list_elem_of_singleton, Hn. split.
        { intros [(gn & ? & ?)| ->]; eauto. }
        intros (gn & [?|[= -> ->]] & ?); [left; eauto|by right].
      * rewrite Hn. split; [intros (gn & ? & ?); eauto|].
        intros (gn & [?|[= -> ->]] & ?); [eauto|congruence].
    + setoid_rewrite elem_of_app. setoid_rewrite list_elem_of_singleton.
      rewrite Hc, Hb. split.
      * intros [(g & gn & x & c & ? & ?)|(x & c & ?)]; [exists g, gn, x, c|exists i, fn, x, c]; tauto.
      * intros (g & gn & x & c & [?|[= -> ->]] & ?); [left|right]; eauto 10.
  - apply foldM_Err_split in E as (pre & [i fn] & post & acc & -> & _ & Es).
    unfold step in Es. pose proof (boundaryTargets_ok fn) as Hb.
    destruct (boundaryTargets fn) as [ts|e']; simpl in Es; [done|].
    injection Es as ->. destruct Hb as (-> & inst & c & ?). split; [done|].
    exists i, fn, inst, c. split; [|done]. apply elem_of_app. right. by left.
Qed.

Lemma markerRoots_ok m f : f ∈ markerRoots m ↔ marker_caller m f.
Proof.
  unfold markerRoots, marker_caller. destruct (m_exit_marker m) as [us|].
  - rewrite list_elem_of_omap. split.
    + intros (u & ? & E). exists us, u. destruct (mu_calls_marker u); naive_solver.
    + intros (us' & u & [= <-] & ? & E & <-). exists u. by rewrite E.
  - rewrite elem_of_nil. naive_solver.
Qed.

Lemma unclaimedCallbacks_ok m native f :
  f ∈ unclaimedCallbacks m native ↔ callback_root m native f.
Proof.
  unfold unclaimedCallbacks, callback_root. setoid_rewrite <-isIndirectTarget_spec. rewrite list_elem_of_omap.
  setoid_rewrite <-elem_of_imap_pair. split.
  - intros ([i fn] & Hin & E). destruct (isIndirectTarget fn) eqn:Ei; simpl in E; [|done].
    case_bool_decide; simplify_eq/=. eauto.
  - intros (fn & Hin & Ei & Hf). exists (f, fn). split; [done|]. simpl.
    by rewrite Ei, bool_decide_false.
Qed.

(** The index of possible callees holds exactly the address-taken functions
    of each type. *)
Lemma FindIndirectTargets_ok m t f :
  (∃ fs, FindIndirectTargets m !! t = Some fs ∧ f ∈ fs) ↔ possible_target m t f.
Proof.
  unfold FindIndirectTargets, possible_target. setoid_rewrite <-isIndirectTarget_spec. setoid_rewrite <-elem_of_imap_pair.
  generalize (imap pair (m_functions m)) as l. intros l.
  assert (Hd : ∀ M : gmap nat (list nat), (∃ fs, M !! t = Some fs ∧ f ∈ fs) ↔ f ∈ default [] (M !! t)).
  { intros M. destruct (M !! t); simpl; [naive_solver|]. rewrite elem_of_nil. naive_solver. }
  rewrite Hd. induction l as [|[i fn] l IH] using rev_ind.
  { simpl. rewrite lookup_empty. simpl. setoid_rewrite elem_of_nil. naive_solver. }
  rewrite foldl_app. simpl. setoid_rewrite elem_of_app. setoid_rewrite list_elem_of_singleton.
  destruct (isIndirectTarget fn) eqn:Ei.
  2: { rewrite IH. split; [intros (gn & ? & ?); eauto|].
       intros (gn & [?|[= -> ->]] & ? & ?); [eauto|congruence]. }
  destruct (decide (fn_type fn = t)) as [<-|Ht].
  - rewrite lookup_insert_eq. simpl. rewrite elem_of_app, list_elem_of_singleton, IH. split.
    + intros [(gn & ? & ?)| ->]; eauto.
    + intros (gn & [?|[= -> ->]] & ?); [left; eauto|by right].
  - rewrite lookup_insert_ne by done. rewrite IH. split; [intros (gn & ? & ?); eauto|].
    intros (gn & [?|[= -> ->]] & ? & ?); [eauto|congruence].
Qed.

(** ** The pass, decomposed *)

Record run_facts (m : module) (p : partition) : Prop := {
  rn_native : closure m (possible_target m) true (native_root m) (p_native p);
  rn_capsule : closure m (possible_target m) false (capsule_root m (p_native p)) (p_capsule p);
  rn_disjoint : p_native p ## p_capsule p;
  rn_globals : foldM (classifyGlobal m (p_native p) (p_capsule p)) (imap pair (m_globals m)) (∅, ∅)
               = Ok (p_global_native p, p_global_capsule p);
}.

Lemma closure_ext m possible native R1 R2 reached :
  (∀ f, R1 f ↔ R2 f) → closure m possible native R1 reached → closure m possible native R2 reached.
Proof.
  intros He Hc. split; [| | |apply Hc].
  - intros f Hf. apply (cl_root _ _ _ _ _ Hc). by apply He.
  - apply Hc.
  - intros f Hf. destruct (cl_reach _ _ _ _ _ Hc f Hf) as (? & r & ? & ?).
    split; [done|]. exists r. by rewrite <-He.
Qed.

Lemma capsule_roots_ok m native cs f :
  (∀ f, f ∈ cs ↔ boundary_target m f) →
  f ∈ (cs ++ markerRoots m) ++ unclaimedCallbacks m native ↔ capsule_root m native f.
Proof.
  intros Hc. unfold capsule_root. rewrite !elem_of_app, Hc, markerRoots_ok, unclaimedCallbacks_ok. tauto.
Qed.

Lemma run_ok m p : run m = Ok p → run_facts (MaterializeFunctionClasses m) p.
Proof.
  unfold run. generalize (MaterializeFunctionClasses m) as k. clear m. intros m.
  rewrite bind_Ok. intros ([ns cs] & Er & H). pose proof (collectRoots_ok m) as Hr.
  rewrite Er in Hr. destruct Hr as [Hn Hc].
  apply bind_Ok in H as (native & En & H). apply bind_Ok in H as (capsule & Ec & H). revert H.
  destruct (elements (capsule ∩ native)) as [|f fs] eqn:El; [|done].
  apply elements_empty_iff in El.
  destruct (foldM _ _ _) as [[gn gc]|] eqn:Eg; simpl; [|done]. intros [= <-]. split; simpl.
  - eapply closure_ext; [|by eapply Reach_closure; [apply FindIndirectTargets_ok|]]. apply Hn.
  - eapply closure_ext; [|by eapply Reach_closure; [apply FindIndirectTargets_ok|]]. intros f. by apply capsule_roots_ok.
  - set_solver.
  - done.
Qed.

Lemma closure_exact m possible native roots reached f :
  closure m possible native roots reached →
  f ∈ reached ↔ ∃ r, roots r ∧ defined m r ∧ rtc (domain_edge m possible) r f.
Proof.
  intros Hc. split; [intros Hf; by apply (cl_reach _ _ _ _ _ Hc)|].
  intros (r & Hr & Hd & Hrf). assert (Hin : r ∈ reached) by by eapply cl_root.
  clear Hr Hd. induction Hrf as [|x y z Hxy _ IH]; [done|]. apply IH. by eapply cl_edge.
Qed.

(** ** Globals *)

Definition global_used (m : module) (dom : gset nat) (i : nat) : Prop :=
  ∃ g f, m_globals m !! i = Some g ∧ g_declaration g = false ∧
    String.prefix "llvm." (g_name g) = false ∧ used_in m (.∈ g_users g) f ∧ f ∈ dom.

(** A global both domains use without a section and without Capsule
    ownership. *)
Definition shared_global (m : module) (native capsule : gset nat) (i : nat) : Prop :=
  ∃ g, m_globals m !! i = Some g ∧ g_section g = None ∧ g_capsule_owned g = false ∧
    global_used m native i ∧ global_used m capsule i.

Lemma classifyGlobal_ok m native capsule i g acc :
  m_globals m !! i = Some g →
  match classifyGlobal m native capsule (i, g) acc with
  | Ok acc' => (∀ j, j ∈ acc'.1 ↔ j ∈ acc.1 ∨ j = i ∧ global_used m native i) ∧
               (∀ j, j ∈ acc'.2 ↔ j ∈ acc.2 ∨ j = i ∧ global_used m capsule i) ∧
               ¬ shared_global m native capsule i
  | Err e => e = SharedGlobal i ∧ shared_global m native capsule i
  end.
Proof.
  intros Hg. unfold classifyGlobal, shared_global.
  assert (Hused : ∀ dom, global_used m dom i ↔ g_declaration g = false ∧
    String.prefix "llvm." (g_name g) = false ∧ ∃ f, used_in m (.∈ g_users g) f ∧ f ∈ dom).
  { intros dom. unfold global_used. split.
    - intros (g' & f & ? & ? & ? & ? & ?). simplify_eq. eauto 10.
    - intros (? & ? & f & ? & ?). eauto 10. }
  destruct (FindGlobalOwners_ok m native capsule g) as (o & -> & Hn & Hc).
  destruct (g_declaration g) eqn:Ed; simpl.
  { split_and!; [intros j; rewrite Hused; naive_solver|intros j; rewrite Hused; naive_solver|].
    intros (g' & _ & _ & _ & (? & _)%Hused & _). done. }
  destruct (String.prefix "llvm." (g_name g)) eqn:El; simpl.
  { split_and!; [intros j; rewrite Hused; naive_solver|intros j; rewrite Hused; naive_solver|].
    intros (g' & _ & _ & _ & (_ & ? & _)%Hused & _). done. }
  assert (Hn' : global_used m native i ↔ usedNative o = true) by (rewrite Hused, Hn; tauto).
  assert (Hc' : global_used m capsule i ↔ usedCapsule o = true) by (rewrite Hused, Hc; tauto).
  assert (Hs : shared_global m native capsule i ↔
    usedNative o && usedCapsule o && match g_section g with Some _ => false | None => true end
      && negb (g_capsule_owned g) = true).
  { unfold shared_global. rewrite !andb_true_iff, negb_true_iff. split.
    - intros (g' & ? & Hsec & ? & ?%Hn' & ?%Hc'). simplify_eq. by rewrite Hsec.
    - intros [[[?%Hn' ?%Hc'] Hsec] ?]. exists g. by destruct (g_section g). }
  fold (shared_global m native capsule i).
  destruct (usedNative o && usedCapsule o && _ && _) eqn:Eb; [by rewrite Hs|].
  split_and!; simpl; [| |by rewrite Hs].
  - intros j. rewrite Hn'. destruct (usedNative o); set_solver.
  - intros j. rewrite Hc'. destruct (usedCapsule o); set_solver.
Qed.

Lemma classifyGlobals_ok m native capsule :
  match foldM (classifyGlobal m native capsule) (imap pair (m_globals m)) (∅, ∅) with
  | Ok acc => (∀ i, i ∈ acc.1 ↔ global_used m native i) ∧
              (∀ i, i ∈ acc.2 ↔ global_used m capsule i) ∧
              (∀ i, ¬ shared_global m native capsule i)
  | Err e => ∃ i, e = SharedGlobal i ∧ shared_global m native capsule i
  end.
Proof.
  assert (Hin : ∀ i dom, global_used m dom i → ∃ g, (i, g) ∈ imap pair (m_globals m)).
  { intros i dom (g & f & Hg & _). exists g. by apply elem_of_imap_pair. }
  destruct (foldM _ _ _) as [acc|e] eqn:E.
  - set (P := λ (pre : list (nat * global)) (acc : gset nat * gset nat),
      (∀ i, i ∈ acc.1 ↔ i ∈ pre.*1 ∧ global_used m native i) ∧
      (∀ i, i ∈ acc.2 ↔ i ∈ pre.*1 ∧ global_used m capsule i) ∧
      (∀ i, i ∈ pre.*1 → ¬ shared_global m native capsule i)).
    assert (HP : P (imap pair (m_globals m)) acc).
    { revert E. apply foldM_Ok_invariant; [split_and!; set_solver|].
      intros pre [i g] a0 a1 [post Hsplit] (Hn & Hc & Hs) Hstep.
      assert (Hg : m_globals m !! i = Some g).
      { apply elem_of_imap_pair. rewrite Hsplit. apply elem_of_app. right. by left. }
      pose proof (classifyGlobal_ok m native capsule i g a0 Hg) as Ho. rewrite Hstep in Ho.
      destruct Ho as (Ho1 & Ho2 & Ho3). split_and!; intros j; rewrite fmap_app, elem_of_app; simpl;
        rewrite list_elem_of_singleton.
      - rewrite Ho1, Hn. naive_solver.
      - rewrite Ho2, Hc. naive_solver.
      - intros [?| ->]; auto. }
    destruct HP as (Hn & Hc & Hs). split_and!.
    + intros i. rewrite Hn. split; [by intros [_ ?]|]. intros Hu. split; [|done].
      destruct (Hin _ _ Hu) as [g ?]. apply list_elem_of_fmap. by exists (i, g).
    + intros i. rewrite Hc. split; [by intros [_ ?]|]. intros Hu. split; [|done].
      destruct (Hin _ _ Hu) as [g ?]. apply list_elem_of_fmap. by exists (i, g).
    + intros i Hsh. destruct (Hsh) as (_ & _ & _ & _ & Hu & _). destruct (Hin _ _ Hu) as [g ?].
      apply (Hs i); [|done]. apply list_elem_of_fmap. by exists (i, g).
  - apply foldM_Err_split in E as (pre & [i g] & post & a & Hsplit & _ & Hx).
    assert (Hg : m_globals m !! i = Some g).
    { apply elem_of_imap_pair. rewrite Hsplit. apply elem_of_app. right. by left. }
    pose proof (classifyGlobal_ok m native capsule i g a Hg) as Ho. rewrite Hx in Ho. by exists i.
Qed.

(** ** The rejections of the pass *)

Lemma reach_inv_start m possible native roots :
  reach_inv m possible native (.∈ roots) (reverse roots) ∅.
Proof.
  split; [|set_solver| |set_solver].
  - intros f Hf _. right. by apply elem_of_reverse.
  - intros f [?|[Hf Hd]]; [set_solver|]. rewrite elem_of_reverse in Hf. split; [done|].
    by exists f.
Qed.

(** Why a module is rejected. *)
Definition rejection (m : module) (e : error) : Prop :=
  let targets := possible_target m in
  match e with
  | BoundaryLostTarget => lost_boundary m
  | BoundaryInCapsule f =>
      ∃ native fn r, closure m targets true (native_root m) native ∧ capsule_root m native r ∧
        rtc (domain_edge m targets) r f ∧ m_functions m !! f = Some fn ∧ has_boundary fn
  | SharedFunction f =>
      ∃ native, closure m targets true (native_root m) native ∧ f ∈ native ∧
        ∃ r, capsule_root m native r ∧ rtc (domain_edge m targets) r f
  | SharedGlobal i =>
      ∃ native capsule, closure m targets true (native_root m) native ∧
        closure m targets false (capsule_root m native) capsule ∧ shared_global m native capsule i
  | OutOfFuel => False
  end.

(** C7: a rejected module has the conflict the error names - a boundary call
    without a static target, a boundary call in code reached from a Capsule
    root, a function both closures contain, or an unsectioned global both
    domains use - and the traversals never run out of fuel. *)
Theorem domains_rejection m e : run m = Err e → rejection (MaterializeFunctionClasses m) e.
Proof.
  unfold run. generalize (MaterializeFunctionClasses m) as k. clear m. intros m. unfold rejection.
  pose proof (collectRoots_ok m) as Hr.
  intros [He|([ns cs] & Er & [He|(native & En & H)]%bind_Err)]%bind_Err.
  { rewrite He in Hr. by destruct Hr as [-> ?]. }
  { rewrite Er in Hr. destruct e; try by eapply Reach_terminates in He; [|apply FindIndirectTargets_ok].
    all: eapply (Reach_error _ _ (possible_target m) (FindIndirectTargets_ok m) _ true (.∈ ns)) in He as [? _]; [done|apply reach_inv_start|done]. }
  rewrite Er in Hr. destruct Hr as [Hn Hc].
  assert (Cn : closure m (possible_target m) true (native_root m) native).
  { eapply closure_ext; [|by eapply Reach_closure; [apply FindIndirectTargets_ok|]]. apply Hn. }
  assert (Hroots : ∀ f, f ∈ (cs ++ markerRoots m) ++ unclaimedCallbacks m native ↔
    capsule_root m native f) by (intros f; by apply capsule_roots_ok).
  apply bind_Err in H as [He|(capsule & Ec & H)].
  { destruct (decide (e = OutOfFuel)) as [->|Hne]; [by eapply Reach_terminates in He; [|apply FindIndirectTargets_ok]|].
    eapply (Reach_error _ _ (possible_target m) (FindIndirectTargets_ok m)) in He as (_ & f & fn & r & -> & Hroot & ? & ? & ?); [|apply reach_inv_start|done].
    exists native, fn, r. split_and!; try done. by apply Hroots. }
  assert (Cc : closure m (possible_target m) false (capsule_root m native) capsule).
  { eapply closure_ext; [|by eapply Reach_closure; [apply FindIndirectTargets_ok|]]. apply Hroots. }
  destruct (elements (capsule ∩ native)) as [|f fs] eqn:El.
  - apply bind_Err in H as [He|(z & _ & ?)]; [|done].
    pose proof (classifyGlobals_ok m native capsule) as Hg. rewrite He in Hg.
    destruct Hg as (i & -> & Hg). by exists native, capsule.
  - injection H as <-. assert (Hf : f ∈ capsule ∩ native).
    { apply elem_of_elements. rewrite El. by left. }
    apply elem_of_intersection in Hf as [Hfc Hfn]. exists native. split_and!; [done|done|].
    destruct (cl_reach _ _ _ _ _ Cc f Hfc) as (_ & r & ? & _ & ?). by exists r.
Qed.

(** ** The claims *)

(** [p] separates the two domains of [m]. *)
Record separated (m : module) (p : partition) : Prop := {
  sep_disjoint : p_native p ## p_capsule p;
  sep_entry f : native_root m f → defined m f → f ∈ p_native p;
  sep_target f : boundary_target m f → defined m f → f ∈ p_capsule p;
  sep_marker f : marker_caller m f → defined m f → f ∈ p_capsule p;
  sep_callback f fn : m_functions m !! f = Some fn → pointer_callee fn →
    f ∈ p_native p ∪ p_capsule p;
  sep_edge f g : domain_edge m (possible_target m) f g →
    (f ∈ p_native p → g ∈ p_native p ∧ g ∉ p_capsule p) ∧
    (f ∈ p_capsule p → g ∈ p_capsule p ∧ g ∉ p_native p);
  sep_boundary f fn : f ∈ p_capsule p → m_functions m !! f = Some fn → ¬ has_boundary fn;
}.

(** C5: an accepted module is separated: no function is in both domains,
    defined entry programs are native, defined [capsule_call] targets and
    callers of the exit marker are Capsule, every defined address-taken
    function has a domain, no call, possible indirect call or reference other
    than a [capsule_call] crosses from one domain to the other, and Capsule
    code contains no [capsule_call]. *)
Theorem domains_separated m p :
  run m = Ok p → separated (MaterializeFunctionClasses m) p.
Proof.
  intros [Hn Hc Hd _]%run_ok. split.
  - done.
  - apply Hn.
  - intros f Hf. apply (cl_root _ _ _ _ _ Hc). by left.
  - intros f Hf. apply (cl_root _ _ _ _ _ Hc). by right; left.
  - intros f fn Hf Hi. apply elem_of_union. destruct (decide (f ∈ p_native p)); [by left|right].
    apply (cl_root _ _ _ _ _ Hc); [right; right; by exists fn|]. exists fn. split; [done|].
    apply Hi.
  - intros f g He. split; intros Hf.
    + assert (g ∈ p_native p) by by eapply (cl_edge _ _ _ _ _ Hn). set_solver.
    + assert (g ∈ p_capsule p) by by eapply (cl_edge _ _ _ _ _ Hc). set_solver.
  - intros f fn. by apply (cl_boundary _ _ _ _ _ Hc).
Qed.

(** C6: the domains of an accepted module are exact: a function is native iff
    a path of calls and references leads to it from a defined entry program,
    and Capsule iff one leads to it from a defined [capsule_call] target, a
    caller of the exit marker or an address-taken function that is not
    native.  A step is a direct call, a mention of a function in an operand at
    any depth of constants, or a call through a pointer, which may reach every
    defined address-taken function of its type that is neither an entry program
    nor the compiler's driver. *)
Theorem domains_exact m p f (k := MaterializeFunctionClasses m)
    (step := domain_edge k (possible_target k)) :
  run m = Ok p →
  (f ∈ p_native p ↔ ∃ r, native_root k r ∧ defined k r ∧ rtc step r f) ∧
  (f ∈ p_capsule p ↔ ∃ r, capsule_root k (p_native p) r ∧ defined k r ∧ rtc step r f).
Proof. intros [Hn Hc _ _]%run_ok. split; by eapply closure_exact. Qed.

(** In an accepted module a global carries a domain's label exactly when
    it is defined, not one of LLVM's own, and an instruction of that domain
    uses it, directly or through constants; and a global with both labels has
    a section or is Capsule-owned. *)
Theorem domains_globals m p (k := MaterializeFunctionClasses m) :
  run m = Ok p →
  (∀ i, i ∈ p_global_native p ↔ global_used k (p_native p) i) ∧
  (∀ i, i ∈ p_global_capsule p ↔ global_used k (p_capsule p) i) ∧
  (∀ i g, m_globals k !! i = Some g → i ∈ p_global_native p → i ∈ p_global_capsule p →
     is_Some (g_section g) ∨ g_capsule_owned g = true).
Proof.
  intros [_ _ _ Hg]%run_ok. fold k in Hg.
  pose proof (classifyGlobals_ok k (p_native p) (p_capsule p)) as H. rewrite Hg in H. simpl in H.
  destruct H as (Hn & Hc & Hs). split_and!; [done|done|].
  intros i g Hi ?%Hn ?%Hc. destruct (g_section g) as [s|] eqn:Es; [by left; exists s|].
  destruct (g_capsule_owned g) eqn:Eo; [by right|]. destruct (Hs i). by exists g.
Qed.

(** ** Function classes *)

Lemma filter_full_length {A} (P : A → Prop) `{∀ x, Decision (P x)} (l : list A) :
  length (filter P l) = length l → filter P l = l.
Proof.
  induction l as [|x l IH]; [done|]. rewrite filter_cons. pose proof (length_filter P l).
  case_decide; simpl; [|lia]. intros [= E]. by rewrite IH.
Qed.

Lemma addFnAttr_classes text f cls :
  cls ∈ fn_classes (addFnAttr text f) ↔ cls ∈ fn_classes f ∨ cls = text.
Proof.
  unfold addFnAttr. simpl. case_bool_decide; [naive_solver|].
  by rewrite elem_of_app, list_elem_of_singleton.
Qed.

Lemma addFnAttr_foldl (l : list (nat * string)) (fs : list func) i fn :
  fs !! i = Some fn →
  ∃ fn', foldl (λ fs ft, alter (addFnAttr ft.2) ft.1 fs) fs l !! i = Some fn' ∧
    ∀ cls, cls ∈ fn_classes fn' ↔ cls ∈ fn_classes fn ∨ (i, cls) ∈ l.
Proof.
  revert fs fn. induction l as [|[j t] l IH]; intros fs fn Hi; simpl.
  { exists fn. split; [done|]. intros cls. rewrite elem_of_nil. tauto. }
  destruct (decide (j = i)) as [->|Hne].
  - destruct (IH (alter (addFnAttr t) i fs) (addFnAttr t fn)) as (fn' & Hf & Hc).
    { rewrite list_lookup_alter_eq. by rewrite Hi. }
    exists fn'. split; [done|]. intros cls. rewrite Hc, addFnAttr_classes, elem_of_cons. naive_solver.
  - destruct (IH (alter (addFnAttr t) j fs) fn) as (fn' & Hf & Hc).
    { by rewrite list_lookup_alter_ne. }
    exists fn'. split; [done|]. intros cls. rewrite Hc, elem_of_cons. naive_solver.
Qed.

Definition annotated (m : module) (i : nat) (cls : string) : Prop :=
  ∃ anns a, m_annotations m = Some anns ∧ a ∈ anns ∧ an_function a = Some i ∧ an_text a = Some cls ∧
    String.prefix "capsule." cls = true.

(** The first [MaterializeFunctionClasses] gives a function exactly the
    classes it had and the [capsule.*] texts it is annotated with, keeps every
    other annotation in order, and a second application changes nothing. *)
Theorem materialize_classes m i fn :
  m_classes_flag m = false → m_functions m !! i = Some fn →
  (∃ fn', m_functions (MaterializeFunctionClasses m) !! i = Some fn' ∧
     ∀ cls, HasFunctionClass fn' cls = true ↔ HasFunctionClass fn cls = true ∨ annotated m i cls) ∧
  default [] (m_annotations (MaterializeFunctionClasses m)) =
    filter (λ a, capsule_annotation a = None) (default [] (m_annotations m)) ∧
  MaterializeFunctionClasses (MaterializeFunctionClasses m) = MaterializeFunctionClasses m.
Proof.
  intros Hflag Hi. unfold HasFunctionClass. setoid_rewrite bool_decide_eq_true.
  unfold annotated, MaterializeFunctionClasses. rewrite Hflag.
  destruct (m_annotations m) as [anns|]; simpl.
  - split_and!; [| |done].
    + destruct (addFnAttr_foldl (omap capsule_annotation anns) (m_functions m) i fn Hi) as (fn' & Hf & Hc).
      exists fn'. split; [done|]. intros cls. rewrite Hc, list_elem_of_omap. apply or_iff_compat_l.
      unfold capsule_annotation. split.
      * intros (a & Ha & E). destruct (an_function a) as [f|] eqn:Ef; [|done].
        destruct (an_text a) as [t|] eqn:Et; [|done].
        destruct (String.prefix "capsule." t) eqn:Ep; [|done]. injection E as <- <-. eauto 10.
      * intros (? & a & [= <-] & Ha & Ef & Et & Ep). exists a. by rewrite Ef, Et, Ep.
    + set (kept := filter _ anns). destruct (Nat.eqb _ _) eqn:E; [|by destruct kept].
      apply Nat.eqb_eq in E. simpl. symmetry.
      by apply filter_full_length.
  - split_and!; [|done|done]. exists fn. split; [done|]. intros cls. split; [by left|].
    intros [?|(? & ? & ? & _)]; done.
Qed.

(** ** Witnesses

    An entry program (0) calls its helper (3) and, through the boundary,
    function 1; function 1 calls 2, which jumps through a pointer of type 7;
    function 4, of type 7, only has its address taken, in a constant table.
    Global 0 is native, global 1 Capsule, global 2 shared in a section. *)
Module PartitionSample.
Definition direct (f : nat) : instr := Instr [] (Some (Call false false false (Some f) true 0)).
Definition boundary (f : nat) : instr := Instr [] (Some (Call true false false (Some f) true 0)).
Definition indirect (t : nat) : instr := Instr [] (Some (Call false false false None false t)).
Definition functions : list func :=
  [ Func false (Some "xdp"%string) [] 0 false [direct 3; boundary 1];
    Func false None [] 0 false [direct 2; Instr [1] None];
    Func false None [] 0 false [indirect 7];
    Func false None [] 0 false [];
    Func false None [] 7 true [];
    Func true None [] 0 false [] ].
Definition values : list vnode := [VNode (Some 4) true []; VNode None true [0]].
Definition globals : list global :=
  [ Global false "counter" None false [0];
    Global false "table" None false [1];
    Global false "ring" (Some ".maps"%string) false [0; 1] ].
Definition m : module :=
  Module functions values [UInstruction 3; UConstant [2]; UInstruction 2] globals None false
    (Some [Annotation (Some 2) (Some "capsule.hot"%string); Annotation (Some 2) (Some "user"%string)]).
(** The same program with the helper calling into the Capsule side. *)
Definition overlapping : module :=
  Module (<[3 := Func false None [] 0 false [direct 2]]> functions) values [] [] None false None.
Definition p : partition := Partition {[0; 3]} {[1; 2; 4]} {[0; 2]} {[1; 2]}.
End PartitionSample.

Lemma domains_separated_witness :
  run PartitionSample.m = Ok PartitionSample.p ∧
  separated (MaterializeFunctionClasses PartitionSample.m) PartitionSample.p.
Proof. split; [vm_compute; reflexivity|]. apply domains_separated. vm_compute. reflexivity. Defined.

Lemma domains_exact_witness :
  4 ∈ p_capsule PartitionSample.p ∧
  let k := MaterializeFunctionClasses PartitionSample.m in
  ∃ r, capsule_root k (p_native PartitionSample.p) r ∧ defined k r ∧
    rtc (domain_edge k (possible_target k)) r 4.
Proof.
  assert (H : 4 ∈ p_capsule PartitionSample.p) by (vm_compute; reflexivity).
  split; [exact H|]. revert H. apply (domains_exact PartitionSample.m PartitionSample.p 4).
  vm_compute. reflexivity.
Defined.

Lemma domains_rejection_witness :
  run PartitionSample.overlapping = Err (SharedFunction 4) ∧
  rejection (MaterializeFunctionClasses PartitionSample.overlapping) (SharedFunction 4).
Proof. split; [vm_compute; reflexivity|]. apply domains_rejection. vm_compute. reflexivity. Defined.

Lemma domains_globals_witness :
  2 ∈ p_global_native PartitionSample.p ∧
  global_used (MaterializeFunctionClasses PartitionSample.m) (p_native PartitionSample.p) 2.
Proof.
  assert (H : 2 ∈ p_global_native PartitionSample.p) by (vm_compute; reflexivity).
  split; [exact H|]. revert H. apply (domains_globals PartitionSample.m PartitionSample.p).
  vm_compute. reflexivity.
Defined.

Lemma materialize_classes_witness :
  default [] (m_annotations (MaterializeFunctionClasses PartitionSample.m)) =
    [Annotation (Some 2) (Some "user"%string)] ∧
  ∃ fn', m_functions (MaterializeFunctionClasses PartitionSample.m) !! 2 = Some fn' ∧
    HasFunctionClass fn' "capsule.hot" = true.
Proof.
  assert (Hf : m_functions PartitionSample.m !! 2 =
    Some (Func false None [] 0 false [PartitionSample.indirect 7])) by reflexivity.
  destruct (materialize_classes PartitionSample.m 2 _ eq_refl Hf) as ((fn' & Hl & Hc) & Ha & _).
  split; [rewrite Ha; vm_compute; reflexivity|].
  exists fn'. split; [exact Hl|]. apply Hc. right.
  exists [Annotation (Some 2) (Some "capsule.hot"%string); Annotation (Some 2) (Some "user"%string)],
    (Annotation (Some 2) (Some "capsule.hot"%string)).
  split_and!; try reflexivity. left.
Defined.
