(* ===== verification/SpillSlotPlan.v ===== *)
(** * Spill-slot representations ([src/src/pass/spill_slot_plan.cpp])

    A flow-insensitive data-flow analysis over a machine function whose spill
    slots are still separate frame objects: every virtual register and every
    slot gets a point of the lattice [Bottom < Scalar mask, Arena < Native],
    where [mask] has a bit for each bit an integer may have set.  The result
    is attached to the slots as stack IDs, survives slot coloring, and is
    finally recorded as metadata the spill relocator reads.

    Opcode names, register names, memory operands, register aliasing
    ([modifiesRegister]), tied operands and frame objects are LLVM's; they are
    fields of the records below. *)

From Stdlib Require Import Ascii ZArith Lia.
From stdpp Require Import base numbers list gmap sets fin_maps strings.
From S2P Require Import Prelude.

Module SpillSlotPlan.
Local Open Scope Z_scope.

(** ** The lattice *)

Inductive ValueKind := Bottom | Scalar | Arena | Native.

#[global] Instance ValueKind_eq_dec : EqDecision ValueKind.
Proof. solve_decision. Defined.

Record Value := MkValue { kind : ValueKind; mask : Z }.

#[global] Instance Value_eq_dec : EqDecision Value.
Proof. solve_decision. Defined.

Definition UINT64_MAX : Z := 2 ^ 64 - 1.
Definition UINT32_MAX : Z := 2 ^ 32 - 1.

Definition bottom : Value := MkValue Bottom 0.
Definition native : Value := MkValue Native 0.
Definition arena : Value := MkValue Arena 0.
Definition scalar (m : Z) : Value := MkValue Scalar m.
Definition anyScalar : Value := scalar UINT64_MAX.

Definition join (a b : Value) : Value :=
  if decide (kind a = Bottom) then b
  else if decide (kind b = Bottom) then a
  else if decide (kind a = kind b) then
    if decide (kind a = Scalar) then scalar (Z.lor (mask a) (mask b)) else a
  else native.

(** ** The machine function the pass reads *)

Inductive irtype := TPointer (addressSpace : Z) | TInteger | TOther.

Inductive register := Virtual (n : nat) | Physical (name : string).

#[global] Instance register_eq_dec : EqDecision register.
Proof. solve_decision. Defined.

(** A global operand: a function, with its return type, or another global. *)
Inductive global_ref := GFunction (ret : irtype) | GOther.

Inductive moperand :=
| OImm (imm : Z)
| OReg (reg : option register) (def : bool)
| OFrameIndex (index : Z)
| OGlobal (g : global_ref)
| OSymbol (name : string)
| OOther.

(** The underlying object of a memory operand's IR address, and its size. *)
Inductive object := OArgument (n : nat) | OObject.
Record memoperand := MemOperand { mm_object : option object; mm_size : option Z }.

Record minstr := MInstr {
  mi_opcode : string;
  mi_operands : list moperand;
  mi_call : bool;
  mi_inline_asm : bool;
  mi_may_load : bool;
  mi_may_store : bool;
  mi_memory : list memoperand;
  mi_modifies : list string;      (* physical registers, aliases included *)
  mi_tied : list (nat * nat);     (* a def operand and the use it is tied to *)
}.

Record frame_object := FrameObject {
  fo_dead : bool;
  fo_spill : bool;
  fo_size : Z;
  fo_stack_id : Z;
}.

Record argument := MkArgument { arg_type : irtype; arg_borrowed : bool }.

(** Metadata: an integer constant of some width, a node, or anything else. *)
Inductive metadata := MDInt (width value : Z) | MDNode (operands : list metadata) | MDOther.

Record mfunction := MFunction {
  mf_allocation_unit : bool;
  mf_args : list argument;
  mf_blocks : list (list minstr);
  mf_frame : list frame_object;
  mf_bits32 : list nat;           (* virtual registers of a 32-bit class *)
  mf_plan : option (list metadata);
  mf_pending : option (list metadata);
}.

Definition operandAt (i : minstr) (n : nat) : moperand := default OOther (mi_operands i !! n).

Definition isSpillSlotObjectIndex (frame : list frame_object) (index : Z) : bool :=
  match frame !! Z.to_nat index with Some o => fo_spill o | None => false end.

(** [contextObjects]: the borrowed arguments. *)
Definition contextObject (args : list argument) (o : object) : bool :=
  match o with
  | OArgument n => match args !! n with Some a => arg_borrowed a | None => false end
  | OObject => false
  end.

Definition operandSlot (frame : list frame_object) (o : moperand) : option nat :=
  match o with
  | OFrameIndex index =>
      if (0 <=? index) && isSpillSlotObjectIndex frame index then Some (Z.to_nat index) else None
  | _ => None
  end.

Definition slotOf (frame : list frame_object) (i : minstr) : option nat :=
  head (omap (operandSlot frame) (mi_operands i)).

Definition typeOf (t : irtype) : Value :=
  match t with
  | TPointer addressSpace => if addressSpace =? 1 then arena else native
  | TInteger => anyScalar
  | TOther => native
  end.

(** ** Transfer functions *)

(** [virtuals] and [slots]; an absent key reads as [Bottom], which is what
    [std::map::operator[]] inserts. *)
Record values := Values { virtuals : gmap nat Value; slots : gmap nat Value }.

Definition virtualOf (st : values) (n : nat) : Value := default bottom (virtuals st !! n).
Definition slotValue (st : values) (n : nat) : Value := default bottom (slots st !! n).

(** The parameter register of a BPF function [name] denotes, from 0. *)
Definition argumentRegister (name : string) : option nat :=
  match name with
  | String c (String d EmptyString) =>
      let n := Ascii.nat_of_ascii d in
      if (Ascii.eqb c "R" || Ascii.eqb c "W")%char
         && Nat.leb (Ascii.nat_of_ascii "1") n && Nat.leb n (Ascii.nat_of_ascii "5")
      then Some (n - Ascii.nat_of_ascii "1")%nat else None
  | _ => None
  end.

Definition calleeReturn (i : minstr) : Value :=
  match head (omap (λ o, match o with OGlobal (GFunction ret) => Some ret | _ => None end)
                   (mi_operands i)) with
  | Some ret => typeOf ret
  | None => native
  end.

(** Walk the instructions before a use, nearest first, to the one that
    modifies the physical register [reg]. *)
Fixpoint findModifier (reg : string) (before : list minstr) : option (minstr * list minstr) :=
  match before with
  | [] => None
  | it :: before =>
      if bool_decide (reg ∈ mi_modifies it) then Some (it, before) else findModifier reg before
  end.

(** What [operand] and [produced] need of their surroundings. *)
Record context := Context {
  cx_args : list argument;
  cx_frame : list frame_object;
  cx_entry : bool;                (* the use is in the entry block *)
}.

(** [operand]; [produced] is absent when the depth limit is reached. *)
Definition operandWith (produced : option (list minstr → minstr → Value)) (cx : context)
    (st : values) (before : list minstr) (input : moperand) : Value :=
  match input with
  | OImm z => scalar (u64 z)
  | OReg (Some (Virtual n)) _ => virtualOf st n
  | OReg (Some (Physical reg)) _ =>
      match produced with
      | None => native
      | Some produced =>
          match findModifier reg before with
          | Some (it, before) =>
              if mi_call it then
                if String.eqb reg "R0" then calleeReturn it else native
              else produced before it
          | None =>
              if cx_entry cx then
                match argumentRegister reg with
                | Some index =>
                    match cx_args cx !! index with
                    | Some a => typeOf (arg_type a)
                    | None => native
                    end
                | None => native
                end
              else native
          end
      end
  | _ => native
  end.

Definition isDefReg (o : moperand) : bool := match o with OReg _ def => def | _ => false end.
Definition isUse (o : moperand) : bool :=
  match o with OImm _ => true | OReg _ def => negb def | _ => false end.

(** Inline assembly: only an empty template with tied outputs is a copy. *)
Definition asmValue (operand : moperand → Value) (i : minstr) : Value :=
  match operandAt i 0 with
  | OSymbol EmptyString =>
      match foldM (λ (p : nat * moperand) (acc : Value),
               let '(n, output) := p in
               if isDefReg output then
                 match list_find (λ t, t.1 = n) (mi_tied i) with
                 | Some (_, (_, input)) => Ok (join acc (operand (operandAt i input)))
                 | None => Err native
                 end
               else Ok acc) (imap pair (mi_operands i)) bottom with
      | Ok v => v
      | Err v => v
      end
  | _ => native
  end.

Definition maskTrailingOnes (n : Z) : Z := Z.ones n.

Definition ends_with (p s : string) : bool :=
  let n := String.length s in
  let k := String.length p in
  Nat.leb k n && String.eqb (String.substring (n - k) k s) p.

Definition narrowSize (mm : memoperand) : option Z :=
  match mm_size mm with
  | Some bytes => if (0 <? bytes) && (bytes <? 8) then Some bytes else None
  | None => None
  end.

Definition loadValue (cx : context) (st : values) (i : minstr) : Value :=
  match slotOf (cx_frame cx) i with
  | Some slot => slotValue st slot
  | None =>
      if existsb (λ mm, match mm_object mm with
                        | Some o => contextObject (cx_args cx) o
                        | None => false
                        end) (mi_memory i)
      then native
      else if negb (ends_with "SX" (mi_opcode i)) then
        match head (omap narrowSize (mi_memory i)) with
        | Some bytes => scalar (maskTrailingOnes (bytes * 8))
        | None => anyScalar
        end
      else anyScalar
  end.

(** The join of the inputs and how many of them are arena pointers; the first
    native or unknown input is the result. *)
Definition gatherInputs (operand : moperand → Value) (i : minstr) : result Value (Value * Z) :=
  foldM (λ input acc,
           if isUse input then
             let value := operand input in
             if decide (kind value = Native ∨ kind value = Bottom) then Err value
             else Ok (join acc.1 value, acc.2 + (if decide (kind value = Arena) then 1 else 0))
           else Ok acc) (mi_operands i) (bottom, 0).

Definition isCopy (op : string) : bool :=
  existsb (String.eqb op)
    ["COPY"; "MOV_rr"; "MOV_rr_32"; "MOV_32_64"; "SUBREG_TO_REG"; "EXTRACT_SUBREG"]%string.

Definition ScalarOps : list string :=
  ["MUL_"; "DIV_"; "MOD_"; "SDIV_"; "SMOD_"; "AND_"; "OR_"; "XOR_"; "SLL_"; "SRL_"; "SRA_"; "NEG_";
   "MOVSX_"; "BSWAP"; "BE"; "LE"; "CMPXCHG"; "XADD"; "XCHG"]%string.

Definition combine (operand : moperand → Value) (i : minstr) (inputs : Value) (arenas : Z) : Value :=
  let op := mi_opcode i in
  if String.eqb op "PHI" then inputs
  else if String.prefix "ADD_" op || String.prefix "SUB_" op then
    if negb (arenas =? 0) then (if arenas =? 1 then arena else native) else anyScalar
  else if negb (arenas =? 0) then native
  else
    let fallback := if existsb (λ family, String.prefix family op) ScalarOps then anyScalar else native in
    match operandAt i 2 with
    | OImm imm =>
        if String.prefix "AND_" op && Nat.ltb 2 (length (mi_operands i))
        then scalar (Z.land (mask (operand (operandAt i 1))) (u64 imm))
        else if String.prefix "SLL_" op || String.prefix "SRL_" op then
          let shift := Z.land imm 63 in
          let m := mask (operand (operandAt i 1)) in
          scalar (if String.prefix "SLL_" op then u64 (Z.shiftl m shift) else Z.shiftr m shift)
        else fallback
    | _ => fallback
    end.

Definition immOf (o : moperand) : Z := match o with OImm z => z | _ => 0 end.

Definition producedWith (operand : moperand → Value) (cx : context) (st : values) (i : minstr)
    : Value :=
  let op := mi_opcode i in
  if String.eqb op "ADDR_SPACE_CAST" then
    if immOf (operandAt i 3) =? 1 then arena else anyScalar
  else if String.eqb op "LD_imm64" || String.prefix "MOV_ri" op then
    match operandAt i 1 with OImm z => scalar (u64 z) | _ => native end
  else if isCopy op then operand (operandAt i 1)
  else if mi_inline_asm i then asmValue operand i
  else if mi_may_load i then loadValue cx st i
  else
    match gatherInputs operand i with
    | Err value => value
    | Ok (inputs, arenas) => combine operand i inputs arenas
    end.

(** The two functions call each other through physical registers; [left] is
    [8 - depth]. *)
Fixpoint producedAt (left : nat) (cx : context) (st : values) (before : list minstr) (i : minstr)
    : Value :=
  producedWith
    (operandWith (match left with O => None | S k => Some (producedAt k cx st) end) cx st before)
    cx st i.

Definition operandAtDepth (left : nat) (cx : context) (st : values) (before : list minstr)
    (input : moperand) : Value :=
  operandWith (match left with O => None | S k => Some (producedAt k cx st) end) cx st before input.

Definition MaxDepth : nat := 8.
Definition produced (cx : context) (st : values) (before : list minstr) (i : minstr) : Value :=
  producedAt MaxDepth cx st before i.
Definition operand (cx : context) (st : values) (before : list minstr) (input : moperand) : Value :=
  operandAtDepth MaxDepth cx st before input.

(** ** The fixed point *)

(** A 32-bit destination register keeps the low half of an integer. *)
Definition clip (bits32 : list nat) (n : nat) (v : Value) : Value :=
  if decide (kind v = Scalar ∧ n ∈ bits32) then scalar (Z.land (mask v) UINT32_MAX) else v.

Definition solveDef (bits32 : list nat) (cx : context) (before : list minstr) (i : minstr)
    (acc : values * bool) (output : moperand) : values * bool :=
  match output with
  | OReg (Some (Virtual n)) true =>
      let '(st, changed) := acc in
      let previous := virtualOf st n in
      let next := join previous (clip bits32 n (produced cx st before i)) in
      (Values (<[n := next]> (virtuals st)) (slots st), changed || negb (bool_decide (previous = next)))
  | _ => acc
  end.

Definition solveStore (cx : context) (before : list minstr) (i : minstr) (acc : values * bool)
    : values * bool :=
  match slotOf (cx_frame cx) i with
  | Some index =>
      if mi_may_store i then
        let '(st, changed) := acc in
        let previous := slotValue st index in
        let next := join previous (operand cx st before (operandAt i 0)) in
        (Values (virtuals st) (<[index := next]> (slots st)),
         changed || negb (bool_decide (previous = next)))
      else acc
  | None => acc
  end.

Definition solveInstr (bits32 : list nat) (cx : context) (before : list minstr) (i : minstr)
    (acc : values * bool) : values * bool :=
  solveStore cx before i (foldl (solveDef bits32 cx before i) acc (mi_operands i)).

(** The instructions of a block in order; [before] grows at the head. *)
Fixpoint solveBlock (bits32 : list nat) (cx : context) (before block : list minstr)
    (acc : values * bool) : values * bool :=
  match block with
  | [] => acc
  | i :: block => solveBlock bits32 cx (i :: before) block (solveInstr bits32 cx before i acc)
  end.

Definition contextOf (f : mfunction) (entry : bool) : context :=
  Context (mf_args f) (mf_frame f) entry.

(** One iteration of the outer loop. *)
Definition sweep (f : mfunction) (st : values) : values * bool :=
  foldl (λ acc (p : nat * list minstr),
           solveBlock (mf_bits32 f) (contextOf f (Nat.eqb p.1 0)) [] p.2 acc)
        (st, false) (imap pair (mf_blocks f)).

Fixpoint solve (fuel : nat) (f : mfunction) (st : values) : option values :=
  match fuel with
  | O => None
  | S fuel => let '(st, changed) := sweep f st in if changed then solve fuel f st else Some st
  end.

(** The virtual registers the function defines. *)
Definition definedVirtual (o : moperand) : option nat :=
  match o with OReg (Some (Virtual n)) true => Some n | _ => None end.
Definition allInstrs (f : mfunction) : list minstr := concat (mf_blocks f).
Definition definedRegs (f : mfunction) : list nat :=
  remove_dups (allInstrs f ≫= λ i, omap definedVirtual (mi_operands i)).

(** A chain of the lattice has at most 67 points, so every sweep but the last
    moves some register or slot one of 66 steps up. *)
Definition solveFuel (f : mfunction) : nat :=
  S (66 * (length (definedRegs f) + length (mf_frame f))).

Definition emptyValues : values := Values ∅ ∅.

(** ** Attaching the result to the slots *)

Definition hasSpills (frame : list frame_object) : bool :=
  existsb (λ o, negb (fo_dead o) && fo_spill o) frame.

(** A spill access without a memory operand gets the fixed-stack one. *)
Definition addMemOperand (frame : list frame_object) (i : minstr) : minstr :=
  match slotOf frame i with
  | Some index =>
      if match mi_memory i with [] => true | _ => false end && (mi_may_load i || mi_may_store i) then
        MInstr (mi_opcode i) (mi_operands i) (mi_call i) (mi_inline_asm i) (mi_may_load i)
               (mi_may_store i)
               [MemOperand None (fo_size <$> frame !! index)] (mi_modifies i) (mi_tied i)
      else i
  | None => i
  end.

Definition setStackID (index : nat) (id : Z) (frame : list frame_object) : list frame_object :=
  alter (λ o, FrameObject (fo_dead o) (fo_spill o) (fo_size o) id) index frame.

Record numbering := Numbering {
  ids : list (Value * Z);
  representations : list metadata;
  nm_frame : list frame_object;
}.

Definition findId (key : Value) (l : list (Value * Z)) : option Z :=
  snd <$> (snd <$> list_find (λ p, p.1 = key) l).

Definition representation (v : Value) : metadata :=
  MDNode [MDInt 32 (if decide (kind v = Arena) then 1 else 0); MDInt 64 (mask v)].

Definition numberSlot (st : values) (nm : numbering) (index : nat) : numbering :=
  let value := slotValue st index in
  if decide (kind value = Scalar ∨ kind value = Arena) then
    match findId value (ids nm) with
    | Some id => Numbering (ids nm) (representations nm) (setStackID index id (nm_frame nm))
    | None =>
        if Nat.eqb (length (ids nm)) 255 then nm
        else
          let id := Z.of_nat (length (ids nm)) + 1 in
          Numbering (ids nm ++ [(value, id)]) (representations nm ++ [representation value])
                    (setStackID index id (nm_frame nm))
    end
  else nm.

(** The slots are visited in increasing order, as the map is ordered. *)
Definition numberSlots (st : values) (frame : list frame_object) : numbering :=
  foldl (numberSlot st) (Numbering [] [] frame) (seq 0 (length frame)).

(** [BPFSpillSlotPlan]; [None] is a search that did not end. *)
Definition planPass (fuel : nat) (f : mfunction) : option (bool * mfunction) :=
  if negb (mf_allocation_unit f) then Some (false, f)
  else if negb (hasSpills (mf_frame f)) then Some (false, f)
  else
    match solve fuel f emptyValues with
    | None => None
    | Some st =>
        let nm := numberSlots st (mf_frame f) in
        Some (true,
              MFunction (mf_allocation_unit f) (mf_args f)
                        (map (map (addMemOperand (mf_frame f))) (mf_blocks f)) (nm_frame nm)
                        (mf_bits32 f) (mf_plan f) (Some (representations nm)))
    end.

(** [BPFFinishSpillSlotPlan] *)
Definition finishSlot (reps : list metadata) (acc : list metadata * list frame_object)
    (index : nat) : list metadata * list frame_object :=
  match acc.2 !! index with
  | Some o =>
      if fo_dead o || negb (fo_spill o) then acc
      else if fo_stack_id o =? 0 then acc
      else (acc.1 ++ [MDNode [MDInt 32 (u32 (Z.of_nat index));
                              default MDOther (reps !! Z.to_nat (fo_stack_id o - 1))]],
            setStackID index 0 acc.2)
  | None => acc
  end.

Definition finishPass (f : mfunction) : bool * mfunction :=
  match mf_pending f with
  | None => (false, f)
  | Some reps =>
      let '(entries, frame) :=
        foldl (finishSlot reps) ([], mf_frame f) (seq 0 (length (mf_frame f))) in
      (true, MFunction (mf_allocation_unit f) (mf_args f) (mf_blocks f) frame (mf_bits32 f)
               (match entries with [] => None | _ => Some entries end) None)
  end.

(** ** Reading the plan back *)

Inductive SpillForm := FormNative | FormScalar | FormArena.
Record SpillValue := MkSpillValue { sv_form : SpillForm; sv_mask : Z }.

Inductive error := MalformedPlan.

(** The fields of one entry: index, kind and mask constants. *)
Definition planEntry (entry : metadata) : option (Z * Z * Z) :=
  match entry with
  | MDNode [MDInt wi index; MDNode [MDInt wk kind; MDInt wm mask]] =>
      if 1 <? kind then None else Some (sgn wi index, kind, mask)
  | _ => None
  end.

Definition readEntry (entry : metadata) (acc : gmap Z SpillValue)
    : result error (gmap Z SpillValue) :=
  match planEntry entry with
  | Some (index, kind, mask) =>
      Ok (<[index := MkSpillValue (if kind =? 1 then FormArena else FormScalar) mask]> acc)
  | None => Err MalformedPlan
  end.

Definition ReadSpillPlan (f : mfunction) : result error (gmap Z SpillValue) :=
  match mf_plan f with
  | Some plan => foldM readEntry plan ∅
  | None => Ok ∅
  end.

End SpillSlotPlan.
