(* ===== verification/SpillSlotFacts.v ===== *)
(** * The spill-slot analysis reaches a fixed point

    Well-formed lattice points and their rank, the equivalence of solver
    states, and the proof that the sweeps of [solve] stop at a state every
    instruction agrees with. *)

From Stdlib Require Import ZArith Lia.
From stdpp Require Import base numbers list gmap sets fin_maps strings.
From S2P Require Import Prelude SpillSlotPlan.

Import SpillSlotPlan.
Local Open Scope Z_scope.

(** ** Masks *)

(** Every bit set in [a] is set in [b]. *)
Definition submask (a b : Z) : Prop := ∀ k, Z.testbit a k = true → Z.testbit b k = true.

#[global] Instance submask_preorder : PreOrder submask.
Proof. split; [by intros a k|intros a b c Hab Hbc k Hk; auto]. Qed.

Lemma submask_lor_l a b : submask a (Z.lor a b).
Proof. intros k Hk. by rewrite Z.lor_spec, Hk. Qed.
Lemma submask_lor_r a b : submask b (Z.lor a b).
Proof. intros k Hk. by rewrite Z.lor_spec, Hk, orb_true_r. Qed.
Lemma submask_land_l a b : submask (Z.land a b) a.
Proof. intros k. rewrite Z.land_spec, andb_true_iff. tauto. Qed.
Lemma submask_land_mono a b a' b' : submask a a' → submask b b' → submask (Z.land a b) (Z.land a' b').
Proof. intros Ha Hb k. rewrite !Z.land_spec, !andb_true_iff. intros [? ?]. auto. Qed.

Lemma word_high w m k : 0 <= m < 2 ^ w → w <= k → Z.testbit m k = false.
Proof.
  intros Hm Hk. destruct (decide (m = 0)) as [->|]; [apply Z.bits_0|].
  apply Z.bits_above_log2; [lia|]. enough (Z.log2 m < w) by lia. apply Z.log2_lt_pow2; lia.
Qed.

Lemma word_of_bits w m : 0 <= w → 0 <= m → (∀ k, w <= k → Z.testbit m k = false) → m < 2 ^ w.
Proof.
  intros Hw Hm Hb. destruct (decide (m = 0)) as [->|]; [auto with capsule|].
  apply Z.log2_lt_pow2; [lia|]. destruct (Z_lt_le_dec (Z.log2 m) w); [done|].
  assert (Z.testbit m (Z.log2 m) = true) by (apply Z.bit_log2; lia). by rewrite Hb in *.
Qed.

Lemma submask_range w a b : 0 <= w → 0 <= a → 0 <= b < 2 ^ w → submask a b → 0 <= a < 2 ^ w.
Proof.
  intros Hw Ha Hb Hs. split; [done|]. apply word_of_bits; [done|done|]. intros k Hk.
  destruct (Z.testbit a k) eqn:E; [|done]. apply Hs in E. by rewrite (word_high w b k Hb Hk) in E.
Qed.

Lemma lor_range w a b : 0 <= w → 0 <= a < 2 ^ w → 0 <= b < 2 ^ w → 0 <= Z.lor a b < 2 ^ w.
Proof.
  intros Hw Ha Hb. assert (0 <= Z.lor a b) by (apply Z.lor_nonneg; lia). split; [done|].
  apply word_of_bits; [done|done|]. intros k Hk.
  by rewrite Z.lor_spec, !(word_high w) by done.
Qed.

Lemma land_range w a b : 0 <= w → 0 <= a < 2 ^ w → 0 <= Z.land a b < 2 ^ w.
Proof.
  intros Hw Ha. assert (0 <= Z.land a b) by (apply Z.land_nonneg; lia).
  apply (submask_range w _ a); [done|done|done|apply submask_land_l].
Qed.

Lemma submask_wrap w a : 0 <= w → 0 <= a → submask (wrap w a) a.
Proof.
  intros Hw Ha k. unfold wrap. rewrite <-Z.land_ones by done. apply submask_land_l.
Qed.

Definition popcount (m : Z) : nat := length (filter (λ k, Z.testbit m (Z.of_nat k) = true) (seq 0 64)).

Lemma popcount_le m : (popcount m <= 64)%nat.
Proof. unfold popcount. etrans; [apply length_filter|]. by rewrite length_seq. Qed.

Lemma length_filter_lt_or {A} (P Q : A → Prop) `{∀ x, Decision (P x), ∀ x, Decision (Q x)} l :
  (∀ x, x ∈ l → P x → Q x) →
  (length (filter P l) < length (filter Q l))%nat ∨ (∀ x, x ∈ l → Q x → P x) ∧
  length (filter P l) = length (filter Q l).
Proof.
  induction l as [|x l IH]; intros HPQ; [right; split; [by intros x ?%not_elem_of_nil|done]|].
  rewrite !filter_cons. specialize (HPQ x) as Hx. ospecialize (Hx _); [by left|].
  ospecialize (IH _); [intros y Hy; apply HPQ; by right|].
  repeat case_decide; simpl.
  - destruct IH as [IH|[IH E]]; [left; lia|right]. split; [|lia].
    intros y [->|Hy]%elem_of_cons; auto.
  - tauto.
  - left. destruct IH as [IH|[IH E]]; lia.
  - destruct IH as [IH|[IH E]]; [by left|right]. split; [|done].
    intros y [->|Hy]%elem_of_cons; [tauto|auto].
Qed.

(** Adding bits either changes nothing or is counted. *)
Lemma popcount_grow a b :
  0 <= a < 2 ^ 64 → 0 <= b < 2 ^ 64 → submask a b → a = b ∨ (popcount a < popcount b)%nat.
Proof.
  intros Ha Hb Hs.
  destruct (length_filter_lt_or (λ k, Z.testbit a (Z.of_nat k) = true)
    (λ k, Z.testbit b (Z.of_nat k) = true) (seq 0 64)) as [?|[Hba _]]; [auto|by right|].
  left. apply Z.bits_inj. intros k. destruct (decide (k < 0)); [by rewrite !Z.testbit_neg_r by lia|].
  destruct (decide (64 <= k)); [by rewrite !(word_high 64) by lia|].
  destruct (Z.testbit a k) eqn:Ea, (Z.testbit b k) eqn:Eb; try done.
  - apply Hs in Ea. congruence.
  - rewrite <-(Z2Nat.id k) in Eb by lia. apply Hba in Eb; [|apply elem_of_seq; lia].
    rewrite Z2Nat.id in Eb by lia. congruence.
Qed.

(** ** Lattice points *)

Definition wf (v : Value) : Prop := 0 <= mask v < 2 ^ 64 ∧ (kind v ≠ Scalar → mask v = 0).

Definition le (a b : Value) : Prop :=
  kind a = Bottom ∨ kind b = Native ∨ kind a = kind b ∧ submask (mask a) (mask b).

Definition rank (v : Value) : nat :=
  match kind v with
  | Bottom => 0
  | Scalar => S (popcount (mask v))
  | Arena => 1
  | Native => 66
  end.

Lemma rank_le_66 v : (rank v <= 66)%nat.
Proof. unfold rank. pose proof (popcount_le (mask v)). destruct (kind v); lia. Qed.

Lemma wf_bottom : wf bottom. Proof. split; [simpl; lia|done]. Qed.
Lemma wf_native : wf native. Proof. split; [simpl; lia|done]. Qed.
Lemma wf_arena : wf arena. Proof. split; [simpl; lia|done]. Qed.
Lemma wf_scalar m : 0 <= m < 2 ^ 64 → wf (scalar m).
Proof. intros. split; [done|]. by intros []. Qed.
Lemma wf_anyScalar : wf anyScalar.
Proof. apply wf_scalar. unfold UINT64_MAX. lia. Qed.
#[export] Hint Resolve wf_bottom wf_native wf_arena wf_anyScalar : capsule.

Lemma le_refl a : le a a.
Proof. right; right. done. Qed.

Lemma le_trans a b c : le a b → le b c → le a c.
Proof.
  unfold le. intros [?|[Hb|[Hk Hm]]] [?|[?|[Hk' Hm']]]; try tauto; try (left; congruence).
  - right; left; congruence.
  - right; right. split; [congruence|]. by etrans.
Qed.

Ltac join_cases a b :=
  unfold join; destruct a as [[] ma], b as [[] mb]; repeat (case_decide; simplify_eq/=).

Lemma join_wf a b : wf a → wf b → wf (join a b).
Proof.
  intros Ha Hb. join_cases a b; auto with capsule. destruct Ha, Hb. apply wf_scalar.
  by apply lor_range.
Qed.

Lemma join_le_l a b : le a (join a b).
Proof.
  join_cases a b; unfold le; simpl; auto;
    right; right; (split; [done|]); first [reflexivity|apply submask_lor_l].
Qed.

Lemma join_le_r a b : wf a → wf b → le b (join a b).
Proof.
  intros [_ Ha] [_ Hb]. join_cases a b; unfold le; simpl; auto using submask_lor_r;
    right; right; (split; [done|]); first [reflexivity|by rewrite Ha, Hb].
Qed.

Lemma rank_mono a b : wf a → wf b → le a b → a = b ∨ (rank a < rank b)%nat.
Proof.
  intros [Ra Ha] [Rb Hb] Hle. unfold rank. pose proof (popcount_le (mask a)).
  destruct a as [[] ma], b as [[] mb]; unfold le in Hle; simpl in *;
    try (left; f_equal; rewrite ?Ha, ?Hb by done; done);
    try (right; lia); try (destruct Hle as [?|[?|[? ?]]]; discriminate).
  destruct Hle as [?|[?|[_ Hs]]]; try done.
  destruct (popcount_grow ma mb Ra Rb Hs) as [->|?]; [by left|right; lia].
Qed.

Lemma rank_le a b : wf a → wf b → le a b → (rank a <= rank b)%nat.
Proof. intros Ha Hb Hle. destruct (rank_mono a b Ha Hb Hle) as [->|?]; lia. Qed.

(** A join that returns its left argument covers the right one. *)
Lemma join_absorb a b : wf a → wf b → join a b = a → le b a.
Proof. intros Ha Hb E. rewrite <-E. by apply join_le_r. Qed.

(** ** Solver states *)

#[global] Instance values_equiv : Equiv values := λ s1 s2,
  (∀ n, virtualOf s1 n = virtualOf s2 n) ∧ (∀ n, slotValue s1 n = slotValue s2 n).

#[global] Instance values_equivalence : Equivalence (≡@{values}).
Proof.
  split.
  - by intros s.
  - intros s1 s2 [H1 H2]. by split.
  - intros s1 s2 s3 [H1 H2] [H3 H4]. split; intros n; [by rewrite H1|by rewrite H2].
Qed.

Definition wf_values (st : values) : Prop := ∀ n, wf (virtualOf st n) ∧ wf (slotValue st n).

Lemma foldM_ext {E A S} (f g : A → S → result E S) l s :
  (∀ x s, f x s = g x s) → foldM f l s = foldM g l s.
Proof. intros Hfg. revert s. induction l as [|x l IH]; intros s; simpl; [done|]. rewrite Hfg. by destruct (g x s). Qed.

Lemma operandWith_ext p1 p2 cx st1 st2 before o :
  st1 ≡ st2 →
  match p1, p2 with
  | Some p1, Some p2 => ∀ b i, p1 b i = p2 b i
  | None, None => True
  | _, _ => False
  end →
  operandWith p1 cx st1 before o = operandWith p2 cx st2 before o.
Proof.
  intros [Hv _] Hp. unfold operandWith. destruct o as [|[[n|r]|] d| | | |]; try done.
  destruct p1 as [p1|], p2 as [p2|]; try done.
  destruct (findModifier r before) as [[it b]|]; [|done]. by rewrite Hp.
Qed.

Lemma producedWith_ext op1 op2 cx st1 st2 i :
  st1 ≡ st2 → (∀ o, op1 o = op2 o) → producedWith op1 cx st1 i = producedWith op2 cx st2 i.
Proof.
  intros Hst Hop. assert (Hload : loadValue cx st1 i = loadValue cx st2 i).
  { unfold loadValue. destruct (slotOf _ i); [apply Hst|done]. }
  assert (Hasm : asmValue op1 i = asmValue op2 i).
  { unfold asmValue. destruct (operandAt i 0) as [| | | |[]|]; try done.
    erewrite foldM_ext; [done|]. intros [n o] s. destruct (isDefReg o); [|done].
    destruct (list_find _ _) as [[? []]|]; [|done]. by rewrite Hop. }
  assert (Hg : gatherInputs op1 i = gatherInputs op2 i).
  { unfold gatherInputs. apply foldM_ext. intros o s. by rewrite Hop. }
  unfold producedWith. rewrite Hload, Hasm, Hg, Hop. repeat case_match; try done.
  unfold combine. by rewrite Hop.
Qed.

Lemma producedAt_ext left cx st1 st2 before i :
  st1 ≡ st2 → producedAt left cx st1 before i = producedAt left cx st2 before i.
Proof.
  intros Hst. revert before i. induction left as [|k IH]; intros before i; simpl;
    apply producedWith_ext; try done; intros o; by apply operandWith_ext.
Qed.

#[global] Instance produced_proper cx : Proper ((≡) ==> (=) ==> (=) ==> (=)) (produced cx).
Proof. intros s1 s2 Hs b ? <- i ? <-. by apply producedAt_ext. Qed.

#[global] Instance operand_proper cx : Proper ((≡) ==> (=) ==> (=) ==> (=)) (operand cx).
Proof.
  intros s1 s2 Hs b ? <- o ? <-. apply operandWith_ext; [done|]. intros b' i. by apply producedAt_ext.
Qed.

(** ** Transfer functions stay in the lattice *)

Lemma wf_typeOf t : wf (typeOf t).
Proof. destruct t; simpl; try case_match; auto with capsule. Qed.

Lemma wf_u64 z : wf (scalar (u64 z)).
Proof. apply wf_scalar. by apply wrap_range. Qed.
#[export] Hint Resolve wf_typeOf wf_u64 : capsule.

Lemma wf_operandWith p cx st before o :
  wf_values st → (∀ q, p = Some q → ∀ b i, wf (q b i)) → wf (operandWith p cx st before o).
Proof.
  intros Hst Hp. unfold operandWith, calleeReturn.
  destruct o as [|[[n|r]|] d| | | |]; auto with capsule; [apply Hst|].
  destruct p as [q|]; auto with capsule. specialize (Hp q eq_refl).
  repeat case_match; auto with capsule.
Qed.

Lemma narrowSize_Some mm bytes : narrowSize mm = Some bytes → 0 < bytes < 8.
Proof. unfold narrowSize. intros. repeat case_match; simplify_eq. bool_to_prop. lia. Qed.

Lemma narrow_head mms bytes : head (omap narrowSize mms) = Some bytes → 0 < bytes < 8.
Proof.
  intros H%head_Some_elem_of. apply list_elem_of_omap in H as (mm & _ & H). by eapply narrowSize_Some.
Qed.

Lemma ones_range n : 0 <= n <= 64 → 0 <= Z.ones n < 2 ^ 64.
Proof.
  intros Hn. rewrite Z.ones_equiv. pose proof (pow2_pos n ltac:(lia)).
  pose proof (Z.pow_le_mono_r 2 n 64 ltac:(lia) ltac:(lia)). lia.
Qed.

Lemma wf_loadValue cx st i : wf_values st → wf (loadValue cx st i).
Proof.
  intros Hst. unfold loadValue. destruct (slotOf _ i); [apply Hst|].
  destruct (existsb _ _); [auto with capsule|]. destruct (negb _); [|auto with capsule].
  destruct (head _) as [bytes|] eqn:E; [|auto with capsule].
  apply narrow_head in E. apply wf_scalar, ones_range. lia.
Qed.

Section wf_produced.
Context (op : moperand → Value) (Hop : ∀ o, wf (op o)).

Lemma wf_asmValue i : wf (asmValue op i).
Proof.
  unfold asmValue. destruct (operandAt i 0) as [| | | |[]|]; auto with capsule.
  set (step := λ p acc, _). destruct (foldM step _ _) as [v|v] eqn:E.
  - revert E. apply (foldM_Ok_invariant _ (λ _ v, wf v)); [auto with capsule|].
    intros pre [n o] s0 s1 _ Hs. unfold step. destruct (isDefReg o); [|by intros [= <-]].
    destruct (list_find _ _) as [[? []]|]; [|done]. intros [= <-]. by apply join_wf.
  - apply foldM_Err_split in E as (pre & [n o] & post & s0 & _ & _ & E). unfold step in E.
    destruct (isDefReg o); [|done]. destruct (list_find _ _) as [[? []]|]; [done|].
    injection E as <-. auto with capsule.
Qed.

Lemma wf_gatherInputs i :
  match gatherInputs op i with Ok (v, _) => wf v | Err v => wf v end.
Proof.
  unfold gatherInputs. set (step := λ o acc, _). destruct (foldM step _ _) as [[v n]|v] eqn:E.
  - enough (H : wf (v, n).1) by done. revert E. apply (foldM_Ok_invariant _ (λ _ p, wf p.1)); [simpl; auto with capsule|].
    intros pre o [s0 n0] s1 _ Hs. unfold step. destruct (isUse o); [|by intros [= <-]].
    case_decide; [done|]. intros [= <-]. by apply join_wf.
  - apply foldM_Err_split in E as (pre & o & post & s0 & _ & _ & E). unfold step in E.
    destruct (isUse o); [|done]. case_decide; [|done]. by injection E as <-.
Qed.

Lemma wf_combine i v n : wf v → wf (combine op i v n).
Proof.
  intros Hv. pose proof (Hop (operandAt i 1)) as [Hm _]. unfold combine.
  repeat case_match; auto with capsule; apply wf_scalar.
  - by apply land_range.
  - assert (Hs : 0 <= Z.land imm 63) by (apply Z.land_nonneg; lia).
    assert (0 <= Z.shiftr (mask (op (operandAt i 1))) (Z.land imm 63)) by (apply Z.shiftr_nonneg; lia).
    split; [done|]. apply word_of_bits; [lia|done|]. intros k Hk.
    rewrite Z.shiftr_spec by lia. apply (word_high 64); [done|lia].
Qed.

Lemma wf_producedWith cx st i : wf_values st → wf (producedWith op cx st i).
Proof.
  intros Hst. unfold producedWith. pose proof (wf_gatherInputs i).
  repeat (case_match; auto using wf_asmValue, wf_loadValue, wf_combine with capsule).
Qed.
End wf_produced.

Lemma wf_producedAt left cx st before i : wf_values st → wf (producedAt left cx st before i).
Proof.
  intros Hst. revert before i. induction left as [|k IH]; intros before i; simpl;
    apply wf_producedWith; try done; intros o; apply wf_operandWith; try done.
  intros q [= <-]. apply IH.
Qed.

Lemma wf_operandAtDepth left cx st before o : wf_values st → wf (operandAtDepth left cx st before o).
Proof.
  intros Hst. apply wf_operandWith; [done|]. destruct left; [done|]. intros q [= <-] b i.
  by apply wf_producedAt.
Qed.

Lemma wf_clip bits32 n v : wf v → wf (clip bits32 n v).
Proof.
  intros Hv. unfold clip. case_decide; [|done]. apply wf_scalar, land_range; [lia|apply Hv].
Qed.

(** ** Sweeps *)

Section sweeps.
Context (f : mfunction).

(** The ranks of everything the solver writes. *)
Definition measure (st : values) : nat :=
  (sum_list_with (λ n, rank (virtualOf st n)) (definedRegs f) +
   sum_list_with (λ n, rank (slotValue st n)) (seq 0 (length (mf_frame f))))%nat.

Lemma sum_list_le {A} (g h : A → nat) l :
  (∀ x, x ∈ l → (g x <= h x)%nat) → (sum_list_with g l <= sum_list_with h l)%nat.
Proof.
  induction l as [|x l IH]; intros Hl; simpl; [done|].
  apply Nat.add_le_mono; [apply Hl; by left|]. apply IH. intros; apply Hl; by right.
Qed.

Lemma sum_list_lt {A} (g h : A → nat) l y :
  (∀ x, x ∈ l → (g x <= h x)%nat) → y ∈ l → (g y < h y)%nat →
  (sum_list_with g l < sum_list_with h l)%nat.
Proof.
  induction l as [|x l IH]; intros Hl Hy Hlt; [by apply not_elem_of_nil in Hy|]. simpl.
  assert (Hrest : ∀ z, z ∈ l → (g z <= h z)%nat) by (intros; apply Hl; by right).
  apply elem_of_cons in Hy as [->|Hy].
  - apply Nat.add_lt_le_mono; [done|]. by apply sum_list_le.
  - apply Nat.add_le_lt_mono; [apply Hl; by left|]. by apply IH.
Qed.

Record values_le (s1 s2 : values) : Prop := {
  vl_virtual n : le (virtualOf s1 n) (virtualOf s2 n);
  vl_slot n : le (slotValue s1 n) (slotValue s2 n);
}.

(** What a stretch of the sweep does to the state and the flag. *)
Record progress (acc acc' : values * bool) : Prop := {
  pg_wf : wf_values acc'.1;
  pg_le : values_le acc.1 acc'.1;
  pg_same : acc'.2 = false → acc.2 = false ∧ acc.1 ≡ acc'.1;
  pg_strict : acc'.2 = true → acc.2 = true ∨ (measure acc.1 < measure acc'.1)%nat;
}.

Lemma measure_le s1 s2 :
  wf_values s1 → wf_values s2 → values_le s1 s2 → (measure s1 <= measure s2)%nat.
Proof.
  intros H1 H2 [Hv Hs]. apply Nat.add_le_mono; apply sum_list_le; intros n _; apply rank_le; try done;
    solve [apply H1|apply H2].
Qed.

Lemma progress_refl acc : wf_values acc.1 → progress acc acc.
Proof. intros Hw. split; [done| |done|by left]. split; intros n; apply le_refl. Qed.

Lemma progress_trans a b c : wf_values a.1 → progress a b → progress b c → progress a c.
Proof.
  intros Ha [Hb [Hv Hs] Hsame Hst] [Hc [Hv' Hs'] Hsame' Hst'].
  assert (Hab : (measure a.1 <= measure b.1)%nat) by by apply measure_le.
  assert (Hbc : (measure b.1 <= measure c.1)%nat) by by apply measure_le.
  split; [done| | |].
  - split; intros n; eapply le_trans; done.
  - intros Hf. apply Hsame' in Hf as [Hf E']. apply Hsame in Hf as [Hf E]. split; [done|]. by etrans.
  - intros [Hf|?]%Hst'; [apply Hst in Hf as [?|?]; [by left|right; lia]|right; lia].
Qed.

Lemma virtualOf_insert st n v m :
  virtualOf (Values (<[n := v]> (virtuals st)) (slots st)) m = if decide (n = m) then v else virtualOf st m.
Proof.
  unfold virtualOf. simpl. destruct (decide (n = m)) as [->|].
  - by rewrite lookup_insert_eq.
  - by rewrite lookup_insert_ne.
Qed.

Lemma slotValue_insert st n v m :
  slotValue (Values (virtuals st) (<[n := v]> (slots st))) m = if decide (n = m) then v else slotValue st m.
Proof.
  unfold slotValue. simpl. destruct (decide (n = m)) as [->|].
  - by rewrite lookup_insert_eq.
  - by rewrite lookup_insert_ne.
Qed.

Lemma progress_virtual st changed n w :
  wf_values st → wf w → n ∈ definedRegs f →
  let next := join (virtualOf st n) w in
  progress (st, changed)
    (Values (<[n := next]> (virtuals st)) (slots st), changed || negb (bool_decide (virtualOf st n = next))).
Proof.
  intros Hst Hw Hn next. assert (Hnext : wf next) by (apply join_wf; [apply Hst|done]).
  assert (Hle : le (virtualOf st n) next) by apply join_le_l.
  assert (Hall : ∀ m, le (virtualOf st m) (virtualOf (Values (<[n := next]> (virtuals st)) (slots st)) m)).
  { intros m. rewrite virtualOf_insert. case_decide; [by subst|apply le_refl]. }
  assert (Hwf : wf_values (Values (<[n := next]> (virtuals st)) (slots st))).
  { intros m. rewrite virtualOf_insert. split; [|apply Hst]. case_decide; [done|apply Hst]. }
  split; simpl; [done|split; [done|intros m; apply le_refl]| |].
  - intros [-> Hc%negb_false_iff]%orb_false_iff. bool_to_prop. split; [done|].
    split; [|done]. intros m. rewrite virtualOf_insert. by case_decide; subst.
  - intros [->|Hc%negb_true_iff]%orb_true_iff; [by left|right]. bool_to_prop. unfold measure.
    apply Nat.add_lt_le_mono; [|done]. apply (sum_list_lt _ _ _ n); [|done|].
    + intros m _. apply rank_le; [apply Hst|apply Hwf|done].
    + rewrite virtualOf_insert, decide_True by done.
      destruct (rank_mono (virtualOf st n) next) as [?|?]; [apply Hst|done|done|done|done].
Qed.

Lemma progress_slot st changed n w :
  wf_values st → wf w → (n < length (mf_frame f))%nat →
  let next := join (slotValue st n) w in
  progress (st, changed)
    (Values (virtuals st) (<[n := next]> (slots st)), changed || negb (bool_decide (slotValue st n = next))).
Proof.
  intros Hst Hw Hn next. assert (Hnext : wf next) by (apply join_wf; [apply Hst|done]).
  assert (Hle : le (slotValue st n) next) by apply join_le_l.
  assert (Hall : ∀ m, le (slotValue st m) (slotValue (Values (virtuals st) (<[n := next]> (slots st))) m)).
  { intros m. rewrite slotValue_insert. case_decide; [by subst|apply le_refl]. }
  assert (Hwf : wf_values (Values (virtuals st) (<[n := next]> (slots st)))).
  { intros m. rewrite slotValue_insert. split; [apply Hst|]. case_decide; [done|apply Hst]. }
  split; simpl; [done|split; [intros m; apply le_refl|done]| |].
  - intros [-> Hc%negb_false_iff]%orb_false_iff. bool_to_prop. split; [done|].
    split; [done|]. intros m. rewrite slotValue_insert. by case_decide; subst.
  - intros [->|Hc%negb_true_iff]%orb_true_iff; [by left|right]. bool_to_prop. unfold measure.
    apply Nat.add_le_lt_mono; [done|]. apply (sum_list_lt _ _ _ n); [|apply elem_of_seq; lia|].
    + intros m _. apply rank_le; [apply Hst|apply Hwf|done].
    + rewrite slotValue_insert, decide_True by done.
      destruct (rank_mono (slotValue st n) next) as [?|?]; [apply Hst|done|done|done|done].
Qed.

(** ** Agreement of an instruction with a state *)

Definition def_stable (cx : context) (st : values) (before : list minstr) (i : minstr) (n : nat) : Prop :=
  join (virtualOf st n) (clip (mf_bits32 f) n (produced cx st before i)) = virtualOf st n.

Definition store_stable (cx : context) (st : values) (before : list minstr) (i : minstr) (s : nat) : Prop :=
  join (slotValue st s) (operand cx st before (operandAt i 0)) = slotValue st s.

Record stable (cx : context) (st : values) (before : list minstr) (i : minstr) : Prop := {
  sb_def n : OReg (Some (Virtual n)) true ∈ mi_operands i → def_stable cx st before i n;
  sb_store s : slotOf (cx_frame cx) i = Some s → mi_may_store i = true → store_stable cx st before i s;
}.

Lemma def_stable_equiv cx s1 s2 before i n :
  s1 ≡ s2 → def_stable cx s2 before i n → def_stable cx s1 before i n.
Proof. intros Hs. unfold def_stable. rewrite (produced_proper cx _ _ Hs before _ eq_refl i _ eq_refl). by rewrite (proj1 Hs). Qed.

Lemma store_stable_equiv cx s1 s2 before i n :
  s1 ≡ s2 → store_stable cx s2 before i n → store_stable cx s1 before i n.
Proof.
  intros Hs. unfold store_stable.
  rewrite (operand_proper cx _ _ Hs before _ eq_refl (operandAt i 0) _ eq_refl). by rewrite (proj2 Hs).
Qed.

Lemma stable_equiv cx s1 s2 before i : s1 ≡ s2 → stable cx s2 before i → stable cx s1 before i.
Proof.
  intros Hs [Hd Hst]. split.
  - intros n Hn. eapply def_stable_equiv; [done|]. by apply Hd.
  - intros s Hn Hm. eapply store_stable_equiv; [done|]. by apply Hst.
Qed.

Lemma definedRegs_elem i n :
  i ∈ allInstrs f → OReg (Some (Virtual n)) true ∈ mi_operands i → n ∈ definedRegs f.
Proof.
  intros Hi Ho. unfold definedRegs. apply elem_of_remove_dups, list_elem_of_bind.
  exists i. split; [|done]. apply list_elem_of_omap. by exists (OReg (Some (Virtual n)) true).
Qed.

Lemma slotOf_lt frame i s : slotOf frame i = Some s → (s < length frame)%nat.
Proof.
  unfold slotOf. intros H%head_Some_elem_of. apply list_elem_of_omap in H as (o & _ & Ho).
  destruct o; simplify_eq/=. case_match eqn:E; simplify_eq. bool_to_prop.
  unfold isSpillSlotObjectIndex in *. destruct (frame !! _) eqn:Ef; [|done]. by eapply lookup_lt_Some.
Qed.

Section instruction.
Context (cx : context) (before : list minstr) (i : minstr).
Context (Hi : i ∈ allInstrs f) (Hframe : cx_frame cx = mf_frame f).

Lemma solveDef_progress acc o :
  wf_values acc.1 → o ∈ mi_operands i →
  progress acc (solveDef (mf_bits32 f) cx before i acc o) ∧
  ((solveDef (mf_bits32 f) cx before i acc o).2 = false →
   ∀ n, o = OReg (Some (Virtual n)) true → def_stable cx acc.1 before i n).
Proof.
  intros Hw Ho. destruct acc as [st changed]. unfold solveDef.
  assert (Hid : progress (st, changed) (st, changed)) by by apply progress_refl.
  destruct o as [|[[n|]|] []| | | |]; try (split; [exact Hid|by intros _ m ?]).
  split.
  - apply progress_virtual; [done|apply wf_clip; by apply wf_producedAt|by eapply definedRegs_elem].
  - simpl. intros [_ Hc%negb_false_iff]%orb_false_iff. bool_to_prop. intros m [= <-]. by symmetry.
Qed.

Lemma solveDefs_progress acc :
  wf_values acc.1 →
  let acc' := foldl (solveDef (mf_bits32 f) cx before i) acc (mi_operands i) in
  progress acc acc' ∧
  (acc'.2 = false → ∀ n, OReg (Some (Virtual n)) true ∈ mi_operands i → def_stable cx acc.1 before i n).
Proof.
  intros Hw. apply (foldl_invariant (solveDef (mf_bits32 f) cx before i) (λ pre acc',
    progress acc acc' ∧ (acc'.2 = false → ∀ n, OReg (Some (Virtual n)) true ∈ pre →
      def_stable cx acc.1 before i n))).
  - split; [by apply progress_refl|]. by intros _ n ?%not_elem_of_nil.
  - intros pre o acc1 [post Hsplit] [Hp Hs].
    destruct (solveDef_progress acc1 o) as [Hp' Hs'].
    { apply Hp. }
    { rewrite Hsplit. apply elem_of_app. right. by left. }
    split; [by eapply progress_trans|].
    intros Hf n Hn. destruct (pg_same _ _ Hp' Hf) as [Hf1 _]. destruct (pg_same _ _ Hp Hf1) as [_ E].
    apply elem_of_app in Hn as [Hn|Hn%list_elem_of_singleton]; [by apply Hs|].
    eapply def_stable_equiv; [exact E|]. by apply Hs'.
Qed.

Lemma solveStore_progress acc :
  wf_values acc.1 →
  progress acc (solveStore cx before i acc) ∧
  ((solveStore cx before i acc).2 = false → ∀ s, slotOf (cx_frame cx) i = Some s →
   mi_may_store i = true → store_stable cx acc.1 before i s).
Proof.
  intros Hw. destruct acc as [st changed]. unfold solveStore.
  assert (Hid : progress (st, changed) (st, changed)) by by apply progress_refl.
  destruct (slotOf _ i) as [s|] eqn:Es; [destruct (mi_may_store i)|]; try (split; [exact Hid|done]).
  split.
  - apply progress_slot; [done|by apply wf_operandAtDepth|]. rewrite <-Hframe. by eapply slotOf_lt.
  - simpl. intros [_ Hc%negb_false_iff]%orb_false_iff. bool_to_prop. intros m [= <-] _. by symmetry.
Qed.

Lemma solveInstr_progress acc :
  wf_values acc.1 →
  progress acc (solveInstr (mf_bits32 f) cx before i acc) ∧
  ((solveInstr (mf_bits32 f) cx before i acc).2 = false → stable cx acc.1 before i).
Proof.
  intros Hw. unfold solveInstr. destruct (solveDefs_progress acc Hw) as [Hp Hs]. simpl in *.
  set (acc1 := foldl _ acc _) in *. destruct (solveStore_progress acc1 (pg_wf _ _ Hp)) as [Hp' Hs'].
  split; [by eapply progress_trans|]. intros Hf.
  destruct (pg_same _ _ Hp' Hf) as [Hf1 _]. destruct (pg_same _ _ Hp Hf1) as [_ E].
  split; [by apply Hs|]. intros s H1 H2. eapply store_stable_equiv; [exact E|]. by apply Hs'.
Qed.
End instruction.

Lemma solveBlock_progress cx before block acc :
  (∀ i, i ∈ block → i ∈ allInstrs f) → cx_frame cx = mf_frame f → wf_values acc.1 →
  progress acc (solveBlock (mf_bits32 f) cx before block acc) ∧
  ((solveBlock (mf_bits32 f) cx before block acc).2 = false →
   ∀ pre i post, block = pre ++ i :: post → stable cx acc.1 (reverse pre ++ before) i).
Proof.
  revert before acc. induction block as [|i block IH]; intros before acc Hin Hfr Hw; simpl.
  { split; [by apply progress_refl|]. by intros _ [] ? ? ?. }
  destruct (solveInstr_progress cx before i (Hin i ltac:(by left)) Hfr acc Hw) as [Hp Hs].
  set (acc1 := solveInstr _ _ _ _ _) in *.
  destruct (IH (i :: before) acc1) as [Hp' Hs'].
  { intros j Hj. apply Hin. by right. }
  { done. }
  { apply Hp. }
  split; [by eapply progress_trans|]. intros Hf pre j post Hsplit.
  destruct (pg_same _ _ Hp' Hf) as [Hf1 _]. destruct (pg_same _ _ Hp Hf1) as [_ E].
  destruct pre as [|k pre]; simplify_eq/=; [by apply Hs|].
  rewrite reverse_cons, <-app_assoc. simpl. eapply stable_equiv; [exact E|]. by eapply Hs'.
Qed.

(** Every instruction of the function agrees with the state. *)
Definition fixpoint (st : values) : Prop :=
  ∀ k block pre i post, mf_blocks f !! k = Some block → block = pre ++ i :: post →
    stable (contextOf f (Nat.eqb k 0)) st (reverse pre) i.

Lemma sweep_progress st :
  wf_values st → progress (st, false) (sweep f st) ∧ ((sweep f st).2 = false → fixpoint st).
Proof.
  intros Hw. unfold sweep.
  set (step := λ acc p, solveBlock _ _ _ _ _).
  enough (H : progress (st, false) (foldl step (st, false) (imap pair (mf_blocks f))) ∧
    ((foldl step (st, false) (imap pair (mf_blocks f))).2 = false →
     ∀ k block, (k, block) ∈ imap pair (mf_blocks f) → ∀ pre i post, block = pre ++ i :: post →
       stable (contextOf f (Nat.eqb k 0)) st (reverse pre) i)).
  { destruct H as [Hp Hs]. split; [done|]. intros Hf k block pre i post Hk Hb.
    eapply Hs; [done| |done]. by apply elem_of_lookup_imap_2. }
  apply (foldl_invariant step (λ done acc, progress (st, false) acc ∧ (acc.2 = false →
    ∀ k block, (k, block) ∈ done → ∀ pre i post, block = pre ++ i :: post →
       stable (contextOf f (Nat.eqb k 0)) st (reverse pre) i))).
  { split; [by apply progress_refl|]. by intros _ k b ?%not_elem_of_nil. }
  intros pre [k block] acc [post Hsplit] [Hp Hs]. unfold step. simpl.
  destruct (solveBlock_progress (contextOf f (Nat.eqb k 0)) [] block acc) as [Hp' Hs'].
  { intros i Hi. assert (Hk : (k, block) ∈ imap pair (mf_blocks f)).
    { rewrite Hsplit. apply elem_of_app. right. by left. }
    apply elem_of_lookup_imap in Hk as (k' & b' & [= <- <-] & Hk). unfold allInstrs.
    apply list_elem_of_In, in_concat. exists block. split; apply list_elem_of_In; [|done].
    by eapply list_elem_of_lookup_2. }
  { done. }
  { apply Hp. }
  split; [by eapply progress_trans|].
  intros Hf k' block' Hin pre' i post' Hb. destruct (pg_same _ _ Hp' Hf) as [Hf1 _].
  destruct (pg_same _ _ Hp Hf1) as [_ E].
  apply elem_of_app in Hin as [Hin|[= -> ->]%list_elem_of_singleton]; [by eapply Hs|].
  eapply stable_equiv; [exact E|]. rewrite <-(app_nil_r (reverse pre')). by eapply Hs'.
Qed.

(** ** The loop ends *)

Lemma measure_bound st : (measure st <= 66 * (length (definedRegs f) + length (mf_frame f)))%nat.
Proof.
  assert (Hb : ∀ (g : nat → Value) l, (sum_list_with (λ n, rank (g n)) l <= 66 * length l)%nat).
  { intros g l. induction l as [|x l IH]; simpl; [done|]. pose proof (rank_le_66 (g x)). lia. }
  unfold measure. pose proof (Hb (virtualOf st) (definedRegs f)).
  pose proof (Hb (slotValue st) (seq 0 (length (mf_frame f)))). rewrite length_seq in *. lia.
Qed.

Lemma solve_total fuel st :
  wf_values st → (66 * (length (definedRegs f) + length (mf_frame f)) < fuel + measure st)%nat →
  ∃ st', solve fuel f st = Some st' ∧ wf_values st' ∧ fixpoint st'.
Proof.
  revert st. induction fuel as [|fuel IH]; intros st Hw Hfuel.
  { pose proof (measure_bound st). lia. }
  simpl. destruct (sweep_progress st Hw) as [Hp Hs]. destruct (sweep f st) as [st1 changed]. simpl in *.
  destruct changed.
  - apply IH; [apply Hp|]. destruct (pg_strict _ _ Hp eq_refl); simpl in *; [done|lia].
  - exists st1. split; [done|]. split; [apply Hp|].
    destruct (pg_same _ _ Hp eq_refl) as [_ E]. simpl in E.
    intros k block pre i post Hk Hb. eapply stable_equiv; [by symmetry|]. by eapply Hs.
Qed.
End sweeps.

Lemma wf_emptyValues : wf_values emptyValues.
Proof. intros n. unfold virtualOf, slotValue. simpl. rewrite !lookup_empty. split; apply wf_bottom. Qed.
