(* ===== verification/SpillSlotSound.v ===== *)
(** * Soundness of the spill-slot analysis

    A value is an integer, an arena pointer or a native pointer - the types
    the verifier distinguishes.  What one machine instruction computes is a
    parameter with the laws the analysis relies on ([MachineSem]); the state
    of a function, the effect of an instruction on registers and spill slots,
    and the sequences of blocks are defined here.  At a fixed point of the
    analysis every reachable state is described by it. *)

From Stdlib Require Import ZArith Lia.
From stdpp Require Import base numbers list gmap sets fin_maps strings relations.
From S2P Require Import Prelude SpillSlotPlan SpillSlotFacts.

Import SpillSlotPlan.
Local Open Scope Z_scope.

(** ** Values *)

Inductive cval := CInt (z : Z) | CArena (z : Z) | CNative (z : Z).

(** The values a lattice point stands for. *)
Definition gamma (v : Value) (c : cval) : Prop :=
  match kind v with
  | Bottom => False
  | Scalar => ∃ z, c = CInt z ∧ 0 <= z < 2 ^ 64 ∧ submask z (mask v)
  | Arena => ∃ z, c = CArena z
  | Native => True
  end.

Definition low32 (c : cval) : cval := match c with CInt z => CInt (u32 z) | _ => c end.

(** [c] is [v], or its low half in a 32-bit operation. *)
Definition same_or_low (v c : cval) : Prop := c = v ∨ c = low32 v.

Lemma gamma_le a b c : le a b → gamma a c → gamma b c.
Proof.
  unfold le, gamma. intros [Ha|[Hb|[Hk Hm]]]; [by rewrite Ha|by rewrite Hb|].
  rewrite <-Hk. destruct (kind a); try done. intros (z & -> & Hz & Hs). exists z.
  split_and!; try done; try lia. by etrans.
Qed.

Lemma gamma_native c : gamma native c.
Proof. done. Qed.
#[export] Hint Resolve gamma_native : capsule.

Lemma gamma_scalar m z : 0 <= z < 2 ^ 64 → submask z m → gamma (scalar m) (CInt z).
Proof. intros. by exists z. Qed.

Lemma gamma_anyScalar z : 0 <= z < 2 ^ 64 → gamma anyScalar (CInt z).
Proof.
  intros Hz. apply gamma_scalar; [done|]. intros k Hk. unfold UINT64_MAX.
  replace (2 ^ 64 - 1) with (Z.ones 64) by done. apply Z.ones_spec_low.
  destruct (decide (k < 0)); [by rewrite Z.testbit_neg_r in Hk|].
  destruct (decide (64 <= k)); [by rewrite (word_high 64) in Hk by lia|lia].
Qed.

Lemma u32_word z : 0 <= z < 2 ^ 64 → 0 <= u32 z < 2 ^ 64.
Proof. intros. pose proof (wrap_range 32 z ltac:(lia)). unfold u32. lia. Qed.

Lemma gamma_low v c : gamma v c → gamma v (low32 c).
Proof.
  unfold gamma. destruct (kind v) eqn:E; try done.
  - intros (z & -> & Hz & Hs). exists (u32 z). split_and!; [done|apply u32_word; lia|apply u32_word; lia|].
    etrans; [|done]. apply submask_wrap; lia.
  - intros (z & ->). by exists z.
Qed.

Lemma gamma_same_or_low v c c' : gamma v c → same_or_low c c' → gamma v c'.
Proof. intros Hv [->| ->]; [done|]. by apply gamma_low. Qed.

(** ** What one instruction computes

    [exec i rd sl k c]: executing [i], whose operands read as [rd] and whose
    spill slots hold [sl], puts [c] in its output operand [k].  The laws are
    the behaviour of the BPF instructions the pass names: address-space casts
    make arena pointers or integers, immediates, copies and reloads transfer
    values, other loads give integers unless they read a borrowed context
    object, an integer operation on integers gives an integer, and arena
    pointers support addition and subtraction. *)
Definition int_word (c : cval) : Prop := ∃ z, c = CInt z ∧ 0 <= z < 2 ^ 64.

(** The opcodes [produced] handles before it looks at memory and inputs. *)
Definition isMove (op : string) : bool :=
  String.eqb op "ADDR_SPACE_CAST" || String.eqb op "LD_imm64" || String.prefix "MOV_ri" op || isCopy op.

Class MachineSem (exec : minstr → (moperand → option cval) → (nat → option cval) → nat → cval → Prop)
    (args : list argument) (frame : list frame_object) : Prop := {
  ms_cast i rd sl k c : exec i rd sl k c → mi_opcode i = "ADDR_SPACE_CAST"%string →
    if immOf (operandAt i 3) =? 1 then ∃ z, c = CArena z else int_word c;
  ms_imm i rd sl k c z : exec i rd sl k c →
    mi_opcode i = "LD_imm64"%string ∨ String.prefix "MOV_ri" (mi_opcode i) = true →
    operandAt i 1 = OImm z → same_or_low (CInt (u64 z)) c;
  ms_copy i rd sl k c : exec i rd sl k c → isCopy (mi_opcode i) = true →
    ∃ v, rd (operandAt i 1) = Some v ∧ same_or_low v c;
  (* an empty template leaves an output with the input tied to it *)
  ms_asm i rd sl k c input : exec i rd sl k c → isMove (mi_opcode i) = false →
    mi_inline_asm i = true → operandAt i 0 = OSymbol EmptyString →
    snd <$> list_find (λ t, t.1 = k) (mi_tied i) = Some (k, input) →
    ∃ v, rd (operandAt i input) = Some v ∧ same_or_low v c;
  ms_output i rd sl k c : exec i rd sl k c → ∃ o, mi_operands i !! k = Some o ∧ isDefReg o = true;
  ms_reload i rd sl k c s : exec i rd sl k c → isMove (mi_opcode i) = false → mi_inline_asm i = false →
    mi_may_load i = true → slotOf frame i = Some s → ∃ v, sl s = Some v ∧ same_or_low v c;
  ms_load i rd sl k c : exec i rd sl k c → isMove (mi_opcode i) = false → mi_inline_asm i = false →
    mi_may_load i = true → slotOf frame i = None →
    existsb (λ mm, match mm_object mm with Some o => contextObject args o | None => false end)
      (mi_memory i) = false →
    ∃ z, c = CInt z ∧ 0 <= z < 2 ^ 64 ∧
      (ends_with "SX" (mi_opcode i) = false → ∀ bytes, head (omap narrowSize (mi_memory i)) = Some bytes →
         z < 2 ^ (8 * bytes));
  (* other instructions read every input *)
  ms_reads i rd sl k c o : exec i rd sl k c → isMove (mi_opcode i) = false → mi_inline_asm i = false →
    mi_may_load i = false → o ∈ mi_operands i → isUse o = true → is_Some (rd o);
  ms_add i rd sl k c : exec i rd sl k c → mi_may_load i = false →
    String.prefix "ADD_" (mi_opcode i) || String.prefix "SUB_" (mi_opcode i) = true →
    (∀ o v, o ∈ mi_operands i → isUse o = true → rd o = Some v → int_word v) → int_word c;
  ms_add_arena i rd sl k c pre o post : exec i rd sl k c → mi_may_load i = false →
    String.prefix "ADD_" (mi_opcode i) || String.prefix "SUB_" (mi_opcode i) = true →
    mi_operands i = pre ++ o :: post → (∃ z, rd o = Some (CArena z)) →
    (∀ o v, o ∈ pre ++ post → isUse o = true → rd o = Some v → int_word v) → ∃ z, c = CArena z;
  ms_and i rd sl k c a imm : exec i rd sl k c → mi_may_load i = false →
    String.prefix "AND_" (mi_opcode i) = true → operandAt i 2 = OImm imm →
    rd (operandAt i 1) = Some (CInt a) → same_or_low (CInt (Z.land a (u64 imm))) c;
  ms_sll i rd sl k c a imm : exec i rd sl k c → mi_may_load i = false →
    String.prefix "SLL_" (mi_opcode i) = true → operandAt i 2 = OImm imm →
    rd (operandAt i 1) = Some (CInt a) →
    same_or_low (CInt (u64 (Z.shiftl a (Z.land imm 63)))) c;
  ms_srl i rd sl k c a imm : exec i rd sl k c → mi_may_load i = false →
    String.prefix "SRL_" (mi_opcode i) = true → operandAt i 2 = OImm imm →
    rd (operandAt i 1) = Some (CInt a) →
    c = CInt (Z.shiftr a (Z.land imm 63)) ∨ c = CInt (Z.shiftr (u32 a) (Z.land imm 63));
  ms_alu i rd sl k c : exec i rd sl k c → isMove (mi_opcode i) = false → mi_may_load i = false →
    existsb (λ family, String.prefix family (mi_opcode i)) ScalarOps = true →
    (∀ o v, o ∈ mi_operands i → isUse o = true → rd o = Some v → int_word v) → int_word c;
  (* operand 1 of these is one of the inputs *)
  ms_shape i rd sl k c : exec i rd sl k c →
    String.prefix "AND_" (mi_opcode i) = true ∨ String.prefix "SLL_" (mi_opcode i) = true ∨
      String.prefix "SRL_" (mi_opcode i) = true →
    operandAt i 1 ∈ mi_operands i ∧ isUse (operandAt i 1) = true;
}.

(** ** Transfer functions are sound *)

Section transfer.
Context {exec args frame} `{!MachineSem exec args frame}.
Context (cx : context) (st : values) (op : moperand → Value).
Context (rd : moperand → option cval) (sl : nat → option cval).
Context (Hargs : cx_args cx = args) (Hframe : cx_frame cx = frame).
Context (Hwf : ∀ o, wf (op o)).
Context (Hrd : ∀ o v, rd o = Some v → gamma (op o) v).
Context (Hsl : ∀ s v, sl s = Some v → gamma (slotValue st s) v).

Definition arenaUse (o : moperand) : Z :=
  if isUse o then if decide (kind (op o) = Arena) then 1 else 0 else 0.

Lemma gather_Ok l acc acc' :
  foldM (λ input acc,
           if isUse input then
             let value := op input in
             if decide (kind value = Native ∨ kind value = Bottom) then Err value
             else Ok (join acc.1 value, acc.2 + (if decide (kind value = Arena) then 1 else 0))
           else Ok acc) l acc = Ok acc' →
  acc'.2 = acc.2 + Zsum arenaUse l ∧
  ∀ o, o ∈ l → isUse o = true → kind (op o) = Scalar ∨ kind (op o) = Arena.
Proof.
  revert acc. induction l as [|o l IH]; intros acc; simpl.
  { intros [= <-]. split; [lia|by intros o ?%not_elem_of_nil]. }
  unfold arenaUse at 1. destruct (isUse o) eqn:Eu.
  - case_decide as Hk; [done|]. intros [Hn Hl]%IH. simpl in Hn. split; [lia|].
    intros x [->|Hx]%elem_of_cons Hux; [|by apply Hl]. destruct (kind (op o)); tauto.
  - intros [Hn Hl]%IH. split; [lia|]. intros x [->|Hx]%elem_of_cons Hux; [congruence|by apply Hl].
Qed.

Lemma arenaUse_bound o : 0 <= arenaUse o <= 1.
Proof. unfold arenaUse. repeat case_match; lia. Qed.

Lemma arenas_zero l o : Zsum arenaUse l = 0 → o ∈ l → isUse o = true → kind (op o) ≠ Arena.
Proof.
  intros Hs Ho Hu Hk. apply list_elem_of_split in Ho as (l1 & l2 & ->). rewrite Zsum_app in Hs. simpl in Hs.
  assert (Hpos : ∀ l, 0 <= Zsum arenaUse l).
  { intros l. induction l as [|x l IH]; simpl; [lia|]. pose proof (arenaUse_bound x). lia. }
  pose proof (Hpos l1). pose proof (Hpos l2). unfold arenaUse at 2 in Hs.
  rewrite Hu, decide_True in Hs by done. lia.
Qed.

Lemma arenas_one l : Zsum arenaUse l = 1 →
  ∃ pre o post, l = pre ++ o :: post ∧ isUse o = true ∧ kind (op o) = Arena ∧
    Zsum arenaUse (pre ++ post) = 0.
Proof.
  induction l as [|x l IH]; simpl; [lia|]. intros Hs. unfold arenaUse at 1 in Hs.
  destruct (isUse x) eqn:Eu; [case_decide as Hk|].
  - exists [], x, l. split_and!; [done|done|done|simpl; lia].
  - destruct IH as (pre & o & post & -> & ? & ? & ?); [lia|]. exists (x :: pre), o, post.
    split_and!; [done|done|done|]. simpl. unfold arenaUse at 1. rewrite Eu, decide_False by done. lia.
  - destruct IH as (pre & o & post & -> & ? & ? & ?); [lia|]. exists (x :: pre), o, post.
    split_and!; [done|done|done|]. simpl. unfold arenaUse at 1. rewrite Eu. lia.
Qed.

Lemma gamma_int v c : kind v = Scalar → gamma v c → int_word c.
Proof. unfold gamma. intros ->. intros (z & -> & ? & _). by exists z. Qed.

Lemma gamma_int_word c : int_word c → gamma anyScalar c.
Proof. intros (z & -> & Hz). by apply gamma_anyScalar. Qed.

Lemma asm_sound i k c :
  exec i rd sl k c → isMove (mi_opcode i) = false → mi_inline_asm i = true → gamma (asmValue op i) c.
Proof.
  intros He Hm Hi. unfold asmValue.
  destruct (operandAt i 0) as [| | | |[]|] eqn:E0; auto with capsule.
  set (step := λ p acc, _). destruct (foldM step _ _) as [v|v] eqn:E.
  - destruct (ms_output _ _ _ _ _ He) as (o & Hk & Hdef).
    set (P := λ (pre : list (nat * moperand)) (v : Value), wf v ∧ ((k, o) ∈ pre → ∃ input,
      snd <$> list_find (λ t, t.1 = k) (mi_tied i) = Some (k, input) ∧ le (op (operandAt i input)) v)).
    assert (HP : P (imap pair (mi_operands i)) v).
    { revert E. apply foldM_Ok_invariant; [split; [apply wf_bottom|by intros ?%not_elem_of_nil]|].
      intros pre [n x] s0 s1 _ [Hw Hs]. unfold step. destruct (isDefReg x) eqn:Ex.
      - destruct (list_find (λ t, t.1 = n) (mi_tied i)) as [[j [a b]]|] eqn:Ef; [|done]. intros [= <-].
        split; [by apply join_wf|]. intros [Hin|[= -> ->]%list_elem_of_singleton]%elem_of_app.
        + destruct (Hs Hin) as (input & ? & ?). exists input. split; [done|].
          eapply le_trans; [done|apply join_le_l].
        + exists b. apply list_find_Some in Ef as Ef'. simpl in Ef'. destruct Ef' as (_ & -> & _).
          rewrite Ef. split; [done|]. by apply join_le_r.
      - intros [= <-]. split; [done|]. intros [Hin|[= -> ->]%list_elem_of_singleton]%elem_of_app; [auto|].
        congruence. }
    destruct HP as (_ & input & Ht & Hle); [by apply elem_of_lookup_imap_2|].
    destruct (ms_asm _ _ _ _ _ input He Hm Hi E0 Ht) as (w & Hw & Hc).
    eapply gamma_le; [done|]. eapply gamma_same_or_low; [|done]. by apply Hrd.
  - apply foldM_Err_split in E as (pre & [n x] & post & s0 & _ & _ & E). unfold step in E.
    destruct (isDefReg x); [|done]. destruct (list_find _ _) as [[? []]|]; [done|].
    injection E as <-. auto with capsule.
Qed.

Lemma load_sound i k c :
  exec i rd sl k c → isMove (mi_opcode i) = false → mi_inline_asm i = false → mi_may_load i = true →
  gamma (loadValue cx st i) c.
Proof.
  intros He Hm Hi Hl. unfold loadValue. rewrite Hframe, Hargs. destruct (slotOf frame i) as [s|] eqn:Es.
  - destruct (ms_reload _ _ _ _ _ s He Hm Hi Hl Es) as (v & Hv & Hc).
    eapply gamma_same_or_low; [|done]. by apply Hsl.
  - destruct (existsb _ _) eqn:Ec; [auto with capsule|].
    destruct (ms_load _ _ _ _ _ He Hm Hi Hl Es Ec) as (z & -> & Hz & Hn).
    destruct (ends_with "SX" (mi_opcode i)) eqn:Ex; simpl; [by apply gamma_anyScalar|].
    destruct (head _) as [bytes|] eqn:Eh; [|by apply gamma_anyScalar].
    specialize (Hn eq_refl bytes eq_refl). apply narrow_head in Eh.
    apply gamma_scalar; [done|]. intros b Hb. unfold maskTrailingOnes. apply Z.ones_spec_low.
    destruct (decide (b < 0)); [by rewrite Z.testbit_neg_r in Hb|].
    destruct (decide (8 * bytes <= b)); [|lia].
    by rewrite (word_high (8 * bytes)) in Hb by lia.
Qed.

(** The inputs of an instruction that reads them all. *)
Section inputs.
Context (i : minstr) (k : nat) (c : cval).
Context (He : exec i rd sl k c).
Context (Hmove : isMove (mi_opcode i) = false) (Hasm : mi_inline_asm i = false).
Context (Hload : mi_may_load i = false).

Lemma inputs_int l :
  (∀ o, o ∈ l → isUse o = true → kind (op o) = Scalar ∨ kind (op o) = Arena) →
  Zsum arenaUse l = 0 → ∀ o v, o ∈ l → isUse o = true → rd o = Some v → int_word v.
Proof.
  intros Hk Hz o v Ho Hu Hv. eapply gamma_int; [|by apply Hrd].
  pose proof (arenas_zero l o Hz Ho Hu). destruct (Hk o Ho Hu); tauto.
Qed.

Lemma add_sound n :
  String.prefix "ADD_" (mi_opcode i) || String.prefix "SUB_" (mi_opcode i) = true →
  n = Zsum arenaUse (mi_operands i) →
  (∀ o, o ∈ mi_operands i → isUse o = true → kind (op o) = Scalar ∨ kind (op o) = Arena) →
  gamma (if negb (n =? 0) then if n =? 1 then arena else native else anyScalar) c.
Proof.
  intros Hop -> Hk. destruct (Zsum _ _ =? 0) eqn:E0; bool_to_prop; simpl.
  - apply gamma_int_word. eapply ms_add; [done|done|done|]. by apply inputs_int.
  - destruct (Zsum _ _ =? 1) eqn:E1; bool_to_prop; [|done].
    destruct (arenas_one _ E1) as (pre & o & post & Hsplit & Hu & Ho & Hz).
    assert (Hin : o ∈ mi_operands i) by (rewrite Hsplit; apply elem_of_app; right; by left).
    destruct (ms_reads _ _ _ _ _ o He Hmove Hasm Hload Hin Hu) as [v Hv].
    eapply (ms_add_arena _ _ _ _ _ pre o post); [done|done|done|done| |].
    + pose proof (Hrd o v Hv) as Hg. unfold gamma in Hg. rewrite Ho in Hg. destruct Hg as [z ->]. eauto.
    + apply inputs_int; [|done]. intros x Hx. apply Hk. rewrite Hsplit. set_solver.
Qed.

(** The first input of an operation on integers. *)
Lemma first_input :
  String.prefix "AND_" (mi_opcode i) = true ∨ String.prefix "SLL_" (mi_opcode i) = true ∨
    String.prefix "SRL_" (mi_opcode i) = true →
  Zsum arenaUse (mi_operands i) = 0 →
  (∀ o, o ∈ mi_operands i → isUse o = true → kind (op o) = Scalar ∨ kind (op o) = Arena) →
  ∃ a, rd (operandAt i 1) = Some (CInt a) ∧ 0 <= a < 2 ^ 64 ∧ submask a (mask (op (operandAt i 1))).
Proof.
  intros Hop Hz Hk. destruct (ms_shape _ _ _ _ _ He Hop) as [Hin Hu].
  destruct (ms_reads _ _ _ _ _ _ He Hmove Hasm Hload Hin Hu) as [v Hv].
  pose proof (Hrd _ _ Hv) as Hg. unfold gamma in Hg.
  pose proof (arenas_zero _ _ Hz Hin Hu). destruct (Hk _ Hin Hu) as [E|?]; [|done].
  rewrite E in Hg. destruct Hg as (a & -> & Ha & Hm). eauto.
Qed.

Lemma shift_left_sound a imm m :
  0 <= a < 2 ^ 64 → 0 <= m → submask a m →
  gamma (scalar (u64 (Z.shiftl m (Z.land imm 63)))) (CInt (u64 (Z.shiftl a (Z.land imm 63)))).
Proof.
  intros Ha Hm Hs. apply gamma_scalar; [by apply wrap_range|]. intros b Hb.
  assert (0 <= Z.land imm 63) by (apply Z.land_nonneg; lia).
  destruct (decide (b < 0)); [by rewrite Z.testbit_neg_r in Hb|].
  unfold u64, wrap in *. rewrite <-!Z.land_ones in * by lia. rewrite !Z.land_spec, !andb_true_iff in *.
  destruct Hb as [Hb ?]. split; [|done]. rewrite Z.shiftl_spec in * by lia. by apply Hs.
Qed.

Lemma shift_right_sound a imm m :
  0 <= a < 2 ^ 64 → submask a m →
  gamma (scalar (Z.shiftr m (Z.land imm 63))) (CInt (Z.shiftr a (Z.land imm 63))).
Proof.
  intros Ha Hs. assert (0 <= Z.land imm 63) by (apply Z.land_nonneg; lia).
  assert (0 <= Z.shiftr a (Z.land imm 63)) by (apply Z.shiftr_nonneg; lia).
  apply gamma_scalar.
  - split; [done|]. apply word_of_bits; [lia|done|]. intros b Hb. rewrite Z.shiftr_spec by lia.
    apply (word_high 64); lia.
  - intros b Hb. destruct (decide (b < 0)); [by rewrite Z.testbit_neg_r in Hb|].
    rewrite Z.shiftr_spec in * by lia. by apply Hs.
Qed.

Lemma combine_sound inputs n :
  mi_opcode i ≠ "PHI"%string → n = Zsum arenaUse (mi_operands i) →
  (∀ o, o ∈ mi_operands i → isUse o = true → kind (op o) = Scalar ∨ kind (op o) = Arena) →
  gamma (combine op i inputs n) c.
Proof.
  intros Hphi Hn Hk. unfold combine. cbv zeta.
  destruct (String.eqb_spec (mi_opcode i) "PHI"); [done|].
  destruct (String.prefix "ADD_" (mi_opcode i) || _) eqn:Eadd; [by apply add_sound|].
  destruct (n =? 0) eqn:E0; bool_to_prop; cbn [negb]; [|done].
  assert (Hz : Zsum arenaUse (mi_operands i) = 0) by lia.
  assert (Hfall : gamma (if existsb (λ family, String.prefix family (mi_opcode i)) ScalarOps
    then anyScalar else native) c).
  { destruct (existsb _ _) eqn:Es; [|done]. apply gamma_int_word.
    eapply ms_alu; [done|done|done|done|]. by apply inputs_int. }
  revert Hfall. generalize (if existsb (λ family, String.prefix family (mi_opcode i)) ScalarOps
    then anyScalar else native) as fallback. intros fallback Hfall.
  destruct (operandAt i 2) as [imm| | | | |] eqn:E2; try exact Hfall.
  destruct (String.prefix "AND_" (mi_opcode i) && _) eqn:Eand; bool_to_prop.
  - destruct first_input as (a & Hrd1 & Ha & Hm); [auto|done|done|].
    eapply gamma_same_or_low; [|eapply ms_and; done].
    apply gamma_scalar; [apply land_range; lia|]. by apply submask_land_mono.
  - destruct (String.prefix "SLL_" (mi_opcode i)) eqn:Esll; simpl.
    + destruct first_input as (a & Hrd1 & Ha & Hm); [auto|done|done|].
      eapply gamma_same_or_low; [|eapply ms_sll; done].
      apply shift_left_sound; [done|apply Hwf|done].
    + destruct (String.prefix "SRL_" (mi_opcode i)) eqn:Esrl; [|exact Hfall].
      destruct first_input as (a & Hrd1 & Ha & Hm); [auto|done|done|].
      destruct (ms_srl _ _ _ _ _ a imm He Hload Esrl E2 Hrd1) as [->| ->]; apply shift_right_sound; try done.
      * by apply u32_word.
      * etrans; [|done]. apply submask_wrap; lia.
Qed.
End inputs.

Lemma produced_sound i k c :
  exec i rd sl k c → mi_opcode i ≠ "PHI"%string → gamma (producedWith op cx st i) c.
Proof.
  intros He Hphi. unfold producedWith.
  destruct (String.eqb_spec (mi_opcode i) "ADDR_SPACE_CAST") as [E|N1].
  { pose proof (ms_cast _ _ _ _ _ He E) as Hc. destruct (_ =? 1); [done|]. by apply gamma_int_word. }
  destruct (String.eqb (mi_opcode i) "LD_imm64" || String.prefix "MOV_ri" (mi_opcode i)) eqn:Eimm.
  { destruct (operandAt i 1) as [z| | | | |] eqn:E1; auto with capsule.
    assert (Hop : mi_opcode i = "LD_imm64"%string ∨ String.prefix "MOV_ri" (mi_opcode i) = true).
    { apply orb_true_iff in Eimm as [?%String.eqb_eq|?]; auto. }
    eapply gamma_same_or_low; [|by eapply ms_imm]. apply gamma_scalar; [by apply wrap_range|done]. }
  destruct (isCopy (mi_opcode i)) eqn:Ecopy.
  { destruct (ms_copy _ _ _ _ _ He Ecopy) as (v & Hv & Hc).
    eapply gamma_same_or_low; [|done]. by apply Hrd. }
  assert (Hmove : isMove (mi_opcode i) = false).
  { unfold isMove. apply orb_false_iff in Eimm as [-> ->]. rewrite Ecopy.
    destruct (String.eqb_spec (mi_opcode i) "ADDR_SPACE_CAST"); done. }
  destruct (mi_inline_asm i) eqn:Easm; [by eapply asm_sound|].
  destruct (mi_may_load i) eqn:Eload; [by eapply load_sound|].
  unfold gatherInputs. destruct (foldM _ _ _) as [[v n]|v] eqn:Eg.
  - apply gather_Ok in Eg as [Hn Hk]. simpl in Hn. eapply combine_sound; done || lia.
  - apply foldM_Err_split in Eg as (pre & o & post & s0 & Hsplit & _ & E).
    destruct (isUse o) eqn:Hu; [|done]. simpl in E. case_decide as Hk; [|done]. injection E as <-.
    destruct (ms_reads _ _ _ _ _ o He Hmove Easm Eload) as [w Hw]; [|done|].
    { rewrite Hsplit. apply elem_of_app. right. by left. }
    pose proof (Hrd o w Hw) as Hg. unfold gamma in *. by destruct Hk as [Hk|Hk]; rewrite Hk in *.
Qed.
End transfer.

(** ** Machine states *)

Record mstate := MState {
  ms_virtual : gmap nat cval;
  ms_physical : gmap string cval;
  ms_slots : gmap nat cval;
}.

Definition readOperand (s : mstate) (o : moperand) : option cval :=
  match o with
  | OImm z => Some (CInt (u64 z))
  | OReg (Some (Virtual n)) _ => ms_virtual s !! n
  | OReg (Some (Physical r)) _ => ms_physical s !! r
  | _ => None
  end.

(** A value of an argument or return type. *)
Definition typed (t : irtype) (c : cval) : Prop :=
  match t with
  | TPointer addressSpace => addressSpace = 1 → ∃ z, c = CArena z
  | TInteger => int_word c
  | TOther => True
  end.

Section machine.
Context (exec : minstr → (moperand → option cval) → (nat → option cval) → nat → cval → Prop).
Context (f : mfunction).

(** The effect of one instruction: each output gets a value of [exec], cut to
    the width of its register; a call leaves its result, of the callee's
    return type, in R0 and anything in the other registers it clobbers; a
    spill store writes its operand 0. *)
Record step (i : minstr) (s s' : mstate) : Prop := {
  st_virtual n c : ms_virtual s' !! n = Some c →
    OReg (Some (Virtual n)) true ∉ mi_operands i ∧ ms_virtual s !! n = Some c ∨
    OReg (Some (Virtual n)) true ∈ mi_operands i ∧ ∃ k v, exec i (readOperand s) (ms_slots s !!.) k v ∧
      c = if decide (n ∈ mf_bits32 f) then low32 v else v;
  st_physical r c : ms_physical s' !! r = Some c →
    r ∉ mi_modifies i ∧ ms_physical s !! r = Some c ∨
    r ∈ mi_modifies i ∧
      (if mi_call i
       then r = "R0"%string → ∀ ret, head (omap (λ o, match o with OGlobal (GFunction ret) => Some ret
                                                    | _ => None end) (mi_operands i)) = Some ret →
              typed ret c
       else ∃ k v, exec i (readOperand s) (ms_slots s !!.) k v ∧ same_or_low v c);
  st_slot n c : ms_slots s' !! n = Some c →
    ms_slots s !! n = Some c ∨
    slotOf (mf_frame f) i = Some n ∧ mi_may_store i = true ∧ readOperand s (operandAt i 0) = Some c;
}.

(** A block from its first instruction to any point of it. *)
Inductive runs : list minstr → list minstr → mstate → mstate → Prop :=
| runs_nil before s : runs before [] s s
| runs_cons before i block s s1 s' :
    step i s s1 → runs (i :: before) block s1 s' → runs before (i :: block) s s'.

(** Function entry: no virtual register or slot is defined, and the argument
    registers hold values of the argument types. *)
Definition entry_state (s : mstate) : Prop :=
  ms_virtual s = ∅ ∧ ms_slots s = ∅ ∧
  ∀ r c n a, ms_physical s !! r = Some c → argumentRegister r = Some n → mf_args f !! n = Some a →
    typed (arg_type a) c.

(** The states at the end of a prefix of some block on some path of blocks
    that starts in the entry block and never returns to it. *)
Inductive reachable : mstate → Prop :=
| reach_entry s0 block pre post s :
    entry_state s0 → mf_blocks f !! 0%nat = Some block → block = pre ++ post →
    runs [] pre s0 s → reachable s
| reach_block s0 k block pre post s :
    reachable s0 → mf_blocks f !! S k = Some block → block = pre ++ post →
    runs [] pre s0 s → reachable s.

(** ** Soundness at a fixed point *)

Context `{!MachineSem exec (mf_args f) (mf_frame f)}.
Context (st : values) (Hst : wf_values st) (Hfix : fixpoint f st).
Context (Hphi : ∀ i, i ∈ allInstrs f → mi_opcode i ≠ "PHI"%string).

Record described (s : mstate) : Prop := {
  ds_virtual n c : ms_virtual s !! n = Some c → gamma (virtualOf st n) c;
  ds_slot n c : ms_slots s !! n = Some c → gamma (slotValue st n) c;
}.

(** The physical registers at a point of a block, at every depth. *)
Definition described_at (cx : context) (before : list minstr) (s : mstate) : Prop :=
  ∀ depth r c, ms_physical s !! r = Some c →
    gamma (operandAtDepth depth cx st before (OReg (Some (Physical r)) false)) c.

Lemma gamma_typed t c : typed t c → gamma (typeOf t) c.
Proof.
  destruct t; simpl; [|apply gamma_int_word|done]. intros Ht.
  destruct (_ =? 1) eqn:E; bool_to_prop; [by apply Ht|done].
Qed.

Lemma operand_described cx before s depth o c :
  described s → described_at cx before s → readOperand s o = Some c →
  gamma (operandAtDepth depth cx st before o) c.
Proof.
  intros [Hv _] Hp. unfold readOperand. destruct o as [z|[[n|r]|] d| | | |]; try done.
  - intros [= <-]. apply gamma_scalar; [by apply wrap_range|done].
  - intros Hn. by apply Hv.
  - intros Hr. specialize (Hp depth r c Hr). done.
Qed.

Lemma exec_described cx before s depth i k c :
  cx_args cx = mf_args f → cx_frame cx = mf_frame f → i ∈ allInstrs f →
  described s → described_at cx before s →
  exec i (readOperand s) (ms_slots s !!.) k c → gamma (producedAt depth cx st before i) c.
Proof.
  intros Ha Hf Hi Hs Hp He.
  assert (Hgoal : gamma (producedWith (operandAtDepth depth cx st before) cx st i) c).
  { eapply (produced_sound (exec := exec)); [exact Ha|exact Hf| | | |exact He|by apply Hphi].
    - intros o. by apply wf_operandAtDepth.
    - intros o v. by apply operand_described.
    - intros n v. apply Hs. }
  by destruct depth.
Qed.

Lemma clip_described n v c :
  gamma v c → gamma (clip (mf_bits32 f) n v) (if decide (n ∈ mf_bits32 f) then low32 c else c).
Proof.
  intros Hg. unfold clip. destruct (decide (n ∈ mf_bits32 f)) as [Hn|Hn].
  - destruct (decide (kind v = Scalar ∧ _)) as [[Hk _]|Hk]; [|by apply gamma_low].
    unfold gamma in Hg. rewrite Hk in Hg. destruct Hg as (z & -> & Hz & Hm).
    apply gamma_scalar; [by apply u32_word|]. unfold u32, wrap. rewrite <-Z.land_ones by lia.
    by apply submask_land_mono.
  - by rewrite decide_False by tauto.
Qed.

Lemma step_described cx before i s s' :
  cx_args cx = mf_args f → cx_frame cx = mf_frame f → i ∈ allInstrs f →
  stable f cx st before i → described s → described_at cx before s → step i s s' →
  described s' ∧ described_at cx (i :: before) s'.
Proof.
  intros Ha Hf Hi [Hdef Hstore] Hs Hp [Hv Hph Hsl]. split; [split|].
  - intros n c Hn. destruct (Hv n c Hn) as [[_ Hold]|(Ho & k & v & He & ->)]; [by apply Hs|].
    eapply gamma_le; [|apply clip_described; by eapply exec_described].
    apply join_absorb; [apply Hst|apply wf_clip; by apply wf_producedAt|by apply Hdef].
  - intros n c Hn. destruct (Hsl n c Hn) as [Hold|(Hslot & Hm & Hr)]; [by apply Hs|].
    eapply gamma_le; [|by eapply operand_described].
    apply join_absorb; [apply Hst|by apply wf_operandAtDepth|]. apply Hstore; [by rewrite Hf|done].
  - intros depth r c Hr. unfold operandAtDepth, operandWith. simpl.
    destruct depth as [|depth]; [done|].
    destruct (Hph r c Hr) as [[Hnot Hold]|[Hmod Hval]].
    + rewrite bool_decide_false by done. apply (Hp (S depth) r c Hold).
    + rewrite bool_decide_true by done. destruct (mi_call i) eqn:Ecall.
      * destruct (String.eqb_spec r "R0"); [|done]. unfold calleeReturn.
        destruct (head _) as [ret|] eqn:Eh; [|done]. apply gamma_typed. by apply Hval.
      * destruct Hval as (k & v & He & Hc). eapply gamma_same_or_low; [|done]. by eapply exec_described.
Qed.

Lemma runs_described cx before pre s s' :
  cx_args cx = mf_args f → cx_frame cx = mf_frame f →
  (∀ p i q, pre = p ++ i :: q → i ∈ allInstrs f ∧ stable f cx st (reverse p ++ before) i) →
  runs before pre s s' → described s → described_at cx before s → described s'.
Proof.
  intros Ha Hf Hall Hr. induction Hr as [|before i block s s1 s' Hstep _ IH]; [done|].
  intros Hs Hp. destruct (Hall [] i block eq_refl) as [Hi Hstable].
  destruct (step_described cx before i s s1) as [Hs1 Hp1]; try done. apply IH; try done.
  intros p j q ->. destruct (Hall (i :: p) j q eq_refl) as [? H]. split; [done|].
  by rewrite reverse_cons, <-app_assoc in H.
Qed.

Lemma block_described k block pre post s s' :
  mf_blocks f !! k = Some block → block = pre ++ post → runs [] pre s s' →
  described s → described_at (contextOf f (Nat.eqb k 0)) [] s → described s'.
Proof.
  intros Hk Hb Hr. apply (runs_described (contextOf f (Nat.eqb k 0)) [] pre); try done.
  intros p i q ->. split.
  - unfold allInstrs. apply list_elem_of_In, in_concat. exists block. split; apply list_elem_of_In.
    + by eapply list_elem_of_lookup_2.
    + rewrite Hb. set_solver.
  - rewrite app_nil_r. eapply Hfix; [done|]. by rewrite Hb, <-app_assoc.
Qed.

(** Every reachable state is described by the fixed point. *)
Lemma reachable_described s : reachable s → described s.
Proof.
  induction 1 as [s0 block pre post s (Hv & Hs & Harg) Hb Hsplit Hr|s0 k block pre post s _ IH Hb Hsplit Hr].
  - eapply (block_described 0); [done|done|done| |].
    + split; intros n c; [by rewrite Hv|by rewrite Hs].
    + intros depth r c Hc. unfold operandAtDepth, operandWith. simpl. destruct depth; [done|].
      destruct (argumentRegister r) as [n|] eqn:En; [|done].
      destruct (mf_args f !! n) as [a|] eqn:Ea; [|done]. apply gamma_typed. by eapply Harg.
  - eapply (block_described (S k)); [done|done|done|done|].
    intros depth r c Hc. unfold operandAtDepth, operandWith. simpl. by destruct depth.
Qed.
End machine.
