(* ===== verification/SpillSlotProps.v ===== *)
(** * What the spill-slot plan guarantees

    The numbering of representations, its round trip through stack IDs, slot
    coloring and metadata, and the claims about [spill_slot_plan.cpp]. *)

From Stdlib Require Import ZArith Lia.
From stdpp Require Import base numbers list gmap sets fin_maps strings relations.
From S2P Require Import Prelude SpillSlotPlan SpillSlotFacts SpillSlotSound.

Import SpillSlotPlan.
Local Open Scope Z_scope.

(** ** Numbering *)

Definition planned (v : Value) : Prop := kind v = Scalar ∨ kind v = Arena.

(** The slot's stack ID names its representation, or is still zero. *)
Definition numbered (st : values) (nm : numbering) (index : nat) (o : frame_object) : Prop :=
  fo_stack_id o = 0 ∨
  0 < fo_stack_id o ∧ planned (slotValue st index) ∧
  ids nm !! Z.to_nat (fo_stack_id o - 1) = Some (slotValue st index, fo_stack_id o).

Record numbering_inv (st : values) (frame : list frame_object) (done : list nat) (nm : numbering) : Prop := {
  ni_ids k v id : ids nm !! k = Some (v, id) → id = Z.of_nat k + 1 ∧
    representations nm !! k = Some (representation v);
  ni_length : length (ids nm) = length (representations nm);
  ni_frame_length : length (nm_frame nm) = length frame;
  ni_done index o : nm_frame nm !! index = Some o → numbered st nm index o;
  ni_planned index o : index ∈ done → nm_frame nm !! index = Some o → planned (slotValue st index) →
    fo_stack_id o ≠ 0 ∨ length (ids nm) = 255%nat;
  ni_bound : (length (ids nm) <= 255)%nat;
}.

Lemma findId_Some key l id : findId key l = Some id → ∃ k, l !! k = Some (key, id).
Proof.
  unfold findId. destruct (list_find _ l) as [[k [v i]]|] eqn:E; simpl; [|done].
  intros [= <-]. apply list_find_Some in E as (Hk & Hv & _). simpl in Hv. subst. by exists k.
Qed.

Lemma setStackID_lookup index id frame j o :
  setStackID index id frame !! j = Some o →
  (j = index ∧ fo_stack_id o = id) ∨ (j ≠ index ∧ frame !! j = Some o).
Proof.
  unfold setStackID. destruct (decide (j = index)) as [->|Hne].
  - rewrite list_lookup_alter_eq. destruct (frame !! index); simpl; [|done]. intros [= <-]. by left.
  - rewrite list_lookup_alter_ne by done. auto.
Qed.

Lemma setStackID_length index id frame : length (setStackID index id frame) = length frame.
Proof. apply length_alter. Qed.

Lemma numberSlot_inv st frame done nm index :
  numbering_inv st frame done nm → numbering_inv st frame (done ++ [index]) (numberSlot st nm index).
Proof.
  intros [Hids Hlen Hfl Hdone Hpl Hb]. unfold numberSlot. case_decide as Hk.
  - destruct (findId _ _) as [id|] eqn:Ef.
    + apply findId_Some in Ef as [k Hkey]. destruct (Hids k _ _ Hkey) as [-> _].
      split; simpl; [done|done|by rewrite setStackID_length| | |done].
      * intros j o [[-> Hid]|[_ Hj]]%setStackID_lookup; [|by apply Hdone]. right. rewrite Hid.
        split_and!; [lia|done|]. by replace (Z.to_nat (Z.of_nat k + 1 - 1)) with k by lia.
      * intros j o Hj [[-> Hid]|[Hne Hl]]%setStackID_lookup Hp; [left; lia|].
        apply elem_of_app in Hj as [Hj|Hj%list_elem_of_singleton]; [by eapply Hpl|done].
    + destruct (Nat.eqb_spec (length (ids nm)) 255) as [Hfull|Hfull].
      * split; try done. intros j o Hj Hl Hp. by right.
      * split; simpl; [|rewrite !length_app; simpl; lia|by rewrite setStackID_length| | |].
        -- intros k v id [Hk'|[Hge Hk']]%lookup_app_Some.
           ++ destruct (Hids k v id Hk') as [-> Hr]. split; [done|]. by apply lookup_app_l_Some.
           ++ apply list_lookup_singleton_Some in Hk' as [Hz [= <- <-]].
              split; [lia|]. rewrite lookup_app_r by lia. by replace (k - _)%nat with 0%nat by lia.
        -- intros j o [[-> Hid]|[_ Hj]]%setStackID_lookup.
           ++ right. rewrite Hid. split_and!; [lia|done|]. simpl.
              rewrite lookup_app_r by lia. by replace (Z.to_nat _ - _)%nat with 0%nat by lia.
           ++ destruct (Hdone j o Hj) as [?|(? & ? & Hr)]; [by left|right]. split_and!; [done|done|].
              by apply lookup_app_l_Some.
        -- intros j o Hj [[-> Hid]|[Hne Hl]]%setStackID_lookup Hp; [left; lia|].
           apply elem_of_app in Hj as [Hj|Hj%list_elem_of_singleton]; [|done].
           destruct (Hpl j o Hj Hl Hp); [by left|done].
        -- rewrite length_app. simpl. lia.
  - split; try done. intros j o [Hj| ->%list_elem_of_singleton]%elem_of_app Hl Hp; [by eapply Hpl|done].
Qed.

Lemma numberSlots_inv st frame :
  (∀ o, o ∈ frame → fo_stack_id o = 0) →
  numbering_inv st frame (seq 0 (length frame)) (numberSlots st frame).
Proof.
  intros Hz. apply (foldl_invariant (numberSlot st) (numbering_inv st frame)).
  - split; simpl; try done; [|by intros index o ?%not_elem_of_nil|lia].
    intros index o Ho. left. apply Hz. by eapply list_elem_of_lookup_2.
  - intros pre index nm _. apply numberSlot_inv.
Qed.

(** ** Recording and reading back *)

(** The metadata entry of frame index [index]. *)
Definition slotEntry (reps : list metadata) (frame : list frame_object) (index : nat) : option metadata :=
  match frame !! index with
  | Some o =>
      if fo_dead o || negb (fo_spill o) then None
      else if fo_stack_id o =? 0 then None
      else Some (MDNode [MDInt 32 (u32 (Z.of_nat index));
                         default MDOther (reps !! Z.to_nat (fo_stack_id o - 1))])
  | None => None
  end.

Lemma finishSlots_entries reps l acc frame :
  NoDup l → (∀ j, j ∈ l → acc.2 !! j = frame !! j) →
  (foldl (finishSlot reps) acc l).1 = acc.1 ++ omap (slotEntry reps frame) l.
Proof.
  revert acc. induction l as [|j l IH]; intros acc Hnd Hsame; simpl; [by rewrite app_nil_r|].
  apply NoDup_cons in Hnd as [Hj Hnd]. rewrite IH; [|done|].
  - unfold finishSlot, slotEntry. rewrite (Hsame j) by by left.
    destruct (frame !! j) as [o|]; simpl; [|done].
    destruct (fo_dead o || negb (fo_spill o)); simpl; [done|].
    destruct (fo_stack_id o =? 0); simpl; [done|]. by rewrite <-app_assoc.
  - intros k Hk. rewrite <-(Hsame k) by by right. unfold finishSlot.
    destruct (acc.2 !! j); [|done]. repeat case_match; simpl; try done.
    unfold setStackID. rewrite list_lookup_alter_ne; [done|]. by intros ->.
Qed.

Definition formOf (v : Value) : SpillForm := if decide (kind v = Arena) then FormArena else FormScalar.

Lemma sgn_u32 n : 0 <= n < 2 ^ 31 → sgn 32 (u32 n) = n.
Proof.
  intros Hn. unfold u32. rewrite wrap_small by lia. unfold sgn.
  destruct (Z.ltb_spec n (2 ^ (32 - 1))); lia.
Qed.

Lemma readEntry_ok index v acc :
  (Z.of_nat index < 2 ^ 31) →
  readEntry (MDNode [MDInt 32 (u32 (Z.of_nat index)); representation v]) acc =
  Ok (<[Z.of_nat index := MkSpillValue (formOf v) (mask v)]> acc).
Proof.
  intros Hi. unfold readEntry, planEntry, representation, formOf. rewrite sgn_u32 by lia.
  by case_decide.
Qed.

(** The entries of distinct slots read back as the map from slot to form. *)
Lemma readEntries_ok l (entry : nat → option metadata) (val : nat → option Value) acc :
  NoDup l →
  (∀ j, j ∈ l → Z.of_nat j < 2 ^ 31 ∧
     entry j = (λ v, MDNode [MDInt 32 (u32 (Z.of_nat j)); representation v]) <$> val j) →
  ∃ plan, foldM readEntry (omap entry l) acc = Ok plan ∧
    (∀ j v, j ∈ l → val j = Some v → plan !! Z.of_nat j = Some (MkSpillValue (formOf v) (mask v))) ∧
    (∀ z, (∀ j, j ∈ l → is_Some (val j) → z ≠ Z.of_nat j) → plan !! z = acc !! z).
Proof.
  revert acc. induction l as [|j l IH]; intros acc Hnd Hl; simpl.
  { exists acc. split_and!; [done|by intros j v ?%not_elem_of_nil|done]. }
  apply NoDup_cons in Hnd as [Hj Hnd]. destruct (Hl j) as [Hb He]; [by left|].
  assert (Hrest : ∀ k, k ∈ l → Z.of_nat k < 2 ^ 31 ∧
    entry k = (λ v, MDNode [MDInt 32 (u32 (Z.of_nat k)); representation v]) <$> val k).
  { intros k Hk. apply Hl. by right. }
  rewrite He. destruct (val j) as [v|] eqn:Ev; simpl.
  - rewrite readEntry_ok by done. destruct (IH (<[Z.of_nat j := MkSpillValue (formOf v) (mask v)]> acc) Hnd Hrest)
      as (plan & Hp & Hin & Hout). exists plan. split_and!; [done| |].
    + intros k w [->|Hk]%elem_of_cons Hw; [|by apply Hin]. simplify_eq.
      rewrite Hout; [by rewrite lookup_insert_eq|]. intros k Hk _ ?. apply Hj. by replace j with k by lia.
    + intros z Hz. rewrite Hout.
      * rewrite lookup_insert_ne; [done|]. intros <-. apply (Hz j); [by left|by rewrite Ev|done].
      * intros k Hk. apply Hz. by right.
  - destruct (IH acc Hnd Hrest) as (plan & Hp & Hin & Hout). exists plan. split_and!; [done| |].
    + intros k w [->|Hk]%elem_of_cons Hw; [congruence|by apply Hin].
    + intros z Hz. apply Hout. intros k Hk. apply Hz. by right.
Qed.

Definition live_spill (frame : list frame_object) (i : nat) (o : frame_object) : Prop :=
  frame !! i = Some o ∧ fo_dead o = false ∧ fo_spill o = true.

(** Slot coloring: spill slots move to surviving slots, and only slots with
    equal stack IDs share one. *)
Record coloring (frame frame' : list frame_object) (color : nat → nat) : Prop := {
  co_slot i o : live_spill frame i o →
    ∃ o', live_spill frame' (color i) o' ∧ fo_stack_id o' = fo_stack_id o;
  co_source j o' : live_spill frame' j o' → fo_stack_id o' ≠ 0 →
    ∃ i o, live_spill frame i o ∧ color i = j ∧ fo_stack_id o = fo_stack_id o';
  co_length : Z.of_nat (length frame') < 2 ^ 31;
}.

Definition with_frame (f : mfunction) (frame : list frame_object) : mfunction :=
  MFunction (mf_allocation_unit f) (mf_args f) (mf_blocks f) frame (mf_bits32 f) (mf_plan f) (mf_pending f).

Section roundtrip.
Context (st : values) (frame frame' : list frame_object) (color : nat → nat).
Context (Hz : ∀ o, o ∈ frame → fo_stack_id o = 0).
Context (Hco : coloring (nm_frame (numberSlots st frame)) frame' color).
Abbreviation nm := (numberSlots st frame).

(** What the surviving slot [j] represents. *)
Definition slotVal (j : nat) : option Value :=
  match frame' !! j with
  | Some o => if fo_dead o || negb (fo_spill o) then None
              else if fo_stack_id o =? 0 then None
              else fst <$> ids nm !! Z.to_nat (fo_stack_id o - 1)
  | None => None
  end.

Lemma slotEntry_val j :
  slotEntry (representations nm) frame' j =
  (λ v, MDNode [MDInt 32 (u32 (Z.of_nat j)); representation v]) <$> slotVal j.
Proof.
  unfold slotEntry, slotVal. destruct (frame' !! j) as [o|] eqn:Ej; [|done].
  destruct (fo_dead o || negb (fo_spill o)) eqn:Ed; [done|]. bool_to_prop.
  destruct (fo_stack_id o =? 0) eqn:Eid; [done|]. bool_to_prop.
  destruct (co_source _ _ _ Hco j o) as (i & oi & [Hi _] & _ & Hsame); [done|done|].
  pose proof (numberSlots_inv st frame Hz) as Hinv.
  destruct (ni_done _ _ _ _ Hinv i oi Hi) as [?|(_ & _ & Hid)]; [lia|].
  rewrite Hsame in Hid. rewrite Hid. simpl.
  destruct (ni_ids _ _ _ _ Hinv _ _ _ Hid) as [_ ->]. done.
Qed.

Lemma slotVal_color i o :
  live_spill (nm_frame nm) i o →
  slotVal (color i) = if decide (fo_stack_id o = 0) then None else Some (slotValue st i).
Proof.
  intros Hl. destruct (co_slot _ _ _ Hco i o Hl) as (o' & (Ho' & Hd & Hs) & Hsame).
  unfold slotVal. rewrite Ho', Hd, Hs, Hsame. simpl.
  destruct (Z.eqb_spec (fo_stack_id o) 0) as [E|E]; case_decide; try done.
  destruct (ni_done _ _ _ _ (numberSlots_inv st frame Hz) i o) as [?|(_ & _ & ->)]; [by destruct Hl|done|done].
Qed.

Lemma read_numbered :
  ∃ plan, foldM readEntry (omap (slotEntry (representations nm) frame') (seq 0 (length frame'))) ∅ = Ok plan ∧
    (∀ i o, live_spill (nm_frame nm) i o →
       match plan !! Z.of_nat (color i) with
       | Some sv => planned (slotValue st i) ∧
                    sv = MkSpillValue (formOf (slotValue st i)) (mask (slotValue st i))
       | None => ¬ planned (slotValue st i) ∨ length (representations nm) = 255%nat
       end).
Proof.
  pose proof (numberSlots_inv st frame Hz) as Hinv.
  destruct (readEntries_ok (seq 0 (length frame')) (slotEntry (representations nm) frame') slotVal ∅)
    as (plan & Hp & Hin & Hout).
  { apply NoDup_seq. }
  { intros j Hj%elem_of_seq. split; [|apply slotEntry_val]. pose proof (co_length _ _ _ Hco). lia. }
  exists plan. split; [done|]. intros i o Hl. pose proof (slotVal_color i o Hl) as Hv.
  destruct (co_slot _ _ _ Hco i o Hl) as (o' & (Ho' & _) & _).
  assert (Hc : color i ∈ seq 0 (length frame')).
  { apply elem_of_seq. apply lookup_lt_Some in Ho'. lia. }
  destruct Hl as [Hi _]. case_decide as Hid.
  - rewrite Hout; [rewrite lookup_empty|].
    + destruct (decide (planned (slotValue st i))) as [Hpl|?]; [right|by left].
      rewrite <-(ni_length _ _ _ _ Hinv).
      destruct (ni_planned _ _ _ _ Hinv i o) as [?|?]; try done.
      apply elem_of_seq. apply lookup_lt_Some in Hi. rewrite (ni_frame_length _ _ _ _ Hinv) in Hi. lia.
    + intros j Hj [v Hval] E. assert (j = color i) by lia. subst. congruence.
  - rewrite (Hin _ _ Hc Hv). split; [|done].
    destruct (ni_done _ _ _ _ Hinv i o Hi) as [?|(_ & ? & _)]; done.
Qed.
End roundtrip.

(** ** The claims *)

(** C10: the analysis always ends: with the fuel of [solveFuel] the sweeps reach
    a state with which every instruction of every block agrees - no definition
    and no spill store would change it. *)
Theorem spill_solve_fixpoint (f : mfunction) :
  ∃ st, solve (solveFuel f) f emptyValues = Some st ∧ wf_values st ∧ fixpoint f st.
Proof.
  apply solve_total; [apply wf_emptyValues|]. unfold solveFuel. lia.
Qed.

(** C11: the analysis is sound: in every state a function without PHIs reaches,
    each virtual register and each spill slot holds a value of the kind the
    analysis found for it, an integer having no bit outside its mask. *)
Theorem spill_solve_sound exec (f : mfunction) (st : values) (s : mstate) :
  MachineSem exec (mf_args f) (mf_frame f) →
  (∀ i, i ∈ allInstrs f → mi_opcode i ≠ "PHI"%string) →
  solve (solveFuel f) f emptyValues = Some st →
  reachable exec f s →
  (∀ n c, ms_virtual s !! n = Some c → gamma (virtualOf st n) c) ∧
  (∀ n c, ms_slots s !! n = Some c → gamma (slotValue st n) c).
Proof.
  intros Hsem Hphi Hsolve Hr.
  destruct (solve_total f (solveFuel f) emptyValues) as (st' & E & Hwf & Hfix).
  { apply wf_emptyValues. }
  { unfold solveFuel. lia. }
  rewrite Hsolve in E. injection E as <-.
  by destruct (reachable_described exec f st Hwf Hfix Hphi s Hr).
Qed.

(** The plan survives slot coloring and the metadata: if coloring shares
    slots only between equal stack IDs, the plan read back gives, for the slot
    an original spill slot was colored to, exactly that slot's kind and mask,
    and it has no entry only when the slot needs none or 255 representations
    were in use. *)
Theorem spill_plan_roundtrip (f f1 : mfunction) (frame' : list frame_object) (color : nat → nat) :
  planPass (solveFuel f) f = Some (true, f1) →
  (∀ o, o ∈ mf_frame f → fo_stack_id o = 0) →
  coloring (mf_frame f1) frame' color →
  ∃ st plan, solve (solveFuel f) f emptyValues = Some st ∧
    ReadSpillPlan (finishPass (with_frame f1 frame')).2 = Ok plan ∧
    ∀ i o, live_spill (mf_frame f1) i o →
      match plan !! Z.of_nat (color i) with
      | Some sv => planned (slotValue st i) ∧
                   sv = MkSpillValue (formOf (slotValue st i)) (mask (slotValue st i))
      | None => ¬ planned (slotValue st i) ∨ length (default [] (mf_pending f1)) = 255%nat
      end.
Proof.
  intros Hplan Hz Hco. unfold planPass in Hplan.
  destruct (negb (mf_allocation_unit f)); [done|]. destruct (negb (hasSpills _)); [done|].
  destruct (solve (solveFuel f) f emptyValues) as [st|]; [|done]. injection Hplan as <-.
  destruct (read_numbered st (mf_frame f) frame' color Hz Hco) as (plan & Hp & Hl).
  exists st, plan. split_and!; [done| |done]. unfold finishPass. simpl.
  pose proof (finishSlots_entries (representations (numberSlots st (mf_frame f)))
    (seq 0 (length frame')) ([], frame') frame' (NoDup_seq _ _) (λ _ _, eq_refl)) as He.
  destruct (foldl (finishSlot _) _ _) as [entries fr]. simpl in He |- *. subst entries.
  destruct (omap _ _) eqn:E; unfold ReadSpillPlan; simpl; [|done]. by rewrite <-Hp.
Qed.

(** ** Witnesses *)

Module SpillSample.
(** [v0 = 0xff00; v1 = v0 & 0xf00; slot0 = v1; slot1 = v1; v2 = slot0] *)
Definition plain (op : string) (ops : list moperand) (load store : bool) : minstr :=
  MInstr op ops false false load store [] [] [].
Definition virt (n : nat) (def : bool) : moperand := OReg (Some (Virtual n)) def.
Definition movI : minstr := plain "MOV_ri" [virt 0 true; OImm 65280] false false.
Definition andI : minstr := plain "AND_ri" [virt 1 true; virt 0 false; OImm 3840] false false.
Definition store0 : minstr := plain "STD" [virt 1 false; OFrameIndex 0; OImm 0] false true.
Definition store1 : minstr := plain "STD" [virt 1 false; OFrameIndex 1; OImm 0] false true.
Definition reload : minstr := plain "LDD" [virt 2 true; OFrameIndex 0; OImm 0] true false.
Definition slot : frame_object := FrameObject false true 8 0.
Definition f : mfunction :=
  MFunction true [] [[movI; andI; store0; store1; reload]] [slot; slot] [] None None.

(** The sample's instructions, as a semantics. *)
Inductive exec : minstr → (moperand → option cval) → (nat → option cval) → nat → cval → Prop :=
| exec_mov i rd sl r z :
    mi_opcode i = "MOV_ri"%string → mi_operands i = [OReg r true; OImm z] →
    exec i rd sl 0%nat (CInt (u64 z))
| exec_and i rd sl r o a z :
    mi_opcode i = "AND_ri"%string → mi_operands i = [OReg r true; o; OImm z] → isUse o = true →
    mi_may_load i = false → mi_inline_asm i = false → rd o = Some (CInt a) → 0 <= a < 2 ^ 64 →
    is_Some (rd (OImm z)) → exec i rd sl 0%nat (CInt (Z.land a (u64 z)))
| exec_reload i rd sl r rest s v :
    mi_opcode i = "LDD"%string → mi_operands i = OReg r true :: rest → mi_may_load i = true →
    mi_inline_asm i = false → slotOf (mf_frame f) i = Some s → sl s = Some v → exec i rd sl 0%nat v.

#[global] Instance sem : MachineSem exec (mf_args f) (mf_frame f).
Proof.
  split; intros; match goal with H : exec _ _ _ _ _ |- _ => inv H end;
    repeat match goal with
    | H : mi_opcode ?i = _, H' : context [mi_opcode ?i] |- _ =>
        lazymatch H' with H => fail | _ => rewrite H in H' end
    end; unfold operandAt in *;
    repeat match goal with
    | H : mi_operands ?i = _, H' : context [mi_operands ?i] |- _ =>
        lazymatch H' with H => fail | _ => rewrite H in H' end
    | H : mi_operands ?i = _ |- context [mi_operands ?i] => rewrite H
    | H : _ ∨ _ |- _ => destruct H
    end; simplify_eq/=; try discriminate; try congruence.
  all: try (by left); try (by eauto).
  all: try (by eexists; split; [done|]; left).
  - match goal with H : o ∈ _ |- _ => rename H into Ho end.
    apply elem_of_cons in Ho as [->|Ho]; [done|].
    apply elem_of_cons in Ho as [->|Ho]; [by eexists|]. by apply list_elem_of_singleton in Ho as ->.
  - exists (Z.land a (u64 z)). split; [done|]. by apply land_range.
  - split; [right; by left|done].
Qed.

Definition state : mstate :=
  MState {[0%nat := CInt 65280; 1%nat := CInt 3840]} ∅ {[0%nat := CInt 3840]}.
Definition state0 : mstate := MState ∅ ∅ ∅.
Definition state1 : mstate := MState {[0%nat := CInt 65280]} ∅ ∅.
Definition state2 : mstate := MState {[0%nat := CInt 65280; 1%nat := CInt 3840]} ∅ ∅.

Lemma reached : reachable exec f state.
Proof.
  assert (Hone : ∀ (m : gmap nat cval) n n' (c c' : cval), <[n := c]> m !! n' = Some c' →
    n = n' ∧ c = c' ∨ n ≠ n' ∧ m !! n' = Some c') by (intros ?????; rewrite lookup_insert_Some; tauto).
  eapply (reach_entry exec f state0 _ [movI; andI; store0] [store1; reload]); [|reflexivity|reflexivity|].
  - split_and!; [done|done|]. intros r c n a Hr. simpl in Hr. by apply lookup_empty_Some in Hr.
  - apply (runs_cons _ _ _ _ _ _ state1); [|apply (runs_cons _ _ _ _ _ _ state2);
      [|apply (runs_cons _ _ _ _ _ _ state); [|constructor]]].
    + split; simpl; [|by intros r c ?%lookup_empty_Some|by intros r c ?%lookup_empty_Some].
      intros n c [[<- <-]|[_ []%lookup_empty_Some]]%Hone. right. split; [set_solver|].
      exists 0%nat, (CInt 65280). split; [|done]. by eapply (exec_mov movI _ _ _ 65280).
    + split; simpl; [|by intros r c ?%lookup_empty_Some|by intros r c ?%lookup_empty_Some].
      intros n c [[<- <-]|[Hn [[<- <-]|[_ []%lookup_empty_Some]]%Hone]]%Hone.
      * left. split; [set_solver|done].
      * right. split; [set_solver|]. exists 0%nat, (CInt 3840). split; [|done].
        by eapply (exec_and andI _ _ _ (virt 0 false) 65280 3840); try reflexivity.
    + split; simpl; [|by intros r c ?%lookup_empty_Some|].
      * intros n c Hn. left. split; [set_solver|done].
      * intros n c [[<- <-]|[_ []%lookup_empty_Some]]%Hone. right. done.
Qed.

Definition solved : values := default emptyValues (solve (solveFuel f) f emptyValues).
Lemma solved_eq : solve (solveFuel f) f emptyValues = Some solved.
Proof. vm_compute. reflexivity. Qed.
Lemma no_phi i : i ∈ allInstrs f → mi_opcode i ≠ "PHI"%string.
Proof.
  intros Hi. unfold allInstrs in Hi. simpl in Hi.
  repeat (apply elem_of_cons in Hi as [->|Hi]; [discriminate|]). by apply not_elem_of_nil in Hi.
Qed.

(** Slot 1 is colored into slot 0. *)
Definition f1 : mfunction :=
  match planPass (solveFuel f) f with Some (_, g) => g | None => f end.
Definition colored : list frame_object := [FrameObject false true 8 1; FrameObject true true 8 1].

Lemma colored_ok : coloring (mf_frame f1) colored (λ _, 0%nat).
Proof.
  assert (E : mf_frame f1 = [FrameObject false true 8 1; FrameObject false true 8 1]) by (vm_compute; reflexivity).
  rewrite E. clear E. split; [| |done].
  - intros [|[|i]] o (Ho & Hd & Hs); simplify_eq/=; by eexists; repeat split.
  - intros [|[|j]] o' (Ho & Hd & Hs); simplify_eq/=. intros _. exists 0%nat. by eexists; repeat split.
Qed.
End SpillSample.

Lemma spill_solve_sound_witness :
  solve (solveFuel SpillSample.f) SpillSample.f emptyValues = Some SpillSample.solved ∧
  slotValue SpillSample.solved 0 = scalar 3840 ∧
  gamma (slotValue SpillSample.solved 0) (CInt 3840).
Proof.
  split; [exact SpillSample.solved_eq|]. split; [vm_compute; reflexivity|].
  apply (spill_solve_sound SpillSample.exec SpillSample.f SpillSample.solved SpillSample.state
    SpillSample.sem SpillSample.no_phi SpillSample.solved_eq SpillSample.reached).
  vm_compute. reflexivity.
Defined.

Lemma spill_plan_roundtrip_witness : ∃ st plan,
  solve (solveFuel SpillSample.f) SpillSample.f emptyValues = Some st ∧
  ReadSpillPlan (finishPass (with_frame SpillSample.f1 SpillSample.colored)).2 = Ok plan ∧
  plan !! 0 = Some (MkSpillValue FormScalar 3840).
Proof.
  destruct (spill_plan_roundtrip SpillSample.f SpillSample.f1 SpillSample.colored (λ _, 0%nat))
    as (st & plan & Hs & Hp & _).
  - vm_compute. reflexivity.
  - intros o [->|[->|[]%not_elem_of_nil]%elem_of_cons]%elem_of_cons; reflexivity.
  - exact SpillSample.colored_ok.
  - exists st, plan. split; [exact Hs|]. split; [exact Hp|].
    vm_compute in Hp. injection Hp as <-. vm_compute. reflexivity.
Defined.
