(* ===== verification/Arith.v ===== *)
(** * Arithmetic lowering ([lower_sdiv.cpp], [split_shift63.cpp],
    [expand_i128.cpp])

    A straight-line fragment of LLVM IR with the semantics of the language
    reference - undefined behaviour and poison are [None] - and the three
    passes that replace single arithmetic instructions by sequences.  A pass
    inserts its sequence before the instruction and gives the last new value
    to every user; the model lets the last instruction define the replaced
    register. *)

From Stdlib Require Import ZArith Lia.
From stdpp Require Import base numbers list gmap sets fin_maps strings.
From S2P Require Import Prelude.

Module Arith.
Local Open Scope Z_scope.

Inductive operand := Reg (r : nat) | Const (z : Z).

Inductive opcode := Add | Sub | Mul | UDiv | URem | SDiv | SRem | LShr | AShr | Xor.

#[global] Instance opcode_eq_dec : EqDecision opcode.
Proof. solve_decision. Defined.

(** An integer type of some width, or a vector type. *)
Inductive type := TInt (width : Z) | TVector.

#[global] Instance type_eq_dec : EqDecision type.
Proof. solve_decision. Defined.

Inductive inst :=
| Bin (op : opcode) (ty : type) (a b : operand)
| SExtOrTrunc (from to : Z) (a : operand)
| ZExt (from to : Z) (a : operand)
| Trunc (from to : Z) (a : operand)
| ICmpNE (w : Z) (a b : operand)
| MulWithOverflow (signed : bool) (w : Z) (a b : operand)   (* u/smul.with.overflow *)
| Call (name : string) (args : list operand)
| CallSlot (name : string) (args : list operand) (slot : nat) (* last argument: address of a slot *)
| LoadSlot (slot : nat)
| InsertPair (a b : operand)
| Opaque (tag : nat) (args : list operand).

(** A value: an integer, or the pair a [with.overflow] intrinsic returns. *)
Inductive val := Int (z : Z) | Pair (z o : Z).

Record state := State { regs : gmap nat val; mem : gmap nat Z }.

Definition block := list (nat * inst).

(** ** Semantics *)

(** Library functions and the instructions the passes do not touch. *)
Record library := Library {
  lib_call : string → list Z → option Z;
  lib_slot : string → list Z → option (Z * Z);     (* result, value stored to the slot *)
  lib_opaque : nat → list val → option val;
}.

Definition evalBin (op : opcode) (w a b : Z) : option Z :=
  match op with
  | Add => Some (wrap w (a + b))
  | Sub => Some (wrap w (a - b))
  | Mul => Some (wrap w (a * b))
  | Xor => Some (Z.lxor a b)
  | UDiv => if b =? 0 then None else Some (a / b)
  | URem => if b =? 0 then None else Some (a mod b)
  | SDiv =>
      if (b =? 0) || ((sgn w a =? - 2 ^ (w - 1)) && (sgn w b =? -1)) then None
      else Some (wrap w (Z.quot (sgn w a) (sgn w b)))
  | SRem =>
      if (b =? 0) || ((sgn w a =? - 2 ^ (w - 1)) && (sgn w b =? -1)) then None
      else Some (wrap w (Z.rem (sgn w a) (sgn w b)))
  | LShr => if b <? w then Some (Z.shiftr a b) else None
  | AShr => if b <? w then Some (wrap w (Z.shiftr (sgn w a) b)) else None
  end.

Definition readVal (st : state) (o : operand) : option val :=
  match o with Reg r => regs st !! r | Const z => Some (Int z) end.
Definition readInt (st : state) (o : operand) : option Z :=
  match readVal st o with Some (Int z) => Some z | _ => None end.

(** An integer operand of width [w]. *)
Definition readWord (st : state) (w : Z) (o : operand) : option Z :=
  match readInt st o with
  | Some z => if (0 <=? z) && (z <? 2 ^ w) then Some z else None
  | None => None
  end.

Definition withOverflow (signed : bool) (w a b : Z) : val :=
  if signed
  then let p := sgn w a * sgn w b in
       Pair (wrap w p) (if (- 2 ^ (w - 1) <=? p) && (p <? 2 ^ (w - 1)) then 0 else 1)
  else Pair (wrap w (a * b)) (if a * b <? 2 ^ w then 0 else 1).

Definition evalInst (lib : library) (st : state) (i : inst) : option (val * gmap nat Z) :=
  match i with
  | Bin op (TInt w) a b =>
      match readWord st w a, readWord st w b with
      | Some x, Some y => (λ z, (Int z, mem st)) <$> evalBin op w x y
      | _, _ => None
      end
  | Bin _ TVector _ _ => None
  | SExtOrTrunc from to a => (λ x, (Int (wrap to (sgn from x)), mem st)) <$> readWord st from a
  | ZExt from to a => (λ x, (Int x, mem st)) <$> readWord st from a
  | Trunc from to a => (λ x, (Int (wrap to x), mem st)) <$> readWord st from a
  | ICmpNE w a b =>
      match readWord st w a, readWord st w b with
      | Some x, Some y => Some (Int (if x =? y then 0 else 1), mem st)
      | _, _ => None
      end
  | MulWithOverflow signed w a b =>
      match readWord st w a, readWord st w b with
      | Some x, Some y => Some (withOverflow signed w x y, mem st)
      | _, _ => None
      end
  | Call name args =>
      match mapM (readInt st) args with
      | Some xs => (λ z, (Int z, mem st)) <$> lib_call lib name xs
      | None => None
      end
  | CallSlot name args slot =>
      match mapM (readInt st) args with
      | Some xs => (λ r, (Int r.1, <[slot := r.2]> (mem st))) <$> lib_slot lib name xs
      | None => None
      end
  | LoadSlot slot => (λ z, (Int z, mem st)) <$> mem st !! slot
  | InsertPair a b =>
      match readInt st a, readInt st b with
      | Some x, Some y => Some (Pair x y, mem st)
      | _, _ => None
      end
  | Opaque tag args =>
      match mapM (readVal st) args with
      | Some vs => (λ v, (v, mem st)) <$> lib_opaque lib tag vs
      | None => None
      end
  end.

Definition stepInst (lib : library) (st : state) (p : nat * inst) : option state :=
  (λ r, State (<[p.1 := r.1]> (regs st)) r.2) <$> evalInst lib st p.2.

Fixpoint execBlock (lib : library) (bl : block) (st : state) : option state :=
  match bl with
  | [] => Some st
  | p :: bl => match stepInst lib st p with Some st => execBlock lib bl st | None => None end
  end.

(** ** [bpf-lower-sdiv] *)

Definition isSigned (op : opcode) : bool := bool_decide (op = SDiv ∨ op = SRem).

(** The sign words and magnitudes of the operands extended to [bits]: registers
    [f+2] and [f+3], [f+5] and [f+7]. *)
Definition sdivMagnitudes (bits w : Z) (a b : operand) (f : nat) : block :=
  let ty := TInt bits in
  [ (f, SExtOrTrunc w bits a);
    (f + 1, SExtOrTrunc w bits b);
    (f + 2, Bin AShr ty (Reg f) (Const (bits - 1)));
    (f + 3, Bin AShr ty (Reg (f + 1)) (Const (bits - 1)));
    (f + 4, Bin Xor ty (Reg f) (Reg (f + 2)));
    (f + 5, Bin Sub ty (Reg (f + 4)) (Reg (f + 2)));
    (f + 6, Bin Xor ty (Reg (f + 1)) (Reg (f + 3)));
    (f + 7, Bin Sub ty (Reg (f + 6)) (Reg (f + 3))) ]%nat.

(** The sequence for [d = op a b] of width [w], with scratch registers from [f]. *)
Definition lowerSDiv (op : opcode) (w : Z) (a b : operand) (d f : nat) : block :=
  let bits := if w <=? 32 then 32 else 64 in
  let ty := TInt bits in
  let division := bool_decide (op = SDiv) in
  let sign := if division then (f + 9)%nat else (f + 2)%nat in
  sdivMagnitudes bits w a b f
  ++ [ (f + 8, Bin (if division then UDiv else URem) ty (Reg (f + 5)) (Reg (f + 7))) ]%nat
  ++ (if division then [ (f + 9, Bin Xor ty (Reg (f + 2)) (Reg (f + 3))) ]%nat else [])
  ++ [ (f + 10, Bin Xor ty (Reg (f + 8)) (Reg sign));
       (f + 11, Bin Sub ty (Reg (f + 10)) (Reg sign));
       (d, Trunc bits w (Reg (f + 11))) ]%nat.

(** One instruction: the replacement, and whether an error is emitted. *)
Definition sdivInst (p : nat * inst) (f : nat) : block * bool :=
  match p.2 with
  | Bin op ty a b =>
      if isSigned op then
        match ty with
        | TInt w => if 64 <? w then ([p], true) else (lowerSDiv op w a b p.1 f, false)
        | TVector => ([p], true)
        end
      else ([p], false)
  | _ => ([p], false)
  end.

(** ** [bpf-split-shift63] *)

Definition isShift63 (i : inst) : bool :=
  match i with
  | Bin op ty _ (Const z) =>
      bool_decide ((op = AShr ∨ op = LShr) ∧ z = 63 ∧ ty = TInt 64)
  | _ => false
  end.

Definition shift63Inst (p : nat * inst) (f : nat) : block :=
  match p.2 with
  | Bin op ty a b =>
      if isShift63 p.2
      then [(f, Bin op ty a (Const 32)); (p.1, Bin op ty (Reg f) (Const 31))]
      else [p]
  | _ => [p]
  end.

(** ** [bpf-expand-i128] *)

Definition Mul128 : string := "__multi3".
Definition UDiv128 : string := "__udivti3".
Definition URem128 : string := "__umodti3".
Definition SDiv128 : string := "__divti3".
Definition SRem128 : string := "__modti3".
Definition SMul64Overflow : string := "__mulodi4".

Definition arithmeticLibcall (i : inst) : option string :=
  match i with
  | Bin op ty _ _ =>
      if decide (ty = TInt 128) then
        match op with
        | Mul => Some Mul128
        | UDiv => Some UDiv128
        | URem => Some URem128
        | SDiv => Some SDiv128
        | SRem => Some SRem128
        | _ => None
        end
      else None
  | MulWithOverflow signed w _ _ =>
      if w =? 64 then Some (if signed then SMul64Overflow else Mul128) else None
  | _ => None
  end.

Definition i128Inst (p : nat * inst) (f : nat) : block :=
  match arithmeticLibcall p.2 with
  | None => [p]
  | Some name =>
      match p.2 with
      | Bin _ _ a d => [(p.1, Call name [a; d])]
      | MulWithOverflow false _ a d =>
          [ (f, ZExt 64 128 a);
            (S f, ZExt 64 128 d);
            (S (S f), Call name [Reg f; Reg (S f)]);
            (f + 3, Trunc 128 64 (Reg (S (S f))));
            (f + 4, Bin LShr (TInt 128) (Reg (S (S f))) (Const 64));
            (f + 5, ICmpNE 128 (Reg (f + 4)) (Const 0));
            (p.1, InsertPair (Reg (f + 3)) (Reg (f + 5))) ]%nat
      | MulWithOverflow true _ a d =>
          [ (f, CallSlot name [a; d] f);
            (S f, LoadSlot f);
            (S (S f), ICmpNE 32 (Reg (S f)) (Const 0));
            (p.1, InsertPair (Reg f) (Reg (S (S f)))) ]%nat
      | _ => [p]
      end
  end.

(** [RequiredIntegerLibcalls]: the helpers used and not defined, in order. *)
Definition RequiredIntegerLibcalls (defined : string → bool) (bl : block) : list string :=
  foldl (λ result p,
           match arithmeticLibcall p.2 with
           | Some name =>
               if negb (defined name) && negb (bool_decide (name ∈ result)) then result ++ [name] else result
           | None => result
           end) [] bl.

(** ** A pass over a block

    Each replaced instruction gets its own scratch registers. *)
Definition scratch : nat := 16.

Fixpoint expandBlock (expand : nat * inst → nat → block) (bl : block) (fresh : nat) : block :=
  match bl with
  | [] => []
  | p :: bl => expand p fresh ++ expandBlock expand bl (fresh + scratch)
  end.

Definition LowerSDiv (bl : block) (fresh : nat) : block :=
  expandBlock (λ p f, (sdivInst p f).1) bl fresh.
Definition LowerSDivErrors (bl : block) : nat :=
  length (filter (λ p, (sdivInst p 0).2 = true) bl).
Definition SplitShift63 (bl : block) (fresh : nat) : block := expandBlock shift63Inst bl fresh.
Definition ExpandI128 (bl : block) (fresh : nat) : block := expandBlock i128Inst bl fresh.

(** The registers and slots of a block are below [fresh]. *)
Definition operandsOf (i : inst) : list operand :=
  match i with
  | Bin _ _ a b | ICmpNE _ a b | MulWithOverflow _ _ a b | InsertPair a b => [a; b]
  | SExtOrTrunc _ _ a | ZExt _ _ a | Trunc _ _ a => [a]
  | Call _ args | CallSlot _ args _ | Opaque _ args => args
  | LoadSlot _ => []
  end.
Definition slotOf (i : inst) : option nat :=
  match i with CallSlot _ _ s | LoadSlot s => Some s | _ => None end.
Definition below (fresh : nat) (p : nat * inst) : bool :=
  Nat.ltb p.1 fresh &&
  forallb (λ o, match o with Reg r => Nat.ltb r fresh | Const _ => true end) (operandsOf p.2) &&
  match slotOf p.2 with Some s => Nat.ltb s fresh | None => true end.

End Arith.
