(* ===== verification/ArithFacts.v ===== *)
(** * The arithmetic lowerings refine the instructions they replace *)

From Stdlib Require Import ZArith Lia.
From stdpp Require Import base numbers list gmap sets fin_maps strings.
From S2P Require Import Prelude Arith.

Import Arith.
Local Open Scope Z_scope.

(** ** Words *)

Lemma sgn_range w x : 0 < w → 0 <= x < 2 ^ w → - 2 ^ (w - 1) <= sgn w x < 2 ^ (w - 1).
Proof.
  intros Hw Hx. assert (E : 2 ^ w = 2 * 2 ^ (w - 1)).
  { rewrite <-Z.pow_succ_r by lia. f_equal. lia. }
  unfold sgn. destruct (Z.ltb_spec x (2 ^ (w - 1))); lia.
Qed.

Lemma wrap_sgn w x : 0 < w → 0 <= x < 2 ^ w → wrap w (sgn w x) = x.
Proof.
  intros Hw Hx. unfold sgn. destruct (Z.ltb_spec x (2 ^ (w - 1))); [by apply wrap_small|].
  unfold wrap. rewrite <-(Z.mod_add _ 1) by lia. rewrite Z.mod_small; lia.
Qed.

Lemma sgn_wrap w x : 0 < w → - 2 ^ (w - 1) <= x < 2 ^ (w - 1) → sgn w (wrap w x) = x.
Proof.
  intros Hw Hx. assert (E : 2 ^ w = 2 * 2 ^ (w - 1)).
  { rewrite <-Z.pow_succ_r by lia. f_equal. lia. }
  unfold sgn, wrap. destruct (Z_lt_le_dec x 0).
  - rewrite <-(Z.mod_add _ 1), Z.mod_small by lia. destruct (Z.ltb_spec (x + 1 * 2 ^ w) (2 ^ (w - 1))); lia.
  - rewrite Z.mod_small by lia. destruct (Z.ltb_spec x (2 ^ (w - 1))); lia.
Qed.

Lemma wrap_wrap v w x : 0 <= v <= w → wrap v (wrap w x) = wrap v x.
Proof.
  intros Hvw. unfold wrap. replace (2 ^ w) with (2 ^ v * 2 ^ (w - v)).
  - by rewrite Z.mod_mod_divide by (apply Z.divide_factor_l).
  - rewrite <-Z.pow_add_r by lia. f_equal. lia.
Qed.

(** Sign extension keeps the signed value. *)
Lemma sgn_sext v w x : 0 < v <= w → 0 <= x < 2 ^ v → sgn w (wrap w (sgn v x)) = sgn v x.
Proof.
  intros Hvw Hx. apply sgn_wrap; [lia|]. pose proof (sgn_range v x ltac:(lia) Hx).
  assert (2 ^ (v - 1) <= 2 ^ (w - 1)) by (apply Z.pow_le_mono_r; lia). lia.
Qed.

(** The sign word of [x]: all ones if it is negative. *)
Definition signWord (w x : Z) : Z := if sgn w x <? 0 then 2 ^ w - 1 else 0.

Lemma ashr_sign w x : 0 < w → 0 <= x < 2 ^ w → wrap w (Z.shiftr (sgn w x) (w - 1)) = signWord w x.
Proof.
  intros Hw Hx. pose proof (sgn_range w x Hw Hx) as Hs. unfold signWord. rewrite Z.shiftr_div_pow2 by lia.
  pose proof (pow2_pos (w - 1) ltac:(lia)). pose proof (pow2_pos w ltac:(lia)).
  destruct (Z.ltb_spec (sgn w x) 0).
  - replace (sgn w x / 2 ^ (w - 1)) with (-1); [|apply Z.div_unique with (sgn w x + 2 ^ (w - 1)); lia].
    unfold wrap. rewrite <-(Z.mod_add _ 1) by lia. rewrite Z.mod_small; lia.
  - rewrite Z.div_small by lia. apply wrap_small. lia.
Qed.

Lemma lxor_ones w x : 0 <= w → 0 <= x < 2 ^ w → Z.lxor x (2 ^ w - 1) = 2 ^ w - 1 - x.
Proof.
  intros Hw Hx. replace (2 ^ w - 1) with (Z.ones w) by (rewrite Z.ones_equiv; lia).
  assert (Hl : Z.ldiff x (Z.ones w) = 0).
  { rewrite Z.ldiff_ones_r by lia. rewrite Z.shiftr_div_pow2, Z.div_small by lia. by rewrite Z.shiftl_0_l. }
  rewrite Z.sub_nocarry_ldiff by done. apply Z.bits_inj. intros k.
  rewrite Z.lxor_spec, Z.ldiff_spec.
  assert (Hk : Z.testbit (Z.ldiff x (Z.ones w)) k = false) by (rewrite Hl; apply Z.bits_0).
  rewrite Z.ldiff_spec in Hk. destruct (Z.testbit x k), (Z.testbit (Z.ones w) k); done.
Qed.

(** [(m ^ s) - s] negates [m] when [s] is all ones. *)
Lemma apply_sign w m s : 0 <= w → 0 <= m < 2 ^ w →
  s = 0 ∨ s = 2 ^ w - 1 → wrap w (Z.lxor m s - s) = wrap w (if s =? 0 then m else - m).
Proof.
  intros Hw Hm [->| ->].
  - by rewrite Z.lxor_0_r, Z.sub_0_r.
  - rewrite lxor_ones by done. destruct (Z.eqb_spec (2 ^ w - 1) 0).
    + assert (m = 0) by lia. subst. f_equal. lia.
    + f_equal. lia.
Qed.

Lemma signWord_cases w x : signWord w x = 0 ∨ signWord w x = 2 ^ w - 1.
Proof. unfold signWord. destruct (_ <? 0); auto. Qed.

Lemma magnitude w x : 0 < w → 0 <= x < 2 ^ w →
  wrap w (Z.lxor x (signWord w x) - signWord w x) = Z.abs (sgn w x).
Proof.
  intros Hw Hx. rewrite apply_sign by (lia || apply signWord_cases).
  pose proof (sgn_range w x Hw Hx) as Hs. pose proof (wrap_sgn w x Hw Hx) as Hws.
  assert (E : 2 ^ w = 2 * 2 ^ (w - 1)).
  { rewrite <-Z.pow_succ_r by lia. f_equal. lia. }
  pose proof (pow2_pos (w - 1) ltac:(lia)).
  unfold signWord in *. destruct (Z.ltb_spec (sgn w x) 0).
  - destruct (Z.eqb_spec (2 ^ w - 1) 0); [lia|].
    assert (Hxs : x = sgn w x + 2 ^ w).
    { unfold sgn in *. destruct (Z.ltb_spec x (2 ^ (w - 1))); lia. }
    unfold wrap. rewrite <-(Z.mod_add (- x) 1) by lia. rewrite Z.mod_small; lia.
  - simpl. rewrite wrap_small by lia. unfold sgn in *. destruct (Z.ltb_spec x (2 ^ (w - 1))); lia.
Qed.

Lemma signWord_range w x : 0 <= w → 0 <= signWord w x < 2 ^ w.
Proof. intros Hw. pose proof (pow2_pos w Hw). unfold signWord. destruct (_ <? 0); lia. Qed.

Lemma lxor_range w a b : 0 <= w → 0 <= a < 2 ^ w → 0 <= b < 2 ^ w → 0 <= Z.lxor a b < 2 ^ w.
Proof.
  intros Hw Ha Hb. assert (0 <= Z.lxor a b) by (apply Z.lxor_nonneg; lia). split; [done|].
  destruct (decide (Z.lxor a b = 0)) as [->|]; [auto with capsule|].
  apply Z.log2_lt_pow2; [lia|]. pose proof (Z.log2_lxor a b ltac:(lia) ltac:(lia)).
  assert (∀ z, 0 <= z < 2 ^ w → Z.log2 z < w ∨ z = 0) as Hl.
  { intros z Hz. destruct (decide (z = 0)); [by right|left]. apply Z.log2_lt_pow2; lia. }
  destruct (Hl a Ha) as [?| ->], (Hl b Hb) as [?| ->]; rewrite ?Z.lxor_0_l, ?Z.lxor_0_r in *; lia.
Qed.

(** Signed division through magnitudes. *)
Lemma quot_magnitude w x y : 0 < w → 0 <= x < 2 ^ w → 0 <= y < 2 ^ w → sgn w y ≠ 0 →
  let s := Z.lxor (signWord w x) (signWord w y) in
  wrap w (Z.lxor (Z.abs (sgn w x) / Z.abs (sgn w y)) s - s) = wrap w (Z.quot (sgn w x) (sgn w y)).
Proof.
  intros Hw Hx Hy Hy0 s.
  assert (Hone : 1 <= 2 ^ w - 1).
  { assert (2 ^ 1 <= 2 ^ w) by (apply Z.pow_le_mono_r; lia). lia. }
  assert (E : 2 ^ w = 2 * 2 ^ (w - 1)).
  { rewrite <-Z.pow_succ_r by lia. f_equal. lia. }
  assert (Hs : s = if xorb (sgn w x <? 0) (sgn w y <? 0) then 2 ^ w - 1 else 0).
  { unfold s, signWord. destruct (sgn w x <? 0), (sgn w y <? 0); simpl.
    - apply Z.lxor_nilpotent.
    - apply Z.lxor_0_r.
    - apply Z.lxor_0_l.
    - done. }
  pose proof (sgn_range w x Hw Hx). pose proof (sgn_range w y Hw Hy).
  assert (Hq : 0 <= Z.abs (sgn w x) / Z.abs (sgn w y) <= Z.abs (sgn w x)).
  { split; [apply Z.div_pos; lia|]. apply Z.div_le_upper_bound; nia. }
  rewrite apply_sign by (first [lia|rewrite Hs; destruct (xorb _ _); auto]).
  rewrite Z.quot_div by done. f_equal. rewrite Hs.
  destruct (Z.ltb_spec (sgn w x) 0), (Z.ltb_spec (sgn w y) 0); simpl;
    rewrite ?(proj2 (Z.eqb_neq (2 ^ w - 1) 0)) by lia; nia.
Qed.

Lemma rem_magnitude w x y : 0 < w → 0 <= x < 2 ^ w → 0 <= y < 2 ^ w → sgn w y ≠ 0 →
  let s := signWord w x in
  wrap w (Z.lxor (Z.abs (sgn w x) mod Z.abs (sgn w y)) s - s) = wrap w (Z.rem (sgn w x) (sgn w y)).
Proof.
  intros Hw Hx Hy Hy0 s.
  assert (Hone : 1 <= 2 ^ w - 1).
  { assert (2 ^ 1 <= 2 ^ w) by (apply Z.pow_le_mono_r; lia). lia. }
  assert (E : 2 ^ w = 2 * 2 ^ (w - 1)).
  { rewrite <-Z.pow_succ_r by lia. f_equal. lia. }
  pose proof (sgn_range w x Hw Hx). pose proof (sgn_range w y Hw Hy).
  pose proof (Z.mod_pos_bound (Z.abs (sgn w x)) (Z.abs (sgn w y)) ltac:(lia)).
  rewrite apply_sign by (first [lia|apply signWord_cases]).
  rewrite Z.rem_mod by done. f_equal. unfold s, signWord.
  destruct (Z.ltb_spec (sgn w x) 0).
  - rewrite (proj2 (Z.eqb_neq (2 ^ w - 1) 0)) by lia. rewrite Z.sgn_neg by lia. lia.
  - simpl. destruct (decide (sgn w x = 0)) as [->|]; [by rewrite Z.abs_0, Z.mod_0_l by lia|].
    rewrite Z.sgn_pos by lia. lia.
Qed.

(** ** Executing sequences *)

Definition setReg (st : state) (r : nat) (v : val) : state := State (<[r := v]> (regs st)) (mem st).

Definition is_word (w x : Z) : Prop := 0 <= x < 2 ^ w.

Lemma readWord_Some st w o x : readWord st w o = Some x ↔ readInt st o = Some x ∧ is_word w x.
Proof.
  unfold readWord, is_word. destruct (readInt st o) as [z|]; [|naive_solver].
  destruct (0 <=? z) eqn:E1, (z <? 2 ^ w) eqn:E2; simpl; bool_to_prop; split; try naive_solver lia.
Qed.

Lemma readInt_set_eq st r z : readInt (setReg st r (Int z)) (Reg r) = Some z.
Proof. unfold readInt, readVal. simpl. by rewrite lookup_insert_eq. Qed.

Lemma readInt_set_ne st r v s : r ≠ s → readInt (setReg st r v) (Reg s) = readInt st (Reg s).
Proof. intros. unfold readInt, readVal. simpl. by rewrite lookup_insert_ne. Qed.

Lemma readInt_const st z : readInt st (Const z) = Some z.
Proof. done. Qed.

Section exec.
Context (lib : library).

Lemma step_bin st d op w a b x y z :
  readWord st w a = Some x → readWord st w b = Some y → evalBin op w x y = Some z →
  stepInst lib st (d, Bin op (TInt w) a b) = Some (setReg st d (Int z)).
Proof. intros Ha Hb Hz. unfold stepInst. simpl. by rewrite Ha, Hb, Hz. Qed.

Lemma step_sext st d v w a x :
  readWord st v a = Some x →
  stepInst lib st (d, SExtOrTrunc v w a) = Some (setReg st d (Int (wrap w (sgn v x)))).
Proof. intros Ha. unfold stepInst. simpl. by rewrite Ha. Qed.

Lemma step_zext st d v w a x :
  readWord st v a = Some x → stepInst lib st (d, ZExt v w a) = Some (setReg st d (Int x)).
Proof. intros Ha. unfold stepInst. simpl. by rewrite Ha. Qed.

Lemma step_trunc st d v w a x :
  readWord st v a = Some x → stepInst lib st (d, Trunc v w a) = Some (setReg st d (Int (wrap w x))).
Proof. intros Ha. unfold stepInst. simpl. by rewrite Ha. Qed.

Lemma step_icmp st d w a b x y :
  readWord st w a = Some x → readWord st w b = Some y →
  stepInst lib st (d, ICmpNE w a b) = Some (setReg st d (Int (if x =? y then 0 else 1))).
Proof. intros Ha Hb. unfold stepInst. simpl. by rewrite Ha, Hb. Qed.

Lemma step_pair st d a b x y :
  readInt st a = Some x → readInt st b = Some y →
  stepInst lib st (d, InsertPair a b) = Some (setReg st d (Pair x y)).
Proof. intros Ha Hb. unfold stepInst. simpl. by rewrite Ha, Hb. Qed.

Lemma step_call st d name a b x y z :
  readInt st a = Some x → readInt st b = Some y → lib_call lib name [x; y] = Some z →
  stepInst lib st (d, Call name [a; b]) = Some (setReg st d (Int z)).
Proof. intros Ha Hb Hz. unfold stepInst. simpl. by rewrite Ha, Hb; simpl; rewrite Hz. Qed.

Lemma exec_cons p bl st st1 :
  stepInst lib st p = Some st1 → execBlock lib (p :: bl) st = execBlock lib bl st1.
Proof. intros H. simpl. by rewrite H. Qed.

(** ** Simulation up to the scratch registers *)

Record sim (n : nat) (s1 s2 : state) : Prop := {
  sim_regs r : (r < n)%nat → regs s1 !! r = regs s2 !! r;
  sim_mem s : (s < n)%nat → mem s1 !! s = mem s2 !! s;
}.

Lemma sim_refl n st : sim n st st. Proof. done. Qed.

Lemma sim_trans n s1 s2 s3 : sim n s1 s2 → sim n s2 s3 → sim n s1 s3.
Proof. intros [H1 H2] [H3 H4]. split; intros; [by rewrite H1, H3|by rewrite H2, H4]. Qed.

(** Writing a scratch register is invisible. *)
Lemma sim_scratch n st1 st r v : (n <= r)%nat → sim n st1 st → sim n st1 (setReg st r v).
Proof.
  intros Hr [H1 H2]. split; [|done]. intros k Hk. simpl. rewrite lookup_insert_ne by lia. auto.
Qed.

Lemma sim_set n st1 st2 r v : sim n st1 st2 → sim n (setReg st1 r v) (setReg st2 r v).
Proof.
  intros [H1 H2]. split; [|done]. intros k Hk. simpl. destruct (decide (r = k)) as [->|].
  - by rewrite !lookup_insert_eq.
  - rewrite !lookup_insert_ne by done. auto.
Qed.

Definition operand_below (n : nat) (o : operand) : Prop :=
  match o with Reg r => (r < n)%nat | Const _ => True end.

Lemma below_spec n p :
  below n p = true ↔ (p.1 < n)%nat ∧ (∀ o, o ∈ operandsOf p.2 → operand_below n o) ∧
                     (∀ s, slotOf p.2 = Some s → (s < n)%nat).
Proof.
  unfold below. rewrite !andb_true_iff, Nat.ltb_lt, forallb_forall. unfold operand_below. split.
  - intros [[? Ho] Hs]. split_and!; [done| |].
    + intros o Ho'%list_elem_of_In%Ho. destruct o; [by apply Nat.ltb_lt|done].
    + intros s Es. rewrite Es in Hs. by apply Nat.ltb_lt.
  - intros (? & Ho & Hs). split_and!; [done| |].
    + intros o Ho'%list_elem_of_In%Ho. destruct o; [by apply Nat.ltb_lt|done].
    + destruct (slotOf p.2); [|done]. apply Nat.ltb_lt. by apply Hs.
Qed.

Lemma sim_readVal n s1 s2 o : sim n s1 s2 → operand_below n o → readVal s1 o = readVal s2 o.
Proof. intros [H _]. destruct o; simpl; [apply H|done]. Qed.

Lemma sim_readInt n s1 s2 o : sim n s1 s2 → operand_below n o → readInt s1 o = readInt s2 o.
Proof. intros Hs Ho. unfold readInt. by rewrite (sim_readVal n s1 s2). Qed.

Lemma sim_readWord n s1 s2 w o : sim n s1 s2 → operand_below n o → readWord s1 w o = readWord s2 w o.
Proof. intros Hs Ho. unfold readWord. by rewrite (sim_readInt n s1 s2). Qed.

Lemma sim_mapM {A} n (f1 f2 : operand → option A) os :
  (∀ o, operand_below n o → f1 o = f2 o) → (∀ o, o ∈ os → operand_below n o) → mapM f1 os = mapM f2 os.
Proof.
  intros Hf. induction os as [|o os IH]; intros Ho; [done|]. simpl. rewrite (Hf o) by (apply Ho; by left).
  rewrite IH; [done|]. intros x Hx. apply Ho. by right.
Qed.

(** An instruction below [n] does the same in similar states. *)
Lemma step_sim n s1 s2 p s1' :
  sim n s1 s2 → below n p = true → stepInst lib s1 p = Some s1' →
  ∃ s2', stepInst lib s2 p = Some s2' ∧ sim n s1' s2'.
Proof.
  intros Hs (Hd & Ho & Hslot)%below_spec. destruct p as [d i]. unfold stepInst. simpl in *.
  assert (Heval : ∀ v m1, evalInst lib s1 i = Some (v, m1) →
    ∃ m2, evalInst lib s2 i = Some (v, m2) ∧ ∀ s, (s < n)%nat → m1 !! s = m2 !! s).
  { assert (Hw : ∀ w o, o ∈ operandsOf i → readWord s1 w o = readWord s2 w o).
    { intros. apply (sim_readWord n); auto. }
    assert (Hi : ∀ o, o ∈ operandsOf i → readInt s1 o = readInt s2 o).
    { intros. apply (sim_readInt n); auto. }
    assert (Hmi : mapM (readInt s1) (operandsOf i) = mapM (readInt s2) (operandsOf i)).
    { apply (sim_mapM n); [|done]. intros. by apply (sim_readInt n). }
    assert (Hmv : mapM (readVal s1) (operandsOf i) = mapM (readVal s2) (operandsOf i)).
    { apply (sim_mapM n); [|done]. intros. by apply (sim_readVal n). }
    pose proof (sim_mem _ _ _ Hs) as Hm. intros v m1 He.
    destruct i as [op [w|] a b|v1 v2 a|v1 v2 a|v1 v2 a|w a b|sg w a b|name args|name args sl|sl|a b|t args];
      simpl in *; rewrite ?Hw, ?Hi in He by set_solver; rewrite ?Hmi, ?Hmv in He.
    - destruct (readWord s2 w a); [|done]. destruct (readWord s2 w b); [|done].
      apply fmap_Some in He as (q & -> & [= -> ->]). by exists (mem s2).
    - done.
    - apply fmap_Some in He as (q & -> & [= -> ->]). by exists (mem s2).
    - apply fmap_Some in He as (q & -> & [= -> ->]). by exists (mem s2).
    - apply fmap_Some in He as (q & -> & [= -> ->]). by exists (mem s2).
    - destruct (readWord s2 w a); [|done]. destruct (readWord s2 w b); [|done].
      injection He as <- <-. by exists (mem s2).
    - destruct (readWord s2 w a); [|done]. destruct (readWord s2 w b); [|done].
      injection He as <- <-. by exists (mem s2).
    - destruct (mapM (readInt s2) args); [|done]. apply fmap_Some in He as (q & -> & [= -> ->]). by exists (mem s2).
    - destruct (mapM (readInt s2) args); [|done]. apply fmap_Some in He as (q & -> & [= -> ->]).
      exists (<[sl := q.2]> (mem s2)). split; [done|]. intros s Hlt.
      destruct (decide (sl = s)) as [->|]; [by rewrite !lookup_insert_eq|].
      rewrite !lookup_insert_ne by done. auto.
    - apply fmap_Some in He as (q & Hq & [= -> ->]). rewrite Hm in Hq by (by apply Hslot).
      rewrite Hq. by exists (mem s2).
    - destruct (readInt s2 a); [|done]. destruct (readInt s2 b); [|done].
      injection He as <- <-. by exists (mem s2).
    - destruct (mapM (readVal s2) args); [|done]. apply fmap_Some in He as (q & -> & [= -> ->]). by exists (mem s2). }
  destruct (evalInst lib s1 i) as [[v m1]|] eqn:E1; simpl; [|done]. intros [= <-].
  destruct (Heval v m1 eq_refl) as (m2 & -> & Hm). eexists. split; [done|]. split; simpl; [|done].
  intros r Hr. destruct (decide (d = r)) as [->|]; [by rewrite !lookup_insert_eq|].
  rewrite !lookup_insert_ne by done. by apply Hs.
Qed.

(** An expansion that refines each instruction refines the block. *)
Definition refines (expand : nat * inst → nat → block) (bl : block) : Prop :=
  ∀ n p f st st1, p ∈ bl → below n p = true → (n <= f)%nat → stepInst lib st p = Some st1 →
    ∃ st2, execBlock lib (expand p f) st = Some st2 ∧ sim n st1 st2.

Lemma execBlock_app bl1 bl2 st :
  execBlock lib (bl1 ++ bl2) st = match execBlock lib bl1 st with Some st => execBlock lib bl2 st | None => None end.
Proof.
  revert st. induction bl1 as [|p bl1 IH]; intros st; simpl; [done|]. by destruct (stepInst lib st p).
Qed.

Lemma expandBlock_refines expand bl n fresh s1 s2 s1' :
  refines expand bl → (∀ p, p ∈ bl → below n p = true) → (n <= fresh)%nat → sim n s1 s2 →
  execBlock lib bl s1 = Some s1' →
  ∃ s2', execBlock lib (expandBlock expand bl fresh) s2 = Some s2' ∧ sim n s1' s2'.
Proof.
  revert fresh s1 s2. induction bl as [|p bl IH]; intros fresh s1 s2 Href Hb Hn Hs; simpl.
  { intros [= <-]. by exists s2. }
  destruct (stepInst lib s1 p) as [t1|] eqn:E1; [|done]. intros Hrest.
  destruct (step_sim n s1 s2 p t1) as (t2 & E2 & Ht); [done|apply Hb; by left|done|].
  destruct (Href n p fresh s2 t2) as (t3 & E3 & Ht3); [by left|apply Hb; by left|done|done|].
  rewrite execBlock_app, E3. apply (IH (fresh + scratch)%nat t1); [| |lia| |done].
  - intros m q f st st1 Hq. apply Href. by right.
  - intros q Hq. apply Hb. by right.
  - by eapply sim_trans.
Qed.

Lemma refines_self p n st st1 :
  stepInst lib st p = Some st1 → ∃ st2, execBlock lib [p] st = Some st2 ∧ sim n st1 st2.
Proof. intros H. exists st1. simpl. rewrite H. split; [done|apply sim_refl]. Qed.
End exec.
