(* ===== verification/ArithProps.v ===== *)
(** * What the arithmetic lowerings guarantee *)

From Stdlib Require Import ZArith Lia.
From stdpp Require Import base numbers list gmap sets fin_maps strings.
From S2P Require Import Prelude Arith ArithFacts.

Import Arith.
Local Open Scope Z_scope.

Lemma readInt_below n st r v o :
  operand_below n o → (n <= r)%nat → readInt (setReg st r v) o = readInt st o.
Proof.
  intros Ho Hr. destruct o as [s|z]; [|done]. simpl in Ho. apply readInt_set_ne. lia.
Qed.

(** Read a register written in a sequence, or an operand from before it. *)
Ltac read_through n :=
  repeat first [ rewrite readInt_set_eq | rewrite readInt_set_ne by lia
               | rewrite (readInt_below n) by (done || lia) | rewrite readInt_const ];
  try reflexivity; try eassumption.

Ltac word_of n := apply readWord_Some; split; [read_through n|].

Section sdiv.
Context (lib : library).

Lemma evalBin_sdiv op w x y z :
  isSigned op = true → is_word w x → is_word w y → evalBin op w x y = Some z →
  0 < w ∧ sgn w y ≠ 0 ∧
  z = wrap w (if decide (op = SDiv) then Z.quot (sgn w x) (sgn w y) else Z.rem (sgn w x) (sgn w y)).
Proof.
  unfold isSigned, is_word. intros [-> | ->]%bool_decide_eq_true Hx Hy; simpl;
    destruct (Z.eqb_spec y 0) as [->|Hy0]; simpl; try done;
    destruct ((sgn w x =? - 2 ^ (w - 1)) && (sgn w y =? -1)); try done; intros [= <-].
  all: assert (0 < w) as Hw by
    (destruct (Z_lt_le_dec 0 w); [done|]; destruct (decide (w = 0)) as [->|]; [simpl in Hy; lia|];
     rewrite (Z.pow_neg_r 2 w) in Hy by lia; lia).
  all: split_and!; [done| |done].
  all: unfold sgn; destruct (Z.ltb_spec y (2 ^ (w - 1))); lia.
Qed.

Section sequence.
Context (bits w : Z) (Hw : 0 < w <= bits).

Lemma sext_facts v : is_word w v →
  is_word bits (wrap bits (sgn w v)) ∧ sgn bits (wrap bits (sgn w v)) = sgn w v ∧
  is_word bits (signWord bits (wrap bits (sgn w v))) ∧
  is_word bits (Z.lxor (wrap bits (sgn w v)) (signWord bits (wrap bits (sgn w v)))) ∧
  is_word bits (Z.abs (sgn w v)).
Proof.
  intros Hv. assert (WX : is_word bits (wrap bits (sgn w v))) by (apply wrap_range; lia).
  assert (WS : is_word bits (signWord bits (wrap bits (sgn w v)))) by (apply signWord_range; lia).
  assert (SX : sgn bits (wrap bits (sgn w v)) = sgn w v) by (apply sgn_sext; [lia|done]).
  split_and!; [done|done|done|apply lxor_range; [lia|done|done]|].
  pose proof (sgn_range bits _ ltac:(lia) WX) as HR. rewrite SX in HR.
  assert (2 ^ bits = 2 * 2 ^ (bits - 1)) by (rewrite <-Z.pow_succ_r by lia; f_equal; lia).
  unfold is_word. lia.
Qed.

Lemma shift_const : is_word bits (bits - 1) ∧ (bits - 1 <? bits) = true.
Proof.
  split; [|apply Z.ltb_lt; lia]. assert (bits < 2 ^ bits) by (apply Z.pow_gt_lin_r; lia).
  unfold is_word. lia.
Qed.

Lemma sign_step st r s v :
  is_word w v → readInt st (Reg s) = Some (wrap bits (sgn w v)) →
  stepInst lib st (r, Bin AShr (TInt bits) (Reg s) (Const (bits - 1))) =
  Some (setReg st r (Int (signWord bits (wrap bits (sgn w v))))).
Proof.
  intros Hv Hs. destruct (sext_facts v Hv) as (WX & _). destruct shift_const as [Wb Hlt].
  eapply step_bin; [by apply readWord_Some|by apply readWord_Some|].
  simpl. rewrite Hlt, ashr_sign by (done || lia). done.
Qed.

Lemma xor_step st r s t u v :
  is_word bits u → is_word bits v → readInt st (Reg s) = Some u → readInt st (Reg t) = Some v →
  stepInst lib st (r, Bin Xor (TInt bits) (Reg s) (Reg t)) = Some (setReg st r (Int (Z.lxor u v))).
Proof. intros Hu Hv Hs Ht. by eapply step_bin; [apply readWord_Some|apply readWord_Some|]. Qed.

Lemma sub_step st r s t u v :
  is_word bits u → is_word bits v → readInt st (Reg s) = Some u → readInt st (Reg t) = Some v →
  stepInst lib st (r, Bin Sub (TInt bits) (Reg s) (Reg t)) = Some (setReg st r (Int (wrap bits (u - v)))).
Proof. intros Hu Hv Hs Ht. by eapply step_bin; [apply readWord_Some|apply readWord_Some|]. Qed.

Context (a b : operand) (n f : nat) (x y : Z) (Hn : (n <= f)%nat).
Context (Wx : is_word w x) (Wy : is_word w y).
Context (Hb : operand_below n b).
Abbreviation X := (wrap bits (sgn w x)).
Abbreviation Y := (wrap bits (sgn w y)).

Lemma magnitudes_exec st :
  readInt st a = Some x → readInt st b = Some y →
  ∃ st', execBlock lib (sdivMagnitudes bits w a b f) st = Some st' ∧ sim n st st' ∧
    readInt st' (Reg (f + 2)) = Some (signWord bits X) ∧
    readInt st' (Reg (f + 3)) = Some (signWord bits Y) ∧
    readInt st' (Reg (f + 5)) = Some (Z.abs (sgn w x)) ∧
    readInt st' (Reg (f + 7)) = Some (Z.abs (sgn w y)).
Proof.
  intros Ra Rb. destruct (sext_facts x Wx) as (WX & SX & WSX & WLX & WMX).
  destruct (sext_facts y Wy) as (WY & SY & WSY & WLY & WMY).
  unfold sdivMagnitudes.
  replace (Z.abs (sgn w x)) with (wrap bits (Z.lxor X (signWord bits X) - signWord bits X))
    by (rewrite magnitude by (done || lia); by rewrite SX).
  replace (Z.abs (sgn w y)) with (wrap bits (Z.lxor Y (signWord bits Y) - signWord bits Y))
    by (rewrite magnitude by (done || lia); by rewrite SY).
  eexists. split.
  { erewrite exec_cons; [|eapply step_sext; word_of n; exact Wx].
    erewrite exec_cons; [|eapply step_sext; word_of n; exact Wy].
    erewrite exec_cons; [|eapply (sign_step _ _ _ x); [done|read_through n]].
    erewrite exec_cons; [|eapply (sign_step _ _ _ y); [done|read_through n]].
    erewrite exec_cons; [|eapply xor_step; [exact WX|exact WSX|read_through n|read_through n]].
    erewrite exec_cons; [|eapply sub_step; [exact WLX|exact WSX|read_through n|read_through n]].
    erewrite exec_cons; [|eapply xor_step; [exact WY|exact WSY|read_through n|read_through n]].
    erewrite exec_cons; [|eapply sub_step; [exact WLY|exact WSY|read_through n|read_through n]].
    reflexivity. }
  split_and!; [repeat (apply sim_scratch; [lia|]); apply sim_refl| | | |]; read_through n.
Qed.
End sequence.

Lemma lowerSDiv_refines op w a b d n f st st1 :
  isSigned op = true → w <= 64 → below n (d, Bin op (TInt w) a b) = true → (n <= f)%nat →
  stepInst lib st (d, Bin op (TInt w) a b) = Some st1 →
  ∃ st2, execBlock lib (lowerSDiv op w a b d f) st = Some st2 ∧ sim n st1 st2.
Proof.
  intros Hop Hw64 (Hd & Ho & _)%below_spec Hn. unfold stepInst. cbn [evalInst fst snd operandsOf] in *.
  destruct (readWord st w a) as [x|] eqn:Ea; [|done]. destruct (readWord st w b) as [y|] eqn:Eb; [|done].
  destruct (evalBin op w x y) as [z|] eqn:Ez; [|done]. intros [= <-].
  apply readWord_Some in Ea as [Ra Wx]. apply readWord_Some in Eb as [Rb Wy].
  destruct (evalBin_sdiv op w x y z Hop Wx Wy Ez) as (Hw & Hy0 & ->).
  unfold lowerSDiv. set (bits := if w <=? 32 then 32 else 64).
  assert (Hbits : 0 < w <= bits) by (subst bits; destruct (Z.leb_spec w 32); lia). clearbody bits.
  assert (Hb : operand_below n b) by (apply Ho; right; by left).
  destruct (magnitudes_exec bits w Hbits a b n f x y Hn Wx Wy Hb st Ra Rb)
    as (st' & Hexec & Hsim & R2 & R3 & R5 & R7).
  cbv zeta. rewrite execBlock_app, Hexec.
  destruct (sext_facts bits w Hbits x Wx) as (WX & SX & WSX & _ & WMX).
  destruct (sext_facts bits w Hbits y Wy) as (WY & SY & WSY & _ & WMY).
  assert (HM : 0 < Z.abs (sgn w y)) by lia.
  unfold isSigned in Hop. apply bool_decide_eq_true in Hop as [-> | ->].
  - rewrite bool_decide_true, decide_True by done. cbn [app].
    assert (WQ : is_word bits (Z.abs (sgn w x) / Z.abs (sgn w y))).
    { split; [apply Z.div_pos; lia|]. apply Z.le_lt_trans with (Z.abs (sgn w x)); [|apply WMX].
      apply Z.div_le_upper_bound; nia. }
    set (s := Z.lxor (signWord bits (wrap bits (sgn w x))) (signWord bits (wrap bits (sgn w y)))).
    assert (WS : is_word bits s) by (apply lxor_range; [lia|done|done]).
    eexists. split.
    { erewrite exec_cons; [|eapply step_bin; [word_of n; exact WMX|word_of n; exact WMY|
        simpl; by rewrite (proj2 (Z.eqb_neq _ _)) by lia]].
      erewrite exec_cons; [|eapply xor_step; [exact WSX|exact WSY|read_through n|read_through n]].
      erewrite exec_cons; [|eapply xor_step; [exact WQ|exact WS|read_through n|read_through n]].
      erewrite exec_cons; [|eapply sub_step; [apply lxor_range; [lia|exact WQ|exact WS]|exact WS|read_through n|read_through n]].
      erewrite exec_cons; [|eapply step_trunc; word_of n; apply wrap_range; lia]. reflexivity. }
    pose proof (quot_magnitude bits (wrap bits (sgn w x)) (wrap bits (sgn w y))
      ltac:(lia) WX WY ltac:(by rewrite SY)) as Q. rewrite SX, SY in Q. fold s in Q. rewrite Q.
    rewrite wrap_wrap by lia. apply sim_set. repeat (apply sim_scratch; [lia|]). done.
  - rewrite bool_decide_false, decide_False by done. cbn [app].
    pose proof (Z.mod_pos_bound (Z.abs (sgn w x)) (Z.abs (sgn w y)) HM) as HR.
    assert (WQ : is_word bits (Z.abs (sgn w x) mod Z.abs (sgn w y))) by (unfold is_word in *; lia).
    eexists. split.
    { erewrite exec_cons; [|eapply step_bin; [word_of n; exact WMX|word_of n; exact WMY|
        simpl; by rewrite (proj2 (Z.eqb_neq _ _)) by lia]].
      erewrite exec_cons; [|eapply xor_step; [exact WQ|exact WSX|read_through n|read_through n]].
      erewrite exec_cons; [|eapply sub_step; [apply lxor_range; [lia|exact WQ|exact WSX]|exact WSX|read_through n|read_through n]].
      erewrite exec_cons; [|eapply step_trunc; word_of n; apply wrap_range; lia]. reflexivity. }
    pose proof (rem_magnitude bits (wrap bits (sgn w x)) (wrap bits (sgn w y))
      ltac:(lia) WX WY ltac:(by rewrite SY)) as Q. rewrite SX, SY in Q. cbv zeta in Q. rewrite Q.
    rewrite wrap_wrap by lia. apply sim_set. repeat (apply sim_scratch; [lia|]). done.
Qed.
End sdiv.

(** ** Splitting shifts by 63 *)

Lemma shift_split x : Z.shiftr x 63 = Z.shiftr (Z.shiftr x 32) 31.
Proof. by rewrite Z.shiftr_shiftr by lia. Qed.

Lemma shift63_eval op x z :
  op = AShr ∨ op = LShr → is_word 64 x → evalBin op 64 x 63 = Some z →
  ∃ y, evalBin op 64 x 32 = Some y ∧ is_word 64 y ∧ evalBin op 64 y 31 = Some z.
Proof.
  intros [-> | ->] Hx; simpl; intros [= <-].
  - eexists. split; [done|]. split; [apply wrap_range; lia|]. do 2 f_equal.
    rewrite sgn_wrap; [by rewrite shift_split|lia|].
    pose proof (sgn_range 64 x ltac:(lia) Hx) as HR. rewrite Z.shiftr_div_pow2 by lia.
    assert (Hb : - 2 ^ 31 <= sgn 64 x / 2 ^ 32 < 2 ^ 31).
    { split; [apply Z.div_le_lower_bound; lia|apply Z.div_lt_upper_bound; lia]. }
    lia.
  - eexists. split; [done|]. split; [|by rewrite shift_split]. unfold is_word in *.
    rewrite Z.shiftr_div_pow2 by lia. split; [apply Z.div_pos; lia|].
    apply Z.div_lt_upper_bound; lia.
Qed.

Section passes.
Context (lib : library).

Lemma shift63_refines bl : refines lib shift63Inst bl.
Proof.
  intros n [d i] f st st1 _ (Hd & Ho & _)%below_spec Hf Hstep. unfold shift63Inst. cbn [fst snd].
  assert (Hself : ∃ st2, execBlock lib [(d, i)] st = Some st2 ∧ sim n st1 st2) by by apply refines_self.
  destruct i as [op ty a b| | | | | | | | | |]; try exact Hself.
  destruct (isShift63 (Bin op ty a b)) eqn:E; [|exact Hself]. clear Hself.
  unfold isShift63 in E. destruct b as [|k]; [done|]. bool_to_prop. destruct E as (Hop & -> & ->).
  unfold stepInst in Hstep. cbn [evalInst fst snd] in Hstep.
  destruct (readWord st 64 a) as [x|] eqn:Ea; [|done]. apply readWord_Some in Ea as [Ra Wx].
  destruct (readWord st 64 (Const 63)) as [k|] eqn:Ek; [|done].
  assert (k = 63) as -> by (vm_compute in Ek; congruence).
  destruct (evalBin op 64 x 63) as [z|] eqn:Ez; [|done]. injection Hstep as <-.
  destruct (shift63_eval op x z Hop Wx Ez) as (y & Ey & Wy & Ez').
  assert (operand_below n a) by (apply Ho; by left).
  eexists. split.
  - erewrite exec_cons; [|eapply step_bin; [by apply readWord_Some|by vm_compute|exact Ey]].
    erewrite exec_cons; [|eapply step_bin; [word_of n; exact Wy|by vm_compute|exact Ez']]. reflexivity.
  - apply sim_set. apply sim_scratch; [lia|]. apply sim_refl.
Qed.

Lemma sdiv_refines bl : refines lib (λ p f, (sdivInst p f).1) bl.
Proof.
  intros n [d i] f st st1 _ Hb Hf Hstep. unfold sdivInst. cbn [fst snd].
  assert (Hself : ∃ st2, execBlock lib [(d, i)] st = Some st2 ∧ sim n st1 st2) by by apply refines_self.
  destruct i as [op [w|] a b| | | | | | | | | |]; try exact Hself.
  - destruct (isSigned op) eqn:Es; [|exact Hself]. destruct (Z.ltb_spec 64 w); [exact Hself|].
    by eapply lowerSDiv_refines.
  - by destruct (isSigned op).
Qed.

(** ** 128-bit arithmetic *)

(** What compiler-rt documents of its helpers, by their names. *)
Class IntegerLibrary : Prop := {
  il_multi3 x y : is_word 128 x → is_word 128 y → lib_call lib "__multi3" [x; y] = Some (wrap 128 (x * y));
  il_udivti3 x y : is_word 128 x → is_word 128 y → y ≠ 0 → lib_call lib "__udivti3" [x; y] = Some (x / y);
  il_umodti3 x y : is_word 128 x → is_word 128 y → y ≠ 0 → lib_call lib "__umodti3" [x; y] = Some (x mod y);
  il_divti3 x y : is_word 128 x → is_word 128 y → y ≠ 0 → ¬ (sgn 128 x = - 2 ^ 127 ∧ sgn 128 y = -1) →
    lib_call lib "__divti3" [x; y] = Some (wrap 128 (Z.quot (sgn 128 x) (sgn 128 y)));
  il_modti3 x y : is_word 128 x → is_word 128 y → y ≠ 0 → ¬ (sgn 128 x = - 2 ^ 127 ∧ sgn 128 y = -1) →
    lib_call lib "__modti3" [x; y] = Some (wrap 128 (Z.rem (sgn 128 x) (sgn 128 y)));
  il_mulodi4 x y : is_word 64 x → is_word 64 y →
    ∃ o, lib_slot lib "__mulodi4" [x; y] = Some (wrap 64 (sgn 64 x * sgn 64 y), o) ∧ is_word 32 o ∧
      (o = 0 ↔ - 2 ^ 63 <= sgn 64 x * sgn 64 y < 2 ^ 63);
}.

(** The helper chosen for an operation computes it. *)
Lemma il_binary `{!IntegerLibrary} op name x y z :
  arithmeticLibcall (Bin op (TInt 128) (Const x) (Const y)) = Some name →
  is_word 128 x → is_word 128 y → evalBin op 128 x y = Some z → lib_call lib name [x; y] = Some z.
Proof.
  intros Hname Hx Hy Hz. unfold arithmeticLibcall in Hname. rewrite decide_True in Hname by done.
  assert (Hs : ∀ q, (if (y =? 0) || ((sgn 128 x =? - 2 ^ (128 - 1)) && (sgn 128 y =? -1)) then None else Some q) = Some z →
    q = z ∧ y ≠ 0 ∧ ¬ (sgn 128 x = - 2 ^ 127 ∧ sgn 128 y = -1)).
  { intros q. change (128 - 1) with 127. destruct (Z.eqb_spec y 0), (Z.eqb_spec (sgn 128 x) (- 2 ^ 127)), (Z.eqb_spec (sgn 128 y) (-1));
      simpl; intros [= <-]; split_and!; tauto. }
  destruct op; simplify_eq; cbn [evalBin] in Hz.
  - injection Hz as <-. by apply il_multi3.
  - destruct (Z.eqb_spec y 0); [done|]. injection Hz as <-. by apply il_udivti3.
  - destruct (Z.eqb_spec y 0); [done|]. injection Hz as <-. by apply il_umodti3.
  - apply Hs in Hz as (<- & ? & ?). by apply il_divti3.
  - apply Hs in Hz as (<- & ? & ?). by apply il_modti3.
Qed.

Lemma umul_wide x y : is_word 64 x → is_word 64 y →
  is_word 128 (x * y) ∧ (x * y / 2 ^ 64 = 0 ↔ x * y < 2 ^ 64).
Proof.
  unfold is_word. intros Hx Hy. assert (Hxy : 0 <= x * y < 2 ^ 64 * 2 ^ 64) by nia.
  change (2 ^ 64 * 2 ^ 64) with (2 ^ 128) in Hxy. split; [done|]. split.
  - intros E. apply Z.div_small_iff in E; lia.
  - intros E. apply Z.div_small. lia.
Qed.

Lemma umul_refines `{!IntegerLibrary} n d a b f st st1 :
  below n (d, MulWithOverflow false 64 a b) = true → (n <= f)%nat →
  stepInst lib st (d, MulWithOverflow false 64 a b) = Some st1 →
  ∃ st2, execBlock lib (i128Inst (d, MulWithOverflow false 64 a b) f) st = Some st2 ∧ sim n st1 st2.
Proof.
  intros (Hd & Ho & _)%below_spec Hf. unfold stepInst. cbn [evalInst fst snd operandsOf] in *.
  destruct (readWord st 64 a) as [x|] eqn:Ea; [|done]. destruct (readWord st 64 b) as [y|] eqn:Eb; [|done].
  intros [= <-]. apply readWord_Some in Ea as [Ra Wx]. apply readWord_Some in Eb as [Rb Wy].
  assert (operand_below n a) by (apply Ho; by left).
  assert (operand_below n b) by (apply Ho; right; by left).
  destruct (umul_wide x y Wx Wy) as [Wp Hov].
  assert (W128 : ∀ v, is_word 64 v → is_word 128 v).
  { unfold is_word. intros v [? Hv]. split; [done|]. eapply Z.lt_trans; [exact Hv|]. done. }
  assert (Hcall : lib_call lib Mul128 [x; y] = Some (x * y)).
  { apply (il_binary Mul); [done|auto|auto|]. simpl. by rewrite wrap_small. }
  eexists. split.
  { unfold i128Inst. cbn [fst snd].
    change (arithmeticLibcall (MulWithOverflow false 64 a b)) with (Some Mul128). cbv beta iota.
    erewrite exec_cons; [|eapply step_zext; word_of n; exact Wx].
    erewrite exec_cons; [|eapply step_zext; word_of n; exact Wy].
    erewrite exec_cons; [|eapply step_call; [read_through n|read_through n|exact Hcall]].
    erewrite exec_cons; [|eapply step_trunc; word_of n; exact Wp].
    erewrite exec_cons; [|eapply (step_bin _ _ _ LShr 128); [word_of n; exact Wp|by vm_compute|reflexivity]].
    erewrite exec_cons; [|eapply step_icmp; [word_of n|by vm_compute]].
    2: { rewrite Z.shiftr_div_pow2 by lia. unfold is_word in *. split; [apply Z.div_pos; lia|].
         apply Z.div_lt_upper_bound; lia. }
    erewrite exec_cons; [|eapply step_pair; read_through n]. reflexivity. }
  rewrite Z.shiftr_div_pow2 by lia. unfold withOverflow.
  replace (if x * y / 2 ^ 64 =? 0 then 0 else 1) with (if x * y <? 2 ^ 64 then 0 else 1).
  - apply sim_set. repeat (apply sim_scratch; [lia|]). apply sim_refl.
  - destruct (Z.ltb_spec (x * y) (2 ^ 64)), (Z.eqb_spec (x * y / 2 ^ 64) 0); lia || (exfalso; tauto || lia).
Qed.

(** A scratch slot is as invisible as a scratch register. *)
Lemma sim_slot n st1 st s z : (n <= s)%nat → sim n st1 st → sim n st1 (State (regs st) (<[s := z]> (mem st))).
Proof.
  intros Hs [H1 H2]. split; [done|]. intros k Hk. simpl. rewrite lookup_insert_ne by lia. auto.
Qed.

Lemma smul_refines `{!IntegerLibrary} n d a b f st st1 :
  below n (d, MulWithOverflow true 64 a b) = true → (n <= f)%nat →
  stepInst lib st (d, MulWithOverflow true 64 a b) = Some st1 →
  ∃ st2, execBlock lib (i128Inst (d, MulWithOverflow true 64 a b) f) st = Some st2 ∧ sim n st1 st2.
Proof.
  intros (Hd & Ho & _)%below_spec Hf. unfold stepInst. cbn [evalInst fst snd operandsOf] in *.
  destruct (readWord st 64 a) as [x|] eqn:Ea; [|done]. destruct (readWord st 64 b) as [y|] eqn:Eb; [|done].
  intros [= <-]. apply readWord_Some in Ea as [Ra Wx]. apply readWord_Some in Eb as [Rb Wy].
  destruct (il_mulodi4 x y Wx Wy) as (o & Hcall & Wo & Hov).
  unfold i128Inst. cbn [fst snd].
  change (arithmeticLibcall (MulWithOverflow true 64 a b)) with (Some SMul64Overflow). cbv beta iota.
  unfold withOverflow. change (64 - 1) with 63. set (p := wrap 64 (sgn 64 x * sgn 64 y)) in *.
  set (st2 := setReg (State (regs st) (<[f := o]> (mem st))) f (Int p)).
  assert (E1 : stepInst lib st (f, CallSlot SMul64Overflow [a; b] f) = Some st2).
  { change "__mulodi4"%string with SMul64Overflow in Hcall. unfold stepInst. simpl. rewrite Ra, Rb. simpl. by rewrite Hcall. }
  assert (E2 : stepInst lib st2 (S f, LoadSlot f) = Some (setReg st2 (S f) (Int o))).
  { unfold stepInst. simpl. by rewrite lookup_insert_eq. }
  assert (Rf : readInt st2 (Reg f) = Some p) by apply readInt_set_eq.
  assert (Hsim : sim n st st2) by (apply sim_scratch; [lia|]; apply sim_slot; [lia|apply sim_refl]).
  clearbody st2 p. eexists. split.
  { erewrite exec_cons; [|exact E1]. erewrite exec_cons; [|exact E2].
    erewrite exec_cons; [|eapply step_icmp; [word_of n; exact Wo|by vm_compute]].
    erewrite exec_cons; [|eapply step_pair; read_through n]. reflexivity. }
  replace (if o =? 0 then 0 else 1) with
    (if (- 2 ^ 63 <=? sgn 64 x * sgn 64 y) && (sgn 64 x * sgn 64 y <? 2 ^ 63) then 0 else 1).
  - apply sim_set. repeat (apply sim_scratch; [lia|]). exact Hsim.
  - destruct (Z.leb_spec (- 2 ^ 63) (sgn 64 x * sgn 64 y)), (Z.ltb_spec (sgn 64 x * sgn 64 y) (2 ^ 63)),
      (Z.eqb_spec o 0); simpl; lia || (exfalso; tauto || lia).
Qed.

Lemma i128_refines `{!IntegerLibrary} bl : refines lib i128Inst bl.
Proof.
  intros n [d i] f st st1 _ Hb Hf Hstep.
  assert (Hself : ∃ st2, execBlock lib [(d, i)] st = Some st2 ∧ sim n st1 st2) by by apply refines_self.
  destruct (arithmeticLibcall i) as [name|] eqn:E.
  2: { unfold i128Inst. cbn [snd]. by rewrite E. }
  destruct i as [op ty a b| | | | |sg w a b| | | | |]; try done.
  - unfold i128Inst. cbn [fst snd]. rewrite E. clear Hself. unfold arithmeticLibcall in E.
    case_decide as Ety; [|done]. subst ty. unfold stepInst in Hstep. cbn [evalInst fst snd] in Hstep.
    destruct (readWord st 128 a) as [x|] eqn:Ea; [|done]. destruct (readWord st 128 b) as [y|] eqn:Eb; [|done].
    apply readWord_Some in Ea as [Ra Wx]. apply readWord_Some in Eb as [Rb Wy].
    destruct (evalBin op 128 x y) as [z|] eqn:Ez; [|done]. injection Hstep as <-.
    eexists. split; [|apply sim_refl].
    erewrite exec_cons; [reflexivity|]. eapply step_call; [done|done|].
    apply (il_binary op); [|done|done|done]. unfold arithmeticLibcall. by rewrite decide_True.
  - unfold arithmeticLibcall in E. destruct (Z.eqb_spec w 64) as [->|]; [|done].
    destruct sg; [by eapply smul_refines|by eapply umul_refines].
Qed.
End passes.

(** ** What remains after a pass *)

Lemma expandBlock_all (Q : inst → bool) expand bl fresh :
  (∀ p f q, p ∈ bl → q ∈ expand p f → Q q.2 = true) →
  ∀ q, q ∈ expandBlock expand bl fresh → Q q.2 = true.
Proof.
  revert fresh. induction bl as [|p bl IH]; intros fresh HQ q; simpl; [by intros ?%not_elem_of_nil|].
  intros [Hq|Hq]%elem_of_app; [eapply HQ; [by left|done]|].
  eapply IH; [|done]. intros p' f q' Hp'. apply HQ. by right.
Qed.

Definition isSignedDivision (i : inst) : bool :=
  match i with Bin op _ _ _ => isSigned op | _ => false end.

Lemma lowerSDiv_unsigned op w a b d f q : q ∈ lowerSDiv op w a b d f → isSignedDivision q.2 = false.
Proof.
  unfold lowerSDiv, sdivMagnitudes. destruct (bool_decide (op = SDiv)); simpl; intros Hq;
    repeat (apply elem_of_cons in Hq as [->|Hq]; [reflexivity|]); by apply not_elem_of_nil in Hq.
Qed.

Lemma sdivInst_unsigned p f q :
  (sdivInst p 0).2 = false → q ∈ (sdivInst p f).1 → isSignedDivision q.2 = false.
Proof.
  destruct p as [d i]. unfold sdivInst. cbn [fst snd].
  destruct i as [op [w|] a b| | | | | | | | | |]; simpl;
    try (by intros _ ->%list_elem_of_singleton).
  - destruct (isSigned op) eqn:Es; simpl; [|by intros _ ->%list_elem_of_singleton].
    destruct (64 <? w); simpl; [done|]. intros _. apply lowerSDiv_unsigned.
  - destruct (isSigned op) eqn:Es; simpl; [done|by intros _ ->%list_elem_of_singleton].
Qed.

Lemma shift63Inst_none p f q : q ∈ shift63Inst p f → isShift63 q.2 = false.
Proof.
  destruct p as [d i]. unfold shift63Inst. cbn [fst snd].
  destruct i as [op ty a b| | | | | | | | | |]; try (by intros ->%list_elem_of_singleton).
  destruct (isShift63 (Bin op ty a b)) eqn:E; [|by intros ->%list_elem_of_singleton].
  intros [->|[->|[]%not_elem_of_nil]%elem_of_cons]%elem_of_cons; simpl;
    apply bool_decide_eq_false; naive_solver lia.
Qed.

(** The operations that need compiler-rt, with the helper each needs. *)
Inductive helper_for : inst → string → Prop :=
| help_mul a b : helper_for (Bin Mul (TInt 128) a b) "__multi3"
| help_udiv a b : helper_for (Bin UDiv (TInt 128) a b) "__udivti3"
| help_urem a b : helper_for (Bin URem (TInt 128) a b) "__umodti3"
| help_sdiv a b : helper_for (Bin SDiv (TInt 128) a b) "__divti3"
| help_srem a b : helper_for (Bin SRem (TInt 128) a b) "__modti3"
| help_umulo a b : helper_for (MulWithOverflow false 64 a b) "__multi3"
| help_smulo a b : helper_for (MulWithOverflow true 64 a b) "__mulodi4".

Lemma arithmeticLibcall_spec i name : arithmeticLibcall i = Some name ↔ helper_for i name.
Proof.
  split; [|by destruct 1]. destruct i as [op ty a b| | | | |sg w a b| | | | |]; try done; unfold arithmeticLibcall.
  - case_decide; [subst ty|done]. destruct op; intros; simplify_eq; constructor.
  - destruct (Z.eqb_spec w 64) as [->|]; [|done]. destruct sg; intros [= <-]; constructor.
Qed.

Lemma i128Inst_none p f q : q ∈ i128Inst p f → arithmeticLibcall q.2 = None.
Proof.
  destruct p as [d i]. unfold i128Inst. cbn [fst snd].
  destruct (arithmeticLibcall i) as [name|] eqn:E; [|by intros ->%list_elem_of_singleton].
  destruct i as [| | | | |[] w a b| | | | |]; try done; intros Hq;
    repeat (apply elem_of_cons in Hq as [->|Hq]; [reflexivity|]); by apply not_elem_of_nil in Hq.
Qed.

(** ** The claims *)

(** Lowering signed division is a refinement: whenever a block runs without
    undefined behaviour, the lowered block runs too and leaves every register
    of the block with the same value; and when no error was emitted no signed
    division or remainder is left. *)
Theorem lower_sdiv_correct (lib : library) (bl : block) (n : nat) (st st' : state) :
  (∀ p, p ∈ bl → below n p = true) → execBlock lib bl st = Some st' →
  (∃ st2, execBlock lib (LowerSDiv bl n) st = Some st2 ∧ ∀ r, (r < n)%nat → regs st2 !! r = regs st' !! r) ∧
  (LowerSDivErrors bl = 0%nat → ∀ q, q ∈ LowerSDiv bl n → isSignedDivision q.2 = false).
Proof.
  intros Hb He. split.
  - destruct (expandBlock_refines lib (λ p f, (sdivInst p f).1) bl n n st st st') as (st2 & E & Hs);
      [apply sdiv_refines|done|done|apply sim_refl|done|].
    exists st2. split; [done|]. intros r Hr. symmetry. by apply Hs.
  - intros Hno q Hq. apply negb_true_iff.
    apply (expandBlock_all (λ i, negb (isSignedDivision i)) (λ p f, (sdivInst p f).1) bl n); [|done].
    intros p f q' Hp Hq'. apply negb_true_iff. eapply sdivInst_unsigned; [|done].
    destruct (sdivInst p 0).2 eqn:E; [|done].
    assert (Hin : p ∈ filter (λ p, (sdivInst p 0).2 = true) bl) by by apply list_elem_of_filter.
    unfold LowerSDivErrors in Hno. apply nil_length_inv in Hno. rewrite Hno in Hin.
    by apply not_elem_of_nil in Hin.
Qed.

(** Splitting right shifts is a refinement that leaves no 64-bit right
    shift by 63. *)
Theorem split_shift63_correct (lib : library) (bl : block) (n : nat) (st st' : state) :
  (∀ p, p ∈ bl → below n p = true) → execBlock lib bl st = Some st' →
  (∃ st2, execBlock lib (SplitShift63 bl n) st = Some st2 ∧ ∀ r, (r < n)%nat → regs st2 !! r = regs st' !! r) ∧
  (∀ q, q ∈ SplitShift63 bl n → isShift63 q.2 = false).
Proof.
  intros Hb He. split.
  - destruct (expandBlock_refines lib shift63Inst bl n n st st st') as (st2 & E & Hs);
      [apply shift63_refines|done|done|apply sim_refl|done|].
    exists st2. split; [done|]. intros r Hr. symmetry. by apply Hs.
  - intros q Hq. apply negb_true_iff.
    apply (expandBlock_all (λ i, negb (isShift63 i)) shift63Inst bl n); [|done].
    intros p f q' _ Hq'. apply negb_true_iff. by eapply shift63Inst_none.
Qed.

(** C15: with compiler-rt helpers that compute what compiler-rt documents of
    each name, expanding 128-bit arithmetic and 64-bit multiplication with
    overflow is a refinement that leaves no operation needing a helper; and
    the helpers reported as required are, without repetition, those some
    instruction needs ([helper_for]) and the module does not define. *)
Theorem expand_i128_correct (lib : library) (bl : block) (n : nat) (st st' : state)
    (present : string → bool) :
  IntegerLibrary lib → (∀ p, p ∈ bl → below n p = true) → execBlock lib bl st = Some st' →
  (∃ st2, execBlock lib (ExpandI128 bl n) st = Some st2 ∧ ∀ r, (r < n)%nat → regs st2 !! r = regs st' !! r) ∧
  (∀ q name, q ∈ ExpandI128 bl n → ¬ helper_for q.2 name) ∧
  NoDup (RequiredIntegerLibcalls present bl) ∧
  (∀ name, name ∈ RequiredIntegerLibcalls present bl ↔
     present name = false ∧ ∃ p, p ∈ bl ∧ helper_for p.2 name).
Proof.
  intros Hlib Hb He. setoid_rewrite <-arithmeticLibcall_spec. split; [|split].
  - destruct (expandBlock_refines lib i128Inst bl n n st st st') as (st2 & E & Hs);
      [by apply i128_refines|done|done|apply sim_refl|done|].
    exists st2. split; [done|]. intros r Hr. symmetry. by apply Hs.
  - intros q name Hq. set (Q := λ i, match arithmeticLibcall i with None => true | Some _ => false end).
    assert (HQ : Q q.2 = true).
    { apply (expandBlock_all Q i128Inst bl n); [|done]. intros p f q' _ Hq'. unfold Q.
      by rewrite (i128Inst_none p f q'). }
    unfold Q in HQ. by destruct (arithmeticLibcall q.2).
  - unfold RequiredIntegerLibcalls. set (step := λ result p, _). clear Hb He.
    apply (foldl_invariant step (λ pre result, NoDup result ∧ ∀ name, name ∈ result ↔
      present name = false ∧ ∃ p, p ∈ pre ∧ arithmeticLibcall p.2 = Some name)).
    { split; [constructor|]. intros name. rewrite elem_of_nil. setoid_rewrite elem_of_nil. naive_solver. }
    intros pre p result _ [Hnd Hin]. unfold step. setoid_rewrite elem_of_app.
    setoid_rewrite list_elem_of_singleton.
    destruct (arithmeticLibcall p.2) as [name|] eqn:E.
    2: { split; [done|]. intros nm. rewrite Hin. split; [naive_solver|].
         intros (? & q & [?| ->] & ?); [eauto|congruence]. }
    destruct (present name) eqn:Ep; simpl.
    { split; [done|]. intros nm. rewrite Hin. split; [naive_solver|].
      intros (? & q & [?| ->] & ?); [eauto|congruence]. }
    case_bool_decide as Hn; simpl.
    { split; [done|]. intros nm. rewrite Hin. split; [naive_solver|].
      intros (? & q & [?| ->] & ?); [eauto|]. simplify_eq. by apply Hin. }
    split.
    + apply NoDup_app. split_and!; [done| |apply NoDup_singleton]. by intros nm Hnm ->%list_elem_of_singleton.
    + intros nm. rewrite elem_of_app, list_elem_of_singleton, Hin. split.
      * intros [(? & q & ? & ?)| ->]; [eauto|]. split; [done|]. exists p. auto.
      * intros (? & q & [?| ->] & ?); [left; eauto|right; congruence].
Qed.

(** ** Witnesses *)

Module ArithSample.
(** [r2 = r0 sdiv r1; r3 = r0 srem r1; r4 = ashr r0, 63; r5 = smul.o r0, r1;
    r6 = umul.o r0, r1; r7 = 5 * 7 in 128 bits], at [r0 = -7], [r1 = 2]. *)
Definition bl : block :=
  [ (2, Bin SDiv (TInt 64) (Reg 0) (Reg 1));
    (3, Bin SRem (TInt 64) (Reg 0) (Reg 1));
    (4, Bin AShr (TInt 64) (Reg 0) (Const 63));
    (5, MulWithOverflow true 64 (Reg 0) (Reg 1));
    (6, MulWithOverflow false 64 (Reg 0) (Reg 1));
    (7, Bin Mul (TInt 128) (Const 5) (Const 7)) ]%nat.
Definition st : state := State {[0%nat := Int (2 ^ 64 - 7); 1%nat := Int 2]} ∅.

Definition rtCall (name : string) (xs : list Z) : option Z :=
  match xs with
  | [x; y] =>
      if String.eqb name "__multi3" then evalBin Mul 128 x y
      else if String.eqb name "__udivti3" then evalBin UDiv 128 x y
      else if String.eqb name "__umodti3" then evalBin URem 128 x y
      else if String.eqb name "__divti3" then evalBin SDiv 128 x y
      else if String.eqb name "__modti3" then evalBin SRem 128 x y
      else None
  | _ => None
  end.
Definition rtSlot (name : string) (xs : list Z) : option (Z * Z) :=
  match xs with
  | [x; y] =>
      let p := sgn 64 x * sgn 64 y in
      if String.eqb name "__mulodi4"
      then Some (wrap 64 p, if (- 2 ^ 63 <=? p) && (p <? 2 ^ 63) then 0 else 1) else None
  | _ => None
  end.
Definition lib : library := Library rtCall rtSlot (λ _ _, None).

#[global] Instance lib_ok : IntegerLibrary lib.
Proof.
  assert (D : ∀ x y (q : Z), y ≠ 0 → ¬ (sgn 128 x = - 2 ^ 127 ∧ sgn 128 y = -1) →
    (if (y =? 0) || ((sgn 128 x =? - 2 ^ (128 - 1)) && (sgn 128 y =? -1)) then None else Some q) = Some q).
  { intros x y q Hy Ho. change (128 - 1) with 127. destruct (Z.eqb_spec y 0), (Z.eqb_spec (sgn 128 x) (- 2 ^ 127)), (Z.eqb_spec (sgn 128 y) (-1));
      simpl; tauto. }
  split; cbn [lib lib_call rtCall].
  - done.
  - intros x y _ _ Hy. cbn. by destruct (Z.eqb_spec y 0).
  - intros x y _ _ Hy. cbn. by destruct (Z.eqb_spec y 0).
  - intros x y _ _. exact (D x y _).
  - intros x y _ _. exact (D x y _).
  - intros x y _ _. eexists. split; [reflexivity|].
    destruct (Z.leb_spec (- 2 ^ 63) (sgn 64 x * sgn 64 y)), (Z.ltb_spec (sgn 64 x * sgn 64 y) (2 ^ 63));
      simpl; unfold is_word; split; lia.
Qed.

Definition after : state := default st (execBlock lib bl st).
Lemma sample_runs : execBlock lib bl st = Some after.
Proof. vm_compute. reflexivity. Qed.
Lemma names_below p : p ∈ bl → below 8 p = true.
Proof.
  intros Hp. unfold bl in Hp. repeat (apply elem_of_cons in Hp as [->|Hp]; [reflexivity|]).
  by apply not_elem_of_nil in Hp.
Qed.
End ArithSample.

Lemma lower_sdiv_correct_witness :
  regs ArithSample.after !! 2%nat = Some (Int (2 ^ 64 - 3)) ∧
  regs ArithSample.after !! 3%nat = Some (Int (2 ^ 64 - 1)) ∧
  ∃ st2, execBlock ArithSample.lib (LowerSDiv ArithSample.bl 8) ArithSample.st = Some st2 ∧
    ∀ r, (r < 8)%nat → regs st2 !! r = regs ArithSample.after !! r.
Proof.
  split; [vm_compute; reflexivity|]. split; [vm_compute; reflexivity|].
  apply (lower_sdiv_correct ArithSample.lib ArithSample.bl 8 ArithSample.st ArithSample.after
    ArithSample.names_below ArithSample.sample_runs).
Defined.

Lemma split_shift63_correct_witness :
  regs ArithSample.after !! 4%nat = Some (Int (2 ^ 64 - 1)) ∧
  ∃ st2, execBlock ArithSample.lib (SplitShift63 ArithSample.bl 8) ArithSample.st = Some st2 ∧
    ∀ r, (r < 8)%nat → regs st2 !! r = regs ArithSample.after !! r.
Proof.
  split; [vm_compute; reflexivity|].
  apply (split_shift63_correct ArithSample.lib ArithSample.bl 8 ArithSample.st ArithSample.after
    ArithSample.names_below ArithSample.sample_runs).
Defined.

Lemma expand_i128_correct_witness :
  regs ArithSample.after !! 6%nat = Some (Pair (2 ^ 64 - 14) 1) ∧
  ∃ st2, execBlock ArithSample.lib (ExpandI128 ArithSample.bl 8) ArithSample.st = Some st2 ∧
    ∀ r, (r < 8)%nat → regs st2 !! r = regs ArithSample.after !! r.
Proof.
  split; [vm_compute; reflexivity|].
  apply (expand_i128_correct ArithSample.lib ArithSample.bl 8 ArithSample.st ArithSample.after
    (λ _, false) ArithSample.lib_ok ArithSample.names_below ArithSample.sample_runs).
Defined.
