(* ===== verification/ExpandMem.v ===== *)
(** * Expansion of memory intrinsics ([src/src/pass/expand_mem.cpp])

    The pass replaces [memcpy], [memmove] and [memset] by loops over 64-bit
    words with a byte tail, or by calls of an out-of-line driver.  [EmitX] of
    the source builds a loop; [EmitX] of the model is what the loop it builds
    does to memory.  A misaligned access is undefined behaviour ([None]), and
    so is a loop that outlives its fuel. *)

From Stdlib Require Import ZArith Lia.
From stdpp Require Import base numbers list gmap sets fin_maps strings.
From S2P Require Import Prelude.

Module ExpandMem.
Local Open Scope Z_scope.

(** ** Memory *)

(** Bytes by 64-bit address. *)
Definition memory := Z → Z.

Definition ptrAdd (p off : Z) : Z := u64 (p + off).

(** Little-endian load and store of [n] bytes. *)
Fixpoint loadBytes (m : memory) (p : Z) (n : nat) : Z :=
  match n with
  | O => 0
  | S n => m (u64 p) + 256 * loadBytes m (p + 1) n
  end.

Fixpoint storeBytes (m : memory) (p v : Z) (n : nat) : memory :=
  match n with
  | O => m
  | S n => storeBytes (λ a, if a =? u64 p then v mod 256 else m a) (p + 1) (v / 256) n
  end.

Definition alignedLoad (m : memory) (align p : Z) (n : nat) : option Z :=
  if p mod align =? 0 then Some (loadBytes m p n) else None.

Definition alignedStore (m : memory) (align p v : Z) (n : nat) : option memory :=
  if p mod align =? 0 then Some (storeBytes m p v n) else None.

(** ** The loops *)

(** One iteration at offset [off] of the copy loop. *)
Definition copyAt (dst src step dstAlign srcAlign off : Z) (m : memory) : option memory :=
  match alignedLoad m (Z.min srcAlign step) (ptrAdd src off) (Z.to_nat step) with
  | Some v => alignedStore m (Z.min dstAlign step) (ptrAdd dst off) v (Z.to_nat step)
  | None => None
  end.

(** [copy.cond] and [copy.body]: [i] is the PHI. *)
Fixpoint copyLoop (fuel : nat) (dst src first last step : Z) (descending : bool)
    (dstAlign srcAlign i : Z) (m : memory) : option memory :=
  match fuel with
  | O => None
  | S fuel =>
      if (if descending then first <? i else i <? last) then
        let off := if descending then u64 (i - step) else i in
        match copyAt dst src step dstAlign srcAlign off m with
        | Some m =>
            let next := if descending then off else u64 (i + step) in
            copyLoop fuel dst src first last step descending dstAlign srcAlign next m
        | None => None
        end
      else Some m
  end.

(** Enough iterations for a range whose length is a multiple of the step. *)
Definition rangeFuel (first last step : Z) : nat := S (Z.to_nat ((last - first) / step)).

Definition EmitCopyRange (dst src first last step : Z) (descending : bool) (dstAlign srcAlign : Z)
    (m : memory) : option memory :=
  copyLoop (rangeFuel first last step) dst src first last step descending dstAlign srcAlign
    (if descending then last else first) m.

Definition wordsEnd (len : Z) : Z := u64 (len / 8 * 8).

Definition EmitCopy (dst src len : Z) (backward : bool) (dstAlign srcAlign : Z) (m : memory)
    : option memory :=
  if backward then
    match EmitCopyRange dst src (wordsEnd len) len 1 true dstAlign srcAlign m with
    | Some m => EmitCopyRange dst src 0 (wordsEnd len) 8 true dstAlign srcAlign m
    | None => None
    end
  else
    match EmitCopyRange dst src 0 (wordsEnd len) 8 false dstAlign srcAlign m with
    | Some m => EmitCopyRange dst src (wordsEnd len) len 1 false dstAlign srcAlign m
    | None => None
    end.

Fixpoint setLoop (fuel : nat) (dst value last step dstAlign i : Z) (m : memory) : option memory :=
  match fuel with
  | O => None
  | S fuel =>
      if i <? last then
        match alignedStore m (Z.min dstAlign step) (ptrAdd dst i) value (Z.to_nat step) with
        | Some m => setLoop fuel dst value last step dstAlign (u64 (i + step)) m
        | None => None
        end
      else Some m
  end.

Definition EmitSetRange (dst value first last step dstAlign : Z) (m : memory) : option memory :=
  setLoop (rangeFuel first last step) dst value last step dstAlign first m.

Definition EmitSet (dst value len dstAlign : Z) (m : memory) : option memory :=
  let byte := value mod 256 in
  let word := u64 (byte * 72340172838076673) in    (* 0x0101010101010101 *)
  match EmitSetRange dst word 0 (wordsEnd len) 8 dstAlign m with
  | Some m => EmitSetRange dst byte (wordsEnd len) len 1 dstAlign m
  | None => None
  end.

(** ** The sites *)

(** What the pass looks at in a pointer argument: its address space, and
    whether its underlying object is a global with a section. *)
Record pointer := Pointer { ptr_space : Z; ptr_sectioned : bool }.

Inductive memop := MemCpy | MemMove | MemSet.

#[global] Instance memop_eq_dec : EqDecision memop.
Proof. solve_decision. Defined.

(** An instruction: a memory intrinsic, a call of a named function, or
    anything else. *)
Inductive site :=
| Intrinsic (op : memop) (volatile : bool) (constLength : option Z) (dst src : pointer)
            (dstAlign srcAlign : option Z)
| NamedCall (callee : string) (args : list pointer)
| OtherInst.

Definition calledOp (callee : string) : option memop :=
  if String.eqb callee "memcpy" then Some MemCpy
  else if String.eqb callee "memmove" then Some MemMove
  else if String.eqb callee "memset" then Some MemSet
  else None.

Definition pointerArgs (op : memop) : nat := if decide (op = MemSet) then 1 else 2.

(** [candidates] *)
Definition isCandidate (s : site) : bool :=
  match s with
  | Intrinsic _ _ _ _ _ _ _ => true
  | NamedCall callee args =>
      match calledOp callee with
      | Some op =>
          negb (Nat.ltb (length args) 3) && existsb ptr_sectioned (take (pointerArgs op) args)
      | None => false
      end
  | OtherInst => false
  end.

Definition InlineExpansionLimit : Z := 256.

Definition driverName (op : memop) : string :=
  match op with MemSet => "memset" | MemMove => "memmove" | MemCpy => "memcpy" end.

(** The driver to call, if the site is outlined; [defined] says which
    functions the module defines. *)
Definition outlineDriver (defined : string → bool) (s : site) : option string :=
  match s with
  | Intrinsic op volatile constLength dst src _ _ =>
      if volatile then None
      else if match constLength with Some len => len <=? InlineExpansionLimit | None => false end then None
      else if existsb (λ p, negb (ptr_space p =? 0) || ptr_sectioned p)
                      (take (pointerArgs op) [dst; src]) then None
      else if defined (driverName op) then Some (driverName op) else None
  | _ => None
  end.

(** What replaces a site. *)
Inductive action :=
| Keep
| CallDriver (name : string)
| ExpandCopy (directed : bool) (dstAlign srcAlign : Z)   (* [directed]: pick the direction at run time *)
| ExpandSet (dstAlign : Z).

Definition valueOrOne (align : option Z) : Z := default 1 align.

Definition expandOp (op : memop) (dstAlign srcAlign : Z) : action :=
  match op with
  | MemMove => ExpandCopy true dstAlign srcAlign
  | MemCpy => ExpandCopy false dstAlign srcAlign
  | MemSet => ExpandSet dstAlign
  end.

Definition plan (defined : string → bool) (s : site) : action :=
  if isCandidate s then
    match outlineDriver defined s with
    | Some name => CallDriver name
    | None =>
        match s with
        | Intrinsic op _ _ _ _ dstAlign srcAlign =>
            expandOp op (valueOrOne dstAlign) (valueOrOne srcAlign)
        | NamedCall callee _ =>
            match calledOp callee with Some op => expandOp op 1 1 | None => Keep end
        | OtherInst => Keep
        end
    end
  else Keep.

(** The replacement at run time, for a length of any width.  [driver] is the
    out-of-line routine; [arg] is the source address of a copy and the value
    of a set.  The result of a replaced call becomes its destination argument;
    only memory is modelled. *)
Definition perform (driver : string → Z → Z → Z → memory → option memory) (a : action)
    (dst arg len : Z) (m : memory) : option memory :=
  let len := u64 len in    (* CreateZExtOrTrunc *)
  match a with
  | Keep => None
  | CallDriver name => driver name dst arg len m
  | ExpandCopy directed dstAlign srcAlign =>
      EmitCopy dst arg len (directed && (arg <? dst)) dstAlign srcAlign m
  | ExpandSet dstAlign => EmitSet dst arg len dstAlign m
  end.

(** The whole function: what becomes of each instruction. *)
Definition run (defined : string → bool) (sites : list site) : list action := map (plan defined) sites.

End ExpandMem.
