(* ===== verification/ExpandMemProps.v ===== *)
(** * The expanded loops are [memcpy], [memmove] and [memset] *)

From Stdlib Require Import ZArith Lia.
From stdpp Require Import base numbers list gmap sets fin_maps strings.
From S2P Require Import Prelude ExpandMem.

Import ExpandMem.
Local Open Scope Z_scope.

(** ** Bytes *)

Definition bytes_ok (m : memory) : Prop := ∀ a, 0 <= m a < 256.

(** [m] with the bytes of [lo, hi) (offsets) taken from [src] of [m0]. *)
Definition copied (m0 : memory) (dst src lo hi : Z) : memory := λ a,
  if (dst + lo <=? a) && (a <? dst + hi) then m0 (a - dst + src) else m0 a.

(** [m] with the bytes of [lo, hi) set. *)
Definition filled (m0 : memory) (dst v lo hi : Z) : memory := λ a,
  if (dst + lo <=? a) && (a <? dst + hi) then v else m0 a.

(** Addresses [p .. p+n) exist. *)
Definition in_space (p n : Z) : Prop := 0 <= p ∧ p + n <= 2 ^ 64.

Lemma copied_spec m0 dst src lo hi a :
  (dst + lo <= a < dst + hi ∧ copied m0 dst src lo hi a = m0 (a - dst + src)) ∨
  (¬ (dst + lo <= a < dst + hi) ∧ copied m0 dst src lo hi a = m0 a).
Proof.
  unfold copied. destruct (Z.leb_spec (dst + lo) a), (Z.ltb_spec a (dst + hi)); simpl; [left|right|right|right];
    split; done || lia.
Qed.

Lemma filled_spec m0 dst v lo hi a :
  (dst + lo <= a < dst + hi ∧ filled m0 dst v lo hi a = v) ∨
  (¬ (dst + lo <= a < dst + hi) ∧ filled m0 dst v lo hi a = m0 a).
Proof.
  unfold filled. destruct (Z.leb_spec (dst + lo) a), (Z.ltb_spec a (dst + hi)); simpl; [left|right|right|right];
    split; done || lia.
Qed.

(** Byte [k] of a little-endian value. *)
Definition byte_of (v k : Z) : Z := v / 256 ^ k mod 256.

Lemma byte_of_0 v : byte_of v 0 = v mod 256.
Proof. unfold byte_of. by rewrite Z.pow_0_r, Z.div_1_r. Qed.

Lemma byte_of_S v k : 0 <= k → byte_of v (k + 1) = byte_of (v / 256) k.
Proof.
  intros Hk. unfold byte_of. rewrite Z.div_div by (try apply Z.pow_pos_nonneg; lia).
  by rewrite Z.add_1_r, Z.pow_succ_r by lia.
Qed.

Lemma storeBytes_spec n m p v a :
  in_space p (Z.of_nat n) →
  storeBytes m p v n a =
  if (p <=? a) && (a <? p + Z.of_nat n) then byte_of v (a - p) else m a.
Proof.
  revert m p v. induction n as [|n IH]; intros m p v [Hp Hn]; cbn [storeBytes].
  { destruct (Z.leb_spec p a), (Z.ltb_spec a (p + Z.of_nat 0)); simpl; try done; lia. }
  rewrite IH by (unfold in_space; lia). unfold u64. rewrite wrap_small by lia.
  destruct (Z.leb_spec (p + 1) a), (Z.ltb_spec a (p + 1 + Z.of_nat n)), (Z.leb_spec p a),
    (Z.ltb_spec a (p + Z.of_nat (S n))), (Z.eqb_spec a p); simpl; try lia; try done.
  - rewrite <-byte_of_S by lia. f_equal. lia.
  - subst. by rewrite Z.sub_diag, byte_of_0.
Qed.

Lemma loadBytes_bytes n m p k :
  bytes_ok m → in_space p (Z.of_nat n) → 0 <= k < Z.of_nat n → byte_of (loadBytes m p n) k = m (p + k).
Proof.
  intros Hm. revert p k. induction n as [|n IH]; intros p k [Hp Hn] Hk; [lia|]. cbn [loadBytes].
  unfold u64. rewrite wrap_small by lia. destruct (decide (k = 0)) as [->|].
  - rewrite byte_of_0, Z.mul_comm, Z.mod_add by lia. rewrite Z.mod_small by apply Hm. f_equal. lia.
  - replace k with ((k - 1) + 1) by lia. rewrite byte_of_S by lia.
    rewrite Z.mul_comm, Z.div_add by lia. rewrite Z.div_small by apply Hm. rewrite Z.add_0_l.
    rewrite IH by (unfold in_space; lia). f_equal. lia.
Qed.

(** ** Alignment *)

Lemma min_divides_l align step p :
  (∃ k, 0 <= k ∧ align = 2 ^ k) → (∃ k, 0 <= k ∧ step = 2 ^ k) → (align | p) → (Z.min align step | p).
Proof.
  intros (i & Hi & ->) (j & Hj & ->) Hp. destruct (Z.min_spec (2 ^ i) (2 ^ j)) as [[_ ->]|[Hle ->]]; [done|].
  etrans; [|done]. apply Z.pow_le_mono_r_iff in Hle; [|lia|lia].
  exists (2 ^ (i - j)). rewrite <-Z.pow_add_r by lia. f_equal. lia.
Qed.

Lemma min_divides_r align step p :
  (∃ k, 0 <= k ∧ align = 2 ^ k) → (∃ k, 0 <= k ∧ step = 2 ^ k) → (step | p) → (Z.min align step | p).
Proof. intros Ha Hs Hp. rewrite Z.min_comm. by apply min_divides_l. Qed.

Definition is_align (a : Z) : Prop := ∃ k, 0 <= k ∧ a = 2 ^ k.

Lemma access_aligned align step p off :
  is_align align → is_align step → (align | p) → (step | off) →
  in_space p (off + 1) → 0 <= off → ptrAdd p off mod Z.min align step =? 0 = true.
Proof.
  intros Ha Hs Hp Ho [Hp0 Hp1] Ho0. apply Z.eqb_eq. unfold ptrAdd, u64. rewrite wrap_small by lia.
  assert (Hpos : 0 < Z.min align step).
  { destruct Ha as (i & Hi & ->), Hs as (j & Hj & ->). pose proof (pow2_pos i Hi). pose proof (pow2_pos j Hj). lia. }
  apply Z.mod_divide; [lia|]. apply Z.divide_add_r; [by apply min_divides_l|by apply min_divides_r].
Qed.

(** ** One iteration *)

Section copy.
Context (dst src step dstAlign srcAlign : Z).
Context (Hstep : is_align step).
Context (Hda : is_align dstAlign) (Hsa : is_align srcAlign).
Context (Hdd : (dstAlign | dst)) (Hss : (srcAlign | src)).

Lemma step_pos : 0 < step.
Proof. destruct Hstep as (k & Hk & ->). by apply pow2_pos. Qed.

Lemma copyAt_ok off m :
  bytes_ok m → 0 <= off → (step | off) → in_space dst (off + step) → in_space src (off + step) →
  ∃ m', copyAt dst src step dstAlign srcAlign off m = Some m' ∧
    ∀ a, m' a = copied m dst src off (off + step) a.
Proof.
  intros Hm Ho Hdiv [Hd1 Hd2] [Hs1 Hs2]. pose proof step_pos. unfold copyAt, alignedLoad, alignedStore.
  rewrite !access_aligned by (done || unfold in_space; lia). eexists. split; [reflexivity|]. intros a.
  unfold ptrAdd, u64. rewrite !wrap_small by lia.
  rewrite storeBytes_spec by (unfold in_space; lia). rewrite Z2Nat.id by lia.
  destruct (copied_spec m dst src off (off + step) a) as [[Hin ->]|[Hout ->]].
  - rewrite (proj2 (Z.leb_le _ _)), (proj2 (Z.ltb_lt _ _)) by lia. simpl.
    rewrite loadBytes_bytes by (first [done|unfold in_space; lia]). f_equal. lia.
  - destruct (Z.leb_spec (dst + off) a), (Z.ltb_spec a (dst + off + step)); simpl; try done; lia.
Qed.

(** ** The loops *)

Context (m0 : memory) (L : Z) (Hm0 : bytes_ok m0).
Context (HL : 0 <= L < 2 ^ 64) (Hdst : in_space dst L) (Hsrc : in_space src L).

Lemma copied_bytes lo hi m : (∀ a, m a = copied m0 dst src lo hi a) → bytes_ok m.
Proof.
  intros E a. rewrite E. destruct (copied_spec m0 dst src lo hi a) as [[_ ->]|[_ ->]]; apply Hm0.
Qed.

(** Ascending: the bytes below [i] are done, the sources above are intact. *)
Lemma copy_up N fuel first i last m :
  (N < fuel)%nat → last = i + Z.of_nat N * step → 0 <= i → last <= L → (step | i) →
  dst <= src ∨ src + L <= dst →
  (∀ a, m a = copied m0 dst src 0 i a) →
  ∃ m', copyLoop fuel dst src first last step false dstAlign srcAlign i m = Some m' ∧
    ∀ a, m' a = copied m0 dst src 0 last a.
Proof.
  pose proof step_pos as Hs. revert fuel i m.
  induction N as [|N IH]; intros [|fuel] i m HN Hlast Hi HlastL Hdiv Hov Hm; try lia; cbn [copyLoop].
  { rewrite (proj2 (Z.ltb_ge _ _)) by lia. exists m. split; [done|]. intros a. rewrite Hm. f_equal. lia. }
  rewrite (proj2 (Z.ltb_lt _ _)) by nia.
  destruct (copyAt_ok i m) as (m1 & -> & Hm1); [by eapply copied_bytes|done|done| | |].
  { destruct Hdst. unfold in_space. nia. }
  { destruct Hsrc. unfold in_space. nia. }
  unfold u64. destruct Hdst as [Hd0 Hd1]. rewrite wrap_small by nia.
  apply IH; [lia|lia|lia|lia|by apply Z.divide_add_r; [|reflexivity]|done|].
  intros a. rewrite Hm1. destruct (copied_spec m dst src i (i + step) a) as [[Ha ->]|[Ha ->]]; rewrite Hm.
  - destruct (copied_spec m0 dst src 0 (i + step) a) as [[_ ->]|[? _]]; [|lia].
    destruct (copied_spec m0 dst src 0 i (a - dst + src)) as [[? _]|[_ ->]]; [nia|done].
  - destruct (copied_spec m0 dst src 0 (i + step) a) as [[? ->]|[? ->]];
      destruct (copied_spec m0 dst src 0 i a) as [[? ->]|[? ->]]; done || lia.
Qed.

(** Descending: the bytes from [i] on are done, the sources below are intact. *)
Lemma copy_down N fuel first i last m :
  (N < fuel)%nat → i = first + Z.of_nat N * step → 0 <= first → i <= L → (step | i) →
  src <= dst →
  (∀ a, m a = copied m0 dst src i L a) →
  ∃ m', copyLoop fuel dst src first last step true dstAlign srcAlign i m = Some m' ∧
    ∀ a, m' a = copied m0 dst src first L a.
Proof.
  pose proof step_pos as Hs. revert fuel i m.
  induction N as [|N IH]; intros [|fuel] i m HN Hi Hfirst HiL Hdiv Hov Hm; try lia; cbn [copyLoop].
  { rewrite (proj2 (Z.ltb_ge _ _)) by lia. exists m. split; [done|]. intros a. rewrite Hm. f_equal. lia. }
  rewrite (proj2 (Z.ltb_lt _ _)) by nia. destruct Hdst as [Hd0 Hd1]. destruct Hsrc as [Hs0 Hs1].
  assert (E : u64 (i - step) = i - step) by (apply wrap_small; nia). rewrite E.
  destruct (copyAt_ok (i - step) m) as (m1 & -> & Hm1); [by eapply copied_bytes|nia| | | |].
  { apply Z.divide_sub_r; [done|reflexivity]. }
  { unfold in_space. lia. }
  { unfold in_space. lia. }
  apply IH; [lia|lia|lia|lia|by apply Z.divide_sub_r; [|reflexivity]|done|].
  intros a. rewrite Hm1. replace (i - step + step) with i by lia.
  destruct (copied_spec m dst src (i - step) i a) as [[Ha ->]|[Ha ->]]; rewrite Hm.
  - destruct (copied_spec m0 dst src (i - step) L a) as [[_ ->]|[? _]]; [|lia].
    destruct (copied_spec m0 dst src i L (a - dst + src)) as [[? _]|[_ ->]]; [lia|done].
  - destruct (copied_spec m0 dst src (i - step) L a) as [[? ->]|[? ->]];
      destruct (copied_spec m0 dst src i L a) as [[? ->]|[? ->]]; done || lia.
Qed.
End copy.

Lemma is_align_1 : is_align 1. Proof. by exists 0. Qed.
Lemma is_align_8 : is_align 8. Proof. by exists 3. Qed.

Lemma wordsEnd_spec len : 0 <= len < 2 ^ 64 →
  wordsEnd len = len / 8 * 8 ∧ 0 <= wordsEnd len <= len ∧ (8 | wordsEnd len).
Proof.
  intros Hl. pose proof (Z.div_mod len 8 ltac:(lia)). pose proof (Z.mod_pos_bound len 8 ltac:(lia)).
  unfold wordsEnd, u64. rewrite wrap_small by lia. split_and!; [done|lia|lia|]. by exists (len / 8).
Qed.

(** What the caller of a copy guarantees. *)
Record copy_pre (dst src len dstAlign srcAlign : Z) (m : memory) : Prop := {
  cp_bytes : bytes_ok m;
  cp_len : 0 <= len < 2 ^ 64;
  cp_dst : in_space dst len;
  cp_src : in_space src len;
  cp_dst_align : is_align dstAlign ∧ (dstAlign | dst);
  cp_src_align : is_align srcAlign ∧ (srcAlign | src);
}.

Lemma EmitCopy_forward dst src len dstAlign srcAlign m :
  copy_pre dst src len dstAlign srcAlign m → dst <= src ∨ src + len <= dst →
  ∃ m', EmitCopy dst src len false dstAlign srcAlign m = Some m' ∧ ∀ a, m' a = copied m dst src 0 len a.
Proof.
  intros [Hb Hl Hd Hs [Hda Hdd] [Hsa Hss]] Hov. destruct (wordsEnd_spec len Hl) as (Ew & Hw & Hw8).
  unfold EmitCopy, EmitCopyRange, rangeFuel.
  destruct (copy_up dst src 8 dstAlign srcAlign is_align_8 Hda Hsa Hdd Hss m len Hb Hl Hd Hs
    (Z.to_nat (len / 8)) (S (Z.to_nat ((wordsEnd len - 0) / 8))) 0 0 (wordsEnd len) m) as (m1 & -> & Hm1).
  { rewrite Z.sub_0_r, Ew, Z.div_mul by lia. lia. }
  { rewrite Z2Nat.id by (apply Z.div_pos; lia). lia. }
  { lia. } { lia. } { apply Z.divide_0_r. } { done. }
  { intros a. destruct (copied_spec m dst src 0 0 a) as [[? _]|[_ ->]]; [lia|done]. }
  destruct (copy_up dst src 1 dstAlign srcAlign is_align_1 Hda Hsa Hdd Hss m len Hb Hl Hd Hs
    (Z.to_nat (len - wordsEnd len)) (S (Z.to_nat ((len - wordsEnd len) / 1))) (wordsEnd len) (wordsEnd len) len m1)
    as (m2 & -> & Hm2); [rewrite Z.div_1_r; lia|lia|lia|lia|apply Z.divide_1_l|done|done|].
  by exists m2.
Qed.

Lemma EmitCopy_backward dst src len dstAlign srcAlign m :
  copy_pre dst src len dstAlign srcAlign m → src <= dst →
  ∃ m', EmitCopy dst src len true dstAlign srcAlign m = Some m' ∧ ∀ a, m' a = copied m dst src 0 len a.
Proof.
  intros [Hb Hl Hd Hs [Hda Hdd] [Hsa Hss]] Hov. destruct (wordsEnd_spec len Hl) as (Ew & Hw & Hw8).
  unfold EmitCopy, EmitCopyRange, rangeFuel.
  destruct (copy_down dst src 1 dstAlign srcAlign is_align_1 Hda Hsa Hdd Hss m len Hb Hl Hd Hs
    (Z.to_nat (len - wordsEnd len)) (S (Z.to_nat ((len - wordsEnd len) / 1))) (wordsEnd len) len len m)
    as (m1 & -> & Hm1); [rewrite Z.div_1_r; lia|lia|lia|lia|apply Z.divide_1_l|done| |].
  { intros a. destruct (copied_spec m dst src len len a) as [[? _]|[_ ->]]; [lia|done]. }
  destruct (copy_down dst src 8 dstAlign srcAlign is_align_8 Hda Hsa Hdd Hss m len Hb Hl Hd Hs
    (Z.to_nat (len / 8)) (S (Z.to_nat ((wordsEnd len - 0) / 8))) 0 (wordsEnd len) (wordsEnd len) m1)
    as (m2 & -> & Hm2).
  { rewrite Z.sub_0_r, Ew, Z.div_mul by lia. lia. }
  { rewrite Z2Nat.id by (apply Z.div_pos; lia). lia. }
  { lia. } { lia. } { done. } { done. } { done. }
  by exists m2.
Qed.

(** ** Filling *)

Lemma fill_word b k : 0 <= b < 256 → 0 <= k < 8 → byte_of (u64 (b * 72340172838076673)) k = b.
Proof.
  intros Hb Hk. unfold u64. rewrite wrap_small by lia. unfold byte_of.
  assert (Hcases : k = 0 ∨ k = 1 ∨ k = 2 ∨ k = 3 ∨ k = 4 ∨ k = 5 ∨ k = 6 ∨ k = 7) by lia.
  destruct Hcases as [->|[->|[->|[->|[->|[->|[->| ->]]]]]]];
    match goal with |- context [256 ^ ?k] => let v := eval vm_compute in (256 ^ k) in change (256 ^ k) with v end;
    Z.div_mod_to_equations; lia.
Qed.

Section fill.
Context (dst step dstAlign value b : Z) (m0 : memory) (L : Z).
Context (Hstep : is_align step) (Hda : is_align dstAlign) (Hdd : (dstAlign | dst)).
Context (HL : 0 <= L < 2 ^ 64) (Hdst : in_space dst L).
Context (Hvalue : ∀ k, 0 <= k < step → byte_of value k = b).

Lemma fill_up N fuel i last m :
  (N < fuel)%nat → last = i + Z.of_nat N * step → 0 <= i → last <= L → (step | i) →
  (∀ a, m a = filled m0 dst b 0 i a) →
  ∃ m', setLoop fuel dst value last step dstAlign i m = Some m' ∧ ∀ a, m' a = filled m0 dst b 0 last a.
Proof.
  pose proof (step_pos step Hstep) as Hs. revert fuel i m.
  induction N as [|N IH]; intros [|fuel] i m HN Hlast Hi HlastL Hdiv Hm; try lia; cbn [setLoop].
  { rewrite (proj2 (Z.ltb_ge _ _)) by lia. exists m. split; [done|]. intros a. rewrite Hm. f_equal. lia. }
  rewrite (proj2 (Z.ltb_lt _ _)) by nia. destruct Hdst as [Hd0 Hd1].
  assert (Hnext : i + step <= L) by nia. unfold alignedStore.
  rewrite access_aligned by (done || unfold in_space; lia).
  unfold u64. rewrite wrap_small by lia.
  apply IH; [lia|lia|lia|lia|by apply Z.divide_add_r; [|reflexivity]|].
  intros a. unfold ptrAdd, u64. rewrite wrap_small by lia.
  rewrite storeBytes_spec by (unfold in_space; lia). rewrite Z2Nat.id by lia. rewrite Hm.
  destruct (filled_spec m0 dst b 0 (i + step) a) as [[? ->]|[? ->]];
    destruct (filled_spec m0 dst b 0 i a) as [[? ->]|[? ->]];
    destruct (Z.leb_spec (dst + i) a), (Z.ltb_spec a (dst + i + step)); simpl;
    rewrite ?Hvalue by lia; done || lia.
Qed.
End fill.

Lemma EmitSet_ok dst value len dstAlign m :
  0 <= len < 2 ^ 64 → in_space dst len → is_align dstAlign → (dstAlign | dst) →
  ∃ m', EmitSet dst value len dstAlign m = Some m' ∧ ∀ a, m' a = filled m dst (value mod 256) 0 len a.
Proof.
  intros Hl Hd Hda Hdd. destruct (wordsEnd_spec len Hl) as (Ew & Hw & Hw8).
  pose proof (Z.mod_pos_bound value 256 ltac:(lia)) as Hb. unfold EmitSet, EmitSetRange, rangeFuel.
  destruct (fill_up dst 8 dstAlign (u64 (value mod 256 * 72340172838076673)) (value mod 256) m len
    is_align_8 Hda Hdd Hl Hd (λ k, fill_word _ k Hb)
    (Z.to_nat (len / 8)) (S (Z.to_nat ((wordsEnd len - 0) / 8))) 0 (wordsEnd len) m) as (m1 & -> & Hm1).
  { rewrite Z.sub_0_r, Ew, Z.div_mul by lia. lia. }
  { rewrite Z2Nat.id by (apply Z.div_pos; lia). lia. }
  { lia. } { lia. } { apply Z.divide_0_r. }
  { intros a. destruct (filled_spec m dst (value mod 256) 0 0 a) as [[? _]|[_ ->]]; [lia|done]. }
  destruct (fill_up dst 1 dstAlign (value mod 256) (value mod 256) m len is_align_1 Hda Hdd Hl Hd)
    with (N := Z.to_nat (len - wordsEnd len)) (fuel := S (Z.to_nat ((len - wordsEnd len) / 1)))
      (i := wordsEnd len) (last := len) (m := m1) as (m2 & -> & Hm2);
    [|rewrite Z.div_1_r; lia|lia|lia|lia|apply Z.divide_1_l|done|by exists m2].
  intros k Hk. assert (k = 0) as -> by lia. rewrite byte_of_0. by apply Z.mod_small.
Qed.

(** ** The sites *)

(** What a site does: an intrinsic its operation, a call what the C library
    says of the function's name. *)
Inductive means : site → memop → Prop :=
| means_intrinsic op vol cl d sr da sa : means (Intrinsic op vol cl d sr da sa) op
| means_memcpy args : means (NamedCall "memcpy" args) MemCpy
| means_memmove args : means (NamedCall "memmove" args) MemMove
| means_memset args : means (NamedCall "memset" args) MemSet.

Lemma calledOp_memmove name op : calledOp name = Some op → name = match op with MemCpy => "memcpy" | MemMove => "memmove" | MemSet => "memset" end%string.
Proof.
  unfold calledOp. destruct (String.eqb_spec name "memcpy") as [->|]; [by intros [= <-]|].
  destruct (String.eqb_spec name "memmove") as [->|]; [by intros [= <-]|].
  destruct (String.eqb_spec name "memset") as [->|]; [by intros [= <-]|done].
Qed.

Definition siteOp (s : site) : option memop :=
  match s with
  | Intrinsic op _ _ _ _ _ _ => Some op
  | NamedCall callee _ => calledOp callee
  | OtherInst => None
  end.

Lemma means_siteOp s op : means s op ↔ siteOp s = Some op.
Proof.
  split; [by destruct 1|]. destruct s as [o| name args|]; cbn [siteOp]; [intros [= ->]; constructor| |done].
  intros H. apply calledOp_memmove in H as ->. destruct op; constructor.
Qed.

Definition siteAlign (s : site) : Z * Z :=
  match s with
  | Intrinsic _ _ _ _ _ d sr => (valueOrOne d, valueOrOne sr)
  | _ => (1, 1)
  end.

(** The reference semantics: all source bytes are read first. *)
Definition reference (op : memop) (dst arg len : Z) (m : memory) : memory :=
  match op with
  | MemSet => filled m dst (arg mod 256) 0 len
  | _ => copied m dst arg 0 len
  end.

(** What the program guarantees at a site: valid ranges, the declared
    alignments, and for [memcpy] that the ranges are equal or disjoint. *)
Record site_pre (op : memop) (dstAlign srcAlign dst arg len : Z) (m : memory) : Prop := {
  sp_bytes : bytes_ok m;
  sp_len : 0 <= len < 2 ^ 64;
  sp_dst : in_space dst len;
  sp_dst_align : is_align dstAlign ∧ (dstAlign | dst);
  sp_src : op ≠ MemSet → in_space arg len ∧ is_align srcAlign ∧ (srcAlign | arg);
  sp_disjoint : op = MemCpy → dst = arg ∨ dst + len <= arg ∨ arg + len <= dst;
}.

(** The program's own routines are those of the C library, by name; [memcpy]
    is only defined on ranges that are equal or do not overlap. *)
Class Drivers (driver : string → Z → Z → Z → memory → option memory) : Prop := {
  driver_memcpy dst src len m : bytes_ok m → 0 <= len < 2 ^ 64 → in_space dst len → in_space src len →
    (dst = src ∨ dst + len <= src ∨ src + len <= dst) →
    ∃ m', driver "memcpy"%string dst src len m = Some m' ∧ ∀ a, m' a = copied m dst src 0 len a;
  driver_memmove dst src len m : bytes_ok m → 0 <= len < 2 ^ 64 → in_space dst len → in_space src len →
    ∃ m', driver "memmove"%string dst src len m = Some m' ∧ ∀ a, m' a = copied m dst src 0 len a;
  driver_memset dst value len m : bytes_ok m → 0 <= len < 2 ^ 64 → in_space dst len →
    ∃ m', driver "memset"%string dst value len m = Some m' ∧ ∀ a, m' a = filled m dst (value mod 256) 0 len a;
}.

(** The routine chosen for an operation does it. *)
Lemma driver_ok driver `{!Drivers driver} op dstAlign srcAlign dst arg len m : site_pre op dstAlign srcAlign dst arg len m →
  ∃ m', driver (driverName op) dst arg len m = Some m' ∧ ∀ a, m' a = reference op dst arg len m a.
Proof.
  intros [Hb Hl Hd _ Hs Hov]. destruct op; cbn [driverName reference].
  - destruct (Hs ltac:(done)) as (? & _). apply driver_memcpy; auto.
  - destruct (Hs ltac:(done)) as (? & _). by apply driver_memmove.
  - by apply driver_memset.
Qed.

Lemma expandOp_ok driver op dstAlign srcAlign dst arg len m :
  site_pre op dstAlign srcAlign dst arg len m →
  ∃ m', perform driver (expandOp op dstAlign srcAlign) dst arg len m = Some m' ∧
    ∀ a, m' a = reference op dst arg len m a.
Proof.
  intros [Hb Hl Hd [Hda Hdd] Hs Hov]. unfold perform, u64. rewrite wrap_small by done.
  assert (Hpre : op ≠ MemSet → copy_pre dst arg len dstAlign srcAlign m).
  { intros Hop. destruct (Hs Hop) as (? & ? & ?). by split. }
  destruct op; cbn [expandOp reference].
  - apply EmitCopy_forward; [by apply Hpre|]. destruct (Hov eq_refl) as [->|[?|?]]; lia.
  - destruct (Z.ltb_spec arg dst); simpl.
    + apply EmitCopy_backward; [by apply Hpre|lia].
    + apply EmitCopy_forward; [by apply Hpre|lia].
  - by apply EmitSet_ok.
Qed.

(** ** The claims *)

(** C16: whatever the pass puts in place of a site - the word-and-byte loops,
    ascending or descending, or a call of the program's own routine - ends,
    makes only aligned accesses, and leaves memory as the operation's
    reference semantics does, for every length, overlapping [memmove]s
    included.  A call is what the C library says of its name ([means]), and
    the program's routines only do what it promises ([Drivers]). *)
Theorem expand_mem_correct (defined : string → bool)
    (driver : string → Z → Z → Z → memory → option memory) (s : site) (op : memop)
    (dst arg len : Z) (m : memory) :
  Drivers driver → isCandidate s = true → means s op →
  site_pre op (siteAlign s).1 (siteAlign s).2 dst arg len m →
  ∃ m', perform driver (plan defined s) dst arg len m = Some m' ∧
    ∀ a, m' a = reference op dst arg len m a.
Proof.
  intros Hdrv Hc Hop%means_siteOp Hpre. unfold plan. rewrite Hc.
  destruct s as [o vol cl pd ps da sa|callee args|]; cbn [siteOp siteAlign fst snd outlineDriver] in *; [| |done].
  - injection Hop as ->.
    assert (Hexp := expandOp_ok driver op _ _ dst arg len m Hpre).
    destruct vol; [done|]. destruct (match cl with Some _ => _ | None => _ end); [done|].
    destruct (existsb _ _); [done|]. destruct (defined (driverName op)); [|done].
    unfold perform, u64. rewrite wrap_small by apply Hpre. by eapply driver_ok.
  - rewrite Hop. by apply expandOp_ok.
Qed.

(** The operation reads or writes a global with a section. *)
Definition touchesSection (s : site) : bool :=
  match s with
  | Intrinsic op _ _ pd ps _ _ => existsb ptr_sectioned (take (pointerArgs op) [pd; ps])
  | NamedCall callee args =>
      match calledOp callee with
      | Some op => Nat.leb 3 (length args) && existsb ptr_sectioned (take (pointerArgs op) args)
      | None => false
      end
  | OtherInst => false
  end.

Lemma sectioned_inline defined s op :
  siteOp s = Some op → touchesSection s = true →
  plan defined s = expandOp op (siteAlign s).1 (siteAlign s).2.
Proof.
  intros Hop Ht. unfold plan. destruct s as [o vol cl pd ps da sa|callee args|]; cbn [siteOp touchesSection] in Hop, Ht; [| |done].
  - injection Hop as ->. cbn [isCandidate outlineDriver siteAlign fst snd].
    replace (existsb (λ p, negb (ptr_space p =? 0) || ptr_sectioned p) (take (pointerArgs op) [pd; ps])) with true.
    + destruct vol; [done|]. by destruct (match cl with Some _ => _ | None => _ end).
    + symmetry. apply existsb_exists in Ht as (p & Hp & Hs). apply existsb_exists. exists p.
      by rewrite Hs, orb_true_r.
  - rewrite Hop in Ht. apply andb_true_iff in Ht as [Hl Hs]. cbn [isCandidate outlineDriver siteAlign fst snd].
    rewrite Hop, Hs. apply Nat.leb_le in Hl. by rewrite (proj2 (Nat.ltb_ge _ _)) by lia.
Qed.

(** Only intrinsics without volatility are outlined, and only to a routine
    the module defines, when the length is not a constant of at most 256, no
    pointer is in another address space, and no pointer is into a section; a
    memory operation on a pointer into a section is always expanded in place,
    with the alignments the site declares. *)
Theorem expand_mem_policy (defined : string → bool) (s : site) :
  (∀ name, plan defined s = CallDriver name →
     ∃ op cl pd ps da sa, s = Intrinsic op false cl pd ps da sa ∧ name = driverName op ∧
       defined name = true ∧ (∀ len, cl = Some len → 256 < len) ∧
       ∀ p, p ∈ take (pointerArgs op) [pd; ps] → ptr_space p = 0 ∧ ptr_sectioned p = false) ∧
  (∀ op, siteOp s = Some op → touchesSection s = true →
     plan defined s = expandOp op (siteAlign s).1 (siteAlign s).2).
Proof.
  split; [|intros op; apply sectioned_inline]. intros name.
  unfold plan. destruct (isCandidate s); [|done].
  destruct s as [op vol cl pd ps da sa|callee args|]; cbn [outlineDriver]; [| |done].
  2: { destruct (calledOp callee) as [[]|]; done. }
  destruct vol; [by destruct op|].
  destruct (match cl with Some _ => _ | None => _ end) eqn:Ecl; [by destruct op|].
  destruct (existsb _ _) eqn:Ep; [by destruct op|].
  destruct (defined (driverName op)) eqn:Ed; [|by destruct op]. intros [= <-].
  exists op, cl, pd, ps, da, sa. split_and!; [done|done|done| |].
  - intros len ->. unfold InlineExpansionLimit in Ecl. bool_to_prop. lia.
  - intros p Hp. destruct (negb (ptr_space p =? 0) || ptr_sectioned p) eqn:E.
    + assert (existsb (λ p, negb (ptr_space p =? 0) || ptr_sectioned p) (take (pointerArgs op) [pd; ps]) = true).
      { apply existsb_exists. exists p. split; [by apply list_elem_of_In|done]. }
      congruence.
    + bool_to_prop. done.
Qed.

(** ** Witnesses *)

Module MemSample.
Definition m : memory := λ a, if (0 <=? a) && (a <? 100) then a else 0.
Definition s : site := Intrinsic MemMove false None (Pointer 0 false) (Pointer 0 false) (Some 8) None.
Definition driver (name : string) (dst arg len : Z) (m : memory) : option memory :=
  if String.eqb name "memset" then Some (filled m dst (arg mod 256) 0 len)
  else if String.eqb name "memmove" then Some (copied m dst arg 0 len)
  else if String.eqb name "memcpy" && ((dst =? arg) || (dst + len <=? arg) || (arg + len <=? dst)) then Some (copied m dst arg 0 len)
  else None.

#[global] Instance drivers : Drivers driver.
Proof.
  split; try (by intros; eexists; split; [reflexivity|]). intros dst src len m' _ _ _ _ Hov. unfold driver. cbn [String.eqb Ascii.eqb Bool.eqb andb].
  assert (E : (dst =? src) || (dst + len <=? src) || (src + len <=? dst) = true).
  { destruct (Z.eqb_spec dst src), (Z.leb_spec (dst + len) src), (Z.leb_spec (src + len) dst); simpl; lia. }
  rewrite E. by eexists.
Qed.

Lemma pre : site_pre MemMove (siteAlign s).1 (siteAlign s).2 16 11 21 m.
Proof.
  split; simpl.
  - intros a. unfold m. destruct (Z.leb_spec 0 a), (Z.ltb_spec a 100); simpl; lia.
  - lia.
  - unfold in_space. lia.
  - split; [apply is_align_8|by exists 2].
  - intros _. split; [unfold in_space; lia|]. split; [apply is_align_1|apply Z.divide_1_l].
  - done.
Qed.
End MemSample.

Lemma expand_mem_correct_witness :
  ∃ m', perform MemSample.driver (plan (λ _, false) MemSample.s) 16 11 21 MemSample.m = Some m' ∧
    m' 16 = 11 ∧ m' 36 = 31 ∧ m' 37 = 37.
Proof.
  destruct (expand_mem_correct (λ _, false) MemSample.driver MemSample.s MemMove 16 11 21 MemSample.m
    MemSample.drivers eq_refl (means_intrinsic _ _ _ _ _ _ _) MemSample.pre) as (m' & E & H).
  exists m'. split; [exact E|]. rewrite !H. split_and!; reflexivity.
Defined.

Lemma expand_mem_policy_witness :
  plan (λ _, true) MemSample.s = CallDriver "memmove" ∧
  ∃ op cl pd ps da sa, MemSample.s = Intrinsic op false cl pd ps da sa ∧ "memmove"%string = driverName op.
Proof.
  split; [reflexivity|].
  destruct (proj1 (expand_mem_policy (λ _, true) MemSample.s) "memmove"%string eq_refl)
    as (op & cl & pd & ps & da & sa & H1 & H2 & _).
  exists op, cl, pd, ps, da, sa. split; assumption.
Defined.
