(* ===== verification/Fiber.v ===== *)
(** * The fiber pool and the capsule boundary
    ([src/src/runtime/guest/bpf_capsule.c], [bpf_capsule.h])

    The whole runtime of a boundary: bounded trampoline drivers, acquisition
    and release of fibers on both memory tiers, generation-tagged
    continuations, [capsule_call], [capsule_continue] and [capsule_reset].
    The kernel's maps ([BpfMaps]) and the compiler-generated functions
    ([Generated]) are parameters.  One value of type [world] is the state all
    entries share. *)

From Stdlib Require Import ZArith Lia.
From stdpp Require Import base numbers list gmap sets fin_maps.
From S2P Require Import Prelude.

Module Fiber.
Local Open Scope Z_scope.

(** ** Constants *)

Definition NO_CONTINUATION : Z := 2 ^ 64 - 1.
Definition MAX_FIBERS_LIMIT : Z := 65535.
Definition NO_FIBER : Z := 2 ^ 32 - 1.

Definition CAPSULE_OK : Z := 0.
Definition CAPSULE_PENDING : Z := 1.
Definition CAPSULE_YIELD : Z := 2.
Definition CAPSULE_EXITED : Z := 3.

Definition ERROR_POOL_EXHAUSTED : Z := -1.
Definition ERROR_INVALID_CONTINUATION : Z := -2.
Definition ERROR_STALE_CONTINUATION : Z := -3.
Definition ERROR_NOT_PENDING : Z := -4.
Definition ERROR_POOL_CORRUPT : Z := -5.
Definition ERROR_RETURN_MISMATCH : Z := -6.
Definition ERROR_MEMORY_FAULT : Z := -8.
Definition ERROR_BAD_PLAN : Z := -17.

Definition ABI_MAGIC : Z := 1112556353.      (* 0x42504341 *)
Definition ABI_VERSION : Z := 8.
Definition MEMORY_REGION_SHIFT : Z := 22.

Definition FIBER_SCAN_CHUNK : Z := 16.
Definition FIBER_SCAN_PAGE : Z := FIBER_SCAN_CHUNK * FIBER_SCAN_CHUNK.
Definition CONTINUATION_FIBER_BITS : Z := 16.
Definition CONTINUATION_FIBER_MASK : Z := Z.shiftl 1 CONTINUATION_FIBER_BITS - 1.
Definition CONTINUATION_GENERATION_MASK : Z := Z.shiftl 1 (64 - CONTINUATION_FIBER_BITS) - 1.

Definition STEP_TRIPS : Z := 32.
Definition DRIVE_LEVEL : Z := 2048.
Definition DRIVE_REPEATS : Z := DRIVE_LEVEL / STEP_TRIPS.

(** [__bpf_capsule_continuation_claim_result] *)
Definition CLAIM_MAP_CORRUPT : Z := -2.
Definition CLAIM_INVALID : Z := -1.
Definition CLAIM_STALE : Z := 0.
Definition CLAIM_CONSUMED : Z := 1.

Definition EEXIST : Z := 17.
Definition EINVAL : Z := 22.

(** ** Records *)

Record control := Control {
  status : Z; code : Z; generation : Z; sp : Z; fp : Z; resume_region_id : Z; return_size : Z;
}.

Definition zeroControl : control := Control 0 0 0 0 0 0 0.

Record config := Config {
  heap_base : Z; heap_bytes : Z; stack_base : Z; memory_end : Z; fiber_count : Z;
  stack_bytes_per_fiber : Z; max_fibers : Z; arena_image_pages : Z; memory_backend : Z;
  direct_memory_regions : Z; abi_magic : Z; abi_version : Z; memory_view_base : Z;
}.

Record capsule_result := Result { r_code : Z; r_status : Z; r_continuation : Z }.

(** ** Parameters *)

(** The kernel's hash and stack maps with 64-bit cells.  Every operation
    returns the helper's error code, [0] for success; [hash_store] writes
    through the pointer a lookup returned. *)
Class BpfMaps := {
  hash : Type;
  hash_update_noexist : hash → Z → Z → hash * Z;
  hash_lookup : hash → Z → option Z;
  hash_store : hash → Z → Z → hash;
  hash_delete : hash → Z → hash * Z;
  stack : Type;
  stack_push : stack → Z → stack * Z;
  stack_pop : stack → stack * option Z;
}.

(** The functions the compiler generates for one program over memory [M]: the
    frame push of a boundary call, one trampoline step, the stack region of a
    fiber, the copy of a result and the reset of thread-local storage. *)
Class Generated (M : Type) := {
  push_frame : Z → control → M → control * M;
  trampoline_step : Z → control → M → control * M * Z;
  trampoline_ctx_step : Z → Z → control → M → control * M * Z;
  stack_region : Z → M → bool;
  copy_return : Z → control → Z → M → M;
  fiber_local_reset : Z → M → M;
}.

(** Build and load choices: the compiled fiber limit, the memory tier, the
    frozen configuration, the heap array's entries and the ready flag. *)
Record object := Object {
  MAX_FIBERS : Z;
  FEATURE_ARENA : bool;
  cfg : config;
  heap_array : Z → bool;
  host_ready : Z;
}.

Section Runtime.
Context `{BpfMaps} {M : Type} `{!Generated M} (obj : object).

Record world := World {
  controls : list control;
  issued_fibers : hash;
  free_fibers : stack;
  fiber_leases : hash;
  continuation_claims : hash;
  memory : M;
}.

(** ** Control records *)

Definition controlAt (w : world) (i : Z) : control := default zeroControl (controls w !! Z.to_nat i).

Definition setControl (w : world) (i : Z) (c : control) : world :=
  World (<[Z.to_nat i := c]> (controls w)) (issued_fibers w) (free_fibers w) (fiber_leases w)
    (continuation_claims w) (memory w).
Definition setIssued (w : world) (h : hash) : world :=
  World (controls w) h (free_fibers w) (fiber_leases w) (continuation_claims w) (memory w).
Definition setFree (w : world) (s : stack) : world :=
  World (controls w) (issued_fibers w) s (fiber_leases w) (continuation_claims w) (memory w).
Definition setLeases (w : world) (h : hash) : world :=
  World (controls w) (issued_fibers w) (free_fibers w) h (continuation_claims w) (memory w).
Definition setClaims (w : world) (h : hash) : world :=
  World (controls w) (issued_fibers w) (free_fibers w) (fiber_leases w) h (memory w).
Definition setMemory (w : world) (m : M) : world :=
  World (controls w) (issued_fibers w) (free_fibers w) (fiber_leases w) (continuation_claims w) m.

Definition withGeneration (c : control) (g : Z) : control :=
  Control (status c) (code c) g (sp c) (fp c) (resume_region_id c) (return_size c).
Definition withOutcome (c : control) (s k : Z) : control :=
  Control s k (generation c) (sp c) (fp c) (resume_region_id c) (return_size c).
Definition withReturnSize (c : control) (n : Z) : control :=
  Control (status c) (code c) (generation c) (sp c) (fp c) (resume_region_id c) n.

Definition fiberCount : Z :=
  let count := fiber_count (cfg obj) in
  if (1 <=? count) && (count <=? MAX_FIBERS obj) then count else 0.

Definition stop (c : control) (k : Z) : control := withOutcome c CAPSULE_EXITED k.

(** [__bpf_capsule_fiber_control]: the index of the record of a fiber. *)
Definition fiber_control (fiber : Z) : Z := fiber mod MAX_FIBERS obj.

(** ** Trampolines

    A driver runs on the control record of its fiber and the memory. *)

Section Drive.
Context (step : control → M → control * M * Z).

Fixpoint driveLoop (n : nat) (c : control) (m : M) : control * M * Z :=
  match n with
  | O => (c, m, 0)
  | S n =>
      let '(c, m, st) := step c m in
      if st =? 0 then driveLoop n c m else (c, m, st)
  end.
End Drive.

Definition trampoline_l1 (fiber : Z) (c : control) (m : M) : control * M * Z :=
  driveLoop (trampoline_step fiber) (Z.to_nat DRIVE_LEVEL) c m.

(** [__bpf_capsule_stack_base]: on the fixed tier a missing region stops the fiber. *)
Definition stackBase (fiber : Z) (c : control) (m : M) : control * bool :=
  if stack_region fiber m then (c, true) else (stop c ERROR_MEMORY_FAULT, false).

Definition trampoline (fiber : Z) (w : world) : world * Z :=
  let i := fiber_control fiber in
  let '(c, ok) := if FEATURE_ARENA obj then (controlAt w i, true)
                  else stackBase fiber (controlAt w i) (memory w) in
  if ok then
    let '(c, m, st) := driveLoop (trampoline_l1 fiber) (Z.to_nat DRIVE_REPEATS) c (memory w) in
    let '(c, m, st) := if st =? 0 then trampoline_step fiber c m else (c, m, st) in
    (setMemory (setControl w i c) m, st)
  else (setControl w i c, 1).

Definition trampoline_ctx_l1 (ctx fiber : Z) (c : control) (m : M) : control * M * Z :=
  driveLoop (trampoline_ctx_step ctx fiber) (Z.to_nat DRIVE_LEVEL) c m.

Definition trampoline_ctx (ctx fiber : Z) (w : world) : world * Z :=
  let i := fiber_control fiber in
  let '(c, ok) := if FEATURE_ARENA obj then (controlAt w i, true)
                  else stackBase fiber (controlAt w i) (memory w) in
  if ok then
    let '(c, m, st) := driveLoop (trampoline_ctx_l1 ctx fiber) (Z.to_nat DRIVE_REPEATS) c (memory w) in
    let '(c, m, st) := if st =? 0 then trampoline_ctx_step ctx fiber c m else (c, m, st) in
    (setMemory (setControl w i c) m, st)
  else (setControl w i c, 1).

(** ** Continuations *)

Definition next_generation (g : Z) : Z :=
  let g := Z.land (u64 (g + 1)) CONTINUATION_GENERATION_MASK in
  if g =? 0 then 1 else g.

Definition continuation_value (fiber g : Z) : Z :=
  Z.lor (u64 (Z.shiftl g CONTINUATION_FIBER_BITS)) fiber.

Definition make_continuation (w : world) (fiber : Z) : Z :=
  if fiberCount <=? fiber then NO_CONTINUATION
  else continuation_value fiber (generation (controlAt w (fiber_control fiber))).

(** ** Acquisition *)

(** One attempt: claim [fiber] with [BPF_NOEXIST]. *)
Definition tryFiber (w : world) (fiber : Z) : option world :=
  if FEATURE_ARENA obj then
    let '(h, err) := hash_update_noexist (issued_fibers w) fiber 1 in
    if err =? 0 then Some (setIssued w h) else None
  else
    let g := next_generation (generation (controlAt w fiber)) in
    let '(h, err) := hash_update_noexist (fiber_leases w) fiber g in
    if err =? 0
    then Some (setControl (setLeases w h) fiber (withGeneration (controlAt w fiber) g))
    else None.

(** The loop over [local], [n] trips left. *)
Fixpoint chunkLoop (n : nat) (w : world) (start first local : Z) : world * Z :=
  match n with
  | O => (w, NO_FIBER)
  | S n =>
      let attempt := u32 (first + local) in
      if fiberCount <=? attempt then (w, NO_FIBER)
      else
        let fiber := u32 (start + attempt) in
        let fiber := if fiberCount <=? fiber then fiber - fiberCount else fiber in
        match tryFiber w fiber with
        | Some w => (w, fiber)
        | None => chunkLoop n w start first (local + 1)
        end
  end.

Definition acquire_chunk (w : world) (start first : Z) : world * Z :=
  if (fiberCount <=? start) || (fiberCount <=? first) then (w, NO_FIBER)
  else chunkLoop (Z.to_nat FIBER_SCAN_CHUNK) w start first 0.

Fixpoint pageLoop (n : nat) (w : world) (start first chunk : Z) : world * Z :=
  match n with
  | O => (w, NO_FIBER)
  | S n =>
      let offset := u32 (first + chunk * FIBER_SCAN_CHUNK) in
      if fiberCount <=? offset then (w, NO_FIBER)
      else
        let '(w, fiber) := acquire_chunk w start offset in
        if fiber <? fiberCount then (w, fiber) else pageLoop n w start first (chunk + 1)
  end.

Definition acquire_page (w : world) (start first : Z) : world * Z :=
  if fiberCount <=? first then (w, NO_FIBER)
  else pageLoop (Z.to_nat FIBER_SCAN_CHUNK) w start first 0.

Definition clear_fiber (c : control) : control :=
  Control CAPSULE_OK 0 (generation c) 0 0 0 0.

Definition prepare_fiber (w : world) (fiber : Z) : world :=
  let c := controlAt w fiber in
  let c := if FEATURE_ARENA obj then withGeneration c (next_generation (generation c)) else c in
  setControl w fiber (clear_fiber c).

Definition SCAN_PAGES : Z := (MAX_FIBERS obj + FIBER_SCAN_PAGE - 1) / FIBER_SCAN_PAGE.

Fixpoint acquireLoop (n : nat) (w : world) (start page : Z) : world * Z :=
  match n with
  | O => (w, NO_FIBER)
  | S n =>
      let '(w, fiber) := acquire_page w start (page * FIBER_SCAN_PAGE) in
      if fiber <? fiberCount then (prepare_fiber w fiber, fiber) else acquireLoop n w start (page + 1)
  end.

(** [cpu] is [bpf_get_smp_processor_id()]. *)
Definition fiber_acquire (cpu : Z) (w : world) : world * Z :=
  if fiberCount =? 0 then (w, NO_FIBER)
  else
    let scan := acquireLoop (Z.to_nat SCAN_PAGES) w (cpu mod fiberCount) 0 in
    if FEATURE_ARENA obj then
      match stack_pop (free_fibers w) with
      | (s, Some fiber) =>
          let w := setFree w s in
          if fiberCount <=? fiber then (w, NO_FIBER) else (prepare_fiber w fiber, fiber)
      | (_, None) => scan
      end
    else scan.

(** ** Consumption and release *)

(** Returns the claim result and the fiber published to [fiber_out]. *)
Definition consume_continuation (w : world) (continuation fiber_out : Z) : world * Z * Z :=
  let fiber := Z.land continuation CONTINUATION_FIBER_MASK in
  let g := Z.shiftr continuation CONTINUATION_FIBER_BITS in
  if (g =? 0) || (fiberCount <=? fiber) then (w, CLAIM_INVALID, fiber_out)
  else
    let '(h, err) := hash_update_noexist (continuation_claims w) continuation 1 in
    if negb (err =? 0) then
      (w, if err =? - EEXIST then CLAIM_STALE else CLAIM_MAP_CORRUPT, fiber_out)
    else
      let w := setClaims w h in
      let next := next_generation g in
      let c := controlAt w fiber in
      let '(w, consumed) :=
        if FEATURE_ARENA obj then
          if (negb (resume_region_id c =? 0) || (status c =? CAPSULE_EXITED)) && (generation c =? g)
          then (setControl w fiber (withGeneration c next), true)
          else (w, false)
        else
          match hash_lookup (fiber_leases w) fiber with
          | Some leased =>
              if leased =? g
              then (setControl (setLeases w (hash_store (fiber_leases w) fiber next)) fiber
                      (withGeneration c next), true)
              else (w, false)
          | None => (w, false)
          end in
      let out := if consumed then fiber else fiber_out in
      let '(h, err) := hash_delete (continuation_claims w) continuation in
      if negb (err =? 0) then
        if consumed then
          (setControl w (fiber_control fiber) (stop (controlAt w (fiber_control fiber)) ERROR_POOL_CORRUPT),
           CLAIM_CONSUMED, out)
        else (w, CLAIM_MAP_CORRUPT, out)
      else (setClaims w h, if consumed then CLAIM_CONSUMED else CLAIM_STALE, out).

Definition fiber_release (w : world) (fiber : Z) : world * Z :=
  if fiberCount <=? fiber then (w, -1)
  else if FEATURE_ARENA obj then
    let '(s, err) := stack_push (free_fibers w) fiber in
    if negb (err =? 0)
    then (setControl w fiber (stop (controlAt w fiber) ERROR_POOL_CORRUPT), -1)
    else (setFree w s, 0)
  else
    let '(h, err) := hash_delete (fiber_leases w) fiber in
    if negb (err =? 0)
    then (setControl w fiber (stop (controlAt w fiber) ERROR_POOL_CORRUPT), -1)
    else (setLeases w h, 0).

Definition fiber_cancel (w : world) (fiber : Z) : world * Z :=
  let i := fiber_control fiber in
  fiber_release (setControl w i (clear_fiber (controlAt w i))) fiber.

(** ** The boundary *)

Definition finish_exited (w : world) (fiber : Z) : world * capsule_result :=
  let k := code (controlAt w (fiber_control fiber)) in
  let '(w, err) := fiber_cancel w fiber in
  (w, Result (if negb (err =? 0) then ERROR_POOL_CORRUPT else k) CAPSULE_EXITED NO_CONTINUATION).

(** Every configured size and address is 32 bits wide except the window base. *)
Definition plan_broken : Z :=
  let c := cfg obj in
  let heap_end := u32 (heap_base c + heap_bytes c) in
  let stack_bytes := u64 (stack_bytes_per_fiber c * fiber_count c) in
  if (fiber_count c =? 0) || (MAX_FIBERS obj <? fiber_count c) ||
     negb (max_fibers c =? MAX_FIBERS obj) ||
     negb (memory_backend c =? (if FEATURE_ARENA obj then 1 else 0)) ||
     (stack_bytes_per_fiber c =? 0) || (heap_end <? heap_base c) || (stack_base c <? heap_end) ||
     negb (memory_end c =? u64 (stack_base c + stack_bytes)) || negb (abi_magic c =? ABI_MAGIC) ||
     negb (abi_version c =? ABI_VERSION) ||
     (memory_view_base c =? 0) || negb (Z.land (memory_view_base c) (2 ^ 32 - 1) =? 0)
  then 1
  else if FEATURE_ARENA obj then 0
  else
    let last_region := Z.shiftr (u32 (memory_end c - 1)) MEMORY_REGION_SHIFT in
    if (direct_memory_regions c <=? last_region) &&
       negb (heap_array obj (last_region - direct_memory_regions c)) then 1
    else if host_ready obj =? 0 then 1 else 0.

(** The result so far, and the fiber to drive. *)
Definition prepare_continue (w : world) (continuation : Z) : world * capsule_result * option Z :=
  let '(w, consumed, fiber) := consume_continuation w continuation NO_FIBER in
  let failed k := Result k CAPSULE_EXITED NO_CONTINUATION in
  if consumed <? 0 then
    (w, failed (if consumed =? CLAIM_MAP_CORRUPT then ERROR_POOL_CORRUPT else ERROR_INVALID_CONTINUATION), None)
  else if consumed =? 0 then (w, failed ERROR_STALE_CONTINUATION, None)
  else
    let i := fiber_control fiber in
    let c := controlAt w i in
    if status c =? CAPSULE_EXITED then
      let '(w, r) := finish_exited w fiber in (w, r, None)
    else if resume_region_id c =? 0 then
      let '(w, err) := fiber_cancel w fiber in
      (w, failed (if negb (err =? 0) then ERROR_POOL_CORRUPT else ERROR_NOT_PENDING), None)
    else
      (setControl w i (withOutcome c CAPSULE_OK 0),
       Result 0 CAPSULE_EXITED (make_continuation w fiber), Some fiber).

Definition finish_continue (w : world) (r : capsule_result) (fiber output_size : Z) : world * capsule_result :=
  let i := fiber_control fiber in
  let c := controlAt w i in
  if status c =? CAPSULE_EXITED then finish_exited w fiber
  else if status c =? CAPSULE_YIELD then (w, Result (r_code r) CAPSULE_YIELD (make_continuation w fiber))
  else if negb (resume_region_id c =? 0)
  then (w, Result (r_code r) CAPSULE_PENDING (make_continuation w fiber))
  else
    let '(w, k, st) :=
      if negb (return_size c =? output_size) then
        let '(w, err) := fiber_cancel w fiber in
        (w, if negb (err =? 0) then ERROR_POOL_CORRUPT else ERROR_RETURN_MISMATCH, CAPSULE_EXITED)
      else
        let w := if negb (output_size =? 0)
                 then setMemory w (copy_return fiber c output_size (memory w)) else w in
        let '(w, err) := fiber_release w fiber in
        if negb (err =? 0) then (w, ERROR_POOL_CORRUPT, CAPSULE_EXITED) else (w, r_code r, CAPSULE_OK) in
    let w := if st =? CAPSULE_EXITED then setControl w i (withReturnSize (controlAt w i) 0) else w in
    (w, Result k st NO_CONTINUATION).

Definition capsule_continue (w : world) (output_size continuation : Z) : world * capsule_result :=
  match prepare_continue w continuation with
  | (w, r, Some fiber) => finish_continue (trampoline fiber w).1 r fiber output_size
  | (w, r, None) => (w, r)
  end.

Definition capsule_continue_ctx (w : world) (ctx output_size continuation : Z) : world * capsule_result :=
  match prepare_continue w continuation with
  | (w, r, Some fiber) => finish_continue (trampoline_ctx ctx fiber w).1 r fiber output_size
  | (w, r, None) => (w, r)
  end.

Definition capsule_reset (w : world) (continuation : Z) : world * capsule_result :=
  let '(w, consumed, fiber) := consume_continuation w continuation NO_FIBER in
  let failed k := Result k CAPSULE_EXITED NO_CONTINUATION in
  if consumed <? 0 then
    (w, failed (if consumed =? CLAIM_MAP_CORRUPT then ERROR_POOL_CORRUPT else ERROR_INVALID_CONTINUATION))
  else if consumed =? 0 then (w, failed ERROR_STALE_CONTINUATION)
  else if status (controlAt w (fiber_control fiber)) =? CAPSULE_EXITED then finish_exited w fiber
  else
    let w := setMemory w (fiber_local_reset fiber (memory w)) in
    let '(w, err) := fiber_cancel w fiber in
    (w, if negb (err =? 0) then failed ERROR_POOL_CORRUPT else Result 0 CAPSULE_OK NO_CONTINUATION).

(** The status a lowered [__bpf_capsule_call] reports for the control record. *)
Definition boundaryStatus (c : control) : Z :=
  if status c =? CAPSULE_EXITED then CAPSULE_EXITED
  else if status c =? CAPSULE_YIELD then CAPSULE_YIELD
  else if negb (resume_region_id c =? 0) then CAPSULE_PENDING
  else CAPSULE_OK.

(** The boundary call itself: push the root frame, drive once.  [ctx] is the
    borrowed context, if one is lent. *)
Definition capsule_call (w : world) (ctx : option Z) (fiber : Z) : world * Z :=
  let '(c, m) := push_frame fiber (controlAt w fiber) (memory w) in
  let w := setMemory (setControl w fiber c) m in
  let w := match ctx with Some ctx => (trampoline_ctx ctx fiber w).1 | None => (trampoline fiber w).1 end in
  (w, boundaryStatus (controlAt w fiber)).

(** The [__bpf_capsule_begin] macro. *)
Definition capsule_begin (cpu : Z) (w : world) (ctx : option Z) : world * capsule_result :=
  if negb (plan_broken =? 0) then (w, Result ERROR_BAD_PLAN CAPSULE_EXITED NO_CONTINUATION)
  else
    let '(w, fiber) := fiber_acquire cpu w in
    if fiber =? NO_FIBER then (w, Result ERROR_POOL_EXHAUSTED CAPSULE_EXITED NO_CONTINUATION)
    else
      let '(w, st) := capsule_call w ctx fiber in
      if st =? CAPSULE_OK then
        let '(w, err) := fiber_release w fiber in
        (w, if negb (err =? 0) then Result ERROR_POOL_CORRUPT CAPSULE_EXITED NO_CONTINUATION
            else Result 0 st NO_CONTINUATION)
      else if st =? CAPSULE_EXITED then finish_exited w fiber
      else (w, Result 0 st (make_continuation w fiber)).

(** The entries of the boundary interface. *)
Inductive request :=
| Begin (cpu : Z) (ctx : option Z)
| Continue (output_size continuation : Z)
| ContinueCtx (ctx output_size continuation : Z)
| Reset (continuation : Z).

Definition serve (w : world) (q : request) : world * capsule_result :=
  match q with
  | Begin cpu ctx => capsule_begin cpu w ctx
  | Continue n k => capsule_continue w n k
  | ContinueCtx ctx n k => capsule_continue_ctx w ctx n k
  | Reset k => capsule_reset w k
  end.

(** The allocator's syscall program.  [ALLOC_OUTPUT_SIZE] is
    [sizeof (struct __bpf_capsule_alloc_output)]. *)
Definition ALLOC_MALLOC : Z := 0.
Definition ALLOC_FREE : Z := 1.
Definition ALLOC_CONTINUE : Z := 2.
Definition ALLOC_RESET : Z := 3.
Definition ALLOC_OUTPUT_SIZE : Z := 16.

Definition allocRequest (cpu operation continuation : Z) : option request :=
  if (operation =? ALLOC_MALLOC) || (operation =? ALLOC_FREE) then Some (Begin cpu None)
  else if operation =? ALLOC_CONTINUE then Some (Continue ALLOC_OUTPUT_SIZE continuation)
  else if operation =? ALLOC_RESET then Some (Reset continuation)
  else None.

(** The return value, the result stored to the request, and whether the
    output is copied to the request too. *)
Definition alloc_program (w : world) (cpu operation continuation : Z)
    : world * Z * option (capsule_result * bool) :=
  match allocRequest cpu operation continuation with
  | Some q => let '(w, r) := serve w q in (w, 0, Some (r, r_status r =? CAPSULE_OK))
  | None => (w, - EINVAL, None)
  end.

End Runtime.
Arguments world {_} M.
End Fiber.
