(* ===== verification/FiberFacts.v ===== *)
(** * Facts about the fiber pool

    What the kernel documents of its maps ([BpfMapsLaws]), what the compiler
    guarantees of generated steps ([GeneratedLaws]), the pool invariant
    [pool] that relates a world to the map from leased fibers to the
    generation of their live continuation, and its preservation by
    acquisition, consumption, driving and release. *)

From Stdlib Require Import ZArith Lia.
From stdpp Require Import base numbers list gmap sets fin_maps fin_map_dom.
From S2P Require Import Prelude Fiber.

Import Fiber.
Local Open Scope Z_scope.

(** ** Interfaces *)

Class BpfMapsLaws `{BpfMaps} := {
  hash_view : hash → gmap Z Z;
  hash_max : hash → nat;
  stack_view : stack → list Z;
  stack_max : stack → nat;
  hash_lookup_view h k : hash_lookup h k = hash_view h !! k;
  hash_store_view h k v : is_Some (hash_view h !! k) →
    hash_view (hash_store h k v) = <[k := v]> (hash_view h) ∧ hash_max (hash_store h k v) = hash_max h;
  hash_update_present h k v : is_Some (hash_view h !! k) → hash_update_noexist h k v = (h, - EEXIST);
  hash_update_absent h k v : hash_view h !! k = None → (size (hash_view h) < hash_max h)%nat →
    ∃ h', hash_update_noexist h k v = (h', 0) ∧ hash_view h' = <[k := v]> (hash_view h) ∧
          hash_max h' = hash_max h;
  hash_delete_present h k : is_Some (hash_view h !! k) →
    ∃ h', hash_delete h k = (h', 0) ∧ hash_view h' = delete k (hash_view h) ∧ hash_max h' = hash_max h;
  stack_push_room s v : (length (stack_view s) < stack_max s)%nat →
    ∃ s', stack_push s v = (s', 0) ∧ stack_view s' = v :: stack_view s ∧ stack_max s' = stack_max s;
  stack_pop_cons s v l : stack_view s = v :: l →
    ∃ s', stack_pop s = (s', Some v) ∧ stack_view s' = l ∧ stack_max s' = stack_max s;
  stack_pop_nil s : stack_view s = [] → stack_pop s = (s, None);
}.

(** Codes only the boundary itself reports. *)
Definition runtimeCode (k : Z) : bool :=
  bool_decide (k ∈ [ERROR_POOL_EXHAUSTED; ERROR_INVALID_CONTINUATION; ERROR_STALE_CONTINUATION;
                    ERROR_NOT_PENDING; ERROR_POOL_CORRUPT; ERROR_RETURN_MISMATCH; ERROR_BAD_PLAN]).

(** A yielding fiber has a region to resume; an exit code is the program's. *)
Definition outcome (c : control) : Prop :=
  (status c = CAPSULE_YIELD → resume_region_id c ≠ 0) ∧
  (status c = CAPSULE_EXITED → runtimeCode (code c) = false).

Class GeneratedLaws (M : Type) `{Generated M} := {
  push_frame_keeps f c m : outcome c →
    outcome (push_frame f c m).1 ∧ generation (push_frame f c m).1 = generation c;
  step_keeps f c m : outcome c →
    outcome (trampoline_step f c m).1.1 ∧ generation (trampoline_step f c m).1.1 = generation c;
  ctx_step_keeps x f c m : outcome c →
    outcome (trampoline_ctx_step x f c m).1.1 ∧ generation (trampoline_ctx_step x f c m).1.1 = generation c;
}.

(** ** Continuations *)

Lemma generation_mask : CONTINUATION_GENERATION_MASK = 2 ^ 48 - 1.
Proof. reflexivity. Qed.

Lemma next_generation_range g : 1 <= next_generation g < 2 ^ 48.
Proof.
  unfold next_generation. rewrite generation_mask.
  change (2 ^ 48 - 1) with (Z.ones 48). rewrite Z.land_ones by lia.
  destruct (Z.eqb_spec (u64 (g + 1) mod 2 ^ 48) 0); [lia|].
  pose proof (Z.mod_pos_bound (u64 (g + 1)) (2 ^ 48)). lia.
Qed.

Lemma next_generation_succ g : 0 <= g < 2 ^ 48 - 1 → next_generation g = g + 1.
Proof.
  intros Hg. unfold next_generation. rewrite generation_mask.
  change (2 ^ 48 - 1) with (Z.ones 48). rewrite Z.land_ones by lia.
  unfold u64. rewrite wrap_small by lia. rewrite Z.mod_small by lia.
  destruct (Z.eqb_spec (g + 1) 0); lia.
Qed.

Lemma next_generation_last : next_generation (2 ^ 48 - 1) = 1.
Proof. reflexivity. Qed.

(** A token is [generation * 2^16 + fiber]. *)
Lemma continuation_value_spec f g :
  0 <= f < 2 ^ 16 → 0 <= g < 2 ^ 48 → continuation_value f g = g * 2 ^ 16 + f.
Proof.
  intros Hf Hg. unfold continuation_value, CONTINUATION_FIBER_BITS.
  rewrite Z.shiftl_mul_pow2 by lia. unfold u64. rewrite wrap_small by lia.
  pose proof (Z.add_lor_land (g * 2 ^ 16) f). enough (Z.land (g * 2 ^ 16) f = 0) by lia.
  apply Z.bits_inj'. intros n Hn. rewrite Z.land_spec, Z.bits_0. destruct (Z.ltb_spec n 16).
  - by rewrite Z.mul_pow2_bits_low by lia.
  - rewrite (Z.bits_above_log2 f n), andb_false_r; [done|lia|].
    destruct (decide (f = 0)) as [->|]; [simpl; lia|]. apply Z.log2_lt_pow2; [lia|].
    apply Z.lt_le_trans with (2 ^ 16); [lia|]. apply Z.pow_le_mono_r; lia.
Qed.

Lemma decode_fiber t : Z.land t CONTINUATION_FIBER_MASK = t mod 2 ^ 16.
Proof. change CONTINUATION_FIBER_MASK with (Z.ones 16). by rewrite Z.land_ones. Qed.

Lemma decode_generation t : Z.shiftr t CONTINUATION_FIBER_BITS = t / 2 ^ 16.
Proof. unfold CONTINUATION_FIBER_BITS. by rewrite Z.shiftr_div_pow2. Qed.

Lemma decode_value f g :
  0 <= f < 2 ^ 16 → 0 <= g < 2 ^ 48 →
  Z.land (continuation_value f g) CONTINUATION_FIBER_MASK = f ∧
  Z.shiftr (continuation_value f g) CONTINUATION_FIBER_BITS = g.
Proof.
  intros Hf Hg. rewrite decode_fiber, decode_generation, continuation_value_spec by done. split.
  - rewrite Z.add_comm, Z_mod_plus_full, Z.mod_small; lia.
  - rewrite Z.div_add_l, Z.div_small; lia.
Qed.

(** ** The pool invariant *)

Section Pool.
Context `{BpfMapsLaws} {M : Type} `{!Generated M} `{!GeneratedLaws M} (obj : object).
Hypothesis limit : 1 <= MAX_FIBERS obj <= MAX_FIBERS_LIMIT.

Notation world := (world M).
Notation count := (fiberCount obj).

(** A suspended fiber can be continued or reaped. *)
Definition suspended (c : control) : Prop := resume_region_id c ≠ 0 ∨ status c = CAPSULE_EXITED.

(** The record of a fiber that is not leased, on the arena tier. *)
Definition idle (c : control) : Prop := resume_region_id c = 0 ∧ status c ≠ CAPSULE_EXITED.

(** [A] maps each leased fiber to its generation; all but the running fiber
    [run] are suspended. *)
Record pool (w : world) (A : gmap Z Z) (run : option Z) : Prop := {
  p_length : length (controls w) = Z.to_nat (MAX_FIBERS obj);
  p_generation i : 0 <= i → 0 <= generation (controlAt w i) < 2 ^ 48;
  p_leased f g : A !! f = Some g → 0 <= f < count ∧ 1 <= g ∧ generation (controlAt w f) = g;
  p_suspended f : is_Some (A !! f) → run ≠ Some f → suspended (controlAt w f);
  p_outcome f : is_Some (A !! f) → outcome (controlAt w f);
  p_claims : hash_view (continuation_claims w) = ∅ ∧ (0 < hash_max (continuation_claims w))%nat;
  p_fixed : FEATURE_ARENA obj = false →
    hash_view (fiber_leases w) = A ∧ (Z.to_nat count <= hash_max (fiber_leases w))%nat;
  p_arena : FEATURE_ARENA obj = true →
    (∀ f, is_Some (hash_view (issued_fibers w) !! f) ↔ is_Some (A !! f) ∨ f ∈ stack_view (free_fibers w)) ∧
    NoDup (stack_view (free_fibers w)) ∧
    (∀ f, f ∈ stack_view (free_fibers w) → A !! f = None ∧ 0 <= f < count) ∧
    (∀ f, 0 <= f < count → A !! f = None → idle (controlAt w f)) ∧
    (Z.to_nat count <= hash_max (issued_fibers w))%nat ∧
    (Z.to_nat count <= stack_max (free_fibers w))%nat;
}.

Lemma count_range : 0 <= count <= MAX_FIBERS obj.
Proof. unfold fiberCount. destruct (_ && _) eqn:E; bool_to_prop; lia. Qed.

Lemma count_no_fiber : count < NO_FIBER.
Proof. pose proof count_range. unfold NO_FIBER, MAX_FIBERS_LIMIT in *. lia. Qed.

Lemma fiber_control_id f : 0 <= f < count → fiber_control obj f = f.
Proof. pose proof count_range. intros. apply Z.mod_small. lia. Qed.

Lemma controlAt_set (w : world) i j c :
  0 <= i < count → 0 <= j → length (controls w) = Z.to_nat (MAX_FIBERS obj) →
  controlAt (setControl w i c) j = if decide (i = j) then c else controlAt w j.
Proof.
  intros Hi Hj Hlen. pose proof count_range. unfold controlAt, setControl. simpl.
  destruct (decide (i = j)) as [->|Hne].
  - rewrite list_lookup_insert_eq by lia. done.
  - rewrite list_lookup_insert_ne by lia. done.
Qed.

(** A set of fibers that misses one in range is smaller than the pool. *)
Lemma missing_size (h : gmap Z Z) f :
  0 <= f < count → h !! f = None → (∀ k, is_Some (h !! k) → 0 <= k < count) →
  (size h < Z.to_nat count)%nat.
Proof.
  intros Hf Hnone Hin. rewrite <-(size_dom h).
  assert (Hsub : dom h ⊂ list_to_set (C := gset Z) (seqZ 0 count)).
  { apply strict_spec_alt. split.
    - intros k Hk%elem_of_dom. apply elem_of_list_to_set, elem_of_seqZ. specialize (Hin _ Hk). lia.
    - intros Heq. assert (Hd : f ∈ dom h).
      { rewrite Heq. apply elem_of_list_to_set, elem_of_seqZ. lia. }
      apply elem_of_dom in Hd as [? ?]. congruence. }
  apply subset_size in Hsub. rewrite size_list_to_set in Hsub by apply NoDup_seqZ.
  by rewrite length_seqZ in Hsub.
Qed.

(** The arena's scan happens with an empty free stack. *)
Definition scanning (w : world) : Prop := FEATURE_ARENA obj = true → stack_view (free_fibers w) = [].

Lemma tryFiber_taken (w : world) A run f : pool w A run → is_Some (A !! f) → tryFiber obj w f = None.
Proof.
  intros Hp Hf. unfold tryFiber. destruct (FEATURE_ARENA obj) eqn:E.
  - destruct (p_arena _ _ _ Hp E) as (Hi & _).
    by rewrite hash_update_present by (apply Hi; by left).
  - destruct (p_fixed _ _ _ Hp E) as [Hv _].
    by rewrite hash_update_present by (by rewrite Hv).
Qed.

(** What a successful attempt changes. *)
Definition claimed (w w' : world) (f : Z) : Prop :=
  let g := next_generation (generation (controlAt w f)) in
  if FEATURE_ARENA obj
  then ∃ h, w' = setIssued w h ∧ hash_view h = <[f := 1]> (hash_view (issued_fibers w)) ∧
            hash_max h = hash_max (issued_fibers w)
  else ∃ h, w' = setControl (setLeases w h) f (withGeneration (controlAt w f) g) ∧
            hash_view h = <[f := g]> (hash_view (fiber_leases w)) ∧
            hash_max h = hash_max (fiber_leases w).

Lemma tryFiber_free (w : world) A run f :
  pool w A run → scanning w → 0 <= f < count → A !! f = None →
  ∃ w', tryFiber obj w f = Some w' ∧ claimed w w' f.
Proof.
  intros Hp Hs Hf Hnone. unfold tryFiber, claimed. destruct (FEATURE_ARENA obj) eqn:E.
  - destruct (p_arena _ _ _ Hp E) as (Hi & _ & _ & _ & Hmax & _). rewrite (Hs E) in Hi.
    assert (Hiff : ∀ k, is_Some (hash_view (issued_fibers w) !! k) ↔ is_Some (A !! k)).
    { intros k. rewrite Hi. split; [intros [?|?%not_elem_of_nil]; done|by left]. }
    assert (Hn : hash_view (issued_fibers w) !! f = None).
    { apply eq_None_not_Some. rewrite Hiff, Hnone. by intros [? ?]. }
    destruct (hash_update_absent (issued_fibers w) f 1 Hn) as (h & -> & Hv & Hm).
    { apply Nat.lt_le_trans with (Z.to_nat count); [|done]. apply (missing_size _ f); [done|done|].
      intros k [g Hk]%Hiff. apply (p_leased _ _ _ Hp _ _ Hk). }
    simpl. eexists. split; [done|]. by exists h.
  - destruct (p_fixed _ _ _ Hp E) as [Hv Hmax].
    destruct (hash_update_absent (fiber_leases w) f (next_generation (generation (controlAt w f))))
      as (h & -> & Hh & Hm).
    { by rewrite Hv. }
    { apply Nat.lt_le_trans with (Z.to_nat count); [|done]. rewrite Hv.
      apply (missing_size _ f); [done|done|]. intros k [g Hk]. apply (p_leased _ _ _ Hp _ _ Hk). }
    simpl. eexists. split; [done|]. by exists h.
Qed.

(** ** The scan *)

(** The fiber of attempt [k]. *)
Definition candidate (start k : Z) : Z := (start + k) mod count.

(** A scan of the attempts [lo, hi): it claims a free fiber, or the world is
    unchanged and every fiber it tried is leased. *)
Definition scanned (w : world) (A : gmap Z Z) (start lo hi : Z) (r : world * Z) : Prop :=
  (r = (w, NO_FIBER) ∧ ∀ k, lo <= k < hi → k < count → is_Some (A !! candidate start k)) ∨
  (0 <= r.2 < count ∧ A !! r.2 = None ∧ claimed w r.1 r.2).

Lemma scanned_le w A start lo hi hi' r :
  scanned w A start lo hi r → (hi' <= hi ∨ count <= hi) → scanned w A start lo hi' r.
Proof. intros [[-> Ht]|Hc] Hle; [left; split; [done|]|by right]. intros k Hk Hc. apply Ht; lia. Qed.

Lemma scanned_app w A start lo mid hi r :
  (∀ k, lo <= k < mid → k < count → is_Some (A !! candidate start k)) →
  scanned w A start mid hi r → scanned w A start lo hi r.
Proof.
  intros Hlo [[-> Ht]|Hc]; [left; split; [done|]|by right].
  intros k Hk Hc. destruct (decide (k < mid)); [apply Hlo|apply Ht]; lia.
Qed.

Lemma candidate_wrap start k :
  0 <= start < count → 0 <= k < count →
  (if count <=? u32 (start + k) then u32 (start + k) - count else u32 (start + k)) = candidate start k.
Proof.
  intros Hs Hk. pose proof count_range. unfold MAX_FIBERS_LIMIT in limit.
  unfold u32. rewrite wrap_small by lia. unfold candidate.
  destruct (Z.leb_spec count (start + k)).
  - apply (Z.mod_unique _ _ 1); lia.
  - symmetry. apply Z.mod_small. lia.
Qed.

Lemma candidate_range start k : 0 < count → 0 <= candidate start k < count.
Proof. intros. by apply Z.mod_pos_bound. Qed.

Lemma chunkLoop_scanned w A run n start first local :
  pool w A run → scanning w → 0 <= start < count → 0 <= first → 0 <= local →
  first + local < 2 ^ 17 → Z.of_nat n <= 16 →
  scanned w A start (first + local) (first + local + Z.of_nat n) (chunkLoop obj n w start first local).
Proof.
  intros Hp Hs Hst Hfirst. revert local. induction n as [|n IH]; intros local Hlocal Hb Hn.
  - left. split; [done|]. lia.
  - assert (Hu : u32 (first + local) = first + local) by (apply wrap_small; lia).
    cbn [chunkLoop]. cbv zeta. rewrite Hu.
    destruct (Z.leb_spec count (first + local)).
    { left. split; [done|]. lia. }
    rewrite candidate_wrap by lia.
    pose proof (candidate_range start (first + local)) as Hr.
    destruct (A !! candidate start (first + local)) as [g|] eqn:Ec.
    + rewrite (tryFiber_taken w A run) by (done || by rewrite Ec).
      pose proof count_range. unfold MAX_FIBERS_LIMIT in limit.
      eapply (scanned_app _ _ _ _ (first + (local + 1))).
      * intros k Hk _. replace k with (first + local) by lia. by rewrite Ec.
      * replace (first + local + Z.of_nat (S n)) with (first + (local + 1) + Z.of_nat n) by lia.
        apply IH; lia.
    + destruct (tryFiber_free w A run (candidate start (first + local))) as (w' & -> & Hcl);
        [done|done|apply Hr; lia|done|].
      right. simpl. split_and!; [apply Hr; lia|apply Hr; lia|done|done].
Qed.

Lemma acquire_chunk_scanned w A run start first :
  pool w A run → scanning w → 0 <= start < count → 0 <= first < 2 ^ 16 →
  scanned w A start first (first + 16) (acquire_chunk obj w start first).
Proof.
  intros Hp Hs Hst Hf. unfold acquire_chunk.
  destruct (Z.leb_spec count start); [lia|]. destruct (Z.leb_spec count first); simpl.
  - left. split; [done|]. lia.
  - pose proof (chunkLoop_scanned w A run 16 start first 0) as Hc. rewrite Z.add_0_r in Hc.
    apply Hc; (done || lia).
Qed.

(** A loop whose trips scan [step] attempts each scans them all. *)
Lemma pageLoop_scanned w A run n start first chunk :
  pool w A run → scanning w → 0 <= start < count → 0 <= first → 0 <= chunk →
  first + (chunk + Z.of_nat n) * 16 < 2 ^ 17 →
  scanned w A start (first + chunk * 16) (first + (chunk + Z.of_nat n) * 16)
    (pageLoop obj n w start first chunk).
Proof.
  intros Hp Hs Hst Hfirst. revert chunk. induction n as [|n IH]; intros chunk Hchunk Hb.
  - left. split; [done|]. lia.
  - cbn [pageLoop]. cbv zeta. unfold u32. unfold FIBER_SCAN_CHUNK at 1.
    rewrite wrap_small by lia. pose proof count_range. unfold MAX_FIBERS_LIMIT in limit.
    destruct (Z.leb_spec count (first + chunk * 16)) as [|Hlt].
    { left. split; [done|]. lia. }
    pose proof (acquire_chunk_scanned w A run start (first + chunk * 16) Hp Hs Hst ltac:(lia)) as Hc.
    unfold FIBER_SCAN_CHUNK at 1. rewrite wrap_small by lia.
    destruct Hc as [[-> Ht]|(Hr & Hn & Hcl)].
    + destruct (Z.ltb_spec NO_FIBER count); [pose proof count_no_fiber; lia|].
      eapply (scanned_app _ _ _ _ (first + (chunk + 1) * 16)).
      * intros k Hk. apply Ht. lia.
      * replace (first + (chunk + Z.of_nat (S n)) * 16) with (first + (chunk + 1 + Z.of_nat n) * 16) by lia.
        apply IH; lia.
    + destruct (acquire_chunk obj w start _) as [w' f]. simpl in *.
      destruct (Z.ltb_spec f count); [|lia]. by right.
Qed.

Lemma acquire_page_scanned w A run start first :
  pool w A run → scanning w → 0 <= start < count → 0 <= first < 2 ^ 16 →
  scanned w A start first (first + 256) (acquire_page obj w start first).
Proof.
  intros Hp Hs Hst Hf. unfold acquire_page. destruct (Z.leb_spec count first).
  - left. split; [done|]. lia.
  - pose proof (pageLoop_scanned w A run 16 start first 0) as Hc.
    replace (first + 0 * 16) with first in Hc by lia. apply Hc; (done || lia).
Qed.

(** What [fiber_acquire] owes its caller: a fiber that was free, now leased
    with the next generation and a cleared record, or a full pool. *)
Definition acquired (w : world) (A : gmap Z Z) (r : world * Z) : Prop :=
  let g := next_generation (generation (controlAt w r.2)) in
  (r = (w, NO_FIBER) ∧ ∀ f, 0 <= f < count → is_Some (A !! f)) ∨
  (0 <= r.2 < count ∧ A !! r.2 = None ∧ pool r.1 (<[r.2 := g]> A) (Some r.2) ∧
   controls r.1 = <[Z.to_nat r.2 := Control CAPSULE_OK 0 g 0 0 0 0]> (controls w) ∧ memory r.1 = memory w).

(** The same generations. *)
Definition same_generations (w w' : world) : Prop :=
  ∀ j, 0 <= j → generation (controlAt w' j) = generation (controlAt w j).

Lemma same_generations_set (w w' : world) f c :
  0 <= f < count → length (controls w) = Z.to_nat (MAX_FIBERS obj) →
  controls w' = controls (setControl w f c) → generation c = generation (controlAt w f) →
  same_generations w w'.
Proof.
  intros Hf Hlen Hc Hg j Hj. pose proof (controlAt_set w f j c Hf Hj Hlen) as Hat.
  unfold controlAt in Hat at 1. rewrite <-Hc in Hat. unfold controlAt at 1. rewrite Hat.
  destruct (decide _); congruence.
Qed.

Lemma same_generations_controls (w w' : world) : controls w' = controls w → same_generations w w'.
Proof. intros Hc j _. unfold controlAt. by rewrite Hc. Qed.

Lemma same_generations_trans (w1 w2 w3 : world) :
  same_generations w1 w2 → same_generations w2 w3 → same_generations w1 w3.
Proof. intros H12 H23 j Hj. by rewrite H23, H12. Qed.

(** ** Preservation *)

Lemma pool_memory w A run m : pool w A run → pool (setMemory w m) A run.
Proof. intros []. by constructor. Qed.

Lemma pool_start w A f : pool w A None → pool w A (Some f).
Proof. intros []. constructor; try done. intros k Hk _. by apply p_suspended0. Qed.

Lemma pool_suspend w A f : pool w A (Some f) → suspended (controlAt w f) → pool w A None.
Proof.
  intros [] Hs. constructor; try done. intros k Hk _. destruct (decide (k = f)) as [->|]; [done|].
  apply p_suspended0; [done|]. congruence.
Qed.

(** The running fiber's record may change, its generation apart. *)
Lemma pool_set w A f c :
  pool w A (Some f) → is_Some (A !! f) → outcome c → generation c = generation (controlAt w f) →
  pool (setControl w f c) A (Some f).
Proof.
  intros Hp [g Hf] Ho Hg. destruct (p_leased _ _ _ Hp _ _ Hf) as (Hr & Hg1 & Hgen).
  assert (Hat : ∀ j, 0 <= j → controlAt (setControl w f c) j = if decide (f = j) then c else controlAt w j).
  { intros j Hj. apply controlAt_set; [done|done|apply Hp]. }
  constructor.
  - simpl. rewrite length_insert. apply Hp.
  - intros i Hi. rewrite Hat by done. destruct (decide _) as [->|]; [rewrite Hg|]; by apply Hp.
  - intros k gk Hk. pose proof (p_leased _ _ _ Hp _ _ Hk) as (Hkr & Hk1 & Hkg).
    rewrite Hat by lia. split_and!; try done; try lia. destruct (decide _) as [->|]; congruence.
  - intros k [gk Hk] Hne. pose proof (p_leased _ _ _ Hp _ _ Hk) as (Hkr & _).
    rewrite Hat by lia. destruct (decide _) as [->|]; [done|]. apply (p_suspended _ _ _ Hp); eauto.
  - intros k [gk Hk]. pose proof (p_leased _ _ _ Hp _ _ Hk) as (Hkr & _).
    rewrite Hat by lia. destruct (decide _) as [->|]; [done|]. apply (p_outcome _ _ _ Hp); eauto.
  - apply Hp.
  - apply Hp.
  - intros E. destruct (p_arena _ _ _ Hp E) as (Hi & Hnd & Hfree & Hidle & Hm1 & Hm2).
    split_and!; try done. intros k Hkr Hk.
    rewrite Hat by lia. destruct (decide _) as [->|]; [congruence|auto].
Qed.

Lemma pool_lease w w' A f g :
  pool w A None → 0 <= f < count → A !! f = None → 1 <= g < 2 ^ 48 →
  controls w' = <[Z.to_nat f := Control CAPSULE_OK 0 g 0 0 0 0]> (controls w) →
  continuation_claims w' = continuation_claims w →
  (FEATURE_ARENA obj = false → hash_view (fiber_leases w') = <[f := g]> A ∧
     hash_max (fiber_leases w') = hash_max (fiber_leases w)) →
  (FEATURE_ARENA obj = true →
     (∀ k, is_Some (hash_view (issued_fibers w') !! k) ↔ is_Some (hash_view (issued_fibers w) !! k) ∨ k = f) ∧
     hash_max (issued_fibers w') = hash_max (issued_fibers w) ∧
     (∀ k, k ∈ stack_view (free_fibers w') ↔ k ∈ stack_view (free_fibers w) ∧ k ≠ f) ∧
     NoDup (stack_view (free_fibers w')) ∧ stack_max (free_fibers w') = stack_max (free_fibers w)) →
  pool w' (<[f := g]> A) (Some f).
Proof.
  intros Hp Hr Hnone Hg Hc Hcl Hfix Har.
  set (c := Control CAPSULE_OK 0 g 0 0 0 0) in *.
  assert (Hat : ∀ j, 0 <= j → controlAt w' j = if decide (f = j) then c else controlAt w j).
  { intros j Hj. rewrite <-(controlAt_set w f j c) by (done || apply Hp).
    unfold controlAt. by rewrite Hc. }
  constructor.
  - rewrite Hc, length_insert. apply Hp.
  - intros i Hi. rewrite Hat by done. destruct (decide _) as [->|]; [simpl; lia|by apply Hp].
  - intros k gk [[<- <-]|[Hne Hk]]%lookup_insert_Some; rewrite Hat by
      (apply (p_leased _ _ _ Hp) in Hk || idtac; lia).
    + destruct (decide _); [|done]. split_and!; simpl; lia.
    + destruct (decide _); [done|]. by apply (p_leased _ _ _ Hp).
  - intros k Hk Hrun. rewrite lookup_insert_ne in Hk by congruence. destruct Hk as [gk Hk].
    pose proof (p_leased _ _ _ Hp _ _ Hk). rewrite Hat by lia.
    destruct (decide _); [congruence|]. apply (p_suspended _ _ _ Hp); eauto.
  - intros k [gk [[<- <-]|[Hne Hk]]%lookup_insert_Some].
    + rewrite Hat by lia. destruct (decide _); [|done]. by split.
    + pose proof (p_leased _ _ _ Hp _ _ Hk). rewrite Hat by lia. destruct (decide _); [done|].
      apply (p_outcome _ _ _ Hp); eauto.
  - rewrite Hcl. apply Hp.
  - intros E. destruct (Hfix E) as [-> ->]. destruct (p_fixed _ _ _ Hp E). done.
  - intros E. destruct (Har E) as (Hi' & -> & Hf' & Hnd' & ->).
    destruct (p_arena _ _ _ Hp E) as (Hi & Hnd & Hfree & Hidle & Hm1 & Hm2). split_and!; try done.
    + intros k. rewrite Hi', Hi, Hf'. destruct (decide (k = f)) as [->|].
      * rewrite lookup_insert_eq. split; [intros _; left; eauto|intros _; by right].
      * rewrite lookup_insert_ne by done. tauto.
    + intros k [Hk Hne]%Hf'. rewrite lookup_insert_ne by done. by apply Hfree.
    + intros k Hkr [Hk Hne]%lookup_insert_None. rewrite Hat by lia.
      destruct (decide _); [done|auto].
Qed.

Lemma pool_unlease w w' A f :
  pool w A (Some f) → is_Some (A !! f) → idle (controlAt w f) →
  controls w' = controls w → continuation_claims w' = continuation_claims w →
  (FEATURE_ARENA obj = false → hash_view (fiber_leases w') = delete f (hash_view (fiber_leases w)) ∧
     hash_max (fiber_leases w') = hash_max (fiber_leases w)) →
  (FEATURE_ARENA obj = true → issued_fibers w' = issued_fibers w ∧
     stack_view (free_fibers w') = f :: stack_view (free_fibers w) ∧
     stack_max (free_fibers w') = stack_max (free_fibers w)) →
  pool w' (delete f A) None.
Proof.
  intros Hp [g Hf] Hid Hc Hcl Hfix Har.
  assert (Hat : ∀ j, controlAt w' j = controlAt w j) by (intros; unfold controlAt; by rewrite Hc).
  constructor.
  - rewrite Hc. apply Hp.
  - intros i. rewrite Hat. apply Hp.
  - intros k gk [_ Hk]%lookup_delete_Some. rewrite Hat. by apply Hp.
  - intros k [gk [Hne Hk]%lookup_delete_Some] _. rewrite Hat. apply (p_suspended _ _ _ Hp); [eauto|congruence].
  - intros k [gk [Hne Hk]%lookup_delete_Some]. rewrite Hat. apply (p_outcome _ _ _ Hp). eauto.
  - rewrite Hcl. apply Hp.
  - intros E. destruct (Hfix E) as [-> ->]. destruct (p_fixed _ _ _ Hp E) as [-> ?]. done.
  - intros E. destruct (Har E) as (-> & -> & ->).
    destruct (p_arena _ _ _ Hp E) as (Hi & Hnd & Hfree & Hidle & Hm1 & Hm2). split_and!; try done.
    + intros k. rewrite Hi, elem_of_cons. destruct (decide (k = f)) as [->|].
      * split; [intros _; right; by left|intros _; left; eauto].
      * rewrite lookup_delete_ne by done. naive_solver.
    + constructor; [|done]. intros Hin. destruct (Hfree f Hin) as [? _]. congruence.
    + intros k [->|Hk]%elem_of_cons.
      * rewrite lookup_delete_eq. destruct (p_leased _ _ _ Hp _ _ Hf) as (? & _). done.
      * destruct (Hfree k Hk) as (Hn & Hkr). by rewrite lookup_delete_ne by congruence.
    + intros k Hkr Hk. rewrite Hat. destruct (decide (k = f)) as [->|]; [done|].
      rewrite lookup_delete_ne in Hk by done. auto.
Qed.

End Pool.
