(* ===== verification/FiberPool.v ===== *)
(** * The operations of the fiber pool keep its invariant

    Acquisition, release, consumption of a continuation and driving, each
    against the invariant [pool] of [FiberFacts]. *)

From Stdlib Require Import ZArith Lia.
From stdpp Require Import base numbers list gmap sets fin_maps fin_map_dom.
From S2P Require Import Prelude Fiber FiberFacts.

Import Fiber.
Local Open Scope Z_scope.

Section Pool.
Context `{BpfMapsLaws} {M : Type} `{!Generated M} `{!GeneratedLaws M} (obj : object).
Hypothesis limit : 1 <= MAX_FIBERS obj <= MAX_FIBERS_LIMIT.

Notation world := (world M).
Notation count := (fiberCount obj).
Notation pool := (pool obj).

(** ** Acquisition *)

Lemma prepare_claimed (w w' : world) A f :
  pool w A None → 0 <= f < count → A !! f = None → claimed obj w w' f → scanning obj w →
  let g := next_generation (generation (controlAt w f)) in
  pool (prepare_fiber obj w' f) (<[f := g]> A) (Some f) ∧
  controls (prepare_fiber obj w' f) = <[Z.to_nat f := Control CAPSULE_OK 0 g 0 0 0 0]> (controls w) ∧
  memory (prepare_fiber obj w' f) = memory w.
Proof.
  intros Hp Hf Hn Hcl Hsc g. pose proof (next_generation_range (generation (controlAt w f))) as Hg.
  fold g in Hg. pose proof (count_range obj limit) as Hcr. pose proof (p_length _ _ _ _ Hp) as Hlen.
  assert (Hcs : controls (prepare_fiber obj w' f) = <[Z.to_nat f := Control CAPSULE_OK 0 g 0 0 0 0]> (controls w)).
  { unfold claimed in Hcl. unfold prepare_fiber. destruct (FEATURE_ARENA obj).
    - by destruct Hcl as (h & -> & _).
    - destruct Hcl as (h & -> & _). simpl. unfold controlAt at 1. simpl.
      rewrite list_lookup_insert_eq by lia. by rewrite list_insert_insert_eq. }
  split_and!.
  - apply (pool_lease obj limit w); try done.
    + unfold claimed in Hcl. unfold prepare_fiber. by destruct (FEATURE_ARENA obj); destruct Hcl as (h & -> & _).
    + intros E. unfold claimed in Hcl. rewrite E in Hcl. destruct Hcl as (h & -> & Hh & Hm). simpl.
      rewrite Hh. by destruct (p_fixed _ _ _ _ Hp E) as [-> _].
    + intros E. unfold claimed in Hcl. rewrite E in Hcl. destruct Hcl as (h & -> & Hh & Hm). simpl.
      rewrite Hh, (Hsc E). split_and!; try done.
      * intros k. destruct (decide (k = f)) as [->|].
        { rewrite lookup_insert_eq. split; eauto. }
        rewrite lookup_insert_ne by done. naive_solver.
      * intros k. split; [by intros ?%not_elem_of_nil|by intros [?%not_elem_of_nil _]].
      * constructor.
  - done.
  - unfold claimed in Hcl. by destruct (FEATURE_ARENA obj); destruct Hcl as (h & -> & _).
Qed.

Lemma acquireLoop_ok (w : world) A n start page :
  pool w A None → scanning obj w → 0 <= start < count → 0 <= page →
  (page + Z.of_nat n - 1) * 256 < 2 ^ 16 →
  (∀ k, 0 <= k < page * 256 → k < count → is_Some (A !! candidate obj start k)) →
  count <= (page + Z.of_nat n) * 256 →
  acquired obj w A (acquireLoop obj n w start page).
Proof.
  intros Hp Hs Hst. revert page. induction n as [|n IH]; intros page Hpage Hb Ht Hcount.
  - left. split; [done|]. intros f Hf.
    assert (Hk : candidate obj start ((f - start) mod count) = f).
    { unfold candidate. rewrite Zplus_mod_idemp_r. replace (start + (f - start)) with f by lia.
      apply Z.mod_small. lia. }
    rewrite <-Hk. pose proof (Z.mod_pos_bound (f - start) count). apply Ht; lia.
  - cbn [acquireLoop]. change FIBER_SCAN_PAGE with 256.
    pose proof (acquire_page_scanned obj limit w A None start (page * 256) Hp Hs Hst ltac:(lia)) as Hc.
    destruct Hc as [[-> Hall]|(Hr & Hn & Hcl)].
    + destruct (Z.ltb_spec NO_FIBER count); [pose proof (count_no_fiber obj limit); lia|].
      apply IH; [lia|lia| |lia]. intros k Hk Hkc. destruct (decide (k < page * 256)); [apply Ht|apply Hall]; lia.
    + destruct (acquire_page obj w start _) as [w' f]. simpl in *.
      destruct (Z.ltb_spec f count); [|lia]. right.
      destruct (prepare_claimed w w' A f) as (Hpool & Hctl & Hmem); [done..|].
      simpl. split_and!; (done || lia).
Qed.

Lemma acquire_popped (w : world) A s f l :
  pool w A None → FEATURE_ARENA obj = true → stack_view (free_fibers w) = f :: l →
  stack_view s = l → stack_max s = stack_max (free_fibers w) →
  acquired obj w A (prepare_fiber obj (setFree w s) f, f).
Proof.
  intros Hp E Hv Hs Hm. destruct (p_arena _ _ _ _ Hp E) as (Hi & Hnd & Hfree & _).
  rewrite Hv in *. destruct (Hfree f) as (Hn & Hf); [by left|].
  pose proof (next_generation_range (generation (controlAt w f))) as Hg.
  pose proof (p_length _ _ _ _ Hp) as Hlen. pose proof (count_range obj limit).
  apply NoDup_cons in Hnd as [Hnin Hnd].
  right. simpl. unfold prepare_fiber. rewrite E.
  split_and!; [lia|lia|done| |done|done].
  - apply (pool_lease obj limit w); try done; [congruence|]. intros _. simpl. rewrite Hs, Hv.
    split_and!; try done.
    + intros k. rewrite Hi. split; [by left|]. intros [Hk| ->]; [done|]. right. by left.
    + intros k. rewrite elem_of_cons. split; [|naive_solver]. intros Hk. split; [by right|].
      intros ->. done.
Qed.

Lemma fiber_acquire_ok cpu (w : world) A :
  0 <= cpu → pool w A None → acquired obj w A (fiber_acquire obj cpu w).
Proof.
  intros Hcpu Hp. unfold fiber_acquire. pose proof (count_range obj limit) as Hcr.
  destruct (Z.eqb_spec count 0) as [E0|E0].
  { left. split; [done|]. lia. }
  assert (Hscan : scanning obj w → acquired obj w A (acquireLoop obj (Z.to_nat (SCAN_PAGES obj)) w (cpu mod count) 0)).
  { intros Hs. unfold MAX_FIBERS_LIMIT in limit.
    assert (Hpages : MAX_FIBERS obj <= SCAN_PAGES obj * 256 < MAX_FIBERS obj + 256).
    { unfold SCAN_PAGES. change FIBER_SCAN_PAGE with 256.
      pose proof (Z.div_mod (MAX_FIBERS obj + 256 - 1) 256). 
      pose proof (Z.mod_pos_bound (MAX_FIBERS obj + 256 - 1) 256). lia. }
    apply acquireLoop_ok; try done; try lia. apply Z.mod_pos_bound. lia. }
  destruct (FEATURE_ARENA obj) eqn:E.
  - destruct (stack_view (free_fibers w)) as [|f l] eqn:Hv.
    + rewrite (stack_pop_nil _ Hv). apply Hscan. by intros _.
    + destruct (stack_pop_cons _ _ _ Hv) as (s & -> & Hs & Hm).
      destruct (p_arena _ _ _ _ Hp E) as (_ & _ & Hfree & _).
      destruct (Hfree f) as (_ & Hf); [rewrite Hv; by left|].
      destruct (Z.leb_spec count f); [lia|]. by eapply acquire_popped.
  - apply Hscan. intros ?. congruence.
Qed.

(** ** Release *)

Lemma free_room (w : world) A f :
  pool w A (Some f) → FEATURE_ARENA obj = true → is_Some (A !! f) →
  (length (stack_view (free_fibers w)) < Z.to_nat count)%nat.
Proof.
  intros Hp E [g Hf]. destruct (p_arena _ _ _ _ Hp E) as (_ & Hnd & Hfree & _).
  destruct (p_leased _ _ _ _ Hp _ _ Hf) as (Hr & _).
  assert (Hsub : f :: stack_view (free_fibers w) ⊆+ seqZ 0 count).
  { apply NoDup_submseteq.
    - constructor; [|done]. intros Hin. destruct (Hfree f Hin). congruence.
    - intros k [->|Hk]%elem_of_cons; apply elem_of_seqZ; [lia|]. destruct (Hfree k Hk). lia. }
  apply submseteq_length in Hsub. rewrite length_seqZ in Hsub. simpl in Hsub. lia.
Qed.

Lemma fiber_release_ok (w : world) A f :
  pool w A (Some f) → is_Some (A !! f) → idle (controlAt w f) →
  ∃ w', fiber_release obj w f = (w', 0) ∧ pool w' (delete f A) None ∧
    memory w' = memory w ∧ controls w' = controls w.
Proof.
  intros Hp Hf Hid. destruct Hf as [g Hf]. destruct (p_leased _ _ _ _ Hp _ _ Hf) as (Hr & _).
  unfold fiber_release. destruct (Z.leb_spec count f); [lia|]. destruct (FEATURE_ARENA obj) eqn:E.
  - destruct (stack_push_room (free_fibers w) f) as (s & -> & Hs & Hm).
    { destruct (p_arena _ _ _ _ Hp E) as (_ & _ & _ & _ & _ & Hm).
      eapply Nat.lt_le_trans; [by eapply free_room; eauto|done]. }
    eexists. split_and!; [done| |done|done].
    apply (pool_unlease obj limit w _ A f); try done; eauto; congruence.
  - destruct (p_fixed _ _ _ _ Hp E) as [Hv _].
    destruct (hash_delete_present (fiber_leases w) f) as (h & -> & Hh & Hm); [rewrite Hv; eauto|].
    eexists. split_and!; [done| |done|done].
    apply (pool_unlease obj limit w _ A f); try done; eauto; congruence.
Qed.

Lemma fiber_cancel_ok (w : world) A f :
  pool w A (Some f) → is_Some (A !! f) →
  ∃ w', fiber_cancel obj w f = (w', 0) ∧ pool w' (delete f A) None ∧ memory w' = memory w ∧
    same_generations w w'.
Proof.
  intros Hp Hf. pose proof Hf as [g Hg]. destruct (p_leased _ _ _ _ Hp _ _ Hg) as (Hr & _ & Hgen).
  unfold fiber_cancel. rewrite fiber_control_id by done.
  destruct (fiber_release_ok (setControl w f (clear_fiber (controlAt w f))) A f)
    as (w' & -> & Hp' & Hm & Hcs); [|done| |].
  - apply pool_set; try done.
  - rewrite (controlAt_set obj limit) by (done || lia || apply Hp). by destruct (decide _).
  - exists w'. split_and!; try done. eapply (same_generations_set obj limit); [done|apply Hp|done|done].
Qed.

(** ** Consumption *)

(** A token names fiber [t mod 2^16] and generation [t / 2^16]. *)
Definition tokenFiber (t : Z) : Z := t mod 2 ^ 16.
Definition tokenGeneration (t : Z) : Z := t / 2 ^ 16.

Definition malformed (t : Z) : bool := (tokenGeneration t =? 0) || (count <=? tokenFiber t).

(** Bumping the generation of a leased fiber. *)
Lemma pool_bump (w w' : world) A f g :
  pool w A None → A !! f = Some g →
  controls w' = controls (setControl w f (withGeneration (controlAt w f) (next_generation g))) →
  continuation_claims w' = continuation_claims w → issued_fibers w' = issued_fibers w →
  free_fibers w' = free_fibers w →
  (FEATURE_ARENA obj = false → hash_view (fiber_leases w') = <[f := next_generation g]> A ∧
     hash_max (fiber_leases w') = hash_max (fiber_leases w)) →
  pool w' (<[f := next_generation g]> A) None.
Proof.
  intros Hp Hf Hc Hcl Hiss Hfr Hfix. destruct (p_leased _ _ _ _ Hp _ _ Hf) as (Hr & Hg1 & Hgen).
  pose proof (next_generation_range g) as Hng. set (c := withGeneration _ _) in Hc.
  assert (Hat : ∀ j, 0 <= j → controlAt w' j = if decide (f = j) then c else controlAt w j).
  { intros j Hj. rewrite <-(controlAt_set obj limit w f j c) by (done || apply Hp).
    unfold controlAt. by rewrite Hc. }
  constructor.
  - rewrite Hc. simpl. rewrite length_insert. apply Hp.
  - intros i Hi. rewrite Hat by done. destruct (decide _); [simpl; lia|by apply Hp].
  - intros k gk [[<- <-]|[Hne Hk]]%lookup_insert_Some.
    + rewrite Hat by lia. destruct (decide _); [|done]. split_and!; [lia|lia|lia|done].
    + pose proof (p_leased _ _ _ _ Hp _ _ Hk) as (? & ? & ?). rewrite Hat by lia.
      by destruct (decide _).
  - intros k Hk _. assert (Hk' : is_Some (A !! k)).
    { destruct (decide (k = f)) as [->|]; [eauto|]. by rewrite lookup_insert_ne in Hk by done. }
    pose proof Hk' as [gk Hgk]. pose proof (p_leased _ _ _ _ Hp _ _ Hgk) as (? & _).
    pose proof (p_suspended _ _ _ _ Hp k Hk' ltac:(done)) as Hs.
    rewrite Hat by lia. destruct (decide _) as [->|]; done.
  - intros k Hk. assert (Hk' : is_Some (A !! k)).
    { destruct (decide (k = f)) as [->|]; [eauto|]. by rewrite lookup_insert_ne in Hk by done. }
    pose proof Hk' as [gk Hgk]. pose proof (p_leased _ _ _ _ Hp _ _ Hgk) as (? & _).
    pose proof (p_outcome _ _ _ _ Hp k Hk') as Hs.
    rewrite Hat by lia. destruct (decide _) as [->|]; done.
  - rewrite Hcl. apply Hp.
  - intros E. destruct (Hfix E) as [-> ->]. destruct (p_fixed _ _ _ _ Hp E). done.
  - intros E. rewrite Hiss, Hfr. destruct (p_arena _ _ _ _ Hp E) as (Hi & Hnd & Hfree & Hidle & Hm1 & Hm2).
    assert (Hd : ∀ k, is_Some (<[f := next_generation g]> A !! k) ↔ is_Some (A !! k)).
    { intros k. destruct (decide (k = f)) as [->|].
      - rewrite lookup_insert_eq, Hf. split; eauto.
      - by rewrite lookup_insert_ne. }
    split_and!; try done.
    + intros k. by rewrite Hd.
    + intros k Hk. destruct (Hfree k Hk). rewrite lookup_insert_ne by congruence. done.
    + intros k Hkr [Hk Hne]%lookup_insert_None. rewrite Hat by lia. destruct (decide _); [done|auto].
Qed.

(** Only the claims map differs. *)
Lemma pool_claims (w : world) A run h :
  pool w A run → hash_view h = ∅ → hash_max h = hash_max (continuation_claims w) → pool (setClaims w h) A run.
Proof. intros [] Hv Hm. constructor; try done. simpl. rewrite Hv, Hm. naive_solver. Qed.

(** The three outcomes of consuming a token. *)
Lemma consume_ok (w : world) A t out :
  0 <= t < 2 ^ 64 → pool w A None →
  let f := tokenFiber t in let g := tokenGeneration t in
  (malformed t = true ∧ consume_continuation obj w t out = (w, CLAIM_INVALID, out)) ∨
  (malformed t = false ∧ A !! f ≠ Some g ∧
     ∃ w', consume_continuation obj w t out = (w', CLAIM_STALE, out) ∧ pool w' A None ∧
       controls w' = controls w ∧ memory w' = memory w) ∨
  (malformed t = false ∧ A !! f = Some g ∧
     ∃ w', consume_continuation obj w t out = (w', CLAIM_CONSUMED, f) ∧
       pool w' (<[f := next_generation g]> A) None ∧ memory w' = memory w ∧
       controls w' = controls (setControl w f (withGeneration (controlAt w f) (next_generation g)))).
Proof.
  intros Ht Hp f g. unfold consume_continuation, malformed.
  rewrite decode_fiber, decode_generation. fold (tokenFiber t) (tokenGeneration t). fold f g.
  destruct ((g =? 0) || (count <=? f)) eqn:Em; [by left|right].
  bool_to_prop. destruct (p_claims _ _ _ _ Hp) as [Hcv Hcm].
  destruct (hash_update_absent (continuation_claims w) t 1) as (h & -> & Hh & Hhm).
  { by rewrite Hcv. } { rewrite Hcv, map_size_empty. done. }
  simpl. rewrite Hcv in Hh. destruct (hash_delete_present h t) as (h' & Hdel & Hh' & Hhm').
  { rewrite Hh, lookup_insert_eq. eauto. }
  assert (Hempty : hash_view h' = ∅).
  { rewrite Hh', Hh, delete_insert_eq. by rewrite delete_empty. }
  assert (Hf : 0 <= f < count).
  { split; [|lia]. by apply Z.mod_pos_bound. }
  assert (Hfc : ∀ c, controls (setControl (setClaims w h) f c) = controls (setControl w f c)) by done.
  assert (Hcl : pool (setClaims w h') A None) by (apply pool_claims; congruence).
  destruct (FEATURE_ARENA obj) eqn:E.
  - change (controlAt (setClaims w h) f) with (controlAt w f).
    destruct ((negb (resume_region_id (controlAt w f) =? 0) || (status (controlAt w f) =? CAPSULE_EXITED)) &&
              (generation (controlAt w f) =? g)) eqn:Ec.
    + right. apply andb_true_iff in Ec as [Ec Eg]. bool_to_prop.
      assert (HA : A !! f = Some g).
      { destruct (A !! f) as [g'|] eqn:EA.
        - destruct (p_leased _ _ _ _ Hp _ _ EA) as (_ & _ & Hgen). congruence.
        - destruct (p_arena _ _ _ _ Hp E) as (_ & _ & _ & Hidle & _).
          destruct (Hidle f Hf EA) as [Hi1 Hi2]. rewrite Hi1 in Ec. simpl in Ec. bool_to_prop. done. }
      simpl. rewrite Hdel. simpl. split_and!; [done|done|]. eexists. split_and!; [done| |done|done].
      apply (pool_bump (setClaims w h')); try done. congruence.
    + left. assert (HA : A !! f ≠ Some g).
      { intros HA. destruct (p_leased _ _ _ _ Hp _ _ HA) as (_ & _ & Hgen).
        pose proof (p_suspended _ _ _ _ Hp f ltac:(eauto) ltac:(done)) as Hs.
        rewrite Hgen, Z.eqb_refl, andb_true_r in Ec. apply orb_false_iff in Ec as [Ec1 Ec2].
        bool_to_prop. destruct Hs; congruence. }
      simpl. rewrite Hdel. simpl. split_and!; [done|done|]. eexists. by split_and!.
  - destruct (p_fixed _ _ _ _ Hp E) as [Hv Hm]. simpl. rewrite hash_lookup_view, Hv.
    destruct (A !! f) as [g'|] eqn:EA; [destruct (Z.eqb_spec g' g) as [->|Hne]|].
    + right. simpl. rewrite Hdel. simpl. split_and!; [done|done|]. eexists.
      split_and!; [done| |done|done].
      destruct (hash_store_view (fiber_leases w) f (next_generation g)) as [Hsv Hsm]; [rewrite Hv; eauto|].
      apply (pool_bump (setClaims w h')); try done. intros _. simpl. by rewrite Hsv, Hsm, Hv.
    + left. simpl. rewrite Hdel. simpl. split_and!; [done|congruence|]. eexists. by split_and!.
    + left. simpl. rewrite Hdel. simpl. split_and!; [done|congruence|]. eexists. by split_and!.
Qed.

(** ** Driving *)

Lemma driveLoop_keeps (step : control → M → control * M * Z) (P : control → Prop) n c m :
  (∀ c m, P c → P (step c m).1.1) → P c → P (driveLoop step n c m).1.1.
Proof.
  intros Hstep. revert c m. induction n as [|n IH]; intros c m Hc; [done|].
  cbn [driveLoop]. specialize (Hstep c m Hc). destruct (step c m) as [[c' m'] st].
  destruct (st =? 0); [by apply IH|done].
Qed.

Lemma driveLoop_app (step : control → M → control * M * Z) a b c m :
  driveLoop step (a + b) c m =
  let '(c', m', st) := driveLoop step a c m in
  if st =? 0 then driveLoop step b c' m' else (c', m', st).
Proof.
  revert c m. induction a as [|a IH]; intros c m; [done|].
  cbn [driveLoop Nat.add]. destruct (step c m) as [[c' m'] st].
  destruct (st =? 0) eqn:E; [apply IH|]. by rewrite E.
Qed.

(** Nested bounded loops are one loop of the product of their trips. *)
Lemma driveLoop_nested (step : control → M → control * M * Z) a b c m :
  driveLoop (driveLoop step a) b c m = driveLoop step (b * a) c m.
Proof.
  revert c m. induction b as [|b IH]; intros c m; [done|].
  cbn [driveLoop Nat.mul]. rewrite driveLoop_app. destruct (driveLoop step a c m) as [[c' m'] st].
  destruct (st =? 0); [apply IH|done].
Qed.

(** Longer bounds do not change a computation that stops. *)
Lemma driveLoop_more (step : control → M → control * M * Z) k n c m :
  (driveLoop step k c m).2 ≠ 0 → (k <= n)%nat → driveLoop step n c m = driveLoop step k c m.
Proof.
  intros Hst Hle. replace n with (k + (n - k))%nat by lia. rewrite driveLoop_app.
  destruct (driveLoop step k c m) as [[c' m'] st]. simpl in Hst.
  destruct (Z.eqb_spec st 0); [done|done].
Qed.

(** The number of steps one entry drives. *)
Definition drivenSteps : nat := Z.to_nat DRIVE_REPEATS * Z.to_nat DRIVE_LEVEL + 1.

(** The two levels and the closing step are one loop. *)
Lemma drive_flat (step : control → M → control * M * Z) c m :
  (let '(c, m, st) := driveLoop (driveLoop step (Z.to_nat DRIVE_LEVEL)) (Z.to_nat DRIVE_REPEATS) c m in
   if st =? 0 then step c m else (c, m, st)) =
  driveLoop step drivenSteps c m.
Proof.
  unfold drivenSteps. rewrite driveLoop_app, driveLoop_nested.
  destruct (driveLoop step _ c m) as [[c' m'] st]. destruct (st =? 0); [|done].
  cbn [driveLoop]. destruct (step c' m') as [[c'' m''] st']. by destruct (Z.eqb_spec st' 0) as [->|].
Qed.

(** The fiber can be driven: on the fixed tier its stack region is mapped. *)
Definition drivable (f : Z) (m : M) : bool := FEATURE_ARENA obj || stack_region f m.

Lemma trampoline_flat (w : world) f :
  0 <= f < count →
  trampoline obj f w =
  if drivable f (memory w) then
    let '(c, m, st) := driveLoop (trampoline_step f) drivenSteps (controlAt w f) (memory w) in
    (setMemory (setControl w f c) m, st)
  else (setControl w f (stop (controlAt w f) ERROR_MEMORY_FAULT), 1).
Proof.
  intros Hf. unfold trampoline, drivable, stackBase. rewrite fiber_control_id by done.
  rewrite <-drive_flat. change (trampoline_l1 f) with (driveLoop (trampoline_step f) (Z.to_nat DRIVE_LEVEL)).
  destruct (FEATURE_ARENA obj); [|destruct (stack_region f (memory w))]; cbn [orb];
    [destruct (driveLoop (driveLoop _ _) _ _ _) as [[c m] st]; done..|done].
Qed.

Lemma trampoline_ctx_flat (w : world) x f :
  0 <= f < count →
  trampoline_ctx obj x f w =
  if drivable f (memory w) then
    let '(c, m, st) := driveLoop (trampoline_ctx_step x f) drivenSteps (controlAt w f) (memory w) in
    (setMemory (setControl w f c) m, st)
  else (setControl w f (stop (controlAt w f) ERROR_MEMORY_FAULT), 1).
Proof.
  intros Hf. unfold trampoline_ctx, drivable, stackBase. rewrite fiber_control_id by done.
  rewrite <-drive_flat. change (trampoline_ctx_l1 x f) with (driveLoop (trampoline_ctx_step x f) (Z.to_nat DRIVE_LEVEL)).
  destruct (FEATURE_ARENA obj); [|destruct (stack_region f (memory w))]; cbn [orb];
    [destruct (driveLoop (driveLoop _ _) _ _ _) as [[c m] st]; done..|done].
Qed.

(** Whatever drives the running fiber keeps the pool. *)
Lemma drive_pool (w w' : world) A f step st :
  pool w A (Some f) → is_Some (A !! f) →
  (∀ c m, outcome c → outcome (step c m).1.1 ∧ generation (step c m).1.1 = generation c) →
  (if drivable f (memory w) then
     let '(c, m, st) := driveLoop step drivenSteps (controlAt w f) (memory w) in
     (setMemory (setControl w f c) m, st)
   else (setControl w f (stop (controlAt w f) ERROR_MEMORY_FAULT), 1)) = (w', st) →
  pool w' A (Some f) ∧ same_generations w w'.
Proof.
  intros Hp Hf Hstep. pose proof (p_outcome _ _ _ _ Hp f Hf) as Ho.
  assert (Hr : 0 <= f < count) by (destruct Hf as [g Hg]; apply (p_leased _ _ _ _ Hp _ _ Hg)).
  destruct (drivable f (memory w)).
  - pose proof (driveLoop_keeps step (λ c, outcome c ∧ generation c = generation (controlAt w f))
      drivenSteps (controlAt w f) (memory w)) as Hk.
    destruct (driveLoop step drivenSteps (controlAt w f) (memory w)) as [[c m] st'].
    intros [= <- <-]. ospecialize (Hk _ _).
    + intros c0 m0 [Ho0 Hg0]. destruct (Hstep c0 m0 Ho0) as [? ->]. done.
    + done.
    + destruct Hk as [Hk1 Hk2]. split; [by apply pool_memory, pool_set|].
      eapply (same_generations_set obj limit); [done|apply Hp|done|done].
  - intros [= <- <-]. split; [by apply pool_set|].
    eapply (same_generations_set obj limit); [done|apply Hp|done|done].
Qed.

Lemma trampoline_pool (w : world) A f :
  pool w A (Some f) → is_Some (A !! f) →
  pool (trampoline obj f w).1 A (Some f) ∧ same_generations w (trampoline obj f w).1.
Proof.
  intros Hp Hf. pose proof Hf as [g Hg]. destruct (p_leased _ _ _ _ Hp _ _ Hg) as (Hr & _).
  pose proof (trampoline_flat w f Hr) as Hflat. destruct (trampoline obj f w) as [w' st].
  apply (drive_pool w w' A f (trampoline_step f) st); [done|done|intros; by apply step_keeps|done].
Qed.

Lemma trampoline_ctx_pool (w : world) A x f :
  pool w A (Some f) → is_Some (A !! f) →
  pool (trampoline_ctx obj x f w).1 A (Some f) ∧ same_generations w (trampoline_ctx obj x f w).1.
Proof.
  intros Hp Hf. pose proof Hf as [g Hg]. destruct (p_leased _ _ _ _ Hp _ _ Hg) as (Hr & _).
  pose proof (trampoline_ctx_flat w x f Hr) as Hflat. destruct (trampoline_ctx obj x f w) as [w' st].
  apply (drive_pool w w' A f (trampoline_ctx_step x f) st); [done|done|intros; by apply ctx_step_keeps|done].
Qed.

End Pool.
