(* ===== verification/FiberProps.v ===== *)
(** * What the capsule boundary promises

    [boundary] is the abstract interface of the runtime: a map from leased
    fibers to the generation of their one live continuation, and a counter of
    generations per fiber.  Every request of the boundary refines it on both
    memory tiers; the corollaries of the abstract interface (a continuation
    is used at most once) and the bounds of the drivers follow. *)

From Stdlib Require Import ZArith Lia.
From stdpp Require Import base numbers list gmap sets fin_maps fin_map_dom.
From S2P Require Import Prelude Fiber FiberFacts FiberPool.

Import Fiber.
Local Open Scope Z_scope.

(** ** The abstract boundary *)

Section Spec.
Context (obj : object).
Notation count := (fiberCount obj).

(** How a computation ends: it returns, or it exits with its own code. *)
Definition ended (k st : Z) : Prop :=
  (st = CAPSULE_OK ∧ k = 0) ∨ (st = CAPSULE_EXITED ∧ runtimeCode k = false).

Definition unfinished (st : Z) : Prop := st = CAPSULE_PENDING ∨ st = CAPSULE_YIELD.

Definition refused (k : Z) : capsule_result := Result k CAPSULE_EXITED NO_CONTINUATION.

Definition bump (G : Z → Z) (f : Z) : Z → Z := λ j, if decide (j = f) then next_generation (G f) else G j.

Definition tokenOf (q : request) : option Z :=
  match q with
  | Begin _ _ => None
  | Continue _ t | ContinueCtx _ _ t | Reset t => Some t
  end.

Definition isReset (q : request) : bool := match q with Reset _ => true | _ => false end.

Definition validRequest (q : request) : Prop :=
  match q with
  | Begin cpu _ => 0 <= cpu
  | Continue _ t | ContinueCtx _ _ t | Reset t => 0 <= t < 2 ^ 64
  end.

(** [boundary A G q A' G' r]: in a state with leases [A] and generations [G]
    the request [q] may answer [r] and leave [A'] and [G']. *)
Inductive boundary (A : gmap Z Z) (G : Z → Z) : request → gmap Z Z → (Z → Z) → capsule_result → Prop :=
| BadPlan cpu ctx : plan_broken obj ≠ 0 →
    boundary A G (Begin cpu ctx) A G (refused ERROR_BAD_PLAN)
| Exhausted cpu ctx : plan_broken obj = 0 → (∀ f, 0 <= f < count → is_Some (A !! f)) →
    boundary A G (Begin cpu ctx) A G (refused ERROR_POOL_EXHAUSTED)
| CallEnded cpu ctx f k st : plan_broken obj = 0 → 0 <= f < count → A !! f = None → ended k st →
    boundary A G (Begin cpu ctx) A (bump G f) (Result k st NO_CONTINUATION)
| CallUnfinished cpu ctx f st : plan_broken obj = 0 → 0 <= f < count → A !! f = None → unfinished st →
    boundary A G (Begin cpu ctx) (<[f := next_generation (G f)]> A) (bump G f)
      (Result 0 st (continuation_value f (next_generation (G f))))
| Invalid q t : tokenOf q = Some t → malformed obj t = true →
    boundary A G q A G (refused ERROR_INVALID_CONTINUATION)
| Stale q t : tokenOf q = Some t → malformed obj t = false → A !! tokenFiber t ≠ Some (tokenGeneration t) →
    boundary A G q A G (refused ERROR_STALE_CONTINUATION)
| Ended q t k st : tokenOf q = Some t → malformed obj t = false →
    A !! tokenFiber t = Some (tokenGeneration t) →
    (ended k st ∨ isReset q = false ∧ st = CAPSULE_EXITED ∧ k = ERROR_RETURN_MISMATCH) →
    boundary A G q (delete (tokenFiber t) A) (bump G (tokenFiber t)) (Result k st NO_CONTINUATION)
| Unfinished q t st : tokenOf q = Some t → isReset q = false → malformed obj t = false →
    A !! tokenFiber t = Some (tokenGeneration t) → unfinished st →
    boundary A G q (<[tokenFiber t := next_generation (G (tokenFiber t))]> A) (bump G (tokenFiber t))
      (Result 0 st (continuation_value (tokenFiber t) (next_generation (G (tokenFiber t))))).
End Spec.

(** ** Refinement *)

Section Refine.
Context `{BpfMapsLaws} {M : Type} `{!Generated M} `{!GeneratedLaws M} (obj : object).
Hypothesis limit : 1 <= MAX_FIBERS obj <= MAX_FIBERS_LIMIT.

Notation world := (world M).
Notation count := (fiberCount obj).
Notation pool := (pool obj).

(** The simulation relation. *)
Definition implements (w : world) (A : gmap Z Z) (G : Z → Z) : Prop :=
  pool w A None ∧ ∀ j, 0 <= j → G j = generation (controlAt w j).

Lemma leased_range (w : world) A run f : pool w A run → is_Some (A !! f) → 0 <= f < count.
Proof. intros Hp [g Hg]. apply (p_leased _ _ _ _ Hp _ _ Hg). Qed.

Lemma finish_exited_ok (w : world) A f :
  pool w A (Some f) → is_Some (A !! f) →
  ∃ w', finish_exited obj w f = (w', Result (code (controlAt w f)) CAPSULE_EXITED NO_CONTINUATION) ∧
    pool w' (delete f A) None ∧ same_generations w w'.
Proof.
  intros Hp Hf. unfold finish_exited. rewrite (fiber_control_id obj limit) by (by eapply leased_range).
  destruct (fiber_cancel_ok obj limit w A f Hp Hf) as (w' & -> & Hp' & _ & Hg). eauto.
Qed.

Lemma make_continuation_ok (w : world) A run f g :
  pool w A run → A !! f = Some g → make_continuation obj w f = continuation_value f g.
Proof.
  intros Hp Hf. destruct (p_leased _ _ _ _ Hp _ _ Hf) as (Hr & _ & Hg). unfold make_continuation.
  destruct (Z.leb_spec count f); [lia|]. rewrite fiber_control_id by done. by rewrite Hg.
Qed.

(** The exit and suspension arms of the two entries read the same record. *)
Lemma exited_ended (w : world) A run f :
  pool w A run → is_Some (A !! f) → status (controlAt w f) = CAPSULE_EXITED →
  ended (code (controlAt w f)) CAPSULE_EXITED.
Proof. intros Hp Hf Hs. right. split; [done|]. by apply (p_outcome _ _ _ _ Hp). Qed.

Lemma suspended_pool (w : world) A f :
  pool w A (Some f) → is_Some (A !! f) →
  status (controlAt w f) = CAPSULE_YIELD ∨ resume_region_id (controlAt w f) ≠ 0 → pool w A None.
Proof.
  intros Hp Hf Hs. eapply pool_suspend; [done|]. left. destruct Hs as [Hs|Hs]; [|done].
  by apply (p_outcome _ _ _ _ Hp).
Qed.

(** What is owed for a driven fiber [f] of generation [g]: it stays leased and
    its continuation is returned, or it is released. *)
Definition settled (w : world) (A : gmap Z Z) (f g : Z) (mismatch : bool) (res : world * capsule_result) : Prop :=
  same_generations w res.1 ∧
  ((∃ st, unfinished st ∧ res.2 = Result 0 st (continuation_value f g) ∧ pool res.1 A None) ∨
   (∃ k st, (ended k st ∨ mismatch = true ∧ st = CAPSULE_EXITED ∧ k = ERROR_RETURN_MISMATCH) ∧
      res.2 = Result k st NO_CONTINUATION ∧ pool res.1 (delete f A) None)).

Lemma settled_exited (w : world) A f g mm :
  pool w A (Some f) → A !! f = Some g → status (controlAt w f) = CAPSULE_EXITED →
  settled w A f g mm (finish_exited obj w f).
Proof.
  intros Hp Hf Hs. destruct (finish_exited_ok w A f) as (w' & -> & Hp' & Hg); [done|eauto|].
  split; [done|]. right. do 2 eexists. split_and!; [left|done|done]. eapply exited_ended; eauto.
Qed.

Lemma settled_unfinished (w : world) A f g st mm :
  pool w A (Some f) → A !! f = Some g → unfinished st →
  status (controlAt w f) = CAPSULE_YIELD ∨ resume_region_id (controlAt w f) ≠ 0 →
  settled w A f g mm (w, Result 0 st (make_continuation obj w f)).
Proof.
  intros Hp Hf Hu Hs. split; [by apply same_generations_controls|]. left. exists st. simpl.
  split_and!; [done| |by eapply suspended_pool; eauto]. by erewrite make_continuation_ok.
Qed.

Lemma settled_released (w : world) A f g mm :
  pool w A (Some f) → A !! f = Some g → idle (controlAt w f) →
  ∃ w', fiber_release obj w f = (w', 0) ∧ settled w A f g mm (w', Result 0 CAPSULE_OK NO_CONTINUATION).
Proof.
  intros Hp Hf Hid. destruct (fiber_release_ok obj limit w A f) as (w' & -> & Hp' & _ & Hc); [done|eauto|done|].
  exists w'. split; [done|]. split; [by apply same_generations_controls|].
  right. exists 0, CAPSULE_OK. split_and!; [left; by left|done|done].
Qed.

Lemma settled_memory (w : world) A f g mm m res :
  settled (setMemory w m) A f g mm res → settled w A f g mm res.
Proof. done. Qed.

(** Clearing the witness of a released fiber's result size keeps the pool. *)
Lemma pool_return_size (w : world) A f n :
  pool w A None → A !! f = None → 0 <= f < count →
  pool (setControl w f (withReturnSize (controlAt w f) n)) A None ∧
  same_generations w (setControl w f (withReturnSize (controlAt w f) n)).
Proof.
  intros Hp Hf Hr. set (c := withReturnSize _ _).
  assert (Hat : ∀ j, 0 <= j → controlAt (setControl w f c) j = if decide (f = j) then c else controlAt w j).
  { intros j Hj. apply (controlAt_set obj limit); [done|done|apply Hp]. }
  split; [|eapply (same_generations_set obj limit); [done|apply Hp|done|done]].
  assert (Hne : ∀ k, is_Some (A !! k) → 0 <= k ∧ controlAt (setControl w f c) k = controlAt w k).
  { intros k [gk Hk]. pose proof (p_leased _ _ _ _ Hp _ _ Hk) as (? & _). split; [lia|].
    rewrite Hat by lia. destruct (decide _); congruence. }
  constructor.
  - simpl. rewrite length_insert. apply Hp.
  - intros i Hi. rewrite Hat by done. destruct (decide _) as [->|]; by apply (p_generation _ _ _ _ Hp).
  - intros k gk Hk. destruct (Hne k) as [_ ->]; [eauto|]. by apply Hp.
  - intros k Hk. destruct (Hne k) as [_ ->]; [done|]. by apply Hp.
  - intros k Hk. destruct (Hne k) as [_ ->]; [done|]. by apply Hp.
  - apply Hp.
  - apply Hp.
  - intros E. destruct (p_arena _ _ _ _ Hp E) as (Hi & Hnd & Hfree & Hidle & Hm1 & Hm2).
    split_and!; try done. intros k Hkr Hk. rewrite Hat by lia.
    destruct (decide _) as [->|]; by apply Hidle.
Qed.

Lemma finish_continue_ok (w : world) A f g r n :
  pool w A (Some f) → A !! f = Some g → r_code r = 0 → settled w A f g true (finish_continue obj w r f n).
Proof.
  intros Hp Hf Hr. assert (Hrange : 0 <= f < count) by (eapply leased_range; eauto).
  unfold finish_continue. rewrite fiber_control_id, Hr by done.
  destruct (Z.eqb_spec (status (controlAt w f)) CAPSULE_EXITED) as [Hs|Hs]; [by apply settled_exited|].
  destruct (Z.eqb_spec (status (controlAt w f)) CAPSULE_YIELD) as [Hy|Hy].
  { apply settled_unfinished; [done|done|by right|by left]. }
  destruct (Z.eqb_spec (resume_region_id (controlAt w f)) 0) as [Hz|Hz]; simpl.
  2: { apply settled_unfinished; [done|done|by left|by right]. }
  destruct (Z.eqb_spec (return_size (controlAt w f)) n) as [Hn|Hn]; simpl.
  - set (w0 := if negb (n =? 0) then _ else w).
    assert (Hp0 : pool w0 A (Some f)) by (subst w0; destruct (negb _); [by apply pool_memory|done]).
    assert (Hc0 : controls w0 = controls w) by (subst w0; by destruct (negb _)).
    destruct (settled_released w0 A f g true) as (w' & -> & Hset); [done|done| |].
    { unfold idle, controlAt. rewrite Hc0. done. }
    simpl. destruct Hset as [Hg Hset]. split; [|done].
    eapply same_generations_trans; [by apply same_generations_controls|done].
  - destruct (fiber_cancel_ok obj limit w A f) as (w' & -> & Hp' & _ & Hg); [done|eauto|]. simpl.
    destruct (pool_return_size w' (delete f A) f 0) as [Hp2 Hg2]; [done|by rewrite lookup_delete_eq|done|].
    split; [by eapply same_generations_trans|]. right. do 2 eexists. split_and!; [by right|done|done].
Qed.

(** A driven fresh lease settles in the same way. *)
Lemma call_ok (w : world) A f g ctx :
  pool w A (Some f) → A !! f = Some g →
  settled w A f g false
    (let '(w, st) := capsule_call obj w ctx f in
     if st =? CAPSULE_OK then
       let '(w, err) := fiber_release obj w f in
       (w, if negb (err =? 0) then Result ERROR_POOL_CORRUPT CAPSULE_EXITED NO_CONTINUATION
           else Result 0 st NO_CONTINUATION)
     else if st =? CAPSULE_EXITED then finish_exited obj w f
     else (w, Result 0 st (make_continuation obj w f))).
Proof.
  intros Hp Hf. assert (Hrange : 0 <= f < count) by (eapply leased_range; eauto).
  unfold capsule_call. pose proof (p_outcome _ _ _ _ Hp f ltac:(eauto)) as Ho.
  destruct (push_frame_keeps f (controlAt w f) (memory w) Ho) as [Ho' Hg'].
  destruct (push_frame f (controlAt w f) (memory w)) as [c m]. simpl in Ho', Hg'.
  assert (Hp1 : pool (setMemory (setControl w f c) m) A (Some f)).
  { apply pool_memory, pool_set; (done || eauto). }
  assert (Hg1 : same_generations w (setMemory (setControl w f c) m)).
  { eapply (same_generations_set obj limit); [done|apply Hp|done|done]. }
  set (w1 := setMemory _ _) in *. clearbody w1.
  set (w2 := match ctx with Some x => _ | None => _ end).
  assert (Hp2 : pool w2 A (Some f) ∧ same_generations w w2).
  { subst w2. destruct ctx as [x|].
    - destruct (trampoline_ctx_pool obj limit w1 A x f Hp1) as [? ?]; [eauto|].
      split; [done|]. by eapply same_generations_trans.
    - destruct (trampoline_pool obj limit w1 A f Hp1) as [? ?]; [eauto|].
      split; [done|]. by eapply same_generations_trans. }
  clearbody w2. destruct Hp2 as [Hp2 Hg2]. cbv beta iota zeta.
  assert (Hset : ∀ res, settled w2 A f g false res → settled w A f g false res).
  { intros res [? ?]. split; [by eapply same_generations_trans|done]. }
  apply Hset. unfold boundaryStatus.
  destruct (Z.eqb_spec (status (controlAt w2 f)) CAPSULE_EXITED) as [Hs|Hs]; [by apply settled_exited|].
  destruct (Z.eqb_spec (status (controlAt w2 f)) CAPSULE_YIELD) as [Hy|Hy].
  { apply settled_unfinished; [done|done|by right|by left]. }
  destruct (Z.eqb_spec (resume_region_id (controlAt w2 f)) 0) as [Hz|Hz]; simpl.
  - by destruct (settled_released w2 A f g false) as (w' & -> & Hr).
  - apply settled_unfinished; [done|done|by left|by right].
Qed.

Lemma same_implements (w w' : world) A A' G :
  implements w A G → pool w' A' None → same_generations w w' → implements w' A' G.
Proof. intros [_ HG] Hp Hs. split; [done|]. intros j Hj. rewrite Hs by done. by apply HG. Qed.

Lemma bump_generations (w w' : world) A G f c :
  implements w A G → 0 <= f < count → generation c = next_generation (generation (controlAt w f)) →
  controls w' = controls (setControl w f c) →
  ∀ j, 0 <= j → bump G f j = generation (controlAt w' j).
Proof.
  intros [Hp HG] Hf Hc Hcs j Hj. pose proof (controlAt_set obj limit w f j c Hf Hj (p_length _ _ _ _ Hp)) as Hat.
  unfold controlAt in Hat at 1. rewrite <-Hcs in Hat. unfold controlAt at 1. rewrite Hat. unfold bump.
  destruct (decide (j = f)) as [->|]; destruct (decide _); try congruence; [|by apply HG].
  rewrite Hc. f_equal. apply HG. lia.
Qed.

Lemma begin_refines (w : world) A G cpu ctx :
  0 <= cpu → implements w A G →
  ∃ A' G', boundary obj A G (Begin cpu ctx) A' G' (capsule_begin obj cpu w ctx).2 ∧
    implements (capsule_begin obj cpu w ctx).1 A' G'.
Proof.
  intros Hcpu Himp. pose proof Himp as [Hp HG]. unfold capsule_begin.
  destruct (Z.eqb_spec (plan_broken obj) 0) as [Hplan|Hplan]; simpl.
  2: { exists A, G. split; [by constructor|done]. }
  destruct (fiber_acquire_ok obj limit cpu w A Hcpu Hp) as [[-> Hfull]|(Hr & Hn & Hp1 & Hc & _)].
  { exists A, G. split; [by apply Exhausted|done]. }
  destruct (fiber_acquire obj cpu w) as [w1 f]. simpl in *.
  pose proof (count_no_fiber obj limit). destruct (Z.eqb_spec f NO_FIBER); [lia|].
  set (g := next_generation (generation (controlAt w f))) in *.
  assert (Hg : next_generation (G f) = g) by (subst g; rewrite HG; [done|lia]).
  pose proof (call_ok w1 (<[f := g]> A) f g ctx Hp1 ltac:(by rewrite lookup_insert_eq)) as [Hs Hcase].
  assert (Hb : ∀ j, 0 <= j → bump G f j = generation (controlAt w1 j)).
  { eapply bump_generations; [done|done| |exact Hc]. done. }
  set (res := let '(w, st) := capsule_call obj w1 ctx f in _) in *. clearbody res.
  destruct Hcase as [(st & Hu & Hres & Hp2)|(k & st & He & Hres & Hp2)]; rewrite Hres.
  - do 2 eexists. split; [rewrite <-Hg; by eapply CallUnfinished|].
    rewrite Hg. split; [done|]. intros j Hj. rewrite Hs by done. by apply Hb.
  - rewrite delete_insert_eq, delete_id in Hp2 by done.
    do 2 eexists. split; [eapply CallEnded; [done|exact Hr|done|by destruct He as [?|[? _]]]|].
    split; [done|]. intros j Hj. rewrite Hs by done. by apply Hb.
Qed.

(** Both continue entries, for whatever drives the fiber. *)
Lemma continue_refines (w : world) A G q n t (drive : Z → world → world) :
  0 <= t < 2 ^ 64 → implements w A G → tokenOf q = Some t → isReset q = false →
  (∀ (w : world) A f, pool w A (Some f) → is_Some (A !! f) →
     pool (drive f w) A (Some f) ∧ same_generations w (drive f w)) →
  let res := match prepare_continue obj w t with
             | (w, r, Some f) => finish_continue obj (drive f w) r f n
             | (w, r, None) => (w, r)
             end in
  ∃ A' G', boundary obj A G q A' G' res.2 ∧ implements res.1 A' G'.
Proof.
  intros Ht Himp Hq Hres Hdrive. pose proof Himp as [Hp HG]. unfold prepare_continue.
  destruct (consume_ok obj limit w A t NO_FIBER Ht Hp) as [[Hm ->]|[(Hm & HA & w1 & -> & Hp1 & Hc & _)|
    (Hm & HA & w1 & -> & Hp1 & _ & Hc)]]; cbn -[finish_continue finish_exited fiber_cancel].
  { exists A, G. split; [by eapply Invalid|done]. }
  { exists A, G. split; [by eapply Stale|]. eapply same_implements; [done|done|]. by apply same_generations_controls. }
  set (f := tokenFiber t) in *. set (g := tokenGeneration t) in *.
  assert (Hr : 0 <= f < count) by (apply (leased_range w A None); eauto).
  assert (Hgen : generation (controlAt w f) = g) by (apply (p_leased _ _ _ _ Hp _ _ HA)).
  assert (HGf : G f = g) by (rewrite HG; [done|lia]).
  set (A1 := <[f := next_generation g]> A) in *.
  assert (HA1 : A1 !! f = Some (next_generation g)) by (subst A1; by rewrite lookup_insert_eq).
  assert (Hdel : delete f A1 = delete f A) by (subst A1; by rewrite delete_insert_eq).
  assert (Hb : ∀ j, 0 <= j → bump G f j = generation (controlAt w1 j)).
  { eapply bump_generations; [done|done| |exact Hc]. by rewrite Hgen. }
  assert (Hset : ∀ w2 res, same_generations w1 w2 → settled w2 A1 f (next_generation g) true res →
    ∃ A' G', boundary obj A G q A' G' res.2 ∧ implements res.1 A' G').
  { intros w2 res Hs2 [Hs Hcase]. assert (Hb2 : ∀ j, 0 <= j → bump G f j = generation (controlAt res.1 j)).
    { intros j Hj. rewrite Hs, Hs2 by done. by apply Hb. }
    destruct Hcase as [(st & Hu & -> & Hp2)|(k & st & He & -> & Hp2)].
    - exists A1, (bump G f). split; [|done]. subst A1 g. rewrite <-HGf. by eapply Unfinished.
    - rewrite Hdel in Hp2. exists (delete f A), (bump G f). split; [|done]. eapply Ended; try done.
      destruct He as [?|(_ & ? & ?)]; [by left|by right]. }
  rewrite (fiber_control_id obj limit) by done.
  pose proof (pool_start obj w1 A1 f Hp1) as Hp1'.
  destruct (Z.eqb_spec (status (controlAt w1 f)) CAPSULE_EXITED) as [Hs|Hs].
  { pose proof (settled_exited w1 A1 f _ true Hp1' HA1 Hs) as Hx.
    destruct (finish_exited obj w1 f) as [w2 r2]. by eapply (Hset w1). }
  destruct (Z.eqb_spec (resume_region_id (controlAt w1 f)) 0) as [Hz|Hz].
  { destruct (p_suspended _ _ _ _ Hp1 f ltac:(eauto) ltac:(done)); done. }
  set (c := withOutcome (controlAt w1 f) CAPSULE_OK 0).
  assert (Hp2 : pool (setControl w1 f c) A1 (Some f)) by (apply pool_set; (done || eauto)).
  assert (Hs2 : same_generations w1 (setControl w1 f c)).
  { eapply (same_generations_set obj limit); [done|apply Hp1|done|done]. }
  destruct (Hdrive _ _ _ Hp2 ltac:(eauto)) as [Hp3 Hs3].
  eapply Hset; [by eapply same_generations_trans|]. by apply finish_continue_ok.
Qed.

Lemma reset_refines (w : world) A G t :
  0 <= t < 2 ^ 64 → implements w A G →
  ∃ A' G', boundary obj A G (Reset t) A' G' (capsule_reset obj w t).2 ∧
    implements (capsule_reset obj w t).1 A' G'.
Proof.
  intros Ht Himp. pose proof Himp as [Hp HG]. unfold capsule_reset.
  destruct (consume_ok obj limit w A t NO_FIBER Ht Hp) as [[Hm ->]|[(Hm & HA & w1 & -> & Hp1 & Hc & _)|
    (Hm & HA & w1 & -> & Hp1 & _ & Hc)]]; cbn -[finish_exited fiber_cancel].
  { exists A, G. split; [by eapply Invalid|done]. }
  { exists A, G. split; [by eapply Stale|]. eapply same_implements; [done|done|]. by apply same_generations_controls. }
  set (f := tokenFiber t) in *. set (g := tokenGeneration t) in *.
  assert (Hr : 0 <= f < count) by (apply (leased_range w A None); eauto).
  assert (Hgen : generation (controlAt w f) = g) by (apply (p_leased _ _ _ _ Hp _ _ HA)).
  assert (Hb : ∀ j, 0 <= j → bump G f j = generation (controlAt w1 j)).
  { eapply bump_generations; [done|done| |exact Hc]. by rewrite Hgen. }
  set (A1 := <[f := next_generation g]> A) in *.
  assert (HA1 : is_Some (A1 !! f)) by (subst A1; rewrite lookup_insert_eq; eauto).
  assert (Hdel : delete f A1 = delete f A) by (subst A1; by rewrite delete_insert_eq).
  pose proof (pool_start obj w1 A1 f Hp1) as Hp1'. rewrite (fiber_control_id obj limit) by done.
  exists (delete f A), (bump G f).
  destruct (Z.eqb_spec (status (controlAt w1 f)) CAPSULE_EXITED) as [Hs|Hs].
  - destruct (finish_exited_ok w1 A1 f Hp1' HA1) as (w2 & -> & Hp2 & Hs2). rewrite Hdel in Hp2. simpl. split.
    + eapply Ended; try done. left. by eapply exited_ended.
    + split; [done|]. intros j Hj. rewrite Hs2 by done. by apply Hb.
  - destruct (fiber_cancel_ok obj limit (setMemory w1 (fiber_local_reset f (memory w1))) A1 f)
      as (w2 & -> & Hp2 & _ & Hs2); [by apply pool_memory|done|]. rewrite Hdel in Hp2. simpl. split.
    + eapply Ended; try done. left. by left.
    + split; [done|]. intros j Hj. rewrite Hs2 by done. by apply Hb.
Qed.

Lemma serve_refines (w : world) A G q :
  validRequest q → implements w A G →
  ∃ A' G', boundary obj A G q A' G' (serve obj w q).2 ∧ implements (serve obj w q).1 A' G'.
Proof.
  intros Hq Himp. destruct q as [cpu ctx|n t|x n t|t]; cbn [serve].
  - by apply begin_refines.
  - apply (continue_refines w A G (Continue n t) n t (λ f w, (trampoline obj f w).1)); try done.
    intros; by apply trampoline_pool.
  - apply (continue_refines w A G (ContinueCtx x n t) n t (λ f w, (trampoline_ctx obj x f w).1)); try done.
    intros; by apply trampoline_ctx_pool.
  - by apply reset_refines.
Qed.

(** ** Runs *)

(** A sequence of requests, with the answers. *)
Fixpoint serveAll (w : world) (qs : list request) : world * list (request * capsule_result) :=
  match qs with
  | [] => (w, [])
  | q :: qs =>
      let '(w, r) := serve obj w q in
      let '(w, tr) := serveAll w qs in (w, (q, r) :: tr)
  end.

Inductive boundaries : gmap Z Z → (Z → Z) → list (request * capsule_result) → gmap Z Z → (Z → Z) → Prop :=
| BoundaryNil A G : boundaries A G [] A G
| BoundaryCons A G q r A1 G1 tr A2 G2 :
    boundary obj A G q A1 G1 r → boundaries A1 G1 tr A2 G2 → boundaries A G ((q, r) :: tr) A2 G2.

(** A loaded object nobody has called yet: zero-filled controls, empty maps
    of the configured capacity. *)
Definition fresh (w : world) : Prop :=
  controls w = replicate (Z.to_nat (MAX_FIBERS obj)) zeroControl ∧
  hash_view (issued_fibers w) = ∅ ∧ stack_view (free_fibers w) = [] ∧ hash_view (fiber_leases w) = ∅ ∧
  hash_view (continuation_claims w) = ∅ ∧
  (Z.to_nat count <= hash_max (issued_fibers w))%nat ∧ (Z.to_nat count <= stack_max (free_fibers w))%nat ∧
  (Z.to_nat count <= hash_max (fiber_leases w))%nat ∧ (0 < hash_max (continuation_claims w))%nat.

Lemma fresh_implements (w : world) : fresh w → implements w ∅ (λ _, 0).
Proof.
  intros (Hc & Hi & Hs & Hl & Hcl & Hm1 & Hm2 & Hm3 & Hm4).
  assert (Hat : ∀ j, controlAt w j = zeroControl).
  { intros j. unfold controlAt. rewrite Hc. destruct (replicate _ _ !! _) as [c|] eqn:E; [|done].
    by apply lookup_replicate in E as [-> _]. }
  split; [|intros j _; by rewrite Hat]. constructor.
  - by rewrite Hc, length_replicate.
  - intros i _. rewrite Hat. simpl. lia.
  - intros f g Hf. by rewrite lookup_empty in Hf.
  - intros f [g Hf]. by rewrite lookup_empty in Hf.
  - intros f [g Hf]. by rewrite lookup_empty in Hf.
  - done.
  - by intros _.
  - intros _. rewrite Hi, Hs. split_and!; try done.
    + intros f. rewrite lookup_empty. split; [by left|]. by intros [?|?%not_elem_of_nil].
    + constructor.
    + intros f Hf. by apply not_elem_of_nil in Hf.
    + intros f _ _. by rewrite Hat.
Qed.

Lemma serveAll_refines qs (w : world) A G :
  Forall validRequest qs → implements w A G →
  ∃ A' G', boundaries A G (serveAll w qs).2 A' G' ∧ implements (serveAll w qs).1 A' G'.
Proof.
  intros Hqs. revert w A G. induction Hqs as [|q qs Hq _ IH]; intros w A G Himp.
  { exists A, G. split; [constructor|done]. }
  destruct (serve_refines w A G q Hq Himp) as (A1 & G1 & Hb & Himp1). cbn [serveAll].
  destruct (serve obj w q) as [w1 r]. simpl in Hb, Himp1.
  destruct (IH w1 A1 G1 Himp1) as (A2 & G2 & Hbs & Himp2).
  destruct (serveAll w1 qs) as [w2 tr]. exists A2, G2. split; [by econstructor|done].
Qed.

(** ** Single use *)

Definition accepted (p : request * capsule_result) : option Z :=
  if decide (r_code p.2 = ERROR_INVALID_CONTINUATION ∨ r_code p.2 = ERROR_STALE_CONTINUATION)
  then None else tokenOf p.1.
Definition issued (p : request * capsule_result) : option Z :=
  if decide (r_continuation p.2 = NO_CONTINUATION) then None else Some (r_continuation p.2).

(** What a run of [n] requests has established. *)
Record used (n : nat) (acc iss : list Z) (A : gmap Z Z) (G : Z → Z) : Prop := {
  u_bound f : 0 <= G f <= Z.of_nat n;
  u_leased f g : A !! f = Some g → 0 <= f < count ∧ g = G f ∧ continuation_value f g ∈ iss;
  u_accepted t : t ∈ acc → tokenGeneration t < G (tokenFiber t);
  u_issued t : t ∈ iss → tokenGeneration t <= G (tokenFiber t);
  u_acc : NoDup acc;
  u_iss : NoDup iss;
}.

Lemma token_value f g :
  0 <= f < count → 0 <= g < 2 ^ 48 →
  tokenFiber (continuation_value f g) = f ∧ tokenGeneration (continuation_value f g) = g ∧
  continuation_value f g ≠ NO_CONTINUATION.
Proof.
  intros Hf Hg. pose proof (count_range obj limit). unfold MAX_FIBERS_LIMIT in limit.
  destruct (decode_value f g ltac:(lia) Hg) as [Hd1 Hd2]. rewrite decode_fiber in Hd1.
  rewrite decode_generation in Hd2. split_and!; [done|done|]. intros Hno. rewrite Hno in Hd1.
  change (NO_CONTINUATION mod 2 ^ 16) with 65535 in Hd1. lia.
Qed.

Lemma ended_accepted q k st :
  (ended k st ∨ st = CAPSULE_EXITED ∧ k = ERROR_RETURN_MISMATCH) → accepted (q, Result k st NO_CONTINUATION) = tokenOf q.
Proof.
  intros Hk. unfold accepted. rewrite decide_False; [done|]. simpl.
  intros [->| ->]; destruct Hk as [[[_ ?]|[_ ?]]|[_ ?]]; done.
Qed.

(** Bumping the generation of [f] ends its lease. *)
Lemma used_bump n acc iss A G f :
  used n acc iss A G → Z.of_nat n < 2 ^ 48 - 1 →
  used (S n) acc iss (delete f A) (bump G f) ∧ next_generation (G f) = G f + 1 ∧ bump G f f = G f + 1 ∧
  ∀ t, t ∈ iss → tokenFiber t = f → tokenGeneration t < bump G f f.
Proof.
  intros Hu Hn. pose proof (u_bound _ _ _ _ _ Hu) as Hb. pose proof (Hb f).
  assert (Hnext : next_generation (G f) = G f + 1) by (apply next_generation_succ; lia).
  assert (Hge : ∀ j, G j <= bump G f j <= G j + 1).
  { intros j. unfold bump. rewrite Hnext. destruct (decide _) as [->|]; lia. }
  assert (Hf : bump G f f = G f + 1) by (unfold bump; by rewrite decide_True).
  split_and!; [|done|done|].
  - constructor; try apply Hu.
    + intros j. specialize (Hb j). specialize (Hge j). lia.
    + intros j g [Hne Hj]%lookup_delete_Some. destruct (u_leased _ _ _ _ _ Hu _ _ Hj) as (Hr & Hg & Hin).
      split; [done|]. split; [|done]. unfold bump. by rewrite decide_False.
    + intros t Ht. pose proof (u_accepted _ _ _ _ _ Hu t Ht). specialize (Hge (tokenFiber t)). lia.
    + intros t Ht. pose proof (u_issued _ _ _ _ _ Hu t Ht). specialize (Hge (tokenFiber t)). lia.
  - intros t Ht <-. pose proof (u_issued _ _ _ _ _ Hu t Ht). lia.
Qed.

(** Accepting a live token: it was issued, and never accepted before. *)
Lemma used_accept n acc iss A G t :
  used n acc iss A G → Z.of_nat n < 2 ^ 48 - 1 → A !! tokenFiber t = Some (tokenGeneration t) →
  t ∈ iss ∧ t ∉ acc ∧ used (S n) (acc ++ [t]) iss (delete (tokenFiber t) A) (bump G (tokenFiber t)).
Proof.
  intros Hu Hn HA. destruct (u_leased _ _ _ _ _ Hu _ _ HA) as (Hr & Hg & Hin).
  pose proof (u_bound _ _ _ _ _ Hu (tokenFiber t)) as Hb.
  assert (Hv : continuation_value (tokenFiber t) (tokenGeneration t) = t).
  { rewrite continuation_value_spec; [|by apply Z.mod_pos_bound|lia].
    unfold tokenFiber, tokenGeneration. pose proof (Z.div_mod t (2 ^ 16)). lia. }
  rewrite Hv in Hin. assert (Hnot : t ∉ acc).
  { intros Ht. pose proof (u_accepted _ _ _ _ _ Hu t Ht). lia. }
  destruct (used_bump _ _ _ _ _ (tokenFiber t) Hu Hn) as (Hu' & _ & Hf & _). split_and!; [done|done|].
  constructor; try apply Hu'.
  - intros t' [Ht'| ->%list_elem_of_singleton]%elem_of_app; [by apply Hu'|]. rewrite Hf. lia.
  - apply NoDup_app. split_and!; [apply Hu| |apply NoDup_singleton].
    intros t' Ht' ->%list_elem_of_singleton. done.
Qed.

(** Leasing [f] at its new generation issues a token not issued before. *)
Lemma used_issue n acc iss A G f :
  used n acc iss A G → 0 <= f < count → 1 <= G f < 2 ^ 48 →
  (∀ t, t ∈ iss → tokenFiber t = f → tokenGeneration t < G f) →
  continuation_value f (G f) ∉ iss ∧
  used n acc (iss ++ [continuation_value f (G f)]) (<[f := G f]> A) G.
Proof.
  intros Hu Hr Hg Hlt. destruct (token_value f (G f) Hr ltac:(lia)) as (Hd1 & Hd2 & _).
  assert (Hnot : continuation_value f (G f) ∉ iss).
  { intros Hin. specialize (Hlt _ Hin Hd1). lia. }
  split; [done|]. constructor; try apply Hu.
  - intros j g [[<- <-]|[Hne Hj]]%lookup_insert_Some.
    + split_and!; [lia|lia|done|]. apply elem_of_app. right. by apply list_elem_of_singleton.
    + destruct (u_leased _ _ _ _ _ Hu _ _ Hj) as (? & ? & ?). split_and!; try lia.
      apply elem_of_app. by left.
  - intros t [Ht| ->%list_elem_of_singleton]%elem_of_app; [by apply Hu|]. rewrite Hd1, Hd2. lia.
  - apply NoDup_app. split_and!; [apply Hu| |apply NoDup_singleton].
    intros t' Ht' ->%list_elem_of_singleton. done.
Qed.

Lemma issued_token f g q k st :
  0 <= f < count → 0 <= g < 2 ^ 48 →
  issued (q, Result k st (continuation_value f g)) = Some (continuation_value f g).
Proof. intros Hf Hg. unfold issued. simpl. rewrite decide_False; [done|]. by apply token_value. Qed.

Lemma used_step n acc iss A G q r A' G' :
  used n acc iss A G → Z.of_nat n < 2 ^ 48 - 1 → boundary obj A G q A' G' r →
  (∀ t, accepted (q, r) = Some t → t ∈ iss) ∧
  used (S n) (acc ++ option_list (accepted (q, r))) (iss ++ option_list (issued (q, r))) A' G'.
Proof.
  intros Hu Hn Hb. pose proof (u_bound _ _ _ _ _ Hu) as Hbound.
  assert (Hsame : used (S n) acc iss A G).
  { constructor; try apply Hu. intros f. specialize (Hbound f). lia. }
  assert (Hno : ∀ k st, issued (q, Result k st NO_CONTINUATION) = None) by (intros; done).
  inversion Hb as [| | |cpu ctx f st Hpl Hr HA Hst| | |q' t k st Hq Hm HA Hk|q' t st Hq Hres Hm HA Hst]; subst;
    rewrite ?Hno; cbn [option_list]; rewrite ?(app_nil_r iss).
  - split; [done|]. change (used (S n) (acc ++ []) (iss ++ []) A' G'). by rewrite !app_nil_r.
  - split; [done|]. change (used (S n) (acc ++ []) (iss ++ []) A' G'). by rewrite !app_nil_r.
  - split; [unfold accepted; by destruct (decide _)|].
    replace (accepted _) with (@None Z) by (unfold accepted; by destruct (decide _)).
    simpl. rewrite !app_nil_r. destruct (used_bump _ _ _ _ _ f Hu Hn) as [Hu' _].
    by rewrite delete_id in Hu' by done.
  - destruct (used_bump _ _ _ _ _ f Hu Hn) as (Hu' & Hnext & Hf & Hlt).
    replace (accepted _) with (@None Z) by (unfold accepted; by destruct (decide _)).
    split; [done|]. simpl. rewrite app_nil_r. specialize (Hbound f).
    rewrite issued_token by (done || lia). rewrite Hnext, <-Hf. simpl.
    pose proof (used_issue _ _ _ _ _ f Hu' Hr ltac:(lia) Hlt) as [_ Hu2].
    by rewrite insert_delete_eq in Hu2.
  - split; [done|]. change (used (S n) (acc ++ []) (iss ++ []) A' G'). by rewrite !app_nil_r.
  - split; [done|]. change (used (S n) (acc ++ []) (iss ++ []) A' G'). by rewrite !app_nil_r.
  - rewrite ended_accepted by naive_solver. rewrite Hq.
    destruct (used_accept _ _ _ _ _ t Hu Hn HA) as (Hin & _ & Hu'). split; [naive_solver|].
    simpl. by rewrite app_nil_r.
  - assert (Hacc : accepted (q, Result 0 st (continuation_value (tokenFiber t) (next_generation (G (tokenFiber t))))) = Some t).
    { unfold accepted. rewrite decide_False; [done|]. by intros [?|?]. }
    rewrite Hacc. destruct (used_accept _ _ _ _ _ t Hu Hn HA) as (Hin & _ & Hu'). split; [naive_solver|].
    destruct (used_bump _ _ _ _ _ (tokenFiber t) Hu Hn) as (_ & Hnext & Hf & Hlt).
    specialize (Hbound (tokenFiber t)).
    assert (Hr : 0 <= tokenFiber t < count) by apply (u_leased _ _ _ _ _ Hu _ _ HA).
    rewrite issued_token by (done || lia). rewrite Hnext, <-Hf. simpl.
    pose proof (used_issue _ _ _ _ _ (tokenFiber t) Hu' Hr ltac:(lia) Hlt) as [_ Hu2].
    by rewrite insert_delete_eq in Hu2.
Qed.

Lemma used_start : used 0 [] [] ∅ (λ _, 0).
Proof.
  constructor; [intros f; simpl; lia|by intros f g Hf; rewrite lookup_empty in Hf|
    by intros t ?%not_elem_of_nil|by intros t ?%not_elem_of_nil|constructor|constructor].
Qed.

Lemma used_run tr n acc iss A G A' G' :
  used n acc iss A G → Z.of_nat (n + length tr) < 2 ^ 48 → boundaries A G tr A' G' →
  (∀ pre p post t, tr = pre ++ p :: post → accepted p = Some t → t ∈ iss ++ omap issued pre) ∧
  used (n + length tr) (acc ++ omap accepted tr) (iss ++ omap issued tr) A' G'.
Proof.
  intros Hu Hn Hb. revert n acc iss Hu Hn. induction Hb as [A G|A G q r A1 G1 tr A2 G2 Hb _ IH];
    intros n acc iss Hu Hn.
  { split; [by intros [] ? ? ? [=]|]. simpl. by rewrite !app_nil_r, Nat.add_0_r. }
  simpl in Hn. destruct (used_step _ _ _ _ _ _ _ _ _ Hu ltac:(lia) Hb) as [Hin Hu1].
  destruct (IH _ _ _ Hu1 ltac:(lia)) as [Hpre Hu2].
  assert (Ho : ∀ {X} (o : X → option Z) x l, omap o (x :: l) = option_list (o x) ++ omap o l).
  { intros X o x l. simpl. by destruct (o x). }
  split.
  - intros pre p post t Htr Hacc. destruct pre as [|p' pre]; injection Htr as H1 H2.
    + subst p. simpl. rewrite app_nil_r. by apply Hin.
    + subst p'. rewrite Ho, app_assoc. by eapply Hpre.
  - rewrite !Ho, !app_assoc. simpl. by rewrite Nat.add_succ_r.
Qed.

(** C18: the runtime refines the abstract boundary on both memory tiers.  Every
    sequence of requests served from a freshly loaded object is a run of
    [boundary]: a call is refused only when the plan is broken or every fiber
    is leased, a continuation is accepted exactly when it names the current
    generation of a leased fiber, a finished computation releases its fiber,
    an unfinished one returns the fiber's new continuation, and neither
    [NOT_PENDING] nor [POOL_CORRUPT] is ever reported. *)
Theorem boundary_refinement (w : world) (qs : list request) :
  fresh w → Forall validRequest qs →
  ∃ A G, boundaries ∅ (λ _, 0) (serveAll w qs).2 A G ∧ implements (serveAll w qs).1 A G.
Proof. intros Hw Hqs. apply serveAll_refines; [done|by apply fresh_implements]. Qed.

(** C19: a continuation is single-use.  In any run of fewer than [2^48]
    requests no token is accepted twice, no token is returned twice, and a
    token is accepted only if an earlier request returned it. *)
Theorem continuation_single_use (w : world) (qs : list request) :
  fresh w → Forall validRequest qs → Z.of_nat (length qs) < 2 ^ 48 →
  NoDup (omap accepted (serveAll w qs).2) ∧ NoDup (omap issued (serveAll w qs).2) ∧
  ∀ pre p post t, (serveAll w qs).2 = pre ++ p :: post → accepted p = Some t → t ∈ omap issued pre.
Proof.
  intros Hw Hqs Hn. destruct (serveAll_refines qs w ∅ (λ _, 0)) as (A & G & Hb & _);
    [done|by apply fresh_implements|].
  assert (Hlen : length (serveAll w qs).2 = length qs).
  { clear -Hw. clear Hw. revert w. induction qs as [|q qs IH]; intros w; [done|].
    cbn [serveAll]. destruct (serve obj w q) as [w1 r]. specialize (IH w1).
    destruct (serveAll w1 qs) as [w2 tr]. simpl in *. by rewrite IH. }
  destruct (used_run _ 0 [] [] _ _ _ _ used_start ltac:(cbn [Nat.add]; rewrite Hlen; lia) Hb) as [Hpre Hu].
  split_and!; [apply Hu|apply Hu|apply Hpre].
Qed.

(** Acquisition is exact.  Whatever CPU asks and on both tiers, the scan of
    chunks and pages fails only when every fiber of the pool is leased, and
    then changes nothing; otherwise it leases a fiber nobody holds, with a
    fresh generation and a cleared record. *)
Theorem fiber_acquire_exact (cpu : Z) (w : world) (A : gmap Z Z) (w' : world) (f : Z) :
  0 <= cpu → pool w A None → fiber_acquire obj cpu w = (w', f) →
  (f = NO_FIBER ↔ ∀ k, 0 <= k < count → is_Some (A !! k)) ∧
  (f = NO_FIBER → w' = w) ∧
  (f ≠ NO_FIBER → 0 <= f < count ∧ A !! f = None ∧
     pool w' (<[f := next_generation (generation (controlAt w f))]> A) (Some f) ∧
     controls w' = <[Z.to_nat f := Control CAPSULE_OK 0 (next_generation (generation (controlAt w f))) 0 0 0 0]>
                     (controls w)).
Proof.
  intros Hcpu Hp Hacq. pose proof (count_no_fiber obj limit).
  destruct (fiber_acquire_ok obj limit cpu w A Hcpu Hp) as [[Heq Hfull]|(Hr & Hn & Hp1 & Hc & _)];
    rewrite Hacq in *; simpl in *.
  - injection Heq as -> ->. done.
  - split_and!; [|lia|by intros _]. split; [lia|]. intros Hfull. destruct (Hfull f Hr). congruence.
Qed.

(** C21: one entry drives at most 131073 trampoline steps - 4 Mi dispatches of
    32 trips and the closing step - and the nested drivers are that one flat
    loop: a fiber whose step stops within the bound stops with exactly that
    outcome, and if the drive reports more work, no shorter run stopped. *)
Theorem trampoline_drives (w : world) (f : Z) (k : nat) :
  0 <= f < count → drivable obj f (memory w) = true → Z.of_nat k <= 131073 →
  ((driveLoop (trampoline_step f) k (controlAt w f) (memory w)).2 ≠ 0 →
     trampoline obj f w =
     let '(c, m, st) := driveLoop (trampoline_step f) k (controlAt w f) (memory w) in
     (setMemory (setControl w f c) m, st)) ∧
  ((trampoline obj f w).2 = 0 → (driveLoop (trampoline_step f) k (controlAt w f) (memory w)).2 = 0).
Proof.
  intros Hf Hd Hk. assert (Hle : (k <= drivenSteps)%nat).
  { assert (Hn : Z.of_nat drivenSteps = 131073) by (by vm_compute). lia. }
  rewrite (trampoline_flat obj limit) by done. rewrite Hd. split.
  - intros Hst. by rewrite (driveLoop_more _ k drivenSteps).
  - destruct (Z.eq_dec (driveLoop (trampoline_step f) k (controlAt w f) (memory w)).2 0) as [|Hst]; [done|].
    rewrite (driveLoop_more _ k drivenSteps) by done.
    destruct (driveLoop (trampoline_step f) k _ _) as [[c m] st]. done.
Qed.

End Refine.
(** A continuation encodes its fiber and generation without loss, fits 64
    bits, and is never [NO_CONTINUATION]; the generation after a consumed one
    is a different valid generation. *)
Theorem continuation_roundtrip (f g : Z) :
  0 <= f < MAX_FIBERS_LIMIT → 1 <= g < 2 ^ 48 →
  Z.land (continuation_value f g) CONTINUATION_FIBER_MASK = f ∧
  Z.shiftr (continuation_value f g) CONTINUATION_FIBER_BITS = g ∧
  0 <= continuation_value f g < NO_CONTINUATION ∧
  1 <= next_generation g < 2 ^ 48 ∧ next_generation g ≠ g.
Proof.
  intros Hf Hg. unfold MAX_FIBERS_LIMIT in Hf. destruct (decode_value f g ltac:(lia) ltac:(lia)) as [H1 H2].
  split_and!; [done|done|..];
    try (rewrite continuation_value_spec by lia; unfold NO_CONTINUATION; lia);
    try (pose proof (next_generation_range g); lia).
  destruct (decide (g = 2 ^ 48 - 1)) as [->|]; [by rewrite next_generation_last|].
  rewrite next_generation_succ; lia.
Qed.

(** Every field of a configuration has the width of its type. *)
Definition configWidths (c : config) : Prop :=
  Forall (λ x, 0 <= x < 2 ^ 32)
    [heap_base c; heap_bytes c; stack_base c; memory_end c; fiber_count c; stack_bytes_per_fiber c;
     max_fibers c; arena_image_pages c; memory_backend c; direct_memory_regions c; abi_magic c; abi_version c] ∧
  0 <= memory_view_base c < 2 ^ 64.

(** A plan the object accepts is a sound layout: the heap does not wrap
    and ends before the stacks, the stack slice of every configured fiber
    lies inside memory, the window is a non-zero multiple of 4 GiB, and on
    the fixed tier the last region is backed and the host is ready. *)
Theorem plan_accepted_layout (obj : object) :
  configWidths (cfg obj) → MAX_FIBERS obj <= MAX_FIBERS_LIMIT → plan_broken obj = 0 →
  let c := cfg obj in
  1 <= fiber_count c <= MAX_FIBERS obj ∧ fiberCount obj = fiber_count c ∧
  heap_base c + heap_bytes c <= stack_base c ∧
  (∀ f, 0 <= f < fiber_count c →
     stack_base c + (f + 1) * stack_bytes_per_fiber c <= memory_end c) ∧
  stack_base c + fiber_count c * stack_bytes_per_fiber c = memory_end c ∧
  0 < memory_view_base c ∧ memory_view_base c mod 2 ^ 32 = 0 ∧
  (FEATURE_ARENA obj = false → host_ready obj ≠ 0 ∧
     let last := (memory_end c - 1) / 2 ^ 22 in
     last < direct_memory_regions c ∨ heap_array obj (last - direct_memory_regions c) = true).
Proof.
  intros [Hw Hview] Hlim Hplan c. unfold plan_broken in Hplan. fold c in Hplan, Hw, Hview.
  repeat (apply Forall_cons in Hw as [? Hw]). clear Hw. unfold MAX_FIBERS_LIMIT in Hlim.
  match type of Hplan with (if ?b then _ else _) = _ => destruct b eqn:Eb; [done|] end.
  repeat (apply orb_false_iff in Eb as [Eb ?]). bool_to_prop.
  assert (Hheap : heap_base c + heap_bytes c <= stack_base c).
  { unfold u32, wrap in *. destruct (decide (heap_base c + heap_bytes c < 2 ^ 32)).
    - rewrite Z.mod_small in * by lia. lia.
    - replace ((heap_base c + heap_bytes c) mod 2 ^ 32) with (heap_base c + heap_bytes c - 2 ^ 32) in *; [lia|].
      apply (Z.mod_unique _ _ 1); lia. }
  assert (Hend : memory_end c = stack_base c + fiber_count c * stack_bytes_per_fiber c).
  { unfold u64 in *. rewrite !wrap_small in * by (rewrite ?wrap_small by nia; nia). lia. }
  split_and!; try lia.
  - unfold fiberCount. fold c. destruct ((1 <=? fiber_count c) && _) eqn:E; [done|].
    apply andb_false_iff in E as [E|E]; bool_to_prop; lia.
  - intros f Hf. nia.
  - change (2 ^ 32 - 1) with (Z.ones 32) in *. rewrite Z.land_ones in * by lia. done.
  - intros E. rewrite E in Hplan. unfold MEMORY_REGION_SHIFT, u32 in Hplan.
    rewrite wrap_small, Z.shiftr_div_pow2 in Hplan by nia.
    destruct (Z.leb_spec (direct_memory_regions c) ((memory_end c - 1) / 2 ^ 22)); simpl in Hplan.
    + destruct (heap_array obj _) eqn:Eh; [|done]. simpl in Hplan.
      destruct (Z.eqb_spec (host_ready obj) 0); [done|]. split; [done|by right].
    + destruct (Z.eqb_spec (host_ready obj) 0); [done|]. split; [done|by left].
Qed.

(** ** A concrete kernel and program *)

Module FiberSample.

(** Maps as the kernel documents them: a finite map and a list with a
    capacity each; [-7] is [-E2BIG] and [-2] is [-ENOENT]. *)
#[global] Instance maps : BpfMaps := {|
  hash := gmap Z Z * nat;
  hash_update_noexist h k v :=
    match h.1 !! k with
    | Some _ => (h, - EEXIST)
    | None => if Nat.ltb (size h.1) h.2 then ((<[k := v]> h.1, h.2), 0) else (h, -7)
    end;
  hash_lookup h k := h.1 !! k;
  hash_store h k v := (<[k := v]> h.1, h.2);
  hash_delete h k := match h.1 !! k with Some _ => ((delete k h.1, h.2), 0) | None => (h, -2) end;
  stack := list Z * nat;
  stack_push s v := if Nat.ltb (length s.1) s.2 then ((v :: s.1, s.2), 0) else (s, -7);
  stack_pop s := match s.1 with v :: l => ((l, s.2), Some v) | [] => (s, None) end;
|}.

#[global, program] Instance maps_laws : BpfMapsLaws := {|
  hash_view h := h.1; hash_max h := h.2; stack_view s := s.1; stack_max s := s.2;
|}.
Next Obligation. done. Qed.
Next Obligation. done. Qed.
Next Obligation. intros [m n] k v [x Hx]. simpl in *. by rewrite Hx. Qed.
Next Obligation.
  intros [m n] k v Hk Hn. simpl in *. rewrite Hk.
  destruct (Nat.ltb_spec (size m) n); [by eexists|lia].
Qed.
Next Obligation. intros [m n] k [x Hx]. simpl in *. rewrite Hx. by eexists. Qed.
Next Obligation.
  intros [l n] v Hn. simpl in *. destruct (Nat.ltb_spec (length l) n); [by eexists|lia].
Qed.
Next Obligation. intros [l n] v l' Hl. simpl in *. subst. by eexists. Qed.
Next Obligation. intros [l n] Hl. simpl in *. by subst. Qed.

(** A program of two regions: region 5 yields to region 7, which returns eight bytes. *)
Definition programStep (c : control) (m : Z) : control * Z * Z :=
  if resume_region_id c =? 5 then (Control CAPSULE_YIELD 0 (generation c) 64 32 7 8, m + 1, 1)
  else (Control CAPSULE_OK 0 (generation c) 0 0 0 8, m + 1, 1).

#[global] Instance program : Generated Z := {|
  push_frame _ c m := (Control CAPSULE_OK 0 (generation c) 64 32 5 8, m);
  trampoline_step _ c m := programStep c m;
  trampoline_ctx_step _ _ c m := programStep c m;
  stack_region _ _ := true;
  copy_return _ _ _ m := m;
  fiber_local_reset _ m := m;
|}.

Lemma programStep_keeps c m :
  outcome c → outcome (programStep c m).1.1 ∧ generation (programStep c m).1.1 = generation c.
Proof. intros _. unfold programStep. by destruct (resume_region_id c =? 5). Qed.

#[global] Instance program_laws : GeneratedLaws Z.
Proof. constructor; intros; [done|by apply programStep_keeps..]. Qed.

(** Two fibers of 4 KiB of stack each above a 64 KiB heap. *)
Definition configuration (arena : bool) : config :=
  Config 4096 65536 69632 77824 2 4096 4 0 (if arena then 1 else 0) 1 ABI_MAGIC ABI_VERSION (2 ^ 40).
Definition object (arena : bool) : object := Object 4 arena (configuration arena) (λ _, false) 1.

Definition loaded : world Z := World (replicate 4 zeroControl) (∅, 4%nat) ([], 4%nat) (∅, 4%nat) (∅, 4%nat) 0.

(** Call twice, exhaust the pool, continue, replay the used token, reset the other. *)
Definition script : list request :=
  [Begin 1 None; Begin 1 None; Begin 1 None; Continue 8 (2 ^ 16 + 1); Continue 8 (2 ^ 16 + 1); Reset (2 ^ 16);
   Begin 3 (Some 9)].

Definition answers : list capsule_result :=
  [Result 0 CAPSULE_YIELD (2 ^ 16 + 1); Result 0 CAPSULE_YIELD (2 ^ 16); refused ERROR_POOL_EXHAUSTED;
   Result 0 CAPSULE_OK NO_CONTINUATION; refused ERROR_STALE_CONTINUATION; Result 0 CAPSULE_OK NO_CONTINUATION;
   Result 0 CAPSULE_YIELD (3 * 2 ^ 16 + 1)].

Lemma loaded_fresh arena : fresh (object arena) loaded.
Proof. unfold fresh. destruct arena; vm_compute; split_and!; (done || lia). Qed.

Lemma script_valid : Forall validRequest script.
Proof. repeat constructor; simpl; lia. Qed.

Lemma limit_ok : 1 <= MAX_FIBERS (object false) <= MAX_FIBERS_LIMIT.
Proof. vm_compute. split; discriminate. Qed.

Lemma script_answers : (serveAll (object false) loaded script).2 = zip script answers.
Proof. vm_compute. reflexivity. Qed.

End FiberSample.

(** The fixed tier answers the script as [answers] says. *)
Lemma boundary_refinement_witness :
  ∃ A G, boundaries (FiberSample.object false) ∅ (λ _, 0) (zip FiberSample.script FiberSample.answers) A G ∧
    implements (FiberSample.object false) (serveAll (FiberSample.object false) FiberSample.loaded FiberSample.script).1 A G.
Proof.
  rewrite <-FiberSample.script_answers.
  exact (boundary_refinement (FiberSample.object false) FiberSample.limit_ok FiberSample.loaded
    FiberSample.script (FiberSample.loaded_fresh false) FiberSample.script_valid).
Defined.

Lemma continuation_single_use_witness :
  NoDup (omap accepted (zip FiberSample.script FiberSample.answers)) ∧
  omap accepted (zip FiberSample.script FiberSample.answers) = [2 ^ 16 + 1; 2 ^ 16].
Proof.
  split; [|reflexivity]. rewrite <-FiberSample.script_answers.
  exact (proj1 (continuation_single_use (FiberSample.object false) FiberSample.limit_ok FiberSample.loaded
    FiberSample.script (FiberSample.loaded_fresh false) FiberSample.script_valid eq_refl)).
Defined.

Lemma fiber_acquire_exact_witness :
  (fiber_acquire (FiberSample.object false) 1 FiberSample.loaded).2 = 1 ∧
  controlAt (fiber_acquire (FiberSample.object false) 1 FiberSample.loaded).1 1 = Control 0 0 1 0 0 0 0 ∧
  ((∅ : gmap Z Z) !! 1 = None).
Proof.
  split; [by vm_compute|]. split; [by vm_compute|].
  destruct (fiber_acquire_exact (FiberSample.object false) FiberSample.limit_ok 1 FiberSample.loaded ∅
    (fiber_acquire (FiberSample.object false) 1 FiberSample.loaded).1 1) as (_ & _ & Hf).
  - lia.
  - apply (fresh_implements (FiberSample.object false) _ (FiberSample.loaded_fresh false)).
  - by vm_compute.
  - by destruct Hf as (_ & Hn & _).
Defined.

Lemma trampoline_drives_witness :
  (trampoline (FiberSample.object false) 1 FiberSample.loaded).2 = 1.
Proof.
  destruct (trampoline_drives (FiberSample.object false) FiberSample.limit_ok FiberSample.loaded 1 1) as [Hs _].
  - vm_compute. split; [discriminate|reflexivity].
  - reflexivity.
  - lia.
  - rewrite Hs; [by vm_compute|]. vm_compute. discriminate.
Defined.

Lemma continuation_roundtrip_witness :
  Z.land (continuation_value 3 9) CONTINUATION_FIBER_MASK = 3 ∧
  Z.shiftr (continuation_value 3 9) CONTINUATION_FIBER_BITS = 9.
Proof.
  destruct (continuation_roundtrip 3 9) as (H1 & H2 & _); [vm_compute; split; [discriminate|done]|lia|].
  by split.
Defined.

Lemma plan_accepted_layout_witness :
  plan_broken (FiberSample.object false) = 0 ∧ fiberCount (FiberSample.object false) = 2.
Proof.
  split; [reflexivity|].
  destruct (plan_accepted_layout (FiberSample.object false)) as (_ & Hc & _).
  - split; [repeat constructor; vm_compute; (discriminate || reflexivity)|]. vm_compute. split; [discriminate|done].
  - vm_compute. discriminate.
  - reflexivity.
  - exact Hc.
Defined.

