(* ===== verification/FiberRace.v ===== *)
(** * Concurrent consumption of a continuation

    [__bpf_capsule_consume_continuation] as the steps it takes on shared
    state, and every interleaving of any number of consumers.  A step is one
    access to the claims map or to a fiber's generation cell (the control
    record on the arena tier, the lease on the fixed tier); the local
    computation between two accesses belongs to the step before it. *)

From Stdlib Require Import ZArith Lia.
From stdpp Require Import base numbers list gmap sets fin_maps.
From S2P Require Import Prelude Fiber FiberFacts FiberPool.

Import Fiber.
Local Open Scope Z_scope.

(** Where a consumer of a token stands. *)
Inductive pc :=
| Start                       (* before the claim *)
| Claimed                     (* the claim is inserted *)
| Matched                     (* the generation was read and is the token's *)
| Bumped                      (* the next generation is stored *)
| Missed                      (* the generation is another one *)
| Done (result : Z).

#[global] Instance pc_eq_dec : EqDecision pc.
Proof. solve_decision. Defined.

Record shared := Shared {
  cells : Z → Z;                       (* generation of each leased fiber *)
  claims : gset Z;
  threads : list (Z * pc);             (* token, position *)
}.

Section Race.
Context (obj : object).

Definition goto (s : shared) (i : nat) (t : Z) (p : pc) : list (Z * pc) := <[i := (t, p)]> (threads s).

(** One step of consumer [i]; [max_claims] is the capacity of the claims map. *)
Definition consumeStep (max_claims : nat) (i : nat) (s : shared) : shared :=
  match threads s !! i with
  | None => s
  | Some (t, p) =>
      let f := Z.land t CONTINUATION_FIBER_MASK in
      let g := Z.shiftr t CONTINUATION_FIBER_BITS in
      match p with
      | Start =>
          if (g =? 0) || (fiberCount obj <=? f) then Shared (cells s) (claims s) (goto s i t (Done CLAIM_INVALID))
          else if bool_decide (t ∈ claims s) then Shared (cells s) (claims s) (goto s i t (Done CLAIM_STALE))
          else if Nat.leb max_claims (size (claims s))
               then Shared (cells s) (claims s) (goto s i t (Done CLAIM_MAP_CORRUPT))
          else Shared (cells s) ({[t]} ∪ claims s) (goto s i t Claimed)
      | Claimed => Shared (cells s) (claims s) (goto s i t (if cells s f =? g then Matched else Missed))
      | Matched =>
          Shared (λ k, if k =? f then next_generation g else cells s k) (claims s) (goto s i t Bumped)
      | Bumped => Shared (cells s) (claims s ∖ {[t]}) (goto s i t (Done CLAIM_CONSUMED))
      | Missed => Shared (cells s) (claims s ∖ {[t]}) (goto s i t (Done CLAIM_STALE))
      | Done _ => s
      end
  end.

(** A schedule names the consumer that moves next. *)
Definition interleave (max_claims : nat) (schedule : list nat) (s : shared) : shared :=
  foldl (λ s i, consumeStep max_claims i s) s schedule.

(** ** The invariant *)

Definition holds (p : pc) : bool :=
  match p with Claimed | Matched | Bumped | Missed => true | _ => false end.

(** The consumer owns, or owned, the generation of its token. *)
Definition won (p : pc) : bool :=
  match p with Bumped => true | Done r => r =? CLAIM_CONSUMED | _ => false end.

Record exclusive (n : nat) (g0 : Z → Z) (s : shared) : Prop := {
  e_bound f : 1 <= g0 f <= cells s f ∧ cells s f <= g0 f + Z.of_nat n;
  e_holds i t p : threads s !! i = Some (t, p) → holds p = true → t ∈ claims s;
  e_distinct i j t p q : threads s !! i = Some (t, p) → threads s !! j = Some (t, q) →
    holds p = true → holds q = true → i = j;
  e_matched i t : threads s !! i = Some (t, Matched) → cells s (tokenFiber t) = tokenGeneration t;
  e_won i t p : threads s !! i = Some (t, p) → won p = true → tokenGeneration t < cells s (tokenFiber t);
  e_once i j t p q : threads s !! i = Some (t, p) → threads s !! j = Some (t, q) →
    won p = true → won q = true → i = j;
}.

(** The consumers as they start. *)
Definition arrivals (tokens : list Z) (g0 : Z → Z) (held : gset Z) : shared :=
  Shared g0 held (map (λ t, (t, Start)) tokens).

Lemma exclusive_start tokens g0 : (∀ f, 1 <= g0 f) → exclusive 0 g0 (arrivals tokens g0 ∅).
Proof.
  intros Hg. assert (Hs : ∀ i t p, threads (arrivals tokens g0 ∅) !! i = Some (t, p) → p = Start).
  { intros i t p. unfold arrivals. simpl. rewrite list_lookup_fmap.
    intros (x & _ & [= _ ->])%fmap_Some. done. }
  constructor; simpl.
  - intros f. specialize (Hg f). lia.
  - intros i t p Hi%Hs ?. by subst.
  - intros i j t p q Hi%Hs ? ?. by subst.
  - intros i t Hi%Hs. done.
  - intros i t p Hi%Hs ?. by subst.
  - intros i j t p q Hi%Hs ? ?. by subst.
Qed.

(** A token's two halves determine it. *)
Lemma token_halves t t' :
  tokenFiber t = tokenFiber t' → tokenGeneration t = tokenGeneration t' → t = t'.
Proof.
  unfold tokenFiber, tokenGeneration. intros. pose proof (Z.div_mod t (2 ^ 16)).
  pose proof (Z.div_mod t' (2 ^ 16)). lia.
Qed.

(** After consumer [i] moved, each thread is [i] or as before. *)
Lemma goto_lookup s i t p j x :
  (i < length (threads s))%nat → goto s i t p !! j = Some x →
  (j = i ∧ x = (t, p)) ∨ (j ≠ i ∧ threads s !! j = Some x).
Proof.
  intros Hi Hj. unfold goto in Hj. destruct (decide (j = i)) as [->|].
  - rewrite list_lookup_insert_eq in Hj by done. left. by injection Hj as <-.
  - rewrite list_lookup_insert_ne in Hj by done. by right.
Qed.

Lemma exclusive_wait n g0 s : exclusive n g0 s → exclusive (S n) g0 s.
Proof. intros []. constructor; try done. intros f. specialize (e_bound0 f). lia. Qed.

(** A move that touches neither the cells nor the claims and ends outside the
    claim keeps the invariant. *)
Lemma exclusive_leave n g0 s i t p r :
  exclusive n g0 s → threads s !! i = Some (t, p) → won p = false → holds p = false →
  r ≠ CLAIM_CONSUMED → exclusive (S n) g0 (Shared (cells s) (claims s) (goto s i t (Done r))).
Proof.
  intros Hx Hi Hw Hh Hr%Z.eqb_neq. pose proof (lookup_lt_Some _ _ _ Hi) as Hlt. constructor; simpl.
  - intros f. pose proof (e_bound _ _ _ Hx f). lia.
  - intros j u q [(-> & [= -> ->])|(_ & Hj)]%goto_lookup; [done|by eapply e_holds|done].
  - intros j k u q q' [(-> & [= -> ->])|(Hne & Hj)]%goto_lookup; [done| |done].
    intros [(-> & [= -> ->])|(_ & Hk)]%goto_lookup; [done|by eapply e_distinct|done].
  - intros j u [(-> & [=])|(_ & Hj)]%goto_lookup; [by eapply e_matched|done].
  - intros j u q [(-> & [= -> ->])|(_ & Hj)]%goto_lookup; [simpl; congruence|by eapply e_won|done].
  - intros j k u q q' [(-> & [= -> ->])|(Hne & Hj)]%goto_lookup; [simpl; congruence| |done].
    intros [(-> & [= -> ->])|(_ & Hk)]%goto_lookup; [simpl; congruence|by eapply e_once|done].
Qed.

Lemma exclusive_claim n g0 s i t :
  exclusive n g0 s → threads s !! i = Some (t, Start) → t ∉ claims s →
  exclusive (S n) g0 (Shared (cells s) ({[t]} ∪ claims s) (goto s i t Claimed)).
Proof.
  intros Hx Hi Hn. pose proof (lookup_lt_Some _ _ _ Hi) as Hlt. constructor; simpl.
  - intros f. pose proof (e_bound _ _ _ Hx f). lia.
  - intros j u q [(-> & [= -> ->])|(_ & Hj)]%goto_lookup Hq; [set_solver| |done].
    apply elem_of_union_r. by eapply e_holds.
  - intros j k u q q' [(-> & [= -> ->])|(Hne & Hj)]%goto_lookup; [| |done].
    + intros [(-> & _)|(_ & Hk)]%goto_lookup _ Hq; [done| |done].
      destruct Hn. by eapply e_holds.
    + intros [(-> & [= -> ->])|(_ & Hk)]%goto_lookup Hq; [|by eapply e_distinct|done].
      destruct Hn. by eapply e_holds.
  - intros j u [(-> & [=])|(_ & Hj)]%goto_lookup; [by eapply e_matched|done].
  - intros j u q [(-> & [= -> ->])|(_ & Hj)]%goto_lookup; [done|by eapply e_won|done].
  - intros j k u q q' [(-> & [= -> ->])|(Hne & Hj)]%goto_lookup; [done| |done].
    intros [(-> & [= -> ->])|(_ & Hk)]%goto_lookup; [done|by eapply e_once|done].
Qed.

Lemma exclusive_read n g0 s i t :
  exclusive n g0 s → threads s !! i = Some (t, Claimed) →
  exclusive (S n) g0 (Shared (cells s) (claims s)
    (goto s i t (if cells s (tokenFiber t) =? tokenGeneration t then Matched else Missed))).
Proof.
  intros Hx Hi. pose proof (lookup_lt_Some _ _ _ Hi) as Hlt.
  set (p := if _ =? _ then Matched else Missed).
  assert (Hp : holds p = true ∧ won p = false) by (subst p; by destruct (_ =? _)). constructor; simpl.
  - intros f. pose proof (e_bound _ _ _ Hx f). lia.
  - intros j u q [(-> & [= -> ->])|(_ & Hj)]%goto_lookup; [|by eapply e_holds|done].
    intros _. by eapply (e_holds _ _ _ Hx i t Claimed).
  - intros j k u q q' [(-> & [= -> ->])|(Hne & Hj)]%goto_lookup; [| |done].
    + intros [(-> & _)|(Hnk & Hk)]%goto_lookup _ Hq; [done| |done]. by eapply e_distinct.
    + intros [(-> & [= -> ->])|(_ & Hk)]%goto_lookup Hq; [|by eapply e_distinct|done].
      intros _. by eapply e_distinct.
  - intros j u [(-> & [= -> Hpm])|(_ & Hj)]%goto_lookup; [|by eapply e_matched|done].
    subst p. by destruct (Z.eqb_spec (cells s (tokenFiber t)) (tokenGeneration t)).
  - intros j u q [(-> & [= -> ->])|(_ & Hj)]%goto_lookup; [by rewrite (proj2 Hp)|by eapply e_won|done].
  - intros j k u q q' [(-> & [= -> ->])|(Hne & Hj)]%goto_lookup; [by rewrite (proj2 Hp)| |done].
    intros [(-> & [= -> ->])|(_ & Hk)]%goto_lookup; [by rewrite (proj2 Hp)|by eapply e_once|done].
Qed.

(** The store is exclusive: no other consumer has matched this fiber. *)
Lemma exclusive_bump n g0 s i t :
  exclusive n g0 s → threads s !! i = Some (t, Matched) → 
  g0 (tokenFiber t) + Z.of_nat n < 2 ^ 48 - 1 →
  exclusive (S n) g0 (Shared (λ k, if k =? tokenFiber t then next_generation (tokenGeneration t) else cells s k)
    (claims s) (goto s i t Bumped)).
Proof.
  intros Hx Hi Hn. pose proof (lookup_lt_Some _ _ _ Hi) as Hlt.
  pose proof (e_matched _ _ _ Hx i t Hi) as Hm. pose proof (e_bound _ _ _ Hx (tokenFiber t)) as Hb.
  rewrite next_generation_succ by lia.
  assert (Hother : ∀ j u, threads s !! j = Some (u, Matched) → j ≠ i → tokenFiber u ≠ tokenFiber t).
  { intros j u Hj Hne Hf. pose proof (e_matched _ _ _ Hx j u Hj) as Hm'. apply Hne.
    assert (u = t) as -> by (apply token_halves; congruence). by eapply e_distinct. }
  assert (Hfirst : ∀ j p, threads s !! j = Some (t, p) → won p = false).
  { intros j p Hj. destruct (won p) eqn:E; [|done]. pose proof (e_won _ _ _ Hx j t p Hj E). lia. }
  constructor; simpl.
  - intros f. pose proof (e_bound _ _ _ Hx f). destruct (Z.eqb_spec f (tokenFiber t)) as [->|]; lia.
  - intros j u q [(-> & [= -> ->])|(_ & Hj)]%goto_lookup; [|by eapply e_holds|done].
    intros _. by eapply (e_holds _ _ _ Hx i t Matched).
  - intros j k u q q' [(-> & [= -> ->])|(Hne & Hj)]%goto_lookup; [| |done].
    + intros [(-> & _)|(Hnk & Hk)]%goto_lookup _ Hq; [done| |done]. by eapply e_distinct.
    + intros [(-> & [= -> ->])|(_ & Hk)]%goto_lookup Hq; [|by eapply e_distinct|done].
      intros _. by eapply e_distinct.
  - intros j u [(-> & [=])|(Hne & Hj)]%goto_lookup; [|done].
    destruct (Z.eqb_spec (tokenFiber u) (tokenFiber t)) as [Hf|]; [|by eapply e_matched].
    by destruct (Hother j u Hj Hne).
  - intros j u q [(-> & [= -> ->])|(_ & Hj)]%goto_lookup; [intros _; rewrite Z.eqb_refl; lia| |done].
    intros Hq. pose proof (e_won _ _ _ Hx j u q Hj Hq) as Hlt'.
    destruct (Z.eqb_spec (tokenFiber u) (tokenFiber t)) as [Hf|]; [rewrite Hf in Hlt'; lia|done].
  - intros j k u q q' [(-> & [= -> ->])|(Hne & Hj)]%goto_lookup; [| |done].
    + intros [(-> & _)|(Hnk & Hk)]%goto_lookup _ Hq; [done| |done].
      by rewrite (Hfirst _ _ Hk) in Hq.
    + intros [(-> & [= -> ->])|(_ & Hk)]%goto_lookup Hq; [|by eapply e_once|done].
      by rewrite (Hfirst _ _ Hj) in Hq.
Qed.

(** Dropping the claim. *)
Lemma exclusive_drop n g0 s i t p r :
  exclusive n g0 s → threads s !! i = Some (t, p) → holds p = true → won p = (r =? CLAIM_CONSUMED) →
  exclusive (S n) g0 (Shared (cells s) (claims s ∖ {[t]}) (goto s i t (Done r))).
Proof.
  intros Hx Hi Hh Hw. pose proof (lookup_lt_Some _ _ _ Hi) as Hlt. constructor; simpl.
  - intros f. pose proof (e_bound _ _ _ Hx f). lia.
  - intros j u q [(-> & [= -> ->])|(Hne & Hj)]%goto_lookup Hq; [done| |done].
    apply elem_of_difference. split; [by eapply e_holds|]. intros ->%elem_of_singleton.
    apply Hne. by eapply e_distinct.
  - intros j k u q q' [(-> & [= -> ->])|(Hne & Hj)]%goto_lookup; [done| |done].
    intros [(-> & [= -> ->])|(_ & Hk)]%goto_lookup; [done|by eapply e_distinct|done].
  - intros j u [(-> & [=])|(_ & Hj)]%goto_lookup; [by eapply e_matched|done].
  - intros j u q [(-> & [= -> ->])|(_ & Hj)]%goto_lookup; [|by eapply e_won|done].
    simpl. rewrite <-Hw. by eapply e_won.
  - intros j k u q q' [(-> & [= -> ->])|(Hne & Hj)]%goto_lookup; [| |done].
    + intros [(-> & _)|(Hnk & Hk)]%goto_lookup; [done| |done].
      simpl. rewrite <-Hw. intros. by eapply e_once.
    + intros [(-> & [= -> ->])|(_ & Hk)]%goto_lookup; [|by eapply e_once|done].
      simpl. rewrite <-Hw. intros. by eapply e_once.
Qed.

Lemma consumeStep_exclusive max n g0 s i :
  exclusive n g0 s → (∀ f, g0 f + Z.of_nat n < 2 ^ 48 - 1) → exclusive (S n) g0 (consumeStep max i s).
Proof.
  intros Hx Hn. unfold consumeStep. destruct (threads s !! i) as [[t p]|] eqn:Hi; [|by apply exclusive_wait].
  rewrite decode_fiber, decode_generation. fold (tokenFiber t) (tokenGeneration t). destruct p.
  - destruct (_ || _); [by eapply exclusive_leave|].
    destruct (bool_decide_reflect (t ∈ claims s)); [by eapply exclusive_leave|].
    destruct (Nat.leb _ _); [by eapply exclusive_leave|by apply exclusive_claim].
  - by apply exclusive_read.
  - by apply exclusive_bump.
  - by eapply exclusive_drop.
  - by eapply exclusive_drop.
  - by apply exclusive_wait.
Qed.

Lemma interleave_exclusive max schedule n g0 s :
  exclusive n g0 s → (∀ f, g0 f + Z.of_nat (n + length schedule) < 2 ^ 48) →
  exclusive (n + length schedule) g0 (interleave max schedule s).
Proof.
  revert n s. induction schedule as [|i schedule IH]; intros n s Hx Hn; simpl in *.
  { by rewrite Nat.add_0_r. }
  rewrite Nat.add_succ_r. apply (IH (S n)).
  - apply consumeStep_exclusive; [done|]. intros f. specialize (Hn f). lia.
  - intros f. specialize (Hn f). simpl. lia.
Qed.

(** C24: a continuation has a single consumer under every interleaving: when
    any number of CPUs continue or reset concurrently, with any tokens and in
    any schedule, at most one of the consumers of a token is told it consumed
    it - and it did so before any other consumer could match the fiber's
    generation - unless a generation wraps during the run. *)
Theorem single_consumer (max_claims : nat) (schedule : list nat) (tokens : list Z) (g0 : Z → Z)
    (i j : nat) (t : Z) :
  (∀ f, 1 <= g0 f ∧ g0 f + Z.of_nat (length schedule) < 2 ^ 48) →
  let s := interleave max_claims schedule (arrivals tokens g0 ∅) in
  threads s !! i = Some (t, Done CLAIM_CONSUMED) → threads s !! j = Some (t, Done CLAIM_CONSUMED) →
  i = j ∧ tokenGeneration t < cells s (tokenFiber t).
Proof.
  intros Hg s Hi Hj. assert (Hx : exclusive (0 + length schedule) g0 s).
  { apply interleave_exclusive; [apply exclusive_start|]; intros f; specialize (Hg f); simpl; lia. }
  split; [by eapply e_once|]. by eapply e_won.
Qed.

End Race.

(** Two consumers of token [(1, 5)] and one of the stale [(1, 4)], with a pool
    of two fibers; the second of the two loses the claim. *)
Module RaceSample.
Definition object : object :=
  Object 4 true (Config 4096 65536 69632 77824 2 4096 4 0 1 0 ABI_MAGIC ABI_VERSION (2 ^ 40)) (λ _, false) 1.
Definition tokens : list Z := [5 * 2 ^ 16 + 1; 5 * 2 ^ 16 + 1; 4 * 2 ^ 16 + 1].
Definition schedule : list nat := [2; 0; 1; 0; 2; 0; 2; 0]%nat.
Definition final : shared := interleave object 4 schedule (arrivals tokens (λ _, 5) ∅).
End RaceSample.

Lemma single_consumer_witness :
  map snd (threads RaceSample.final) = [Done CLAIM_CONSUMED; Done CLAIM_STALE; Done CLAIM_STALE] ∧
  (0%nat = 0%nat ∧ tokenGeneration (5 * 2 ^ 16 + 1) < cells RaceSample.final (tokenFiber (5 * 2 ^ 16 + 1))).
Proof.
  split; [vm_compute; reflexivity|].
  apply (single_consumer RaceSample.object 4 RaceSample.schedule RaceSample.tokens (λ _, 5) 0 0).
  - intros f. simpl. lia.
  - vm_compute. reflexivity.
  - vm_compute. reflexivity.
Defined.

