(* ===== verification/Host.v ===== *)
(** * The host library ([src/src/runtime/host/bpf_capsule_host.c])

    Planning the object's memory, reserving its address window, configuring,
    initialising and releasing a Capsule, and the host's allocation protocol.
    libbpf and the system calls are parameters: the properties of an opened
    object are a record, and [Calls] says which calls fail. *)

From Stdlib Require Import ZArith Lia.
From stdpp Require Import base numbers list gmap sets fin_maps strings.
From S2P Require Import Prelude Fiber ExpandMem.

Module Host.
Import Fiber.
Local Open Scope Z_scope.

(** ** Constants *)

Definition MEMORY_REGION_SIZE : Z := Z.shiftl 1 MEMORY_REGION_SHIFT.
Definition MAX_DIRECT_MEMORY_REGIONS : Z := 63.
Definition ARENA_PAGE_SHIFT : Z := 12.
Definition ARENA_PAGE_SIZE : Z := Z.shiftl 1 ARENA_PAGE_SHIFT.
Definition MAX_ARENA_PAGES : Z := Z.shiftl 1 (32 - ARENA_PAGE_SHIFT).
Definition ARENA_SLICE_SLACK_PAGES (stack_bytes : Z) : Z :=
  if ARENA_PAGE_SIZE <? stack_bytes then stack_bytes / ARENA_PAGE_SIZE - 1 else 0.

Definition FUNCTION_TOKEN_DISPLACEMENT : Z := Z.shiftl 1 32.
Definition MANAGED_FUNCTION_TOKEN_SPAN : Z := 16777216.      (* 0x01000000 *)
Definition NATIVE_FUNCTION_TOKEN_SPAN : Z := 1048576.        (* 0x00100000 *)
Definition FUNCTION_TOKEN_SPAN : Z := MANAGED_FUNCTION_TOKEN_SPAN + NATIVE_FUNCTION_TOKEN_SPAN.
Definition MEMORY_WINDOW_SIZE : Z := FUNCTION_TOKEN_DISPLACEMENT + FUNCTION_TOKEN_SPAN.

Definition MEMORY_FIXED : Z := 0.
Definition MEMORY_ARENA : Z := 1.

Definition ENOENT : Z := 2.
Definition E2BIG : Z := 7.
Definition EAGAIN : Z := 11.
Definition ENOMEM : Z := 12.
Definition EFAULT : Z := 14.
Definition EBUSY : Z := 16.
Definition ENOLINK : Z := 67.
Definition EPROTO : Z := 71.
Definition EOVERFLOW : Z := 75.
Definition EALREADY : Z := 114.
Definition ECANCELED : Z := 125.

(** ** Planning *)

(** [struct bpf_capsule_config] *)
Record requested := Requested { req_fiber_count : Z; req_heap_bytes : Z }.

Definition layout_header_valid (c : config) : bool :=
  negb (stack_bytes_per_fiber c =? 0) &&
  (Z.land (stack_bytes_per_fiber c) (u32 (stack_bytes_per_fiber c - 1)) =? 0) &&
  (stack_bytes_per_fiber c <=? MEMORY_REGION_SIZE) &&
  negb (max_fibers c =? 0) && (max_fibers c <=? MAX_FIBERS_LIMIT) &&
  (ARENA_PAGE_SIZE <=? heap_base c) && (heap_base c <=? 2 ^ 32 - 1) &&
  (memory_backend c <=? MEMORY_ARENA) &&
  (if memory_backend c =? MEMORY_ARENA then direct_memory_regions c =? 0
   else (0 <? direct_memory_regions c) && (direct_memory_regions c <=? MAX_DIRECT_MEMORY_REGIONS)) &&
  (abi_magic c =? ABI_MAGIC) && (abi_version c =? ABI_VERSION).

Definition address_limit : Z := Z.shiftl 1 32.

Definition stackAlignment (c : config) : Z :=
  if memory_backend c =? MEMORY_ARENA
  then (if ARENA_PAGE_SIZE <? stack_bytes_per_fiber c then stack_bytes_per_fiber c else ARENA_PAGE_SIZE)
  else MEMORY_REGION_SIZE.

Definition stackFloor (c : config) : Z :=
  if memory_backend c =? MEMORY_ARENA then 0 else direct_memory_regions c * MEMORY_REGION_SIZE.

(** Entries of the backend map for memory that ends at [memory_end]. *)
Definition backendEntries (c : config) (memory_end : Z) : result Z Z :=
  if memory_backend c =? MEMORY_ARENA then
    let sparse_pages := Z.shiftr (memory_end + ARENA_PAGE_SIZE - 1) ARENA_PAGE_SHIFT in
    let pages := arena_image_pages c + sparse_pages + ARENA_SLICE_SLACK_PAGES (stack_bytes_per_fiber c) in
    if (pages =? 0) || (MAX_ARENA_PAGES <? pages) then Err EOVERFLOW else Ok (u32 pages)
  else
    let regions := u32 (Z.shiftr (memory_end + MEMORY_REGION_SIZE - 1) MEMORY_REGION_SHIFT) in
    let entries := if direct_memory_regions c <? regions then regions - direct_memory_regions c else 0 in
    if entries =? 0 then Err EINVAL else Ok entries.

Definition withLayout (c : config) (count heap base end_ : Z) : config :=
  Config (heap_base c) heap base end_ count (stack_bytes_per_fiber c) (max_fibers c) (arena_image_pages c)
    (memory_backend c) (direct_memory_regions c) (abi_magic c) (abi_version c) (memory_view_base c).

Definition withWindow (c : config) (window : Z) : config :=
  Config (heap_base c) (heap_bytes c) (stack_base c) (memory_end c) (fiber_count c) (stack_bytes_per_fiber c)
    (max_fibers c) (arena_image_pages c) (memory_backend c) (direct_memory_regions c) (abi_magic c)
    (abi_version c) window.

Definition CONFIG_SIZE : Z := 56.

(** [__bpf_capsule_plan]: the finished record and the backend's entries. *)
Definition plan (c : config) (config_size : Z) (req : requested) : result Z (config * Z) :=
  if req_fiber_count req =? 0 then Err EINVAL
  else if config_size <? CONFIG_SIZE then Err ENOENT
  else if max_fibers c <? req_fiber_count req then Err E2BIG
  else if negb (layout_header_valid c) then Err EINVAL
  else if address_limit - heap_base c <? req_heap_bytes req then Err EOVERFLOW
  else
    let heap_end := u64 (heap_base c + req_heap_bytes req) in
    let alignment := stackAlignment c in
    let base := if stackFloor c <? heap_end then heap_end else stackFloor c in
    if address_limit - (alignment - 1) <? base then Err EOVERFLOW
    else
      let base := Z.ldiff (u64 (base + alignment - 1)) (alignment - 1) in
      let stack_bytes := u64 (stack_bytes_per_fiber c * req_fiber_count req) in
      if u64 (address_limit - base) <=? stack_bytes then Err EOVERFLOW
      else
        let memory_end := u64 (base + stack_bytes) in
        match backendEntries c memory_end with
        | Err e => Err e
        | Ok entries =>
            Ok (withLayout c (req_fiber_count req) (req_heap_bytes req) base memory_end, entries)
        end.

(** [__bpf_capsule_copy_plan]: the record is copied only if it is complete. *)
Definition copy_plan (data : option (config * Z)) (req : requested) : result Z (config * Z) :=
  match data with
  | None => Err ENOENT
  | Some (c, size) => if size <? CONFIG_SIZE then Err ENOENT else plan c size req
  end.

(** ** The address window *)

(** The reservation at [raw]: the aligned window, and the spans unmapped again
    as [(address, length)]. *)
Definition windowReserve : Z := 2 * 2 ^ 32 + FUNCTION_TOKEN_SPAN.

Definition trimWindow (raw : Z) : Z * list (Z * Z) :=
  let view_alignment := 2 ^ 32 in
  let aligned := Z.ldiff (u64 (raw + view_alignment - 1)) (view_alignment - 1) in
  let head := if aligned =? raw then [] else [(raw, aligned - raw)] in
  let tail := windowReserve - (aligned - raw) - (view_alignment + FUNCTION_TOKEN_SPAN) in
  (aligned, head ++ (if tail =? 0 then [] else [(aligned + view_alignment + FUNCTION_TOKEN_SPAN, tail)])).

(** ** An opened object *)

Record map_props := MapProps { max_entries : Z; map_extra : Z }.

Record bpf_program := Program {
  section : string; autoload : bool; strict : bool; prog_fd : Z;
}.

Record bpf_object := BpfObject {
  config_map : option (config * Z);      (* [.rodata.bpfconfig] and its size *)
  config_fd : Z;                         (* >= 0 once loaded *)
  maps : gmap string map_props;
  programs : list bpf_program;
}.

(** The environment of one call: the address [mmap] returns, whether [calloc]
    succeeds, and the error of each libbpf setter ([0] for success). *)
Class Calls := {
  mmap_reserve : option Z;
  calloc_ok : bool;
  set_max_entries_error : string → Z → Z;
  set_map_extra_error : string → Z → Z;
  set_autoload_error : bpf_program → bool → Z;
}.

Definition errnoOf (error : Z) : Z := if error <? 0 then - error else error.

(** [struct bpf_capsule_state]; the bound view is its configuration. *)
Record capsule_state := CapsuleState {
  window : Z;
  bound : option config;
  extensions : nat;
  freplace_required : bool;
  freplace_attached : bool;
  initialized : bool;
}.

(** A host: the handle ([struct bpf_capsule]: object and private state), the
    object itself, and the windows currently reserved. *)
Record host := HostState {
  handle_object : option nat;
  handle_state : option capsule_state;
  object : bpf_object;
  windows : gset Z;
}.

Definition FREPLACE_PROGRAM_PREFIX : string := "freplace/bpf_dispatch_output_".

Definition is_freplace_program (p : bpf_program) : bool :=
  String.prefix FREPLACE_PROGRAM_PREFIX (section p) &&
  Nat.ltb (String.length FREPLACE_PROGRAM_PREFIX) (String.length (section p)).

Definition setMaxEntries (o : bpf_object) (name : string) (n : Z) : bpf_object :=
  BpfObject (config_map o) (config_fd o)
    (alter (λ p, MapProps n (map_extra p)) name (maps o)) (programs o).
Definition setMapExtra (o : bpf_object) (name : string) (x : Z) : bpf_object :=
  BpfObject (config_map o) (config_fd o)
    (alter (λ p, MapProps (max_entries p) x) name (maps o)) (programs o).
Definition setPrograms (o : bpf_object) (ps : list bpf_program) : bpf_object :=
  BpfObject (config_map o) (config_fd o) (maps o) ps.
Definition setConfig (o : bpf_object) (c : config) (size : Z) : bpf_object :=
  BpfObject (Some (c, size)) (config_fd o) (maps o) (programs o).

Section Configure.
Context `{Calls}.

(** The program loop: strict alignment for all, no autoload for the
    compiler's replacement programs. *)
Fixpoint markPrograms (ps : list bpf_program) : list bpf_program * bool * Z :=
  match ps with
  | [] => ([], false, 0)
  | p :: ps =>
      let p := Program (section p) (autoload p) true (prog_fd p) in
      if is_freplace_program p then
        let error := set_autoload_error p false in
        if negb (error =? 0) then (p :: ps, false, errnoOf error)
        else
          let '(ps, _, error) := markPrograms ps in
          (Program (section p) false true (prog_fd p) :: ps, true, error)
      else
        let '(ps, required, error) := markPrograms ps in (p :: ps, required, error)
  end.

Definition backendName (c : config) : string :=
  if memory_backend c =? MEMORY_ARENA then "arena" else "bpf_heap_array".

Definition fiberMapNames (c : config) : list string :=
  (if memory_backend c =? MEMORY_ARENA
   then ["bpf_capsule_issued_fibers"; "bpf_capsule_free_fibers"]
   else ["bpf_capsule_fiber_leases"]) ++ ["bpf_capsule_continuation_claims"].

(** A setter: the property changes only when the call succeeds. *)
Definition tryMaxEntries (o : bpf_object) (name : string) (n : Z) : bpf_object * Z :=
  let error := set_max_entries_error name n in
  (if error =? 0 then setMaxEntries o name n else o, error).
Definition tryMapExtra (o : bpf_object) (name : string) (x : Z) : bpf_object * Z :=
  let error := set_map_extra_error name x in
  (if error =? 0 then setMapExtra o name x else o, error).

(** The old sizes of the fiber maps, if every map exists. *)
Fixpoint oldEntries (o : bpf_object) (names : list string) : option (list (string * Z)) :=
  match names with
  | [] => Some []
  | name :: names =>
      match maps o !! name with
      | None => None
      | Some p => (λ l, (name, max_entries p) :: l) <$> oldEntries o names
      end
  end.

(** Restore the changed maps, the last one first. *)
Definition rollback (o : bpf_object) (changed : list (string * Z)) : bpf_object :=
  foldr (λ p o, (tryMaxEntries o p.1 p.2).1) o changed.

(** Resize the fiber maps; [changed] are the maps resized so far, in order. *)
Fixpoint resizeAll (o : bpf_object) (todo changed : list (string * Z)) (n : Z)
    : bpf_object * Z :=
  match todo with
  | [] => (o, 0)
  | p :: todo =>
      let '(o, error) := tryMaxEntries o p.1 n in
      if negb (error =? 0) then (rollback o changed, errnoOf error)
      else resizeAll o todo (changed ++ [p]) n
  end.

(** Resize and pin the backend; on failure everything is restored. *)
Definition resizeBackend (o : bpf_object) (planned : config) (entries win : Z) (old : list (string * Z))
    : bpf_object * Z :=
  let name := backendName planned in
  let props := default (MapProps 0 0) (maps o !! name) in
  let '(o, error) := tryMaxEntries o name entries in
  if negb (error =? 0) then (rollback o old, errnoOf error)
  else if memory_backend planned =? MEMORY_ARENA then
    let '(o, error) := tryMapExtra o name win in
    if negb (error =? 0) then
      let o := (tryMapExtra o name (map_extra props)).1 in
      let o := (tryMaxEntries o name (max_entries props)).1 in
      (rollback o old, errnoOf error)
    else (o, 0)
  else (o, 0).

Definition stateWindow (s : option capsule_state) : Z :=
  match s with Some s => window s | None => 0 end.

(** The object is configured through the handle: [id] names the object. *)
Definition configure (h : host) (id : nat) (req : requested) : host * Z :=
  let fail e := (h, e) in
  let failWith o e := (HostState (handle_object h) (handle_state h) o (windows h), e) in
  if match handle_object h with Some k => negb (Nat.eqb k id) | None => bool_decide (is_Some (handle_state h)) end
  then fail EBUSY
  else
    match config_map (object h) with
    | None => fail ENOENT
    | Some (c, size) =>
        if 0 <=? config_fd (object h) then fail EBUSY
        else
          let '(ps, required, error) := markPrograms (programs (object h)) in
          let o := setPrograms (object h) ps in
          if negb (error =? 0) then failWith o error
          else if negb (memory_view_base c =? stateWindow (handle_state h)) then failWith o EBUSY
          else
            match copy_plan (Some (c, size)) req with
            | Err e => failWith o e
            | Ok (planned, entries) =>
                match maps o !! backendName planned, oldEntries o (fiberMapNames planned) with
                | Some _, Some old =>
                    match mmap_reserve with
                    | None => failWith o ENOMEM
                    | Some raw =>
                        let win := (trimWindow raw).1 in
                        if match handle_state h with None => negb calloc_ok | Some _ => false end
                        then failWith o ENOMEM
                        else
                          let '(o1, error) := resizeAll o old [] (req_fiber_count req) in
                          if negb (error =? 0) then failWith o1 error
                          else
                            let '(o2, error) := resizeBackend o1 planned entries win old in
                            if negb (error =? 0) then failWith o2 error
                            else
                              let ws := {[win]} ∪ windows h in
                              let state :=
                                match handle_state h with
                                | Some s => CapsuleState win (bound s) (extensions s) required false (initialized s)
                                | None => CapsuleState win None 0 required false false
                                end in
                              (HostState (Some id) (Some state) (setConfig o2 (withWindow planned win) size)
                                 (ws ∖ (match handle_state h with
                                        | Some s => if window s =? 0 then ∅ else {[window s]}
                                        | None => ∅ end)), 0)
                    end
                | _, _ => failWith o ENOENT
                end
            end
    end.

End Configure.

(** ** Replacement programs *)

(** [load target] opens, relinks and loads the replacement object for one
    target: an error, nothing to attach, or one extension. *)
Fixpoint attachAll (load : bpf_program → result Z bool) (ps : list bpf_program) (attached : nat) : result Z nat :=
  match ps with
  | [] => Ok attached
  | p :: ps =>
      if is_freplace_program p || (prog_fd p <? 0) then attachAll load ps attached
      else
        match load p with
        | Err e => Err e
        | Ok true => attachAll load ps (S attached)
        | Ok false => attachAll load ps attached
        end
  end.

Definition withState (h : host) (s : capsule_state) : host :=
  HostState (handle_object h) (Some s) (object h) (windows h).

Definition attach_freplace (load : bpf_program → result Z bool) (h : host) (object_size : Z) : host * Z :=
  match handle_object h, handle_state h with
  | Some _, Some s =>
      if object_size =? 0 then (h, EINVAL)
      else if bool_decide (is_Some (bound s)) then (h, EBUSY)
      else if negb (freplace_required s) then (h, ENOENT)
      else if freplace_attached s then (h, EALREADY)
      else
        match attachAll load (programs (object h)) 0 with
        | Err e => (h, e)
        | Ok O => (h, ENOENT)
        | Ok (S n) =>
            (withState h (CapsuleState (window s) (bound s) (extensions s + S n) (freplace_required s) true
               (initialized s)), 0)
        end
  | _, _ => (h, EINVAL)
  end.

(** ** Release *)

(** [munmap_error] is the result of unmapping the window. *)
Definition release (munmap_error : Z) (h : host) : host * Z :=
  match handle_state h with
  | None => (HostState None None (object h) (windows h), 0)
  | Some s =>
      if negb (window s =? 0) && negb (munmap_error =? 0) then
        (withState h (CapsuleState (window s) (bound s) 0 (freplace_required s) (freplace_attached s) (initialized s)),
         errnoOf munmap_error)
      else
        (HostState None None (object h) (if window s =? 0 then windows h else windows h ∖ {[window s]}), 0)
  end.

(** ** The shared view *)

(** What the loaded object offers: its arena and control maps, the direct
    region maps as [(value size, fd)], the overflow map as [(fd, value size,
    entries)], and the page size. *)
Record backing := Backing {
  arena_entries : option Z;
  arena_mapped : bool;
  control_size : option Z;
  region_map : Z → option (Z * Z);
  overflow_map : option (Z * Z * Z);
  page_size : Z;
}.

Definition ARENA_CONTROL_SIZE : Z := 16.

(** A shared mapping: address, file and offset. *)
Record mapping := Mapping { map_address : Z; map_fd : Z; map_offset : Z }.

(** The file descriptors of the direct regions from [k]. *)
Fixpoint regionFds (bk : backing) (n : nat) (k : Z) : result Z (list Z) :=
  match n with
  | O => Ok []
  | S n =>
      match region_map bk k with
      | None => Err ENOENT
      | Some (value_size, fd) =>
          if negb (value_size =? MEMORY_REGION_SIZE) then Err EFAULT
          else match regionFds bk n (k + 1) with Ok l => Ok (fd :: l) | Err e => Err e end
      end
  end.

(** The system calls of the view: the [errno] of mapping one region, of
    protecting the null page and of restoring the reservation ([0]: success). *)
Record view_calls := ViewCalls { mmap_error : mapping → Z; mprotect_error : Z; restore_error : Z }.

(** The loop over regions: the mappings made, and the error that stopped it. *)
Fixpoint mapRegions (sys : view_calls) (base : Z) (fds : list Z) (overflow_fd : Z) (n : nat) (region : Z)
    : list mapping * Z :=
  match n with
  | O => ([], 0)
  | S n =>
      let count := Z.of_nat (length fds) in
      let fd := if region <? count then default (-1) (fds !! Z.to_nat region) else overflow_fd in
      let offset := if region <? count then 0 else (region - count) * MEMORY_REGION_SIZE in
      let mp := Mapping (base + region * MEMORY_REGION_SIZE) fd offset in
      if fd <? 0 then ([], EFAULT)
      else if mmap_error sys mp =? 0 then
        let '(l, error) := mapRegions sys base fds overflow_fd n (region + 1) in (mp :: l, error)
      else ([], mmap_error sys mp)
  end.

(** The layout checks on the frozen record. *)
Definition viewable (c : config) : bool :=
  let heap_end := heap_base c + heap_bytes c in
  let stack_bytes := u64 (stack_bytes_per_fiber c * fiber_count c) in
  layout_header_valid c && negb (fiber_count c =? 0) && (fiber_count c <=? max_fibers c) &&
  (heap_end <=? stack_base c) && (stack_base c <=? 2 ^ 32 - 1) && (stack_bytes <=? 2 ^ 32 - stack_base c) &&
  (memory_end c =? u64 (stack_base c + stack_bytes)).

(** [__bpf_capsule_prepare_memory] past the checks of the handle: the mappings
    made over the window and the configuration to bind. *)
Definition prepare_memory (sys : view_calls) (bk : backing)
    (data : option (config * Z)) (win : Z) : result Z (list mapping * config) :=
  match data with
  | None => Err ENOENT
  | Some (c, size) =>
      if size <? CONFIG_SIZE then Err ENOENT
      else if negb (memory_view_base c =? win) then Err EINVAL
      else if negb (viewable c) then Err EINVAL
      else if memory_backend c =? MEMORY_ARENA then
        match arena_entries bk with
        | None => Err ENOENT
        | Some entries =>
            if match control_size bk with Some n => n <? ARENA_CONTROL_SIZE | None => true end then Err EFAULT
            else if negb (arena_mapped bk) || (page_size bk =? 0) || ((2 ^ 64 - 1) / page_size bk <? entries)
            then Err EFAULT
            else Ok ([], c)
        end
      else if negb (memory_backend c =? MEMORY_FIXED) || bool_decide (is_Some (arena_entries bk)) then Err EINVAL
      else
        match regionFds bk (Z.to_nat (direct_memory_regions c)) 0 with
        | Err e => Err e
        | Ok fds =>
            let '(overflow_fd, value_size, entries) := default (-1, 0, 0) (overflow_map bk) in
            let total := direct_memory_regions c + entries in
            if memory_view_base c =? 0 then Err EINVAL
            else if (value_size =? MEMORY_REGION_SIZE) && negb (page_size bk =? 0) &&
                    (Z.land (memory_view_base c) (page_size bk - 1) =? 0) &&
                    (Z.land MEMORY_REGION_SIZE (page_size bk - 1) =? 0) &&
                    (total <=? 2 ^ 32 / MEMORY_REGION_SIZE) && (memory_end c <=? total * MEMORY_REGION_SIZE) &&
                    (memory_view_base c <=? 2 ^ 64 - 1 - total * MEMORY_REGION_SIZE)
            then
              let '(l, error) := mapRegions sys (memory_view_base c) fds overflow_fd (Z.to_nat total) 0 in
              let error := if error =? 0 then mprotect_error sys else error in
              if error =? 0 then Ok (l, c)
              else if negb (Nat.eqb (length l) 0) && negb (restore_error sys =? 0) then Err (restore_error sys)
              else Err error
            else Err EFAULT
        end
  end.

(** ** Initialisation *)

(** What [bpf_map__initial_value] shows of a data section of the loaded
    object: there is no such map, the map has no value (or one too small for
    what is read), or its content. *)
Inductive initial_value (A : Type) := NoMap | NoValue | Value (a : A).
#[global] Arguments NoMap {A}.
#[global] Arguments NoValue {A}.
#[global] Arguments Value {A} a.

(** What [bpf_capsule_initialize] reads and writes in the loaded image: the
    readiness word, the fixup table, and memory. *)
Record image := Image { ready : initial_value Z; fixups : initial_value (list Z); bytes : ExpandMem.memory }.

Definition WORD : nat := 8.

(** One slot: add the window to the word it holds. *)
Definition relocate (win slot : Z) (m : ExpandMem.memory) : ExpandMem.memory :=
  let value := ExpandMem.loadBytes m (win + slot) WORD in
  ExpandMem.storeBytes m (win + slot) (u64 (value + win)) WORD.

Fixpoint applyFixups (c : config) (win : Z) (slots : list Z) (m : ExpandMem.memory) : ExpandMem.memory * Z :=
  match slots with
  | [] => (m, 0)
  | slot :: slots =>
      if (slot <? ARENA_PAGE_SIZE) || (heap_base c - 8 <? slot) then (m, EFAULT)
      else applyFixups c win slots (relocate win slot m)
  end.

(** [init_run] is the result of the generated initialiser, if the object has
    one: the file descriptor, the error of the test run and the return value. *)
Definition initialize (init_run : option (Z * Z * Z)) (sys : view_calls)
    (bk : backing) (h : host) (img : image) : host * image * Z :=
  match handle_object h, handle_state h with
  | Some _, Some s =>
      if window s =? 0 then (h, img, EINVAL)
      else if freplace_required s && negb (freplace_attached s) then (h, img, ENOLINK)
      else
        let error :=
          match init_run with
          | None => 0
          | Some (fd, error, retval) =>
              if fd <? 0 then - fd else if negb (error =? 0) then errnoOf error
              else if retval <? 0 then - retval else 0
          end in
        if negb (error =? 0) then (h, img, error)
        else
          match (match bound s with
                 | Some c => Ok c
                 | None =>
                     match prepare_memory sys bk (config_map (object h)) (window s) with
                     | Ok (_, c) => Ok c
                     | Err e => Err e
                     end
                 end) with
          | Err e => (h, img, e)
          | Ok c =>
              let bind ok := withState h (CapsuleState (window s) (Some c) (extensions s) (freplace_required s)
                               (freplace_attached s) (ok || initialized s)) in
              match ready img with
              | NoMap => (bind true, img, 0)
              | NoValue => (bind false, img, EFAULT)
              | Value r =>
                  if negb (r =? 0) then (bind true, img, 0)
                  else
                    match fixups img with
                    | NoValue => (bind false, img, EFAULT)
                    | NoMap => (bind true, Image (Value 1) (fixups img) (bytes img), 0)
                    | Value slots =>
                        let '(m, error) := applyFixups c (memory_view_base c) slots (bytes img) in
                        if negb (error =? 0) then (bind false, Image (ready img) (fixups img) m, error)
                        else (bind true, Image (Value 1) (fixups img) m, 0)
                    end
              end
          end
  | _, _ => (h, img, EINVAL)
  end.

Definition memory_size (h : host) : Z :=
  match handle_state h with Some s => from_option memory_end 0 (bound s) | None => 0 end.

(** ** Allocation requests *)

Record alloc_request := AllocRequest { operation : Z; answer : capsule_result; out_error : Z }.

Definition setOperation (q : alloc_request) (op : Z) : alloc_request := AllocRequest op (answer q) (out_error q).

Section AllocRun.
(** [run] is one [BPF_PROG_TEST_RUN] of the allocator program on its context:
    the new state, context, error and return value. *)
Context {S : Type} (run : S → alloc_request → S * alloc_request * Z * Z).

(** The loop is unbounded: after [fuel] runs without an end it is still
    running ([None]). *)
Fixpoint alloc_run (fuel : nat) (s : S) (q : alloc_request) : S * alloc_request * option Z :=
  match fuel with
  | O => (s, q, None)
  | Datatypes.S fuel =>
      let '(s, q, error, retval) := run s q in
      if negb (error =? 0) || (retval <? 0) then
        let saved := if negb (error =? 0) then errnoOf error else - retval in
        if negb (r_continuation (answer q) =? NO_CONTINUATION) then
          let q := setOperation q ALLOC_RESET in
          let '(s, q, _, _) := run s q in (s, q, Some saved)
        else (s, q, Some saved)
      else if r_status (answer q) =? CAPSULE_OK then (s, q, Some (out_error q))
      else if (r_status (answer q) =? CAPSULE_PENDING) || (r_status (answer q) =? CAPSULE_YIELD) then
        alloc_run fuel s (setOperation q ALLOC_CONTINUE)
      else if r_status (answer q) =? CAPSULE_EXITED then
        (s, q, Some (if r_code (answer q) =? ERROR_POOL_EXHAUSTED then EAGAIN else ECANCELED))
      else (s, q, Some EPROTO)
  end.
End AllocRun.

(** The request a host call starts with. *)
Definition allocStart (op : Z) : alloc_request := AllocRequest op (Result 0 0 NO_CONTINUATION) 0.

End Host.
