(* ===== verification/HostProps.v ===== *)
(** * Properties of the host library *)

From Stdlib Require Import ZArith Lia.
From stdpp Require Import base numbers list gmap sets fin_maps strings.
From S2P Require Import Prelude Fiber FiberProps ExpandMem Host.
Import Fiber Host.
Local Open Scope Z_scope.

(** ** Alignment *)

Lemma ldiff_align x k : 0 <= k → Z.ldiff x (2 ^ k - 1) = x / 2 ^ k * 2 ^ k.
Proof.
  intros Hk.
  replace (2 ^ k - 1) with (Z.ones k) by (rewrite Z.ones_equiv; lia).
  rewrite Z.ldiff_ones_r by done. by rewrite Z.shiftr_div_pow2, Z.shiftl_mul_pow2 by done.
Qed.

(** Rounding up to a multiple of [a]. *)
Definition alignUp (x a : Z) : Z := (x + a - 1) / a * a.

Lemma alignUp_spec x a : 0 < a → x <= alignUp x a < x + a ∧ alignUp x a mod a = 0.
Proof.
  intros Ha. unfold alignUp. pose proof (Z.div_mod (x + a - 1) a). pose proof (Z.mod_pos_bound (x + a - 1) a).
  split; [lia|]. by apply Z.mod_mul; lia.
Qed.

(** The test [n & (n - 1) == 0]. *)
Lemma power_of_two n : 0 < n → Z.land n (n - 1) = 0 → n = 2 ^ Z.log2 n.
Proof.
  intros Hn Hland. pose proof (Z.log2_spec n Hn) as [Hlo Hhi]. set (k := Z.log2 n) in *.
  assert (Hk : 0 <= k) by apply Z.log2_nonneg. rewrite Z.pow_succ_r in Hhi by done.
  destruct (decide (n = 2 ^ k)) as [|Hne]; [done|]. exfalso.
  assert (Hbit : ∀ m, 2 ^ k <= m < 2 * 2 ^ k → Z.testbit m k = true).
  { intros m Hm. rewrite <-(Z.bit_log2 m) by lia. f_equal. symmetry. apply Z.log2_unique; [done|].
    rewrite Z.pow_succ_r; lia. }
  assert (Hb : Z.testbit (Z.land n (n - 1)) k = true).
  { rewrite Z.land_spec, !Hbit by lia. done. }
  by rewrite Hland, Z.bits_0 in Hb.
Qed.

Lemma divide_limit k : 0 <= k <= 32 → (2 ^ k | 2 ^ 32).
Proof. intros Hk. exists (2 ^ (32 - k)). rewrite <-Z.pow_add_r by lia. f_equal. lia. Qed.

(** ** Planning *)

Definition requestWidths (r : requested) : Prop :=
  0 <= req_fiber_count r < 2 ^ 32 ∧ 0 <= req_heap_bytes r < 2 ^ 64.

Record header (c : config) : Prop := {
  h_stack : ∃ k, 0 <= k <= 22 ∧ stack_bytes_per_fiber c = 2 ^ k;
  h_fibers : 1 <= max_fibers c <= 65535;
  h_heap : 4096 <= heap_base c < 2 ^ 32;
  h_backend : memory_backend c = 0 ∧ 1 <= direct_memory_regions c <= 63 ∨
              memory_backend c = 1 ∧ direct_memory_regions c = 0;
  h_abi : abi_magic c = ABI_MAGIC ∧ abi_version c = ABI_VERSION;
}.

Lemma layout_header_spec c : configWidths c → layout_header_valid c = true ↔ header c.
Proof.
  intros [Hw _]. repeat (apply Forall_cons in Hw as [? Hw]). clear Hw. unfold layout_header_valid. split.
  - intros Hv. repeat (apply andb_true_iff in Hv as [Hv ?]). bool_to_prop.
    change MEMORY_REGION_SIZE with (2 ^ 22) in *. unfold u32 in *. rewrite wrap_small in * by lia.
    constructor; try done.
    + exists (Z.log2 (stack_bytes_per_fiber c)).
      assert (Hp : stack_bytes_per_fiber c = 2 ^ Z.log2 (stack_bytes_per_fiber c)) by (apply power_of_two; lia).
      split; [|done]. split; [apply Z.log2_nonneg|].
      change 22 with (Z.log2 (2 ^ 22)). by apply Z.log2_le_mono.
    + unfold MAX_FIBERS_LIMIT in *. lia.
    + change ARENA_PAGE_SIZE with 4096 in *. lia.
    + unfold MEMORY_ARENA, MAX_DIRECT_MEMORY_REGIONS in *.
      destruct (Z.eqb_spec (memory_backend c) 1); bool_to_prop; lia.
  - intros [(k & Hk & Hs) Hf Hh Hb [Hm1 Hm2]].
    assert (Hpow : 1 <= 2 ^ k <= 2 ^ 22).
    { split; [pose proof (Z.pow_pos_nonneg 2 k); lia|apply Z.pow_le_mono_r; lia]. }
    rewrite Hs, Hm1, Hm2. unfold u32. rewrite wrap_small by lia.
    replace (Z.land (2 ^ k) (2 ^ k - 1)) with 0.
    2: { replace (2 ^ k - 1) with (Z.ones k) by (rewrite Z.ones_equiv; lia).
         rewrite Z.land_ones by lia. symmetry. apply Z.mod_same. lia. }
    change MEMORY_REGION_SIZE with (2 ^ 22). change ARENA_PAGE_SIZE with 4096.
    unfold MAX_FIBERS_LIMIT, MEMORY_ARENA, MAX_DIRECT_MEMORY_REGIONS.
    rewrite !Z.eqb_refl, !andb_true_r.
    repeat (apply andb_true_iff; split); try (apply negb_true_iff, Z.eqb_neq; lia); try (apply Z.leb_le; lia).
    destruct Hb as [[-> ?]|[-> ->]]; [|done]. apply andb_true_iff. split; [apply Z.ltb_lt|apply Z.leb_le]; lia.
Qed.


(** The layout the source computes, without the word arithmetic. *)
Definition heapEnd (c : config) (r : requested) : Z := heap_base c + req_heap_bytes r.
Definition plannedBase (c : config) (r : requested) : Z :=
  alignUp (Z.max (heapEnd c r) (stackFloor c)) (stackAlignment c).
Definition plannedEnd (c : config) (r : requested) : Z :=
  plannedBase c r + stack_bytes_per_fiber c * req_fiber_count r.
Definition arenaPages (c : config) (r : requested) : Z :=
  arena_image_pages c + (plannedEnd c r + 4095) / 4096 + ARENA_SLICE_SLACK_PAGES (stack_bytes_per_fiber c).

Lemma stackAlignment_spec c :
  header c → ∃ k, 12 <= k <= 22 ∧ stackAlignment c = 2 ^ k ∧ (stack_bytes_per_fiber c | stackAlignment c).
Proof.
  intros [(k & Hk & Hs) _ _ Hb _]. unfold stackAlignment, MEMORY_ARENA. rewrite Hs.
  change ARENA_PAGE_SIZE with (2 ^ 12). change MEMORY_REGION_SIZE with (2 ^ 22).
  assert (Hdiv : ∀ n, k <= n → (2 ^ k | 2 ^ n)).
  { intros n Hn. exists (2 ^ (n - k)). rewrite <-Z.pow_add_r by lia. f_equal. lia. }
  destruct Hb as [[-> _]|[-> _]]; simpl.
  - exists 22. split_and!; [lia|lia|done|]. apply Hdiv. lia.
  - destruct (Z.ltb_spec (2 ^ 12) (2 ^ k)) as [Hlt|Hge].
    + apply Z.pow_lt_mono_r_iff in Hlt; [|lia|lia]. exists k. split_and!; [lia|lia|done|]. apply Hdiv. lia.
    + apply Z.pow_le_mono_r_iff in Hge; [|lia|lia]. exists 12. split_and!; [lia|lia|done|]. apply Hdiv. lia.
Qed.

Lemma stackFloor_range c : header c → 0 <= stackFloor c <= 63 * 2 ^ 22.
Proof.
  intros [_ _ _ Hb _]. unfold stackFloor, MEMORY_ARENA. change MEMORY_REGION_SIZE with (2 ^ 22).
  destruct Hb as [[-> ?]|[-> _]]; simpl; lia.
Qed.

(** A multiple of [a] above [2^32 - a] is at least [2^32]. *)
Lemma alignUp_limit x a : (a | 2 ^ 32) → 0 < a → 2 ^ 32 - a < x → 2 ^ 32 <= alignUp x a.
Proof.
  intros [q Hq] Ha Hx. destruct (alignUp_spec x a Ha) as [Hup Hmod]. unfold alignUp in *.
  set (n := (x + a - 1) / a) in *. rewrite Hq in *.
  assert (q - 1 < n) by (apply (Z.mul_lt_mono_pos_r a); lia). nia.
Qed.

Lemma alignUp_le_limit x a : (a | 2 ^ 32) → 0 < a → x <= 2 ^ 32 → alignUp x a <= 2 ^ 32.
Proof.
  intros [q Hq] Ha Hx. destruct (alignUp_spec x a Ha) as [Hup Hmod]. unfold alignUp in *.
  set (n := (x + a - 1) / a) in *. rewrite Hq in *.
  assert (n < q + 1) by (apply (Z.mul_lt_mono_pos_r a); lia). nia.
Qed.

(** The backend's entries for a layout that ends below 4 GiB. *)
Lemma backendEntries_spec c r :
  configWidths c → requestWidths r → header c → 1 <= req_fiber_count r → plannedEnd c r < 2 ^ 32 →
  backendEntries c (plannedEnd c r) =
  if memory_backend c =? 1
  then (if arenaPages c r <=? 2 ^ 20 then Ok (arenaPages c r) else Err EOVERFLOW)
  else Ok ((plannedEnd c r + 2 ^ 22 - 1) / 2 ^ 22 - direct_memory_regions c).
Proof.
  intros [Hw _] [Hr1 Hr2] Hh Hn Hend. repeat (apply Forall_cons in Hw as [? Hw]). clear Hw.
  destruct (stackAlignment_spec c Hh) as (k & Hk & Ha & _).
  assert (Hap : 0 < 2 ^ k) by (apply Z.pow_pos_nonneg; lia).
  pose proof (stackFloor_range c Hh) as Hfl.
  destruct (alignUp_spec (Z.max (heapEnd c r) (stackFloor c)) (2 ^ k) Hap) as [Hup _].
  assert (Hs : 1 <= stack_bytes_per_fiber c).
  { destruct (h_stack _ Hh) as (k' & Hk' & ->). pose proof (Z.pow_pos_nonneg 2 k'). lia. }
  assert (Hbase : Z.max (heapEnd c r) (stackFloor c) <= plannedBase c r) by (unfold plannedBase; rewrite Ha; apply Hup).
  assert (Hlo : plannedBase c r + 1 <= plannedEnd c r) by (unfold plannedEnd; nia).
  pose proof (h_heap _ Hh) as Hheap. unfold heapEnd in *.
  unfold backendEntries. unfold MEMORY_ARENA. destruct (Z.eqb_spec (memory_backend c) 1) as [Eb|Eb].
  - change ARENA_PAGE_SIZE with 4096. change ARENA_PAGE_SHIFT with 12. rewrite Z.shiftr_div_pow2 by lia.
    change (2 ^ 12) with 4096. replace (plannedEnd c r + 4096 - 1) with (plannedEnd c r + 4095) by lia.
    fold (arenaPages c r).
    assert (Hslack : 0 <= ARENA_SLICE_SLACK_PAGES (stack_bytes_per_fiber c)).
    { unfold ARENA_SLICE_SLACK_PAGES. change ARENA_PAGE_SIZE with 4096.
      destruct (Z.ltb_spec 4096 (stack_bytes_per_fiber c)); [|lia].
      assert (1 <= stack_bytes_per_fiber c / 4096) by (apply Z.div_le_lower_bound; lia). lia. }
    assert (Hpos : 1 <= arenaPages c r).
    { unfold arenaPages. assert (1 <= (plannedEnd c r + 4095) / 4096) by (apply Z.div_le_lower_bound; lia). lia. }
    change MAX_ARENA_PAGES with (2 ^ 20).
    destruct (Z.eqb_spec (arenaPages c r) 0); [lia|]. simpl.
    destruct (Z.ltb_spec (2 ^ 20) (arenaPages c r)), (Z.leb_spec (arenaPages c r) (2 ^ 20)); try lia; [done|].
    unfold u32. by rewrite wrap_small by lia.
  - change MEMORY_REGION_SIZE with (2 ^ 22). unfold MEMORY_REGION_SHIFT. rewrite Z.shiftr_div_pow2 by lia.
    set (regions := (plannedEnd c r + 2 ^ 22 - 1) / 2 ^ 22).
    assert (Hreg : direct_memory_regions c < regions <= 1024).
    { destruct (h_backend _ Hh) as [[Hb Hd]|[Hb _]]; [|lia].
      assert (Hfloor : stackFloor c = direct_memory_regions c * 2 ^ 22).
      { unfold stackFloor, MEMORY_ARENA. rewrite Hb. done. }
      subst regions. split; [|apply Z.lt_succ_r, Z.div_lt_upper_bound; lia].
      apply Z.le_succ_l, Z.div_le_lower_bound; lia. }
    unfold u32. rewrite wrap_small by lia.
    destruct (Z.ltb_spec (direct_memory_regions c) regions); [|lia].
    destruct (Z.eqb_spec (regions - direct_memory_regions c) 0); [lia|done].
Qed.

(** The plan of a complete record with a valid header and a count in range. *)
Lemma plan_spec c size r :
  configWidths c → requestWidths r → header c → CONFIG_SIZE <= size → 1 <= req_fiber_count r <= max_fibers c →
  plan c size r =
  if (plannedEnd c r <? 2 ^ 32) && (negb (memory_backend c =? 1) || (arenaPages c r <=? 2 ^ 20)) then
    Ok (withLayout c (req_fiber_count r) (req_heap_bytes r) (plannedBase c r) (plannedEnd c r),
        if memory_backend c =? 1 then arenaPages c r
        else (plannedEnd c r + 2 ^ 22 - 1) / 2 ^ 22 - direct_memory_regions c)
  else Err EOVERFLOW.
Proof.
  intros Hwid Hreq Hh Hsize Hn. pose proof Hwid as [Hw _]. pose proof Hreq as [Hr1 Hr2].
  repeat (apply Forall_cons in Hw as [? Hw]). clear Hw.
  destruct (stackAlignment_spec c Hh) as (k & Hk & Ha & _).
  assert (Hap : 0 < 2 ^ k <= 2 ^ 22) by (split; [apply Z.pow_pos_nonneg|apply Z.pow_le_mono_r]; lia).
  assert (Hdiv : (2 ^ k | 2 ^ 32)) by (apply divide_limit; lia).
  pose proof (stackFloor_range c Hh) as Hfl. pose proof (h_heap _ Hh) as Hheap.
  assert (Hs : 1 <= stack_bytes_per_fiber c <= 2 ^ 22).
  { destruct (h_stack _ Hh) as (k' & Hk' & ->). pose proof (Z.pow_pos_nonneg 2 k').
    pose proof (Z.pow_le_mono_r 2 k' 22). lia. }
  pose proof (h_fibers _ Hh) as Hfib.
  set (b := Z.max (heapEnd c r) (stackFloor c)).
  assert (Hb0 : heapEnd c r <= b) by (subst b; lia).
  destruct (alignUp_spec b (2 ^ k) ltac:(lia)) as [Hup _].
  assert (Hbase : plannedBase c r = alignUp b (2 ^ k)) by (unfold plannedBase; by rewrite Ha).
  assert (Hend : plannedEnd c r = alignUp b (2 ^ k) + stack_bytes_per_fiber c * req_fiber_count r)
    by (unfold plannedEnd; by rewrite Hbase).
  unfold plan. destruct (Z.eqb_spec (req_fiber_count r) 0); [lia|].
  destruct (Z.ltb_spec size CONFIG_SIZE); [lia|]. destruct (Z.ltb_spec (max_fibers c) (req_fiber_count r)); [lia|].
  replace (layout_header_valid c) with true by (symmetry; by apply layout_header_spec). cbn [negb].
  change address_limit with (2 ^ 32). unfold heapEnd in *.
  assert (Hover : 2 ^ 32 <= plannedEnd c r →
    ((plannedEnd c r <? 2 ^ 32) && (negb (memory_backend c =? 1) || (arenaPages c r <=? 2 ^ 20))) = false).
  { intros Hge. by destruct (Z.ltb_spec (plannedEnd c r) (2 ^ 32)); [lia|]. }
  destruct (Z.ltb_spec (2 ^ 32 - heap_base c) (req_heap_bytes r)); [rewrite Hover by nia; done|].
  cbv zeta. unfold u64. rewrite !(wrap_small 64 (heap_base c + req_heap_bytes r)) by lia.
  replace (if stackFloor c <? heap_base c + req_heap_bytes r then heap_base c + req_heap_bytes r else stackFloor c)
    with b by (subst b; destruct (Z.ltb_spec (stackFloor c) (heap_base c + req_heap_bytes r)); lia).
  rewrite Ha. destruct (Z.ltb_spec (2 ^ 32 - (2 ^ k - 1)) b).
  { pose proof (alignUp_limit b (2 ^ k) Hdiv ltac:(lia) ltac:(lia)). rewrite Hover by nia. done. }
  assert (Hle : alignUp b (2 ^ k) <= 2 ^ 32) by (apply alignUp_le_limit; lia || done).
  rewrite (wrap_small 64 (b + 2 ^ k - 1)) by lia. rewrite ldiff_align by lia.
  fold (alignUp b (2 ^ k)). rewrite (wrap_small 64 (stack_bytes_per_fiber c * req_fiber_count r)) by nia.
  rewrite (wrap_small 64 (2 ^ 32 - _)) by lia.
  destruct (Z.leb_spec (2 ^ 32 - alignUp b (2 ^ k)) (stack_bytes_per_fiber c * req_fiber_count r)).
  { by rewrite Hover by lia. }
  rewrite wrap_small by nia. rewrite <-Hend, backendEntries_spec by (done || lia).
  destruct (Z.ltb_spec (plannedEnd c r) (2 ^ 32)); [|lia]. rewrite Hbase. simpl.
  destruct (memory_backend c =? 1); simpl; [|done]. by destruct (arenaPages c r <=? 2 ^ 20).
Qed.

Lemma plan_header c size r p :
  configWidths c → plan c size r = Ok p →
  header c ∧ CONFIG_SIZE <= size ∧ req_fiber_count r ≠ 0 ∧ req_fiber_count r <= max_fibers c.
Proof.
  intros Hw Hp. unfold plan in Hp.
  destruct (Z.eqb_spec (req_fiber_count r) 0); [done|]. destruct (Z.ltb_spec size CONFIG_SIZE); [done|].
  destruct (Z.ltb_spec (max_fibers c) (req_fiber_count r)); [done|].
  destruct (layout_header_valid c) eqn:Eh; [|done]. by apply layout_header_spec in Eh.
Qed.

(** What a plan promises. *)
Definition planned (c : config) (r : requested) (c' : config) (n : Z) : Prop :=
  c' = withLayout c (req_fiber_count r) (req_heap_bytes r) (plannedBase c r) (plannedEnd c r) ∧
  heapEnd c r <= stack_base c' ∧ stack_base c' mod stack_bytes_per_fiber c = 0 ∧
  (stack_base c' < heapEnd c r + stackAlignment c ∨ stack_base c' < stackFloor c + stackAlignment c) ∧
  memory_end c' < 2 ^ 32 ∧
  if memory_backend c =? 1
  then memory_end c' <= (n - arena_image_pages c - ARENA_SLICE_SLACK_PAGES (stack_bytes_per_fiber c)) * 4096 ∧ n <= 2 ^ 20
  else (direct_memory_regions c + n - 1) * 2 ^ 22 < memory_end c' <= (direct_memory_regions c + n) * 2 ^ 22.

Lemma plan_ok c size r c' n :
  configWidths c → requestWidths r → plan c size r = Ok (c', n) → planned c r c' n.
Proof.
  intros Hw Hr Hp. pose proof Hr as [Hr1 _]. destruct (plan_header _ _ _ _ Hw Hp) as (Hh & Hsize & Hn0 & Hn).
  rewrite plan_spec in Hp by (done || lia).
  destruct (Z.ltb_spec (plannedEnd c r) (2 ^ 32)) as [Hend|]; [|done].
  destruct (stackAlignment_spec c Hh) as (k & Hk & Ha & Hdiv).
  assert (Hap : 0 < 2 ^ k) by (apply Z.pow_pos_nonneg; lia).
  destruct (alignUp_spec (Z.max (heapEnd c r) (stackFloor c)) (2 ^ k) Hap) as [Hup Hmod].
  assert (Hbase : plannedBase c r = alignUp (Z.max (heapEnd c r) (stackFloor c)) (2 ^ k)) by (unfold plannedBase; by rewrite Ha).
  assert (Hmod' : plannedBase c r mod stack_bytes_per_fiber c = 0).
  { apply Z.mod_divide; [destruct (h_stack _ Hh) as (k' & Hk' & ->); pose proof (Z.pow_pos_nonneg 2 k'); lia|].
    etrans; [exact Hdiv|]. rewrite Ha, Hbase. apply Z.mod_divide; [lia|done]. }
  rewrite <-Hbase in Hup. clear Hbase. unfold planned.
  destruct (memory_backend c =? 1) eqn:Eb; cbn [negb orb andb] in Hp.
  - destruct (Z.leb_spec (arenaPages c r) (2 ^ 20)) as [Hpages|]; [|done]. injection Hp as <- <-.
    cbn [stack_base memory_end withLayout]. rewrite Ha. split_and!; try done; try lia.
    unfold arenaPages. pose proof (Z.div_mod (plannedEnd c r + 4095) 4096).
    pose proof (Z.mod_pos_bound (plannedEnd c r + 4095) 4096). lia.
  - injection Hp as <- <-. cbn [stack_base memory_end withLayout]. rewrite Ha.
    pose proof (Z.div_mod (plannedEnd c r + 2 ^ 22 - 1) (2 ^ 22)).
    pose proof (Z.mod_pos_bound (plannedEnd c r + 2 ^ 22 - 1) (2 ^ 22)). split_and!; try done; lia.
Qed.

(** What a host may ask of a record of [size] bytes: a complete record with a
    valid header, at least one fiber and at most the compiled ceiling, and a
    layout that ends below 4 GiB and, on the arena tier, within its pages. *)
Record acceptable (c : config) (size : Z) (r : requested) : Prop := {
  a_header : header c;
  a_complete : CONFIG_SIZE <= size;
  a_count : 1 <= req_fiber_count r <= max_fibers c;
  a_below : plannedEnd c r < 2 ^ 32;
  a_pages : memory_backend c = 1 → arenaPages c r <= 2 ^ 20;
}.

Lemma plan_acceptable c size r :
  configWidths c → requestWidths r → (∃ p, plan c size r = Ok p) ↔ acceptable c size r.
Proof.
  intros Hw Hr. pose proof Hr as [Hr1 _]. split.
  - intros [p Hp]. destruct (plan_header _ _ _ _ Hw Hp) as (Hh & Hsize & Hn0 & Hn).
    rewrite plan_spec in Hp by (done || lia).
    destruct (Z.ltb_spec (plannedEnd c r) (2 ^ 32)); [|done]. constructor; try done; [lia|]. intros Eb.
    rewrite Eb in Hp. cbn in Hp. by destruct (Z.leb_spec (arenaPages c r) (2 ^ 20)).
  - intros [Hh Hsize Hn Hend Hpages]. rewrite plan_spec by (done || lia).
    destruct (Z.ltb_spec (plannedEnd c r) (2 ^ 32)); [|lia]. simpl.
    destruct (Z.eqb_spec (memory_backend c) 1) as [Eb|]; simpl; [|by eexists].
    destruct (Z.leb_spec (arenaPages c r) (2 ^ 20)); [by eexists|]. specialize (Hpages Eb). lia.
Qed.

(** C25: the plan is exact.  It is made precisely when the record is complete
    and valid, the fiber count within the compiled ceiling and the layout
    below 4 GiB (and within the arena's page limit); then the heap ends at
    the first aligned address where the stacks start, a stack slice is
    aligned to its size, and the backend map covers all memory without a
    spare region.  Every error names its cause. *)
Theorem host_plan_exact (c : config) (size : Z) (r : requested) :
  configWidths c → requestWidths r →
  ((∃ p, plan c size r = Ok p) ↔ acceptable c size r) ∧
  (∀ c' n, plan c size r = Ok (c', n) → planned c r c' n) ∧
  (∀ e, plan c size r = Err e →
     (e = EINVAL ∧ (req_fiber_count r = 0 ∨ ¬ header c)) ∨ (e = ENOENT ∧ size < CONFIG_SIZE) ∨
     (e = E2BIG ∧ max_fibers c < req_fiber_count r) ∨
     (e = EOVERFLOW ∧ header c ∧
        (2 ^ 32 <= plannedEnd c r ∨ memory_backend c = 1 ∧ 2 ^ 20 < arenaPages c r))).
Proof.
  intros Hw Hr. split; [by apply plan_acceptable|split].
  - intros c' n. by apply plan_ok.
  - intros e Hp. pose proof Hr as [Hr1 _].
    destruct (decide (req_fiber_count r = 0)) as [E0|].
    { left. unfold plan in Hp. rewrite E0 in Hp. simpl in Hp. split; [congruence|by left]. }
    destruct (decide (size < CONFIG_SIZE)) as [Es|].
    { right; left. unfold plan in Hp. destruct (Z.eqb_spec (req_fiber_count r) 0); [done|].
      destruct (Z.ltb_spec size CONFIG_SIZE); [|lia]. split; [congruence|done]. }
    destruct (decide (max_fibers c < req_fiber_count r)) as [Em|].
    { right; right; left. unfold plan in Hp. destruct (Z.eqb_spec (req_fiber_count r) 0); [done|].
      destruct (Z.ltb_spec size CONFIG_SIZE); [lia|].
      destruct (Z.ltb_spec (max_fibers c) (req_fiber_count r)); [|lia]. split; [congruence|done]. }
    destruct (layout_header_valid c) eqn:Eh.
    + right; right; right. apply layout_header_spec in Eh; [|done]. rewrite plan_spec in Hp by (done || lia).
      destruct (Z.ltb_spec (plannedEnd c r) (2 ^ 32)); simpl in Hp; [|split_and!; [congruence|done|by left]].
      destruct (Z.eqb_spec (memory_backend c) 1); simpl in Hp; [|done].
      destruct (Z.leb_spec (arenaPages c r) (2 ^ 20)); [done|]. split_and!; [congruence|done|by right].
    + left. unfold plan in Hp. rewrite Eh in Hp. destruct (Z.eqb_spec (req_fiber_count r) 0); [done|].
      destruct (Z.ltb_spec size CONFIG_SIZE); [lia|].
      destruct (Z.ltb_spec (max_fibers c) (req_fiber_count r)); [lia|]. simpl in Hp. split; [congruence|right].
      intros Hh%layout_header_spec; [congruence|done].
Qed.

(** The object a loader gets when it applies the plan: the record with the
    window baked in, and a backend map of the planned entries. *)
Definition loadedObject (c' : config) (entries window : Z) : Fiber.object :=
  Object (max_fibers c') (memory_backend c' =? 1) (withWindow c' window) (λ k, k <? entries) 1.

(** C26: what the host plans, the object accepts: with a non-zero 4 GiB-aligned
    window, the first-entry check of an object loaded with the planned record
    and backend size passes, and the runtime serves exactly the planned
    number of fibers. *)
Theorem planned_object_runs (c c' : config) (size n window : Z) (r : requested) :
  configWidths c → requestWidths r → plan c size r = Ok (c', n) →
  0 < window < 2 ^ 64 → window mod 2 ^ 32 = 0 →
  plan_broken (loadedObject c' n window) = 0 ∧
  fiberCount (loadedObject c' n window) = req_fiber_count r.
Proof.
  intros Hw Hr Hp Hwin Halign. pose proof Hr as [Hr1 Hr2]. pose proof Hw as [Hw' _].
  repeat (apply Forall_cons in Hw' as [? Hw']). clear Hw'.
  destruct (plan_header _ _ _ _ Hw Hp) as (Hh & Hsize & Hn0 & Hn).
  destruct (plan_ok c size r c' n Hw Hr Hp) as (-> & Hheap & _ & _ & Hend & Hback).
  destruct Hh as [(k & Hk & Hs) Hf Hh Hb [Hm1 Hm2]]. pose proof (Z.pow_pos_nonneg 2 k).
  pose proof (Z.pow_le_mono_r 2 k 22). unfold heapEnd in Hheap. cbn in Hheap, Hend, Hback.
  assert (Hcount : fiberCount (loadedObject (withLayout c (req_fiber_count r) (req_heap_bytes r) (plannedBase c r)
    (plannedEnd c r)) n window) = req_fiber_count r).
  { unfold fiberCount. cbn. destruct (Z.leb_spec 1 (req_fiber_count r)); [|lia].
    destruct (Z.leb_spec (req_fiber_count r) (max_fibers c)); [done|lia]. }
  split; [|done]. unfold plan_broken. cbn [cfg loadedObject withWindow withLayout fiber_count MAX_FIBERS max_fibers
    memory_backend FEATURE_ARENA stack_bytes_per_fiber heap_base heap_bytes stack_base memory_end abi_magic
    abi_version memory_view_base direct_memory_regions heap_array host_ready].
  assert (Hendeq : plannedEnd c r = plannedBase c r + stack_bytes_per_fiber c * req_fiber_count r) by done.
  unfold u32, u64. rewrite (wrap_small 32 (heap_base c + req_heap_bytes r)) by nia.
  rewrite (wrap_small 64 (stack_bytes_per_fiber c * req_fiber_count r)) by nia.
  rewrite wrap_small by nia. rewrite Hendeq, Z.eqb_refl, Hm1, Hm2, !Z.eqb_refl.
  change (2 ^ 32 - 1) with (Z.ones 32). rewrite Z.land_ones, Halign by lia.
  destruct (Z.eqb_spec (req_fiber_count r) 0); [done|].
  destruct (Z.ltb_spec (max_fibers c) (req_fiber_count r)); [lia|].
  destruct (Z.eqb_spec (stack_bytes_per_fiber c) 0); [lia|].
  destruct (Z.ltb_spec (heap_base c + req_heap_bytes r) (heap_base c)); [lia|].
  destruct (Z.ltb_spec (plannedBase c r) (heap_base c + req_heap_bytes r)); [lia|].
  destruct (Z.eqb_spec window 0); [lia|].
  destruct Hb as [[Hb Hd]|[Hb Hd]]; rewrite Hb in *; cbn [Z.eqb negb orb]; [|done].
  cbn in Hback. change (0 =? 1) with false. cbn [negb Z.eqb orb]. unfold MEMORY_REGION_SHIFT.
  rewrite Z.shiftr_div_pow2, wrap_small by nia. rewrite <-Hendeq in *.
  assert (Hlast : (plannedEnd c r - 1) / 2 ^ 22 < direct_memory_regions c + n) by (apply Z.div_lt_upper_bound; lia).
  destruct (Z.leb_spec (direct_memory_regions c) ((plannedEnd c r - 1) / 2 ^ 22)); [|done].
  destruct (Z.ltb_spec ((plannedEnd c r - 1) / 2 ^ 22 - direct_memory_regions c) n); [done|lia].
Qed.
