(* ===== verification/HostLife.v ===== *)
(** * The lifetime of a Capsule on the host

    The address window, the all-or-nothing configuration, the lifecycle of a
    handle, the shared view and the one-time relocation. *)

From Stdlib Require Import ZArith Lia.
From stdpp Require Import base numbers list gmap sets fin_maps strings relations.
From S2P Require Import Prelude Fiber FiberProps ExpandMem ExpandMemProps Host HostProps.
Import Fiber Host.
Local Open Scope Z_scope.

Notation loadBytes := ExpandMem.loadBytes.
Notation storeBytes := ExpandMem.storeBytes.

(** ** The window *)

Definition inSpan (a : Z) (s : Z * Z) : Prop := s.1 <= a < s.1 + s.2.

Lemma trimWindow_spec raw :
  0 < raw → raw + windowReserve <= 2 ^ 64 →
  let w := alignUp raw (2 ^ 32) in
  (trimWindow raw).1 = w ∧ raw <= w < raw + 2 ^ 32 ∧ w mod 2 ^ 32 = 0 ∧
  (trimWindow raw).2 = (if w =? raw then [] else [(raw, w - raw)]) ++
    [(w + MEMORY_WINDOW_SIZE, raw + windowReserve - (w + MEMORY_WINDOW_SIZE))].
Proof.
  intros Hraw Hend w. unfold trimWindow.
  change windowReserve with (2 * 2 ^ 32 + 17825792) in *. change FUNCTION_TOKEN_SPAN with 17825792.
  change MEMORY_WINDOW_SIZE with (2 ^ 32 + 17825792).
  unfold u64. rewrite wrap_small by lia. rewrite ldiff_align by lia. fold (alignUp raw (2 ^ 32)). fold w.
  destruct (alignUp_spec raw (2 ^ 32) ltac:(lia)) as [Hup Hmod]. fold w in Hup, Hmod.
  split_and!; [done|lia|lia|done|]. simpl. f_equal.
  destruct (Z.eqb_spec (2 * 2 ^ 32 + 17825792 - (w - raw) - (2 ^ 32 + 17825792)) 0) as [E|_].
  - lia.
  - do 2 f_equal; lia.
Qed.

(** The window [bpf_capsule_configure] reserves is non-zero, 4 GiB-aligned
    and lies inside the reservation; what is unmapped again is exactly the
    rest of the reservation, so that no address is leaked or lost. *)
Theorem window_reserved (raw : Z) :
  0 < raw → raw + windowReserve <= 2 ^ 64 →
  let w := (trimWindow raw).1 in
  0 < w ∧ w mod 2 ^ 32 = 0 ∧ raw <= w ∧ w + MEMORY_WINDOW_SIZE <= raw + windowReserve ∧
  ∀ a, raw <= a < raw + windowReserve →
    (w <= a < w + MEMORY_WINDOW_SIZE ↔ ¬ ∃ s, s ∈ (trimWindow raw).2 ∧ inSpan a s).
Proof.
  intros Hraw Hend w. destruct (trimWindow_spec raw Hraw Hend) as (Hw & Hup & Hmod & Hspans).
  subst w. rewrite Hw, Hspans in *. set (w := alignUp raw (2 ^ 32)) in *.
  change windowReserve with (2 * 2 ^ 32 + 17825792) in *. change MEMORY_WINDOW_SIZE with (2 ^ 32 + 17825792).
  split_and!; [lia|done|lia|lia|]. intros a Ha. split.
  - intros Hin (s & [Hs| ->%list_elem_of_singleton]%elem_of_app & Hsp).
    + destruct (w =? raw); [by apply not_elem_of_nil in Hs|]. apply list_elem_of_singleton in Hs as ->.
      unfold inSpan in Hsp. simpl in Hsp. lia.
    + unfold inSpan in Hsp. simpl in Hsp. lia.
  - intros Hnot. destruct (decide (a < w)) as [Hlt|Hge].
    + destruct Hnot. exists (raw, w - raw). destruct (Z.eqb_spec w raw); [lia|].
      split; [by apply elem_of_app; left; left|]. unfold inSpan. simpl. lia.
    + split; [lia|]. destruct (decide (a < w + (2 ^ 32 + 17825792))) as [|Hge2]; [done|]. destruct Hnot.
      eexists. split; [apply elem_of_app; right; left|]. unfold inSpan. simpl. lia.
Qed.

Lemma window_reserved_witness :
  (trimWindow 12288).1 = 2 ^ 32 ∧ (trimWindow 12288).1 mod 2 ^ 32 = 0.
Proof.
  split; [reflexivity|]. apply (window_reserved 12288); [lia|]. vm_compute. discriminate.
Defined.

(** ** Configuration *)

Section Configure.
Context `{Calls}.

(** Setting a property back to the value it has never fails. *)
Definition restorable (m : gmap string map_props) : Prop :=
  ∀ name p, m !! name = Some p →
    set_max_entries_error name (max_entries p) = 0 ∧ set_map_extra_error name (map_extra p) = 0.

(** [m] is [m0] with the maps [names] resized to [n]. *)
Definition resized (m0 : gmap string map_props) (names : list string) (n : Z) (m : gmap string map_props) : Prop :=
  ∀ k, m !! k = if decide (k ∈ names) then (λ p, MapProps n (map_extra p)) <$> m0 !! k else m0 !! k.

(** The maps and sizes [oldEntries] recorded. *)
Definition recorded (m0 : gmap string map_props) (l : list (string * Z)) : Prop :=
  NoDup l.*1 ∧ ∀ name n, (name, n) ∈ l → ∃ p, m0 !! name = Some p ∧ n = max_entries p.

(** What a setter leaves alone. *)
Definition same_but_maps (o o' : bpf_object) : Prop :=
  config_map o' = config_map o ∧ config_fd o' = config_fd o ∧ programs o' = programs o.

Lemma tryMaxEntries_same o name n : same_but_maps o (tryMaxEntries o name n).1.
Proof. unfold tryMaxEntries. by destruct (_ =? 0). Qed.

Lemma rollback_same l o : same_but_maps o (rollback o l).
Proof.
  induction l as [|p l IH]; [done|]. destruct IH as (E1 & E2 & E3).
  destruct (tryMaxEntries_same (rollback o l) p.1 p.2) as (F1 & F2 & F3).
  change (rollback o (p :: l)) with (tryMaxEntries (rollback o l) p.1 p.2).1.
  unfold same_but_maps. by rewrite F1, F2, F3.
Qed.

Lemma oldEntries_recorded o names l :
  oldEntries o names = Some l → NoDup names → l.*1 = names ∧ recorded (maps o) l.
Proof.
  revert l. induction names as [|name names IH]; intros l Hl Hnd; simpl in Hl.
  { injection Hl as <-. split; [done|]. split; [constructor|]. by intros ? ? ?%not_elem_of_nil. }
  destruct (maps o !! name) as [p|] eqn:Ep; [|done]. apply fmap_Some in Hl as (l' & Hl' & ->).
  apply NoDup_cons in Hnd as [Hnin Hnd]. destruct (IH l' Hl' Hnd) as (Hf & Hnd' & Hrec).
  unfold recorded. rewrite !fmap_cons. cbn [fst]. rewrite Hf in *. split; [done|]. split; [by constructor|].
  intros k n [[= -> ->]|Hk]%elem_of_cons; [by exists p|by apply Hrec].
Qed.

(** Rolling back [l] restores the sizes of its maps. *)
Lemma rollback_restores m0 l names n o :
  restorable m0 → recorded m0 l → (∀ k, k ∈ l.*1 → k ∉ names) → resized m0 (l.*1 ++ names) n (maps o) →
  resized m0 names n (maps (rollback o l)).
Proof.
  intros Hres. revert names. induction l as [|[name old] l IH]; intros names [Hnd Hrec] Hdisj Hm; [done|].
  rewrite fmap_cons in Hnd, Hdisj, Hm. cbn [fst] in *. apply NoDup_cons in Hnd as [Hnin Hnd].
  destruct (Hrec name old) as (p & Hp & ->); [by left|].
  assert (Hm' : resized m0 (name :: names) n (maps (rollback o l))).
  { apply IH.
    - split; [done|]. intros k n' Hk. apply Hrec. by right.
    - intros k Hk [->|Hin]%elem_of_cons; [done|]. apply (Hdisj k); [by right|done].
    - intros k. rewrite (Hm k). simpl. f_equal. apply decide_ext. set_solver. }
  change (rollback o ((name, max_entries p) :: l)) with (tryMaxEntries (rollback o l) name (max_entries p)).1.
  unfold tryMaxEntries. destruct (Hres name p Hp) as [-> _]. cbn [fst Z.eqb]. unfold setMaxEntries. cbn [maps].
  assert (Hname : name ∉ names) by (apply Hdisj; by left).
  intros k. destruct (decide (k = name)) as [->|Hne].
  - rewrite lookup_alter_eq, (Hm' name), decide_True by (by left). rewrite decide_False by done.
    rewrite Hp. simpl. by destruct p.
  - rewrite lookup_alter_ne by done. rewrite (Hm' k). 
    destruct (decide (k ∈ names)) as [Hin|Hin].
    + by rewrite decide_True by (by right).
    + rewrite decide_False; [done|]. by intros [?|?]%elem_of_cons.
Qed.

Lemma resized_nil m0 n m : resized m0 [] n m → m = m0.
Proof. intros Hm. apply map_eq. intros k. rewrite (Hm k). by rewrite decide_False by apply not_elem_of_nil. Qed.

Lemma resized_snoc m0 names n o name :
  name ∉ names → resized m0 names n (maps o) → resized m0 (names ++ [name]) n (maps (setMaxEntries o name n)).
Proof.
  intros Hnin Hm k. simpl. destruct (decide (k = name)) as [->|Hne].
  - rewrite lookup_alter_eq, (Hm name), decide_False, decide_True by set_solver. done.
  - rewrite lookup_alter_ne, (Hm k) by done. by rewrite (decide_ext (k ∈ names) (k ∈ names ++ [name])) by set_solver.
Qed.

(** Either every fiber map is resized, or all are as before. *)
Lemma resizeAll_atomic m0 todo changed n o :
  restorable m0 → recorded m0 (changed ++ todo) → resized m0 (changed.*1) n (maps o) →
  let '(o', error) := resizeAll o todo changed n in
  same_but_maps o o' ∧
  (if error =? 0 then resized m0 ((changed ++ todo).*1) n (maps o') else maps o' = m0).
Proof.
  intros Hres. revert changed o. induction todo as [|p todo IH]; intros changed o Hrec Hm; cbn [resizeAll].
  { rewrite app_nil_r. done. }
  destruct p as [name old].
  assert (Hnd : NoDup (changed.*1 ++ name :: todo.*1)).
  { destruct Hrec as [Hnd _]. by rewrite fmap_app in Hnd. }
  unfold tryMaxEntries. destruct (Z.eqb_spec (set_max_entries_error name n) 0) as [E|E]; cbn [negb fst].
  - replace (if negb (set_max_entries_error name n =? 0) then _ else _) with
      (resizeAll (setMaxEntries o name n) todo (changed ++ [(name, old)]) n) by (by rewrite E).
    specialize (IH (changed ++ [(name, old)]) (setMaxEntries o name n)).
    destruct (resizeAll _ todo _ n) as [o' error]. rewrite <-app_assoc in IH. apply IH; [done|].
    rewrite fmap_app. apply resized_snoc; [|done].
    apply NoDup_app in Hnd as (_ & Hd & _). intros Hin. apply (Hd name Hin). by left.
  - destruct (Z.eqb_spec (set_max_entries_error name n) 0); [done|]. cbn [negb].
    split; [apply rollback_same|].
    assert (Hz : errnoOf (set_max_entries_error name n) =? 0 = false).
    { apply Z.eqb_neq. unfold errnoOf. destruct (Z.ltb_spec (set_max_entries_error name n) 0); lia. }
    rewrite Hz. apply (resized_nil _ n), rollback_restores; [done| | |by rewrite app_nil_r].
    + destruct Hrec as [_ Hrec]. split; [by apply NoDup_app in Hnd as [? _]|].
      intros k n' Hk. apply Hrec, elem_of_app. by left.
    + intros k _. apply not_elem_of_nil.
Qed.

Lemma errnoOf_nonzero e : e ≠ 0 → errnoOf e ≠ 0.
Proof. intros He. unfold errnoOf. destruct (Z.ltb_spec e 0); lia. Qed.

(** The backend is resized (and pinned, for an arena), or everything is as
    before the fiber maps were resized. *)
Lemma resizeBackend_atomic m0 o planned entries win old n p :
  restorable m0 → recorded m0 old → backendName planned ∉ old.*1 → m0 !! backendName planned = Some p →
  resized m0 old.*1 n (maps o) →
  let '(o', error) := resizeBackend o planned entries win old in
  same_but_maps o o' ∧
  (if error =? 0
   then maps o' = <[backendName planned :=
                    MapProps entries (if memory_backend planned =? MEMORY_ARENA then win else map_extra p)]> (maps o)
   else maps o' = m0).
Proof.
  intros Hres Hrec Hnin Hp Hm. set (b := backendName planned) in *.
  assert (Hb : maps o !! b = Some p) by (rewrite (Hm b), decide_False; done).
  assert (Hroll : ∀ o2, maps o2 = maps o → maps (rollback o2 old) = m0).
  { intros o2 Ho2. apply (resized_nil _ n), rollback_restores; [done|done| |].
    - intros k _. apply not_elem_of_nil.
    - by rewrite app_nil_r, Ho2. }
  assert (Hset : maps (setMaxEntries o b entries) = <[b := MapProps entries (map_extra p)]> (maps o)).
  { cbn. apply map_eq. intros k. destruct (decide (k = b)) as [->|].
    - by rewrite lookup_alter_eq, lookup_insert_eq, Hb.
    - by rewrite lookup_alter_ne, lookup_insert_ne by done. }
  unfold resizeBackend. fold b. rewrite Hb. cbn [default from_option id]. unfold tryMaxEntries at 1.
  destruct (Z.eqb_spec (set_max_entries_error b entries) 0) as [E|E].
  2: { apply Z.eqb_neq in E as E'. cbv zeta. rewrite ?E'. cbn [negb]. split; [apply rollback_same|].
       apply errnoOf_nonzero in E. apply Z.eqb_neq in E. rewrite E. by apply Hroll. }
  cbv zeta. rewrite ?E. cbn [negb Z.eqb].
  destruct (memory_backend planned =? MEMORY_ARENA) eqn:Eb; [|done].
  unfold tryMapExtra at 1. destruct (Z.eqb_spec (set_map_extra_error b win) 0) as [Ex|Ex].
  - cbv zeta. rewrite ?Ex. cbn [negb Z.eqb]. split; [done|]. cbn [maps setMapExtra]. rewrite Hset.
    apply map_eq. intros k. destruct (decide (k = b)) as [->|].
    + by rewrite lookup_alter_eq, !lookup_insert_eq.
    + by rewrite lookup_alter_ne, !lookup_insert_ne by done.
  - apply Z.eqb_neq in Ex as Ex'. cbv zeta. rewrite ?Ex'. cbn [negb].
    destruct (Hres b p Hp) as [Hr1 Hr2]. unfold tryMapExtra, tryMaxEntries. rewrite Hr1, Hr2. cbn [fst Z.eqb].
    set (o2 := setMaxEntries (setMapExtra _ _ _) _ _).
    split; [exact (rollback_same old o2)|].
    apply errnoOf_nonzero in Ex. apply Z.eqb_neq in Ex. rewrite Ex. apply Hroll. subst o2.
    cbn [maps setMaxEntries setMapExtra]. apply map_eq. intros k. destruct (decide (k = b)) as [->|].
    + rewrite !lookup_alter_eq, Hb. cbn. by destruct p.
    + by rewrite !lookup_alter_ne by done.
Qed.

Lemma fiberMapNames_NoDup c : NoDup (fiberMapNames c) ∧ backendName c ∉ fiberMapNames c.
Proof.
  unfold fiberMapNames, backendName. destruct (memory_backend c =? MEMORY_ARENA); simpl.
  - split; [repeat constructor; set_solver|set_solver].
  - split; [repeat constructor; set_solver|set_solver].
Qed.

(** What a successful configuration leaves. *)
Definition configured (h : host) (id : nat) (req : requested) (h' : host) : Prop :=
  ∃ c size planned n raw,
    config_map (object h) = Some (c, size) ∧ plan c size req = Ok (planned, n) ∧ mmap_reserve = Some raw ∧
    let win := (trimWindow raw).1 in
    config_map (object h') = Some (withWindow planned win, size) ∧
    config_fd (object h') = config_fd (object h) ∧ config_fd (object h) < 0 ∧
    handle_object h' = Some id ∧
    (∃ s, handle_state h' = Some s ∧ window s = win ∧ freplace_attached s = false ∧
          match handle_state h with
          | Some s0 => bound s = bound s0 ∧ initialized s = initialized s0 ∧ extensions s = extensions s0
          | None => bound s = None ∧ initialized s = false ∧ extensions s = 0%nat
          end) ∧
    windows h' = ({[win]} ∪ windows h) ∖ (if stateWindow (handle_state h) =? 0 then ∅ else {[stateWindow (handle_state h)]}) ∧
    (∀ name, name ∈ fiberMapNames planned → max_entries <$> maps (object h') !! name = Some (req_fiber_count req)) ∧
    max_entries <$> maps (object h') !! backendName planned = Some n ∧
    (memory_backend planned = MEMORY_ARENA → map_extra <$> maps (object h') !! backendName planned = Some win).

(** What a failed configuration leaves: everything but program flags. *)
Definition untouched (h h' : host) : Prop :=
  handle_object h' = handle_object h ∧ handle_state h' = handle_state h ∧ windows h' = windows h ∧
  maps (object h') = maps (object h) ∧ config_map (object h') = config_map (object h) ∧
  config_fd (object h') = config_fd (object h).

Lemma configure_atomic h id req h' e :
  restorable (maps (object h)) → configure h id req = (h', e) →
  if e =? 0 then configured h id req h' else untouched h h'.
Proof.
  intros Hres. unfold configure.
  destruct (match handle_object h with Some k => _ | None => _ end); [by intros [= <- <-]|].
  destruct (config_map (object h)) as [[c size]|] eqn:Ec; [|by intros [= <- <-]].
  destruct (Z.leb_spec 0 (config_fd (object h))) as [|Hfd]; [by intros [= <- <-]|].
  destruct (markPrograms (programs (object h))) as [[ps required] error] eqn:Emark.
  destruct (Z.eqb_spec error 0) as [->|He]; cbn [negb].
  2: { intros [= <- <-]. apply Z.eqb_neq in He. by rewrite He. }
  destruct (memory_view_base c =? stateWindow (handle_state h)); cbn [negb]; [|by intros [= <- <-]].
  unfold copy_plan. destruct (Z.ltb_spec size CONFIG_SIZE) as [Hs|Hs]; [by intros [= <- <-]|].
  destruct (plan c size req) as [[planned n]|ep] eqn:Ep.
  2: { intros [= <- <-]. assert (ep ≠ 0) as ->%Z.eqb_neq; [|done].
       clear -Ep. unfold plan, backendEntries in Ep. intros ->. repeat case_match; simplify_eq. }
  cbn [object setPrograms maps]. destruct (maps (object h) !! backendName planned) as [pb|] eqn:Eb; [|by intros [= <- <-]].
  destruct (oldEntries _ (fiberMapNames planned)) as [old|] eqn:Eold; [|by intros [= <- <-]].
  destruct mmap_reserve as [raw|] eqn:Eraw; [|by intros [= <- <-]].
  destruct (match handle_state h with None => negb calloc_ok | Some _ => false end); [by intros [= <- <-]|].
  set (o := setPrograms (object h) ps) in *. destruct (fiberMapNames_NoDup planned) as [Hnd Hnb].
  destruct (oldEntries_recorded o _ _ Eold Hnd) as [Hnames Hrec].
  pose proof (resizeAll_atomic (maps o) old [] (req_fiber_count req) o Hres Hrec) as Hall.
  destruct (resizeAll o old [] (req_fiber_count req)) as [o1 e1]. destruct Hall as [(Hs1 & Hs2 & Hs3) Hm1].
  { intros k. rewrite decide_False by apply not_elem_of_nil. done. }
  destruct (Z.eqb_spec e1 0) as [->|He1]; cbn [negb].
  2: { intros [= <- <-]. apply Z.eqb_neq in He1. rewrite He1 in *. unfold untouched. cbn.
       rewrite Hm1, Hs1, Hs2. by rewrite Ec. }
  cbn [Z.eqb] in Hm1. rewrite app_nil_l in Hm1.
  pose proof (resizeBackend_atomic (maps o) o1 planned n (trimWindow raw).1 old (req_fiber_count req) pb
    Hres Hrec ltac:(by rewrite Hnames) Eb Hm1) as Hbk.
  destruct (resizeBackend o1 planned n _ old) as [o2 e2]. destruct Hbk as [(Ht1 & Ht2 & Ht3) Hm2].
  destruct (Z.eqb_spec e2 0) as [->|He2]; cbn [negb].
  2: { intros [= <- <-]. apply Z.eqb_neq in He2. rewrite He2 in *. unfold untouched. cbn.
       rewrite Hm2, Ht1, Hs1, Ht2, Hs2. by rewrite Ec. }
  intros [= <- <-]. cbn [Z.eqb] in *. exists c, size, planned, n, raw. cbn [object setConfig config_map config_fd
    maps handle_object handle_state windows].
  assert (Hfib : ∀ name, name ∈ fiberMapNames planned → max_entries <$> maps o2 !! name = Some (req_fiber_count req)).
  { intros name Hin. rewrite Hm2, lookup_insert_ne by (intros <-; done). rewrite (Hm1 name), Hnames.
    rewrite decide_True by done. rewrite <-Hnames in Hin. apply list_elem_of_fmap in Hin as ([name' k] & -> & Hin).
    destruct Hrec as [_ Hrec]. destruct (Hrec _ _ Hin) as (q & Hq & _). cbn [fst]. by rewrite Hq. }
  split_and!; try done; try lia.
  - rewrite Ht2, Hs2. done.
  - destruct (handle_state h) as [s0|]; eexists; by split_and!.
  - unfold stateWindow. destruct (handle_state h) as [s0|]; done.
  - by rewrite Hm2, lookup_insert_eq.
  - intros Harena. rewrite Hm2, lookup_insert_eq. cbn. by rewrite Harena.
Qed.

(** C28: configuration is all or nothing.  If any step fails - a check, a missing
    map, the reservation, an allocation, or the resizing of any map - the
    handle, the configuration record, the size and pinning of every map and
    the reserved windows are as before; on success the record is the planned
    one with the new window baked in, every fiber map has the requested
    count, the backend its planned entries, and the old window is gone. *)
Theorem configure_transaction (h : host) (id : nat) (req : requested) (h' : host) (e : Z) :
  restorable (maps (object h)) → configure h id req = (h', e) →
  (e ≠ 0 → untouched h h') ∧ (e = 0 → configured h id req h').
Proof.
  intros Hres Hc. pose proof (configure_atomic h id req h' e Hres Hc) as Ha.
  split; intros He.
  - apply Z.eqb_neq in He. by rewrite He in Ha.
  - by subst e.
Qed.

End Configure.

(** ** The lifecycle *)


(** The image is published: its readiness word is set, or it has none (the
    arena tier publishes in the arena control word). *)
Definition marked (img : image) : Prop := ready img = NoMap ∨ ∃ r, ready img = Value r ∧ r ≠ 0.

(** A handle that owns nothing, or exactly one reserved window. *)
Record owned (h : host) (img : image) : Prop := {
  o_none : handle_state h = None → windows h = ∅;
  o_window s : handle_state h = Some s →
    is_Some (handle_object h) ∧ windows h = {[window s]} ∧ 0 < window s <= 2 ^ 64 - MEMORY_WINDOW_SIZE ∧ window s mod 2 ^ 32 = 0;
  o_record s c size : handle_state h = Some s → config_map (object h) = Some (c, size) → memory_view_base c = window s;
  o_unbound s : handle_state h = Some s → config_fd (object h) < 0 → bound s = None ∧ initialized s = false;
  o_bound s c : handle_state h = Some s → bound s = Some c →
    viewable c = true ∧ memory_view_base c = window s ∧ ∃ size, config_map (object h) = Some (c, size);
  o_initialized s : handle_state h = Some s → initialized s = true →
    is_Some (bound s) ∧ (freplace_required s = true → freplace_attached s = true) ∧ marked img;
}.


Lemma prepare_memory_bound sys bk data win l c :
  prepare_memory sys bk data win = Ok (l, c) →
  viewable c = true ∧ memory_view_base c = win ∧ ∃ size, data = Some (c, size).
Proof.
  unfold prepare_memory. intros Hp. destruct data as [[c0 size]|]; [|done].
  destruct (size <? CONFIG_SIZE); [done|]. destruct (Z.eqb_spec (memory_view_base c0) win); [|done].
  destruct (viewable c0) eqn:Ev; [|done]. cbn [negb] in Hp.
  assert (c = c0) as ->; [|by eauto].
  repeat case_match; simplify_eq; done.
Qed.





Ltac not_zero := let H := fresh in intros H; injection H as H; by vm_compute in H.

Lemma regionFds_err bk n k : regionFds bk n k ≠ Err 0.
Proof.
  revert k. induction n as [|n IH]; intros k; cbn [regionFds]; [done|].
  destruct (region_map bk k) as [[v fd]|]; [|not_zero]. destruct (negb _); [not_zero|].
  specialize (IH (k + 1)). destruct (regionFds bk n (k + 1)); congruence.
Qed.

Lemma prepare_memory_err sys bk data win : prepare_memory sys bk data win ≠ Err 0.
Proof.
  unfold prepare_memory. destruct data as [[c size]|]; [|not_zero].
  destruct (size <? CONFIG_SIZE); [not_zero|]. destruct (negb (_ =? win)); [not_zero|].
  destruct (negb (viewable c)); [not_zero|].
  destruct (memory_backend c =? MEMORY_ARENA).
  { destruct (arena_entries bk); [|not_zero]. destruct (match control_size bk with Some n => _ | None => _ end); [not_zero|].
    destruct (_ || _); [not_zero|done]. }
  destruct (_ || _); [not_zero|].
  pose proof (regionFds_err bk (Z.to_nat (direct_memory_regions c)) 0).
  destruct (regionFds bk _ 0) as [fds|e]; [|congruence].
  destruct (default _ _) as [[fd v] n]. destruct (memory_view_base c =? 0); [not_zero|].
  match goal with |- (if ?b then _ else _) ≠ _ => destruct b end; [|not_zero].
  destruct (mapRegions _ _ _ _ _ _) as [l error]. cbv zeta.
  match goal with |- context [if (?x =? 0) then Ok _ else _] => destruct (Z.eqb_spec x 0) end; [done|].
  destruct (Z.eqb_spec (restore_error sys) 0); rewrite ?andb_false_r; [congruence|].
  destruct (_ && _); congruence.
Qed.

(** What [initialize] does to the handle and the image. *)
Lemma initialize_cases run sys bk h img h' img' e :
  initialize run sys bk h img = (h', img', e) →
  (h' = h ∧ img' = img ∧ e ≠ 0) ∨
  ∃ s c ok, handle_state h = Some s ∧ is_Some (handle_object h) ∧
    h' = withState h (CapsuleState (window s) (Some c) (extensions s) (freplace_required s) (freplace_attached s)
           (ok || initialized s)) ∧
    (freplace_required s = true → freplace_attached s = true) ∧
    (bound s = Some c ∨ ∃ l, prepare_memory sys bk (config_map (object h)) (window s) = Ok (l, c)) ∧
    ((ok = true ∧ e = 0 ∧ img' = img ∧ marked img) ∨
     (ok = false ∧ e = EFAULT ∧ img' = img ∧ (ready img = NoValue ∨ fixups img = NoValue)) ∨
     (ready img = Value 0 ∧ ∃ m slots,
        (fixups img = Value slots ∨ fixups img = NoMap ∧ slots = []) ∧
        applyFixups c (memory_view_base c) slots (bytes img) = (m, e) ∧
        ok = (e =? 0) ∧ img' = Image (if ok then Value 1 else ready img) (fixups img) m)).
Proof.
  intros Hi. unfold initialize in Hi.
  destruct (handle_object h) as [k|] eqn:Eo; [|by simplify_eq; left].
  destruct (handle_state h) as [s|] eqn:Es; [|by simplify_eq; left].
  destruct (Z.eqb_spec (window s) 0); [by simplify_eq; left|].
  destruct (freplace_required s && negb (freplace_attached s)) eqn:Ef; [by simplify_eq; left|].
  assert (Hf : freplace_required s = true → freplace_attached s = true).
  { intros Hr. rewrite Hr in Ef. by destruct (freplace_attached s). }
  cbv zeta in Hi. match type of Hi with (if negb (?x =? 0) then _ else _) = _ => destruct (Z.eqb_spec x 0) end;
    cbn [negb] in Hi; [|by simplify_eq; left].
  pose proof (prepare_memory_err sys bk (config_map (object h)) (window s)) as Hpe.
  destruct (match bound s with Some c => Ok c | None => _ end) as [c|ep] eqn:Ep.
  2: { simplify_eq. left. split_and!; [done|done|]. intros ->. destruct (bound s); [done|].
       destruct (prepare_memory _ _ _ _) as [[l c]|]; congruence. }
  right. assert (Hb : bound s = Some c ∨ ∃ l, prepare_memory sys bk (config_map (object h)) (window s) = Ok (l, c)).
  { destruct (bound s); [left; congruence|]. right. destruct (prepare_memory _ _ _ _) as [[l c']|]; simplify_eq. by exists l. }
  unfold marked. destruct (ready img) as [| |r] eqn:Er.
  - simplify_eq. exists s, c, true. split_and!; try done. left. split_and!; try done. by left.
  - simplify_eq. exists s, c, false. split_and!; try done. right; left. split_and!; try done. by left.
  - destruct (Z.eqb_spec r 0) as [->|Hr]; cbn [negb] in Hi.
    2: { simplify_eq. exists s, c, true. split_and!; try done. left. split_and!; try done. right. by exists r. }
    destruct (fixups img) as [| |slots] eqn:Ex.
    + simplify_eq. exists s, c, true. split_and!; try done. right; right. split; [done|].
      exists (bytes img), []. split_and!; try done. by right.
    + simplify_eq. exists s, c, false. split_and!; try done. right; left. split_and!; try done. by right.
    + destruct (applyFixups c _ _ _) as [m error] eqn:Ea. exists s, c, (error =? 0).
      destruct (Z.eqb_spec error 0) as [->|He]; cbn [negb] in Hi; simplify_eq/=.
      * split_and!; try done. right; right. split; [done|]. exists m, slots. split_and!; try done. by left.
      * split_and!; try done. right; right. split; [done|]. exists m, slots. rewrite ?Er.
        apply Z.eqb_neq in He. rewrite ?He. split_and!; try done. by left.
Qed.











(** A release that fails to unmap leaves an inconsistent handle: the
    replacement programs are gone while the handle still says that it has
    them, so that they cannot be attached again and initialisation does not
    miss them. *)
Lemma release_failure_detaches munmap h s k load n run sys bk img :
  handle_object h = Some k → handle_state h = Some s → window s ≠ 0 → munmap ≠ 0 →
  freplace_required s = true → freplace_attached s = true →
  ∃ s', handle_state (release munmap h).1 = Some s' ∧ extensions s' = 0%nat ∧ initialized s' = initialized s ∧
    (n ≠ 0 → (attach_freplace load (release munmap h).1 n).2 = EBUSY ∨
             (attach_freplace load (release munmap h).1 n).2 = EALREADY) ∧
    (initialize run sys bk (release munmap h).1 img).2 = (initialize run sys bk h img).2.
Proof.
  intros Ho Hs Hw Hm Hreq Hatt. unfold release. rewrite Hs. apply Z.eqb_neq in Hw as Ew. apply Z.eqb_neq in Hm as Em.
  rewrite Ew, Em. cbn [negb andb fst]. eexists. split; [done|]. cbn [extensions initialized]. split_and!; [done|done| |].
  - intros Hn. apply Z.eqb_neq in Hn. unfold attach_freplace. cbn [withState handle_object handle_state bound freplace_required
      freplace_attached]. rewrite Ho, Hn, Hreq, Hatt. cbn [negb].
    destruct (bool_decide (is_Some (bound s))); [by left|by right].
  - unfold initialize. cbn [withState handle_object handle_state object]. rewrite Ho, Hs.
    cbn [window bound freplace_required freplace_attached]. rewrite Ew, Hreq, Hatt. cbn [negb andb]. cbv zeta.
    match goal with |- context [if negb (?x =? 0) then _ else _] => destruct (negb (x =? 0)); [done|] end.
    match goal with |- context [match ?x with Ok c => _ | Err e => (h, img, e) end] => destruct x as [c|e] end; [|done].
    repeat case_match; done.
Qed.

(** ** Relocation *)

(** Slots of eight bytes that do not overlap. *)
Definition disjointSlots (slots : list Z) : Prop :=
  NoDup slots ∧ ∀ a b, a ∈ slots → b ∈ slots → a ≠ b → a + 8 <= b ∨ b + 8 <= a.

Lemma loadBytes_value n m p v :
  in_space p (Z.of_nat n) → (∀ k, 0 <= k < Z.of_nat n → m (p + k) = byte_of v k) →
  loadBytes m p n = v mod 256 ^ Z.of_nat n.
Proof.
  revert p v. induction n as [|n IH]; intros p v [Hp Hn] Hb; cbn [loadBytes].
  { by rewrite Z.mod_1_r. }
  unfold u64. rewrite wrap_small by lia.
  rewrite (IH (p + 1) (v / 256)).
  - rewrite <-(Z.add_0_r p), Hb, byte_of_0 by lia. rewrite Nat2Z.inj_succ, Z.pow_succ_r by lia.
    rewrite Z.rem_mul_r; [done|lia|]. apply Z.pow_pos_nonneg; lia.
  - split; lia.
  - intros k Hk. rewrite <-byte_of_S by lia. rewrite <-Hb by lia. f_equal. lia.
Qed.

Lemma loadBytes_ext n m m' p :
  in_space p (Z.of_nat n) → (∀ a, p <= a < p + Z.of_nat n → m' a = m a) → loadBytes m' p n = loadBytes m p n.
Proof.
  revert p. induction n as [|n IH]; intros p [Hp Hn] Hb; cbn [loadBytes]; [done|].
  unfold u64. rewrite wrap_small by lia. rewrite Hb by lia. rewrite IH; [done|split; lia|].
  intros a Ha. apply Hb. lia.
Qed.

(** The word at a slot after it is relocated, and everything else. *)
Lemma relocate_spec win slot m :
  in_space (win + slot) 8 →
  loadBytes (relocate win slot m) (win + slot) 8 = u64 (loadBytes m (win + slot) 8 + win) ∧
  ∀ a, ¬ (win + slot <= a < win + slot + 8) → relocate win slot m a = m a.
Proof.
  intros Hs. unfold relocate, WORD. set (v := u64 _). assert (Hv : 0 <= v < 2 ^ 64) by (by apply wrap_range).
  clearbody v. split.
  - rewrite (loadBytes_value _ _ _ v); [by apply Z.mod_small|done|].
    intros k Hk. rewrite storeBytes_spec by done. 
    destruct (Z.leb_spec (win + slot) (win + slot + k)); [|lia].
    destruct (Z.ltb_spec (win + slot + k) (win + slot + Z.of_nat 8)); [|lia]. cbn [andb]. f_equal. lia.
  - intros a Ha. rewrite storeBytes_spec by done.
    destruct (Z.leb_spec (win + slot) a), (Z.ltb_spec a (win + slot + Z.of_nat 8)); cbn [andb]; try done; lia.
Qed.

Lemma applyFixups_spec c win slots m m' :
  0 <= win → win + heap_base c <= 2 ^ 64 → disjointSlots slots → applyFixups c win slots m = (m', 0) →
  (∀ slot, slot ∈ slots → 4096 <= slot <= heap_base c - 8 ∧
     loadBytes m' (win + slot) 8 = u64 (loadBytes m (win + slot) 8 + win)) ∧
  (∀ a, (∀ slot, slot ∈ slots → ¬ (win + slot <= a < win + slot + 8)) → m' a = m a).
Proof.
  intros Hwin Hfit. revert m. induction slots as [|slot slots IH]; intros m [Hnd Hdis] Ha; cbn [applyFixups] in Ha.
  { simplify_eq. split; [by intros ? ?%not_elem_of_nil|done]. }
  change ARENA_PAGE_SIZE with 4096 in Ha.
  destruct (Z.ltb_spec slot 4096); [done|]. destruct (Z.ltb_spec (heap_base c - 8) slot); [done|]. cbn [orb] in Ha.
  apply NoDup_cons in Hnd as [Hnin Hnd].
  destruct (IH (relocate win slot m)) as [Hin Hout].
  { split; [done|]. intros a b Ha' Hb. apply Hdis; by right. } { done. }
  destruct (relocate_spec win slot m) as [Hload Hkeep]; [split; lia|].
  assert (Hfar : ∀ s, s ∈ slots → s + 8 <= slot ∨ slot + 8 <= s).
  { intros s Hs. apply Hdis; [by right|by left|]. by intros ->. }
  split.
  - intros s [->|Hs]%elem_of_cons.
    + split; [lia|]. rewrite <-Hload. apply (loadBytes_ext 8); [split; lia|]. intros a Ha'. apply Hout.
      intros s Hs. specialize (Hfar s Hs). lia.
    + destruct (Hin s Hs) as [Hr ->]. split; [done|]. do 2 f_equal. apply (loadBytes_ext 8); [split; lia|].
      intros a Ha'. apply Hkeep. specialize (Hfar s Hs). lia.
  - intros a Hno. rewrite Hout; [apply Hkeep, Hno; by left|]. intros s Hs. apply Hno. by right.
Qed.

(** A fixed-tier image is relocated exactly once.  A successful first
    initialisation adds the window to every word of the fixup table, leaves
    every other byte alone and publishes readiness; every later call, with
    whatever outcome, leaves the image as it is. *)
Theorem initialize_relocates (run : option (Z * Z * Z)) (sys : view_calls) (bk : backing) (h h' : host)
    (img img' : image) (slots : list Z) (s : capsule_state) :
  owned h img → handle_state h = Some s → ready img = Value 0 → fixups img = Value slots → disjointSlots slots →
  initialize run sys bk h img = (h', img', 0) →
  ready img' = Value 1 ∧
  (∀ slot, slot ∈ slots → loadBytes (bytes img') (window s + slot) 8 =
     u64 (loadBytes (bytes img) (window s + slot) 8 + window s)) ∧
  (∀ a, (∀ slot, slot ∈ slots → ¬ (window s + slot <= a < window s + slot + 8)) → bytes img' a = bytes img a) ∧
  (∀ run2 sys2 bk2 h2 img2 e2, initialize run2 sys2 bk2 h' img' = (h2, img2, e2) → img2 = img').
Proof.
  intros Ho Hs Hr Hfix Hdis Hi.
  destruct (initialize_cases _ _ _ _ _ _ _ _ Hi) as [(_ & _ & ?)|(s' & c & ok & Es & _ & -> & _ & Hb & Hcase)]; [done|].
  assert (s' = s) as -> by congruence. destruct (o_window _ _ Ho s Hs) as (_ & _ & Hwin & _).
  destruct Hcase as [(_ & _ & _ & [?|(r & Hr1 & Hr2)])|[(_ & ? & _ & _)|(_ & m & sl & Hsl & Ha & -> & ->)]]; [congruence|congruence|done|].
  assert (sl = slots) as -> by (destruct Hsl as [?|[? _]]; congruence). cbn [Z.eqb] in *.
  assert (Hview : viewable c = true ∧ memory_view_base c = window s ∧ ∃ size, config_map (object h) = Some (c, size)).
  { destruct Hb as [Hb|(l & Hp)]; [by apply (o_bound _ _ Ho s)|by eapply prepare_memory_bound]. }
  destruct Hview as (Hview & Hbase & _). rewrite Hbase in Ha.
  assert (Hheap : heap_base c <= 2 ^ 32 - 1).
  { unfold viewable, layout_header_valid in Hview. repeat (apply andb_true_iff in Hview as [Hview ?]). bool_to_prop. lia. }
  change MEMORY_WINDOW_SIZE with (2 ^ 32 + 17825792) in Hwin.
  destruct (applyFixups_spec c (window s) slots (bytes img) m) as [Hin Hout]; [lia|lia|done|done|].
  split_and!; [done|intros slot Hslot; by apply Hin|done|].
  intros run2 sys2 bk2 h2 img2 e2 Hi2. apply initialize_cases in Hi2.
  by destruct Hi2 as [(_ & -> & _)|(? & ? & ? & _ & _ & _ & _ & _ & [(_ & _ & -> & _)|[(_ & _ & -> & _)|(Hr1 & _)]])].
Qed.

(** ** The shared view *)

(** The backing of region [r]: a direct map, or a slot of the overflow map. *)
Definition backingOf (fds : list Z) (overflow_fd r : Z) : Z * Z :=
  if r <? Z.of_nat (length fds) then (default (-1) (fds !! Z.to_nat r), 0)
  else (overflow_fd, (r - Z.of_nat (length fds)) * MEMORY_REGION_SIZE).

Lemma mapRegions_lookup sys base fds ofd n k l i :
  mapRegions sys base fds ofd n k = (l, 0) → (i < n)%nat →
  let r := k + Z.of_nat i in
  l !! i = Some (Mapping (base + r * MEMORY_REGION_SIZE) (backingOf fds ofd r).1 (backingOf fds ofd r).2).
Proof.
  revert k l i. induction n as [|n IH]; intros k l i Hm Hi; [lia|]. cbn [mapRegions] in Hm. cbv zeta in Hm.
  set (mp := Mapping _ _ _) in Hm.
  assert (Hmp : mp = Mapping (base + k * MEMORY_REGION_SIZE) (backingOf fds ofd k).1 (backingOf fds ofd k).2).
  { subst mp. unfold backingOf. by destruct (k <? Z.of_nat (length fds)). }
  match type of Hm with (if ?b then _ else _) = _ => destruct b end; [by injection Hm as _ Hm|].
  destruct (Z.eqb_spec (mmap_error sys mp) 0) as [_|He]; [|injection Hm as _ Hm; congruence].
  destruct (mapRegions sys base fds ofd n (k + 1)) as [l' error] eqn:Er. injection Hm as <- ->.
  destruct i as [|i].
  - cbn. rewrite Z.add_0_r. by rewrite Hmp.
  - change ((mp :: l') !! S i) with (l' !! i). rewrite (IH _ _ i Er) by lia. cbv zeta. replace (k + 1 + Z.of_nat i) with (k + Z.of_nat (S i)) by lia. done.
Qed.

Lemma mapRegions_length sys base fds ofd n k l : mapRegions sys base fds ofd n k = (l, 0) → length l = n.
Proof.
  revert k l. induction n as [|n IH]; intros k l Hm; cbn [mapRegions] in Hm; [by injection Hm as <-|].
  cbv zeta in Hm. set (mp := Mapping _ _ _) in Hm.
  match type of Hm with (if ?b then _ else _) = _ => destruct b end; [by injection Hm as _ Hm|].
  destruct (Z.eqb_spec (mmap_error sys mp) 0) as [_|He]; [|injection Hm as _ Hm; congruence].
  destruct (mapRegions sys base fds ofd n (k + 1)) as [l' error] eqn:Er. injection Hm as <- ->.
  cbn. by rewrite (IH _ _ Er).
Qed.

Lemma regionFds_ok bk n k fds :
  regionFds bk n k = Ok fds →
  length fds = n ∧ ∀ i, (i < n)%nat → ∃ fd, fds !! i = Some fd ∧ region_map bk (k + Z.of_nat i) = Some (MEMORY_REGION_SIZE, fd).
Proof.
  revert k fds. induction n as [|n IH]; intros k fds Hr; cbn [regionFds] in Hr.
  { injection Hr as <-. split; [done|lia]. }
  destruct (region_map bk k) as [[v fd]|] eqn:Ek; [|done].
  destruct (Z.eqb_spec v MEMORY_REGION_SIZE) as [->|]; cbn [negb] in Hr; [|done].
  destruct (regionFds bk n (k + 1)) as [l|] eqn:El; [|done]. injection Hr as <-.
  destruct (IH _ _ El) as [Hlen Hl]. split; [by rewrite <-Hlen|]. intros [|i] Hi; cbn.
  - exists fd. by rewrite Z.add_0_r.
  - replace (k + Z.of_nat (S i)) with (k + 1 + Z.of_nat i) by lia. apply Hl. lia.
Qed.

(** What the view shows of region [r]. *)
Definition shows (bk : backing) (c : config) (r : Z) (mp : mapping) : Prop :=
  map_address mp = memory_view_base c + r * MEMORY_REGION_SIZE ∧
  if r <? direct_memory_regions c
  then region_map bk r = Some (MEMORY_REGION_SIZE, map_fd mp) ∧ map_offset mp = 0
  else ∃ entries, overflow_map bk = Some (map_fd mp, MEMORY_REGION_SIZE, entries) ∧
         map_offset mp = (r - direct_memory_regions c) * MEMORY_REGION_SIZE ∧
         r - direct_memory_regions c < entries.

(** The view is the guest's memory.  When the fixed tier's memory is
    prepared, region [r] of the window maps the object's own region [r] - the
    direct map, or its slot of the overflow map - at the window base plus
    [r] regions, once per region, and every displacement below the end of
    memory lies in the mapping of its region. *)
Theorem view_is_memory (sys : view_calls) (bk : backing) (data : option (config * Z)) (win : Z)
    (l : list mapping) (c : config) :
  prepare_memory sys bk data win = Ok (l, c) → memory_backend c = MEMORY_FIXED → 0 <= direct_memory_regions c →
  (∀ i mp, l !! i = Some mp → shows bk c (Z.of_nat i) mp) ∧
  (∀ d, 0 <= d < memory_end c → ∃ mp, l !! Z.to_nat (d / MEMORY_REGION_SIZE) = Some mp ∧
     map_address mp <= memory_view_base c + d < map_address mp + MEMORY_REGION_SIZE) ∧
  Z.of_nat (length l) * MEMORY_REGION_SIZE <= 2 ^ 32.
Proof.
  intros Hp Hback Hdir. destruct (prepare_memory_bound _ _ _ _ _ _ Hp) as (Hview & Hbase & size & ->).
  unfold prepare_memory in Hp. destruct (size <? CONFIG_SIZE); [done|].
  rewrite Hbase, Z.eqb_refl, Hview, Hback in Hp. cbn [negb MEMORY_FIXED MEMORY_ARENA Z.eqb orb] in Hp.
  destruct (bool_decide _); [done|].
  destruct (regionFds bk (Z.to_nat (direct_memory_regions c)) 0) as [fds|] eqn:Ef; [|done].
  destruct (regionFds_ok _ _ _ _ Ef) as [Hlen Hfds].
  destruct (default (-1, 0, 0) (overflow_map bk)) as [[ofd v] n] eqn:Eo.
  destruct (win =? 0); [done|].
  match type of Hp with (if ?b then _ else _) = _ => destruct b eqn:Eu end; [|done].
  repeat (apply andb_true_iff in Eu as [Eu ?]). bool_to_prop. subst v.
  destruct (mapRegions sys win fds ofd (Z.to_nat (direct_memory_regions c + n)) 0) as [l' error] eqn:Em.
  cbv zeta in Hp. destruct (Z.eqb_spec error 0) as [->|He].
  2: { apply Z.eqb_neq in He. rewrite He in Hp. by destruct (_ && _). }
  destruct (mprotect_error sys =? 0); [|by destruct (_ && _)]. injection Hp as ->.
  pose proof (mapRegions_length _ _ _ _ _ _ _ Em) as Hl. change MEMORY_REGION_SIZE with (2 ^ 22) in *.
  assert (Hov : overflow_map bk = Some (ofd, 2 ^ 22, n)).
  { destruct (overflow_map bk) as [[[? ?] ?]|]; cbn in Eo; by simplify_eq. }
  assert (Hmap : ∀ i mp, l !! i = Some mp → shows bk c (Z.of_nat i) mp).
  { intros i mp Hi. assert (Hlt : (i < Z.to_nat (direct_memory_regions c + n))%nat) by (rewrite <-Hl; by eapply lookup_lt_Some).
    rewrite (mapRegions_lookup _ _ _ _ _ _ _ i Em Hlt) in Hi. injection Hi as <-. unfold shows, backingOf.
    cbn [map_address map_fd map_offset]. change MEMORY_REGION_SIZE with (2 ^ 22). rewrite Hlen, Z2Nat.id by lia.
    rewrite Z.add_0_l, Hbase. split; [done|].
    destruct (Z.ltb_spec (Z.of_nat i) (direct_memory_regions c)); cbn [fst snd].
    - destruct (Hfds i) as (fd & Hfd & Hreg); [lia|]. rewrite Nat2Z.id, Hfd. rewrite Z.add_0_l in Hreg. done.
    - exists n. split_and!; [done|done|lia]. }
  split; [done|]. split.
  - intros d Hd. pose proof (Z.div_mod d (2 ^ 22)). pose proof (Z.mod_pos_bound d (2 ^ 22)).
    assert (Hr : 0 <= d / 2 ^ 22 < direct_memory_regions c + n).
    { split; [apply Z.div_pos; lia|]. apply Z.div_lt_upper_bound; lia. }
    destruct (lookup_lt_is_Some_2 l (Z.to_nat (d / 2 ^ 22))) as [mp Hmp]; [rewrite Hl; lia|].
    exists mp. split; [done|]. destruct (Hmap _ _ Hmp) as [-> _]. change MEMORY_REGION_SIZE with (2 ^ 22).
    rewrite Z2Nat.id by lia. lia.
  - rewrite Hl. destruct (Z.leb_spec 0 (direct_memory_regions c + n)).
    + rewrite Z2Nat.id by done. change (2 ^ 32 / 2 ^ 22) with 1024 in *. lia.
    + rewrite Z2Nat.nonpos by lia. lia.
Qed.
