(* ===== verification/HostAlloc.v ===== *)
(** * Host allocation requests against the guest runtime

    [alloc_run] drives the guest's allocator program through the boundary of
    [Fiber]; together they never leak a fiber. *)

From Stdlib Require Import ZArith Lia.
From stdpp Require Import base numbers list gmap sets fin_maps strings.
From S2P Require Import Prelude Fiber FiberFacts FiberPool FiberProps Host.
Import Fiber Host.
Local Open Scope Z_scope.

Section Alloc.
Context `{BpfMapsLaws} {M : Type} `{!Generated M} `{!GeneratedLaws M} (obj : Fiber.object).
Hypothesis limit : 1 <= MAX_FIBERS obj <= MAX_FIBERS_LIMIT.
Context (cpu : Z) (guest_error : M → Z).
Hypothesis cpu_ok : 0 <= cpu.

Notation world := (world M).
Notation count := (fiberCount obj).

(** One test run of the allocator program.  The kernel may refuse to run it:
    the list holds the error of each coming run, [0] or missing for none. *)
Definition testRun (s : world * list Z) (q : alloc_request) : (world * list Z) * alloc_request * Z * Z :=
  let '(w, errors) := s in
  let error := hd 0 errors in
  if negb (error =? 0) then ((w, tl errors), q, error, 0)
  else
    match alloc_program obj w cpu (operation q) (r_continuation (answer q)) with
    | (w, ret, Some (r, copied)) =>
        ((w, tl errors), AllocRequest (operation q) r (if copied then guest_error (memory w) else out_error q), 0, ret)
    | (w, ret, None) => ((w, tl errors), q, 0, ret)
    end.

(** The kernel refuses at most one of the runs. *)
Definition failures (errors : list Z) : nat := length (filter (λ e, e ≠ 0) errors).

(** The request holds the lease of one more fiber. *)
Definition holding (A : gmap Z Z) (w : world) (q : alloc_request) : Prop :=
  ∃ f g G, 0 <= f < count ∧ 1 <= g < 2 ^ 48 ∧ A !! f = None ∧ implements obj w (<[f := g]> A) G ∧
    r_continuation (answer q) = continuation_value f g.

Lemma holding_token (A : gmap Z Z) f g :
  0 <= f < count → 1 <= g < 2 ^ 48 → A !! f = None →
  let t := continuation_value f g in
  0 <= t < 2 ^ 64 ∧ t ≠ NO_CONTINUATION ∧ malformed obj t = false ∧ tokenFiber t = f ∧ tokenGeneration t = g ∧
  delete (tokenFiber t) (<[f := g]> A) = A ∧ ∀ x, <[tokenFiber t := x]> (<[f := g]> A) = <[f := x]> A.
Proof.
  intros Hf Hg HA t. pose proof (count_range obj limit). unfold MAX_FIBERS_LIMIT in limit.
  destruct (token_value obj limit f g Hf ltac:(lia)) as (Ht1 & Ht2 & Ht3). fold t in Ht1, Ht2, Ht3.
  assert (Ht : t = g * 2 ^ 16 + f) by (apply continuation_value_spec; lia).
  split_and!; [lia|lia|done| |done|done| |].
  - unfold malformed. rewrite Ht1, Ht2. destruct (Z.eqb_spec g 0); [lia|]. destruct (Z.leb_spec count f); [lia|done].
  - rewrite Ht1, delete_insert_eq. by apply delete_id.
  - intros x. by rewrite Ht1, insert_insert_eq.
Qed.

(** An answered request: settled with the old leases, or still holding. *)
Definition answered (A : gmap Z Z) (w : world) (r : capsule_result) : Prop :=
  (∃ G, implements obj w A G ∧ r_continuation r = NO_CONTINUATION ∧
     (r_status r = CAPSULE_OK ∨ r_status r = CAPSULE_EXITED)) ∨
  (∃ f g G, 0 <= f < count ∧ 1 <= g < 2 ^ 48 ∧ A !! f = None ∧ implements obj w (<[f := g]> A) G ∧
     r_continuation r = continuation_value f g ∧ (r_status r = CAPSULE_PENDING ∨ r_status r = CAPSULE_YIELD)).

Lemma begin_answered (w : world) A G ctx :
  implements obj w A G → answered A (serve obj w (Begin cpu ctx)).1 (serve obj w (Begin cpu ctx)).2.
Proof.
  intros Himp. destruct (serve_refines obj limit w A G (Begin cpu ctx) cpu_ok Himp) as (A' & G' & Hb & Himp').
  destruct (serve obj w (Begin cpu ctx)) as [w' r]. cbn [fst snd] in *.
  inversion Hb as [| |? ? f k st ? Hf HA Hend|? ? f st ? Hf HA Hst|? ? Hq|? ? Hq|? ? ? ? Hq|? ? ? Hq]; subst; try done.
  - left. exists G'. by split_and!; [..|right].
  - left. exists G'. by split_and!; [..|right].
  - left. eexists. split_and!; [done|done|]. destruct Hend as [[-> _]|[-> _]]; [by left|by right].
  - right. exists f, (next_generation (G f)). eexists.
    pose proof (next_generation_range (G f)). split_and!; try done; try lia. 
Qed.

Lemma continue_answered (w : world) A f g G q :
  0 <= f < count → 1 <= g < 2 ^ 48 → A !! f = None → implements obj w (<[f := g]> A) G →
  q = Continue ALLOC_OUTPUT_SIZE (continuation_value f g) ∨ q = Reset (continuation_value f g) →
  answered A (serve obj w q).1 (serve obj w q).2 ∧
  (q = Reset (continuation_value f g) → ∃ G', implements obj (serve obj w q).1 A G').
Proof.
  intros Hf Hg HA Himp Hq. destruct (holding_token A f g Hf Hg HA) as (Hr & Hno & Hm & Ht1 & Ht2 & Hdel & Hins).
  remember (continuation_value f g) as t eqn:Et. clear Et.
  assert (Hv : validRequest q) by (destruct Hq as [-> | ->]; exact Hr).
  assert (Htok : tokenOf q = Some t) by (by destruct Hq as [-> | ->]).
  destruct (serve_refines obj limit w _ G q Hv Himp) as (A' & G' & Hb & Himp').
  destruct (serve obj w q) as [w' r]. cbn [fst snd] in *.
  inversion Hb as [| | | |? t' Htk Hmal|? t' Htk Hmal Hst|? t' k st Htk Hmal HA1 Hk|? t' st Htk Hres Hmal HA1 Hst];
    subst; try (destruct Hq; congruence); try (by destruct Hq); assert (t' = t) as -> by congruence.
  - by rewrite lookup_insert_eq in Hst.
  - rewrite Hdel in Himp'. split; [|by eauto]. left. eexists. split_and!; [done|done|].
    destruct Hk as [[[-> _]|[-> _]]|(_ & -> & _)]; [by left|by right|by right].
  - split; [|by intros ->]. right. rewrite Hins in Himp'.
    pose proof (next_generation_range (G (tokenFiber t))).
    exists (tokenFiber t), (next_generation (G (tokenFiber t))). eexists. split_and!; try done; lia.
Qed.

(** What one test run does to a request in progress. *)
Lemma testRun_runs (w : world) errors q q0 :
  hd 0 errors = 0 → allocRequest cpu (operation q) (r_continuation (answer q)) = Some q0 →
  ∃ out, testRun (w, errors) q =
    (((serve obj w q0).1, tl errors), AllocRequest (operation q) (serve obj w q0).2 out, 0, 0).
Proof.
  intros He Hq. unfold testRun, alloc_program. rewrite He, Hq. cbn [Z.eqb negb].
  destruct (serve obj w q0) as [w' r]. by eexists.
Qed.

Lemma failures_tl errors : (failures (tl errors) <= failures errors)%nat.
Proof. destruct errors as [|e errors]; [done|]. unfold failures. simpl. rewrite filter_cons. case_decide; simpl; lia. Qed.

Lemma failures_hd errors : hd 0 errors ≠ 0 → failures errors = S (failures (tl errors)).
Proof. destruct errors as [|e errors]; [done|]. intros He. unfold failures. cbn [hd tl] in *. by rewrite filter_cons_True by done. Qed.

Lemma failures_zero errors : failures errors = 0%nat → hd 0 errors = 0.
Proof.
  destruct errors as [|e errors]; [done|]. unfold failures. rewrite filter_cons. simpl.
  case_decide as He; simpl; [lia|]. intros _. simpl. destruct (decide (e = 0)); [done|by destruct He].
Qed.

(** The loop of a request that holds a fiber. *)
Lemma alloc_run_holding fuel (w : world) errors q A :
  (failures errors <= 1)%nat → operation q = ALLOC_CONTINUE → holding A w q →
  let '((w', _), q', e) := alloc_run testRun fuel (w, errors) q in
  match e with
  | Some _ => ∃ G', implements obj w' A G'
  | None => holding A w' q'
  end.
Proof.
  revert w errors q. induction fuel as [|fuel IH]; intros w errors q Hfail Hop Hhold; [done|].
  cbn [alloc_run]. destruct Hhold as (f & g & G & Hf & Hg & HA & Himp & Hc).
  destruct (holding_token A f g Hf Hg HA) as (_ & Hno & _).
  destruct (decide (hd 0 errors = 0)) as [He|He].
  - destruct (testRun_runs w errors q (Continue ALLOC_OUTPUT_SIZE (continuation_value f g)) He) as [out ->];
      [by rewrite Hop, Hc|].
    destruct (continue_answered w A f g G _ Hf Hg HA Himp (or_introl eq_refl)) as [Hans _].
    destruct (serve obj w _) as [w' r]. cbn [fst snd answer negb Z.eqb orb Z.ltb Z.compare] in *.
    destruct Hans as [(G' & Himp' & Hc' & Hst)|(f' & g' & G' & Hf' & Hg' & HA' & Himp' & Hc' & Hst)].
    + destruct Hst as [-> | ->]; cbn; eauto.
    + assert (Hloop : ∀ q', r_continuation (answer q') = continuation_value f' g' → operation q' = ALLOC_CONTINUE →
        let '((w'', _), q'', e) := alloc_run testRun fuel (w', tl errors) q' in
        match e with Some _ => ∃ G', implements obj w'' A G' | None => holding A w'' q'' end).
      { intros q' Hq' Hop'. apply IH; [pose proof (failures_tl errors); lia|done|].
        exists f', g', G'. split_and!; (done || lia). }
      destruct Hst as [-> | ->]; cbn [CAPSULE_PENDING CAPSULE_YIELD CAPSULE_OK Z.eqb Pos.eqb orb]; by apply Hloop.
  - assert (Hrun : testRun (w, errors) q = ((w, tl errors), q, hd 0 errors, 0)).
    { unfold testRun. apply Z.eqb_neq in He. by rewrite He. }
    rewrite Hrun. apply Z.eqb_neq in He as He'. rewrite He'. cbn [negb orb].
    rewrite Hc. apply Z.eqb_neq in Hno. rewrite Hno. cbn [negb].
    rewrite failures_hd in Hfail by done.
    destruct (testRun_runs w (tl errors) (setOperation q ALLOC_RESET) (Reset (continuation_value f g))) as [out ->];
      [apply failures_zero; lia|cbn; by rewrite Hc|].
    destruct (continue_answered w A f g G _ Hf Hg HA Himp (or_intror eq_refl)) as [_ Hres].
    destruct (serve obj w _) as [w' r]. cbn [fst snd] in *. by apply Hres.
Qed.

(** C32: host allocation never leaks a fiber.  A malloc or free request driven
    to its end - through any number of continuations, with the result
    delivered, the guest exited, the pool exhausted or a test run refused by
    the kernel, in which case the held fiber is reset - leaves exactly the
    leases there were before; while it is still running it holds exactly one
    more fiber, whose continuation is in the request. *)
Theorem host_alloc_no_leak (fuel : nat) (w : world) (errors : list Z) (op : Z) (A : gmap Z Z) (G : Z → Z) :
  (failures errors <= 1)%nat → op = ALLOC_MALLOC ∨ op = ALLOC_FREE → implements obj w A G →
  let '((w', _), q', e) := alloc_run testRun (S fuel) (w, errors) (allocStart op) in
  match e with
  | Some _ => ∃ G', implements obj w' A G'
  | None => holding A w' q'
  end.
Proof.
  intros Hfail Hop Himp. cbn [alloc_run]. destruct (decide (hd 0 errors = 0)) as [He|He].
  - destruct (testRun_runs w errors (allocStart op) (Begin cpu None) He) as [out ->];
      [by destruct Hop as [-> | ->]|].
    pose proof (begin_answered w A G None Himp) as Hans.
    destruct (serve obj w (Begin cpu None)) as [w' r]. cbn [fst snd answer negb Z.eqb orb Z.ltb Z.compare] in *.
    destruct Hans as [(G' & Himp' & Hc' & Hst)|(f' & g' & G' & Hf' & Hg' & HA' & Himp' & Hc' & Hst)].
    + destruct Hst as [-> | ->]; cbn; eauto.
    + assert (Hloop : ∀ q', r_continuation (answer q') = continuation_value f' g' → operation q' = ALLOC_CONTINUE →
        let '((w'', _), q'', e) := alloc_run testRun fuel (w', tl errors) q' in
        match e with Some _ => ∃ G', implements obj w'' A G' | None => holding A w'' q'' end).
      { intros q' Hq' Hop'. apply alloc_run_holding; [pose proof (failures_tl errors); lia|done|].
        exists f', g', G'. split_and!; (done || lia). }
      destruct Hst as [-> | ->]; cbn [CAPSULE_PENDING CAPSULE_YIELD CAPSULE_OK Z.eqb Pos.eqb orb]; by apply Hloop.
  - assert (Hrun : testRun (w, errors) (allocStart op) = ((w, tl errors), allocStart op, hd 0 errors, 0)).
    { unfold testRun. apply Z.eqb_neq in He. by rewrite He. }
    rewrite Hrun. apply Z.eqb_neq in He as He'. rewrite He'. cbn [negb orb].
    change (r_continuation (answer (allocStart op))) with NO_CONTINUATION. rewrite Z.eqb_refl. cbn [negb]. eauto.
Qed.

End Alloc.

(** The two-region program of [FiberSample] with a kernel that refuses the
    second run: the request yields, the continue is refused, the reset frees
    the fiber. *)
Lemma host_alloc_no_leak_witness :
  let run := testRun (FiberSample.object false) 0 (λ _, 0) in
  (alloc_run run 5 (FiberSample.loaded, [0; 13]) (allocStart ALLOC_MALLOC)).2 = Some 13 ∧
  ∃ G', implements (FiberSample.object false)
    (alloc_run run 5 (FiberSample.loaded, [0; 13]) (allocStart ALLOC_MALLOC)).1.1.1 ∅ G'.
Proof.
  split; [by vm_compute|].
  pose proof (host_alloc_no_leak (FiberSample.object false) FiberSample.limit_ok 0 (λ _, 0) ltac:(lia) 4
    FiberSample.loaded [0; 13] ALLOC_MALLOC ∅ (λ _, 0) ltac:(vm_compute; lia) (or_introl eq_refl)
    (fresh_implements (FiberSample.object false) _ (FiberSample.loaded_fresh false))) as Hn.
  destruct (alloc_run _ 5 _ _) as [[[w' errs] q'] e] eqn:E.
  assert (He : e = Some 13).
  { change e with (w', errs, q', e).2. rewrite <-E. by vm_compute. }
  rewrite He in Hn. exact Hn.
Defined.
