(* ===== verification/HostSamples.v ===== *)
(** * The host library on a concrete object

    A fixed-tier object with one direct region, configured for two fibers and
    a 64 KiB heap; every hypothesis of the host theorems holds of it. *)

From Stdlib Require Import ZArith Lia.
From stdpp Require Import base numbers list gmap sets fin_maps strings relations.
From S2P Require Import Prelude Fiber FiberProps ExpandMem ExpandMemProps Host HostProps HostLife.
Import Fiber Host.
Local Open Scope Z_scope.

Module HostSample.

Definition record : config := Config 8192 0 0 0 1 4096 4 0 0 1 ABI_MAGIC ABI_VERSION 0.
Definition request : requested := Requested 2 65536.
Definition plannedRecord : config := Config 8192 65536 4194304 4202496 2 4096 4 0 0 1 ABI_MAGIC ABI_VERSION 0.

Lemma widths : configWidths record.
Proof. split; [repeat constructor; vm_compute; (discriminate || reflexivity)|]. vm_compute. split; [discriminate|done]. Qed.

Lemma request_widths : requestWidths request.
Proof. vm_compute. repeat split; discriminate. Qed.

Lemma plan_eq : plan record 56 request = Ok (plannedRecord, 1).
Proof. by vm_compute. Qed.

Definition object : bpf_object :=
  BpfObject (Some (record, 56)) (-1)
    {[ "bpf_heap_array" := MapProps 1 0; "bpf_capsule_fiber_leases" := MapProps 4 0;
       "bpf_capsule_continuation_claims" := MapProps 4 0 ]}
    [Program "tc" true false (-1)].
Definition blank : host := HostState None None object ∅.

(** The kernel grants the reservation at [0x123456789000]. *)
Definition granted : Calls := {|
  mmap_reserve := Some 20015998341120; calloc_ok := true;
  set_max_entries_error _ _ := 0; set_map_extra_error _ _ := 0; set_autoload_error _ _ := 0 |}.
(** The claims map refuses the new size. *)
Definition refusing : Calls := {|
  mmap_reserve := Some 20015998341120; calloc_ok := true;
  set_max_entries_error name n := if String.eqb name "bpf_capsule_continuation_claims" && (n =? 2) then -16 else 0;
  set_map_extra_error _ _ := 0; set_autoload_error _ _ := 0 |}.

Definition win : Z := (trimWindow 20015998341120).1.
Definition ready : host := (@configure granted blank 7 request).1.

Lemma restorable_refusing : @restorable refusing (maps object).
Proof.
  intros name p Hp. cbn in *. split; [|done].
  destruct (String.eqb_spec name "bpf_capsule_continuation_claims") as [->|]; [|done].
  vm_compute in Hp. by injection Hp as <-.
Qed.

Definition view : config := withWindow plannedRecord win.
Definition handle : host :=
  HostState (Some 7%nat) (Some (CapsuleState win None 0 false false false))
    (BpfObject (Some (view, 56)) 3 (maps object) [Program "tc" true true 5]) {[win]}.

(** One pointer slot at displacement 4104. *)
Definition raw : image := Image (Value 0) (Value [4104]) (λ _, 1).

Definition files : backing := Backing None false None (λ r, if r =? 0 then Some (2 ^ 22, 10) else None)
  (Some (11, 2 ^ 22, 1)) 4096.
Definition quiet : view_calls := ViewCalls (λ _, 0) 0 0.

Lemma handle_owned : owned handle raw.
Proof.
  by constructor; intros; simplify_eq/=.
Qed.

Definition initialised : host * image * Z := initialize None quiet files handle raw.

Lemma initialised_eq : initialize None quiet files handle raw = (initialised.1.1, initialised.1.2, 0).
Proof.
  assert (He : initialised.2 = 0) by (by vm_compute).
  rewrite <-He. unfold initialised. by destruct (initialize None quiet files handle raw) as [[h i] e].
Qed.

End HostSample.

Lemma host_plan_exact_witness :
  plan HostSample.record 56 HostSample.request = Ok (HostSample.plannedRecord, 1) ∧
  planned HostSample.record HostSample.request HostSample.plannedRecord 1.
Proof.
  split; [exact HostSample.plan_eq|].
  exact (proj1 (proj2 (host_plan_exact HostSample.record 56 HostSample.request HostSample.widths
    HostSample.request_widths)) _ _ HostSample.plan_eq).
Defined.

Lemma planned_object_runs_witness :
  plan_broken (loadedObject HostSample.plannedRecord 1 (2 ^ 40)) = 0.
Proof.
  exact (proj1 (planned_object_runs HostSample.record HostSample.plannedRecord 56 1 (2 ^ 40) HostSample.request
    HostSample.widths HostSample.request_widths HostSample.plan_eq ltac:(lia) eq_refl)).
Defined.

Lemma configure_transaction_witness :
  (@configure HostSample.refusing HostSample.blank 7 HostSample.request).2 = 16 ∧
  maps (object (@configure HostSample.refusing HostSample.blank 7 HostSample.request).1) = maps HostSample.object.
Proof.
  split; [by vm_compute|].
  destruct (@configure_transaction HostSample.refusing HostSample.blank 7 HostSample.request
    (@configure HostSample.refusing HostSample.blank 7 HostSample.request).1 16 HostSample.restorable_refusing)
    as [Hfail _]; [by vm_compute|].
  by destruct (Hfail ltac:(done)) as (_ & _ & _ & Hmaps & _).
Defined.


Lemma initialize_relocates_witness :
  HostSample.initialised.2 = 0 ∧ Host.ready HostSample.initialised.1.2 = Value 1 ∧
  ExpandMem.loadBytes (bytes HostSample.initialised.1.2) (HostSample.win + 4104) 8 =
    72340172838076673 + HostSample.win.
Proof.
  split; [by vm_compute|].
  destruct (initialize_relocates None HostSample.quiet HostSample.files HostSample.handle HostSample.initialised.1.1
    HostSample.raw HostSample.initialised.1.2 [4104] (CapsuleState HostSample.win None 0 false false false))
    as (Hr & Hs & _).
  - exact HostSample.handle_owned.
  - reflexivity.
  - reflexivity.
  - reflexivity.
  - split; [apply NoDup_singleton|]. intros a b ->%list_elem_of_singleton ->%list_elem_of_singleton. done.
  - exact HostSample.initialised_eq.
  - split; [exact Hr|]. specialize (Hs 4104). cbn [window] in Hs. rewrite Hs by left. by vm_compute.
Defined.

Lemma view_is_memory_witness :
  ∃ l, prepare_memory HostSample.quiet HostSample.files (Some (HostSample.view, 56)) HostSample.win = Ok (l, HostSample.view) ∧
    l = [Mapping HostSample.win 10 0; Mapping (HostSample.win + 2 ^ 22) 11 0] ∧
    ∀ i mp, l !! i = Some mp → shows HostSample.files HostSample.view (Z.of_nat i) mp.
Proof.
  exists [Mapping HostSample.win 10 0; Mapping (HostSample.win + 2 ^ 22) 11 0].
  split; [by vm_compute|]. split; [done|].
  refine (proj1 (view_is_memory HostSample.quiet HostSample.files (Some (HostSample.view, 56)) HostSample.win _
    HostSample.view _ eq_refl _)); [by vm_compute|by vm_compute].
Defined.
