(* ===== verification/Bytes.v ===== *)
(** * Byte-addressed memory

    Little-endian words in a total memory, shared by the components that
    describe machine code's view of memory. *)

From Stdlib Require Import ZArith Lia.
From stdpp Require Import base numbers list.
From S2P Require Import Prelude.

Local Open Scope Z_scope.

Definition mem := Z → Z.

Fixpoint loadLE (m : mem) (a : Z) (n : nat) : Z :=
  match n with O => 0 | S n => m a + 256 * loadLE m (a + 1) n end.

Fixpoint storeLE (m : mem) (a : Z) (n : nat) (v : Z) : mem :=
  match n with
  | O => m
  | S n => λ x, if x =? a then v mod 256 else storeLE m (a + 1) n (v / 256) x
  end.

Definition bytes (m : mem) : Prop := ∀ x, 0 <= m x < 256.

(** Two memories with the same bytes. *)
Definition same (m m' : mem) : Prop := ∀ x, m x = m' x.

Lemma loadLE_range m a n : bytes m → 0 <= loadLE m a n < 256 ^ Z.of_nat n.
Proof.
  intros Hm. revert a. induction n as [|n IH]; intros a; [simpl; lia|].
  rewrite Nat2Z.inj_succ, Z.pow_succ_r by lia. cbn [loadLE].
  specialize (IH (a + 1)). specialize (Hm a). lia.
Qed.

Lemma storeLE_lookup m a n v x :
  storeLE m a n v x =
  if (a <=? x) && (x <? a + Z.of_nat n) then v / 256 ^ (x - a) mod 256 else m x.
Proof.
  revert a v. induction n as [|n IH]; intros a v.
  - change (Z.of_nat 0) with 0. destruct (Z.leb_spec a x), (Z.ltb_spec x (a + 0)); simpl; (done || lia).
  - cbn [storeLE]. rewrite IH. destruct (Z.eqb_spec x a) as [->|Hne].
    + rewrite Z.leb_refl, Z.sub_diag, Z.pow_0_r, Z.div_1_r.
      destruct (Z.ltb_spec a (a + Z.of_nat (S n))); simpl; [done|lia].
    + destruct (Z.leb_spec (a + 1) x), (Z.leb_spec a x); try lia; simpl; [|done].
      replace (a + 1 + Z.of_nat n) with (a + Z.of_nat (S n)) by lia.
      destruct (Z.ltb_spec x (a + Z.of_nat (S n))); [|done].
      rewrite Z.div_div by lia. f_equal. f_equal.
      replace (x - a) with (Z.succ (x - (a + 1))) by lia. by rewrite Z.pow_succ_r by lia.
Qed.

(** Storing back what was loaded changes nothing. *)
Lemma storeLE_loadLE m a n : bytes m → same (storeLE m a n (loadLE m a n)) m.
Proof.
  intros Hm. revert a. induction n as [|n IH]; intros a x; [done|].
  cbn [storeLE loadLE]. specialize (Hm a). destruct (Z.eqb_spec x a) as [->|Hne].
  - by rewrite (Z.mul_comm 256), Z.mod_add, Z.mod_small by lia.
  - rewrite (Z.mul_comm 256), Z.div_add, (Z.div_small (m a)) by lia. apply IH.
Qed.

Lemma bytes_storeLE m a n v : bytes m → bytes (storeLE m a n v).
Proof.
  intros Hm x. rewrite storeLE_lookup. case_match; [|done]. apply Z.mod_pos_bound. lia.
Qed.

(** Loads see only the bytes they cover. *)
Lemma loadLE_ext m m' a n : (∀ x, a <= x < a + Z.of_nat n → m' x = m x) → loadLE m' a n = loadLE m a n.
Proof.
  revert a. induction n as [|n IH]; intros a H; [done|]. cbn [loadLE]. rewrite H by lia.
  rewrite IH; [done|]. intros x Hx. apply H. lia.
Qed.

Lemma storeLE_outside m a n v x : x < a ∨ a + Z.of_nat n <= x → storeLE m a n v x = m x.
Proof.
  intros H. rewrite storeLE_lookup. destruct (Z.leb_spec a x), (Z.ltb_spec x (a + Z.of_nat n)); (done || lia).
Qed.

Lemma load_store_eq m a n v : 0 <= v < 256 ^ Z.of_nat n → loadLE (storeLE m a n v) a n = v.
Proof.
  revert m a v. induction n as [|n IH]; intros m a v Hv; [simpl in *; lia|].
  rewrite Nat2Z.inj_succ, Z.pow_succ_r in Hv by lia. cbn [loadLE storeLE]. rewrite Z.eqb_refl.
  rewrite (loadLE_ext (storeLE m (a + 1) n (v / 256))).
  - rewrite IH; [pose proof (Z.div_mod v 256); lia|]. split; [apply Z.div_pos; lia|].
    apply Z.div_lt_upper_bound; lia.
  - intros x Hx. destruct (Z.eqb_spec x a); [lia|done].
Qed.

Lemma load_store_ne m a n v b k :
  b + Z.of_nat k <= a ∨ a + Z.of_nat n <= b → loadLE (storeLE m a n v) b k = loadLE m b k.
Proof. intros H. apply loadLE_ext. intros x Hx. apply storeLE_outside. lia. Qed.
