(* ===== verification/Atomics.v ===== *)
(** * Atomic operations of Capsule code ([atomics.cpp])

    The three atomics passes: [bpf-lower-managed-atomics] replaces the atomic
    operations the BPF instruction set does not have by operations it has
    (compare-exchange loops on the containing word, read-modify-writes that
    stand for ordered loads and stores), [bpf-validate-atomics] reports what
    is left without an exact lowering, [bpf-finalize-atomics] turns the
    surviving relaxed accesses into ordinary ones.

    Emitted code is a small control-flow graph whose memory accesses are
    atomic; it runs against a list of memories, one per access, so that
    between two accesses of the thread the other processors may have done
    anything. *)

From Stdlib Require Import ZArith Lia.
From stdpp Require Import base numbers list strings.
From S2P Require Import Prelude Bytes.

Module Atomics.
Local Open Scope Z_scope.

(** ** Types, orderings and operations *)

Inductive type :=
| TInt (bits : Z)
| TPtr
| TFloat (bits : Z)
| TVector (bits : Z)
| TScalable.

#[global] Instance type_eq_dec : EqDecision type.
Proof. solve_decision. Defined.

Inductive ordering :=
| NotAtomic | Unordered | Monotonic | Acquire | Release | AcquireRelease | SequentiallyConsistent.

#[global] Instance ordering_eq_dec : EqDecision ordering.
Proof. solve_decision. Defined.

(** [isStrongerThanMonotonic] of LLVM. *)
Definition isStrongerThanMonotonic (o : ordering) : bool :=
  match o with Acquire | Release | AcquireRelease | SequentiallyConsistent => true | _ => false end.

(** [AtomicRMWInst::BinOp]. *)
Inductive rmwOp :=
| Xchg | Add | Sub | And | Nand | Or | Xor
| Max | Min | UMax | UMin
| FAdd | FSub | FMax | FMin | FMaximum | FMinimum
| UIncWrap | UDecWrap | USubCond | USubSat.

#[global] Instance rmwOp_eq_dec : EqDecision rmwOp.
Proof. solve_decision. Defined.

(** [AtomicRMWInst::getOperationName]. *)
Definition getOperationName (op : rmwOp) : string :=
  match op with
  | Xchg => "xchg" | Add => "add" | Sub => "sub" | And => "and" | Nand => "nand" | Or => "or"
  | Xor => "xor" | Max => "max" | Min => "min" | UMax => "umax" | UMin => "umin"
  | FAdd => "fadd" | FSub => "fsub" | FMax => "fmax" | FMin => "fmin"
  | FMaximum => "fmaximum" | FMinimum => "fminimum"
  | UIncWrap => "uinc_wrap" | UDecWrap => "udec_wrap" | USubCond => "usub_cond"
  | USubSat => "usub_sat"
  end%string.

(** Store size in bits: whole bytes; pointers have 64 bits on BPF. *)
Definition AtomicWidth (ty : type) : Z :=
  match ty with
  | TInt bits | TFloat bits | TVector bits => (bits + 7) / 8 * 8
  | TPtr => 64
  | TScalable => 0
  end.

Definition IsIntegerWidth (ty : type) (bits : Z) : bool :=
  match ty with
  | TInt n => n =? bits
  | TPtr => bits =? 64
  | _ => false
  end.

(** ** Values *)

Inductive binop := BAdd | BSub | BMul | BAnd | BOr | BXor | BShl | BLShr.

(** Pure values over SSA registers; every value is its bit pattern. *)
Inductive expr :=
| Val (r : nat)
| Global (name : string)
| Const (z : Z)
| Bin (op : binop) (w : Z) (a b : expr)
| Trunc (to : Z) (a : expr)
| ZExt (to : Z) (a : expr)
| PtrToInt (a : expr)
| IntToPtr (a : expr)
| BitCast (a : expr)
| ICmpEQ (a b : expr).

Definition regs := nat → Z.
Definition setReg (rg : regs) (d : nat) (z : Z) : regs := λ r, if Nat.eqb r d then z else rg r.

(** A shift by the width or more is poison. *)
Definition evalBin (op : binop) (w a b : Z) : option Z :=
  match op with
  | BAdd => Some (wrap w (a + b))
  | BSub => Some (wrap w (a - b))
  | BMul => Some (wrap w (a * b))
  | BAnd => Some (Z.land a b)
  | BOr => Some (Z.lor a b)
  | BXor => Some (Z.lxor a b)
  | BShl => if b <? w then Some (wrap w (Z.shiftl a b)) else None
  | BLShr => if b <? w then Some (Z.shiftr a b) else None
  end.

Fixpoint eval (sym : string → Z) (rg : regs) (e : expr) : option Z :=
  match e with
  | Val r => Some (rg r)
  | Global g => Some (sym g)
  | Const z => Some z
  | Bin op w a b =>
      match eval sym rg a, eval sym rg b with
      | Some x, Some y => evalBin op w x y
      | _, _ => None
      end
  | Trunc to a => wrap to <$> eval sym rg a
  | ZExt _ a | PtrToInt a | IntToPtr a | BitCast a => eval sym rg a
  | ICmpEQ a b =>
      match eval sym rg a, eval sym rg b with
      | Some x, Some y => Some (if x =? y then 1 else 0)
      | _, _ => None
      end
  end.

(** The builder's [CreateNot] and [CreateNeg]. *)
Definition CreateNot (w : Z) (a : expr) : expr := Bin BXor w a (Const (2 ^ w - 1)).
Definition CreateNeg (w : Z) (a : expr) : expr := Bin BSub w (Const 0) a.

Definition ToIntegerBits (ty : type) (bits : Z) (value : expr) : expr :=
  match ty with
  | TPtr => PtrToInt value
  | _ => if bool_decide (ty = TInt bits) then value else BitCast value
  end.

Definition FromIntegerBits (ty : type) (bits : Z) (value : expr) : expr :=
  match ty with
  | TPtr => IntToPtr value
  | _ => if bool_decide (TInt bits = ty) then value else BitCast value
  end.

(** The value an operation of type [iw] stores; [None] is [nullptr]. *)
Definition AtomicOperation (op : rmwOp) (w : Z) (oldValue operand : expr) : option expr :=
  match op with
  | Add => Some (Bin BAdd w oldValue operand)
  | Sub => Some (Bin BSub w oldValue operand)
  | And => Some (Bin BAnd w oldValue operand)
  | Nand => Some (CreateNot w (Bin BAnd w oldValue operand))
  | Or => Some (Bin BOr w oldValue operand)
  | Xor => Some (Bin BXor w oldValue operand)
  | Xchg => Some operand
  | _ => None
  end.

(** ** Instructions *)

Inductive inst :=
| Load (d : nat) (ty : type) (ptr : expr) (ord : ordering) (align : Z) (volatile : bool)
| Store (ty : type) (value ptr : expr) (ord : ordering) (align : Z) (volatile : bool)
| Rmw (d : nat) (op : rmwOp) (ty : type) (ptr value : expr) (ord : ordering) (align : Z)
| CmpXchg (d ok : nat) (ty : type) (ptr cmp new : expr) (success failure : ordering) (align : Z)
| Fence (singleThread : bool) (ord : ordering)
| Other (tag : nat).

(** [isa<AtomicRMWInst, AtomicCmpXchgInst, FenceInst>] or an atomic access. *)
Definition isAtomic (i : inst) : bool :=
  match i with
  | Rmw _ _ _ _ _ _ _ | CmpXchg _ _ _ _ _ _ _ _ _ | Fence _ _ => true
  | Load _ _ _ ord _ _ | Store _ _ _ ord _ _ => bool_decide (ord ≠ NotAtomic)
  | Other _ => false
  end.

(** *** Execution *)

Definition bytesOf (ty : type) : nat := Z.to_nat (AtomicWidth ty / 8).

(** The language reference's meaning of an operation on [w]-bit words. *)
Definition rmwResult (op : rmwOp) (w old v : Z) : option Z :=
  match op with
  | Xchg => Some v
  | Add => Some (wrap w (old + v))
  | Sub => Some (wrap w (old - v))
  | And => Some (Z.land old v)
  | Nand => Some (wrap w (Z.lnot (Z.land old v)))
  | Or => Some (Z.lor old v)
  | Xor => Some (Z.lxor old v)
  | Max => Some (if sgn w old <? sgn w v then v else old)
  | Min => Some (if sgn w v <? sgn w old then v else old)
  | UMax => Some (Z.max old v)
  | UMin => Some (Z.min old v)
  | UIncWrap => Some (if v <=? old then 0 else old + 1)
  | UDecWrap => Some (if (old =? 0) || (v <? old) then v else old - 1)
  | USubCond => Some (if v <=? old then old - v else old)
  | USubSat => Some (Z.max 0 (old - v))
  | FAdd | FSub | FMax | FMin | FMaximum | FMinimum => None   (* floating point: not modelled *)
  end.

(** One instruction as one indivisible step on the memory: the registers and
    memory after it, and the ordering of its access. *)
Definition execInst (sym : string → Z) (rg : regs) (m : mem) (i : inst) : option (regs * mem * ordering) :=
  match i with
  | Load d ty ptr ord _ _ =>
      a ← eval sym rg ptr; Some (setReg rg d (loadLE m a (bytesOf ty)), m, ord)
  | Store ty value ptr ord _ _ =>
      a ← eval sym rg ptr; v ← eval sym rg value;
      Some (rg, storeLE m a (bytesOf ty) v, ord)
  | Rmw d op ty ptr value ord _ =>
      a ← eval sym rg ptr; v ← eval sym rg value;
      let old := loadLE m a (bytesOf ty) in
      new ← rmwResult op (AtomicWidth ty) old v;
      Some (setReg rg d old, storeLE m a (bytesOf ty) new, ord)
  | CmpXchg d ok ty ptr cmp new success failure _ =>
      a ← eval sym rg ptr; c ← eval sym rg cmp; v ← eval sym rg new;
      let old := loadLE m a (bytesOf ty) in
      if old =? c
      then Some (setReg (setReg rg d old) ok 1, storeLE m a (bytesOf ty) v, success)
      else Some (setReg (setReg rg d old) ok 0, m, failure)
  | Fence _ ord => Some (rg, m, ord)
  | Other _ => None
  end.

(** ** Emitted code *)

Inductive label := Before | Retry | Attempt | Done.

#[global] Instance label_eq_dec : EqDecision label.
Proof. solve_decision. Defined.

Inductive term := Br (l : label) | CondBr (c : expr) (yes no : label) | Ret.

Record block := Block {
  phis : list (nat * list (label * expr));
  insts : list inst;
  terminator : term;
}.

(** Blocks reached from [Before], and what the replaced instruction's
    results become ([replaceAllUsesWith]). *)
Record code := Code {
  blocks : label → block;
  replaced : list (nat * expr);
}.

Definition emptyBlock : block := Block [] [] Ret.

Definition straight (l : list inst) (r : list (nat * expr)) : code :=
  Code (λ lbl, match lbl with Before => Block [] l Ret | _ => emptyBlock end) r.

(** One access to memory: what it saw, what it left, its ordering. *)
Record access := Access { seen : mem; left_ : mem; ordered : ordering }.

Inductive outcome :=
| Finished (rg : regs) (log : list access)
| Waiting (log : list access)           (* the next access has not happened yet *)
| Poison
| NoFuel.

Inductive blockOutcome := BDone (rg : regs) (ms : list mem) (log : list access) | BWait (log : list access) | BPoison.

Section Run.
Context (sym : string → Z).

Fixpoint execInsts (rg : regs) (l : list inst) (ms : list mem) (log : list access) : blockOutcome :=
  match l with
  | [] => BDone rg ms log
  | i :: l =>
      match ms with
      | [] => BWait log
      | m :: ms =>
          match execInst sym rg m i with
          | Some (rg', m', o) => execInsts rg' l ms (log ++ [Access m m' o])
          | None => BPoison
          end
      end
  end.

(** Phi nodes read their incoming values together. *)
Definition enter (rg : regs) (from : label) (ps : list (nat * list (label * expr))) : option regs :=
  foldr (λ p acc,
    match acc, (snd <$> list_find (λ x, x.1 = from) p.2) ≫= (λ x, eval sym rg x.2) with
    | Some rg', Some v => Some (setReg rg' p.1 v)
    | _, _ => None
    end) (Some rg) ps.

Fixpoint assign (rg : regs) (rs : list (nat * expr)) : option regs :=
  match rs with
  | [] => Some rg
  | (d, e) :: rs =>
      match assign rg rs, eval sym rg e with
      | Some rg', Some v => Some (setReg rg' d v)
      | _, _ => None
      end
  end.

Fixpoint runFrom (fuel : nat) (c : code) (from lbl : label) (rg : regs) (ms : list mem) (log : list access) : outcome :=
  match fuel with
  | O => NoFuel
  | S fuel =>
      let b := blocks c lbl in
      match enter rg from (phis b) with
      | None => Poison
      | Some rg =>
          match execInsts rg (insts b) ms log with
          | BWait log => Waiting log
          | BPoison => Poison
          | BDone rg ms log =>
              match terminator b with
              | Br l => runFrom fuel c lbl l rg ms log
              | CondBr e yes no =>
                  match eval sym rg e with
                  | Some v => runFrom fuel c lbl (if v =? 1 then yes else no) rg ms log
                  | None => Poison
                  end
              | Ret => match assign rg (replaced c) with Some rg => Finished rg log | None => Poison end
              end
          end
      end
  end.

(** Two blocks per access, and the entry and exit blocks. *)
Definition runCode (c : code) (rg : regs) (ms : list mem) : outcome :=
  runFrom (2 * length ms + 4) c Before Before rg ms [].
End Run.

(** ** Sub-word fields *)

Record NarrowWord := MkNarrowWord { Pointer : expr; Shift : expr; Mask : expr }.

Definition NarrowWordFor (pointer : expr) (bits : Z) : NarrowWord :=
  let address := PtrToInt pointer in
  let byte := Bin BAnd 64 address (Const 3) in
  let aligned := Bin BAnd 64 address (Const (2 ^ 64 - 4)) in
  let wordPointer := IntToPtr aligned in
  let shift := Bin BMul 32 (Trunc 32 byte) (Const 8) in
  let lowMask := if bits =? 32 then 2 ^ 32 - 1 else 2 ^ bits - 1 in
  let mask := Bin BShl 32 (Const lowMask) shift in
  MkNarrowWord wordPointer shift mask.

Definition ExtractNarrow (word shift : expr) (bits : Z) : expr := Trunc bits (Bin BLShr 32 word shift).

Definition ReplaceNarrow (word shift mask value : expr) : expr :=
  let inserted := Bin BShl 32 (ZExt 32 value) shift in
  let preserved := Bin BAnd 32 word (CreateNot 32 mask) in
  let replacement := Bin BAnd 32 inserted mask in
  Bin BOr 32 preserved replacement.

Definition CreateCas (d ok : nat) (ty : type) (pointer expected desired : expr) (align : Z) : inst :=
  CmpXchg d ok ty pointer expected desired SequentiallyConsistent SequentiallyConsistent align.

Inductive error :=
| NotIntegerType                       (* cast<IntegerType> of another type *)
| UnsupportedAtomic (operation : string)
| NotNaturallyAligned (what : string).

#[global] Instance error_eq_dec : EqDecision error.
Proof. solve_decision. Defined.

(** The compare-exchange loop on the containing word.  Registers from [f]:
    the initial load, the phi [atomic.current], the observed word, the
    success flag. *)
Definition LowerNarrowRmw (d : nat) (op : rmwOp) (ty : type) (ptr value : expr) (f : nat) : result error code :=
  match ty with
  | TInt bits =>
      let target := NarrowWordFor ptr bits in
      let initial := f in
      let current := S f in
      let observed := S (S f) in
      let success := S (S (S f)) in
      let oldValue := ExtractNarrow (Val current) (Shift target) bits in
      match AtomicOperation op bits oldValue value with
      | None => Err (UnsupportedAtomic (getOperationName op))
      | Some newValue =>
          let desired := ReplaceNarrow (Val current) (Shift target) (Mask target) newValue in
          Ok (Code (λ lbl, match lbl with
            | Before => Block [] [Load initial (TInt 32) (Pointer target) Monotonic 4 false] (Br Retry)
            | Retry =>
                Block [(current, [(Before, Val initial); (Retry, Val observed)])]
                  [CreateCas observed success (TInt 32) (Pointer target) (Val current) desired 4]
                  (CondBr (Val success) Done Retry)
            | _ => emptyBlock
            end) [(d, oldValue)])
      end
  | _ => Err NotIntegerType
  end.

Definition LowerWideRmw (d : nat) (op : rmwOp) (ty : type) (ptr value : expr) (align : Z) (f : nat) : result error code :=
  let initial := f in
  let current := S f in
  let observed := S (S f) in
  let success := S (S (S f)) in
  match AtomicOperation op (AtomicWidth ty) (Val current) value with
  | None => Err (UnsupportedAtomic (getOperationName op))
  | Some desired =>
      Ok (Code (λ lbl, match lbl with
        | Before => Block [] [Load initial ty ptr Monotonic align false] (Br Retry)
        | Retry =>
            Block [(current, [(Before, Val initial); (Retry, Val observed)])]
              [CreateCas observed success ty ptr (Val current) desired align]
              (CondBr (Val success) Done Retry)
        | _ => emptyBlock
        end) [(d, Val current)])
  end.

Definition LowerNarrowCmpXchg (d ok : nat) (ty : type) (ptr cmp new : expr) (f : nat) : result error code :=
  match ty with
  | TInt bits =>
      let target := NarrowWordFor ptr bits in
      let initial := f in
      let current := S f in
      let observedWord := S (S f) in
      let success := S (S (S f)) in
      let exchanged := S (S (S (S f))) in
      let observedValue := ExtractNarrow (Val current) (Shift target) bits in
      let matches := ICmpEQ observedValue cmp in
      let desired := ReplaceNarrow (Val current) (Shift target) (Mask target) new in
      Ok (Code (λ lbl, match lbl with
        | Before => Block [] [Load initial (TInt 32) (Pointer target) Monotonic 4 false] (Br Retry)
        | Retry =>
            Block [(current, [(Before, Val initial); (Attempt, Val observedWord)])] []
              (CondBr matches Attempt Done)
        | Attempt =>
            Block [] [CreateCas observedWord success (TInt 32) (Pointer target) (Val current) desired 4]
              (CondBr (Val success) Done Retry)
        | Done => Block [(exchanged, [(Retry, Const 0); (Attempt, Const 1)])] [] Ret
        end) [(d, observedValue); (ok, Val exchanged)])
  | _ => Err NotIntegerType
  end.

(** ** The passes

    [getUnderlyingObject] is LLVM's analysis: the global variable a pointer
    is derived from, with whether it has a section.  [IsCapsuleFunction] is
    an attribute of the function. *)
Section Passes.
Context (underlying : expr → option bool).

Definition IsSectionedPointer (pointer : expr) : bool :=
  match underlying pointer with Some hasSection => hasSection | None => false end.

Definition narrow (bits : Z) : bool := (bits =? 8) || (bits =? 16).

(** What becomes of a read-modify-write; [None] leaves it in place. *)
Definition lowerRmwInst (wideBitwise : bool) (d : nat) (op : rmwOp) (ty : type) (ptr value : expr)
    (ord : ordering) (align : Z) (f : nat) : result error (option code) :=
  let bits := AtomicWidth ty in
  if narrow bits && negb (IsSectionedPointer ptr) then
    if align * 8 <? bits then Err (NotNaturallyAligned "atomic")
    else c ← LowerNarrowRmw d op ty ptr value f; Ok (Some c)
  else if bool_decide (op = Nand ∨ wideBitwise = true ∧ (op = And ∨ op = Or ∨ op = Xor)) &&
          negb (IsSectionedPointer ptr) then
    c ← LowerWideRmw d op ty ptr value align f; Ok (Some c)
  else if bool_decide (op = Sub) && ((bits =? 32) || (bits =? 64)) then
    Ok (Some (straight [Rmw d Add ty ptr (CreateNeg bits value) ord align] []))
  else Ok None.

Definition lowerCmpXchgInst (d ok : nat) (ty : type) (ptr cmp new : expr) (align : Z) (f : nat) :
    result error (option code) :=
  let bits := AtomicWidth ty in
  if narrow bits && negb (IsSectionedPointer ptr) then
    if align * 8 <? bits then Err (NotNaturallyAligned "compare-exchange")
    else c ← LowerNarrowCmpXchg d ok ty ptr cmp new f; Ok (Some c)
  else Ok None.

(** The widths of an ordered access that are left alone. *)
Definition skipsAccess (bits : Z) (ptr : expr) : bool :=
  (negb (bits =? 8) && negb (bits =? 16) && negb (bits =? 32) && negb (bits =? 64)) ||
  ((bits <? 32) && IsSectionedPointer ptr).

Definition lowerLoadInst (d : nat) (ty : type) (ptr : expr) (ord : ordering) (align : Z) (f : nat) :
    result error (option code) :=
  if isStrongerThanMonotonic ord then
    let bits := AtomicWidth ty in
    if skipsAccess bits ptr then Ok None
    else if align * 8 <? bits then Err (NotNaturallyAligned "load")
    else if bits <? 32 then
      let target := NarrowWordFor ptr bits in
      Ok (Some (straight [Rmw f Add (TInt 32) (Pointer target) (Const 0) SequentiallyConsistent 4]
                  [(d, FromIntegerBits ty bits (ExtractNarrow (Val f) (Shift target) bits))]))
    else
      Ok (Some (straight [Rmw f Add (TInt bits) ptr (Const 0) SequentiallyConsistent align]
                  [(d, FromIntegerBits ty bits (Val f))]))
  else Ok None.

Definition lowerStoreInst (ty : type) (value ptr : expr) (ord : ordering) (align : Z) (f : nat) :
    result error (option code) :=
  if isStrongerThanMonotonic ord then
    let bits := AtomicWidth ty in
    if skipsAccess bits ptr then Ok None
    else if align * 8 <? bits then Err (NotNaturallyAligned "store")
    else
      let value := ToIntegerBits ty bits value in
      if bits <? 32 then c ← LowerNarrowRmw f Xchg (TInt bits) ptr value (S f); Ok (Some c)
      else Ok (Some (straight [Rmw f Xchg (TInt bits) ptr value SequentiallyConsistent align] []))
  else Ok None.

Definition AtomicFenceName : string := "__bpf_capsule_atomic_fence".

(** A thread fence becomes an exchange on a word of its own; a signal fence
    constrains the compiler only. *)
Definition lowerFenceInst (singleThread : bool) (f : nat) : option code :=
  if singleThread then None
  else Some (straight [Rmw f Xchg (TInt 32) (Global AtomicFenceName) (Const 0) SequentiallyConsistent 4] []).

Definition lowerInst (wideBitwise : bool) (i : inst) (f : nat) : result error (option code) :=
  match i with
  | Rmw d op ty ptr value ord align => lowerRmwInst wideBitwise d op ty ptr value ord align f
  | CmpXchg d ok ty ptr cmp new _ _ align => lowerCmpXchgInst d ok ty ptr cmp new align f
  | Load d ty ptr ord align _ => lowerLoadInst d ty ptr ord align f
  | Store ty value ptr ord align _ => lowerStoreInst ty value ptr ord align f
  | Fence singleThread _ => Ok (lowerFenceInst singleThread f)
  | Other _ => Ok None
  end.

(** The module: its functions' bodies are instruction lists; the pass adds
    the fence word to the globals when the first fence needs it. *)
Definition needsFenceWord (i : inst) : bool := match i with Fence false _ => true | _ => false end.

Definition addFenceWord (globals : list string) : list string :=
  if bool_decide (AtomicFenceName ∈ globals) then globals else globals ++ [AtomicFenceName].

Record lowered := Lowered {
  l_body : list (inst + code);      (* kept, or replaced by code *)
  l_globals : list string;
  l_fresh : nat;                    (* registers from here on are unused *)
  l_changed : bool;
}.

Definition lowerOne (wideBitwise : bool) (i : inst) (s : lowered) : result error lowered :=
  if isAtomic i then
    r ← lowerInst wideBitwise i (l_fresh s);
    match r with
    | Some c =>
        Ok (Lowered (l_body s ++ [inr c])
              (if needsFenceWord i then addFenceWord (l_globals s) else l_globals s)
              (l_fresh s + 5) true)
    | None => Ok (Lowered (l_body s ++ [inl i]) (l_globals s) (l_fresh s) (l_changed s))
    end
  else Ok (Lowered (l_body s ++ [inl i]) (l_globals s) (l_fresh s) (l_changed s)).

(** [LowerManagedAtomicsPass::run]; [isCapsule] is [IsCapsuleFunction]. *)
Definition lowerRun (wideBitwise isCapsule : bool) (body : list inst) (globals : list string) (fresh : nat) :
    result error lowered :=
  if isCapsule then foldM (lowerOne wideBitwise) body (Lowered [] globals fresh false)
  else Ok (Lowered (inl <$> body) globals fresh false).

(** *** [bpf-validate-atomics] *)

Definition PointerOperand (i : inst) : option expr :=
  match i with
  | Rmw _ _ _ ptr _ _ _ | CmpXchg _ _ _ ptr _ _ _ _ _ | Load _ _ ptr _ _ _ | Store _ _ ptr _ _ _ => Some ptr
  | _ => None
  end.

Definition IsCompilerFence (i : inst) : bool :=
  match i with Fence singleThread _ => singleThread | _ => false end.

(** The type and alignment both RMW tests look at: operations of the ISA. *)
Definition rmwShape (i : inst) : option (type * Z) :=
  match i with
  | Rmw _ op ty _ _ _ align =>
      match op with Add | And | Or | Xor | Xchg => Some (ty, align) | _ => None end
  | CmpXchg _ _ ty _ _ _ _ _ align => Some (ty, align)
  | _ => None
  end.

Definition isaWidth (ty : type) (align : Z) : bool :=
  let bits := AtomicWidth ty in
  IsIntegerWidth ty bits && ((bits =? 32) || (bits =? 64)) && (bits <=? align * 8).

Definition IsManagedRmw (i : inst) : bool :=
  match rmwShape i with Some (ty, align) => isaWidth ty align | None => false end.

Definition IsNativeRmw (i : inst) : bool :=
  match PointerOperand i with
  | Some ptr => IsSectionedPointer ptr && match rmwShape i with Some (ty, align) => isaWidth ty align | None => false end
  | None => false
  end.

Definition preservedType (ty : type) : bool :=
  match ty with TInt _ | TPtr | TFloat _ => true | _ => false end.

Definition preservedAccess (ty : type) (ord : ordering) (align : Z) : bool :=
  let bytes := AtomicWidth ty / 8 in
  bool_decide (ord = Unordered ∨ ord = Monotonic) && preservedType ty &&
  ((bytes =? 1) || (bytes =? 2) || (bytes =? 4) || (bytes =? 8)) && (bytes <=? align).

Definition IsPreservedLoadStore (i : inst) : bool :=
  match i with
  | Load _ ty _ ord align _ => bool_decide (ord ≠ NotAtomic) && preservedAccess ty ord align
  | Store ty _ _ ord align _ => bool_decide (ord ≠ NotAtomic) && preservedAccess ty ord align
  | _ => false
  end.

Definition unsupported (managedRmw : bool) (i : inst) : bool :=
  isAtomic i && negb (IsCompilerFence i) && negb (IsPreservedLoadStore i) && negb (IsNativeRmw i) &&
  negb (managedRmw && IsManagedRmw i).

Inductive diagnostic :=
| SectionedNarrow (bits : Z) (operation : string)
| NoExactLowering (bits : Z) (operation : string).

#[global] Instance diagnostic_eq_dec : EqDecision diagnostic.
Proof. solve_decision. Defined.

(** The value type and name of an operation in the diagnostics. *)
Definition describe (i : inst) : option type * string :=
  match i with
  | Rmw _ op ty _ _ _ _ => (Some ty, getOperationName op)
  | CmpXchg _ _ ty _ _ _ _ _ _ => (Some ty, "compare-exchange"%string)
  | Load _ ty _ _ _ _ => (Some ty, "load"%string)
  | Store ty _ _ _ _ _ => (Some ty, "store"%string)
  | _ => (None, "fence"%string)
  end.

Definition diagnose (i : inst) : diagnostic :=
  let bits := match (describe i).1 with Some ty => AtomicWidth ty | None => 0 end in
  let operation := (describe i).2 in
  if narrow bits && match PointerOperand i with Some ptr => IsSectionedPointer ptr | None => false end
  then SectionedNarrow bits operation
  else NoExactLowering bits operation.

(** [ValidateAtomicsPass::run]: the errors it emits. *)
Definition validateRun (managedRmw isCapsule : bool) (body : list inst) : list diagnostic :=
  if isCapsule then diagnose <$> filter (λ i, unsupported managedRmw i = true) body else [].

(** *** [bpf-finalize-atomics] *)

Inductive finalizeError := NeedsFullAtomics | SurvivedValidation.

#[global] Instance finalizeError_eq_dec : EqDecision finalizeError.
Proof. solve_decision. Defined.

(** [used d]: the result [d] has uses. *)
Definition legacySupported (used : nat → bool) (i : inst) : bool :=
  match i with
  | Rmw d op ty _ _ ord _ =>
      bool_decide (op = Add ∨ op = Sub) && negb (used d) && bool_decide (ord = Monotonic) &&
      bool_decide (ty = TInt 32 ∨ ty = TInt 64)
  | CmpXchg _ _ _ _ _ _ _ _ _ => false
  | _ => true
  end.

Definition strengthen (used : nat → bool) (i : inst) : inst :=
  match i with
  | Rmw d op ty ptr value ord align =>
      if used d && bool_decide (ord = Monotonic)
      then Rmw d op ty ptr value SequentiallyConsistent align else i
  | _ => i
  end.

Definition atomicAccess (i : inst) : bool :=
  match i with
  | Load _ _ _ ord _ _ | Store _ _ _ ord _ _ => bool_decide (ord ≠ NotAtomic)
  | _ => false
  end.

Definition plainAccess (i : inst) : inst :=
  match i with
  | Load d ty ptr ord align volatile => Load d ty ptr NotAtomic align volatile
  | Store ty value ptr ord align volatile => Store ty value ptr NotAtomic align volatile
  | _ => i
  end.

(** The scan over the function: instructions so far (read-modify-writes are
    strengthened in place), or the error it stops at. *)
Definition finalizeScan (legacy : bool) (used : nat → bool) (i : inst) (done : list inst) : result finalizeError (list inst) :=
  if legacy && negb (legacySupported used i) then Err NeedsFullAtomics
  else
    let i := strengthen used i in
    if atomicAccess i && negb (IsPreservedLoadStore i) then Err SurvivedValidation
    else Ok (done ++ [i]).

(** [FinalizeAtomicsPass::run]: the replacement of the collected accesses
    follows the scan. *)
Definition finalizeRun (legacy : bool) (used : nat → bool) (body : list inst) : result finalizeError (list inst) :=
  scanned ← foldM (finalizeScan legacy used) body [];
  Ok (map (λ i, if atomicAccess i then plainAccess i else i) scanned).
End Passes.

End Atomics.
