(* ===== verification/AtomicsFacts.v ===== *)
(** * Facts on sub-word fields and compare-exchange loops

    The containing word of a field and the two loops [atomics.cpp] emits,
    under arbitrary interference. *)

From Stdlib Require Import ZArith Lia.
From stdpp Require Import base numbers list strings.
From S2P Require Import Prelude Bytes Atomics.

Import Atomics.
Local Open Scope Z_scope.

(** ** The containing word *)

Lemma land_low2 a : Z.land a 3 = a mod 4.
Proof. change 3 with (Z.ones 2). by rewrite Z.land_ones. Qed.

Lemma testbit_above x n k : 0 <= k → 0 <= x < 2 ^ k → k <= n → Z.testbit x n = false.
Proof.
  intros Hk Hx Hn. destruct (decide (x = 0)) as [->|]; [apply Z.bits_0|].
  apply Z.bits_above_log2; [lia|]. apply Z.log2_lt_pow2; [lia|].
  eapply Z.lt_le_trans; [apply Hx|]. apply Z.pow_le_mono_r; lia.
Qed.

Lemma land_align4 a : 0 <= a < 2 ^ 64 → Z.land a (2 ^ 64 - 4) = a - a mod 4.
Proof.
  intros Ha. change (2 ^ 64 - 4) with (Z.shiftl (Z.ones 62) 2).
  transitivity (Z.shiftl (Z.shiftr a 2) 2).
  - apply Z.bits_inj'. intros n Hn. rewrite Z.land_spec, !Z.shiftl_spec by done.
    destruct (Z.ltb_spec n 2) as [H|H].
    + rewrite !(Z.testbit_neg_r _ (n - 2)) by lia. by rewrite andb_false_r.
    + rewrite Z.shiftr_spec by lia. replace (n - 2 + 2) with n by lia.
      rewrite Z.testbit_ones_nonneg by lia. destruct (Z.ltb_spec (n - 2) 62); [by rewrite andb_true_r|].
      rewrite andb_false_r. symmetry. apply (testbit_above a n 64); lia.
  - rewrite Z.shiftl_mul_pow2, Z.shiftr_div_pow2 by lia. change (2 ^ 2) with 4.
    pose proof (Z.div_mod a 4). lia.
Qed.

Lemma wrap32_shiftl v s b : 0 <= s → 0 <= b → s + b <= 32 → 0 <= v < 2 ^ b → wrap 32 (Z.shiftl v s) = Z.shiftl v s.
Proof.
  intros Hs Hb Hsb Hv. apply wrap_small. rewrite Z.shiftl_mul_pow2 by done.
  split; [apply Z.mul_nonneg_nonneg; [lia|by apply Z.pow_nonneg]|].
  apply Z.lt_le_trans with (2 ^ b * 2 ^ s); [apply Z.mul_lt_mono_pos_r; [by apply pow2_pos|lia]|].
  rewrite <-Z.pow_add_r by done. apply Z.pow_le_mono_r; lia.
Qed.

(** Three adjacent parts of a word added are its parts joined. *)
Lemma join_parts w s b v :
  0 <= s → 0 <= b → 0 <= v < 2 ^ b →
  w mod 2 ^ s + v * 2 ^ s + w / 2 ^ (s + b) * 2 ^ (s + b) =
  Z.lor (Z.lor (w mod 2 ^ s) (Z.shiftl v s)) (Z.shiftl (Z.shiftr w (s + b)) (s + b)).
Proof.
  intros Hs Hb Hv.
  assert (Hlow : 0 <= w mod 2 ^ s < 2 ^ s) by (apply Z.mod_pos_bound; by apply pow2_pos).
  assert (Hdis1 : Z.land (w mod 2 ^ s) (Z.shiftl v s) = 0).
  { apply Z.bits_inj'. intros n Hn. rewrite Z.land_spec, Z.bits_0, Z.shiftl_spec by done.
    destruct (Z.ltb_spec n s); [by rewrite (Z.testbit_neg_r _ (n - s)), andb_false_r by lia|].
    by rewrite (testbit_above (w mod 2 ^ s) n s). }
  assert (Hdis2 : Z.land (Z.lor (w mod 2 ^ s) (Z.shiftl v s)) (Z.shiftl (Z.shiftr w (s + b)) (s + b)) = 0).
  { apply Z.bits_inj'. intros n Hn. rewrite Z.land_spec, Z.lor_spec, Z.bits_0, !Z.shiftl_spec by done.
    destruct (Z.ltb_spec n (s + b)); [by rewrite (Z.testbit_neg_r _ (n - (s + b))), andb_false_r by lia|].
    rewrite (testbit_above (w mod 2 ^ s) n s), (testbit_above v (n - s) b); (done || lia). }
  rewrite <-Z.shiftl_mul_pow2, <-Z.shiftr_div_pow2, <-Z.shiftl_mul_pow2 by lia.
  rewrite (Z.add_nocarry_lxor _ _ Hdis1), (Z.lxor_lor _ _ Hdis1).
  by rewrite (Z.add_nocarry_lxor _ _ Hdis2), (Z.lxor_lor _ _ Hdis2).
Qed.

(** A [b]-bit field at bit [s] of a word: the word's other bits are kept. *)
Lemma replace_field w s b v :
  0 <= s → 0 <= b → s + b <= 32 → 0 <= w < 2 ^ 32 → 0 <= v < 2 ^ b →
  let mask := wrap 32 (Z.shiftl (2 ^ b - 1) s) in
  Z.lor (Z.land w (Z.lxor mask (2 ^ 32 - 1))) (Z.land (wrap 32 (Z.shiftl v s)) mask) =
  w mod 2 ^ s + v * 2 ^ s + w / 2 ^ (s + b) * 2 ^ (s + b).
Proof.
  intros Hs Hb Hsb Hw Hv mask. rewrite join_parts by done. unfold mask. pose proof (pow2_pos b Hb).
  rewrite (wrap32_shiftl v s b), (wrap32_shiftl (2 ^ b - 1) s b) by lia.
  rewrite Z.sub_1_r, <-Z.ones_equiv. change (2 ^ 32 - 1) with (Z.ones 32).
  apply Z.bits_inj'. intros n Hn.
  rewrite !Z.lor_spec, !Z.land_spec, Z.lxor_spec, !Z.shiftl_spec by done.
  rewrite (Z.testbit_ones_nonneg 32) by lia.
  destruct (Z.ltb_spec n s) as [H1|H1].
  - rewrite !(Z.testbit_neg_r _ (n - s)), !(Z.testbit_neg_r _ (n - (s + b))) by lia.
    rewrite Z.mod_pow2_bits_low by lia. destruct (Z.ltb_spec n 32); [|lia].
    by rewrite !andb_false_l, !orb_false_r, andb_true_r.
  - rewrite Z.mod_pow2_bits_high, orb_false_l by lia.
    rewrite Z.testbit_ones_nonneg by lia.
    destruct (Z.ltb_spec n (s + b)) as [H2|H2].
    + rewrite !(Z.testbit_neg_r _ (n - (s + b))), orb_false_r by lia.
      destruct (Z.ltb_spec (n - s) b); [|lia]. destruct (Z.ltb_spec n 32); [|lia].
      by rewrite andb_false_r, orb_false_l, andb_true_r.
    + rewrite Z.shiftr_spec by lia. replace (n - (s + b) + (s + b)) with n by lia.
      rewrite (testbit_above v (n - s) b), orb_false_l, andb_false_l, orb_false_r by lia.
      destruct (Z.ltb_spec (n - s) b); [lia|]. destruct (Z.ltb_spec n 32); [by rewrite andb_true_r|].
      rewrite andb_false_r. symmetry. apply (testbit_above w n 32); lia.
Qed.

Definition wordOf (a : Z) : Z := a - a mod 4.

(** The offsets a naturally aligned field can have in its word. *)
Lemma field_offsets a b :
  narrow b = true → a mod (b / 8) = 0 →
  (b = 8 ∧ (a mod 4 = 0 ∨ a mod 4 = 1 ∨ a mod 4 = 2 ∨ a mod 4 = 3)) ∨ (b = 16 ∧ (a mod 4 = 0 ∨ a mod 4 = 2)).
Proof.
  unfold narrow. intros [Hb|Hb]%orb_true_iff Ha; bool_to_prop; subst.
  - left. split; [done|]. pose proof (Z.mod_pos_bound a 4). lia.
  - right. split; [done|]. change (16 / 8) with 2 in Ha. Z.to_euclidean_division_equations; lia.
Qed.

(** Evaluate the powers and sizes of a concrete offset. *)
Ltac word_constants :=
  change (Z.to_nat (8 / 8)) with 1%nat; change (Z.to_nat (16 / 8)) with 2%nat;
  change (2 ^ (8 * 0)) with 1; change (2 ^ (8 * 1)) with 256;
  change (2 ^ (8 * 2)) with 65536; change (2 ^ (8 * 3)) with 16777216;
  change (2 ^ 8) with 256; change (2 ^ 16) with 65536.

Lemma field_load m a b :
  bytes m → narrow b = true → a mod (b / 8) = 0 →
  wrap b (Z.shiftr (loadLE m (wordOf a) 4) (8 * (a mod 4))) = loadLE m a (Z.to_nat (b / 8)).
Proof.
  intros Hm Hb Ha. pose proof (field_offsets a b Hb Ha) as Hoff. unfold wordOf, wrap.
  assert (He : a = a - a mod 4 + a mod 4) by lia.
  set (base := a - a mod 4) in *. set (r := a mod 4) in *. clearbody base r. subst a.
  pose proof (Hm base). pose proof (Hm (base + 1)). pose proof (Hm (base + 2)). pose proof (Hm (base + 3)).
  replace (base + 2) with (base + 1 + 1) in * by lia. replace (base + 3) with (base + 1 + 1 + 1) in * by lia.
  destruct Hoff as [(-> & [-> | [-> | [-> | ->]]])|(-> & [-> | ->])];
    rewrite Z.shiftr_div_pow2 by lia; word_constants; cbn [loadLE];
    rewrite ?Z.add_0_r; try replace (base + 2) with (base + 1 + 1) by lia;
    try replace (base + 3) with (base + 1 + 1 + 1) by lia;
    Z.to_euclidean_division_equations; lia.
Qed.

Ltac word_powers :=
  repeat match goal with
  | |- context [2 ^ ?k] => let z := eval vm_compute in (2 ^ k) in change (2 ^ k) with z
  | H : context [2 ^ ?k] |- _ => let z := eval vm_compute in (2 ^ k) in change (2 ^ k) with z in H
  end.

Lemma field_store m a b v :
  bytes m → narrow b = true → a mod (b / 8) = 0 → 0 <= v < 2 ^ b →
  let word := loadLE m (wordOf a) 4 in
  let s := 8 * (a mod 4) in
  same (storeLE m (wordOf a) 4 (word mod 2 ^ s + v * 2 ^ s + word / 2 ^ (s + b) * 2 ^ (s + b)))
       (storeLE m a (Z.to_nat (b / 8)) v).
Proof.
  intros Hm Hb Ha Hv word s x. subst word s. pose proof (field_offsets a b Hb Ha) as Hoff. unfold wordOf.
  assert (He : a = a - a mod 4 + a mod 4) by lia.
  set (base := a - a mod 4) in *. set (r := a mod 4) in *. clearbody base r. subst a.
  pose proof (Hm base). pose proof (Hm (base + 1)). pose proof (Hm (base + 1 + 1)). pose proof (Hm (base + 1 + 1 + 1)).
  destruct Hoff as [(-> & [-> | [-> | [-> | ->]]])|(-> & [-> | ->])];
    word_constants; cbn [loadLE storeLE];
    rewrite ?Z.add_0_r; try replace (base + 2) with (base + 1 + 1) by lia;
    try replace (base + 3) with (base + 1 + 1 + 1) by lia;
    repeat match goal with |- context [?y =? ?z] => destruct (Z.eqb_spec y z); subst end;
    try done; try lia; word_powers; Z.to_euclidean_division_equations; lia.
Qed.

(** ** Expressions *)

(** All registers of an expression are below [f]. *)
Fixpoint below (f : nat) (e : expr) : bool :=
  match e with
  | Val r => Nat.ltb r f
  | Global _ | Const _ => true
  | Bin _ _ a b | ICmpEQ a b => below f a && below f b
  | Trunc _ a | ZExt _ a | PtrToInt a | IntToPtr a | BitCast a => below f a
  end.

(** Registers below [f] have their values. *)
Definition agree (f : nat) (rg rg' : regs) : Prop := ∀ r, (r < f)%nat → rg' r = rg r.

Section Expressions.
Context (sym : string → Z).

Lemma eval_agree f rg rg' e : agree f rg rg' → below f e = true → eval sym rg' e = eval sym rg e.
Proof.
  intros Hag. induction e; simpl; intros Hb; try done; bool_to_prop;
    repeat match goal with IH : below _ _ = true → _, H : below _ _ = true |- _ => rewrite (IH H); clear IH end; try done.
  apply Nat.ltb_lt in Hb. by rewrite Hag.
Qed.

Lemma agree_setReg f rg rg' d v : agree f rg rg' → (f <= d)%nat → agree f rg (setReg rg' d v).
Proof. intros Hag Hd r Hr. unfold setReg. destruct (Nat.eqb_spec r d); [lia|]. by apply Hag. Qed.

Lemma setReg_eq rg d v : setReg rg d v d = v.
Proof. unfold setReg. by rewrite Nat.eqb_refl. Qed.

Lemma setReg_ne rg d v r : r ≠ d → setReg rg d v r = rg r.
Proof. unfold setReg. intros. by destruct (Nat.eqb_spec r d). Qed.

Lemma narrow_pointer rg ptr a b :
  eval sym rg ptr = Some a → 0 <= a < 2 ^ 64 → eval sym rg (Pointer (NarrowWordFor ptr b)) = Some (wordOf a).
Proof. intros He Ha. simpl. rewrite He. simpl. by rewrite land_align4. Qed.

Lemma narrow_shift rg ptr a b :
  eval sym rg ptr = Some a → eval sym rg (Shift (NarrowWordFor ptr b)) = Some (8 * (a mod 4)).
Proof.
  intros He. simpl. rewrite He. cbn [evalBin fmap option_fmap option_map]. rewrite land_low2.
  pose proof (Z.mod_pos_bound a 4). rewrite (wrap_small 32 (a mod 4)) by lia. simpl.
  rewrite wrap_small by lia. f_equal. lia.
Qed.

Lemma narrow_extract rg ptr a b w word :
  eval sym rg ptr = Some a → eval sym rg w = Some word →
  eval sym rg (ExtractNarrow w (Shift (NarrowWordFor ptr b)) b) = Some (wrap b (Z.shiftr word (8 * (a mod 4)))).
Proof.
  intros He Hw. unfold ExtractNarrow. cbn [eval]. rewrite Hw, (narrow_shift rg ptr a b He). cbn [evalBin].
  pose proof (Z.mod_pos_bound a 4). destruct (Z.ltb_spec (8 * (a mod 4)) 32); [done|lia].
Qed.

Lemma narrow_replace rg ptr a b w word value v :
  eval sym rg ptr = Some a → eval sym rg w = Some word → eval sym rg value = Some v →
  0 <= word < 2 ^ 32 → narrow b = true → a mod (b / 8) = 0 → 0 <= v < 2 ^ b →
  let s := 8 * (a mod 4) in
  eval sym rg (ReplaceNarrow w (Shift (NarrowWordFor ptr b)) (Mask (NarrowWordFor ptr b)) value) =
  Some (word mod 2 ^ s + v * 2 ^ s + word / 2 ^ (s + b) * 2 ^ (s + b)).
Proof.
  intros He Hw Hv Hword Hb Ha Hvr s. pose proof (field_offsets a b Hb Ha) as Hoff.
  assert (Hs : 0 <= s ∧ s + b <= 32 ∧ 0 <= b ∧ (b =? 32) = false).
  { unfold s. split_and!; try (apply Z.eqb_neq); lia. }
  destruct Hs as (Hs0 & Hs1 & Hb0 & Hb32).
  assert (Hmask : eval sym rg (Mask (NarrowWordFor ptr b)) = Some (wrap 32 (Z.shiftl (2 ^ b - 1) s))).
  { pose proof (narrow_shift rg ptr a b He) as Hsh. unfold NarrowWordFor in *. cbn [Mask Shift] in *.
    rewrite Hb32. cbn [eval] in *. rewrite Hsh. cbn [evalBin]. fold s.
    destruct (Z.ltb_spec s 32); [done|lia]. }
  unfold ReplaceNarrow, CreateNot. cbn [eval]. rewrite Hw, Hv, Hmask, (narrow_shift rg ptr a b He).
  cbn [evalBin]. fold s. destruct (Z.ltb_spec s 32); [|lia]. f_equal. by apply replace_field.
Qed.

Lemma lxor_ones_lnot w y : 0 <= w → 0 <= y < 2 ^ w → Z.lxor y (2 ^ w - 1) = wrap w (Z.lnot y).
Proof.
  intros Hw Hy. rewrite Z.sub_1_r, <-Z.ones_equiv. apply Z.bits_inj'. intros n Hn. unfold wrap.
  rewrite Z.lxor_spec, Z.testbit_ones_nonneg, Z.testbit_mod_pow2 by lia.
  destruct (Z.ltb_spec n w); simpl; [by rewrite Z.lnot_spec, xorb_true_r|].
  rewrite xorb_false_r. by apply (testbit_above y n w).
Qed.

Lemma bitwise_range (f : Z → Z → Z) w x y :
  (∀ a b n, Z.testbit (f a b) n = true → Z.testbit a n = true ∨ Z.testbit b n = true) →
  (0 <= x → 0 <= y → 0 <= f x y) →
  0 <= w → 0 <= x < 2 ^ w → 0 <= y < 2 ^ w → 0 <= f x y < 2 ^ w.
Proof.
  intros Hf Hpos Hw Hx Hy. assert (H0 : 0 <= f x y) by (apply Hpos; lia). split; [done|].
  destruct (decide (f x y < 2 ^ w)) as [|Hge]; [done|]. exfalso.
  assert (Hl : 0 < f x y) by (pose proof (pow2_pos w Hw); lia).
  assert (Hn : w <= Z.log2 (f x y)) by (apply Z.log2_le_pow2; lia).
  destruct (Hf _ _ _ (Z.bit_log2 _ Hl)) as [Ht|Ht]; rewrite (testbit_above _ _ w) in Ht; (done || lia).
Qed.

(** The builder's value is the operation's result. *)
Lemma operation_result rg op w old x value v e :
  0 <= w → AtomicOperation op w old value = Some e →
  eval sym rg old = Some x → eval sym rg value = Some v → 0 <= x < 2 ^ w → 0 <= v < 2 ^ w →
  ∃ new, eval sym rg e = Some new ∧ rmwResult op w x v = Some new ∧ 0 <= new < 2 ^ w.
Proof.
  intros Hw Hop Ho Hv Hx Hvr.
  assert (Hand : 0 <= Z.land x v < 2 ^ w).
  { apply bitwise_range; try done; [|intros; apply Z.land_nonneg; lia].
    intros a b n. rewrite Z.land_spec. intros [? ?]%andb_true_iff. auto. }
  assert (Hor : 0 <= Z.lor x v < 2 ^ w).
  { apply bitwise_range; try done; [|intros; apply Z.lor_nonneg; lia].
    intros a b n. rewrite Z.lor_spec. by intros ?%orb_true_iff. }
  assert (Hxor : 0 <= Z.lxor x v < 2 ^ w).
  { apply bitwise_range; try done; [|intros; apply Z.lxor_nonneg; lia].
    intros a b n. rewrite Z.lxor_spec. destruct (Z.testbit a n), (Z.testbit b n); auto. }
  destruct op; simpl in Hop; try discriminate; injection Hop as <-; unfold CreateNot; cbn [eval];
    rewrite ?Ho, ?Hv; cbn [evalBin rmwResult]; eexists; split_and!; try reflexivity; try lia;
    rewrite ?lxor_ones_lnot by lia; try reflexivity; apply wrap_range; lia.
Qed.
End Expressions.

(** ** Compare-exchange loops under interference *)

(** Accesses that leave the memory as they found it. *)
Definition stutters (log : list access) : Prop := Forall (λ a, same (left_ a) (seen a)) log.

(** Between any two consecutive accesses the word changed. *)
Fixpoint contendedFrom (word : mem → Z) (c : Z) (ms : list mem) : Prop :=
  match ms with [] => True | m :: ms => word m ≠ c ∧ contendedFrom word (word m) ms end.
Definition contended (word : mem → Z) (ms : list mem) : Prop :=
  match ms with [] => True | m :: ms => contendedFrom word (word m) ms end.

(** The shape both read-modify-write lowerings emit. *)
Definition casLoop (d : nat) (ty : type) (ptr desired result : expr) (align : Z) (f : nat) : code :=
  Code (λ lbl, match lbl with
    | Before => Block [] [Load f ty ptr Monotonic align false] (Br Retry)
    | Retry =>
        Block [(S f, [(Before, Val f); (Retry, Val (S (S f)))])]
          [CreateCas (S (S f)) (S (S (S f))) ty ptr (Val (S f)) desired align]
          (CondBr (Val (S (S (S f)))) Done Retry)
    | _ => emptyBlock
    end) [(d, result)].

Section CasLoop.
Context (sym : string → Z) (rg : regs) (f d : nat) (ty : type) (ptr desired result : expr) (align : Z).
Context (p : Z) (update answer : Z → Z).
Let n := bytesOf ty.
Let c := casLoop d ty ptr desired result align f.
Let word (m : mem) := loadLE m p n.
Hypothesis Hptr : ∀ rg', agree f rg rg' → eval sym rg' ptr = Some p.
Hypothesis Hdesired : ∀ rg', agree f rg rg' → 0 <= rg' (S f) < 256 ^ Z.of_nat n →
  eval sym rg' desired = Some (update (rg' (S f))).
Hypothesis Hresult : ∀ rg', agree f rg rg' → 0 <= rg' (S f) < 256 ^ Z.of_nat n →
  eval sym rg' result = Some (answer (rg' (S f))).
Hypothesis Hd : (d < f)%nat.

(** What a finished loop has done. *)
Definition casFinished (ms : list mem) (log0 : list access) (o : outcome) : Prop :=
  ∃ rg' pre m, o = Finished rg' (log0 ++ pre ++ [Access m (storeLE m p n (update (word m))) SequentiallyConsistent]) ∧
    stutters pre ∧ m ∈ ms ∧ rg' d = answer (word m) ∧ (∀ r, (r < f)%nat → r ≠ d → rg' r = rg r).

Lemma casLoop_retry ms : ∀ fuel from rg1 cur log,
  Forall bytes ms → agree f rg rg1 → (2 * length ms + 2 <= fuel)%nat → 0 <= cur < 256 ^ Z.of_nat n →
  (from = Before ∧ rg1 f = cur ∨ from = Retry ∧ rg1 (S (S f)) = cur) →
  casFinished ms log (runFrom sym fuel c from Retry rg1 ms log) ∨
  (∃ log', runFrom sym fuel c from Retry rg1 ms log = Waiting (log ++ log') ∧
     length log' = length ms ∧ contendedFrom word cur ms).
Proof.
  induction ms as [|m ms IH]; intros fuel from rg1 cur log Hms Hag Hfuel Hcur Hfrom;
    (destruct fuel as [|fuel]; [simpl in Hfuel; lia|]); cbn [runFrom].
  all: assert (Hent : enter sym rg1 from (phis (blocks c Retry)) = Some (setReg rg1 (S f) cur))
    by (destruct Hfrom as [[-> <-]|[-> <-]]; reflexivity).
  all: rewrite Hent; clear Hent; set (rg2 := setReg rg1 (S f) cur).
  all: assert (Hag2 : agree f rg rg2) by (apply agree_setReg; [done|lia]).
  all: assert (Hc2 : rg2 (S f) = cur) by apply setReg_eq.
  - right. exists []. rewrite app_nil_r. done.
  - apply Forall_cons in Hms as [Hm Hms].
    cbn [c casLoop blocks insts execInsts CreateCas execInst]. rewrite (Hptr rg2 Hag2).
    cbn [eval mbind option_bind]. rewrite (Hdesired rg2 Hag2) by (by rewrite Hc2). cbn [mbind option_bind].
    fold n. rewrite Hc2. change (loadLE m p n) with (word m).
    destruct (Z.eqb_spec (word m) cur) as [Heq|Hne].
    + left. cbn [terminator eval]. rewrite setReg_eq. cbn [Z.eqb Pos.eqb].
      destruct fuel as [|fuel]; [simpl in Hfuel; lia|]. cbn [runFrom c casLoop blocks].
      set (rg3 := setReg (setReg rg2 (S (S f)) (word m)) (S (S (S f))) 1).
      change (enter sym rg3 Retry (phis emptyBlock)) with (Some rg3).
      cbn [insts emptyBlock execInsts terminator]. unfold c at 1. cbn [casLoop replaced assign].
      assert (Hag3 : agree f rg rg3) by (unfold rg3; do 2 (apply agree_setReg; [|lia]); done).
      assert (Hc3 : rg3 (S f) = cur) by (unfold rg3; rewrite !setReg_ne by lia; done).
      rewrite (Hresult rg3 Hag3) by (by rewrite Hc3). rewrite Hc3.
      exists (setReg rg3 d (answer cur)), [], m. rewrite <-Heq. split_and!; [done|constructor|by left|apply setReg_eq|].
      intros r Hr Hrd. rewrite setReg_ne by done. by apply Hag3.
    + cbn [terminator eval]. rewrite setReg_eq. cbn [Z.eqb].
      set (rg3 := setReg (setReg rg2 (S (S f)) (word m)) (S (S (S f))) 0).
      destruct (IH fuel Retry rg3 (word m) (log ++ [Access m m SequentiallyConsistent]) Hms) as [Hf|Hw].
      * unfold rg3. do 2 (apply agree_setReg; [|lia]). done.
      * simpl in Hfuel. lia.
      * by apply loadLE_range.
      * right. split; [done|]. unfold rg3. by rewrite setReg_ne, setReg_eq by lia.
      * left. destruct Hf as (rg' & pre & m' & -> & Hst & Hin & Hr).
        exists rg', (Access m m SequentiallyConsistent :: pre), m'. split; [by rewrite <-app_assoc|].
        split; [by constructor|]. split; [by right|done].
      * right. destruct Hw as (log' & -> & Hlen & Hcon).
        exists (Access m m SequentiallyConsistent :: log'). rewrite <-app_assoc. simpl. by rewrite Hlen.
Qed.

Lemma casLoop_run ms :
  Forall bytes ms →
  casFinished ms [] (runCode sym c rg ms) ∨
  (∃ log, runCode sym c rg ms = Waiting log ∧ length log = length ms ∧ contended word ms).
Proof.
  intros Hms. unfold runCode. destruct ms as [|m ms]; [right; by exists []|].
  apply Forall_cons in Hms as [Hm Hms]. change (2 * length (m :: ms) + 4)%nat with (S (length ms + S (length ms + 0) + 4)).
  cbn [runFrom c casLoop blocks phis enter foldr insts execInsts execInst].
  rewrite (Hptr rg) by (intros ? ?; done). cbn [mbind option_bind terminator].
  fold n. change (loadLE m p n) with (word m). fold c.
  edestruct (casLoop_retry ms (length ms + S (length ms + 0) + 4) Before (setReg rg f (word m)) (word m)
    ([] ++ [Access m m Monotonic])) as [Hf|Hw]; [done| | | | | |].
  - apply agree_setReg; [by intros ? ?|lia].
  - lia.
  - by apply loadLE_range.
  - left. split; [done|apply setReg_eq].
  - left. destruct Hf as (rg' & pre & m' & -> & Hst & Hin & Hr).
    exists rg', (Access m m Monotonic :: pre), m'. split; [done|]. split; [by constructor|]. split; [by right|done].
  - right. destruct Hw as (log' & -> & Hlen & Hcon). exists (Access m m Monotonic :: log').
    simpl. by rewrite Hlen.
Qed.
End CasLoop.

(** The shape of the compare-exchange lowering. *)
Definition cmpLoop (d ok : nat) (ptr observed matches desired : expr) (f : nat) : code :=
  Code (λ lbl, match lbl with
    | Before => Block [] [Load f (TInt 32) ptr Monotonic 4 false] (Br Retry)
    | Retry => Block [(S f, [(Before, Val f); (Attempt, Val (S (S f)))])] [] (CondBr matches Attempt Done)
    | Attempt =>
        Block [] [CreateCas (S (S f)) (S (S (S f))) (TInt 32) ptr (Val (S f)) desired 4]
          (CondBr (Val (S (S (S f)))) Done Retry)
    | Done => Block [(S (S (S (S f))), [(Retry, Const 0); (Attempt, Const 1)])] [] Ret
    end) [(d, observed); (ok, Val (S (S (S (S f)))))].

Section CmpLoop.
Context (sym : string → Z) (rg : regs) (f d ok : nat) (ptr observed matches desired : expr).
Context (p cv : Z) (observe update : Z → Z).
Let word (m : mem) := loadLE m p 4.
Let c := cmpLoop d ok ptr observed matches desired f.
Definition isWord (z : Z) : Prop := 0 <= z < 2 ^ 32.
Hypothesis Hptr : ∀ rg', agree f rg rg' → eval sym rg' ptr = Some p.
Hypothesis Hobs : ∀ rg', agree f rg rg' → isWord (rg' (S f)) → eval sym rg' observed = Some (observe (rg' (S f))).
Hypothesis Hmatch : ∀ rg', agree f rg rg' → isWord (rg' (S f)) →
  eval sym rg' matches = Some (if observe (rg' (S f)) =? cv then 1 else 0).
Hypothesis Hdesired : ∀ rg', agree f rg rg' → isWord (rg' (S f)) → eval sym rg' desired = Some (update (rg' (S f))).
Hypothesis Hd : (d < f)%nat.
Hypothesis Hok : (ok < f)%nat.
Hypothesis Hne : d ≠ ok.

Lemma isWord_load m : bytes m → isWord (word m).
Proof. intros Hm. exact (loadLE_range m p 4 Hm). Qed.

(** The exchange happened at the last access, or the last access saw a field
    other than the expected one. *)
Definition cmpFinished (ms : list mem) (o : outcome) : Prop :=
  ∃ rg' pre acc, o = Finished rg' (pre ++ [acc]) ∧ stutters pre ∧ seen acc ∈ ms ∧
    (∀ r, (r < f)%nat → r ≠ d → r ≠ ok → rg' r = rg r) ∧ rg' d = observe (word (seen acc)) ∧
    ((rg' d = cv ∧ rg' ok = 1 ∧ left_ acc = storeLE (seen acc) p 4 (update (word (seen acc))) ∧
        ordered acc = SequentiallyConsistent) ∨
     (rg' d ≠ cv ∧ rg' ok = 0 ∧ left_ acc = seen acc ∧
        (ordered acc = SequentiallyConsistent ∨ ordered acc = Monotonic ∧ pre = []))).

Lemma cmpLoop_head fuel from rg1 cur ms log :
  agree f rg rg1 → isWord cur →
  (from = Before ∧ rg1 f = cur ∨ from = Attempt ∧ rg1 (S (S f)) = cur) →
  runFrom sym (S fuel) c from Retry rg1 ms log =
  runFrom sym fuel c Retry (if observe cur =? cv then Attempt else Done) (setReg rg1 (S f) cur) ms log.
Proof.
  intros Hag Hw Hfrom. cbn [runFrom].
  assert (Hent : enter sym rg1 from (phis (blocks c Retry)) = Some (setReg rg1 (S f) cur))
    by (destruct Hfrom as [[-> <-]|[-> <-]]; reflexivity).
  rewrite Hent. change (insts (blocks c Retry)) with (@nil inst).
  change (terminator (blocks c Retry)) with (CondBr matches Attempt Done). cbn [execInsts].
  rewrite Hmatch, setReg_eq; [|apply agree_setReg; [done|lia]|by rewrite setReg_eq].
  by destruct (observe cur =? cv).
Qed.

Lemma cmpLoop_done fuel from rg1 flag ms log :
  agree f rg rg1 → isWord (rg1 (S f)) →
  (from = Retry ∧ flag = 0 ∨ from = Attempt ∧ flag = 1) →
  ∃ rg', runFrom sym (S fuel) c from Done rg1 ms log = Finished rg' log ∧
    (∀ r, (r < f)%nat → r ≠ d → r ≠ ok → rg' r = rg r) ∧ rg' d = observe (rg1 (S f)) ∧ rg' ok = flag.
Proof.
  intros Hag Hw Hfrom. cbn [runFrom]. set (rg2 := setReg rg1 (S (S (S (S f)))) flag).
  assert (Hent : enter sym rg1 from (phis (blocks c Done)) = Some rg2)
    by (destruct Hfrom as [[-> ->]|[-> ->]]; reflexivity).
  rewrite Hent. change (insts (blocks c Done)) with (@nil inst). change (terminator (blocks c Done)) with Ret.
  change (replaced c) with [(d, observed); (ok, Val (S (S (S (S f)))))]. cbn [execInsts assign].
  assert (Hag2 : agree f rg rg2) by (apply agree_setReg; [done|lia]).
  assert (Hc2 : rg2 (S f) = rg1 (S f)) by (unfold rg2; by rewrite setReg_ne by lia).
  rewrite Hobs, Hc2 by (by rewrite ?Hc2). cbn [eval]. eexists. split; [reflexivity|]. split_and!.
  - intros r Hr H1 H2. rewrite !setReg_ne by done. by apply Hag2.
  - by rewrite setReg_eq.
  - rewrite setReg_ne, setReg_eq by done. apply setReg_eq.
Qed.

Lemma cmpLoop_attempt fuel rg1 m ms log :
  agree f rg rg1 → isWord (rg1 (S f)) →
  let hit := word m =? rg1 (S f) in
  runFrom sym (S fuel) c Retry Attempt rg1 (m :: ms) log =
  runFrom sym fuel c Attempt (if hit then Done else Retry)
    (setReg (setReg rg1 (S (S f)) (word m)) (S (S (S f))) (if hit then 1 else 0)) ms
    (log ++ [Access m (if hit then storeLE m p 4 (update (rg1 (S f))) else m) SequentiallyConsistent]).
Proof.
  intros Hag Hw hit. cbn [runFrom]. change (enter sym rg1 Retry (phis (blocks c Attempt))) with (Some rg1).
  change (insts (blocks c Attempt)) with
    [CreateCas (S (S f)) (S (S (S f))) (TInt 32) ptr (Val (S f)) desired 4].
  change (terminator (blocks c Attempt)) with (CondBr (Val (S (S (S f)))) Done Retry).
  cbn [CreateCas execInsts execInst].
  rewrite (Hptr rg1 Hag). cbn [eval mbind option_bind]. rewrite (Hdesired rg1 Hag Hw). cbn [mbind option_bind].
  change (bytesOf (TInt 32)) with 4%nat. fold (word m). fold hit.
  destruct hit; cbn [terminator eval]; rewrite setReg_eq; reflexivity.
Qed.

Lemma cmpLoop_retry ms : ∀ fuel from rg1 m0 o log,
  Forall bytes ms → bytes m0 → agree f rg rg1 → (2 * length ms + 2 <= fuel)%nat → stutters log →
  (o = SequentiallyConsistent ∨ o = Monotonic ∧ log = []) →
  (from = Before ∧ rg1 f = word m0 ∨ from = Attempt ∧ rg1 (S (S f)) = word m0) →
  let start := log ++ [Access m0 m0 o] in
  cmpFinished (m0 :: ms) (runFrom sym fuel c from Retry rg1 ms start) ∨
  (∃ log', runFrom sym fuel c from Retry rg1 ms start = Waiting (start ++ log') ∧
     length log' = length ms ∧ contendedFrom word (word m0) ms).
Proof.
  induction ms as [|m ms IH]; intros fuel from rg1 m0 o log Hms Hm0 Hag Hfuel Hst Ho Hfrom start;
    (destruct fuel as [|[|fuel]]; [simpl in Hfuel; lia|simpl in Hfuel; lia|]).
  all: pose proof (isWord_load m0 Hm0) as Hw0; rewrite (cmpLoop_head _ _ _ (word m0)) by done.
  all: set (rg2 := setReg rg1 (S f) (word m0)).
  all: assert (Hag2 : agree f rg rg2) by (apply agree_setReg; [done|lia]).
  all: assert (Hc2 : rg2 (S f) = word m0) by apply setReg_eq.
  all: assert (Hw2 : isWord (rg2 (S f))) by (by rewrite Hc2).
  all: destruct (Z.eqb_spec (observe (word m0)) cv) as [Heq|Hneq].
  2, 4: left; edestruct (cmpLoop_done fuel Retry rg2 0) as (rg' & -> & Hr & Hrd & Hrok);
    [done|done|by left|]; rewrite Hc2 in Hrd; exists rg', log, (Access m0 m0 o); cbn [seen left_ ordered];
    split_and!; [done|done|by left|done|done|]; right; split_and!; [by rewrite Hrd|done|done|exact Ho].
  - right. exists []. rewrite app_nil_r. by split_and!.
  - apply Forall_cons in Hms as [Hm Hms]. rewrite cmpLoop_attempt, Hc2 by done.
    destruct (Z.eqb_spec (word m) (word m0)) as [Hhit|Hmiss].
    + left. set (rg3 := setReg (setReg rg2 (S (S f)) (word m)) (S (S (S f))) 1).
      assert (Hc3 : rg3 (S f) = word m0) by (unfold rg3; by rewrite !setReg_ne by lia).
      destruct fuel as [|fuel]; [simpl in Hfuel; lia|].
      edestruct (cmpLoop_done fuel Attempt rg3 1) as (rg' & -> & Hr & Hrd & Hrok);
        [unfold rg3; do 2 (apply agree_setReg; [|lia]); done|by rewrite Hc3|by right|].
      rewrite Hc3 in Hrd. exists rg', start, (Access m (storeLE m p 4 (update (word m0))) SequentiallyConsistent).
      cbn [seen left_ ordered]. rewrite Hhit. split_and!; [done| |right; by left|done|done|].
      * apply Forall_app. split; [done|]. by repeat constructor.
      * left. split_and!; [by rewrite Hrd|done|done|done].
    + edestruct (IH fuel Attempt (setReg (setReg rg2 (S (S f)) (word m)) (S (S (S f))) 0) m
        SequentiallyConsistent start) as [Hf|Hwt]; [done|done| | | |by left| | |].
      * do 2 (apply agree_setReg; [|lia]). done.
      * simpl in Hfuel. lia.
      * apply Forall_app. split; [done|]. by repeat constructor.
      * right. split; [done|]. by rewrite setReg_ne, setReg_eq by lia.
      * left. destruct Hf as (rg' & pre & acc & -> & Hpre & Hin & Hrest). exists rg', pre, acc.
        split; [done|]. split; [done|]. split; [by right|done].
      * right. destruct Hwt as (log' & -> & Hlen & Hcon). eexists (_ :: log').
        rewrite <-app_assoc. simpl. by rewrite Hlen.
Qed.

Lemma cmpLoop_run ms :
  Forall bytes ms →
  cmpFinished ms (runCode sym c rg ms) ∨
  (∃ log, runCode sym c rg ms = Waiting log ∧ length log = length ms ∧ contended word ms).
Proof.
  intros Hms. unfold runCode. destruct ms as [|m ms]; [right; by exists []|].
  apply Forall_cons in Hms as [Hm Hms]. change (2 * length (m :: ms) + 4)%nat with (S (length ms + S (length ms + 0) + 4)).
  cbn [runFrom c cmpLoop blocks phis enter foldr insts execInsts execInst].
  rewrite (Hptr rg) by (intros ? ?; done). cbn [mbind option_bind terminator].
  change (bytesOf (TInt 32)) with 4%nat. fold (word m). fold c.
  edestruct (cmpLoop_retry ms (length ms + S (length ms + 0) + 4) Before (setReg rg f (word m)) m Monotonic [])
    as [Hf|Hw]; [done|done| | |constructor|by right| | |].
  - apply agree_setReg; [by intros ? ?|lia].
  - lia.
  - left. split; [done|apply setReg_eq].
  - by left.
  - right. destruct Hw as (log' & -> & Hlen & Hcon). exists (Access m m Monotonic :: log').
    simpl. by rewrite Hlen.
Qed.
End CmpLoop.
