(* ===== verification/AtomicsProps.v ===== *)
(** * Correctness of the atomics passes

    Lowered code is one atomic step of the operation it replaces, whatever
    the other processors do between its accesses, and makes progress unless
    they change the word. *)

From Stdlib Require Import ZArith Lia.
From stdpp Require Import base numbers list strings.
From S2P Require Import Prelude Bytes Atomics AtomicsFacts.

Import Atomics.
Local Open Scope Z_scope.

(** ** What an instruction needs to be executed *)

(** Types whose size is a whole number of bytes, as the IR verifier requires
    of atomic operations. *)
Definition sized (ty : type) : Prop :=
  match ty with
  | TInt n | TFloat n | TVector n => 0 < n ∧ n mod 8 = 0
  | TPtr => True
  | TScalable => False
  end.

Section Executable.
Context (sym : string → Z).

(** The operand is defined before register [f] and is a [w]-bit pattern. *)
Definition operand (rg : regs) (f : nat) (w : Z) (e : expr) (v : Z) : Prop :=
  below f e = true ∧ eval sym rg e = Some v ∧ 0 <= v < 2 ^ w.

(** The address honours the alignment the instruction states. *)
Definition location (rg : regs) (f : nat) (align : Z) (ptr : expr) (a : Z) : Prop :=
  operand rg f 64 ptr a ∧ (∃ k, 0 <= k ∧ align = 2 ^ k) ∧ a mod align = 0.

Definition executable (rg : regs) (f : nat) (i : inst) : Prop :=
  match i with
  | Load d ty ptr _ align _ => sized ty ∧ (d < f)%nat ∧ ∃ a, location rg f align ptr a
  | Store ty value ptr _ align _ =>
      sized ty ∧ (∃ a, location rg f align ptr a) ∧ ∃ v, operand rg f (AtomicWidth ty) value v
  | Rmw d op ty ptr value _ align =>
      sized ty ∧ (d < f)%nat ∧ (∃ a, location rg f align ptr a) ∧ ∃ v, operand rg f (AtomicWidth ty) value v
  | CmpXchg d ok ty ptr cmp new _ _ align =>
      sized ty ∧ ((d < f)%nat ∧ (ok < f)%nat ∧ d ≠ ok) ∧ (∃ a, location rg f align ptr a) ∧
      (∃ v, operand rg f (AtomicWidth ty) cmp v) ∧ ∃ v, operand rg f (AtomicWidth ty) new v
  | Fence _ _ | Other _ => True
  end.

(** A compare-exchange that failed at its first, relaxed read. *)
Definition relaxedFailure (i : inst) (pre : list access) (acc : access) (rg' : regs) : Prop :=
  match i with
  | CmpXchg _ ok _ _ _ _ _ _ _ => pre = [] ∧ ordered acc = Monotonic ∧ rg' ok = 0
  | _ => False
  end.

(** The last access is the operation, at least as ordered as the operation
    asks; the accesses before it wrote nothing. *)
Definition atomically (rg : regs) (f : nat) (i : inst) (log : list access) (rg' : regs) : Prop :=
  ∃ pre acc rgS mS o, log = pre ++ [acc] ∧ stutters pre ∧
    execInst sym rg (seen acc) i = Some (rgS, mS, o) ∧ same (left_ acc) mS ∧ agree f rgS rg' ∧
    (ordered acc = SequentiallyConsistent ∨ ordered acc = o ∨ relaxedFailure i pre acc rg').

(** The bytes an access of the lowered code touches contain those of the operation. *)
Definition covers (rg : regs) (i : inst) (p : Z) (n : nat) : Prop :=
  match i with
  | Load _ ty ptr _ _ _ | Store ty _ ptr _ _ _ | Rmw _ _ ty ptr _ _ _ | CmpXchg _ _ ty ptr _ _ _ _ _ =>
      ∃ a, eval sym rg ptr = Some a ∧ p <= a ∧ a + Z.of_nat (bytesOf ty) <= p + Z.of_nat n
  | _ => True
  end.

Definition runsAtomically (rg : regs) (f : nat) (i : inst) (ms : list mem) (out : outcome) : Prop :=
  (∃ rg' log, out = Finished rg' log ∧ atomically rg f i log rg') ∨
  (∃ log p n, out = Waiting log ∧ length log = length ms ∧ covers rg i p n ∧
     contended (λ m, loadLE m p n) ms).

(** ** Sizes *)

Lemma sized_width ty : sized ty → AtomicWidth ty = 8 * Z.of_nat (bytesOf ty) ∧ 0 < AtomicWidth ty.
Proof.
  unfold bytesOf. destruct ty as [n| |n|n|]; simpl; intros H; try done.
  all: destruct H as [H1 H2]; assert (E : (n + 7) / 8 * 8 = n) by (Z.to_euclidean_division_equations; lia);
    rewrite E; rewrite Z2Nat.id by (apply Z.div_pos; lia); Z.to_euclidean_division_equations; lia.
Qed.

Lemma sized_pow ty : sized ty → 256 ^ Z.of_nat (bytesOf ty) = 2 ^ AtomicWidth ty.
Proof. intros H%sized_width. destruct H as [-> _]. rewrite Z.pow_mul_r by lia. done. Qed.

Lemma narrow_sized ty b : sized ty → AtomicWidth ty = b → narrow b = true → Z.to_nat (b / 8) = bytesOf ty.
Proof. intros _ <- _. done. Qed.

(** Natural alignment of an address from the instruction's alignment. *)
Lemma natural_align rg f align ptr a b :
  location rg f align ptr a → narrow b = true → (align * 8 <? b) = false → a mod (b / 8) = 0.
Proof.
  intros (_ & (k & Hk & ->) & Ha) Hb Hal. bool_to_prop. unfold narrow in Hb.
  apply orb_true_iff in Hb as [Hb|Hb]; bool_to_prop; subst b; [apply Z.mod_1_r|]. change (16 / 8) with 2.
  assert (1 <= k). { destruct (decide (k = 0)) as [->|]; [simpl in Hal; lia|lia]. }
  replace k with (Z.succ (k - 1)) in Ha by lia. rewrite Z.pow_succ_r in Ha by lia.
  apply Z.mod_divide in Ha; [|pose proof (pow2_pos (k - 1)); lia]. apply Z.mod_divide; [lia|].
  eapply Z.divide_trans; [|exact Ha]. by exists (2 ^ (k - 1)); rewrite Z.mul_comm.
Qed.

Lemma operand_agree rg f w e v rg' : operand rg f w e v → agree f rg rg' → eval sym rg' e = Some v.
Proof. intros (Hb & He & _) Hag. by rewrite (eval_agree sym f rg rg'). Qed.

Lemma agree_le f g rg rg' : agree g rg rg' → (f <= g)%nat → agree f rg rg'.
Proof. intros H Hle r Hr. apply H. lia. Qed.

Lemma below_le f g e : below f e = true → (f <= g)%nat → below g e = true.
Proof.
  intros Hb Hle. induction e; simpl in *; try done; bool_to_prop; rewrite ?andb_true_iff; try (by auto).
  apply Nat.ltb_lt in Hb. apply Nat.ltb_lt. lia.
Qed.

Lemma operand_le f g rg w e v : operand rg f w e v → (f <= g)%nat → operand rg g w e v.
Proof. intros (Hb & ?) Hle. split; [by eapply below_le|done]. Qed.

(** ** The loops *)

(** A narrow field's word covers it. *)
Lemma word_covers a b :
  narrow b = true → a mod (b / 8) = 0 →
  wordOf a <= a ∧ a + Z.of_nat (Z.to_nat (b / 8)) <= wordOf a + Z.of_nat 4.
Proof.
  intros Hb Ha. unfold wordOf.
  destruct (field_offsets a b Hb Ha) as [(-> & H)|(-> & H)].
  - change (Z.of_nat (Z.to_nat (8 / 8))) with 1. pose proof (Z.mod_pos_bound a 4). lia.
  - change (Z.of_nat (Z.to_nat (16 / 8))) with 2. lia.
Qed.

Lemma narrow_pos b : narrow b = true → 0 < b.
Proof. unfold narrow. intros [H|H]%orb_true_iff; bool_to_prop; lia. Qed.

(** The narrow loop replaces the field at its last access. *)
Lemma narrow_rmw_run rg f d op b ptr value align c ms a v :
  LowerNarrowRmw d op (TInt b) ptr value f = Ok c → (d < f)%nat →
  location rg f align ptr a → operand rg f b value v → narrow b = true → (align * 8 <? b) = false →
  Forall bytes ms →
  (∃ rg' pre m m' new, runCode sym c rg ms =
      Finished rg' (pre ++ [Access m m' SequentiallyConsistent]) ∧ stutters pre ∧
      rmwResult op b (loadLE m a (Z.to_nat (b / 8))) v = Some new ∧
      same m' (storeLE m a (Z.to_nat (b / 8)) new) ∧
      rg' d = loadLE m a (Z.to_nat (b / 8)) ∧ (∀ r, (r < f)%nat → r ≠ d → rg' r = rg r)) ∨
  (∃ log, runCode sym c rg ms = Waiting log ∧ length log = length ms ∧
     contended (λ m, loadLE m (wordOf a) 4) ms).
Proof.
  intros Hc Hd Hloc Hval Hb Hal Hms. pose proof (natural_align _ _ _ _ _ _ Hloc Hb Hal) as Ha.
  pose proof (narrow_pos b Hb) as Hb0. destruct Hval as (Hvb & Hve & Hvr).
  destruct Hloc as ((Hpb & Hpe & Hpr) & _).
  unfold LowerNarrowRmw in Hc. case_in Hc; [|done]. rename e into newValue, Heqo into Hop. injection Hc as <-.
  set (extract := λ word, wrap b (Z.shiftr word (8 * (a mod 4)))).
  assert (Hnew : ∀ rg', agree f rg rg' →
    ∃ new, eval sym rg' newValue = Some new ∧ rmwResult op b (extract (rg' (S f))) v = Some new ∧ 0 <= new < 2 ^ b).
  { intros rg' Hag. eapply operation_result; [lia|exact Hop| | | |done].
    - apply narrow_extract; [by rewrite (eval_agree sym f rg rg')|done].
    - by rewrite (eval_agree sym f rg rg').
    - apply wrap_range. lia. }
  set (update := λ word, let s := 8 * (a mod 4) in
    word mod 2 ^ s + default 0 (rmwResult op b (extract word) v) * 2 ^ s + word / 2 ^ (s + b) * 2 ^ (s + b)).
  destruct (casLoop_run sym rg f d (TInt 32) (Pointer (NarrowWordFor ptr b))
    (ReplaceNarrow (Val (S f)) (Shift (NarrowWordFor ptr b)) (Mask (NarrowWordFor ptr b)) newValue)
    (ExtractNarrow (Val (S f)) (Shift (NarrowWordFor ptr b)) b) 4 (wordOf a) update extract) with (ms := ms)
    as [(rg' & pre & m & Hrun & Hst & Hin & Hrd & Hrr)|(log & Hrun & Hlen & Hcon)]; [| | |done|done| |].
  - intros rg' Hag. apply narrow_pointer; [by rewrite (eval_agree sym f rg rg')|done].
  - intros rg' Hag Hw. destruct (Hnew rg' Hag) as (new & He & Hr & Hrange). unfold update. rewrite Hr.
    apply narrow_replace; try done. by rewrite (eval_agree sym f rg rg').
  - intros rg' Hag Hw. apply narrow_extract; [by rewrite (eval_agree sym f rg rg')|done].
  - left. pose proof (proj1 (Forall_forall _ _) Hms m Hin) as Hm.
    change (bytesOf (TInt 32)) with 4%nat in *.
    assert (Hf : extract (loadLE m (wordOf a) 4) = loadLE m a (Z.to_nat (b / 8))) by (by apply field_load).
    destruct (Hnew (setReg rg (S f) (loadLE m (wordOf a) 4))) as (new & _ & Hr & Hrange).
    { apply agree_setReg; [by intros ? ?|lia]. }
    rewrite setReg_eq in Hr.
    exists rg', pre, m, (storeLE m (wordOf a) 4 (update (loadLE m (wordOf a) 4))), new.
    split_and!; [exact Hrun|done|by rewrite <-Hf|unfold update; rewrite Hr; by apply field_store|by rewrite Hrd|done].
  - right. by exists log.
Qed.

(** The narrow loop as the read-modify-write [i] it stands for. *)
Lemma narrow_rmw_atomic rg f d op ty ptr value ord align f' c ms a v :
  LowerNarrowRmw d op ty ptr value f' = Ok c → (d < f')%nat → (f <= f')%nat → sized ty →
  location rg f align ptr a → operand rg f (AtomicWidth ty) value v →
  narrow (AtomicWidth ty) = true → (align * 8 <? AtomicWidth ty) = false → Forall bytes ms →
  runsAtomically rg f' (Rmw d op ty ptr value ord align) ms (runCode sym c rg ms).
Proof.
  intros Hc Hd Hf Hty Hloc Hval Hb Hal Hms. destruct ty as [b| | | |]; try done.
  assert (Hw : AtomicWidth (TInt b) = b) by (simpl in *; Z.to_euclidean_division_equations; lia).
  rewrite Hw in *.
  assert (Hloc' : location rg f' align ptr a) by (destruct Hloc; split; [by eapply operand_le|done]).
  assert (Hval' : operand rg f' b value v) by (by eapply operand_le).
  destruct (narrow_rmw_run rg f' d op b ptr value align c ms a v)
    as [(rg' & pre & m & m' & new & -> & Hst & Hr & Hm & Hrd & Hrr)|(log & -> & Hlen & Hcon)]; try done.
  - left. exists rg', (pre ++ [Access m m' SequentiallyConsistent]). split; [done|].
    exists pre, (Access m m' SequentiallyConsistent),
      (setReg rg d (loadLE m a (Z.to_nat (b / 8)))), (storeLE m a (Z.to_nat (b / 8)) new), ord.
    cbn [execInst seen left_ ordered]. unfold bytesOf. rewrite Hw. destruct Hloc as ((_ & -> & _) & _), Hval as (_ & -> & _).
    cbn [mbind option_bind]. rewrite Hr. cbn [mbind option_bind]. split_and!; [done|done|done|done| |by left].
    intros r Hrf. destruct (decide (r = d)) as [->|]; [by rewrite setReg_eq|]. rewrite setReg_ne by done. by apply Hrr.
  - right. exists log, (wordOf a), 4%nat. split_and!; [done|done| |done].
    exists a. destruct Hloc as ((_ & -> & _) & ?). split; [done|]. unfold bytesOf. rewrite Hw. apply word_covers; [done|].
    eapply natural_align; [exact Hloc'|done|done].
Qed.

Lemma wide_rmw_atomic rg f d op ty ptr value ord align c ms a v :
  LowerWideRmw d op ty ptr value align f = Ok c → (d < f)%nat → sized ty →
  location rg f align ptr a → operand rg f (AtomicWidth ty) value v → Forall bytes ms →
  runsAtomically rg f (Rmw d op ty ptr value ord align) ms (runCode sym c rg ms).
Proof.
  intros Hc Hd Hty Hloc Hval Hms. destruct (sized_width ty Hty) as [Hw Hpos].
  pose proof (sized_pow ty Hty) as Hpow.
  destruct Hval as (Hvb & Hve & Hvr). destruct Hloc as ((Hpb & Hpe & Hpr) & _).
  unfold LowerWideRmw in Hc. case_in Hc; [|done]. rename e into desired, Heqo into Hop. injection Hc as <-.
  assert (Hnew : ∀ rg', agree f rg rg' → 0 <= rg' (S f) < 2 ^ AtomicWidth ty →
    ∃ new, eval sym rg' desired = Some new ∧ rmwResult op (AtomicWidth ty) (rg' (S f)) v = Some new ∧
      0 <= new < 2 ^ AtomicWidth ty).
  { intros rg' Hag Hr. eapply operation_result; [lia|exact Hop|done| |done|done].
    by rewrite (eval_agree sym f rg rg'). }
  destruct (casLoop_run sym rg f d ty ptr desired (Val (S f)) align a
    (λ old, default 0 (rmwResult op (AtomicWidth ty) old v)) (λ old, old)) with (ms := ms)
    as [(rg' & pre & m & Hrun & Hst & Hin & Hrd & Hrr)|(log & Hrun & Hlen & Hcon)]; [| | |done|done| |].
  - intros rg' Hag. by rewrite (eval_agree sym f rg rg').
  - intros rg' Hag Hr. rewrite Hpow in Hr. by destruct (Hnew rg' Hag Hr) as (new & -> & -> & _).
  - done.
  - left. eexists rg', _. split; [exact Hrun|].
    pose proof (loadLE_range m a (bytesOf ty) (proj1 (Forall_forall _ _) Hms m Hin)) as Hr. rewrite Hpow in Hr.
    destruct (Hnew (setReg rg (S f) (loadLE m a (bytesOf ty)))) as (new & _ & Hres & _);
      [apply agree_setReg; [by intros ? ?|lia]|by rewrite setReg_eq|]. rewrite setReg_eq in Hres. rewrite Hres. cbn [default].
    eexists pre, _, (setReg rg d (loadLE m a (bytesOf ty))), _, ord. split; [reflexivity|].
    cbn [execInst seen left_ ordered]. rewrite Hpe, Hve. cbn [mbind option_bind]. rewrite Hres. cbn [mbind option_bind].
    split_and!; [done|done|done| |by left].
    intros r Hrf. destruct (decide (r = d)) as [->|]; [by rewrite setReg_eq|]. rewrite setReg_ne by done. by apply Hrr.
  - right. exists log, a, (bytesOf ty). split_and!; [exact Hrun|done| |done]. exists a. split_and!; [done|lia|lia].
Qed.

Lemma narrow_cmpxchg_atomic rg f d ok ty ptr cmp new success failure align c ms a cv nv :
  LowerNarrowCmpXchg d ok ty ptr cmp new f = Ok c → (d < f)%nat ∧ (ok < f)%nat ∧ d ≠ ok → sized ty →
  location rg f align ptr a → operand rg f (AtomicWidth ty) cmp cv → operand rg f (AtomicWidth ty) new nv →
  narrow (AtomicWidth ty) = true → (align * 8 <? AtomicWidth ty) = false → Forall bytes ms →
  runsAtomically rg f (CmpXchg d ok ty ptr cmp new success failure align) ms (runCode sym c rg ms).
Proof.
  intros Hc (Hd & Hok & Hne) Hty Hloc Hcmp Hnew Hb Hal Hms. destruct ty as [b| | | |]; try done.
  assert (Hw : AtomicWidth (TInt b) = b) by (simpl in *; Z.to_euclidean_division_equations; lia).
  rewrite Hw in *. pose proof (natural_align _ _ _ _ _ _ Hloc Hb Hal) as Ha.
  assert (Hp : ∀ rg', agree f rg rg' → eval sym rg' ptr = Some a) by (intros; by eapply operand_agree; [apply Hloc|]).
  injection Hc as <-. set (observe := λ word, wrap b (Z.shiftr word (8 * (a mod 4)))).
  assert (Hobs : ∀ rg', agree f rg rg' →
    eval sym rg' (ExtractNarrow (Val (S f)) (Shift (NarrowWordFor ptr b)) b) = Some (observe (rg' (S f))))
    by (intros rg' Hag; apply narrow_extract; [by apply Hp|done]).
  destruct (cmpLoop_run sym rg f d ok (Pointer (NarrowWordFor ptr b))
    (ExtractNarrow (Val (S f)) (Shift (NarrowWordFor ptr b)) b)
    (ICmpEQ (ExtractNarrow (Val (S f)) (Shift (NarrowWordFor ptr b)) b) cmp)
    (ReplaceNarrow (Val (S f)) (Shift (NarrowWordFor ptr b)) (Mask (NarrowWordFor ptr b)) new)
    (wordOf a) cv observe
    (λ word, let s := 8 * (a mod 4) in word mod 2 ^ s + nv * 2 ^ s + word / 2 ^ (s + b) * 2 ^ (s + b))) with (ms := ms)
    as [(rg' & pre & acc & Hrun & Hst & Hin & Hrr & Hrd & Hcase)|(log & Hrun & Hlen & Hcon)]; [| | | |done|done|done|done| |].
  - intros rg' Hag. apply narrow_pointer; [by apply Hp|apply Hloc].
  - intros rg' Hag _. by apply Hobs.
  - intros rg' Hag _. cbn [eval]. rewrite Hobs by done. by rewrite (operand_agree _ _ _ _ _ _ Hcmp Hag).
  - intros rg' Hag Hword. apply narrow_replace; try done; [by apply Hp|by eapply operand_agree|apply Hnew].
  - left. eexists rg', _. split; [exact Hrun|]. 
    pose proof (proj1 (Forall_forall _ _) Hms (seen acc) Hin) as Hm.
    assert (Hfld : observe (loadLE (seen acc) (wordOf a) 4) = loadLE (seen acc) a (Z.to_nat (b / 8))) by (by apply field_load).
    rewrite Hfld in Hrd. unfold atomically. cbn [execInst]. unfold bytesOf. rewrite Hw.
    destruct Hloc as ((_ & Hpe & _) & _), Hcmp as (_ & Hce & _), Hnew as (_ & Hnv & Hnr). rewrite Hpe, Hce, Hnv.
    cbn [mbind option_bind].
    assert (Hregs : ∀ flag, rg' ok = flag → agree f (setReg (setReg rg d (loadLE (seen acc) a (Z.to_nat (b / 8)))) ok flag) rg').
    { intros flag Hfl r Hr. destruct (decide (r = ok)) as [->|]; [by rewrite setReg_eq|]. rewrite setReg_ne by done.
      destruct (decide (r = d)) as [->|]; [by rewrite setReg_eq|]. rewrite setReg_ne by done. by apply Hrr. }
    destruct Hcase as [(Hcv & Hfl & Hleft & Hord)|(Hcv & Hfl & Hleft & Hord)].
    + eexists pre, acc, _, _, success. rewrite Hrd in Hcv. rewrite Hcv, Z.eqb_refl.
      split_and!; [done|done|reflexivity| |rewrite <-Hcv; by apply Hregs|by left].
      rewrite Hleft. by apply field_store.
    + eexists pre, acc, _, _, failure. rewrite Hrd in Hcv. rewrite (proj2 (Z.eqb_neq _ _) Hcv).
      split_and!; [done|done|reflexivity|by rewrite Hleft|by apply Hregs|].
      destruct Hord as [?|[? ?]]; [by left|]. right. right. done.
  - right. exists log, (wordOf a), 4%nat. split_and!; [exact Hrun|done| |done].
    exists a. split; [apply Hloc|]. unfold bytesOf. rewrite Hw. by apply word_covers.
Qed.

(** A replacement by one instruction runs in one access. *)
Lemma straight_run i rs rg ms :
  runCode sym (straight [i] rs) rg ms =
  match ms with
  | [] => Waiting []
  | m :: _ =>
      match execInst sym rg m i with
      | Some (rg1, m', o) =>
          match assign sym rg1 rs with Some rg2 => Finished rg2 [Access m m' o] | None => Poison end
      | None => Poison
      end
  end.
Proof.
  unfold runCode. destruct ms as [|m ms]; [done|].
  cbn -[execInst assign]. destruct (execInst sym rg m i) as [[[? ?] ?]|]; done.
Qed.
(** A replacement that takes one access and leaves nothing waiting. *)
Lemma straight_atomic i i' rs rg f ms :
  (∀ m, m ∈ ms → ∃ rg1 m' o rg2 rgS mS oS,
     execInst sym rg m i' = Some (rg1, m', o) ∧ assign sym rg1 rs = Some rg2 ∧
     execInst sym rg m i = Some (rgS, mS, oS) ∧ same m' mS ∧ agree f rgS rg2 ∧
     (o = SequentiallyConsistent ∨ o = oS)) →
  (∃ p n, covers rg i p n) →
  runsAtomically rg f i ms (runCode sym (straight [i'] rs) rg ms).
Proof.
  intros Hstep (p & n & Hcov). rewrite straight_run. destruct ms as [|m ms]; [right; by exists [], p, n|].
  destruct (Hstep m) as (rg1 & m' & o & rg2 & rgS & mS & oS & -> & -> & He & Hm & Hag & Ho); [by left|].
  left. eexists _, _. split; [reflexivity|]. exists [], (Access m m' o), rgS, mS, oS. cbn [seen left_ ordered].
  split_and!; [done|constructor|done|done|done|]. destruct Ho; auto.
Qed.

Lemma eval_from rg ty bits e : eval sym rg (FromIntegerBits ty bits e) = eval sym rg e.
Proof. unfold FromIntegerBits. destruct ty; try done; by case_bool_decide. Qed.

Lemma eval_to rg ty bits e : eval sym rg (ToIntegerBits ty bits e) = eval sym rg e.
Proof. unfold ToIntegerBits. destruct ty; try done; by case_bool_decide. Qed.

Lemma below_to f ty bits e : below f (ToIntegerBits ty bits e) = below f e.
Proof. unfold ToIntegerBits. destruct ty; try done; by case_bool_decide. Qed.

Lemma sized_int ty : sized ty → AtomicWidth (TInt (AtomicWidth ty)) = AtomicWidth ty ∧ bytesOf (TInt (AtomicWidth ty)) = bytesOf ty.
Proof.
  intros H%sized_width. assert (E : AtomicWidth (TInt (AtomicWidth ty)) = AtomicWidth ty)
    by (simpl; Z.to_euclidean_division_equations; lia).
  split; [done|]. unfold bytesOf. by rewrite E.
Qed.

(** Adding zero reads the word and leaves it. *)
Lemma add_zero_same m a n w : bytes m → w = 8 * Z.of_nat n → same (storeLE m a n (wrap w (loadLE m a n + 0))) m.
Proof.
  intros Hm ->. rewrite Z.add_0_r, wrap_small; [by apply storeLE_loadLE|].
  rewrite Z.pow_mul_r by lia. by apply loadLE_range.
Qed.

Context (underlying : expr → option bool).

Lemma covers_exact rg i ptr a ty :
  eval sym rg ptr = Some a →
  (∃ d ord al vo, i = Load d ty ptr ord al vo) ∨ (∃ v ord al vo, i = Store ty v ptr ord al vo) ∨
  (∃ d op v ord al, i = Rmw d op ty ptr v ord al) → ∃ p n, covers rg i p n.
Proof.
  intros He Hi. exists a, (bytesOf ty). naive_solver lia.
Qed.

Lemma lower_rmw_atomic wide rg f d op ty ptr value ord align c ms :
  lowerRmwInst underlying wide d op ty ptr value ord align f = Ok (Some c) →
  executable rg f (Rmw d op ty ptr value ord align) → Forall bytes ms →
  runsAtomically rg f (Rmw d op ty ptr value ord align) ms (runCode sym c rg ms).
Proof.
  intros Hl (Hty & Hd & (a & Hloc) & v & Hval) Hms. unfold lowerRmwInst in Hl. cbv zeta in Hl.
  destruct (narrow (AtomicWidth ty) && negb (IsSectionedPointer underlying ptr)) eqn:En.
  { destruct (align * 8 <? AtomicWidth ty) eqn:Ea; [done|].
    apply andb_true_iff in En as [En _]. apply bind_Ok in Hl as (c' & Hc & [= ->]).
    apply (narrow_rmw_atomic rg f d op ty ptr value ord align f c ms a v); (done || lia). }
  destruct (bool_decide _ && negb _) eqn:Ew.
  { apply bind_Ok in Hl as (c' & Hc & [= ->]). by eapply wide_rmw_atomic. }
  destruct (bool_decide (op = Sub) && _) eqn:Es; [|done]. injection Hl as <-. bool_to_prop. subst op.
  destruct Hloc as ((_ & Hpe & _) & _), Hval as (_ & Hve & Hvr).
  apply straight_atomic; [|eapply covers_exact; [exact Hpe|right; right; eauto 10]].
  intros m Hm. cbn [execInst CreateNeg eval]. rewrite Hpe, Hve. cbn [evalBin mbind option_bind rmwResult assign].
  eexists _, _, _, _, _, _, _. split_and!; try reflexivity; [|by intros ? ?|by right].
  unfold wrap. rewrite Zplus_mod_idemp_r. replace (loadLE m a (bytesOf ty) + (0 - v)) with (loadLE m a (bytesOf ty) - v) by lia.
  by intros x.
Qed.

Lemma skips_widths bits ptr :
  skipsAccess underlying bits ptr = false →
  (narrow bits = true ∧ bits < 32) ∨ bits = 32 ∨ bits = 64.
Proof.
  unfold skipsAccess, narrow. intros [H _]%orb_false_iff.
  destruct (Z.eqb_spec bits 8), (Z.eqb_spec bits 16), (Z.eqb_spec bits 32), (Z.eqb_spec bits 64); simpl in *; try done;
    subst; auto; left; split; auto; lia.
Qed.

Lemma lower_load_atomic rg f d ty ptr ord align vo c ms :
  lowerLoadInst underlying d ty ptr ord align f = Ok (Some c) →
  executable rg f (Load d ty ptr ord align vo) → Forall bytes ms →
  runsAtomically rg f (Load d ty ptr ord align vo) ms (runCode sym c rg ms).
Proof.
  intros Hl (Hty & Hd & a & Hloc) Hms. unfold lowerLoadInst in Hl. cbv zeta in Hl.
  destruct (isStrongerThanMonotonic ord); [|done].
  destruct (skipsAccess _ _ _) eqn:Esk; [done|]. destruct (_ * 8 <? _) eqn:Ea; [done|].
  pose proof Hloc as ((_ & Hpe & Hpr) & _).
  assert (Hregs : ∀ z, agree f (setReg rg d z) (setReg (setReg rg f z) d z)).
  { intros z r Hr. destruct (decide (r = d)) as [->|]; [by rewrite !setReg_eq|].
    rewrite !setReg_ne by lia. done. }
  destruct (Z.ltb_spec (AtomicWidth ty) 32) as [Hlt|Hge]; injection Hl as <-;
    (apply straight_atomic; [|eapply covers_exact; [exact Hpe|left; eauto 10]]); intros m Hin;
    pose proof (proj1 (Forall_forall _ _) Hms m Hin) as Hm.
  - destruct (skips_widths _ _ Esk) as [[Hn _]|[?|?]]; [|lia|lia].
    pose proof (natural_align _ _ _ _ _ _ Hloc Hn Ea) as Hal.
    set (target := NarrowWordFor ptr (AtomicWidth ty)).
    change (IntToPtr (Bin BAnd 64 (PtrToInt ptr) (Const (2 ^ 64 - 4)))) with (Pointer target).
    change (Bin BMul 32 (Trunc 32 (Bin BAnd 64 (PtrToInt ptr) (Const 3))) (Const 8)) with (Shift target).
    cbn [execInst]. unfold target. rewrite (narrow_pointer sym rg ptr a (AtomicWidth ty) Hpe Hpr), Hpe.
    cbn [eval mbind option_bind rmwResult]. change (bytesOf (TInt 32)) with 4%nat.
    eexists _, _, _, _, _, _, _. split; [reflexivity|]. split; [|split; [reflexivity|]].
    { cbn [assign]. rewrite eval_from, (narrow_extract sym _ ptr a (AtomicWidth ty) (Val f) (loadLE m (wordOf a) 4)),
        field_load; [reflexivity|done|done|done| |cbn [eval]; by rewrite setReg_eq].
      destruct Hloc as ((Hb & _) & _). rewrite (eval_agree sym f rg _ ptr); [done| |done].
      apply agree_setReg; [by intros ? ?|lia]. }
    split_and!; [by apply add_zero_same| |by left].
    intros r Hr. change (Z.to_nat (AtomicWidth ty / 8)) with (bytesOf ty).
    destruct (decide (r = d)) as [->|]; [by rewrite !setReg_eq|]. by rewrite !setReg_ne by lia.
  - destruct (sized_int ty Hty) as [Hw1 Hw2]. cbn [execInst]. rewrite Hpe, Hw1, Hw2.
    cbn [eval mbind option_bind rmwResult].
    eexists _, _, _, _, _, _, _. split; [reflexivity|]. split; [|split; [reflexivity|]].
    { cbn [assign]. rewrite eval_from. cbn [eval]. rewrite setReg_eq. reflexivity. }
    split_and!; [|by apply Hregs|by left]. apply add_zero_same; [done|]. by apply sized_width.
Qed.

Lemma lower_store_atomic rg f ty value ptr ord align vo c ms :
  lowerStoreInst underlying ty value ptr ord align f = Ok (Some c) →
  executable rg f (Store ty value ptr ord align vo) → Forall bytes ms →
  runsAtomically rg f (Store ty value ptr ord align vo) ms (runCode sym c rg ms).
Proof.
  intros Hl (Hty & (a & Hloc) & v & Hval) Hms. unfold lowerStoreInst in Hl. cbv zeta in Hl.
  destruct (isStrongerThanMonotonic ord); [|done].
  destruct (skipsAccess _ _ _) eqn:Esk; [done|]. destruct (_ * 8 <? _) eqn:Ea; [done|].
  pose proof Hloc as ((_ & Hpe & Hpr) & _). pose proof Hval as (Hvb & Hve & Hvr).
  destruct (Z.ltb_spec (AtomicWidth ty) 32) as [Hlt|Hge].
  - destruct (skips_widths _ _ Esk) as [[Hn _]|[?|?]]; [|lia|lia].
    apply bind_Ok in Hl as (c' & Hc & [= ->]).
    destruct (narrow_rmw_run rg (S f) f Xchg (AtomicWidth ty) ptr (ToIntegerBits ty (AtomicWidth ty) value) align c ms a v)
      as [(rg' & pre & m & m' & new & -> & Hst & [= <-] & Hm & Hrd & Hrr)|(log & -> & Hlen & Hcon)]; try done; [lia| | | |].
    + destruct Hloc. split; [|done]. eapply operand_le; [done|lia].
    + split; [rewrite below_to; eapply below_le; [done|lia]|by rewrite eval_to].
    + left. eexists _, _. split; [done|]. eexists pre, _, rg, _, ord. split; [reflexivity|]. cbn [execInst seen left_ ordered].
      rewrite Hpe, Hve. split_and!; [done|reflexivity|done| |by left]. intros r Hr. apply Hrr; lia.
    + right. exists log, (wordOf a), 4%nat. split_and!; [done|done| |done]. exists a. split; [done|].
      apply word_covers; [done|]. by eapply natural_align.
  - injection Hl as <-. destruct (sized_int ty Hty) as [Hw1 Hw2].
    apply straight_atomic; [|eapply covers_exact; [exact Hpe|right; left; eauto 10]]. intros m Hin.
    cbn [execInst]. rewrite eval_to, Hpe, Hve, Hw2. cbn [mbind option_bind rmwResult assign].
    eexists _, _, _, _, _, _, _. split_and!; try reflexivity; [by intros x| |by left].
    intros r Hr. by rewrite setReg_ne by lia.
Qed.

(** Nothing but fences writes the fence word: it holds zero. *)
Definition fenceIdle (ms : list mem) : Prop := Forall (λ m, loadLE m (sym AtomicFenceName) 4 = 0) ms.

Lemma lower_fence_atomic rg f single ord c ms :
  lowerFenceInst single f = Some c → fenceIdle ms → Forall bytes ms →
  runsAtomically rg f (Fence single ord) ms (runCode sym c rg ms).
Proof.
  unfold lowerFenceInst. destruct single; [done|]. intros [= <-] Hidle Hms.
  apply straight_atomic; [|by exists 0, 0%nat]. intros m Hin.
  pose proof (proj1 (Forall_forall _ _) Hms m Hin) as Hm. pose proof (proj1 (Forall_forall _ _) Hidle m Hin) as Hz.
  cbn [execInst eval mbind option_bind rmwResult assign]. change (bytesOf (TInt 32)) with 4%nat.
  eexists _, _, _, _, _, _, _. split_and!; try reflexivity; [| |by left].
  - rewrite <-Hz. by apply storeLE_loadLE.
  - intros r Hr. by rewrite setReg_ne by lia.
Qed.

(** Every replacement runs atomically. *)
Lemma lower_run wide i f c rg ms :
  lowerInst underlying wide i f = Ok (Some c) → executable rg f i → Forall bytes ms → fenceIdle ms →
  runsAtomically rg f i ms (runCode sym c rg ms).
Proof.
  intros Hl Hx Hms Hidle. destruct i; simpl in Hl.
  - by eapply lower_load_atomic.
  - by eapply lower_store_atomic.
  - by eapply lower_rmw_atomic.
  - destruct Hx as (Hty & Hds & (a & Hloc) & (cv & Hcv) & nv & Hnv). unfold lowerCmpXchgInst in Hl. cbv zeta in Hl.
    destruct (narrow _ && _) eqn:En; [|done]. destruct (_ * 8 <? _) eqn:Ea; [done|].
    apply andb_true_iff in En as [En _]. apply bind_Ok in Hl as (c' & Hc & [= ->]).
    by eapply narrow_cmpxchg_atomic.
  - injection Hl as Hl. by apply lower_fence_atomic.
  - done.
Qed.
End Executable.

(** ** Runs read the memories in order *)

Lemma execInsts_log sym rg l ms log :
  match execInsts sym rg l ms log with
  | BDone _ ms' log' => map seen log ++ ms = map seen log' ++ ms'
  | BWait log' => map seen log ++ ms = map seen log'
  | BPoison => True
  end.
Proof.
  revert rg ms log. induction l as [|i l IH]; intros rg ms log; simpl; [done|].
  destruct ms as [|m ms]; [by rewrite app_nil_r|].
  destruct (execInst sym rg m i) as [[[rg' m'] o]|]; [|done].
  specialize (IH rg' ms (log ++ [Access m m' o])). rewrite map_app, <-app_assoc in IH. exact IH.
Qed.

Lemma runFrom_log sym fuel c from lbl rg ms log rg' log' :
  runFrom sym fuel c from lbl rg ms log = Finished rg' log' →
  ∃ rest, map seen log ++ ms = map seen log' ++ rest.
Proof.
  revert from lbl rg ms log. induction fuel as [|fuel IH]; intros from lbl rg ms log Hr; [done|]. cbn [runFrom] in Hr.
  destruct (enter _ _ _ _) as [rg1|]; [|done].
  pose proof (execInsts_log sym rg1 (insts (blocks c lbl)) ms log) as Hl.
  destruct (execInsts _ _ _ _ _) as [rg2 ms2 log2| |]; [|done|done]. rewrite Hl.
  destruct (terminator (blocks c lbl)) as [l|e yes no|].
  - by eapply IH.
  - destruct (eval sym rg2 e); [|done]. by eapply IH.
  - destruct (assign _ _ _); [|done]. injection Hr as _ <-. by exists ms2.
Qed.

(** ** The theorems *)

(** C33: the code that replaces an atomic operation is that operation done
    in one step.  For any instruction the lowering replaces, whatever the
    other processors do to memory between the accesses of the emitted code,
    a finished run wrote nothing before its last access, and its last access
    did to the memory it found exactly what the instruction does - a sub-word
    operation changes its field and none of the neighbouring bytes of the
    word - with the same results in the registers; the access is sequentially
    consistent or as ordered as the instruction, except that a sub-word
    compare-exchange may fail at its first, relaxed read. *)
Theorem lower_atomic_refines sym underlying wide i f c rg ms rg' log :
  lowerInst underlying wide i f = Ok (Some c) → executable sym rg f i →
  Forall bytes ms → fenceIdle sym ms →
  runCode sym c rg ms = Finished rg' log →
  atomically sym rg f i log rg' ∧ ∃ rest, ms = map seen log ++ rest.
Proof.
  intros Hl Hx Hms Hidle Hrun. split; [|by apply runFrom_log in Hrun].
  destruct (lower_run sym underlying wide i f c rg ms Hl Hx Hms Hidle)
    as [(rg1 & log1 & E & H)|(log1 & p & n & E & _)]; rewrite E in Hrun; [|done].
  by injection Hrun as <- <-.
Qed.

(** C34: the emitted code is lock-free.  Its run never reaches poison and
    never exhausts its fuel: it finishes, or it has used up the accesses it
    was given, and then between each two consecutive accesses another
    processor changed the word that holds the operand. *)
Theorem lower_lock_free sym underlying wide i f c rg ms :
  lowerInst underlying wide i f = Ok (Some c) → executable sym rg f i →
  Forall bytes ms → fenceIdle sym ms →
  (∃ rg' log, runCode sym c rg ms = Finished rg' log) ∨
  (∃ log p n, runCode sym c rg ms = Waiting log ∧ length log = length ms ∧ covers sym rg i p n ∧
     ∀ k m m', ms !! k = Some m → ms !! S k = Some m' → loadLE m p n ≠ loadLE m' p n).
Proof.
  intros Hl Hx Hms Hidle. destruct (lower_run sym underlying wide i f c rg ms Hl Hx Hms Hidle)
    as [(rg' & log & E & _)|(log & p & n & E & Hlen & Hcov & Hcon)]; [left; by exists rg', log|right].
  exists log, p, n. split_and!; [done|done|done|]. clear -Hcon.
  destruct ms as [|m0 ms]; [done|]. cbn [contended] in Hcon. revert m0 Hcon.
  induction ms as [|m1 ms IH]; intros m0 Hcon k m m' Hk Hk'; [destruct k; done|].
  destruct Hcon as [Hne Hcon]. destruct k as [|k]; simpl in Hk, Hk'.
  - injection Hk as <-. injection Hk' as <-. congruence.
  - by apply (IH m1 Hcon k).
Qed.

(** The exception of the previous theorem occurs: a compare-exchange whose
    failure ordering is sequentially consistent fails after one relaxed read. *)
Lemma narrow_cmpxchg_relaxed_failure :
  ∃ c rg' m, lowerInst (λ _, None) true
      (CmpXchg 1 2 (TInt 8) (Val 0) (Const 5) (Const 6) SequentiallyConsistent SequentiallyConsistent 1) 5 = Ok (Some c) ∧
    runCode (λ _, 0) c (λ _, 1000) [m] = Finished rg' [Access m m Monotonic] ∧ rg' 2%nat = 0.
Proof. eexists _, _, (λ _, 0). split; [reflexivity|]. split; [vm_compute; reflexivity|reflexivity]. Qed.

(** ** Witnesses *)

(** An 8-bit addition at address 1001, one interfering write. *)
Definition sampleRmw : inst := Rmw 1 Add (TInt 8) (Val 0) (Const 200) AcquireRelease 1.
Definition sampleRegs : regs := λ r, if Nat.eqb r 0 then 1001 else 0.
Definition quiet : mem := λ x, if x =? 1001 then 100 else if x =? 1002 then 7 else 0.
Definition disturbed : mem := λ x, if x =? 1001 then 100 else if x =? 1002 then 9 else 0.
Definition nowhere : expr → option bool := λ _, None.

Lemma quiet_bytes : bytes quiet.
Proof. intros x. unfold quiet. repeat case_match; lia. Qed.
Lemma disturbed_bytes : bytes disturbed.
Proof. intros x. unfold disturbed. repeat case_match; lia. Qed.

Lemma sampleRmw_executable : executable (λ _, 0) sampleRegs 5 sampleRmw.
Proof.
  split; [done|]. split; [lia|]. split; [exists 1001|exists 200]; [|by split_and!].
  split; [by split_and!|]. split; [by exists 0|done].
Qed.

Definition sampleCode : code :=
  match lowerInst nowhere true sampleRmw 5 with Ok (Some c) => c | _ => straight [] [] end.

Lemma lower_atomic_refines_witness :
  ∃ rg' log, runCode (λ _, 0) sampleCode sampleRegs [quiet; disturbed; disturbed] = Finished rg' log ∧
    length log = 3%nat ∧ rg' 1%nat = 100 ∧
    atomically (λ _, 0) sampleRegs 5 sampleRmw log rg' ∧
    ∃ rest, [quiet; disturbed; disturbed] = map seen log ++ rest.
Proof.
  eexists _, _. split; [reflexivity|]. split; [reflexivity|]. split; [reflexivity|].
  apply (lower_atomic_refines (λ _, 0) nowhere true sampleRmw 5 sampleCode sampleRegs [quiet; disturbed; disturbed]).
  - reflexivity.
  - exact sampleRmw_executable.
  - repeat constructor; first [apply quiet_bytes|apply disturbed_bytes].
  - repeat constructor.
  - reflexivity.
Defined.

Lemma lower_lock_free_witness :
  (∃ rg' log, runCode (λ _, 0) sampleCode sampleRegs [quiet; disturbed] = Finished rg' log) ∨
  (∃ log p n, runCode (λ _, 0) sampleCode sampleRegs [quiet; disturbed] = Waiting log ∧ length log = 2%nat ∧
     covers (λ _, 0) sampleRegs sampleRmw p n ∧
     ∀ k m m', [quiet; disturbed] !! k = Some m → [quiet; disturbed] !! S k = Some m' → loadLE m p n ≠ loadLE m' p n).
Proof.
  apply (lower_lock_free (λ _, 0) nowhere true sampleRmw 5 sampleCode sampleRegs [quiet; disturbed]).
  - reflexivity.
  - exact sampleRmw_executable.
  - repeat constructor; first [apply quiet_bytes|apply disturbed_bytes].
  - repeat constructor.
Defined.
