(* ===== verification/AtomicsPolicy.v ===== *)
(** * What the atomics passes accept

    The instructions that pass lowering and validation on a target with full
    atomics, and what finalization makes of them. *)

From Stdlib Require Import ZArith Lia.
From stdpp Require Import base numbers list strings.
From S2P Require Import Prelude Bytes Atomics AtomicsFacts.

Import Atomics.
Local Open Scope Z_scope.

(** ** Lowered functions *)

Definition codeInsts (c : code) : list inst :=
  insts (blocks c Before) ++ insts (blocks c Retry) ++ insts (blocks c Attempt) ++ insts (blocks c Done).

(** The instructions of a function after lowering. *)
Definition flatten (body : list (inst + code)) : list inst :=
  concat (map (λ x, match x with inl i => [i] | inr c => codeInsts c end) body).

Section Policy.
Context (underlying : expr → option bool).

(** ** The admissible operations *)

(** The bytes a value occupies in memory; an access is naturally aligned when
    its address is a multiple of as many. *)
Definition storeSize (ty : type) : Z :=
  match ty with TInt bits | TFloat bits | TVector bits => (bits + 7) / 8 | TPtr => 8 | TScalable => 0 end.
Definition aligned (ty : type) (align : Z) : bool := storeSize ty <=? align.
Definition subWord (ty : type) : bool := (storeSize ty =? 1) || (storeSize ty =? 2).

Definition isInt (ty : type) : bool := match ty with TInt _ => true | _ => false end.
(** The operands of the ISA's read-modify-writes: words and double words. *)
Definition machineWord (ty : type) : bool :=
  match ty with TInt bits => (bits =? 32) || (bits =? 64) | TPtr => true | _ => false end.
Definition scalar (ty : type) : bool := match ty with TInt _ | TFloat _ | TPtr => true | _ => false end.

(** The read-modify-writes of the ISA. *)
Definition isaOp (op : rmwOp) : bool := match op with Add | And | Or | Xor | Xchg => true | _ => false end.

(** Loads and stores: a plain access is no matter of these passes; a relaxed
    one has a scalar of one, two, four or eight bytes at a natural alignment;
    an ordered one becomes a read-modify-write, which widens a sub-word access
    and is refused inside a sectioned global. *)
Definition admissibleAccess (ty : type) (ptr : expr) (ord : ordering) (align : Z) : bool :=
  let size := storeSize ty in
  match ord with
  | NotAtomic => true
  | Unordered | Monotonic => scalar ty && (subWord ty || (size =? 4) || (size =? 8)) && aligned ty align
  | Acquire | Release | AcquireRelease | SequentiallyConsistent =>
      ((subWord ty && negb (IsSectionedPointer underlying ptr)) || (size =? 4) || (size =? 8)) && aligned ty align
  end.

(** The atomic operations with an exact lowering on a target with full
    atomics: naturally aligned integers of 8 to 64 bits, sub-word ones
    outside sectioned globals. *)
Definition admissible (i : inst) : bool :=
  match i with
  | Rmw _ op ty ptr _ _ align =>
      aligned ty align &&
      if subWord ty
      then isInt ty && negb (IsSectionedPointer underlying ptr) &&
           match op with Add | And | Or | Xor | Xchg | Sub | Nand => true | _ => false end
      else machineWord ty &&
           match op with
           | Add | And | Or | Xor | Xchg | Sub => true
           | Nand => negb (IsSectionedPointer underlying ptr)
           | _ => false
           end
  | CmpXchg _ _ ty ptr _ _ _ _ align =>
      aligned ty align && if subWord ty then isInt ty && negb (IsSectionedPointer underlying ptr) else machineWord ty
  | Load _ ty ptr ord align _ | Store ty _ ptr ord align _ => admissibleAccess ty ptr ord align
  | Fence _ _ | Other _ => true
  end.

(** ** What the passes accept *)

Definition natural (ty : type) (align : Z) : bool := AtomicWidth ty <=? align * 8.

(** The closed form of what the passes accept, in their own terms. *)
Definition acceptsAccess (ty : type) (ptr : expr) (ord : ordering) (align : Z) : bool :=
  let bits := AtomicWidth ty in
  if bool_decide (ord = NotAtomic) then true
  else if isStrongerThanMonotonic ord
  then ((narrow bits && negb (IsSectionedPointer underlying ptr)) || (bits =? 32) || (bits =? 64)) && natural ty align
  else preservedAccess ty ord align.

Definition accepts (i : inst) : bool :=
  match i with
  | Rmw _ op ty ptr _ _ align =>
      if narrow (AtomicWidth ty)
      then negb (IsSectionedPointer underlying ptr) && isInt ty && natural ty align &&
           (isaOp op || bool_decide (op = Sub ∨ op = Nand))
      else isaWidth ty align &&
           (isaOp op || bool_decide (op = Sub) || (bool_decide (op = Nand) && negb (IsSectionedPointer underlying ptr)))
  | CmpXchg _ _ ty ptr _ _ _ _ align =>
      if narrow (AtomicWidth ty)
      then negb (IsSectionedPointer underlying ptr) && isInt ty && natural ty align
      else isaWidth ty align
  | Load _ ty ptr ord align _ | Store ty _ ptr ord align _ => acceptsAccess ty ptr ord align
  | Fence _ _ | Other _ => true
  end.

Definition supported (i : inst) : bool := negb (unsupported underlying true i).

(** An instruction passes lowering and validation. *)
Definition accepted (wide : bool) (i : inst) (f : nat) : bool :=
  match lowerInst underlying wide i f with
  | Ok None => supported i
  | Ok (Some c) => forallb supported (codeInsts c)
  | Err _ => false
  end.

Lemma isaWidth_narrow ty align : narrow (AtomicWidth ty) = true → isaWidth ty align = false.
Proof.
  unfold narrow, isaWidth. intros [H|H]%orb_true_iff; bool_to_prop; rewrite H; by rewrite andb_false_r.
Qed.

(** A read-modify-write that is in place is supported when the ISA has it. *)
Lemma supported_rmw d op ty ptr value ord align :
  supported (Rmw d op ty ptr value ord align) = isaOp op && isaWidth ty align.
Proof.
  unfold supported, unsupported. cbn [isAtomic IsCompilerFence IsPreservedLoadStore negb andb].
  unfold IsManagedRmw, IsNativeRmw. cbn [PointerOperand rmwShape].
  destruct op; cbn [isaOp andb]; destruct (IsSectionedPointer underlying ptr), (isaWidth ty align); done.
Qed.

Lemma supported_cas d ok ty ptr cmp new align :
  supported (CreateCas d ok ty ptr cmp new align) = isaWidth ty align.
Proof.
  unfold supported, unsupported, CreateCas. cbn [isAtomic IsCompilerFence IsPreservedLoadStore negb andb].
  unfold IsManagedRmw, IsNativeRmw. cbn [PointerOperand rmwShape].
  destruct (IsSectionedPointer underlying ptr), (isaWidth ty align); done.
Qed.

Lemma supported_relaxed d ty ptr align vo :
  supported (Load d ty ptr Monotonic align vo) = preservedAccess ty Monotonic align.
Proof.
  unfold supported, unsupported. cbn [isAtomic IsCompilerFence IsPreservedLoadStore].
  unfold IsManagedRmw, IsNativeRmw. cbn [PointerOperand rmwShape]. rewrite andb_false_r.
  rewrite bool_decide_eq_true_2 by done. by destruct (preservedAccess ty Monotonic align).
Qed.

(** A natively sized integer can be read relaxed. *)
Lemma isaWidth_preserved ty align : isaWidth ty align = true → preservedAccess ty Monotonic align = true.
Proof.
  unfold isaWidth, preservedAccess. intros H. bool_to_prop. rewrite !andb_true_iff. split_and!.
  - by apply bool_decide_eq_true_2; right.
  - by destruct ty.
  - match goal with H : (_ || _)%bool = true |- _ => apply orb_true_iff in H as [H|H]; bool_to_prop; rewrite H; done end.
  - apply Z.leb_le. match goal with H : (_ || _)%bool = true |- _ => apply orb_true_iff in H as [H|H]; bool_to_prop end;
      Z.to_euclidean_division_equations; lia.
Qed.

(** Both loops are made of a relaxed load and a compare-exchange. *)
Lemma casLoop_supported d ty ptr desired result align f :
  forallb supported (codeInsts (casLoop d ty ptr desired result align f)) = isaWidth ty align.
Proof.
  unfold codeInsts. cbn [casLoop blocks insts emptyBlock app forallb]. rewrite supported_relaxed, supported_cas, andb_true_r.
  destruct (isaWidth ty align) eqn:E; [by rewrite isaWidth_preserved|by rewrite andb_false_r].
Qed.

Lemma cmpLoop_supported d ok ptr observed matches desired f :
  forallb supported (codeInsts (cmpLoop d ok ptr observed matches desired f)) = true.
Proof.
  unfold codeInsts. cbn [cmpLoop blocks insts app forallb]. by rewrite supported_relaxed, supported_cas.
Qed.

(** Exactly the seven operations have a value in [AtomicOperation]. *)
Lemma operation_supported op w old v :
  isaOp op || bool_decide (op = Sub ∨ op = Nand) =
  match AtomicOperation op w old v with Some _ => true | None => false end.
Proof. destruct op; reflexivity. Qed.

Lemma lt_natural ty align : (align * 8 <? AtomicWidth ty) = negb (natural ty align).
Proof. unfold natural. by rewrite Z.leb_antisym, negb_involutive. Qed.

Lemma narrow_rmw_accepted d op ty ptr value f kept :
  match (c ← LowerNarrowRmw d op ty ptr value f; Ok (Some c)) : result error (option code) with
  | Ok None => kept
  | Ok (Some c) => forallb supported (codeInsts c)
  | Err _ => false
  end = isInt ty && (isaOp op || bool_decide (op = Sub ∨ op = Nand)).
Proof.
  destruct ty as [b| | | |]; try reflexivity. cbn [isInt andb].
  set (old := ExtractNarrow (Val (S f)) (Shift (NarrowWordFor ptr b)) b).
  rewrite (operation_supported op b old value).
  unfold LowerNarrowRmw. fold old. destruct (AtomicOperation op b old value) as [e|]; [|done].
  cbn [mbind result_bind]. exact (casLoop_supported d (TInt 32) _ _ _ 4 f).
Qed.

(** Operations left to the ISA: a subtraction is an addition. *)
Lemma native_accepted d op ty ptr value ord align :
  match
    (if bool_decide (op = Sub) && ((AtomicWidth ty =? 32) || (AtomicWidth ty =? 64))
     then Ok (Some (straight [Rmw d Add ty ptr (CreateNeg (AtomicWidth ty) value) ord align] []))
     else Ok None) : result error (option code)
  with
  | Ok None => supported (Rmw d op ty ptr value ord align)
  | Ok (Some c) => forallb supported (codeInsts c)
  | Err _ => false
  end = isaWidth ty align && (isaOp op || bool_decide (op = Sub)).
Proof.
  destruct (bool_decide (op = Sub) && _) eqn:E.
  - apply andb_true_iff in E as [E _]. bool_to_prop. subst op. unfold codeInsts.
    cbn [straight blocks insts emptyBlock app forallb]. rewrite supported_rmw. cbn. by rewrite !andb_true_r.
  - rewrite supported_rmw. destruct (isaWidth ty align) eqn:Ew; [|by rewrite andb_false_r]. rewrite andb_true_r. cbn [andb].
    destruct (bool_decide (op = Sub)); [|by rewrite orb_false_r]. exfalso.
    unfold isaWidth in Ew. bool_to_prop. cbn [andb] in E. congruence.
Qed.

Lemma rmw_accepted wide d op ty ptr value ord align f :
  accepted wide (Rmw d op ty ptr value ord align) f = accepts (Rmw d op ty ptr value ord align).
Proof.
  unfold accepted. cbn [lowerInst accepts]. unfold lowerRmwInst. cbv zeta.
  destruct (narrow (AtomicWidth ty)) eqn:En, (IsSectionedPointer underlying ptr) eqn:Es; cbn [andb negb].
  - rewrite andb_false_r, native_accepted. by rewrite isaWidth_narrow.
  - rewrite lt_natural. destruct (natural ty align); cbn [negb andb]; [|by rewrite andb_false_r].
    rewrite andb_true_r. apply narrow_rmw_accepted.
  - by rewrite andb_false_r, andb_false_r, orb_false_r, native_accepted.
  - rewrite andb_true_r. destruct (bool_decide (op = Nand ∨ _)) eqn:Ew.
    + apply bool_decide_eq_true in Ew. unfold LowerWideRmw.
      destruct (AtomicOperation op (AtomicWidth ty) (Val (S f)) value) as [e|] eqn:Eo;
        [|destruct Ew as [-> | (_ & [-> | [-> | ->]])]; done].
      cbn [mbind result_bind]. etransitivity; [exact (casLoop_supported d ty ptr e (Val (S f)) align f)|].
      destruct (isaWidth ty align); [|done]. destruct Ew as [-> | (_ & [-> | [-> | ->]])]; reflexivity.
    + apply bool_decide_eq_false in Ew. destruct (bool_decide (op = Nand)) eqn:Ena; [bool_to_prop; tauto|].
      by rewrite native_accepted, orb_false_r.
Qed.

Lemma cmpxchg_accepted wide d ok ty ptr cmp new success failure align f :
  accepted wide (CmpXchg d ok ty ptr cmp new success failure align) f =
  accepts (CmpXchg d ok ty ptr cmp new success failure align).
Proof.
  assert (Hkeep : supported (CmpXchg d ok ty ptr cmp new success failure align) = isaWidth ty align).
  { unfold supported, unsupported. cbn [isAtomic IsCompilerFence IsPreservedLoadStore negb andb].
    unfold IsManagedRmw, IsNativeRmw. cbn [PointerOperand rmwShape].
    by destruct (IsSectionedPointer underlying ptr), (isaWidth ty align). }
  unfold accepted. cbn [lowerInst accepts]. unfold lowerCmpXchgInst. cbv zeta.
  destruct (narrow (AtomicWidth ty)) eqn:En, (IsSectionedPointer underlying ptr) eqn:Es; cbn [andb negb]; try exact Hkeep.
  - by rewrite Hkeep, isaWidth_narrow.
  - rewrite lt_natural. destruct (natural ty align); cbn [negb andb]; [|by rewrite andb_false_r].
    rewrite andb_true_r. destruct ty; try reflexivity.
    exact (cmpLoop_supported d ok _ _ _ _ f).
Qed.

(** An access that stays in place. *)
Lemma supported_access i ty ord align :
  (∃ d ptr vo, i = Load d ty ptr ord align vo) ∨ (∃ v ptr vo, i = Store ty v ptr ord align vo) →
  supported i = bool_decide (ord = NotAtomic) || preservedAccess ty ord align.
Proof.
  intros [(d & ptr & vo & ->)|(v & ptr & vo & ->)]; unfold supported, unsupported;
    cbn [isAtomic IsCompilerFence IsPreservedLoadStore]; unfold IsManagedRmw, IsNativeRmw;
    cbn [PointerOperand rmwShape]; rewrite !andb_false_r; cbn [negb]; rewrite !andb_true_r;
    destruct (decide (ord = NotAtomic)) as [->|Hn]; try done;
    rewrite (bool_decide_eq_true_2 (ord ≠ NotAtomic)), (bool_decide_eq_false_2 (ord = NotAtomic)) by done;
    cbn [andb orb]; by rewrite negb_involutive.
Qed.

(** The widths an ordered access is lowered at. *)
Lemma skips_admissible bits ptr :
  negb (skipsAccess underlying bits ptr) =
  (narrow bits && negb (IsSectionedPointer underlying ptr)) || (bits =? 32) || (bits =? 64).
Proof.
  unfold skipsAccess, narrow. destruct (Z.eqb_spec bits 8), (Z.eqb_spec bits 16), (Z.eqb_spec bits 32), (Z.eqb_spec bits 64);
    subst; try lia; cbn [andb orb negb]; try (by destruct (IsSectionedPointer underlying ptr)); try reflexivity.
Qed.

(** Strong orderings are not preserved as they are. *)
Lemma preserved_relaxed ty ord align : isStrongerThanMonotonic ord = true → preservedAccess ty ord align = false.
Proof. by destruct ord. Qed.

(** The exchange or addition an ordered access of full width becomes. *)
Lemma wide_access_supported d op ty ptr value ord align :
  isaOp op = true → AtomicWidth ty = 32 ∨ AtomicWidth ty = 64 → natural ty align = true →
  supported (Rmw d op (TInt (AtomicWidth ty)) ptr value ord align) = true.
Proof.
  intros Hop Hw Hn. rewrite supported_rmw, Hop. unfold natural in Hn. unfold isaWidth.
  destruct Hw as [Hw|Hw]; rewrite Hw in *; exact Hn.
Qed.

Lemma skips_wide bits ptr :
  skipsAccess underlying bits ptr = false → (bits <? 32) = false → bits = 32 ∨ bits = 64.
Proof.
  intros Hs%negb_true_iff Hl. rewrite skips_admissible in Hs. unfold narrow in Hs.
  destruct (Z.eqb_spec bits 8), (Z.eqb_spec bits 16), (Z.eqb_spec bits 32), (Z.eqb_spec bits 64); subst; try done; auto.
Qed.

Lemma load_accepted wide d ty ptr ord align vo f :
  accepted wide (Load d ty ptr ord align vo) f = accepts (Load d ty ptr ord align vo).
Proof.
  unfold accepted. cbn [lowerInst accepts]. unfold lowerLoadInst, acceptsAccess. cbv zeta.
  rewrite <-skips_admissible. destruct (isStrongerThanMonotonic ord) eqn:Eo.
  2: { rewrite (supported_access _ ty ord align); [|left; eauto]. by case_bool_decide. }
  rewrite (bool_decide_eq_false_2 (ord = NotAtomic)) by (by intros ->).
  destruct (skipsAccess _ _ _) eqn:Esk; cbn [negb andb].
  { rewrite (supported_access _ ty ord align); [|left; eauto]. rewrite preserved_relaxed by done.
    by rewrite (bool_decide_eq_false_2 (ord = NotAtomic)) by (by intros ->). }
  rewrite lt_natural. destruct (natural ty align) eqn:En; [|done]. cbn [negb].
  destruct (AtomicWidth ty <? 32) eqn:Ew; unfold codeInsts; cbn [straight blocks insts emptyBlock app forallb].
  - by rewrite supported_rmw.
  - rewrite wide_access_supported; [done|done|by eapply skips_wide|done].
Qed.

Lemma store_accepted wide ty value ptr ord align vo f :
  accepted wide (Store ty value ptr ord align vo) f = accepts (Store ty value ptr ord align vo).
Proof.
  unfold accepted. cbn [lowerInst accepts]. unfold lowerStoreInst, acceptsAccess. cbv zeta.
  rewrite <-skips_admissible. destruct (isStrongerThanMonotonic ord) eqn:Eo.
  2: { rewrite (supported_access _ ty ord align); [|right; eauto]. by case_bool_decide. }
  rewrite (bool_decide_eq_false_2 (ord = NotAtomic)) by (by intros ->).
  destruct (skipsAccess _ _ _) eqn:Esk; cbn [negb andb].
  { rewrite (supported_access _ ty ord align); [|right; eauto]. rewrite preserved_relaxed by done.
    by rewrite (bool_decide_eq_false_2 (ord = NotAtomic)) by (by intros ->). }
  rewrite lt_natural. destruct (natural ty align) eqn:En; [|done]. cbn [negb].
  destruct (AtomicWidth ty <? 32) eqn:Ew.
  - apply narrow_rmw_accepted.
  - unfold codeInsts; cbn [straight blocks insts emptyBlock app forallb].
    rewrite wide_access_supported; [done|done|by eapply skips_wide|done].
Qed.

Lemma accepted_accepts wide i f : accepted wide i f = accepts i.
Proof.
  destruct i; [apply load_accepted|apply store_accepted|apply rmw_accepted|apply cmpxchg_accepted| |done].
  unfold accepted. cbn [lowerInst accepts]. unfold lowerFenceInst. destruct singleThread; [done|].
  unfold codeInsts. cbn [straight blocks insts emptyBlock app forallb]. by rewrite supported_rmw.
Qed.

(** The widths and alignments the passes test are those of the operations. *)
Lemma AtomicWidth_size ty : AtomicWidth ty = storeSize ty * 8.
Proof. by destruct ty. Qed.

Lemma aligned_natural ty align : natural ty align = aligned ty align.
Proof. unfold natural, aligned. rewrite AtomicWidth_size. apply eq_true_iff_eq. rewrite !Z.leb_le. lia. Qed.

Lemma narrow_subWord ty : narrow (AtomicWidth ty) = subWord ty.
Proof. unfold narrow, subWord. rewrite AtomicWidth_size. apply eq_true_iff_eq. rewrite !orb_true_iff, !Z.eqb_eq. lia. Qed.

Lemma isaWidth_word ty align : isaWidth ty align = machineWord ty && aligned ty align.
Proof.
  unfold isaWidth. fold (natural ty align). rewrite aligned_natural.
  destruct ty as [bits| |bits|bits|]; try done. cbn [IsIntegerWidth machineWord AtomicWidth]. f_equal.
  apply eq_true_iff_eq. rewrite andb_true_iff, !orb_true_iff, !Z.eqb_eq. Z.to_euclidean_division_equations. lia.
Qed.

Lemma preserved_scalar ty ord align :
  preservedAccess ty ord align =
  bool_decide (ord = Unordered ∨ ord = Monotonic) &&
  (scalar ty && (subWord ty || (storeSize ty =? 4) || (storeSize ty =? 8)) && aligned ty align).
Proof.
  unfold preservedAccess, aligned, subWord. rewrite AtomicWidth_size, Z.div_mul by done. 
  destruct (bool_decide _); [|done]. cbn [andb]. by destruct ty.
Qed.

Lemma access_admissible ty ptr ord align : acceptsAccess ty ptr ord align = admissibleAccess ty ptr ord align.
Proof.
  unfold acceptsAccess, admissibleAccess. rewrite preserved_scalar, aligned_natural, narrow_subWord, AtomicWidth_size.
  replace (storeSize ty * 8 =? 32) with (storeSize ty =? 4) by (apply eq_true_iff_eq; rewrite !Z.eqb_eq; lia).
  replace (storeSize ty * 8 =? 64) with (storeSize ty =? 8) by (apply eq_true_iff_eq; rewrite !Z.eqb_eq; lia).
  by destruct ord.
Qed.

Lemma accepts_admissible i : accepts i = admissible i.
Proof.
  destruct i as [d ty ptr ord al vo|ty v ptr ord al vo|d op ty ptr v ord al|d ok ty ptr cmp new su fa al| |]; try done;
    cbn [accepts admissible]; try apply access_admissible;
    rewrite narrow_subWord, aligned_natural, isaWidth_word; destruct (aligned ty al); cbn [andb];
    rewrite ?andb_false_r; try (by destruct (subWord ty)); rewrite ?andb_true_r.
  - destruct (subWord ty).
    + rewrite andb_comm. destruct (isInt ty), (IsSectionedPointer underlying ptr), op; done.
    + destruct (machineWord ty), (IsSectionedPointer underlying ptr), op; done.
  - destruct (subWord ty); [|done]. apply andb_comm.
Qed.

(** ** Whole functions *)

Lemma validate_empty body : validateRun underlying true true body = [] ↔ Forall (λ i, supported i = true) body.
Proof.
  unfold validateRun, supported. induction body as [|i body IH]; [by split|].
  rewrite filter_cons. destruct (decide _) as [Hu|Hu]; simpl.
  - split; [done|]. intros [Hi _]%Forall_cons. by rewrite Hu in Hi.
  - rewrite IH, Forall_cons. apply not_true_is_false in Hu. rewrite Hu. naive_solver.
Qed.

Lemma lowerOne_accepted wide i s :
  accepts i = true →
  ∃ s' x, lowerOne underlying wide i s = Ok s' ∧ l_body s' = l_body s ++ [x] ∧ Forall (λ j, supported j = true) (flatten [x]).
Proof.
  intros Hi. pose proof (accepted_accepts wide i (l_fresh s)) as Ha. rewrite Hi in Ha. unfold accepted in Ha. unfold lowerOne.
  destruct (isAtomic i) eqn:Eat.
  - destruct (lowerInst underlying wide i (l_fresh s)) as [[c|]|]; [| |done]; cbn [mbind result_bind];
      eexists _, _; (split; [reflexivity|]); (split; [reflexivity|]); unfold flatten; cbn [map concat]; rewrite app_nil_r.
    + apply Forall_forall. intros j Hj. by eapply forallb_forall in Ha; [|apply list_elem_of_In, Hj].
    + by repeat constructor.
  - eexists _, _. split; [reflexivity|]. split; [reflexivity|]. unfold flatten. cbn [map concat app].
    repeat constructor. unfold supported, unsupported. by rewrite Eat.
Qed.

Lemma lowerOne_rejected wide i s s' :
  accepts i = false → lowerOne underlying wide i s = Ok s' →
  ∃ x, l_body s' = l_body s ++ [x] ∧ ¬ Forall (λ j, supported j = true) (flatten [x]).
Proof.
  intros Hi Hl. pose proof (accepted_accepts wide i (l_fresh s)) as Ha. rewrite Hi in Ha. unfold accepted in Ha.
  unfold lowerOne in Hl. destruct (isAtomic i) eqn:Eat.
  - destruct (lowerInst underlying wide i (l_fresh s)) as [[c|]|]; [| |done]; cbn [mbind result_bind] in Hl;
      injection Hl as <-; eexists; (split; [reflexivity|]); unfold flatten; cbn [map concat]; rewrite app_nil_r; intros Hf.
    + assert (forallb supported (codeInsts c) = true) as E; [|congruence].
      apply forallb_forall. intros j Hj%list_elem_of_In. by eapply Forall_forall in Hf.
    + apply Forall_cons in Hf as [Hf _]. congruence.
  - exfalso. destruct i as [d ty ptr ord al vo|ty v ptr ord al vo| | | |]; try done; simpl in Hi, Eat;
      unfold acceptsAccess in Hi; bool_to_prop; destruct (decide (ord = NotAtomic)) as [->|]; done.
Qed.

Lemma flatten_app l1 l2 : flatten (l1 ++ l2) = flatten l1 ++ flatten l2.
Proof. unfold flatten. by rewrite map_app, concat_app. Qed.

Definition sound (body : list (inst + code)) : Prop := Forall (λ j, supported j = true) (flatten body).

Lemma lower_fold wide body s :
  sound (l_body s) →
  (∃ s', foldM (lowerOne underlying wide) body s = Ok s' ∧ sound (l_body s')) ↔ Forall (λ i, accepts i = true) body.
Proof.
  revert s. induction body as [|i body IH]; intros s Hs; cbn [foldM].
  { split; [done|]. by exists s. }
  rewrite Forall_cons. destruct (accepts i) eqn:Ei.
  - destruct (lowerOne_accepted wide i s Ei) as (s1 & x & -> & Hb & Hx). rewrite IH; [naive_solver|].
    unfold sound. rewrite Hb, flatten_app. by apply Forall_app.
  - split; [|naive_solver]. intros (s' & Hf & Hs'). exfalso.
    destruct (lowerOne underlying wide i s) as [s1|] eqn:E1; [|done].
    destruct (lowerOne_rejected wide i s s1 Ei E1) as (x & Hb & Hx).
    assert (Hpre : ∃ post, l_body s' = l_body s1 ++ post).
    { clear -Hf. revert s1 Hf. induction body as [|j body IH]; intros s1 Hf; cbn [foldM] in Hf.
      { injection Hf as <-. exists []. by rewrite app_nil_r. }
      destruct (lowerOne underlying wide j s1) as [s2|] eqn:E2; [|done]. destruct (IH s2 Hf) as (post & ->).
      unfold lowerOne in E2. destruct (isAtomic j); [destruct (lowerInst _ _ _ _) as [[?|]|]; [| |done]|];
        injection E2 as <-; simpl; rewrite <-app_assoc; eauto. }
    destruct Hpre as (post & Hp). unfold sound in Hs'. rewrite Hp, Hb, !flatten_app, !Forall_app in Hs'. tauto.
Qed.

(** ** Finalization *)

Definition finalized (used : nat → bool) (i : inst) : inst :=
  let i := strengthen used i in if atomicAccess i then plainAccess i else i.

Lemma supported_preserved i : supported i = true → atomicAccess i = true → IsPreservedLoadStore i = true.
Proof.
  intros Hs Ha. destruct i as [d ty ptr ord al vo|ty v ptr ord al vo| | | |]; try done; simpl in Ha; bool_to_prop;
    cbn [IsPreservedLoadStore]; rewrite (bool_decide_eq_true_2 (ord ≠ NotAtomic)) by done; cbn [andb].
  - rewrite (supported_access _ ty ord al) in Hs by (left; eauto). by rewrite (bool_decide_eq_false_2 (ord = NotAtomic)) in Hs.
  - rewrite (supported_access _ ty ord al) in Hs by (right; eauto). by rewrite (bool_decide_eq_false_2 (ord = NotAtomic)) in Hs.
Qed.

Lemma strengthen_access used i : atomicAccess (strengthen used i) = atomicAccess i.
Proof. destruct i; try done. simpl. by case_match. Qed.

Lemma strengthen_preserved used i : IsPreservedLoadStore (strengthen used i) = IsPreservedLoadStore i.
Proof. destruct i; try done. simpl. by case_match. Qed.

Lemma finalize_supported used body :
  Forall (λ i, supported i = true) body → finalizeRun false used body = Ok (map (finalized used) body).
Proof.
  intros Hs. unfold finalizeRun.
  assert (Hscan : ∀ done, foldM (finalizeScan false used) body done = Ok (done ++ map (strengthen used) body)).
  { induction body as [|i body IH]; intros done; cbn [foldM map]; [by rewrite app_nil_r|].
    apply Forall_cons in Hs as [Hi Hs]. unfold finalizeScan at 1. cbn [andb].
    rewrite strengthen_access, strengthen_preserved. destruct (atomicAccess i) eqn:Ea; cbn [andb].
    - rewrite supported_preserved by done. cbn [negb]. rewrite IH by done. by rewrite <-app_assoc.
    - rewrite IH by done. by rewrite <-app_assoc. }
  rewrite Hscan. cbn [mbind result_bind app]. by rewrite map_map.
Qed.

(** A result that is used comes from a fetching read-modify-write. *)
Definition fetches (used : nat → bool) (i : inst) : Prop :=
  match i with Rmw d _ _ _ _ ord _ => used d = true → ord ≠ Monotonic | _ => True end.

Lemma finalized_plain used i : atomicAccess (finalized used i) = false ∧ fetches used (finalized used i).
Proof.
  unfold finalized. rewrite strengthen_access. destruct i as [d ty ptr ord al vo|ty v ptr ord al vo|d op ty ptr v ord al| | |];
    cbn [atomicAccess strengthen]; try done;
    try (destruct (bool_decide (ord ≠ NotAtomic)) eqn:E; (split; [first [exact E|reflexivity]|done])).
  destruct (used d) eqn:Eu; cbn [andb].
  - destruct (decide (ord = Monotonic)) as [->|Hn]; [by split|].
    rewrite bool_decide_eq_false_2 by done. split; [done|]. by intros _.
  - split; [done|]. intros ?. congruence.
Qed.
End Policy.

(** ** The pipeline *)

(** C35: the pipeline accepts exactly the atomic operations it can express.
    On a target with full atomics a Capsule function passes lowering and
    validation without a diagnostic if and only if each of its instructions
    is admissible: naturally aligned integer operations of the supported
    kinds, sub-word ones only outside sectioned globals, where widening would
    touch neighbouring map data; and finalization of the accepted function
    then succeeds, instruction by instruction, leaving no atomic load or
    store and no relaxed read-modify-write whose result is used. *)
Theorem atomics_pipeline_exact underlying wide body globals fresh used :
  ((∃ l, lowerRun underlying wide true body globals fresh = Ok l ∧
      validateRun underlying true true (flatten (l_body l)) = []) ↔
   Forall (λ i, admissible underlying i = true) body) ∧
  (∀ l, lowerRun underlying wide true body globals fresh = Ok l ∧
        validateRun underlying true true (flatten (l_body l)) = [] ->
     finalizeRun false used (flatten (l_body l)) = Ok (map (finalized used) (flatten (l_body l))) ∧
     Forall (λ i, atomicAccess i = false ∧ fetches used i) (map (finalized used) (flatten (l_body l)))).
Proof.
  split.
  - transitivity (Forall (λ i, accepts underlying i = true) body); [|by setoid_rewrite accepts_admissible].
    unfold lowerRun. rewrite <-(lower_fold underlying wide body (Lowered [] globals fresh false)) by constructor.
    split; intros (l & Hl & Hv); exists l; (split; [done|]); by apply validate_empty.
  - intros l [_ Hv%validate_empty]. split; [by apply (finalize_supported underlying)|].
    apply Forall_map, Forall_true. intros i. apply finalized_plain.
Qed.

(** A function with a sub-word exchange, a relaxed addition and a thread fence. *)
Definition samplePolicyBody : list inst :=
  [Rmw 1 Xchg (TInt 16) (Val 0) (Const 3) SequentiallyConsistent 2;
   Rmw 2 Add (TInt 32) (Val 0) (Const 1) Monotonic 4; Fence false SequentiallyConsistent].

Lemma atomics_pipeline_exact_witness :
  ∃ l, lowerRun (λ _, None) true true samplePolicyBody [] 3 = Ok l ∧ l_globals l = [AtomicFenceName] ∧
    validateRun (λ _, None) true true (flatten (l_body l)) = [] ∧
    finalizeRun false (λ d, Nat.eqb d 2) (flatten (l_body l)) =
      Ok (map (finalized (λ d, Nat.eqb d 2)) (flatten (l_body l))).
Proof.
  eexists. split; [reflexivity|]. split; [reflexivity|]. split; [reflexivity|].
  apply (atomics_pipeline_exact (λ _, None) true samplePolicyBody [] 3 (λ d, Nat.eqb d 2)). split; reflexivity.
Defined.
