(* ===== verification/Allocator.v ===== *)
(** * The synchronized allocator ([allocator.c])

    malloc and its relatives over TLSF.  TLSF itself is third-party code: its
    operations are the fields of a class, its documented behaviour the laws
    of a second one.  The four no-suspend islands take a lock, do the whole
    metadata operation and release the lock; the public functions retry a
    busy island and may be suspended between attempts, when other processors
    run. *)

From Stdlib Require Import ZArith Lia.
From stdpp Require Import base numbers list gmap sets fin_maps strings.
From S2P Require Import Prelude.

Local Open Scope Z_scope.

Module Allocator.

Definition mem := Z → Z.

(** TLSF: control structure, memory before; control structure, memory and
    result after.  A null result is 0. *)
Class Tlsf (T : Type) := {
  tlsf_size : Z;
  tlsf_pool_overhead : Z;
  tlsf_block_size_min : Z;
  tlsf_block_size_max : Z;
  tlsf_create_with_pool : mem → Z → Z → option T * mem;
  tlsf_malloc : T → mem → Z → T * mem * Z;
  tlsf_free : T → mem → Z → T * mem;
  tlsf_block_size : T → mem → Z → Z;
  tlsf_memalign : T → mem → Z → Z → T * mem * Z;
}.

Definition SIZE_MAX : Z := 2 ^ 64 - 1.
Definition ENOMEM : Z := 12.
Definition EINVAL : Z := 22.
Definition FS_ALLOCATOR_BUSY : Z := 2 ^ 64 - 1.
Definition FS_ALLOCATOR_ERROR : Z := 2 ^ 64 - 2.
Definition CAPSULE_ERROR_ALLOCATOR_CORRUPT : Z := -16.

Section Model.
Context {T : Type} `{!Tlsf T}.

(** The object: the lock tier and the load-time heap. *)
Record object := Object {
  FULL_ATOMICS : bool;
  capsule_heap_start : Z;
  capsule_heap_size : Z;
}.

(** Shared state: the lock word, the single-entry hash map of the older
    tier, the TLSF handle, the heap's bytes. *)
Record world := World {
  fs_allocator_lock_word : Z;
  fs_allocator_lease : option Z;
  fs_tlsf : option T;
  memory : mem;
}.

Definition setLockWord (v : Z) (w : world) : world := World v (fs_allocator_lease w) (fs_tlsf w) (memory w).
Definition setLease (v : option Z) (w : world) : world := World (fs_allocator_lock_word w) v (fs_tlsf w) (memory w).
Definition setHeap (t : option T) (m : mem) (w : world) : world :=
  World (fs_allocator_lock_word w) (fs_allocator_lease w) t m.

Context (obj : object).

Definition fs_try_lock (w : world) : bool * world :=
  if FULL_ATOMICS obj then
    if fs_allocator_lock_word w =? 0 then (true, setLockWord 1 w) else (false, w)
  else
    match fs_allocator_lease w with
    | None => (true, setLease (Some 1) w)
    | Some _ => (false, w)
    end.

Definition fs_unlock (w : world) : bool * world :=
  if FULL_ATOMICS obj then (fs_allocator_lock_word w =? 1, setLockWord 0 w)
  else
    match fs_allocator_lease w with
    | Some _ => (true, setLease None w)
    | None => (false, w)
    end.

(** Sums of [size_t] wrap. *)
Definition fs_setup (w : world) : bool * world :=
  let heap_size := capsule_heap_size obj in
  let minimum := u64 (tlsf_size + tlsf_pool_overhead + tlsf_block_size_min) in
  if heap_size <? minimum then (false, w)
  else
    let '(t, m) := tlsf_create_with_pool (memory w) (capsule_heap_start obj) heap_size in
    (match t with Some _ => true | None => false end, setHeap t m w).

(** The handle, set up on first use. *)
Definition ensureTlsf (w : world) : option T * world :=
  match fs_tlsf w with
  | Some t => (Some t, w)
  | None => let '(ok, w) := fs_setup w in (if ok then fs_tlsf w else None, w)
  end.

(** What each island does under the lock. *)
Definition mallocBody (n : Z) (w : world) : Z * world :=
  match ensureTlsf w with
  | (None, w) => (0, w)
  | (Some t, w) => let '(t, m, result) := tlsf_malloc t (memory w) n in (result, setHeap (Some t) m w)
  end.

Definition freeBody (address : Z) (w : world) : Z * world :=
  match fs_tlsf w with
  | Some t => let '(t, m) := tlsf_free t (memory w) address in (0, setHeap (Some t) m w)
  | None => (0, w)
  end.

Definition sizeBody (address : Z) (w : world) : Z * world :=
  (match fs_tlsf w with Some t => tlsf_block_size t (memory w) address | None => 0 end, w).

Definition memalignBody (align n : Z) (w : world) : Z * world :=
  match ensureTlsf w with
  | (None, w) => (0, w)
  | (Some t, w) => let '(t, m, result) := tlsf_memalign t (memory w) align n in (result, setHeap (Some t) m w)
  end.

(** Lock, work, unlock. *)
Definition island (body : world → Z * world) (w : world) : Z * world :=
  let '(locked, w) := fs_try_lock w in
  if locked then
    let '(result, w) := body w in
    let '(unlocked, w) := fs_unlock w in
    (if unlocked then result else FS_ALLOCATOR_ERROR, w)
  else (FS_ALLOCATOR_BUSY, w).

Definition bpf_allocator_malloc (n : Z) : world → Z * world := island (mallocBody n).
Definition bpf_allocator_free (address : Z) : world → Z * world := island (freeBody address).
Definition bpf_allocator_size (address : Z) : world → Z * world := island (sizeBody address).
Definition bpf_allocator_memalign (align n : Z) : world → Z * world := island (memalignBody align n).

(** ** The public functions

    [others] is what the other processors do before each attempt at an
    island; [mine] are the blocks the calling fiber holds, which tells the
    others what to leave alone and has no counterpart in the code. *)
Record local := Local {
  errno : Z;
  mine : gset Z;
  others : list (gset Z → world → world);
}.

Inductive out (A : Type) :=
| Ret (a : A) (w : world) (l : local)
| Exit (code : Z) (w : world)
| Pending (w : world) (l : local).
Arguments Ret {A}. Arguments Exit {A}. Arguments Pending {A}.

Definition action (A : Type) := world → local → out A.

Definition ret {A} (a : A) : action A := λ w l, Ret a w l.
Definition bind {A B} (x : action A) (f : A → action B) : action B := λ w l,
  match x w l with Ret a w l => f a w l | Exit c w => Exit c w | Pending w l => Pending w l end.
Definition setErrno (e : Z) : action unit := λ w l, Ret tt w (Local e (mine l) (others l)).
Definition getErrno : action Z := λ w l, Ret (errno l) w l.
Definition own (p : Z) : action unit := λ w l,
  Ret tt w (Local (errno l) (if p =? 0 then mine l else {[p]} ∪ mine l) (others l)).
Definition disown (p : Z) : action unit := λ w l, Ret tt w (Local (errno l) (mine l ∖ {[p]}) (others l)).

(** [do ... while (result == FS_ALLOCATOR_BUSY)]: waiting when the others are
    not done yet. *)
Fixpoint attempts (f : world → Z * world) (todo : list (gset Z → world → world)) (w : world) (l : local) : out Z :=
  match todo with
  | [] => Pending w (Local (errno l) (mine l) [])
  | e :: todo =>
      let '(result, w) := f (e (mine l) w) in
      if result =? FS_ALLOCATOR_BUSY then attempts f todo w l
      else Ret result w (Local (errno l) (mine l) todo)
  end.

Definition retry (f : world → Z * world) : action Z := λ w l, attempts f (others l) w l.

Definition exit_ {A} (code : Z) : action A := λ w l, Exit code w.

(** The loop and the check after it. *)
Definition call (f : world → Z * world) : action Z :=
  bind (retry f) (λ result,
    if result =? FS_ALLOCATOR_ERROR then exit_ CAPSULE_ERROR_ALLOCATOR_CORRUPT else ret result).

Definition finishAllocation (result : Z) : action Z :=
  bind (if result =? 0 then setErrno ENOMEM else ret tt) (λ _, bind (own result) (λ _, ret result)).

Definition malloc (n : Z) : action Z := bind (call (bpf_allocator_malloc n)) finishAllocation.

Definition free (p : Z) : action unit :=
  if p =? 0 then ret tt
  else bind (call (bpf_allocator_free p)) (λ _, disown p).

Definition memset (p v n : Z) : action unit := λ w l,
  Ret tt (setHeap (fs_tlsf w) (λ x, if (p <=? x) && (x <? p + n) then v else memory w x) w) l.
Definition memcpy (dst src n : Z) : action unit := λ w l,
  Ret tt (setHeap (fs_tlsf w) (λ x, if (dst <=? x) && (x <? dst + n) then memory w (src + (x - dst)) else memory w x) w) l.

Definition calloc (n sz : Z) : action Z :=
  if negb (sz =? 0) && (SIZE_MAX / sz <? n) then bind (setErrno ENOMEM) (λ _, ret 0)
  else
    let total := u64 (n * sz) in
    bind (malloc total) (λ p,
      if p =? 0 then ret p else bind (memset p 0 total) (λ _, ret p)).

Definition malloc_usable_size (p : Z) : action Z :=
  if p =? 0 then ret 0 else call (bpf_allocator_size p).

Definition realloc (p n : Z) : action Z :=
  if p =? 0 then malloc n
  else if n =? 0 then bind (free p) (λ _, ret 0)
  else
    bind (malloc_usable_size p) (λ old_size,
      if n <=? old_size then ret p
      else
        bind (malloc n) (λ replacement,
          if replacement =? 0 then ret 0
          else bind (memcpy replacement p old_size) (λ _,
                 bind (free p) (λ _, ret replacement)))).

Definition memalign (align n : Z) : action Z :=
  if (align =? 0) || negb (Z.land align (u64 (align - 1)) =? 0) then bind (setErrno EINVAL) (λ _, ret 0)
  else if tlsf_block_size_max <? align then bind (setErrno ENOMEM) (λ _, ret 0)
  else bind (call (bpf_allocator_memalign align n)) finishAllocation.

Definition aligned_alloc (align n : Z) : action Z :=
  if (align =? 0) || negb (n mod align =? 0) then bind (setErrno EINVAL) (λ _, ret 0)
  else memalign align n.

(** The error code, and the pointer stored through [result] on success. *)
Definition posix_memalign (align n : Z) : action (Z * option Z) :=
  if (align =? 0) || negb (Z.land align (u64 (align - 1)) =? 0) || negb (align mod 8 =? 0) then ret (EINVAL, None)
  else
    bind getErrno (λ saved_errno,
      bind (memalign align n) (λ allocation,
        bind getErrno (λ e,
          let error := if negb (allocation =? 0) then 0 else if e =? EINVAL then EINVAL else ENOMEM in
          bind (setErrno saved_errno) (λ _, ret (error, if error =? 0 then Some allocation else None))))).
End Model.

Arguments World {T}. Arguments Local {T}. Arguments Ret {T A}. Arguments Exit {T A}. Arguments Pending {T A}.
End Allocator.
