(* ===== verification/AllocatorRace.v ===== *)
(** * The allocator's islands on several processors

    The islands as the steps they take on shared state - the attempt at the
    lock, the TLSF operation, the release - and every interleaving of any
    number of them: they are executed one after the other. *)

From Stdlib Require Import ZArith Lia.
From stdpp Require Import base numbers list gmap sets fin_maps.
From S2P Require Import Prelude Allocator.

Import Allocator.
Local Open Scope Z_scope.

Section Race.
Context {T : Type} `{!Tlsf T} (obj : object).

Inductive request := RMalloc (n : Z) | RFree (address : Z) | RSize (address : Z) | RMemalign (align n : Z).

Definition bodyOf (r : request) : world (T := T) → Z * world :=
  match r with
  | RMalloc n => mallocBody obj n
  | RFree a => freeBody a
  | RSize a => sizeBody a
  | RMemalign al n => memalignBody obj al n
  end.

(** Where a processor stands; a busy island is called again. *)
Inductive pc := Waiting | Holding | Worked (result : Z) | Returned (result : Z).

Record system := System { sworld : world (T := T); threads : list (request * pc) }.

Definition goto (s : system) (i : nat) (r : request) (p : pc) (w : world) : system :=
  System w (<[i := (r, p)]> (threads s)).

Definition stepThread (s : system) (i : nat) : system :=
  match threads s !! i with
  | None => s
  | Some (r, Waiting) =>
      let '(locked, w) := fs_try_lock obj (sworld s) in
      if locked then goto s i r Holding w else s
  | Some (r, Holding) => let '(result, w) := bodyOf r (sworld s) in goto s i r (Worked result) w
  | Some (r, Worked result) =>
      let '(unlocked, w) := fs_unlock obj (sworld s) in
      goto s i r (Returned (if unlocked then result else FS_ALLOCATOR_ERROR)) w
  | Some (_, Returned _) => s
  end.

Definition runAll (schedule : list nat) (s : system) : system := foldl stepThread s schedule.

Definition arrivals (requests : list request) (w : world) : system := System w (map (λ r, (r, Waiting)) requests).

(** ** The serial specification *)

(** Requests done one after the other, with their results. *)
Fixpoint serial (rs : list request) (w : world (T := T)) : list Z * world :=
  match rs with
  | [] => ([], w)
  | r :: rs => let '(z, w) := bodyOf r w in let '(zs, w) := serial rs w in (z :: zs, w)
  end.

Definition heapOf (w : world (T := T)) : option T * mem := (fs_tlsf w, memory w).

Definition lockFree (w : world (T := T)) : Prop :=
  if FULL_ATOMICS obj then fs_allocator_lock_word w = 0 else fs_allocator_lease w = None.
Definition lockHeld (w : world (T := T)) : Prop :=
  if FULL_ATOMICS obj then fs_allocator_lock_word w = 1 else fs_allocator_lease w ≠ None.

Definition critical (p : pc) : bool := match p with Holding | Worked _ => true | _ => false end.
Definition resultOf (p : pc) : option Z := match p with Worked z | Returned z => Some z | _ => None end.

(** ** What a body does to the lock and the heap *)

Definition lockOf (w : world (T := T)) : Z * option Z := (fs_allocator_lock_word w, fs_allocator_lease w).

Lemma setup_lock w : lockOf (fs_setup obj w).2 = lockOf w.
Proof. unfold fs_setup. case_match; [done|]. by destruct (tlsf_create_with_pool _ _ _). Qed.

Lemma ensure_lock w : lockOf (ensureTlsf obj w).2 = lockOf w.
Proof.
  unfold ensureTlsf. destruct (fs_tlsf w); [done|]. pose proof (setup_lock w). by destruct (fs_setup obj w).
Qed.

Lemma body_lock r w : lockOf (bodyOf r w).2 = lockOf w.
Proof.
  destruct r as [n|a|a|al n]; simpl.
  - unfold mallocBody. pose proof (ensure_lock w) as H. destruct (ensureTlsf obj w) as [[t|] w']; [|done].
    by destruct (tlsf_malloc t (memory w') n) as [[??]?].
  - unfold freeBody. destruct (fs_tlsf w); [|done]. by destruct (tlsf_free _ _ _).
  - done.
  - unfold memalignBody. pose proof (ensure_lock w) as H. destruct (ensureTlsf obj w) as [[t|] w']; [|done].
    by destruct (tlsf_memalign t (memory w') al n) as [[??]?].
Qed.

Lemma setup_heap w1 w2 :
  heapOf w1 = heapOf w2 →
  (fs_setup obj w1).1 = (fs_setup obj w2).1 ∧ heapOf (fs_setup obj w1).2 = heapOf (fs_setup obj w2).2.
Proof.
  intros [= H1 H2]. unfold fs_setup. case_match; [split; [done|]; cbn; unfold heapOf; by rewrite H1, H2|].
  rewrite H2. by destruct (tlsf_create_with_pool _ _ _).
Qed.

Lemma ensure_heap w1 w2 :
  heapOf w1 = heapOf w2 →
  (ensureTlsf obj w1).1 = (ensureTlsf obj w2).1 ∧ heapOf (ensureTlsf obj w1).2 = heapOf (ensureTlsf obj w2).2.
Proof.
  intros H. pose proof (setup_heap w1 w2 H) as [H1 H2]. unfold ensureTlsf. injection H as Ht Hm. rewrite Ht.
  destruct (fs_tlsf w2) eqn:E; [unfold heapOf; simpl; by rewrite Ht, Hm, E|].
  destruct (fs_setup obj w1) as [b1 u1], (fs_setup obj w2) as [b2 u2]. simpl in *. injection H2 as Hf Hm'. subst.
  unfold heapOf. by rewrite Hf, Hm'.
Qed.

(** A body sees nothing but the heap. *)
Lemma body_heap r w1 w2 :
  heapOf w1 = heapOf w2 →
  (bodyOf r w1).1 = (bodyOf r w2).1 ∧ heapOf (bodyOf r w1).2 = heapOf (bodyOf r w2).2.
Proof.
  intros H. pose proof (ensure_heap w1 w2 H) as [H1 H2]. pose proof H as [= Ht Hm]. destruct r as [n|a|a|al n]; simpl.
  - unfold mallocBody. destruct (ensureTlsf obj w1) as [o1 u1], (ensureTlsf obj w2) as [o2 u2]. simpl in *. subst o2.
    injection H2 as Hf Hm'. destruct o1 as [t|]; [|simpl; unfold heapOf; by rewrite Hf, Hm'].
    rewrite Hm'. by destruct (tlsf_malloc t (memory u2) n) as [[??]?].
  - unfold freeBody. rewrite Ht, Hm. destruct (fs_tlsf w2) eqn:E; [by destruct (tlsf_free _ _ _)|].
    simpl. unfold heapOf. by rewrite Ht, Hm, E.
  - unfold heapOf. by rewrite Ht, Hm.
  - unfold memalignBody. destruct (ensureTlsf obj w1) as [o1 u1], (ensureTlsf obj w2) as [o2 u2]. simpl in *. subst o2.
    injection H2 as Hf Hm'. destruct o1 as [t|]; [|simpl; unfold heapOf; by rewrite Hf, Hm'].
    rewrite Hm'. by destruct (tlsf_memalign t (memory u2) al n) as [[??]?].
Qed.

Lemma serial_app rs r w :
  serial (rs ++ [r]) w =
  let '(zs, w1) := serial rs w in let '(z, w2) := bodyOf r w1 in (zs ++ [z], w2).
Proof.
  revert w. induction rs as [|q rs IH]; intros w; simpl; [by destruct (bodyOf r w)|].
  destruct (bodyOf q w) as [z w1]. rewrite IH. destruct (serial rs w1) as [zs w2]. by destruct (bodyOf r w2).
Qed.

(** ** The lock *)

Lemma try_lock_free w : lockFree w → ∃ w', fs_try_lock obj w = (true, w') ∧ heapOf w' = heapOf w ∧ lockHeld w'.
Proof.
  unfold lockFree, lockHeld, fs_try_lock. destruct (FULL_ATOMICS obj); intros ->; eexists; split_and!; try done.
Qed.

Lemma try_lock_held w : lockHeld w → fs_try_lock obj w = (false, w).
Proof.
  unfold lockHeld, fs_try_lock. destruct (FULL_ATOMICS obj); [by intros ->|]. by destruct (fs_allocator_lease w).
Qed.

Lemma unlock_held w : lockHeld w → ∃ w', fs_unlock obj w = (true, w') ∧ heapOf w' = heapOf w ∧ lockFree w'.
Proof.
  unfold lockHeld, lockFree, fs_unlock. destruct (FULL_ATOMICS obj).
  - intros ->. eexists. by split_and!.
  - destruct (fs_allocator_lease w); [|done]. intros _. eexists. by split_and!.
Qed.

Lemma lock_same w w' : lockOf w' = lockOf w → lockHeld w → lockHeld w'.
Proof. unfold lockHeld, lockOf. intros [= -> ->]. done. Qed.

(** ** The invariant *)

Definition served (s : system) (i : nat) (z : Z) : Prop :=
  ∃ r p, threads s !! i = Some (r, p) ∧ resultOf p = Some z.

(** [order] lists the requests whose TLSF operation is done. *)
Record serialized (requests : list request) (w0 : world) (s : system) (order : list nat) : Prop := {
  z_fixed i r p : threads s !! i = Some (r, p) → requests !! i = Some r;
  z_nodup : NoDup order;
  z_done i z : served s i z → i ∈ order;
  z_results : Forall2 (served s) order (serial (omap (λ i, requests !! i) order) w0).1;
  z_heap : heapOf (serial (omap (λ i, requests !! i) order) w0).2 = heapOf (sworld s);
  z_lock :
    (lockFree (sworld s) ∧ ∀ i r p, threads s !! i = Some (r, p) → critical p = false) ∨
    (lockHeld (sworld s) ∧ ∃ k, (∃ r p, threads s !! k = Some (r, p) ∧ critical p = true) ∧
       ∀ i r p, threads s !! i = Some (r, p) → critical p = true → i = k);
}.

Lemma island_goto s i r p w j x :
  (i < length (threads s))%nat → threads (goto s i r p w) !! j = Some x →
  (j = i ∧ x = (r, p)) ∨ (j ≠ i ∧ threads s !! j = Some x).
Proof.
  intros Hi Hj. unfold goto in Hj. simpl in Hj. destruct (decide (j = i)) as [->|].
  - rewrite list_lookup_insert_eq in Hj by done. left. by injection Hj as <-.
  - rewrite list_lookup_insert_ne in Hj by done. by right.
Qed.

Lemma served_goto s i r p q w j z :
  threads s !! i = Some (r, p) → resultOf p = resultOf q → served (goto s i r q w) j z ↔ served s j z.
Proof.
  intros Hi Hpq. pose proof (lookup_lt_Some _ _ _ Hi) as Hlt. unfold served, goto. simpl.
  destruct (decide (j = i)) as [->|].
  - rewrite list_lookup_insert_eq, Hi by done. naive_solver congruence.
  - by rewrite list_lookup_insert_ne.
Qed.

Lemma fixed_goto (requests : list request) s i r p q w :
  (∀ i r p, threads s !! i = Some (r, p) → requests !! i = Some r) → threads s !! i = Some (r, p) →
  ∀ j r' p', threads (goto s i r q w) !! j = Some (r', p') → requests !! j = Some r'.
Proof.
  intros Hf Hi j r' p' [(-> & [= -> ->])|(_ & Hj)]%island_goto; [by eapply Hf|by eapply Hf|by eapply lookup_lt_Some].
Qed.

(** The lock part when processor [i] moves from [p] to [q]. *)
Lemma lock_enter s i r p w :
  threads s !! i = Some (r, p) → (∀ j r p, threads s !! j = Some (r, p) → critical p = false) → lockHeld w →
  lockHeld w ∧ ∃ k, (∃ r' p', threads (goto s i r Holding w) !! k = Some (r', p') ∧ critical p' = true) ∧
    ∀ j r' p', threads (goto s i r Holding w) !! j = Some (r', p') → critical p' = true → j = k.
Proof.
  intros Hi Hn Hw. pose proof (lookup_lt_Some _ _ _ Hi) as Hlt. split; [done|]. exists i. split.
  - exists r, Holding. split; [|done]. unfold goto. simpl. by rewrite list_lookup_insert_eq.
  - intros j r' p' [(-> & _)|(_ & Hj)]%island_goto Hc; [done| |done]. apply Hn in Hj. congruence.
Qed.

Lemma step_waiting requests w0 s order i r :
  serialized requests w0 s order → threads s !! i = Some (r, Waiting) → serialized requests w0 (stepThread s i) order.
Proof.
  intros Hz Hi. unfold stepThread. rewrite Hi. destruct (z_lock _ _ _ _ Hz) as [(Hfree & Hn)|(Hheld & _)].
  - destruct (try_lock_free _ Hfree) as (w' & -> & Hh & Hw). constructor.
    + eapply fixed_goto; [apply Hz|done].
    + apply Hz.
    + intros j z Hs. rewrite (served_goto s i r Waiting) in Hs by done. by eapply z_done.
    + eapply Forall2_impl; [apply Hz|]. intros j z Hs. by rewrite (served_goto s i r Waiting).
    + cbn [goto sworld]. rewrite Hh. apply Hz.
    + right. by eapply lock_enter.
  - rewrite (try_lock_held _ Hheld). done.
Qed.

Lemma step_holding requests w0 s order i r :
  serialized requests w0 s order → threads s !! i = Some (r, Holding) →
  serialized requests w0 (stepThread s i) (order ++ [i]).
Proof.
  intros Hz Hi. pose proof (lookup_lt_Some _ _ _ Hi) as Hlt. unfold stepThread. rewrite Hi.
  assert (Hni : i ∉ order).
  { intros [k Hk]%list_elem_of_lookup. destruct (Forall2_lookup_l _ _ _ _ _ (z_results _ _ _ _ Hz) Hk) as (z & _ & r' & p' & Hp & Hr).
    rewrite Hi in Hp. by injection Hp as <- <-. }
  pose proof (z_fixed _ _ _ _ Hz _ _ _ Hi) as Hreq.
  pose proof (body_lock r (sworld s)) as Hlk.
  pose proof (body_heap r _ _ (z_heap _ _ _ _ Hz)) as [Hr Hh].
  destruct (bodyOf r (sworld s)) as [z w'] eqn:Eb. simpl in Hlk, Hr, Hh.
  assert (Hold : ∀ j y, served s j y → served (goto s i r (Worked z) w') j y).
  { intros j y (r' & p' & Hp & Hy). exists r', p'. split; [|done]. unfold goto. simpl.
    rewrite list_lookup_insert_ne; [done|]. intros ->. rewrite Hi in Hp. by injection Hp as <- <-. }
  constructor.
  - eapply fixed_goto; [apply Hz|done].
  - apply NoDup_app. split; [apply Hz|]. split; [intros j Hj ->%list_elem_of_singleton; done|apply NoDup_singleton].
  - intros j y (r' & p' & [(-> & _)|(_ & Hj)]%island_goto & Hy); [apply elem_of_app; right; by left| |done].
    apply elem_of_app. left. eapply z_done; [done|]. by exists r', p'.
  - rewrite omap_app. simpl. rewrite Hreq, serial_app.
    pose proof (z_results _ _ _ _ Hz) as Hres. destruct (serial _ w0) as [zs u] eqn:Es. simpl in *.
    destruct (bodyOf r u) as [z' u'] eqn:Eu. simpl in *. subst z'. apply Forall2_app.
    + by eapply Forall2_impl.
    + constructor; [|constructor]. exists r, (Worked z). split; [|done]. unfold goto. simpl. by rewrite list_lookup_insert_eq.
  - rewrite omap_app. simpl. rewrite Hreq, serial_app. destruct (serial _ w0) as [zs u] eqn:Es. simpl in *.
    destruct (bodyOf r u) as [z' u'] eqn:Eu. simpl in *. done.
  - right. destruct (z_lock _ _ _ _ Hz) as [(_ & Hn)|(Hheld & k & _ & Hk)]; [by specialize (Hn _ _ _ Hi)|].
    split; [by eapply lock_same|]. pose proof (Hk _ _ _ Hi eq_refl) as <-. exists i. split.
    + exists r, (Worked z). split; [|done]. unfold goto. simpl. by rewrite list_lookup_insert_eq.
    + intros j r' p' [(-> & _)|(_ & Hj)]%island_goto Hc; [done|by eapply Hk|done].
Qed.

Lemma step_worked requests w0 s order i r z :
  serialized requests w0 s order → threads s !! i = Some (r, Worked z) → serialized requests w0 (stepThread s i) order.
Proof.
  intros Hz Hi. unfold stepThread. rewrite Hi.
  destruct (z_lock _ _ _ _ Hz) as [(_ & Hn)|(Hheld & k & _ & Hk)]; [by specialize (Hn _ _ _ Hi)|].
  destruct (unlock_held _ Hheld) as (w' & -> & Hh & Hw). constructor.
  - eapply fixed_goto; [apply Hz|done].
  - apply Hz.
  - intros j y Hs. rewrite (served_goto s i r (Worked z)) in Hs by done. by eapply z_done.
  - eapply Forall2_impl; [apply Hz|]. intros j y Hs. by rewrite (served_goto s i r (Worked z)).
  - cbn [goto sworld]. rewrite Hh. apply Hz.
  - left. split; [done|]. pose proof (Hk _ _ _ Hi eq_refl) as <-.
    intros j r' p' [(-> & [= -> ->])|(Hne & Hj)]%island_goto; [done| |by eapply lookup_lt_Some].
    destruct (critical p') eqn:E; [|done]. by apply (Hk _ _ _ Hj) in E.
Qed.

Lemma step_serialized requests w0 s order i :
  serialized requests w0 s order → ∃ order', serialized requests w0 (stepThread s i) order'.
Proof.
  intros Hz. destruct (threads s !! i) as [[r [| |z|z]]|] eqn:Hi.
  - exists order. by eapply step_waiting.
  - exists (order ++ [i]). by eapply step_holding.
  - exists order. by eapply step_worked.
  - exists order. unfold stepThread. by rewrite Hi.
  - exists order. unfold stepThread. by rewrite Hi.
Qed.

Lemma arrivals_serialized requests w0 : lockFree w0 → serialized requests w0 (arrivals requests w0) [].
Proof.
  intros Hf. assert (Hs : ∀ i r p, threads (arrivals requests w0) !! i = Some (r, p) → requests !! i = Some r ∧ p = Waiting).
  { intros i r p. unfold arrivals. simpl. rewrite list_lookup_fmap. by intros (x & Hx & [= -> ->])%fmap_Some. }
  constructor; [by intros i r p [? _]%Hs|constructor| |constructor|done|].
  - intros i z (r & p & [_ ->]%Hs & [=]).
  - left. split; [done|]. by intros i r p [_ ->]%Hs.
Qed.

Lemma runAll_serialized requests w0 schedule :
  lockFree w0 → ∃ order, serialized requests w0 (runAll schedule (arrivals requests w0)) order.
Proof.
  intros Hf. unfold runAll. induction schedule as [|i schedule IH] using rev_ind.
  - exists []. by apply arrivals_serialized.
  - destruct IH as (order & Hz). rewrite foldl_app. simpl. by eapply step_serialized.
Qed.
End Race.
