(* ===== verification/AllocatorCalls.v ===== *)
(** * What malloc and its relatives promise

    TLSF's documented behaviour as laws, and the public functions against
    them while other processors use the same heap. *)

From Stdlib Require Import ZArith Lia.
From stdpp Require Import base numbers list gmap sets fin_maps.
From S2P Require Import Prelude Allocator AllocatorRace.

Import Allocator.
Local Open Scope Z_scope.

(** The bytes of the blocks [bs] are the same in [m'] as in [m]. *)
Definition keeps (bs : gmap Z Z) (m m' : mem) : Prop :=
  ∀ a s x, bs !! a = Some s → a <= x < a + s → m' x = m x.

(** What an allocation does to the blocks. *)
Definition allocates (bs bs' : gmap Z Z) (n r : Z) : Prop :=
  (r = 0 ∧ bs' = bs) ∨ (r ≠ 0 ∧ bs !! r = None ∧ ∃ s, n <= s ∧ bs' = <[r := s]> bs).

Class TlsfLaws (T : Type) `{!Tlsf T} := {
  live : T → gmap Z Z;                (* blocks handed out, with their usable sizes *)
  valid : T → Prop;
  block_size_bound : tlsf_block_size_max < 2 ^ 63;
  valid_block t a s : valid t → live t !! a = Some s →
    0 < a ∧ a mod 8 = 0 ∧ 0 <= s <= tlsf_block_size_max ∧ a + s <= 2 ^ 64;
  valid_disjoint t a s a' s' : valid t → live t !! a = Some s → live t !! a' = Some s' → a ≠ a' →
    a + s <= a' ∨ a' + s' <= a;
  create_law m start size t m' : tlsf_create_with_pool m start size = (Some t, m') → valid t ∧ live t = ∅;
  malloc_law t m n t' m' r : valid t → 0 <= n < 2 ^ 64 → tlsf_malloc t m n = (t', m', r) →
    valid t' ∧ keeps (live t) m m' ∧ allocates (live t) (live t') n r;
  memalign_law t m al n t' m' r : valid t → 0 <= n < 2 ^ 64 → (∃ k, 0 <= k ∧ al = 2 ^ k) →
    tlsf_memalign t m al n = (t', m', r) →
    valid t' ∧ keeps (live t) m m' ∧ allocates (live t) (live t') n r ∧ r mod al = 0;
  free_law t m p s t' m' : valid t → live t !! p = Some s → tlsf_free t m p = (t', m') →
    valid t' ∧ live t' = delete p (live t) ∧ keeps (live t') m m';
  size_law t m p s : valid t → live t !! p = Some s → tlsf_block_size t m p = s;
}.

Section Calls.
Context {T : Type} `{!Tlsf T} `{!TlsfLaws T} (obj : object).

Definition blocks (w : world (T := T)) : gmap Z Z := match fs_tlsf w with Some t => live t | None => ∅ end.

Definition wfWorld (w : world (T := T)) : Prop :=
  (lockFree obj w ∨ lockHeld obj w) ∧ match fs_tlsf w with Some t => valid t | None => True end.

(** The blocks of [S] are as they were. *)
Definition keepsOwn (S : gset Z) (w w' : world (T := T)) : Prop :=
  ∀ a s, a ∈ S → blocks w !! a = Some s →
    blocks w' !! a = Some s ∧ ∀ x, a <= x < a + s → memory w' x = memory w x.

(** Other processors leave the allocator consistent and other fibers' blocks alone. *)
Definition fair (todo : list (gset Z → world (T := T) → world)) : Prop :=
  Forall (λ e : gset Z → world (T := T) → world (T := T), ∀ S w, wfWorld w → wfWorld (e S w) ∧ keepsOwn S w (e S w)) todo.

(** They are between two islands whenever this fiber tries. *)
Definition calm (todo : list (gset Z → world (T := T) → world)) : Prop :=
  Forall (λ e : gset Z → world (T := T) → world (T := T), ∀ S w, wfWorld w → lockFree obj (e S w)) todo.

Definition owned (w : world (T := T)) (l : local (T := T)) : Prop := ∀ a, a ∈ mine l → is_Some (blocks w !! a).

Record ready (w : world (T := T)) (l : local (T := T)) : Prop := {
  r_wf : wfWorld w;
  r_owned : owned w l;
  r_fair : fair (others l);
}.

Lemma keepsOwn_refl S w : keepsOwn S w w.
Proof. by intros a s _ Ha. Qed.

Lemma keepsOwn_trans S w1 w2 w3 : keepsOwn S w1 w2 → keepsOwn S w2 w3 → keepsOwn S w1 w3.
Proof.
  intros H1 H2 a s HS Ha. destruct (H1 a s HS Ha) as [Ha2 Hm]. destruct (H2 a s HS Ha2) as [Ha3 Hm'].
  split; [done|]. intros x Hx. by rewrite Hm', Hm.
Qed.

Lemma keepsOwn_mono S S' w w' : S ⊆ S' → keepsOwn S' w w' → keepsOwn S w w'.
Proof. intros HS H a s Ha. apply H. set_solver. Qed.

Lemma owned_keeps w w' l l' : owned w l → keepsOwn (mine l) w w' → mine l' ⊆ mine l → owned w' l'.
Proof. intros Ho Hk Hm a Ha. destruct (Ho a) as [s Hs]; [set_solver|]. destruct (Hk a s) as [-> _]; [set_solver|done|eauto]. Qed.

Lemma block_facts w a s : wfWorld w → blocks w !! a = Some s →
  0 < a ∧ a mod 8 = 0 ∧ 0 <= s < 2 ^ 63 ∧ a + s <= 2 ^ 64.
Proof.
  unfold wfWorld, blocks. destruct (fs_tlsf w) as [t|]; [|done]. intros [_ Hv] Ha.
  pose proof (valid_block t a s Hv Ha). pose proof block_size_bound. lia.
Qed.

Lemma block_disjoint w a s a' s' : wfWorld w → blocks w !! a = Some s → blocks w !! a' = Some s' → a ≠ a' →
  a + s <= a' ∨ a' + s' <= a.
Proof. unfold wfWorld, blocks. destruct (fs_tlsf w) as [t|]; [|done]. intros [_ Hv]. by apply valid_disjoint. Qed.

(** ** Islands *)

Lemma heap_blocks w w' : heapOf w' = heapOf w → blocks w' = blocks w ∧ memory w' = memory w.
Proof. unfold blocks. by intros [= -> ->]. Qed.

(** An island on a free lock is its body; on a held lock it is busy. *)
Lemma island_spec r w :
  wfWorld w → let f := island obj (bodyOf obj r) in
  (¬ lockFree obj w ∧ f w = (FS_ALLOCATOR_BUSY, w)) ∨
  (∃ w', f w = ((bodyOf obj r w).1, w') ∧ heapOf w' = heapOf (bodyOf obj r w).2 ∧ lockFree obj w').
Proof.
  intros [[Hf|Hh] Hv] f; unfold f, island.
  - right. destruct (try_lock_free obj w Hf) as (w1 & -> & Hheap & Hheld).
    pose proof (body_lock obj r w1) as Hl. pose proof (body_heap obj r w1 w Hheap) as [Hr Hb].
    destruct (bodyOf obj r w1) as [z w2]. simpl in Hl, Hr, Hb.
    destruct (unlock_held obj w2) as (w3 & -> & Hh3 & Hf3); [by eapply lock_same|].
    exists w3. rewrite Hh3. split_and!; [by rewrite Hr|done|done].
  - left. rewrite (try_lock_held obj w Hh). split; [|done]. unfold lockFree, lockHeld in *.
    destruct (FULL_ATOMICS obj); [lia|done].
Qed.

(** What the body of an allocation does. *)
Definition allocated (n : Z) (w : world (T := T)) (z : Z) (w' : world) : Prop :=
  wfWorld w' ∧ keeps (blocks w) (memory w) (memory w') ∧ allocates (blocks w) (blocks w') n z.

Lemma setup_ready (w : world (T := T)) w1 t :
  wfWorld w → ensureTlsf obj w = (Some t, w1) →
  valid t ∧ fs_tlsf w1 = Some t ∧ live t = blocks w ∧ keeps (blocks w) (memory w) (memory w1).
Proof.
  intros [_ Hv] He. unfold ensureTlsf, blocks in *. destruct (fs_tlsf w) as [t0|] eqn:E.
  { injection He as <- <-. by split_and!. }
  unfold fs_setup in He. destruct (_ <? _); [done|].
  destruct (tlsf_create_with_pool _ _ _) as [[t1|] m1] eqn:Ec; [|done]. simpl in He. injection He as <- <-.
  destruct (create_law _ _ _ _ _ Ec) as [? Hl]. split_and!; [done|done|done|]. by intros a s x.
Qed.

Lemma setup_failed (w : world (T := T)) w1 : ensureTlsf obj w = (None, w1) → fs_tlsf w = None ∧ fs_tlsf w1 = None.
Proof.
  intros He. unfold ensureTlsf in He. destruct (fs_tlsf w) as [t0|] eqn:E; [done|].
  unfold fs_setup in He. destruct (_ <? _); [by injection He as <-|].
  destruct (tlsf_create_with_pool _ _ _) as [[t1|] m1] eqn:Ec; [done|]. simpl in He. by injection He as <-.
Qed.

Lemma keeps_trans bs m1 m2 m3 : keeps bs m1 m2 → keeps bs m2 m3 → keeps bs m1 m3.
Proof. intros H1 H2 a s x Ha Hx. by rewrite (H2 a s x Ha Hx), (H1 a s x Ha Hx). Qed.

Lemma setup_failed_allocated n w w1 w' :
  wfWorld w → ensureTlsf obj w = (None, w1) → heapOf w' = heapOf w1 → lockFree obj w' → allocated n w 0 w'.
Proof.
  intros Hw Ee Hh Hf. destruct (setup_failed w w1 Ee) as [Hn Hn1].
  assert (Hn' : fs_tlsf w' = None) by (by injection Hh as ->).
  assert (Hb : blocks w = ∅) by (unfold blocks; by rewrite Hn).
  split_and!.
  - split; [by left|by rewrite Hn'].
  - rewrite Hb. by intros a s x.
  - left. unfold blocks. by rewrite Hn', Hn.
Qed.

Lemma malloc_body n w w' :
  wfWorld w → 0 <= n < 2 ^ 64 → heapOf w' = heapOf (bodyOf obj (RMalloc n) w).2 → lockFree obj w' →
  allocated n w (bodyOf obj (RMalloc n) w).1 w'.
Proof.
  intros Hw Hn Hh Hf. simpl in *. unfold mallocBody in *. destruct (ensureTlsf obj w) as [[t|] w1] eqn:Ee.
  2: by eapply setup_failed_allocated.
  destruct (setup_ready w w1 t Hw Ee) as (Hv & Ht & Hl & Hk).
  destruct (tlsf_malloc t (memory w1) n) as [[t' m'] r] eqn:Em. simpl in *. injection Hh as Ht' Hm'.
  destruct (malloc_law _ _ _ _ _ _ Hv Hn Em) as (Hv' & Hk' & Ha). rewrite Hl in Hk', Ha.
  unfold allocated, blocks at 3. rewrite Ht', Hm'. split_and!.
  - split; [by left|by rewrite Ht'].
  - by eapply keeps_trans.
  - done.
Qed.

Lemma memalign_body al n w w' :
  wfWorld w → 0 <= n < 2 ^ 64 → (∃ k, 0 <= k ∧ al = 2 ^ k) →
  heapOf w' = heapOf (bodyOf obj (RMemalign al n) w).2 → lockFree obj w' →
  allocated n w (bodyOf obj (RMemalign al n) w).1 w' ∧ (bodyOf obj (RMemalign al n) w).1 mod al = 0.
Proof.
  intros Hw Hn Hal Hh Hf. simpl in *. unfold memalignBody in *. destruct (ensureTlsf obj w) as [[t|] w1] eqn:Ee.
  2: { split; [by eapply setup_failed_allocated|]. apply Z.mod_0_l. destruct Hal as (k & Hk & ->). pose proof (pow2_pos k Hk). lia. }
  destruct (setup_ready w w1 t Hw Ee) as (Hv & Ht & Hl & Hk).
  destruct (tlsf_memalign t (memory w1) al n) as [[t' m'] r] eqn:Em. simpl in *. injection Hh as Ht' Hm'.
  destruct (memalign_law _ _ _ _ _ _ _ Hv Hn Hal Em) as (Hv' & Hk' & Ha & Hmod). rewrite Hl in Hk', Ha.
  split; [|done]. unfold allocated, blocks at 3. rewrite Ht', Hm'. split_and!.
  - split; [by left|by rewrite Ht'].
  - by eapply keeps_trans.
  - done.
Qed.

Definition freed (p : Z) (w : world (T := T)) (w' : world) : Prop :=
  wfWorld w' ∧ blocks w' = delete p (blocks w) ∧ keeps (blocks w') (memory w) (memory w').

Lemma free_body p s w w' :
  wfWorld w → blocks w !! p = Some s → heapOf w' = heapOf (bodyOf obj (RFree p) w).2 → lockFree obj w' → freed p w w'.
Proof.
  intros [Hlk Hv] Hp Hh Hf. simpl in *. unfold freeBody, blocks in *. destruct (fs_tlsf w) as [t|] eqn:Et; [|done].
  destruct (tlsf_free t (memory w) p) as [t' m'] eqn:Ef. simpl in Hh. injection Hh as Ht' Hm'.
  destruct (free_law _ _ _ _ _ _ Hv Hp Ef) as (Hv' & Hl & Hk). unfold freed, blocks. rewrite Ht', Hm', Et.
  split_and!; [|done|done]. split; [by left|by rewrite Ht'].
Qed.

(** ** Retrying *)

(** A retried island leaves this fiber's blocks alone until it succeeds. *)
Lemma attempts_spec (R : world → Z → world → Prop) f todo w l :
  wfWorld w → owned w l → fair todo →
  (∀ v, wfWorld v → owned v l →
     (¬ lockFree obj v ∧ f v = (FS_ALLOCATOR_BUSY, v)) ∨ (∃ z v', f v = (z, v') ∧ z ≠ FS_ALLOCATOR_BUSY ∧ R v z v')) →
  match attempts f todo w l with
  | Ret z w' l' => ∃ v, wfWorld v ∧ owned v l ∧ keepsOwn (mine l) w v ∧ R v z w' ∧ fair (others l') ∧
      errno l' = errno l ∧ mine l' = mine l ∧ (calm todo → others l' = tail todo)
  | Exit _ _ => False
  | Pending _ _ => calm todo → todo = []
  end.
Proof.
  revert w. induction todo as [|e todo IH]; intros w Hw Ho Hfair Hf; simpl; [done|].
  apply Forall_cons in Hfair as [He Hfair]. destruct (He (mine l) w Hw) as [Hwe Hke].
  assert (Hoe : owned (e (mine l) w) l) by (by eapply owned_keeps).
  destruct (Hf _ Hwe Hoe) as [[Hnf ->]|(z & v' & -> & Hz & HR)].
  - rewrite Z.eqb_refl. specialize (IH _ Hwe Hoe Hfair Hf). destruct (attempts f todo (e (mine l) w) l) as [z w' l'|c w'|w' l'].
    + destruct IH as (v & Hv & Hov & Hk & HR & Hrest & Herr & Hmine & _). exists v.
      split_and!; try done; [by eapply keepsOwn_trans|]. intros [Hc _]%Forall_cons. exfalso. by apply Hnf, Hc.
    + done.
    + intros [Hc _]%Forall_cons. exfalso. by apply Hnf, Hc.
  - rewrite (proj2 (Z.eqb_neq _ _) Hz). exists (e (mine l) w). by split_and!.
Qed.

(** The lists of the others shrink by one attempt when they are calm. *)
Definition oneCall (l l' : local (T := T)) : Prop := calm (others l) → others l' = tail (others l).

(** Result of a step of a public function that makes at most [k] island calls. *)
Definition progress (k : nat) (l l' : local (T := T)) : Prop :=
  calm (others l) → (k <= length (others l))%nat → calm (others l') ∧ (length (others l) <= length (others l') + k)%nat.

Lemma call_spec (R : world → Z → world → Prop) f w l :
  ready w l →
  (∀ v, wfWorld v → owned v l →
     (¬ lockFree obj v ∧ f v = (FS_ALLOCATOR_BUSY, v)) ∨
     (∃ z v', f v = (z, v') ∧ z ≠ FS_ALLOCATOR_BUSY ∧ z ≠ FS_ALLOCATOR_ERROR ∧ R v z v')) →
  match call f w l with
  | Ret z w' l' => ∃ v, wfWorld v ∧ owned v l ∧ keepsOwn (mine l) w v ∧ R v z w' ∧ fair (others l') ∧
      errno l' = errno l ∧ mine l' = mine l ∧ progress 1 l l'
  | Exit _ _ => False
  | Pending _ _ => calm (others l) → others l = []
  end.
Proof.
  intros [Hw Ho Hfair] Hf. unfold call, bind, retry.
  pose proof (attempts_spec (λ v z v', z ≠ FS_ALLOCATOR_ERROR ∧ R v z v') f (others l) w l Hw Ho Hfair) as H.
  destruct (attempts f (others l) w l) as [z w' l'|c w'|w' l'].
  - destruct H as (v & Hv & Hov & Hk & [Hz HR] & Hrest & Herr & Hmine & Hcalm).
    { intros v Hv Hov. destruct (Hf v Hv Hov) as [?|(z0 & v' & ? & ? & ? & ?)]; [by left|right]. by exists z0, v'. }
    rewrite (proj2 (Z.eqb_neq _ _) Hz). exists v. split_and!; try done.
    intros Hc Hlen. rewrite (Hcalm Hc). destruct (others l); [simpl in Hlen; lia|]. simpl. split; [by apply Forall_cons in Hc as [_ ?]|lia].
  - apply H. intros v Hv Hov. destruct (Hf v Hv Hov) as [?|(z0 & v' & ? & ? & ? & ?)]; [by left|right]. by exists z0, v'.
  - apply H. intros v Hv Hov. destruct (Hf v Hv Hov) as [?|(z0 & v' & ? & ? & ? & ?)]; [by left|right]. by exists z0, v'.
Qed.
End Calls.
