(* ===== verification/AllocatorProps.v ===== *)
(** * The allocator's theorems

    Serial islands, and the contracts of calloc, realloc and posix_memalign
    while other processors use the heap. *)

From Stdlib Require Import ZArith Lia.
From stdpp Require Import base numbers list gmap sets fin_maps.
From S2P Require Import Prelude Allocator AllocatorRace AllocatorCalls.

Import Allocator.
Local Open Scope Z_scope.

Section Contracts.
Context {T : Type} `{!Tlsf T} `{!TlsfLaws T} (obj : object).

Notation World := (world (T := T)).
Notation Loc := (local (T := T)).

(** A computation that makes at most [k] island calls: it never ends the
    fiber, and is still waiting only when the lock was busy, or fewer than [k]
    attempts were made. *)
Definition post {A} (k : nat) (Q : A → World → Loc → Prop) (l : Loc) (o : out A) : Prop :=
  match o with
  | Ret a w' l' => Q a w' l' ∧ progress obj k l l'
  | Exit _ _ => False
  | Pending _ _ => calm obj (others l) → (length (others l) < k)%nat
  end.

Lemma attempts_trans k1 k2 (l l1 l2 : Loc) :
  progress obj k1 l l1 → progress obj k2 l1 l2 → progress obj (k1 + k2) l l2.
Proof.
  intros H1 H2 Hc Hl. destruct (H1 Hc) as [Hc1 Hl1]; [lia|]. destruct (H2 Hc1) as [Hc2 Hl2]; [lia|]. split; [done|lia].
Qed.

Lemma attempts_same k (l l' : Loc) : others l' = others l → progress obj k l l'.
Proof. intros E Hc _. rewrite E. split; [done|lia]. Qed.

Lemma post_mono {A} k k' (Q Q' : A → World → Loc → Prop) l o :
  post k Q l o → (k <= k')%nat → (∀ a w' l', Q a w' l' → Q' a w' l') → post k' Q' l o.
Proof.
  intros H Hk HQ. destruct o as [a w' l'|c w'|w' l']; simpl in *; [|done|intros Hc; specialize (H Hc); lia].
  destruct H as (Ha & Hp). split; [by apply HQ|]. intros Hc Hl. destruct (Hp Hc) as [? ?]; [lia|]. split; [done|lia].
Qed.

Lemma post_bind {A B} k1 k2 (Q1 : A → World → Loc → Prop) (Q2 : B → World → Loc → Prop) (x : action A) f w l :
  post k1 Q1 l (x w l) →
  (∀ a w' l', Q1 a w' l' → post k2 Q2 l' (f a w' l')) →
  post (k1 + k2) Q2 l (bind x f w l).
Proof.
  intros H Hf. unfold bind. destruct (x w l) as [a w1 l1|c w1|w1 l1]; simpl in H; [|done|simpl; intros Hc; specialize (H Hc); lia].
  destruct H as (Ha & Hp). specialize (Hf a w1 l1 Ha). destruct (f a w1 l1) as [b w2 l2|c w2|w2 l2]; simpl in *.
  - destruct Hf as (? & ?). split; [done|by eapply attempts_trans].
  - done.
  - intros Hc. destruct (decide (k1 <= length (others l))%nat) as [Hle|]; [|lia].
    destruct (Hp Hc Hle) as [Hc1 Hl1]. specialize (Hf Hc1). lia.
Qed.

Lemma post_ret {A} k (Q : A → World → Loc → Prop) (a : A) w l l' : others l' = others l → Q a w l' → post k Q l (Ret a w l').
Proof. intros Hr HQ. simpl. split; [done|by apply attempts_same]. Qed.

(** ** Island calls *)

(** The island ran to its end from a state [v] the other processors left. *)
Definition ran (R : World → Z → World → Prop) (w : World) (l : Loc) (z : Z) (w' : World) (l' : Loc) : Prop :=
  ∃ v, wfWorld obj v ∧ owned v l ∧ keepsOwn (mine l) w v ∧ R v z w' ∧ fair obj (others l') ∧
    errno l' = errno l ∧ mine l' = mine l.

Lemma island_post r (R : World → Z → World → Prop) w l :
  ready obj w l →
  (∀ v w', wfWorld obj v → owned v l → heapOf w' = heapOf (bodyOf obj r v).2 → lockFree obj w' →
     (bodyOf obj r v).1 ≠ FS_ALLOCATOR_BUSY ∧ (bodyOf obj r v).1 ≠ FS_ALLOCATOR_ERROR ∧ R v (bodyOf obj r v).1 w') →
  post 1 (ran R w l) l (call (island obj (bodyOf obj r)) w l).
Proof.
  intros Hr Hb. pose proof (call_spec obj R (island obj (bodyOf obj r)) w l Hr) as H.
  assert (Hf : ∀ v, wfWorld obj v → owned v l →
    (¬ lockFree obj v ∧ island obj (bodyOf obj r) v = (FS_ALLOCATOR_BUSY, v)) ∨
    (∃ z v', island obj (bodyOf obj r) v = (z, v') ∧ z ≠ FS_ALLOCATOR_BUSY ∧ z ≠ FS_ALLOCATOR_ERROR ∧ R v z v')).
  { intros v Hv Hov. destruct (island_spec obj r v Hv) as [?|(w' & Hf & Hh & Hl)]; [by left|right].
    destruct (Hb v w' Hv Hov Hh Hl) as (H1 & H2 & H3). eexists _, w'. split; [exact Hf|done]. }
  specialize (H Hf). destruct (call _ w l) as [z w' l'|c w'|w' l']; cbn; [|done|intros Hc; rewrite (H Hc); simpl; lia].
  destruct H as (v & ? & ? & ? & ? & ? & ? & ? & ?). split; [by exists v|done].
Qed.

(** The outcome of an allocation of [n] bytes by a fiber in state [w], [l]. *)
Definition allocResult (n : Z) (w : World) (l : Loc) (r : Z) (w' : World) (l' : Loc) : Prop :=
  ready obj w' l' ∧ keepsOwn (mine l) w w' ∧
  ((r = 0 ∧ mine l' = mine l ∧ errno l' = ENOMEM) ∨
   (r ≠ 0 ∧ r ∉ mine l ∧ mine l' = {[r]} ∪ mine l ∧ errno l' = errno l ∧ ∃ s, blocks w' !! r = Some s ∧ n <= s)).

(** A result of the heap is no reserved code. *)
Lemma allocated_code n w z w' :
  allocated obj n w z w' → z ≠ FS_ALLOCATOR_BUSY ∧ z ≠ FS_ALLOCATOR_ERROR.
Proof.
  intros (Hw & _ & [[-> _]|(Hz & _ & s & _ & Hb)]); [done|].
  assert (Hl : blocks w' !! z = Some s) by (rewrite Hb; apply lookup_insert_eq).
  pose proof (block_facts obj w' z s Hw Hl) as (H0 & Hm & Hs & He). unfold FS_ALLOCATOR_BUSY, FS_ALLOCATOR_ERROR.
  split; intros ->; done.
Qed.

Lemma allocated_keeps n w z w' (S : gset Z) :
  allocated obj n w z w' → keepsOwn S w w'.
Proof.
  intros (Hw & Hk & Ha) a s _ Hb. split; [|intros x Hx; by eapply Hk].
  destruct Ha as [[_ ->]|(_ & Hn & s' & _ & ->)]; [done|]. rewrite lookup_insert_ne; [done|]. congruence.
Qed.

(** The two allocating functions take the island's block for the caller. *)
Lemma finish_post n w l (R : World → Z → World → Prop) (P : Z → Prop) z w1 l1 :
  (∀ v z w', R v z w' → allocated obj n v z w' ∧ P z) → ran R w l z w1 l1 →
  post 0 (λ r w' l', allocResult n w l r w' l' ∧ P r) l1 (finishAllocation z w1 l1).
Proof.
  intros HR (v & Hv & Hov & Hkv & Hrun & Hfair & Herr & Hmine). destruct (HR _ _ _ Hrun) as [Ha HP].
  pose proof (allocated_keeps _ _ _ _ (mine l) Ha) as Hk.
  pose proof (owned_keeps v w1 l l Hov Hk) as Ho. pose proof (keepsOwn_trans _ _ _ _ Hkv Hk) as Hkw.
  unfold finishAllocation, bind, own, setErrno, ret. destruct Ha as (Hw1 & Hkm & Ha).
  destruct Ha as [[-> Hb]|(Hz & Hnone & s & Hs & Hb)].
  - apply post_ret; [done|]. split; [|done]. split; [|split; [done|left; by rewrite <-Hmine]].
    constructor; [done|cbn; rewrite Hmine; by apply Ho|done].
  - rewrite (proj2 (Z.eqb_neq _ _) Hz). cbn. rewrite Hmine.
    assert (Hnew : blocks w1 !! z = Some s) by (rewrite Hb; apply lookup_insert_eq).
    split; [|by apply attempts_same]. split; [|done]. split; [|split; [done|right]].
    + constructor; [done| |done]. intros a Ha. cbn in Ha. apply elem_of_union in Ha as [->%elem_of_singleton|Ha]; [eauto|].
      by apply Ho.
    + cbn. split_and!; [done| |done|done|by exists s].
      intros Hin. destruct (Hov z Hin) as [s' Hs']. congruence.
Qed.

Lemma malloc_post n w l :
  ready obj w l → 0 <= n < 2 ^ 64 → post 1 (allocResult n w l) l (malloc obj n w l).
Proof.
  intros Hr Hn. apply (post_bind 1 0 (ran (allocated obj n) w l)).
  - apply (island_post (RMalloc n)); [done|]. intros v w' Hv Hov Hh Hl.
    pose proof (malloc_body obj n v w' Hv Hn Hh Hl) as Ha. destruct (allocated_code _ _ _ _ Ha). by split_and!.
  - intros z w1 l1 Hran. eapply post_mono; [eapply (finish_post n w l _ (λ _, True)); [|exact Hran]|lia|].
    + intros v z' w'. done.
    + by intros a w' l' [? _].
Qed.

(** What memalign returns: a block aligned as asked, or an error number. *)
Definition alignedResult (al n : Z) (w : World) (l : Loc) (r : Z) (w' : World) (l' : Loc) : Prop :=
  ready obj w' l' ∧ keepsOwn (mine l) w w' ∧
  ((r = 0 ∧ mine l' = mine l ∧ ((errno l' = EINVAL ∧ ¬ powerOfTwo al) ∨ (errno l' = ENOMEM ∧ powerOfTwo al))) ∨
   (r ≠ 0 ∧ r mod al = 0 ∧ powerOfTwo al ∧ mine l' = {[r]} ∪ mine l ∧ r ∉ mine l ∧
      ∃ s, blocks w' !! r = Some s ∧ n <= s)).

Lemma ready_errno e w l : ready obj w l → ready obj w (Local e (mine l) (others l)).
Proof. intros [? ? ?]. by constructor. Qed.

Lemma memalign_post al n w l :
  ready obj w l → 0 <= n < 2 ^ 64 → 0 <= al < 2 ^ 64 → post 1 (alignedResult al n w l) l (memalign obj al n w l).
Proof.
  intros Hr Hn Hal. unfold memalign.
  assert (Hnot : al = 0 → ¬ powerOfTwo al).
  { intros -> (k & Hk & E). pose proof (pow2_pos k Hk). lia. }
  destruct ((al =? 0) || negb (Z.land al (u64 (al - 1)) =? 0)) eqn:Eb.
  { apply post_ret; [done|]. split_and!; [by apply ready_errno|apply keepsOwn_refl|].
    left. split_and!; [done|done|]. left. split; [done|]. apply orb_true_iff in Eb as [E|E]; bool_to_prop; [by apply Hnot|].
    destruct (decide (al = 0)); [by apply Hnot|]. rewrite <-land_pred_pow2 by lia. done. }
  apply orb_false_iff in Eb as [E0 E1]. bool_to_prop. apply land_pred_pow2 in E1; [|lia].
  destruct (_ <? al).
  { apply post_ret; [done|]. split_and!; [by apply ready_errno|apply keepsOwn_refl|].
    left. split_and!; [done|done|]. by right. }
  apply (post_bind 1 0 (ran (λ v z w', allocated obj n v z w' ∧ z mod al = 0) w l)).
  - apply (island_post (RMemalign al n)); [done|]. intros v w' Hv Hov Hh Hl.
    pose proof (memalign_body obj al n v w' Hv Hn E1 Hh Hl) as [Ha Hm]. destruct (allocated_code _ _ _ _ Ha). by split_and!.
  - intros z w1 l1 Hran. eapply post_mono; [eapply (finish_post n w l _ (λ r, r mod al = 0)); [|exact Hran]|lia|].
    + intros v z' w'. done.
    + intros a w' l' [(Hrd & Hk & [(-> & Hm & He)|(Ha & Hni & Hm & He & Hs)]) Hmod]; (split; [done|]); (split; [done|]).
      * left. split_and!; [done|done|]. by right.
      * right. by split_and!.
Qed.

Lemma owned_nonzero w l p : ready obj w l → p ∈ mine l → p ≠ 0 ∧ ∃ s, blocks w !! p = Some s ∧ 0 <= s < 2 ^ 63.
Proof.
  intros [Hw Ho _] Hp. destruct (Ho p Hp) as [s Hs]. pose proof (block_facts obj w p s Hw Hs). split; [lia|]. exists s. split; [done|lia].
Qed.

Lemma free_post p w l :
  ready obj w l → p ∈ mine l →
  post 1 (λ _ w' l', ready obj w' l' ∧ mine l' = mine l ∖ {[p]} ∧ errno l' = errno l ∧ keepsOwn (mine l ∖ {[p]}) w w')
    l (free obj p w l).
Proof.
  intros Hr Hp. destruct (owned_nonzero w l p Hr Hp) as [Hp0 _]. unfold free. rewrite (proj2 (Z.eqb_neq _ _) Hp0).
  apply (post_bind 1 0 (ran (λ v z w', freed obj p v w') w l)).
  - apply (island_post (RFree p)); [done|]. intros v w' Hv Hov Hh Hl. destruct (Hov p Hp) as [s Hs].
    pose proof (free_body obj p s v w' Hv Hs Hh Hl). split_and!; [| |done];
      simpl; unfold freeBody; destruct (fs_tlsf v); try done; by destruct (tlsf_free _ _ _).
  - intros z w1 l1 (v & Hv & Hov & Hkv & (Hw1 & Hb & Hm) & Hfair & Herr & Hmine).
    assert (Hk : keepsOwn (mine l ∖ {[p]}) v w1).
    { intros a s Ha Hs. assert (Hs1 : blocks w1 !! a = Some s) by (rewrite Hb, lookup_delete_ne; [done|set_solver]).
      split; [done|]. intros x Hx. by eapply Hm. }
    apply post_ret; [done|]. cbn. rewrite Hmine. split_and!; [|done|done|].
    + constructor; [done| |done]. intros a Ha. cbn in Ha. destruct (Hov a) as [s Hs]; [set_solver|].
      destruct (Hk a s Ha Hs) as [-> _]. eauto.
    + eapply keepsOwn_trans; [|exact Hk]. eapply keepsOwn_mono; [|exact Hkv]. set_solver.
Qed.

Lemma size_post p s w l :
  ready obj w l → p ∈ mine l → blocks w !! p = Some s →
  post 1 (λ z w' l', ready obj w' l' ∧ keepsOwn (mine l) w w' ∧ mine l' = mine l ∧ errno l' = errno l ∧ z = s)
    l (malloc_usable_size obj p w l).
Proof.
  intros Hr Hp Hs. destruct (owned_nonzero w l p Hr Hp) as [Hp0 _]. unfold malloc_usable_size. rewrite (proj2 (Z.eqb_neq _ _) Hp0).
  eapply post_mono; [apply (island_post (RSize p) (λ v z w', wfWorld obj w' ∧ heapOf w' = heapOf v ∧ ∀ s', blocks v !! p = Some s' → z = s'))|done|].
  - done.
  - intros v w' Hv Hov Hh Hl. destruct (Hov p Hp) as [s' Hs']. pose proof (block_facts obj v p s' Hv Hs') as Hf.
    assert (Hz : (bodyOf obj (RSize p) v).1 = s').
    { destruct Hv as [_ Hval]. simpl. unfold blocks in Hs'. destruct (fs_tlsf v) as [t|]; [|done]. by apply size_law. }
    rewrite Hz. unfold FS_ALLOCATOR_BUSY, FS_ALLOCATOR_ERROR. split_and!; [lia|lia| |done|congruence].
    simpl in Hh. split; [by left|]. destruct Hv as [_ Hval]. by injection Hh as -> _.
  - intros z w' l' (v & Hv & Hov & Hkv & (Hw' & Hh & Hz) & Hfair & Herr & Hmine).
    destruct (heap_blocks _ _ Hh) as [Hb Hm].
    assert (Hk : keepsOwn (mine l) w w').
    { intros a s0 Ha Hs0. rewrite Hb, Hm. by apply Hkv. }
    split_and!; [|done|done|done|apply Hz, (Hkv p s Hp Hs)].
    constructor; [done|by eapply owned_keeps; [apply Hr|exact Hk|rewrite Hmine]|done].
Qed.

(** Writing inside a block of one's own. *)
Lemma write_block w l r s n m' :
  ready obj w l → blocks w !! r = Some s → n <= s → (∀ x, x < r ∨ r + n <= x → m' x = memory w x) →
  let w' := setHeap (fs_tlsf w) m' w in
  ready obj w' l ∧ blocks w' = blocks w ∧ keepsOwn (mine l ∖ {[r]}) w w'.
Proof.
  intros [Hw Ho Hf] Hr Hn Hm w'. assert (Hb : blocks w' = blocks w) by done. split_and!; [|done|].
  - constructor; [exact Hw| |done]. intros a Ha. rewrite Hb. by apply Ho.
  - intros a s0 Ha Hs0. rewrite Hb. split; [done|]. intros x Hx. apply Hm.
    destruct (block_disjoint obj w a s0 r s Hw Hs0 Hr); [set_solver|lia|lia].
Qed.

(** calloc returns zeroed memory for the whole product, or nothing. *)
Definition callocResult (n sz : Z) (w : World) (l : Loc) (r : Z) (w' : World) (l' : Loc) : Prop :=
  ready obj w' l' ∧ keepsOwn (mine l) w w' ∧
  ((r = 0 ∧ mine l' = mine l ∧ errno l' = ENOMEM) ∨
   (r ≠ 0 ∧ r ∉ mine l ∧ mine l' = {[r]} ∪ mine l ∧ n * sz <= SIZE_MAX ∧
      ∃ s, blocks w' !! r = Some s ∧ n * sz <= s ∧ ∀ x, r <= x < r + n * sz → memory w' x = 0)).

Lemma calloc_post n sz w l :
  ready obj w l → 0 <= n <= SIZE_MAX → 0 <= sz <= SIZE_MAX → post 1 (callocResult n sz w l) l (calloc obj n sz w l).
Proof.
  unfold SIZE_MAX. intros Hr Hn Hsz. unfold calloc. destruct (negb (sz =? 0) && _) eqn:E.
  { apply post_ret; [done|]. split_and!; [by apply ready_errno|apply keepsOwn_refl|by left]. }
  assert (Hprod : 0 <= n * sz <= SIZE_MAX).
  { unfold SIZE_MAX in *. split; [nia|]. destruct (decide (sz = 0)) as [->|Hz]; [lia|].
    rewrite (proj2 (Z.eqb_neq _ _) Hz) in E. cbn [negb andb] in E. bool_to_prop.
    pose proof (Z.mul_div_le (2 ^ 64 - 1) sz). nia. }
  assert (Htotal : u64 (n * sz) = n * sz) by (unfold u64, SIZE_MAX in *; apply wrap_small; lia).
  cbv zeta. rewrite Htotal. apply (post_bind 1 0 (allocResult (n * sz) w l)).
  { apply malloc_post; [done|unfold SIZE_MAX in *; lia]. }
  intros p w1 l1 (Hr1 & Hk & [(-> & Hm & He)|(Hp & Hni & Hm & He & s & Hs & Hle)]).
  - apply post_ret; [done|]. split_and!; [done|done|by left].
  - rewrite (proj2 (Z.eqb_neq _ _) Hp). unfold bind, memset, ret.
    edestruct (write_block w1 l1 p s (n * sz)) as (Hr2 & Hb2 & Hk2); [done|done|done| |].
    2: { apply post_ret; [done|]. split_and!; [exact Hr2| |].
         - eapply keepsOwn_trans; [exact Hk|]. eapply keepsOwn_mono; [|exact Hk2]. rewrite Hm. set_solver.
         - right. split_and!; [done|done|done|lia|]. exists s. rewrite Hb2. split_and!; [done|done|].
           intros x Hx. simpl. destruct (Z.leb_spec p x), (Z.ltb_spec x (p + n * sz)); (done || lia). }
    intros x Hx. simpl. destruct (Z.leb_spec p x), (Z.ltb_spec x (p + n * sz)); (done || lia).
Qed.

(** realloc keeps the old block until the new one holds its contents. *)
Definition reallocResult (p s n : Z) (w : World) (l : Loc) (r : Z) (w' : World) (l' : Loc) : Prop :=
  ready obj w' l' ∧ keepsOwn (mine l ∖ {[p]}) w w' ∧
  ((r = p ∧ n <= s ∧ mine l' = mine l ∧ keepsOwn (mine l) w w') ∨
   (r = 0 ∧ s < n ∧ mine l' = mine l ∧ keepsOwn (mine l) w w' ∧ errno l' = ENOMEM) ∨
   (r ≠ 0 ∧ r ∉ mine l ∧ s < n ∧ mine l' = {[r]} ∪ (mine l ∖ {[p]}) ∧
      ∃ s', blocks w' !! r = Some s' ∧ n <= s' ∧ ∀ i, 0 <= i < s → memory w' (r + i) = memory w (p + i))).

Lemma realloc_post p s n w l :
  ready obj w l → p ∈ mine l → blocks w !! p = Some s → 0 < n < 2 ^ 64 →
  post 3 (reallocResult p s n w l) l (realloc obj p n w l).
Proof.
  intros Hr Hp Hs Hn. destruct (owned_nonzero w l p Hr Hp) as [Hp0 _]. unfold realloc.
  rewrite (proj2 (Z.eqb_neq _ _) Hp0). destruct (Z.eqb_spec n 0); [lia|].
  apply (post_bind 1 2 _ _ _ _ _ _ (size_post p s w l Hr Hp Hs)).
  intros z w1 l1 (Hr1 & Hk1 & Hm1 & He1 & ->). destruct (Z.leb_spec n s).
  { apply post_ret; [done|]. split_and!; [done|eapply keepsOwn_mono; [|exact Hk1]; set_solver|]. by left. }
  apply (post_bind 1 1 (allocResult n w1 l1)); [apply malloc_post; [done|lia]|].
  intros r w2 l2 (Hr2 & Hk2 & Hcase). rewrite Hm1 in Hk2, Hcase.
  assert (Hk12 : keepsOwn (mine l) w w2) by (by eapply keepsOwn_trans).
  destruct Hcase as [(-> & Hm2 & He2)|(Hr0 & Hni & Hm2 & He2 & s' & Hs' & Hle)].
  { apply post_ret; [done|]. split_and!; [done|eapply keepsOwn_mono; [|exact Hk12]; set_solver|].
    right. left. by split_and!. }
  rewrite (proj2 (Z.eqb_neq _ _) Hr0).
  destruct (Hk12 p s Hp Hs) as [Hs2 Hmem2].
  assert (Hpr : p ≠ r) by (intros ->; done).
  pose proof (block_disjoint obj w2 p s r s' (r_wf _ _ _ Hr2) Hs2 Hs' Hpr) as Hdis.
  set (m' := λ x, if (r <=? x) && (x <? r + s) then memory w2 (p + (x - r)) else memory w2 x).
  edestruct (write_block w2 l2 r s' s m') as (Hr3 & Hb3 & Hk3); [done|done|lia| |].
  { intros x Hx. unfold m'. destruct (Z.leb_spec r x), (Z.ltb_spec x (r + s)); (done || lia). }
  set (w3 := setHeap (fs_tlsf w2) m' w2) in *.
  change (bind (memcpy r p s) _ w2 l2) with (bind (free obj p) (λ _, ret r) w3 l2).
  apply (post_bind 1 0 _ _ _ _ _ _ (free_post p w3 l2 Hr3 ltac:(rewrite Hm2; set_solver))).
  intros _ w4 l4 (Hr4 & Hm4 & He4 & Hk4). apply post_ret; [done|].
  assert (HinR : r ∈ mine l2 ∖ {[p]}) by (rewrite Hm2; set_solver).
  destruct (Hk4 r s' HinR) as [Hs4 Hmem4]; [by rewrite Hb3|]. split_and!; [done| |].
  - eapply keepsOwn_trans; [eapply keepsOwn_mono; [|exact Hk12]; set_solver|].
    eapply keepsOwn_trans; [eapply keepsOwn_mono; [|exact Hk3]; rewrite Hm2; set_solver|].
    eapply keepsOwn_mono; [|exact Hk4]. rewrite Hm2. set_solver.
  - right. right. split_and!; [done|done|lia|rewrite Hm4, Hm2; set_solver|]. exists s'. split_and!; [done|done|].
    intros i Hi. rewrite Hmem4 by lia. cbn. unfold m'.
    destruct (Z.leb_spec r (r + i)), (Z.ltb_spec (r + i) (r + s)); try lia. cbn [andb].
    replace (p + (r + i - r)) with (p + i) by lia. apply Hmem2. lia.
Qed.

(** posix_memalign reports through its result and restores errno. *)
Definition posixResult (al n : Z) (w : World) (l : Loc) (res : Z * option Z) (w' : World) (l' : Loc) : Prop :=
  ready obj w' l' ∧ keepsOwn (mine l) w w' ∧ errno l' = errno l ∧
  match res with
  | (e, None) => mine l' = mine l ∧
      ((e = EINVAL ∧ ¬ (powerOfTwo al ∧ al mod 8 = 0)) ∨ (e = ENOMEM ∧ powerOfTwo al ∧ al mod 8 = 0))
  | (e, Some r) => e = 0 ∧ r ≠ 0 ∧ r mod al = 0 ∧ r ∉ mine l ∧ mine l' = {[r]} ∪ mine l ∧
      ∃ s, blocks w' !! r = Some s ∧ n <= s
  end.

Lemma posix_memalign_post al n w l :
  ready obj w l → 0 <= n < 2 ^ 64 → 0 <= al < 2 ^ 64 → post 1 (posixResult al n w l) l (posix_memalign obj al n w l).
Proof.
  intros Hr Hn Hal. unfold posix_memalign. destruct (_ || negb (al mod 8 =? 0)) eqn:E.
  { apply post_ret; [done|]. split_and!; [done|apply keepsOwn_refl|done|done|]. left. split; [done|].
    intros [(k & Hk & Hpk) H8]. apply orb_true_iff in E as [E|E]; [|bool_to_prop; lia].
    pose proof (pow2_pos k Hk). apply orb_true_iff in E as [E|E]; bool_to_prop; [lia|].
    rewrite land_pred_pow2 in E by lia. by apply E; exists k. }
  apply orb_false_iff in E as [E E8]. apply orb_false_iff in E as [E0 E1]. bool_to_prop.
  apply land_pred_pow2 in E1; [|lia].
  change (bind getErrno _ w l) with
    (bind (memalign obj al n) (λ allocation, bind getErrno (λ e,
       let error := if negb (allocation =? 0) then 0 else if e =? EINVAL then EINVAL else ENOMEM in
       bind (setErrno (errno l)) (λ _, ret (error, if error =? 0 then Some allocation else None)))) w l).
  apply (post_bind 1 0 _ _ _ _ _ _ (memalign_post al n w l Hr Hn Hal)).
  intros r w1 l1 (Hr1 & Hk & [(-> & Hm & Herr)|(Hr0 & Hmod & _ & Hm & Hni & Hs)]).
  - destruct Herr as [[_ Hno]|[He _]]; [done|]. cbv zeta. unfold bind, getErrno, setErrno, ret. rewrite He. cbn.
    split; [|by apply attempts_same]. split; [by apply ready_errno|]. split; [done|]. split; [done|]. split; [done|]. by right.
  - unfold bind, getErrno, setErrno, ret. rewrite (proj2 (Z.eqb_neq _ _) Hr0). cbn.
    split; [|by apply attempts_same]. split; [by apply ready_errno|]. by split_and!.
Qed.
End Contracts.

(** ** The theorems *)

(** C36: allocator islands on any number of processors are executed one
    after the other.  Under every interleaving of their steps at most one
    processor is between taking and releasing the lock; the lock is free
    whenever no processor is; a processor that holds it returns and releases
    it within its own next two steps; and there is an order of the finished
    operations in which executing them serially gives the same heap and to
    each processor the result it got - in particular releasing the lock never
    fails, so no processor sees the corruption code. *)
Theorem allocator_islands_serial {T : Type} `{!Tlsf T} (obj : object) (requests : list request)
    (w0 : world (T := T)) (schedule : list nat) :
  lockFree obj w0 →
  let s := runAll obj schedule (arrivals requests w0) in
  (∀ i j r q p p', threads s !! i = Some (r, p) → threads s !! j = Some (q, p') →
     critical p = true → critical p' = true → i = j) ∧
  ((∀ i r p, threads s !! i = Some (r, p) → critical p = false) → lockFree obj (sworld s)) ∧
  (∀ i r, threads s !! i = Some (r, Holding) →
     ∃ z, threads (runAll obj [i; i] s) !! i = Some (r, Returned z) ∧ lockFree obj (sworld (runAll obj [i; i] s))) ∧
  ∃ order, NoDup order ∧ (∀ i, i ∈ order ↔ ∃ z, served s i z) ∧
    Forall2 (served s) order (serial obj (omap (λ i, requests !! i) order) w0).1 ∧
    heapOf (sworld s) = heapOf (serial obj (omap (λ i, requests !! i) order) w0).2.
Proof.
  intros Hf s. destruct (runAll_serialized obj requests w0 schedule Hf) as (order & Hz). fold s in Hz. split_and!.
  - intros i j r q p p' Hi Hj Hp Hp'. destruct (z_lock _ _ _ _ _ Hz) as [(_ & Hn)|(_ & k & _ & Hk)].
    + apply Hn in Hi. congruence.
    + by rewrite (Hk _ _ _ Hi Hp), (Hk _ _ _ Hj Hp').
  - intros Hn. destruct (z_lock _ _ _ _ _ Hz) as [(? & _)|(_ & k & (r & p & Hp & Hc) & _)]; [done|].
    apply Hn in Hp. congruence.
  - intros i r Hi. pose proof (lookup_lt_Some _ _ _ Hi) as Hlt.
    destruct (z_lock _ _ _ _ _ Hz) as [(_ & Hn)|(Hheld & _)]; [by apply Hn in Hi|].
    change (runAll obj [i; i] s) with (stepThread obj (stepThread obj s i) i). unfold stepThread at 2 4. rewrite Hi.
    pose proof (body_lock obj r (sworld s)) as Hlk. destruct (bodyOf obj r (sworld s)) as [z w1]. simpl in Hlk.
    unfold stepThread. cbn [goto threads sworld]. rewrite list_lookup_insert_eq by done.
    destruct (unlock_held obj w1) as (w2 & -> & _ & Hfree); [by eapply lock_same|]. exists z.
    cbn [goto threads sworld]. rewrite list_insert_insert_eq, list_lookup_insert_eq by done. done.
  - exists order. split_and!; [apply Hz| |apply Hz|symmetry; apply Hz]. intros i. split.
    + intros [k Hk]%list_elem_of_lookup. destruct (Forall2_lookup_l _ _ _ _ _ (z_results _ _ _ _ _ Hz) Hk) as (z & _ & ?). by exists z.
    + intros [z ?]. by eapply z_done.
Qed.

(** C37: calloc, realloc and posix_memalign keep their contracts while other
    processors use the heap.  None of them ends the fiber, none disturbs
    another block of the caller, and each finishes once the lock was found
    free for its island calls.  calloc gives zeroed memory for the whole
    product, which did not overflow, or fails with ENOMEM.  realloc gives a
    block of at least the new size with the old contents, the old block back
    when it was large enough, or, with ENOMEM, leaves the old block and its
    contents alone.  posix_memalign gives a block aligned as asked or the
    error that applies, and errno is as before. *)
Theorem allocation_contracts {T : Type} `{!Tlsf T} `{!TlsfLaws T} (obj : object) (w : world (T := T)) (l : local) :
  ready obj w l →
  (∀ n sz, 0 <= n <= SIZE_MAX ∧ 0 <= sz <= SIZE_MAX → post obj 1 (callocResult obj n sz w l) l (calloc obj n sz w l)) ∧
  (∀ p s n, p ∈ mine l ∧ blocks w !! p = Some s ∧ 0 < n <= SIZE_MAX →
     post obj 3 (reallocResult obj p s n w l) l (realloc obj p n w l)) ∧
  (∀ al n, 0 <= al <= SIZE_MAX ∧ 0 <= n <= SIZE_MAX →
     post obj 1 (posixResult obj al n w l) l (posix_memalign obj al n w l)).
Proof.
  unfold SIZE_MAX. intros Hr. split_and!.
  - intros n sz [? ?]. by apply calloc_post.
  - intros p s n (? & ? & ?). apply realloc_post; (done || lia).
  - intros al n [? ?]. apply posix_memalign_post; (done || lia).
Qed.
