(* ===== verification/AllocatorSamples.v ===== *)
(** * A heap that satisfies TLSF's laws

    A bump allocator that never reuses memory, as an instance of the laws,
    and the allocator theorems applied to it. *)

From Stdlib Require Import ZArith Lia.
From stdpp Require Import base numbers list gmap sets fin_maps.
From S2P Require Import Prelude Allocator AllocatorRace AllocatorCalls AllocatorProps.

Import Allocator.
Local Open Scope Z_scope.

Record bump := Bump { next : Z; limit : Z; handed : gmap Z Z }.

Definition roundUp (x al : Z) : Z := (x + al - 1) / al * al.
Definition bumpMax : Z := 2 ^ 32.

(** [n] bytes at an address that is a multiple of [al]. *)
Definition bumpAt (b : bump) (m : mem) (al n : Z) : bump * mem * Z :=
  let r := roundUp (next b) (Z.max al 8) in
  let s := roundUp n 8 in
  if (n =? 0) || (bumpMax <? s) || (limit b <? r + s) then (b, m, 0)
  else (Bump (r + s) (limit b) (<[r := s]> (handed b)), m, r).

#[global] Instance bump_tlsf : Tlsf bump := {|
  tlsf_size := 8;
  tlsf_pool_overhead := 8;
  tlsf_block_size_min := 8;
  tlsf_block_size_max := bumpMax;
  tlsf_create_with_pool m start size :=
    if (start <=? 0) || (2 ^ 63 <? start + size) then (None, m)
    else (Some (Bump (roundUp start 8) (start + size) ∅), m);
  tlsf_malloc b m n := bumpAt b m 8 n;
  tlsf_free b m p := (Bump (next b) (limit b) (delete p (handed b)), m);
  tlsf_block_size b m p := default 0 (handed b !! p);
  tlsf_memalign b m al n := bumpAt b m al n;
|}.

Definition bumpValid (b : bump) : Prop :=
  0 < next b ∧ limit b <= 2 ^ 63 ∧
  (∀ a s, handed b !! a = Some s → 0 < a ∧ a mod 8 = 0 ∧ 0 < s <= bumpMax ∧ a + s <= next b ∧ a + s <= 2 ^ 64) ∧
  (∀ a s a' s', handed b !! a = Some s → handed b !! a' = Some s' → a ≠ a' → a + s <= a' ∨ a' + s' <= a).

Lemma roundUp_spec x al : 0 < al → x <= roundUp x al < x + al ∧ roundUp x al mod al = 0.
Proof.
  intros Hal. unfold roundUp. split; [|apply Z.mod_mul; lia].
  pose proof (Z.div_mod (x + al - 1) al). pose proof (Z.mod_pos_bound (x + al - 1) al). nia.
Qed.

Lemma max8_pow2 al : powerOfTwo al → Z.max al 8 mod al = 0 ∧ Z.max al 8 mod 8 = 0 ∧ 0 < Z.max al 8.
Proof.
  intros (k & Hk & ->). assert (H8 : 8 = 2 ^ 3) by done. destruct (Z.le_ge_cases k 3) as [H|H].
  - rewrite Z.max_r by (rewrite H8; by apply Z.pow_le_mono_r). split_and!; [|done|lia].
    apply Z.mod_divide; [pose proof (pow2_pos k Hk); lia|]. exists (2 ^ (3 - k)). rewrite <-Z.pow_add_r by lia. by replace (3 - k + k) with 3 by lia.
  - rewrite Z.max_l by (rewrite H8; by apply Z.pow_le_mono_r). pose proof (pow2_pos k Hk). split_and!; [apply Z.mod_same; lia| |lia].
    apply Z.mod_divide; [lia|]. exists (2 ^ (k - 3)). rewrite H8, <-Z.pow_add_r by lia. by replace (k - 3 + 3) with k by lia.
Qed.

Lemma mod_divides x y z : y ≠ 0 → z ≠ 0 → x mod y = 0 → y mod z = 0 → x mod z = 0.
Proof.
  intros Hy Hz H1 H2. apply Z.mod_divide in H1, H2; [|done|done]. apply Z.mod_divide; [done|]. by eapply Z.divide_trans.
Qed.

Lemma bumpAt_law b m al n b' m' r :
  bumpValid b → 0 <= n < 2 ^ 64 → powerOfTwo al → bumpAt b m al n = (b', m', r) →
  bumpValid b' ∧ keeps (handed b) m m' ∧ allocates (handed b) (handed b') n r ∧ r mod al = 0.
Proof.
  intros Hv Hn Hal. pose proof Hv as (Hn0 & Hl & Hb & Hd). destruct (max8_pow2 al Hal) as (Hm1 & Hm2 & Hpos).
  assert (Hal0 : al ≠ 0) by (destruct Hal as (k & Hk & ->); pose proof (pow2_pos k Hk); lia).
  unfold bumpAt. destruct (roundUp_spec (next b) (Z.max al 8) Hpos) as [Hr Hrm].
  destruct (roundUp_spec n 8) as [Hs Hsm]; [lia|]. set (q := roundUp (next b) (Z.max al 8)) in *. set (s := roundUp n 8) in *.
  assert (Hfresh : handed b !! q = None).
  { destruct (handed b !! q) as [s0|] eqn:E; [|done]. pose proof (Hb _ _ E). lia. }
  destruct (_ || _ || _) eqn:E; intros [= <- <- <-].
  - split; [done|]. split; [by intros a s0 x|]. split; [by left|by apply Z.mod_0_l].
  - apply orb_false_iff in E as [E E3]. apply orb_false_iff in E as [E1 E2]. bool_to_prop. split; [|split; [|split]].
    + split; [cbn; lia|]. split; [cbn; lia|]. cbn. split.
      * intros a s0 [(<- & <-)|(Hne & H)]%lookup_insert_Some.
        { split_and!; try lia. eapply mod_divides; [|lia|exact Hrm|exact Hm2]. lia. }
        pose proof (Hb _ _ H). split_and!; lia.
      * intros a s0 a' s1 [(<- & <-)|(Hne & H)]%lookup_insert_Some [(<- & <-)|(Hne' & H')]%lookup_insert_Some Haa; [done| | |by eapply Hd].
        { pose proof (Hb _ _ H'). lia. } { pose proof (Hb _ _ H). lia. }
    + by intros a s0 x.
    + right. split_and!; [lia|done|]. exists s. split; [lia|done].
    + eapply mod_divides; [|done|exact Hrm|exact Hm1]. lia.
Qed.

#[global] Instance bump_laws : TlsfLaws bump.
Proof.
  refine {| live := handed; valid := bumpValid |}.
  - done.
  - intros t a s (_ & _ & Hb & _) Ha. pose proof (Hb _ _ Ha) as (? & ? & ? & ? & ?). cbn; split_and!; (done || lia).
  - intros t a s a' s' (_ & _ & _ & Hd). apply Hd.
  - intros m start size t m'. cbn. destruct (_ || _) eqn:E; intros [= <- <-].
    apply orb_false_iff in E as [E1 E2]. bool_to_prop. split; [|done]. destruct (roundUp_spec start 8) as [? ?]; [lia|].
    split_and!; cbn; [lia|lia|by intros a s|by intros a s].
  - intros t m n t' m' r Hv Hn Hm. destruct (bumpAt_law t m 8 n t' m' r) as (? & ? & ? & _); try done. by exists 3.
  - intros t m al n t' m' r Hv Hn Hal Hm. by apply (bumpAt_law t m al n t' m' r).
  - intros t m p s t' m' (H1 & H2 & H3 & H4) Hp [= <- <-]. split; [|split; [done|by intros a s0 x]]. split; [done|]. split; [done|]. cbn. split.
    + intros a s0 [_ H]%lookup_delete_Some. by apply H3.
    + intros a s0 a' s1 [_ H]%lookup_delete_Some [_ H']%lookup_delete_Some. by eapply H4.
  - intros t m p s _ Hp. cbn. by rewrite Hp.
Defined.

(** ** Witnesses *)

Definition sampleObject : object := Object true 4096 65536.
Definition coldWorld : world (T := bump) := World 0 None None (λ _, 7).

(** Two allocations and a release race for the lock; the third processor is
    in the middle of its island. *)
Lemma allocator_islands_serial_witness :
  let s := runAll sampleObject [0; 1; 0; 1; 0; 1; 1; 1; 2]%nat (arrivals [RMalloc 10; RMemalign 64 100; RSize 4096] coldWorld) in
  threads s = [(RMalloc 10, Returned 4096); (RMemalign 64 100, Returned 4160); (RSize 4096, Holding)] ∧
  ∃ order, NoDup order ∧ (∀ i, i ∈ order ↔ ∃ z, served s i z) ∧
    Forall2 (served s) order (serial sampleObject (omap (λ i, [RMalloc 10; RMemalign 64 100; RSize 4096] !! i) order) coldWorld).1 ∧
    heapOf (sworld s) = heapOf (serial sampleObject (omap (λ i, [RMalloc 10; RMemalign 64 100; RSize 4096] !! i) order) coldWorld).2.
Proof.
  intros s. split; [vm_compute; reflexivity|].
  apply (allocator_islands_serial sampleObject [RMalloc 10; RMemalign 64 100; RSize 4096] coldWorld
           [0; 1; 0; 1; 0; 1; 1; 1; 2]%nat).
  reflexivity.
Defined.

(** A fiber that holds one block of 16 bytes; the others do nothing. *)
Definition warmWorld : world (T := bump) := World 0 None (Some (Bump 4112 69632 {[4096 := 16]})) (λ _, 7).
Definition warmLocal : local (T := bump) := Local 0 {[4096]} (replicate 3 (λ _ w, w)).

Lemma warm_valid : bumpValid (Bump 4112 69632 {[4096 := 16]}).
Proof.
  split; [cbn; lia|]. split; [cbn; lia|]. cbn. split.
  - intros a s [<- <-]%lookup_singleton_Some. by split_and!.
  - intros a s a' s' [<- <-]%lookup_singleton_Some [<- <-]%lookup_singleton_Some. done.
Qed.

Lemma warm_ready : ready sampleObject warmWorld warmLocal.
Proof.
  constructor.
  - split; [by left|exact warm_valid].
  - intros a Ha. cbn in Ha. apply elem_of_singleton in Ha as ->. by exists 16.
  - apply Forall_replicate. intros S w Hw. split; [done|apply keepsOwn_refl].
Qed.

Lemma allocation_contracts_witness :
  (∃ w' l', realloc sampleObject 4096 40 warmWorld warmLocal = Ret 4112 w' l' ∧ memory w' 4127 = 7) ∧
  post sampleObject 3 (reallocResult sampleObject 4096 16 40 warmWorld warmLocal) warmLocal
    (realloc sampleObject 4096 40 warmWorld warmLocal) ∧
  post sampleObject 1 (callocResult sampleObject (2 ^ 33) (2 ^ 33) warmWorld warmLocal) warmLocal
    (calloc sampleObject (2 ^ 33) (2 ^ 33) warmWorld warmLocal).
Proof.
  split; [eexists _, _; split; reflexivity|].
  split; apply (allocation_contracts sampleObject warmWorld warmLocal warm_ready).
  - split; [by apply elem_of_singleton|]. split; [reflexivity|]. unfold SIZE_MAX. lia.
  - unfold SIZE_MAX. lia.
Defined.
