(* ===== verification/Frames.v ===== *)
(** * Layout of the software stack ([stackify.cpp])

    Stackify moves the frames of Capsule functions to a per-fiber stack in
    program memory.  This file has the static part: the frame alignment every
    frame boundary obeys, the caller-owned call area (linkage, result,
    arguments), the slots of a function's locals, and the reserve that bounds
    every frame.  Types are what the layout asks of LLVM's data layout. *)

From Stdlib Require Import ZArith Lia.
From stdpp Require Import base numbers list gmap fin_maps strings.
From S2P Require Import Prelude.

Module Frames.
Local Open Scope Z_scope.

Record ty := Ty {
  t_sized : bool;
  t_scalable : bool;
  t_size : Z;                  (* getTypeAllocSize *)
  t_align : Z;                 (* getABITypeAlign *)
}.

(** A value of the calling convention; a byval object's bytes are its slot. *)
Record ManagedCallValue := CallValue {
  SlotType : ty;
  ByValType : option ty;
  ByValAlignment : Z;
}.

Inductive count := Static (n : Z) | Dynamic (width : Z).

Inductive inst :=
| Alloca (elem : ty) (n : count) (align : Z) (nativeHelper : bool)
| SetjmpCall
| StackSaveCall
| Call (boundary managed : bool) (target : option nat) (result : option ty) (args : list ManagedCallValue)
| Other.

Record func := Func {
  fn_managed : bool;
  fn_ret : option ty;          (* None: void *)
  fn_args : list ManagedCallValue;
  fn_body : list inst;
}.

Definition module := list func.

Inductive error :=
| Unsized (role : string)
| Scalable (role : string)
| ExceedsStack (role : string)
| BadAlignment                  (* internal frame alignment is not a power of two *)
| FrameExceeds (purpose : string)
| AllocaAlignment
| CountTooWide
| StaticAllocaExceeds
| NotManagedRoot
| NoRootCall
| RootCallExceeds
| LargestFrameExceeds
| BadStackSize.

#[global] Instance error_eq_dec : EqDecision error.
Proof. solve_decision. Defined.

Definition LinkageBytes : Z := 16.
Definition SavedFpOffset : Z := 0.
Definition ReturnRegionIdOffset : Z := 8.
Definition MaxFiberStackBytes : Z := 2 * 1024 * 1024.

(** LLVM's [isPowerOf2_64] and [alignTo]. *)
Definition isPowerOf2 (x : Z) : bool := negb (x =? 0) && (Z.land x (u64 (x - 1)) =? 0).
Definition alignTo (x al : Z) : Z := (x + al - 1) / al * al.

Definition ConfigureStackGeometry (bytes : Z) : result error Z :=
  if (bytes =? 0) || negb (isPowerOf2 bytes) || (MaxFiberStackBytes <? bytes) then Err BadStackSize else Ok bytes.

Definition TransientReserveBytes (fiberStackBytes : Z) : Z := fiberStackBytes / 2.

Section Layout.
Context (FiberStackSize : Z).

Definition FixedTypeLayout (t : ty) (role : string) : result error (Z * Z) :=
  if negb (t_sized t) then Err (Unsized role)
  else if t_scalable t then Err (Scalable role)
  else if (FiberStackSize <? t_size t) || (FiberStackSize <? t_align t) then Err (ExceedsStack role)
  else Ok (t_size t, t_align t).

(** The offset reserved and the cursor after it. *)
Definition ReserveFrameBytes (cursor bytes alignment : Z) (purpose : string) : result error (Z * Z) :=
  if (alignment =? 0) || negb (isPowerOf2 alignment) then Err BadAlignment
  else if (FiberStackSize <? cursor) || (FiberStackSize <? bytes) || (FiberStackSize <? alignment)
  then Err (FrameExceeds purpose)
  else
    let padding := Z.land (u64 (- cursor)) (alignment - 1) in
    if (FiberStackSize - cursor <? padding) || (FiberStackSize - cursor - padding <? bytes)
    then Err (FrameExceeds purpose)
    else let offset := cursor + padding in Ok (offset, offset + bytes).

Definition storageType (v : ManagedCallValue) : ty :=
  match ByValType v with Some t => t | None => SlotType v end.

Definition IncludeCallValue (frameAlignment : Z) (v : ManagedCallValue) (role : string) : result error Z :=
  '(bytes, alignment) ← FixedTypeLayout (storageType v) role;
  Ok (Z.max frameAlignment (Z.max (Z.max 8 alignment) (ByValAlignment v))).

Definition ReserveCallValue (cursor : Z) (v : ManagedCallValue) (role : string) : result error (Z * Z * Z) :=
  '(bytes, alignment) ← FixedTypeLayout (storageType v) role;
  let alignment := Z.max (Z.max 8 alignment) (ByValAlignment v) in
  '(offset, cursor) ← ReserveFrameBytes cursor (alignTo bytes 8) alignment role;
  Ok (offset, alignment, cursor).

Record ManagedCallLayout := CallLayout {
  ArgOffsets : list Z;
  ArgAlignments : list Z;
  ResultOffset : Z;
  ArgsEnd : Z;
  Size : Z;
}.

(** The arguments laid out from [cursor]: offsets, alignments, cursor. *)
Fixpoint reserveArguments (cursor : Z) (args : list ManagedCallValue) : result error (list Z * list Z * Z) :=
  match args with
  | [] => Ok ([], [], cursor)
  | a :: args =>
      '(offset, alignment, cursor) ← ReserveCallValue cursor a "a managed argument";
      '(offsets, alignments, cursor) ← reserveArguments cursor args;
      Ok (offset :: offsets, alignment :: alignments, cursor)
  end.

Definition reserveResult (cursor : Z) (ret : option ty) : result error (Z * Z) :=
  match ret with
  | None => Ok (0, cursor)
  | Some t =>
      '(offset, alignment, cursor) ← ReserveCallValue cursor (CallValue t None 1) "a managed result";
      Ok (offset, cursor)
  end.

Definition LayoutCall (frameAlignment : Z) (ret : option ty) (args : list ManagedCallValue) :
    result error ManagedCallLayout :=
  '(resultOffset, cursor) ← reserveResult LinkageBytes ret;
  '(offsets, alignments, cursor) ← reserveArguments cursor args;
  '(_, size) ← ReserveFrameBytes cursor 0 frameAlignment "managed call tail padding";
  Ok (CallLayout offsets alignments resultOffset cursor size).

(** ** Alignment of the convention *)

(** [FrameAlignment_] and [StackAlignment_]. *)
Record alignments := Alignments { FrameAlignment : Z; StackAlignment : Z }.

Definition includeValue (role : string) (v : ManagedCallValue) (s : alignments) : result error alignments :=
  fa ← IncludeCallValue (FrameAlignment s) v role; Ok (Alignments fa (StackAlignment s)).

Definition includeResult (role : string) (r : option ty) (s : alignments) : result error alignments :=
  match r with Some t => includeValue role (CallValue t None 1) s | None => Ok s end.

(** A local object: every alignment is the stack's, a static one the frame's. *)
Definition includeAlloca (i : inst) (s : alignments) : alignments :=
  match i with
  | Alloca _ n al false =>
      Alignments (match n with Static _ => Z.max (FrameAlignment s) al | Dynamic _ => FrameAlignment s end)
                 (Z.max (StackAlignment s) al)
  | _ => s
  end.

Definition includeSignature (f : func) (s : alignments) : result error alignments :=
  if fn_managed f then
    s ← foldM (includeValue "managed argument") (fn_args f) s;
    s ← includeResult "managed result" (fn_ret f) s;
    Ok (foldl (λ s i, includeAlloca i s) s (fn_body f))
  else Ok s.

(** Calls that use the convention: boundary calls anywhere, managed calls of
    managed functions. *)
Definition usesConvention (f : func) (i : inst) : bool :=
  match i with Call boundary managed _ _ _ => boundary || (fn_managed f && managed) | _ => false end.

Definition includeCall (f : func) (i : inst) (s : alignments) : result error alignments :=
  match i with
  | Call _ _ _ r args =>
      if usesConvention f i then
        s ← includeResult "managed call result" r s;
        foldM (includeValue "managed call argument") args s
      else Ok s
  | _ => Ok s
  end.

Record frame_info := Info {
  i_ret : Z;                      (* ReturnSize *)
  i_layout : ManagedCallLayout;   (* ResultOffset, FixedArgsEnd, ArgOffsets *)
}.

Definition layOutFunction (frameAlignment : Z) (f : func) : result error (option frame_info) :=
  if fn_managed f then
    layout ← LayoutCall frameAlignment (fn_ret f) (fn_args f);
    Ok (Some (Info (match fn_ret f with Some t => t_size t | None => 0 end) layout))
  else Ok None.

(** [LayOutArguments]: the alignments and each managed function's own view of
    its call area. *)
Definition LayOutArguments (m : module) : result error (alignments * list (option frame_info)) :=
  s ← foldM includeSignature m (Alignments 16 16);
  s ← foldM (λ f s, foldM (includeCall f) (fn_body f) s) m s;
  let s := Alignments (FrameAlignment s) (Z.max (StackAlignment s) (FrameAlignment s)) in
  infos ← mapResult (layOutFunction (FrameAlignment s)) m;
  Ok (s, infos).

(** ** Local frames *)

(** The checks of the first loop; the demotion of values between the two
    passes added allocas, so the alignments grow again. *)
Definition checkAlloca (i : inst) (s : alignments) : result error alignments :=
  match i with
  | Alloca elem n al false =>
      if t_scalable elem then Err (Scalable "alloca")
      else if FiberStackSize <? al then Err AllocaAlignment
      else
        match n with
        | Dynamic width =>
            if negb (t_size elem =? 0) && (64 <? width) then Err CountTooWide else Ok (includeAlloca i s)
        | Static _ => Ok (includeAlloca i s)
        end
  | _ => Ok s
  end.

Definition checkAllocas (f : func) (s : alignments) : result error alignments :=
  if fn_managed f then foldM checkAlloca (fn_body f) s else Ok s.

(** Bytes, alignment and purpose of the slot an instruction needs. *)
Definition slotOf (i : inst) : option (result error (Z * Z * string)) :=
  match i with
  | SetjmpCall => Some (Ok (4, 4, "a setjmp result"%string))
  | StackSaveCall => Some (Ok (8, 8, "a stack-save snapshot"%string))
  | Alloca _ (Dynamic _) _ false => Some (Ok (8, 8, "a dynamic-allocation handle"%string))
  | Alloca elem (Static n) al false =>
      let bytes := t_size elem in
      let count := Z.min n (FiberStackSize + 1) in
      Some (if negb (bytes =? 0) && (FiberStackSize / bytes <? count) then Err StaticAllocaExceeds
            else Ok (bytes * count, al, "a static alloca"%string))
  | _ => None
  end.

(** The slots so far: the four offset maps of the source have disjoint keys,
    here one map from the instruction's position. *)
Definition reserveSlot (p : nat * inst) (s : Z * gmap nat Z) : result error (Z * gmap nat Z) :=
  match slotOf p.2 with
  | None => Ok s
  | Some (Err e) => Err e
  | Some (Ok (bytes, al, purpose)) =>
      '(offset, cursor) ← ReserveFrameBytes s.1 bytes al purpose;
      Ok (cursor, <[p.1 := offset]> s.2)
  end.

Record frame := Frame {
  FrameSize : Z;
  Slots : gmap nat Z;
}.

Definition layOutFrame (frameAlignment : Z) (f : func) : result error frame :=
  '(cursor, slots) ← foldM reserveSlot (imap pair (fn_body f)) (0, ∅);
  '(_, size) ← ReserveFrameBytes cursor 0 frameAlignment "local-frame tail padding";
  Ok (Frame size slots).

(** The largest outgoing call area of a function. *)
Definition outgoingStep (frameAlignment : Z) (i : inst) (size : Z) : result error Z :=
  match i with
  | Call _ true _ r args => layout ← LayoutCall frameAlignment r args; Ok (Z.max size (Size layout))
  | _ => Ok size
  end.

(** Frames laid out so far, and the largest outgoing area. *)
Definition frameStep (frameAlignment : Z) (f : func) (s : list (option frame) * Z) : result error (list (option frame) * Z) :=
  if fn_managed f then
    outgoing ← foldM (outgoingStep frameAlignment) (fn_body f) s.2;
    fr ← layOutFrame frameAlignment f;
    Ok (s.1 ++ [Some fr], outgoing)
  else Ok (s.1 ++ [None], s.2).

Definition checkRoot (m : module) (i : inst) : result error unit :=
  match i with
  | Call true _ target _ _ =>
      match target ≫= (λ t, m !! t) with
      | Some f => if fn_managed f then Ok tt else Err NotManagedRoot
      | None => Err NotManagedRoot
      end
  | _ => Ok tt
  end.

(** The largest root call area and the capacity for root results. *)
Definition rootStep (frameAlignment : Z) (i : inst) (s : Z * Z) : result error (Z * Z) :=
  match i with
  | Call true _ _ r args =>
      layout ← LayoutCall frameAlignment r args;
      bytes ← match r with
              | Some t => '(bytes, _) ← FixedTypeLayout t "a root result"; Ok bytes
              | None => Ok 0
              end;
      Ok (Z.max s.1 (Size layout), Z.max s.2 bytes)
  | _ => Ok s
  end.

Record stack_layout := StackLayout {
  s_alignments : alignments;
  s_frames : list (option frame);
  s_reserve : Z;                  (* ReserveFloor_ *)
  s_rootFp : Z;                   (* RootFp_ *)
  s_rootResult : Z;               (* RootResultCapacity_ *)
}.

Definition frameSizes (fs : list (option frame)) : list Z := omap (λ f, FrameSize <$> f) fs.

(** [ComputeFrameLayout]. *)
Definition ComputeFrameLayout (m : module) (s : alignments) : result error stack_layout :=
  s ← foldM checkAllocas m s;
  let s := Alignments (FrameAlignment s) (Z.max (StackAlignment s) (FrameAlignment s)) in
  let fa := FrameAlignment s in
  _ ← foldM (λ f _, foldM (λ i _, checkRoot m i) (fn_body f) tt) m tt;
  '(frames, maxOutgoing) ← foldM (frameStep fa) m ([], 0);
  let largestFrame := foldr Z.max 0 (frameSizes frames) in
  '(maxRootOutgoing, rootResult) ← foldM (λ f s, foldM (rootStep fa) (fn_body f) s) m (0, 0);
  if maxRootOutgoing =? 0 then Err NoRootCall
  else
    '(_, floor) ← ReserveFrameBytes (TransientReserveBytes FiberStackSize) maxOutgoing 1 "the transient spill and outgoing-call reserve";
    '(_, floor) ← ReserveFrameBytes floor 0 fa "the aligned reserve floor";
    if FiberStackSize <=? maxRootOutgoing then Err RootCallExceeds
    else
      let rootFp := FiberStackSize - maxRootOutgoing in
      if (rootFp <=? floor) || (rootFp - floor <? largestFrame) then Err LargestFrameExceeds
      else Ok (StackLayout s frames floor rootFp rootResult).
End Layout.

(** The order of [Run]: the demotion of values between the two passes turns
    [m1] into [m2]. *)
Definition layOutStack (bytes : Z) (m1 m2 : module) : result error (Z * list (option frame_info) * stack_layout) :=
  stack ← ConfigureStackGeometry bytes;
  '(s, infos) ← LayOutArguments stack m1;
  layout ← ComputeFrameLayout stack m2 s;
  Ok (stack, infos, layout).

(** ** Variadic arguments *)

(** [va_start]: the cursor of a function whose frame boundary is [fp]. *)
Definition vaStart (fp : Z) (layout : ManagedCallLayout) : Z := fp + ArgsEnd layout.

(** [advanceCursor]: the argument's address and the next cursor. *)
Definition vaAdvance (cursor size alignment : Z) : Z * Z :=
  let alignment := Z.max 8 alignment in
  let address := Z.land (u64 (cursor + (alignment - 1))) (2 ^ 64 - alignment) in
  (address, address + alignTo size 8).

End Frames.
