(* ===== verification/FramesFacts.v ===== *)
(** * Facts on frame layout

    Reservations, call areas and local slots as chains of disjoint, aligned
    intervals. *)

From Stdlib Require Import ZArith Lia.
From stdpp Require Import base numbers list gmap fin_maps strings.
From S2P Require Import Prelude Frames.

Import Frames.
Local Open Scope Z_scope.

(** ** Reservations *)

Lemma isPowerOf2_spec x : 0 <= x < 2 ^ 64 → isPowerOf2 x = true → powerOfTwo x.
Proof.
  unfold isPowerOf2. intros Hx H. bool_to_prop. by apply land_pred_pow2; [lia|].
Qed.

(** Stack sizes the pass accepts. *)
Definition stackSize (n : Z) : Prop := powerOfTwo n ∧ n <= MaxFiberStackBytes.

Lemma stackSize_range n : stackSize n → 0 < n < 2 ^ 22.
Proof. intros [H%pow2_gt0 H']. unfold MaxFiberStackBytes in H'. lia. Qed.

Lemma geometry_ok b n : 0 <= b < 2 ^ 64 → ConfigureStackGeometry b = Ok n → n = b ∧ stackSize n.
Proof.
  intros Hb. unfold ConfigureStackGeometry. destruct (_ || _ || _) eqn:E; intros [= <-]. split; [done|].
  apply orb_false_iff in E as [E E3]. apply orb_false_iff in E as [E1 E2]. bool_to_prop. split; [by apply isPowerOf2_spec|lia].
Qed.

Lemma padding_spec cursor al :
  powerOfTwo al → al <= 2 ^ 64 → Z.land (u64 (- cursor)) (al - 1) = (- cursor) mod al.
Proof.
  intros (k & Hk & ->) Hle. rewrite Z.sub_1_r, <-Z.ones_equiv, Z.land_ones by done. unfold u64, wrap.
  apply Z.pow_le_mono_r_iff in Hle; [|lia|lia].
  symmetry. apply Znumtheory.Zmod_div_mod; [by apply pow2_pos|by apply pow2_pos|].
  exists (2 ^ (64 - k)). rewrite <-Z.pow_add_r by lia. f_equal. lia.
Qed.

(** Rounding up by a padding. *)
Lemma round_padding c al : 0 < al → (c + (- c) mod al) mod al = 0 ∧ 0 <= (- c) mod al < al.
Proof.
  intros Hal. split; [|by apply Z.mod_pos_bound].
  rewrite Zplus_mod_idemp_r. replace (c + - c) with 0 by lia. by apply Z.mod_0_l; lia.
Qed.

Section Facts.
Context (stack : Z) (Hstack : stackSize stack).

Lemma reserve_ok cursor bytes al purpose offset cursor' :
  ReserveFrameBytes stack cursor bytes al purpose = Ok (offset, cursor') → 0 <= cursor → 0 <= al → 0 <= bytes →
  powerOfTwo al ∧ cursor <= offset < cursor + al ∧ offset mod al = 0 ∧ cursor' = offset + bytes ∧ cursor' <= stack ∧
  offset = cursor + (- cursor) mod al.
Proof.
  intros H Hc Hal Hb. pose proof (stackSize_range _ Hstack) as Hst. unfold ReserveFrameBytes in H.
  destruct ((al =? 0) || negb (isPowerOf2 al)) eqn:E1; [done|].
  destruct ((stack <? cursor) || (stack <? bytes) || (stack <? al)) eqn:E2; [done|].
  apply orb_false_iff in E1 as [E0 E1]. apply orb_false_iff in E2 as [E2 E3]. apply orb_false_iff in E2 as [E2 E4]. bool_to_prop.
  assert (Hp : powerOfTwo al) by (apply isPowerOf2_spec; [lia|done]).
  rewrite padding_spec in H by (done || lia).
  destruct (round_padding cursor al) as [Hmod Hpad]; [lia|]. set (pad := (- cursor) mod al) in *.
  destruct ((stack - cursor <? pad) || (stack - cursor - pad <? bytes)) eqn:E5; [done|]. injection H as <- <-.
  apply orb_false_iff in E5 as [E5 E6]. bool_to_prop. split_and!; (done || lia).
Qed.

Lemma reserve_align cursor bytes al purpose r : ReserveFrameBytes stack cursor bytes al purpose = Ok r → al <= stack.
Proof.
  unfold ReserveFrameBytes. destruct (_ || _); [done|]. destruct (_ || _ || _) eqn:E; [done|]. intros _.
  apply orb_false_iff in E as [_ E]. bool_to_prop. lia.
Qed.

(** ** Chains of slots *)

(** Slots (offset, bytes, alignment) one after the other from [c] to [c']. *)
Inductive chain : Z → list (Z * Z * Z) → Z → Prop :=
| chain_nil c : chain c [] c
| chain_cons c off size al rest c' :
    c <= off → off mod al = 0 → 0 <= size → chain (off + size) rest c' → chain c ((off, size, al) :: rest) c'.

Lemma chain_le c l c' : chain c l c' → c <= c'.
Proof. induction 1; lia. Qed.

Lemma chain_app c l1 c1 l2 c2 : chain c l1 c1 → chain c1 l2 c2 → chain c (l1 ++ l2) c2.
Proof. induction 1; intros; [done|]. by constructor; auto. Qed.

Lemma chain_bounds c l c' i off size al : chain c l c' → l !! i = Some (off, size, al) → c <= off ∧ off + size <= c' ∧ off mod al = 0 ∧ 0 <= size.
Proof.
  intros H. revert i. induction H as [|c off0 size0 al0 rest c' H1 H2 H3 H4 IH]; intros i Hi; [done|].
  pose proof (chain_le _ _ _ H4). destruct i as [|i]; simpl in Hi.
  - injection Hi as -> -> ->. split_and!; (done || lia).
  - apply IH in Hi as (? & ? & ? & ?). repeat (split; [lia|]). lia.
Qed.

Lemma chain_disjoint c l c' i j o1 s1 a1 o2 s2 a2 :
  chain c l c' → l !! i = Some (o1, s1, a1) → l !! j = Some (o2, s2, a2) → (i < j)%nat → o1 + s1 <= o2.
Proof.
  intros H. revert i j. induction H as [|c off0 size0 al0 rest c' H1 H2 H3 H4 IH]; intros i j Hi Hj Hij; [done|].
  destruct j as [|j]; [lia|]. simpl in Hj. destruct i as [|i]; simpl in Hi.
  - injection Hi as -> -> ->. apply (chain_bounds _ _ _ _ _ _ _ H4) in Hj as (? & _). lia.
  - eapply IH; [exact Hi|exact Hj|lia].
Qed.

(** ** Call areas *)

(** What LLVM's data layout guarantees of a type: an [Align] is a power of two. *)
Definition goodTy (t : ty) : Prop := 0 <= t_size t ∧ powerOfTwo (t_align t).
Definition goodValue (v : ManagedCallValue) : Prop := goodTy (storageType v) ∧ powerOfTwo (ByValAlignment v).

Definition slotBytes (v : ManagedCallValue) : Z := alignTo (t_size (storageType v)) 8.
Definition slotAlign (v : ManagedCallValue) : Z := Z.max (Z.max 8 (t_align (storageType v))) (ByValAlignment v).

Lemma alignTo_ge x : x <= alignTo x 8 ∧ alignTo x 8 < x + 8 ∧ alignTo x 8 mod 8 = 0.
Proof. unfold alignTo. split_and!; Z.to_euclidean_division_equations; lia. Qed.

Lemma fixedType_ok t role b al : FixedTypeLayout stack t role = Ok (b, al) → b = t_size t ∧ al = t_align t ∧ b <= stack ∧ al <= stack.
Proof.
  unfold FixedTypeLayout. repeat (case_match; [done|]). intros [= <- <-].
  match goal with H : (_ || _)%bool = false |- _ => apply orb_false_iff in H as [? ?] end. bool_to_prop. split_and!; (done || lia).
Qed.

Lemma reserveValue_ok cursor v role off al cursor' :
  ReserveCallValue stack cursor v role = Ok (off, al, cursor') → 0 <= cursor → goodValue v →
  al = slotAlign v ∧ powerOfTwo al ∧ cursor <= off ∧ off mod al = 0 ∧ cursor' = off + slotBytes v ∧ cursor' <= stack ∧
  off = cursor + (- cursor) mod al.
Proof.
  intros H Hc [[Hs Ha%pow2_gt0] Hb%pow2_gt0]. unfold ReserveCallValue in H. apply bind_Ok in H as ([b a] & Ht & H).
  apply fixedType_ok in Ht as (-> & -> & Hb1 & Ha1). apply bind_Ok in H as ([off' cur'] & Hr & [= <- <- <-]).
  pose proof (alignTo_ge (t_size (storageType v))).
  apply reserve_ok in Hr as (Hp & Ho & Hm & -> & Hle & Heq); [|done|lia|lia].
  split_and!; (done || lia).
Qed.

Definition argSlots (args : list ManagedCallValue) (offsets : list Z) : list (Z * Z * Z) :=
  zip_with (λ v off, (off, slotBytes v, slotAlign v)) args offsets.

Lemma reserveArguments_ok args : ∀ cursor offsets als cursor',
  reserveArguments stack cursor args = Ok (offsets, als, cursor') → 0 <= cursor → Forall goodValue args →
  length offsets = length args ∧ als = map slotAlign args ∧ chain cursor (argSlots args offsets) cursor' ∧
  Forall (λ v, powerOfTwo (slotAlign v)) args ∧ (args = [] ∨ cursor' <= stack).
Proof.
  induction args as [|v args IH]; intros cursor offsets als cursor' H Hc Hg; simpl in H.
  { injection H as <- <- <-. split_and!; try done; [constructor|by left]. }
  apply Forall_cons in Hg as [Hv Hg].
  apply bind_Ok in H as ([[off al] c1] & Hr & H). apply bind_Ok in H as ([[offs' als'] c2] & Ha & [= <- <- <-]).
  apply reserveValue_ok in Hr as (-> & Hp & Ho & Hm & -> & Hle & _); [|done|done].
  assert (Hb : 0 <= slotBytes v) by (unfold slotBytes; pose proof (alignTo_ge (t_size (storageType v))); destruct Hv as [[? ?] ?]; lia).
  apply IH in Ha as (Hl & -> & Hch & Hf & Hend); [|lia|done].
  split_and!; [by cbn; rewrite Hl|done| |by constructor|right].
  - cbn. by constructor.
  - destruct Hend as [->|?]; [|done]. inversion Hch; subst; lia.
Qed.

(** What LayoutCall guarantees. *)
Record goodLayout (fa : Z) (ret : option ty) (args : list ManagedCallValue) (l : ManagedCallLayout) : Prop := {
  gl_length : length (ArgOffsets l) = length args;
  gl_align : ArgAlignments l = map slotAlign args;
  gl_pow : Forall (λ v, powerOfTwo (slotAlign v)) args;
  gl_slots : ∃ c1, chain LinkageBytes
    (match ret with Some t => [(ResultOffset l, alignTo (t_size t) 8, slotAlign (CallValue t None 1))] | None => [] end) c1 ∧
    chain c1 (argSlots args (ArgOffsets l)) (ArgsEnd l);
  gl_size : ArgsEnd l <= Size l ∧ Size l mod fa = 0 ∧ Size l <= stack ∧ Size l < ArgsEnd l + fa;
  gl_fa : powerOfTwo fa;
}.

Lemma layoutCall_ok fa ret args l :
  LayoutCall stack fa ret args = Ok l → 0 <= fa → (∀ t, ret = Some t → goodTy t) → Forall goodValue args →
  goodLayout fa ret args l.
Proof.
  intros H Hfa Hret Hargs. unfold LayoutCall in H.
  apply bind_Ok in H as ([ro c1] & Hr & H). apply bind_Ok in H as ([[offs als] c2] & Ha & H).
  apply bind_Ok in H as ([tail size] & Ht & [= <-]).
  assert (Hc1 : 16 <= c1 ∧ chain LinkageBytes
    (match ret with Some t => [(ro, alignTo (t_size t) 8, slotAlign (CallValue t None 1))] | None => [] end) c1).
  { unfold reserveResult in Hr. destruct ret as [t|]; [|injection Hr as <- <-; split; [unfold LinkageBytes; lia|constructor]].
    apply bind_Ok in Hr as ([[off al] c] & Hv & [= <- <-]). specialize (Hret t eq_refl).
    apply reserveValue_ok in Hv as (-> & Hp & Ho & Hm & -> & Hle & _); [|unfold LinkageBytes; lia|by split; [|exists 0]].
    pose proof (alignTo_ge (t_size t)). destruct Hret. unfold slotBytes in *. cbn [storageType ByValType SlotType] in *.
    unfold LinkageBytes in *. split; [lia|]. constructor; [lia|done|lia|constructor]. }
  destruct Hc1 as [Hc1 Hch1].
  apply reserveArguments_ok in Ha as (Hl & -> & Hch & Hf & _); [|lia|done].
  pose proof (chain_le _ _ _ Hch). apply reserve_ok in Ht as (Hp & Ho & Hm & -> & Hle & _); [|lia|done|lia].
  constructor; cbn; try done; [by exists c1|]. rewrite Z.add_0_r in *. split_and!; (done || lia).
Qed.

(** A longer argument list keeps the offsets of its prefix. *)
Lemma reserveArguments_app args extra : ∀ cursor offs als c,
  reserveArguments stack cursor (args ++ extra) = Ok (offs, als, c) →
  ∃ o1 a1 c1 o2 a2, reserveArguments stack cursor args = Ok (o1, a1, c1) ∧
    reserveArguments stack c1 extra = Ok (o2, a2, c) ∧ offs = o1 ++ o2 ∧ als = a1 ++ a2.
Proof.
  induction args as [|v args IH]; intros cursor offs als c H; simpl in H.
  { exists [], [], cursor, offs, als. by split_and!. }
  apply bind_Ok in H as ([[off al] c0] & Hr & H). apply bind_Ok in H as ([[os a] c'] & Ha & [= <- <- <-]).
  apply IH in Ha as (o1 & a1 & c1 & o2 & a2 & H1 & H2 & -> & ->).
  exists (off :: o1), (al :: a1), c1, o2, a2. split_and!; [|done|done|done]. simpl. by rewrite Hr, bind_ok, H1.
Qed.

(** ** Variadic reads *)

Lemma land_align x k : 0 <= k <= 64 → 0 <= x < 2 ^ 64 → Z.land x (2 ^ 64 - 2 ^ k) = x - x mod 2 ^ k.
Proof.
  intros Hk Hx. replace (x - x mod 2 ^ k) with (Z.shiftl (Z.shiftr x k) k).
  2:{ rewrite Z.shiftl_mul_pow2, Z.shiftr_div_pow2 by lia. pose proof (Z.div_mod x (2 ^ k)) as Hd.
      pose proof (pow2_pos k). lia. }
  rewrite <-Z.ldiff_ones_r by lia.
  replace (2 ^ 64 - 2 ^ k) with (Z.shiftl (Z.ones (64 - k)) k).
  2:{ rewrite Z.shiftl_mul_pow2, Z.ones_equiv by lia. unfold Z.pred. rewrite Z.mul_add_distr_r, <-Z.pow_add_r by lia.
      replace (64 - k + k) with 64 by lia. lia. }
  apply Z.bits_inj'. intros n Hn. rewrite Z.land_spec, Z.ldiff_spec, Z.shiftl_spec, !Z.testbit_ones by lia.
  destruct (Z.lt_ge_cases n 64) as [Hlt|Hge].
  - f_equal. destruct (0 <=? n - k) eqn:E1, (n - k <? 64 - k) eqn:E2, (0 <=? n) eqn:E3, (n <? k) eqn:E4; bool_to_prop; (done || lia).
  - rewrite (Z.bits_above_log2 x n); [by rewrite !andb_false_l|lia|]. destruct (decide (x = 0)) as [->|]; [cbn; lia|].
    apply Z.log2_lt_pow2; [lia|]. assert (2 ^ 64 <= 2 ^ n) by (apply Z.pow_le_mono_r; lia). lia.
Qed.

Lemma round_up_mod x q : 0 < q → x + (q - 1) - (x + (q - 1)) mod q = x + (- x) mod q.
Proof.
  intros Hq. pose proof (Z.div_mod x q) as Hx. pose proof (Z.mod_pos_bound x q Hq). set (d := x / q) in *. set (r := x mod q) in *.
  destruct (decide (r = 0)) as [Hr|Hr].
  - rewrite <-(Z.mod_unique (x + (q - 1)) q d (q - 1)), <-(Z.mod_unique (- x) q (- d) 0); lia.
  - rewrite <-(Z.mod_unique (x + (q - 1)) q (d + 1) (r - 1)), <-(Z.mod_unique (- x) q (- d - 1) (q - r)); lia.
Qed.

Lemma vaAdvance_spec cursor size al :
  powerOfTwo al → 8 <= al → 0 <= cursor → cursor + al <= 2 ^ 64 →
  vaAdvance cursor size al = (cursor + (- cursor) mod al, cursor + (- cursor) mod al + alignTo size 8).
Proof.
  intros (k & Hk & ->) H8 Hc Hle. unfold vaAdvance. rewrite (Z.max_r 8) by done.
  assert (k <= 64) by (apply (Z.pow_le_mono_r_iff 2); lia). unfold u64. rewrite wrap_small by lia.
  rewrite land_align by lia. assert (Heq : cursor + (2 ^ k - 1) - (cursor + (2 ^ k - 1)) mod 2 ^ k = cursor + (- cursor) mod 2 ^ k); [|by rewrite Heq].
  apply round_up_mod, pow2_pos, Hk.
Qed.

(** The reads of successive [va_arg]s: size and alignment of each. *)
Definition vaRead (v : ManagedCallValue) : Z * Z := (t_size (storageType v), t_align (storageType v)).

Fixpoint vaWalk (cursor : Z) (reads : list (Z * Z)) : list Z :=
  match reads with
  | [] => []
  | (size, al) :: reads => let '(address, next) := vaAdvance cursor size al in address :: vaWalk next reads
  end.

Lemma neg_mod_shift fp c al fa : (al | fa) → 0 < al → fp mod fa = 0 → 0 < fa → (- (fp + c)) mod al = (- c) mod al.
Proof.
  intros Hd Hal Hfp Hfa. apply (mod_divide_trans _ al) in Hfp; [|done|done|done].
  apply Z.mod_divide in Hfp as [q ->]; [|lia]. replace (- (q * al + c)) with (- c + (- q) * al) by lia. by apply Z_mod_plus_full.
Qed.

Lemma vaWalk_spec fp fa vs : ∀ cursor offs als c,
  reserveArguments stack cursor vs = Ok (offs, als, c) → 0 <= cursor → Forall goodValue vs →
  Forall (λ v, slotAlign v <= fa ∧ ByValAlignment v <= Z.max 8 (t_align (storageType v))) vs → powerOfTwo fa →
  fp mod fa = 0 → 0 <= fp → fp + 2 * stack <= 2 ^ 64 → vaWalk (fp + cursor) (map vaRead vs) = map (Z.add fp) offs.
Proof.
  induction vs as [|v vs IH]; intros cursor offs als c H Hc Hg Hva Hfa Hfp H0 Hle; simpl in H.
  { by injection H as <- <- <-. }
  apply Forall_cons in Hg as [Hv Hg]. apply Forall_cons in Hva as [[Hal Hby] Hva].
  apply bind_Ok in H as ([[off al] c1] & Hr & H). apply bind_Ok in H as ([[offs' als'] c2] & Ha & [= <- <- <-]).
  pose proof Hr as Hr'. apply reserveValue_ok in Hr as (-> & Hp & Ho & Hm & -> & Hst & Heq); [|done|done].
  assert (Hcs : slotAlign v <= stack).
  { unfold ReserveCallValue in Hr'. apply bind_Ok in Hr' as ([b a] & Ht & Hr'). apply fixedType_ok in Ht as (-> & -> & _ & _).
    apply bind_Ok in Hr' as ([o' c'] & Hr' & _). by eapply reserve_align. }
  assert (Hcb : 0 <= slotBytes v) by (unfold slotBytes; pose proof (alignTo_ge (t_size (storageType v))); destruct Hv as [[? ?] ?]; lia).
  assert (Hva1 : vaAdvance (fp + cursor) (t_size (storageType v)) (t_align (storageType v)) = vaAdvance (fp + cursor) (t_size (storageType v)) (slotAlign v)).
  { unfold vaAdvance. assert (Heqa : Z.max 8 (t_align (storageType v)) = Z.max 8 (slotAlign v)) by (unfold slotAlign; lia). by rewrite Heqa. }
  cbn [map vaRead vaWalk]. rewrite Hva1, vaAdvance_spec; [|done|unfold slotAlign; lia|lia|lia].
  rewrite (neg_mod_shift fp cursor (slotAlign v) fa); [|by apply pow2_divide|by apply pow2_gt0|done|by apply pow2_gt0].
  rewrite <-Z.add_assoc, <-Heq. f_equal. replace (fp + off + alignTo (t_size (storageType v)) 8) with (fp + (off + slotBytes v)) by (unfold slotBytes; lia).
  eapply IH; try done. lia.
Qed.
End Facts.
