(* ===== verification/FramesProps.v ===== *)
(** * Properties of the software-stack layout

    The alignment of the convention covers every value of it, local slots and
    call areas are disjoint and aligned, caller and callee agree on the call
    area, and the reserve bounds every frame and every outgoing call. *)

From Stdlib Require Import ZArith Lia.
From stdpp Require Import base numbers list gmap fin_maps strings.
From S2P Require Import Prelude Frames FramesFacts.

Import Frames.
Local Open Scope Z_scope.

(** ** Inputs *)

Definition goodRet (r : option ty) : Prop := ∀ t, r = Some t → goodTy t.

Definition goodInst (i : inst) : Prop :=
  match i with
  | Alloca elem n al _ => 0 <= t_size elem ∧ powerOfTwo al ∧ match n with Static n => 0 <= n | Dynamic _ => True end
  | Call _ _ _ r args => goodRet r ∧ Forall goodValue args
  | _ => True
  end.

Definition goodFunc (f : func) : Prop := goodRet (fn_ret f) ∧ Forall goodValue (fn_args f) ∧ Forall goodInst (fn_body f).

(** Demotion keeps signatures and adds no call. *)
Definition demoted (f1 f2 : func) : Prop :=
  fn_managed f1 = fn_managed f2 ∧ fn_ret f1 = fn_ret f2 ∧ fn_args f1 = fn_args f2 ∧
  ∀ b mg t r args, Call b mg t r args ∈ fn_body f2 → Call b mg t r args ∈ fn_body f1.

(** ** The alignment of the convention *)

Definition goodAl (s : alignments) : Prop :=
  powerOfTwo (FrameAlignment s) ∧ powerOfTwo (StackAlignment s) ∧ 16 <= FrameAlignment s ∧ 16 <= StackAlignment s.
Definition le_al (s s' : alignments) : Prop := FrameAlignment s <= FrameAlignment s' ∧ StackAlignment s <= StackAlignment s'.

#[export] Instance le_al_preorder : PreOrder le_al.
Proof. split; [by split|]. intros a b c [? ?] [? ?]. split; lia. Qed.

Definition coversValue (v : ManagedCallValue) (s : alignments) : Prop := slotAlign v <= FrameAlignment s.
Definition coversRet (r : option ty) (s : alignments) : Prop := ∀ t, r = Some t → coversValue (CallValue t None 1) s.
Definition coversAlloca (i : inst) (s : alignments) : Prop :=
  match i with
  | Alloca _ n al false => al <= StackAlignment s ∧ match n with Static _ => al <= FrameAlignment s | Dynamic _ => True end
  | _ => True
  end.
Definition coversSignature (f : func) (s : alignments) : Prop :=
  fn_managed f = true → (∀ v, v ∈ fn_args f → coversValue v s) ∧ coversRet (fn_ret f) s.
Definition coversCall (f : func) (i : inst) (s : alignments) : Prop :=
  match i with
  | Call _ _ _ r args => usesConvention f i = true → coversRet r s ∧ ∀ v, v ∈ args → coversValue v s
  | _ => True
  end.

Lemma goodValue_ret t : goodTy t → goodValue (CallValue t None 1).
Proof. split; [done|by exists 0]. Qed.

Section Alignment.
Context (stack : Z).

Lemma includeValue_ok role v s s' :
  goodValue v → goodAl s → includeValue stack role v s = Ok s' → goodAl s' ∧ le_al s s' ∧ coversValue v s'.
Proof.
  intros [[_ Hp] Hb] (Hf & Hs & H16 & H16') H. unfold includeValue, IncludeCallValue in H.
  apply bind_Ok in H as (fa & H & [= <-]). apply bind_Ok in H as ([b a] & Ht & [= <-]). apply fixedType_ok in Ht as (-> & -> & _).
  assert (powerOfTwo 8) by by exists 3. unfold goodAl, le_al, coversValue, slotAlign. cbn [FrameAlignment StackAlignment].
  split; [split; [|split; [done|split; lia]]; repeat (apply pow2_max; [done|] || apply pow2_max); done|]. split; [split; lia|lia].
Qed.

Lemma coversValue_mono v s s' : le_al s s' → coversValue v s → coversValue v s'.
Proof. intros [? ?]. unfold coversValue. lia. Qed.
Lemma coversRet_mono r s s' : le_al s s' → coversRet r s → coversRet r s'.
Proof. intros Hle H t Ht. by eapply coversValue_mono, H. Qed.
Lemma coversAlloca_mono i s s' : le_al s s' → coversAlloca i s → coversAlloca i s'.
Proof. intros [? ?]. destruct i as [? [] ? []| | | |]; simpl; lia. Qed.
Lemma coversSignature_mono f s s' : le_al s s' → coversSignature f s → coversSignature f s'.
Proof. intros Hle H Hm. destruct (H Hm). split; [intros v Hv; by eapply coversValue_mono; eauto|by eapply coversRet_mono]. Qed.
Lemma coversCall_mono f i s s' : le_al s s' → coversCall f i s → coversCall f i s'.
Proof.
  intros Hle. destruct i as [| | |b mg t r args|]; try done. intros H Hu. destruct (H Hu).
  split; [by eapply coversRet_mono|]. intros v Hv. eapply coversValue_mono; [done|auto].
Qed.

Lemma includeValues_ok role vs s s' :
  Forall goodValue vs → goodAl s → foldM (includeValue stack role) vs s = Ok s' →
  goodAl s' ∧ le_al s s' ∧ ∀ v, v ∈ vs → coversValue v s'.
Proof.
  intros Hg Hs H. eapply (foldM_covers _ goodAl le_al coversValue); [| |exact Hs|exact H]; [|intros; by eapply coversValue_mono].
  intros v s0 s1 Hv Hs0 Hv'. eapply includeValue_ok; [|done|done]. rewrite Forall_forall in Hg. by apply Hg.
Qed.

Lemma includeResult_ok role r s s' :
  goodRet r → goodAl s → includeResult stack role r s = Ok s' → goodAl s' ∧ le_al s s' ∧ coversRet r s'.
Proof.
  intros Hg Hs. unfold includeResult. destruct r as [t|]; [|intros [= <-]; by split_and!].
  intros H. apply includeValue_ok in H as (? & ? & ?); [|by apply goodValue_ret, Hg|done]. split_and!; [done|done|by intros ? [= <-]].
Qed.

Lemma includeAlloca_ok i s : goodInst i → goodAl s → goodAl (includeAlloca i s) ∧ le_al s (includeAlloca i s) ∧ coversAlloca i (includeAlloca i s).
Proof.
  intros Hi Hs. destruct i as [e n al []| | | |]; try by split_and!. destruct Hi as (_ & Hp & _). destruct Hs as (Hf & Hst & ? & ?).
  unfold goodAl, le_al, includeAlloca, coversAlloca; destruct n; cbn [FrameAlignment StackAlignment].
  - split; [split; [by apply pow2_max|split; [by apply pow2_max|split; lia]]|split; split; lia].
  - split; [split; [done|split; [by apply pow2_max|split; lia]]|split; split; (done || lia)].
Qed.

Lemma includeAllocas_ok l s : Forall goodInst l → goodAl s →
  goodAl (foldl (λ s i, includeAlloca i s) s l) ∧ le_al s (foldl (λ s i, includeAlloca i s) s l).
Proof.
  revert s. induction l as [|i l IH]; intros s Hg Hs; simpl; [done|]. apply Forall_cons in Hg as [Hi Hg].
  destruct (includeAlloca_ok i s Hi Hs) as (H1 & H2 & _). destruct (IH _ Hg H1) as [? ?]. split; [done|by etransitivity].
Qed.

Lemma includeSignature_ok f s s' :
  goodFunc f → goodAl s → includeSignature stack f s = Ok s' → goodAl s' ∧ le_al s s' ∧ coversSignature f s'.
Proof.
  intros (Hr & Ha & Hb) Hs. unfold includeSignature, coversSignature. destruct (fn_managed f); [|intros [= <-]; by split_and!].
  intros H. apply bind_Ok in H as (s1 & H1 & H). apply bind_Ok in H as (s2 & H2 & [= <-]).
  apply includeValues_ok in H1 as (G1 & L1 & C1); [|done|done]. apply includeResult_ok in H2 as (G2 & L2 & C2); [|done|done].
  destruct (includeAllocas_ok (fn_body f) s2 Hb G2) as [G3 L3].
  split; [done|]. split; [by etransitivity; [|etransitivity]|]. intros _. split; [|by eapply coversRet_mono].
  intros v Hv. apply (coversValue_mono v s1); [by etransitivity|by apply C1].
Qed.

Lemma includeCall_ok f i s s' : goodInst i → goodAl s → includeCall stack f i s = Ok s' → goodAl s' ∧ le_al s s' ∧ coversCall f i s'.
Proof.
  intros Hi Hs. destruct i as [| | |b mg t r args|]; try (intros [= <-]; by split_and!). cbn [includeCall coversCall]. destruct Hi as [Hr Ha].
  destruct (usesConvention f _); [|intros [= <-]; by split_and!]. intros H. apply bind_Ok in H as (s1 & H1 & H).
  apply includeResult_ok in H1 as (G1 & L1 & C1); [|done|done]. apply includeValues_ok in H as (G2 & L2 & C2); [|done|done].
  split; [done|]. split; [by etransitivity|]. intros _. split; [by eapply coversRet_mono|done].
Qed.

Lemma includeCalls_ok f s s' : goodFunc f → goodAl s → foldM (includeCall stack f) (fn_body f) s = Ok s' →
  goodAl s' ∧ le_al s s' ∧ ∀ i, i ∈ fn_body f → coversCall f i s'.
Proof.
  intros (_ & _ & Hb) Hs H. eapply (foldM_covers _ goodAl le_al (coversCall f)); [| |exact Hs|exact H]; [|intros; by eapply coversCall_mono].
  intros i s0 s1 Hi. rewrite Forall_forall in Hb. apply includeCall_ok. by apply Hb.
Qed.

Lemma checkAlloca_ok i s s' : goodInst i → goodAl s → checkAlloca stack i s = Ok s' → goodAl s' ∧ le_al s s' ∧ coversAlloca i s'.
Proof.
  intros Hi Hs. destruct i as [e n al []| | | |]; try (intros [= <-]; by split_and!). cbn [checkAlloca].
  destruct (t_scalable e); [done|]. destruct (stack <? al); [done|]. destruct n; [|case_match; [done|]]; intros [= <-];
    match goal with |- context [coversAlloca ?i _] => by apply (includeAlloca_ok i s) end.
Qed.

Lemma checkAllocas_ok f s s' : goodFunc f → goodAl s → checkAllocas stack f s = Ok s' →
  goodAl s' ∧ le_al s s' ∧ (fn_managed f = true → ∀ i, i ∈ fn_body f → coversAlloca i s').
Proof.
  intros (_ & _ & Hb) Hs. unfold checkAllocas. destruct (fn_managed f); [|intros [= <-]; by split_and!]. intros H.
  apply (foldM_covers _ goodAl le_al coversAlloca) in H as (? & ? & ?); [by split_and!| | |done]; [|intros; by eapply coversAlloca_mono].
  intros i s0 s1 Hi. rewrite Forall_forall in Hb. apply checkAlloca_ok. by apply Hb.
Qed.

(** Every alignment accepted is one the stack can have. *)
Definition fitsStack (i : inst) : Prop := match i with Alloca _ _ al false => al <= stack | _ => True end.

Lemma checkAllocas_fit m s s' : foldM (checkAllocas stack) m s = Ok s' → ∀ f, f ∈ m → fn_managed f = true → ∀ i, i ∈ fn_body f → fitsStack i.
Proof.
  intros H f Hf Hm i Hi. destruct (foldM_each _ _ _ _ f H Hf) as (s0 & s1 & H1). unfold checkAllocas in H1. rewrite Hm in H1.
  destruct (foldM_each _ _ _ _ i H1 Hi) as (s2 & s3 & H2). destruct i as [e n al []| | | |]; try done. cbn in *. destruct (t_scalable e); [done|].
  destruct (Z.ltb_spec stack al); [done|lia].
Qed.

Lemma normalized s : goodAl s → goodAl (Alignments (FrameAlignment s) (Z.max (StackAlignment s) (FrameAlignment s))) ∧
  le_al s (Alignments (FrameAlignment s) (Z.max (StackAlignment s) (FrameAlignment s))).
Proof. intros (? & ? & ? & ?). split; [|split; cbn; lia]. split; [done|split; [by apply pow2_max|split; cbn; lia]]. Qed.

(** What [LayOutArguments] establishes. *)
Lemma layOutArguments_ok m s infos : Forall goodFunc m → LayOutArguments stack m = Ok (s, infos) →
  goodAl s ∧ (∀ f, f ∈ m → ∀ i, i ∈ fn_body f → coversCall f i s) ∧ (∀ f, f ∈ m → coversSignature f s) ∧
  Forall2 (λ f i, layOutFunction stack (FrameAlignment s) f = Ok i) m infos.
Proof.
  intros Hm H. rewrite Forall_forall in Hm. unfold LayOutArguments in H.
  apply bind_Ok in H as (s1 & H1 & H). apply bind_Ok in H as (s2 & H2 & H). apply bind_Ok in H as (ys & H3 & [= <- <-]).
  assert (G0 : goodAl (Alignments 16 16)) by (repeat split; try (by exists 4); done).
  apply (foldM_covers _ goodAl le_al coversSignature) in H1 as (G1 & L1 & C1);
    [|intros f s0 s3 Hf; by apply includeSignature_ok, Hm|intros; by eapply coversSignature_mono|done].
  apply (foldM_covers _ goodAl le_al (λ f s, ∀ i, i ∈ fn_body f → coversCall f i s)) in H2 as (G2 & L2 & C2);
    [|intros f s0 s3 Hf; by apply includeCalls_ok, Hm|intros f s0 s3 Hle Hc i Hi; by eapply coversCall_mono, Hc|done].
  destruct (normalized s2 G2) as [G3 L3]. split; [done|]. split; [intros f Hf i Hi; eapply coversCall_mono; [done|by apply C2]|].
  split; [intros f Hf; apply (coversSignature_mono f s1); [by etransitivity|by apply C1]|]. by apply mapResult_Forall2.
Qed.
End Alignment.

(** ** Local frames *)

(** What an instruction asks of its frame, without the source's clipping. *)
Definition needs (i : inst) : option (Z * Z) :=
  match i with
  | SetjmpCall => Some (4, 4)
  | StackSaveCall => Some (8, 8)
  | Alloca _ (Dynamic _) _ false => Some (8, 8)
  | Alloca elem (Static n) al false => Some (t_size elem * n, al)
  | _ => None
  end.

Lemma needs_pow2 i b al : goodInst i → needs i = Some (b, al) → powerOfTwo al.
Proof.
  destruct i as [e [n|w] al' []| | | |]; simpl; intros Hi [= <- <-]; [apply Hi|by exists 3|by exists 2|by exists 3].
Qed.

Section Local.
Context (stack : Z) (Hstack : stackSize stack).

Lemma slotOf_needs i : goodInst i →
  match slotOf stack i with
  | None => needs i = None
  | Some (Err _) => True
  | Some (Ok (bytes, al, _)) => needs i = Some (bytes, al) ∧ 0 <= bytes ∧ powerOfTwo al
  end.
Proof.
  intros Hi. pose proof (stackSize_range _ Hstack). destruct i as [e [n|w] al []| | | |]; simpl; try done.
  2-4: split; [done|split; [lia|(by exists 2) || (by exists 3)]].
  destruct Hi as (Hs & Hp & Hn). destruct (negb (t_size e =? 0) && _) eqn:E; [done|].
  assert (Heq : t_size e * Z.min n (stack + 1) = t_size e * n).
  { apply andb_false_iff in E as [E|E]; bool_to_prop; [by rewrite E|].
    destruct (decide (t_size e = 0)) as [->|]; [done|]. f_equal. assert (stack / t_size e <= stack) by (apply Z.div_le_upper_bound; nia). lia. }
  split; [by rewrite Heq|]. split; [nia|done].
Qed.

(** Slots of the instructions so far, in program order. *)
Definition slotsInv (pre : list (nat * inst)) (s : Z * gmap nat Z) : Prop :=
  ∃ l : list (nat * (Z * Z * Z)), chain 0 (map snd l) s.1 ∧ NoDup (map fst l) ∧
    (∀ i off bytes al, (i, (off, bytes, al)) ∈ l → s.2 !! i = Some off) ∧
    (∀ i inst bytes al, (i, inst) ∈ pre → needs inst = Some (bytes, al) → ∃ off, (i, (off, bytes, al)) ∈ l) ∧
    (∀ i, i ∈ map fst l → i ∈ map fst pre).

Lemma imap_pair_fresh body pre (p : nat * inst) post : imap pair body = pre ++ p :: post → p.1 ∉ map fst pre ∧ p.2 ∈ body.
Proof.
  intros Heq. assert (Hat : ∀ k q, (pre ++ p :: post) !! k = Some q → q.1 = k ∧ body !! k = Some q.2).
  { intros k q. rewrite <-Heq, list_lookup_imap. destruct (body !! k) eqn:Eb; intros [= <-]. done. }
  destruct (Hat (length pre) p) as [H1 H2]; [by rewrite lookup_app_r, Nat.sub_diag|]. split; [|by eapply list_elem_of_lookup_2].
  intros (q & Hq & Hin)%list_elem_of_fmap. apply list_elem_of_lookup in Hin as [k Hk]. pose proof (lookup_lt_Some _ _ _ Hk).
  destruct (Hat k q) as [H3 _]; [by rewrite lookup_app_l|]. lia.
Qed.

Lemma reserveSlot_inv pre p s s' : p.1 ∉ map fst pre → goodInst p.2 → slotsInv pre s →
  reserveSlot stack p s = Ok s' → slotsInv (pre ++ [p]) s'.
Proof.
  destruct p as [i inst]. simpl. intros Hfresh Hi (l & Hch & Hnd & Hmap & Hall & Hkeys) H. pose proof (slotOf_needs inst Hi) as Hn.
  unfold reserveSlot in H. simpl in H. destruct (slotOf stack inst) as [[[[bytes al] purpose]|]|]; [|done|].
  2:{ injection H as <-. exists l. split_and!; try done; [|intros k Hk; rewrite map_app, elem_of_app; left; by apply Hkeys].
      intros k i' b a [Hk|Hk%list_elem_of_singleton]%elem_of_app Hneed; [by eapply Hall|]. injection Hk as -> ->. congruence. }
  destruct Hn as (Hn & Hb & Hp). apply bind_Ok in H as ([off c] & Hr & [= <-]).
  pose proof (chain_le _ _ _ Hch). apply reserve_ok in Hr as (_ & Ho & Hm & -> & Hle & _); [|done|done|by apply Z.lt_le_incl, pow2_gt0|done].
  exists (l ++ [(i, (off, bytes, al))]). unfold slotsInv; simpl. split_and!.
  - rewrite map_app. eapply chain_app; [exact Hch|]. constructor; [lia|done|done|constructor].
  - rewrite map_app. apply NoDup_app. split_and!; [done| |apply NoDup_singleton]. intros k Hk ->%list_elem_of_singleton. auto.
  - intros k o b a [Hk|Hk%list_elem_of_singleton]%elem_of_app; [|injection Hk as -> -> -> ->; apply lookup_insert_eq].
    rewrite lookup_insert_ne; [by eapply Hmap|]. intros ->. apply Hfresh, Hkeys. apply list_elem_of_fmap. by exists (k, (o, b, a)).
  - intros k i' b a [Hk|Hk%list_elem_of_singleton]%elem_of_app Hneed.
    + destruct (Hall _ _ _ _ Hk Hneed) as [o Ho']. exists o. apply elem_of_app. by left.
    + injection Hk as -> ->. rewrite Hn in Hneed. injection Hneed as -> ->. exists off. apply elem_of_app. right. by left.
  - intros k. rewrite !map_app, !elem_of_app. intros [Hk|Hk]; [left; auto|by right].
Qed.

(** A function's local frame: every object has its own aligned bytes. *)
Definition frameSound (fa : Z) (f : func) (fr : frame) : Prop :=
  FrameSize fr mod fa = 0 ∧
  ∀ i inst bytes al, fn_body f !! i = Some inst → needs inst = Some (bytes, al) →
    ∃ off, Slots fr !! i = Some off ∧ 0 <= off ∧ off + bytes <= FrameSize fr ∧ off mod al = 0 ∧
      ∀ j inst' bytes' al' off', j ≠ i → fn_body f !! j = Some inst' → needs inst' = Some (bytes', al') →
        Slots fr !! j = Some off' → off + bytes <= off' ∨ off' + bytes' <= off.

Lemma chain_member_bounds c l c' off size al : chain c l c' → (off, size, al) ∈ l → c <= off ∧ off + size <= c' ∧ off mod al = 0.
Proof. intros H [i Hi]%list_elem_of_lookup. by apply (chain_bounds _ _ _ _ _ _ _ H) in Hi as (? & ? & ? & _). Qed.

Lemma slotsInv_disjoint c (l : list (nat * (Z * Z * Z))) i j o1 s1 a1 o2 s2 a2 :
  chain 0 (map snd l) c → (i, (o1, s1, a1)) ∈ l → (j, (o2, s2, a2)) ∈ l → i ≠ j → o1 + s1 <= o2 ∨ o2 + s2 <= o1.
Proof.
  intros Hch [p Hp]%list_elem_of_lookup [q Hq]%list_elem_of_lookup Hij.
  assert (Hsnd : ∀ k x, l !! k = Some x → map snd l !! k = Some x.2) by (intros k x Hk; change (map snd l) with (snd <$> l); by rewrite list_lookup_fmap, Hk).
  pose proof (Hsnd _ _ Hp). pose proof (Hsnd _ _ Hq). destruct (Nat.lt_trichotomy p q) as [Hlt|[->|Hlt]].
  - left. by eapply chain_disjoint.
  - congruence.
  - right. by eapply chain_disjoint.
Qed.

Lemma layOutFrame_ok fa f fr : goodFunc f → powerOfTwo fa → layOutFrame stack fa f = Ok fr → frameSound fa f fr ∧ 0 <= FrameSize fr.
Proof.
  intros (_ & _ & Hb) Hfa H. unfold layOutFrame in H. apply bind_Ok in H as ([c slots] & Hs & H). apply bind_Ok in H as ([t size] & Ht & [= <-]).
  assert (Hinv : slotsInv (imap pair (fn_body f)) (c, slots)).
  { eapply (foldM_Ok_invariant (reserveSlot stack) slotsInv); [| |exact Hs].
    - exists []. cbn. split; [constructor|]. split; [constructor|]. split; [by intros ?????%not_elem_of_nil|].
      split; [by intros ?????%not_elem_of_nil|done].
    - intros pre p s0 s1 [post Heq] Hinv Hp. destruct (imap_pair_fresh _ _ _ _ Heq) as [Hfresh Hin].
      rewrite Forall_forall in Hb. eapply reserveSlot_inv; [done|by apply Hb|done|done]. }
  destruct Hinv as (l & Hch & Hnd & Hmap & Hall & Hkeys). simpl in *. pose proof (chain_le _ _ _ Hch).
  apply reserve_ok in Ht as (_ & Ho & Hm & -> & Hle & _); [|done|done|by apply Z.lt_le_incl, pow2_gt0|lia]. rewrite Z.add_0_r in *.
  unfold frameSound; cbn [FrameSize Slots]. split; [|lia]. split; [done|].
  assert (Hin : ∀ i inst, fn_body f !! i = Some inst → (i, inst) ∈ imap pair (fn_body f)).
  { intros i inst Hi. apply (list_elem_of_lookup_2 _ i). by rewrite list_lookup_imap, Hi. }
  intros i inst bytes al Hi Hneed. destruct (Hall _ _ _ _ (Hin _ _ Hi) Hneed) as [off Hoff]. exists off. split; [by eapply Hmap|].
  destruct (chain_member_bounds _ _ _ off bytes al Hch) as (? & ? & ?); [apply list_elem_of_fmap; by exists (i, (off, bytes, al))|].
  split; [done|]. split; [lia|]. split; [done|]. intros j inst' bytes' al' off' Hji Hj Hneed' Hoff'.
  destruct (Hall _ _ _ _ (Hin _ _ Hj) Hneed') as [off2 Hoff2]. pose proof (Hmap _ _ _ _ Hoff2). simplify_eq.
  by eapply (slotsInv_disjoint _ l).
Qed.
End Local.

(** ** Call areas *)

Definition areaSlots (ret : option ty) (args : list ManagedCallValue) (l : ManagedCallLayout) : list (Z * Z * Z) :=
  (0, LinkageBytes, 8) :: match ret with Some t => [(ResultOffset l, alignTo (t_size t) 8, slotAlign (CallValue t None 1))] | None => [] end ++
  argSlots args (ArgOffsets l).

(** Linkage, result and arguments in the area, aligned and disjoint. *)
Definition callSound (fa : Z) (ret : option ty) (args : list ManagedCallValue) (l : ManagedCallLayout) : Prop :=
  Size l mod fa = 0 ∧ length (ArgOffsets l) = length args ∧
  (∀ i off size al, areaSlots ret args l !! i = Some (off, size, al) → 0 <= off ∧ off + size <= Size l ∧ off mod al = 0) ∧
  (∀ i j o1 s1 a1 o2 s2 a2, areaSlots ret args l !! i = Some (o1, s1, a1) → areaSlots ret args l !! j = Some (o2, s2, a2) → (i < j)%nat → o1 + s1 <= o2).

Lemma goodLayout_callSound stack fa ret args l : goodLayout stack fa ret args l → callSound fa ret args l ∧ 16 <= Size l.
Proof.
  intros [Hlen Hal Hpow (c1 & Hc1 & Hc2) (Hs1 & Hs2 & Hs3 & Hs4) Hfa].
  assert (Hch : chain 0 (areaSlots ret args l) (ArgsEnd l)).
  { unfold areaSlots. constructor; [lia|done|by vm_compute|]. rewrite Z.add_0_l. by eapply chain_app. }
  pose proof (chain_le _ _ _ Hc1). pose proof (chain_le _ _ _ Hc2). unfold LinkageBytes in *.
  split; [|lia]. split; [done|]. split; [done|]. split.
  - intros i off size al Hi. apply (chain_bounds _ _ _ _ _ _ _ Hch) in Hi as (? & ? & ? & ?). split; [done|split; [lia|done]].
  - intros i j o1 s1 a1 o2 s2 a2 Hi Hj Hij. by eapply (chain_disjoint _ _ _ i j).
Qed.

(** ** Caller and callee *)

Definition vaSafe (v : ManagedCallValue) : Prop := ByValAlignment v <= Z.max 8 (t_align (storageType v)).

(** The callee's view [l1] of an area its caller laid out as [l]: the same
    result slot, the same fixed arguments, and [va_arg] finds the others. *)
Definition viewSound (stack fa : Z) (l1 l : ManagedCallLayout) (extra : list ManagedCallValue) : Prop :=
  ResultOffset l = ResultOffset l1 ∧
  ∃ offs, ArgOffsets l = ArgOffsets l1 ++ offs ∧ length offs = length extra ∧
    ∀ fp, fp mod fa = 0 → 0 <= fp → fp + 2 * stack <= 2 ^ 64 →
      vaWalk (vaStart fp l1) (map vaRead extra) = map (Z.add fp) offs.

Section Views.
Context (stack : Z) (Hstack : stackSize stack).

Lemma reserveResult_cursor ret ro c : reserveResult stack LinkageBytes ret = Ok (ro, c) → goodRet ret → 16 <= c.
Proof.
  unfold reserveResult. destruct ret as [t|]; intros H Hg; [|by injection H as <- <-].
  apply bind_Ok in H as ([[off al] c'] & Hv & [= <- <-]).
  apply (reserveValue_ok stack Hstack) in Hv as (-> & Hp & Ho & Hm & -> & Hle & _); [|done|by apply goodValue_ret, Hg].
  unfold slotBytes, LinkageBytes in *. pose proof (alignTo_ge (t_size (storageType (CallValue t None 1)))). destruct (Hg t eq_refl). cbn in *. lia.
Qed.

(** A callee's view of the fixed part. *)
Lemma layoutCall_prefix fa1 fa ret args extra l1 l :
  LayoutCall stack fa1 ret args = Ok l1 → LayoutCall stack fa ret (args ++ extra) = Ok l →
  ResultOffset l = ResultOffset l1 ∧ ∃ offs, ArgOffsets l = ArgOffsets l1 ++ offs.
Proof.
  intros H1 H. unfold LayoutCall in H1, H. apply bind_Ok in H1 as ([ro1 c1] & Hr1 & H1). rewrite Hr1, bind_ok in H.
  apply bind_Ok in H1 as ([[o1 a1] c2] & Ha1 & H1). apply bind_Ok in H1 as ([t1 z1] & _ & [= <-]).
  apply bind_Ok in H as ([[o a] c] & Ha & H). apply bind_Ok in H as ([t z] & _ & [= <-]).
  apply reserveArguments_app in Ha as (o1' & a1' & c2' & o2 & a2 & Hx & Hy & -> & ->). rewrite Ha1 in Hx. injection Hx as <- <- <-.
  split; [done|by exists o2].
Qed.

Lemma layoutCall_view fa1 fa s ret args extra l1 l :
  LayoutCall stack fa1 ret args = Ok l1 → LayoutCall stack fa ret (args ++ extra) = Ok l →
  goodRet ret → Forall goodValue (args ++ extra) → Forall vaSafe extra →
  (∀ v, v ∈ extra → coversValue v s) → FrameAlignment s <= fa → powerOfTwo fa → viewSound stack fa l1 l extra.
Proof.
  intros H1 H Hr Hg Hva Hcov Hle Hfa. unfold LayoutCall in H1, H.
  apply bind_Ok in H1 as ([ro1 c1] & Hr1 & H1). rewrite Hr1, bind_ok in H. pose proof (reserveResult_cursor _ _ _ Hr1 Hr) as Hc1.
  apply bind_Ok in H1 as ([[o1 a1] c2] & Ha1 & H1). apply bind_Ok in H1 as ([t1 z1] & _ & [= <-]).
  apply bind_Ok in H as ([[o a] c] & Ha & H). apply bind_Ok in H as ([t z] & _ & [= <-]).
  apply reserveArguments_app in Ha as (o1' & a1' & c2' & o2 & a2 & Hx & Hy & -> & ->). rewrite Ha1 in Hx. injection Hx as <- <- <-.
  apply Forall_app in Hg as [Hg1 Hg2]. apply (reserveArguments_ok stack Hstack) in Ha1 as (_ & _ & Hch & _); [|lia|done]. apply chain_le in Hch.
  split; [done|]. exists o2. cbn. split; [done|]. split; [by apply (reserveArguments_ok stack Hstack) in Hy as (? & _); [|lia|]|].
  intros fp Hfp H0 Hend. unfold vaStart. cbn. eapply (vaWalk_spec stack Hstack fp fa); try done; [lia|].
  rewrite Forall_forall in Hva |- *. intros v Hv. split; [|by apply Hva]. specialize (Hcov v Hv). unfold coversValue in Hcov. lia.
Qed.
End Views.

(** ** The whole layout *)

Section Layouts.
Context (stack : Z) (Hstack : stackSize stack) (fa : Z) (Hfa : powerOfTwo fa).

(** The area of a call, laid out, fits a bound. *)
Definition outgoingOk (i : inst) (bound : Z) : Prop :=
  match i with
  | Call _ true _ r args => ∃ l, LayoutCall stack fa r args = Ok l ∧ Size l <= bound
  | _ => True
  end.

Definition rootOk (i : inst) (s : Z * Z) : Prop :=
  match i with
  | Call true _ _ r args => ∃ l, LayoutCall stack fa r args = Ok l ∧ Size l <= s.1 ∧ ∀ t, r = Some t → t_size t <= s.2
  | _ => True
  end.

Definition le_pair (s s' : Z * Z) : Prop := s.1 <= s'.1 ∧ s.2 <= s'.2.

Instance le_pair_preorder : PreOrder le_pair.
Proof. split; [by split|]. intros a b c [? ?] [? ?]. split; lia. Qed.

Definition frameOf (f : func) (fr : option frame) : Prop :=
  if fn_managed f then ∃ x, fr = Some x ∧ layOutFrame stack fa f = Ok x else fr = None.

Lemma outgoing_ok f n n' : foldM (outgoingStep stack fa) (fn_body f) n = Ok n' → n <= n' ∧ ∀ i, i ∈ fn_body f → outgoingOk i n'.
Proof.
  intros H. apply (foldM_covers _ (λ _, True) Z.le outgoingOk) in H as (_ & ? & ?); [done| | |done].
  - intros i s s' _ _ Hi. destruct i as [| | |b [] t r args|]; try (injection Hi as <-; split_and!; [done|lia|done]).
    apply bind_Ok in Hi as (l & Hl & [= <-]). split_and!; [done|lia|]. exists l. split; [done|lia].
  - intros i s s' Hle. destruct i as [| | |b [] t r args|]; try done. intros (l & Hl & ?). exists l. split; [done|lia].
Qed.

Definition framesInv (pre : list func) (s : list (option frame) * Z) : Prop :=
  Forall2 frameOf pre s.1 ∧ 0 <= s.2 ∧ ∀ f, f ∈ pre → fn_managed f = true → ∀ i, i ∈ fn_body f → outgoingOk i s.2.

Lemma outgoingOk_mono i n n' : n <= n' → outgoingOk i n → outgoingOk i n'.
Proof. intros Hle. destruct i as [| | |b [] t r args|]; try done. intros (l & Hl & ?). exists l. split; [done|lia]. Qed.

Lemma frames_ok m frames out : foldM (frameStep stack fa) m ([], 0) = Ok (frames, out) → framesInv m (frames, out).
Proof.
  apply (foldM_Ok_invariant _ framesInv); [split; [constructor|]; split; [done|by intros ? ?%not_elem_of_nil]|].
  intros pre f [fs n] s1 _ (H1 & H2 & H3) H. unfold frameStep in H. simpl in *. destruct (fn_managed f) eqn:Em.
  - apply bind_Ok in H as (n' & Hn & H). apply bind_Ok in H as (fr & Hfr & [= <-]). apply outgoing_ok in Hn as [Hn Ho].
    split; [apply Forall2_app; [done|]; constructor; [|constructor]; unfold frameOf; rewrite Em; by exists fr|]. cbn. split; [lia|].
    intros g [Hg| ->%list_elem_of_singleton]%elem_of_app Hm i Hi; [eapply outgoingOk_mono; [exact Hn|by eapply H3]|by apply Ho].
  - injection H as <-. split; [apply Forall2_app; [done|]; constructor; [|constructor]; unfold frameOf; by rewrite Em|]. cbn. split; [lia|].
    intros g [Hg| ->%list_elem_of_singleton]%elem_of_app Hm i Hi; [by eapply H3|congruence].
Qed.

Definition rootInv (s : Z * Z) : Prop := 0 <= s.1 ∧ s.1 mod fa = 0.

Lemma rootOk_mono i s s' : le_pair s s' → rootOk i s → rootOk i s'.
Proof.
  intros [? ?]. destruct i as [| | |[] mg t r args|]; try done. intros (l & Hl & ? & Hr). exists l. split; [done|]. split; [lia|].
  intros t' Ht. specialize (Hr t' Ht). lia.
Qed.

Lemma rootStep_ok i s s' : goodInst i → rootInv s → rootStep stack fa i s = Ok s' → rootInv s' ∧ le_pair s s' ∧ rootOk i s'.
Proof.
  intros Hg Hs H. destruct i as [| | |[] mg t r args|]; try (injection H as <-; split_and!; done). destruct Hg as [Hr Ha].
  apply bind_Ok in H as (l & Hl & H). apply bind_Ok in H as (bytes & Hb & [= <-]). pose proof (pow2_gt0 _ Hfa).
  pose proof (layoutCall_ok stack Hstack _ _ _ _ Hl (Z.lt_le_incl _ _ (pow2_gt0 _ Hfa)) Hr Ha) as Hgl.
  destruct (goodLayout_callSound _ _ _ _ _ Hgl) as [(Hm & _) H16]. destruct Hs as [Hs1 Hs2]. split; [|split; [split; cbn; lia|]].
  - split; cbn; [lia|]. destruct (Z.max_spec s.1 (Size l)) as [[_ ->]|[_ ->]]; done.
  - exists l. split; [done|]. split; [cbn; lia|]. intros t' ->. apply bind_Ok in Hb as ([b a] & Ht & [= <-]).
    apply fixedType_ok in Ht as (-> & _). cbn. lia.
Qed.

Lemma roots_ok m s s' : Forall goodFunc m → rootInv s → foldM (λ f s, foldM (rootStep stack fa) (fn_body f) s) m s = Ok s' →
  rootInv s' ∧ ∀ f, f ∈ m → ∀ i, i ∈ fn_body f → rootOk i s'.
Proof.
  intros Hm Hs H. rewrite Forall_forall in Hm.
  apply (foldM_covers _ rootInv le_pair (λ f s, ∀ i, i ∈ fn_body f → rootOk i s)) in H as (? & _ & ?); [done| | |done].
  - intros f s0 s1 Hf Hs0 Hf'. apply (foldM_covers _ rootInv le_pair rootOk) in Hf' as (? & ? & ?); [done| |apply rootOk_mono|done].
    intros i s2 s3 Hi. destruct (Hm f Hf) as (_ & _ & Hb). rewrite Forall_forall in Hb. by apply rootStep_ok, Hb.
  - intros f s0 s1 Hle Hq i Hi. by eapply rootOk_mono, Hq.
Qed.
End Layouts.

(** The regions of one fiber's stack: the transient reserve and the room of
    any outgoing call below the floor, frames up to the root, the root's call
    area at the top; boundaries on the frame alignment. *)
Definition geometrySound (stack : Z) (lay : stack_layout) : Prop :=
  let fa := FrameAlignment (s_alignments lay) in
  powerOfTwo fa ∧ 16 <= fa <= stack ∧ (fa | StackAlignment (s_alignments lay)) ∧
  TransientReserveBytes stack <= s_reserve lay < s_rootFp lay ∧ s_rootFp lay < stack ∧
  s_reserve lay mod fa = 0 ∧ s_rootFp lay mod fa = 0.

Lemma frameSizes_le fs fr : Some fr ∈ fs → FrameSize fr <= foldr Z.max 0 (frameSizes fs).
Proof.
  induction fs as [|[x|] fs IH]; [by intros ?%not_elem_of_nil| |].
  - intros [[= ->]|H]%elem_of_cons; cbn; [lia|]. specialize (IH H). unfold frameSizes in IH. lia.
  - intros [?|H]%elem_of_cons; [done|]. cbn. by apply IH.
Qed.

Record computed (stack : Z) (m : module) (s0 : alignments) (lay : stack_layout) : Prop := {
  c_geometry : geometrySound stack lay;
  c_le : le_al s0 (s_alignments lay);
  c_allocas : ∀ f, f ∈ m → fn_managed f = true → ∀ i, i ∈ fn_body f → coversAlloca i (s_alignments lay);
  c_small : ∀ f, f ∈ m → fn_managed f = true → ∀ i, i ∈ fn_body f → fitsStack stack i;
  c_frames : Forall2 (frameOf stack (FrameAlignment (s_alignments lay))) m (s_frames lay);
  c_room : ∀ fr, Some fr ∈ s_frames lay → s_reserve lay + FrameSize fr <= s_rootFp lay;
  c_calls : ∀ f, f ∈ m → fn_managed f = true → ∀ i, i ∈ fn_body f →
    outgoingOk stack (FrameAlignment (s_alignments lay)) i (s_reserve lay - TransientReserveBytes stack);
  c_roots : ∀ f, f ∈ m → ∀ i, i ∈ fn_body f →
    rootOk stack (FrameAlignment (s_alignments lay)) i (stack - s_rootFp lay, s_rootResult lay);
}.

Lemma computeFrameLayout_ok stack m s0 lay : stackSize stack → Forall goodFunc m → goodAl s0 →
  ComputeFrameLayout stack m s0 = Ok lay → computed stack m s0 lay.
Proof.
  intros Hst Hm G0 H. unfold ComputeFrameLayout in H. apply bind_Ok in H as (s1 & H1 & H).
  assert (Hm' := Hm). rewrite Forall_forall in Hm'.
  pose proof (checkAllocas_fit _ _ _ _ H1) as Hsmall.
  apply (foldM_covers _ goodAl le_al (λ f s, fn_managed f = true → ∀ i, i ∈ fn_body f → coversAlloca i s)) in H1 as (G1 & L1 & C1);
    [|intros f s s' Hf; by apply checkAllocas_ok, Hm'|intros f s s' Hle Hq Hf i Hi; by eapply coversAlloca_mono, Hq|done].
  destruct (normalized s1 G1) as [G2 L2]. set (s := Alignments _ _) in *. destruct G2 as (Hfa & Hsa & H16 & _).
  assert (Hdiv : (FrameAlignment s | StackAlignment s)) by (apply pow2_divide; [done|done|subst s; cbn; lia]).
  apply bind_Ok in H as ([] & _ & H). apply bind_Ok in H as ([frames out] & Hf & H). apply bind_Ok in H as ([root res] & Hr & H).
  apply frames_ok in Hf as (F1 & F2 & F3). apply roots_ok in Hr as ([R1 R2] & R3); [|done|done|done|by split]. cbn [fst snd] in *.
  destruct (root =? 0) eqn:Ez; [done|]. apply bind_Ok in H as ([t1 fl1] & Hf1 & H). apply bind_Ok in H as ([t2 fl] & Hf2 & H).
  destruct (stack <=? root) eqn:Er; [done|]. destruct (_ || _) eqn:El; [done|]. injection H as <-. apply orb_false_iff in El as [El1 El2]. bool_to_prop.
  pose proof (reserve_align _ _ _ _ _ _ Hf2) as Hfs. pose proof (stackSize_range _ Hst).
  assert (0 <= TransientReserveBytes stack) by (apply Z.div_pos; lia).
  apply (reserve_ok stack Hst) in Hf1 as (_ & Ho1 & _ & -> & _ & _); [|done|done|done].
  apply (reserve_ok stack Hst) in Hf2 as (_ & Ho2 & Hm2 & -> & _ & _); [|lia|lia|done].
  constructor; cbn [s_alignments s_frames s_reserve s_rootFp s_rootResult].
  - unfold geometrySound; cbn [s_alignments s_frames s_reserve s_rootFp s_rootResult]. split; [done|]. split; [lia|]. split; [done|]. split; [lia|]. split; [lia|]. rewrite Z.add_0_r. split; [done|].
    rewrite Zminus_mod, R2, Z.sub_0_r, Zmod_mod. apply Z.mod_divide; [lia|]. apply pow2_divide; [done|apply Hst|done].
  - by etransitivity.
  - intros f Hf Hfm i Hi. eapply coversAlloca_mono; [exact L2|by eapply C1].
  - done.
  - done.
  - intros fr Hfr%frameSizes_le. lia.
  - intros f Hf Hfm i Hi. eapply outgoingOk_mono, F3; [lia|done|done|done].
  - intros f Hf i Hi. eapply rootOk_mono, R3; [|done|done]. split; cbn; lia.
Qed.

(** ** The theorem *)

Section Sound.
Context (bytes : Z) (m1 m2 : module) (stack : Z) (infos : list (option frame_info)) (lay : stack_layout).
Context (Hbytes : 0 <= bytes < 2 ^ 32) (Hm1 : Forall goodFunc m1) (Hm2 : Forall goodFunc m2) (Hdem : Forall2 demoted m1 m2).
Context (Hlay : layOutStack bytes m1 m2 = Ok (stack, infos, lay)).
Let fa := FrameAlignment (s_alignments lay).

(** A call that uses the convention: its area, its room, and its callee's view. *)
Definition callsiteSound (f : func) (boundary managed : bool) (target : option nat) (r : option ty) (args : list ManagedCallValue) : Prop :=
  ∃ l, LayoutCall stack fa r args = Ok l ∧ callSound fa r args l ∧
    (fn_managed f = true → managed = true → TransientReserveBytes stack + Size l <= s_reserve lay) ∧
    (boundary = true → s_rootFp lay + Size l <= stack ∧ ∀ t, r = Some t → t_size t <= s_rootResult lay) ∧
    ∀ t g info extra, target = Some t → m2 !! t = Some g → infos !! t = Some (Some info) → fn_ret g = r → args = fn_args g ++ extra →
      Forall vaSafe extra → viewSound stack fa (i_layout info) l extra.

Lemma layOutStack_inv : stackSize stack ∧ ∃ s, goodAl s ∧
  (∀ f, f ∈ m1 → ∀ i, i ∈ fn_body f → coversCall f i s) ∧
  Forall2 (λ f i, layOutFunction stack (FrameAlignment s) f = Ok i) m1 infos ∧ computed stack m2 s lay.
Proof.
  unfold layOutStack in Hlay. apply bind_Ok in Hlay as (st & Hg & H). apply bind_Ok in H as ([s is'] & Ha & H).
  apply bind_Ok in H as (ly & Hc & [= <- <- <-]). apply geometry_ok in Hg as [_ Hst]; [|lia].
  apply layOutArguments_ok in Ha as (G & C & _ & F); [|done]. split; [done|]. exists s. split_and!; [done|done|done|].
  by apply computeFrameLayout_ok.
Qed.

Lemma callsite_sound f boundary managed target r args : f ∈ m2 → Call boundary managed target r args ∈ fn_body f →
  usesConvention f (Call boundary managed target r args) = true → callsiteSound f boundary managed target r args.
Proof.
  intros Hf Hcall Hu. destruct layOutStack_inv as (Hst & s & Gs & Hcov & Hinfos & [Hgeo Hle _ _ Hframes _ Hcalls Hroots]).
  destruct Hgeo as (Hfa & [H16 Hfs] & _ & [_ _] & _). pose proof (pow2_gt0 _ Hfa).
  assert (Hgi : goodRet r ∧ Forall goodValue args) by (rewrite Forall_forall in Hm2; destruct (Hm2 f Hf) as (_ & _ & Hb); rewrite Forall_forall in Hb; by apply (Hb _ Hcall)).
  assert (Hex : ∃ l, LayoutCall stack fa r args = Ok l).
  { simpl in Hu. apply orb_true_iff in Hu as [->|[Hfm ->]%andb_true_iff].
    - destruct (Hroots f Hf _ Hcall) as (l & Hl & _). by exists l.
    - destruct (Hcalls f Hf Hfm _ Hcall) as (l & Hl & _). by exists l. }
  destruct Hex as [l Hl]. destruct Hgi as [Hr Hargs]. exists l. split; [done|].
  split; [eapply goodLayout_callSound, (layoutCall_ok stack Hst); [exact Hl|lia|exact Hr|exact Hargs]|].
  split; [intros Hfm ->; destruct (Hcalls f Hf Hfm _ Hcall) as (l' & Hl' & Hsz); fold fa in Hl'; rewrite Hl in Hl'; injection Hl' as <-; lia|].
  split; [intros ->; destruct (Hroots f Hf _ Hcall) as (l' & Hl' & Hsz & Hres); fold fa in Hl'; rewrite Hl in Hl'; injection Hl' as <-; cbn in *; split; [lia|done]|].
  intros t g info extra -> Hg Hinfo <- -> Hva. apply list_elem_of_lookup in Hf as [k Hk].
  destruct (Forall2_lookup_r _ _ _ _ _ Hdem Hk) as (f1 & Hk1 & Hd1). destruct (Forall2_lookup_r _ _ _ _ _ Hdem Hg) as (g1 & Hg1 & (_ & Eret & Eargs & _)).
  destruct (Forall2_lookup_l _ _ _ _ _ Hinfos Hg1) as (info' & Hi' & Hlay1). rewrite Hinfo in Hi'. injection Hi' as <-.
  destruct Hd1 as (Efm & _ & _ & Hkeep). apply Hkeep in Hcall. specialize (Hcov f1 (list_elem_of_lookup_2 _ _ _ Hk1) _ Hcall).
  destruct Hcov as [_ Hcov]; [by simpl in *; rewrite Efm|]. unfold layOutFunction in Hlay1. destruct (fn_managed g1); [|done].
  apply bind_Ok in Hlay1 as (l1 & Hl1 & [= <-]). rewrite Eret, Eargs in Hl1.
  eapply (layoutCall_view stack Hst _ fa s); try done; [|apply Hle]. intros v Hv. apply Hcov, elem_of_app. by right.
Qed.

(** C38: An accepted module's software stack is laid out soundly.  In every
    managed function each alloca, handle and snapshot has its own aligned
    bytes of the frame (the full unclipped size); every frame boundary, the
    reserve floor and the root frame are multiples of the frame alignment, and
    floor plus any frame stays below the root frame.  Every call area keeps
    linkage, result and arguments disjoint and aligned; a managed call fits
    between the transient reserve and the floor and a root call above the root
    frame; and the callee, which computed its offsets before the alignment was
    final, finds the result, the fixed arguments and, by [va_arg], the
    variadic ones where the caller put them. *)
Theorem stack_layout_sound :
  geometrySound stack lay ∧
  (∀ i f, m2 !! i = Some f → fn_managed f = true → ∃ fr, s_frames lay !! i = Some (Some fr) ∧ frameSound fa f fr ∧
    s_reserve lay + FrameSize fr <= s_rootFp lay ∧
    ∀ inst b al, inst ∈ fn_body f → needs inst = Some (b, al) → (al | fa)) ∧
  (∀ f b mg t r args, f ∈ m2 → Call b mg t r args ∈ fn_body f → usesConvention f (Call b mg t r args) = true →
    callsiteSound f b mg t r args).
Proof.
  destruct layOutStack_inv as (Hst & s & Gs & Hcov & Hinfos & [Hgeo Hle Hall _ Hframes Hroom Hcalls Hroots]).
  split; [done|]. split; [|intros; by apply callsite_sound]. destruct Hgeo as (Hfa & [H16 Hfs] & _).
  intros i f Hf Hfm. destruct (Forall2_lookup_l _ _ _ _ _ Hframes Hf) as (fr & Hi & Hfr). unfold frameOf in Hfr. rewrite Hfm in Hfr.
  destruct Hfr as (x & -> & Hx). exists x. pose proof (list_elem_of_lookup_2 _ _ _ Hf) as Hin. rewrite Forall_forall in Hm2.
  split; [done|]. split; [eapply (layOutFrame_ok stack Hst); [by apply Hm2|done|done]|].
  split; [by apply Hroom, (list_elem_of_lookup_2 _ i)|]. intros ins b al Hins Hneed.
  assert (Hp : powerOfTwo al) by (destruct (Hm2 f Hin) as (_ & _ & Hb); rewrite Forall_forall in Hb; by eapply needs_pow2; [apply Hb|]).
  apply pow2_divide; [done|done|].
  specialize (Hall f Hin Hfm ins Hins). destruct ins as [e [n|w] al' []| | | |]; simplify_eq/=; subst fa; lia.
Qed.
End Sound.

(** A native entry, a root with locals that calls a variadic function. *)
Definition i32 : ty := Ty true false 4 4.
Definition i64 : ty := Ty true false 8 8.
Definition vec : ty := Ty true false 32 32.
Definition plain (t : ty) : ManagedCallValue := CallValue t None 1.

Definition sampleBefore : module :=
  [Func false None [] [Call true false (Some 1%nat) (Some i32) [plain i64]];
   Func true (Some i32) [plain i64] [Alloca i32 (Static 5) 4 false; Alloca i64 (Dynamic 32) 16 false; StackSaveCall;
     Call false true (Some 2%nat) (Some i64) [plain i32; plain i64; plain vec; plain i32]];
   Func true (Some i64) [plain i32] [SetjmpCall; Other]].

(** The same after a value of the root was demoted. *)
Definition sampleAfter : module :=
  [Func false None [] [Call true false (Some 1%nat) (Some i32) [plain i64]];
   Func true (Some i32) [plain i64] [Alloca vec (Static 1) 64 false; Alloca i32 (Static 5) 4 false; Alloca i64 (Dynamic 32) 16 false; StackSaveCall;
     Call false true (Some 2%nat) (Some i64) [plain i32; plain i64; plain vec; plain i32]];
   Func true (Some i64) [plain i32] [SetjmpCall; Other]].

Definition sampleLayout : list (option frame_info) * stack_layout :=
  match layOutStack 65536 sampleBefore sampleAfter with
  | Ok (_, infos, lay) => (infos, lay)
  | Err _ => ([], StackLayout (Alignments 0 0) [] 0 0 0)
  end.

Ltac pow2_const := match goal with |- powerOfTwo ?x => exists (Z.log2 x); by vm_compute end.
Ltac good_sample :=
  repeat match goal with
  | |- powerOfTwo _ => pow2_const
  | |- Forall _ [] => apply Forall_nil_2
  | |- Forall _ (_ :: _) => apply Forall_cons_2
  | |- goodFunc _ => unfold goodFunc, goodRet; cbn
  | |- goodValue _ => unfold goodValue, goodTy; cbn
  | |- goodTy _ => unfold goodTy; cbn
  | |- goodRet _ => unfold goodRet; cbn
  | |- goodInst _ => cbn
  | |- _ ∧ _ => split
  | |- ∀ t, _ = Some t → _ => let H := fresh in intros ? H; simplify_eq/=
  | |- True => done
  | |- 0 <= _ => lia
  end.

Lemma sampleBefore_good : Forall goodFunc sampleBefore.
Proof. unfold sampleBefore. good_sample. Qed.
Lemma sampleAfter_good : Forall goodFunc sampleAfter.
Proof. unfold sampleAfter. good_sample. Qed.

Lemma sample_demoted : Forall2 demoted sampleBefore sampleAfter.
Proof.
  unfold sampleBefore, sampleAfter.
  repeat match goal with
  | |- Forall2 _ [] [] => apply Forall2_nil_2
  | |- Forall2 _ (_ :: _) (_ :: _) => apply Forall2_cons_2
  end; (split; [done|split; [done|split; [done|]]]); cbn; intros b mg t r args H; set_solver.
Qed.

Lemma stack_layout_sound_witness :
  layOutStack 65536 sampleBefore sampleAfter = Ok (65536, sampleLayout.1, sampleLayout.2) ∧
  geometrySound 65536 sampleLayout.2 ∧
  callsiteSound sampleAfter 65536 sampleLayout.1 sampleLayout.2 (Func false None [] []) true false (Some 1%nat) (Some i32) [plain i64].
Proof.
  assert (H : layOutStack 65536 sampleBefore sampleAfter = Ok (65536, sampleLayout.1, sampleLayout.2)) by by vm_compute.
  destruct (stack_layout_sound 65536 sampleBefore sampleAfter 65536 sampleLayout.1 sampleLayout.2) as (Hg & _ & Hc);
    [lia|apply sampleBefore_good|apply sampleAfter_good|apply sample_demoted|exact H|].
  split; [exact H|]. split; [exact Hg|].
  apply (Hc (Func false None [] [Call true false (Some 1%nat) (Some i32) [plain i64]])); [by left|by left|done].
Defined.
