(* ===== verification/StackMachine.v ===== *)
(** * The software stack at run time ([stackify.cpp])

    The code Stackify emits around calls, returns, dynamic allocations, stack
    saves and suspensions, as operations on one fiber's control words and
    memory; and the call stack it implements, with objects instead of
    addresses.  The layout is an interface, [StackABI]. *)

From Stdlib Require Import ZArith Lia.
From stdpp Require Import base numbers list gmap fin_maps option.
From S2P Require Import Prelude Bytes Fiber Frames.

Module StackMachine.
Local Open Scope Z_scope.

Notation obj := (list (option Z)).

(** Runs of bytes. *)
Definition storeBytes (m : mem) (a : Z) (l : list Z) : mem := λ x,
  if (a <=? x) && (x <? a + Z.of_nat (length l)) then nth (Z.to_nat (x - a)) l 0 else m x.
Definition loadBytes (m : mem) (a : Z) (n : nat) : list Z := map (λ k, m (a + Z.of_nat k)) (seq 0 n).

(** ** Interface to the layout *)

(** What a local slot holds: an object of the program, the handle of a dynamic
    allocation (element bytes, alignment), a stack snapshot, a jump's result. *)
Inductive slot_kind := Object (size : nat) | Handle (elemBytes al : Z) | Snapshot | JumpResult.

Definition slotSize (k : slot_kind) : Z :=
  match k with Object n => Z.of_nat n | Handle _ _ | Snapshot => 8 | JumpResult => 4 end.

(** A managed function as its own code sees it. *)
Record fn_abi := FnABI {
  FnFrameSize : Z;
  FnSlots : gmap nat (Z * slot_kind);     (* by instruction *)
  FnArgs : list (Z * nat);                (* fp-relative offset, bytes *)
  FnResult : option (Z * nat);
}.

(** A call site: its area, the actuals' bytes, the result's bytes. *)
Record site_abi := SiteABI {
  SiteLayout : Frames.ManagedCallLayout;
  SiteArgs : list nat;
  SiteResult : option nat;
}.

Class StackABI := {
  FiberStackSize : Z;
  SliceBase : Z;                          (* address of the fiber's slice *)
  ArenaTier : bool;
  FrameAlignment : Z;
  ReserveFloor : Z;
  RootFp : Z;
  TransientReserve : Z;
  managed : nat → option fn_abi;
  callSite : nat → nat → option site_abi; (* function, instruction *)
  rootSite : nat → nat → option (site_abi * nat);  (* a native caller's boundary call and its root *)
  accepts : nat → nat → nat → bool;       (* the site passes the callee's signature *)
  entryRegionId : nat → Z;
  resumeRegionId : nat → nat → Z;
}.

Section Machine.
Context `{ABI : !StackABI}.

(** [dynamicSp] of [SuspendAtCall]. *)
Definition dynamicSp (fn : fn_abi) : bool :=
  existsb (λ '(_, (_, k)), match k with Handle _ _ | Snapshot => true | _ => false end) (map_to_list (FnSlots fn)).
Definition hasSetjmp (fn : fn_abi) : bool :=
  existsb (λ '(_, (_, k)), match k with JumpResult => true | _ => false end) (map_to_list (FnSlots fn)).

(** ** Emitted code *)

Definition RegionDone : Z := 2 ^ 32 - 1.
Definition CAPSULE_ERROR_STACK_OVERFLOW : Z := -7.
Definition OutcomeValue (code : Z) : Z := Z.lor (u64 (Z.shiftl (u64 code) 32)) Fiber.CAPSULE_EXITED.

(** The fiber's control words and the program's memory. *)
Record cstate := CState {
  c_mem : mem;
  c_resume : Z;
  c_sp : Z;
  c_fp : Z;
  c_outcome : Z;
  c_returnSize : Z;
}.

Definition withMem (m : mem) (c : cstate) : cstate := CState m (c_resume c) (c_sp c) (c_fp c) (c_outcome c) (c_returnSize c).
Definition withSp (sp : Z) (c : cstate) : cstate := CState (c_mem c) (c_resume c) sp (c_fp c) (c_outcome c) (c_returnSize c).
Definition withOutcome (o : Z) (c : cstate) : cstate := CState (c_mem c) (c_resume c) (c_sp c) (c_fp c) o (c_returnSize c).

Definition SliceOffset (a : Z) : Z := Z.land a (FiberStackSize - 1).
Definition StackPtr (a : Z) : Z := SliceBase + Z.land a (FiberStackSize - 1).
Definition FramePointer (a : Z) : Z := if ArenaTier then a else StackPtr a.

(** The prologue: [None] for the overflow branch. *)
Definition prologue (fn : fn_abi) (c : cstate) : option cstate :=
  if SliceOffset (c_fp c) <? FnFrameSize fn + ReserveFloor then None
  else Some (withSp (u64 (c_fp c - FnFrameSize fn)) c).

Definition abort (c : cstate) : cstate := withOutcome (OutcomeValue CAPSULE_ERROR_STACK_OVERFLOW) c.

(** Addresses the body materializes. *)
Definition slotAddr (fn : fn_abi) (c : cstate) (i : nat) : option Z :=
  s ← FnSlots fn !! i; Some (u64 (FramePointer (c_fp c) + (s.1 - FnFrameSize fn))).
Definition argAddr (fn : fn_abi) (c : cstate) (k : nat) : option Z :=
  s ← FnArgs fn !! k; Some (u64 (FramePointer (c_fp c) + s.1)).

(** A place of the running function: a static object, a fixed argument, the
    block a dynamic allocation's handle names. *)
Inductive place := PSlot (i : nat) | PArg (k : nat) | PCarved (i : nat).

Definition placeAddr (fn : fn_abi) (c : cstate) (p : place) : option Z :=
  match p with
  | PSlot i => slotAddr fn c i
  | PArg k => argAddr fn c k
  | PCarved i => a ← slotAddr fn c i; Some (loadLE (c_mem c) a 8)
  end.

(** An actual argument: a value, or a byval object copied from a place. *)
Inductive actual := AValue (bytes : list Z) | AByVal (p : place).

Definition actualBytes (fn : fn_abi) (c : cstate) (size : nat) (a : actual) : option (list Z) :=
  match a with
  | AValue bytes => Some bytes
  | AByVal p => addr ← placeAddr fn c p; Some (loadBytes (c_mem c) addr size)
  end.

(** [StoreCallArguments]: each load precedes its own store. *)
Fixpoint StoreCallArguments (fn : fn_abi) (out : Z) (offsets : list Z) (sizes : list nat) (args : list actual) (c : cstate) : option cstate :=
  match offsets, sizes, args with
  | off :: offsets, size :: sizes, a :: args =>
      bytes ← actualBytes fn c size a;
      StoreCallArguments fn out offsets sizes args (withMem (storeBytes (c_mem c) (out + off) bytes) c)
  | _, _, [] => Some c
  | _, _, _ => None
  end.

(** [SuspendAtCall], the calling half. *)
Definition SuspendAtCall (fn : fn_abi) (s : site_abi) (resumeId calleeId : Z) (args : list actual) (c : cstate) : option cstate :=
  let size := Frames.Size (SiteLayout s) in
  let callerSp := if dynamicSp fn then c_sp c else u64 (c_fp c - FnFrameSize fn) in
  let calleeFp := u64 (callerSp - size) in
  let out := if dynamicSp fn then FramePointer calleeFp else u64 (FramePointer (c_fp c) - (FnFrameSize fn + size)) in
  let m := storeLE (c_mem c) (out + Frames.SavedFpOffset) 8 (c_fp c) in
  let m := storeLE m (out + Frames.ReturnRegionIdOffset) 4 resumeId in
  c ← StoreCallArguments fn out (Frames.ArgOffsets (SiteLayout s)) (SiteArgs s) args (withMem m c);
  Some (CState (c_mem c) calleeId (c_sp c) calleeFp (c_outcome c) (c_returnSize c)).

(** The resume half: the result's bytes and the caller's [sp]. *)
Definition ResumeAtCall (fn : fn_abi) (s : site_abi) (c : cstate) : cstate * option (list Z) :=
  let size := Frames.Size (SiteLayout s) in
  let returnedFp := u64 (c_sp c - Frames.LinkageBytes) in
  let returnedFrame := if dynamicSp fn then FramePointer returnedFp else u64 (FramePointer (c_fp c) - (FnFrameSize fn + size)) in
  let r := n ← SiteResult s; Some (loadBytes (c_mem c) (returnedFrame + Frames.ResultOffset (SiteLayout s)) n) in
  let sp := if dynamicSp fn then u64 (returnedFp + size) else if hasSetjmp fn then u64 (c_fp c - FnFrameSize fn) else c_sp c in
  (withSp sp c, r).

Definition LowerReturn (fn : fn_abi) (v : option (list Z)) (c : cstate) : cstate :=
  let frame := FramePointer (c_fp c) in
  let m := match v, FnResult fn with Some v, Some (off, _) => storeBytes (c_mem c) (frame + off) v | _, _ => c_mem c end in
  CState m (loadLE m (frame + Frames.ReturnRegionIdOffset) 4) (u64 (c_fp c + Frames.LinkageBytes)) (loadLE m (frame + Frames.SavedFpOffset) 8)
    (c_outcome c) (c_returnSize c).

(** [LowerDynamicAlloca]: [None] for the overflow branch. *)
Definition carveMask (al : Z) : Z := 2 ^ 64 - al.

Definition LowerDynamicAlloca (elemBytes al count handle : Z) (c : cstate) : option cstate :=
  let al := Z.max FrameAlignment al in
  if elemBytes =? 0 then
    Some (withMem (storeLE (c_mem c) handle 8 (FramePointer (Z.land (c_sp c) (carveMask al)))) c)
  else
    let need := u64 (count * elemBytes) in
    let minimum := u64 (u64 (need + (al - 1)) + ReserveFloor) in
    if (FiberStackSize / elemBytes <? count) || (SliceOffset (c_sp c) <? minimum) then None
    else
      let next := Z.land (u64 (c_sp c - need)) (carveMask al) in
      let c := withSp next c in
      Some (withMem (storeLE (c_mem c) handle 8 (FramePointer next)) c).

Definition saveStack (snapshot : Z) (c : cstate) : cstate := withMem (storeLE (c_mem c) snapshot 8 (c_sp c)) c.
Definition restoreStack (snapshot : Z) (c : cstate) : cstate := withSp (loadLE (c_mem c) snapshot 8) c.

(** [SuspendAtBackedge] and [SuspendAtYield]. *)
Definition suspend (yield : bool) (resumeId : Z) (c : cstate) : cstate :=
  CState (c_mem c) resumeId (c_sp c) (c_fp c) (if yield then Fiber.CAPSULE_YIELD else c_outcome c) (c_returnSize c).

(** [RewriteEntryCall] up to the drive. *)
Definition RewriteEntryCall (s : site_abi) (returnSize entryId : Z) (args : list (list Z)) (c : cstate) : option cstate :=
  let out := StackPtr RootFp in
  let c := withOutcome 0 c in
  let m := storeLE (c_mem c) (out + Frames.SavedFpOffset) 8 0 in
  let m := storeLE m (out + Frames.ReturnRegionIdOffset) 4 RegionDone in
  c ← StoreCallArguments (FnABI 0 ∅ [] None) out (Frames.ArgOffsets (SiteLayout s)) (SiteArgs s) (map AValue args) (withMem m c);
  Some (CState (c_mem c) entryId out out (c_outcome c) returnSize).

(** The native caller's load of the root result. *)
Definition rootResult (s : site_abi) (c : cstate) : option (list Z) :=
  n ← SiteResult s; Some (loadBytes (c_mem c) (StackPtr (RootFp + Frames.ResultOffset (SiteLayout s))) n).

(** ** The call stack it implements *)

(** An activation: objects, not addresses; [None] is an uninitialised byte. *)
Record act := Act {
  a_fn : nat;
  a_args : list obj;
  a_slots : gmap nat obj;
  a_blocks : list obj;            (* live dynamic allocations, oldest first *)
  a_handles : gmap nat nat;       (* the block a site's handle names *)
  a_saves : gmap nat nat;         (* the number of blocks at a snapshot *)
  a_wait : nat;                   (* the call it waits at *)
}.

Inductive control :=
| Enter                           (* called, before its prologue *)
| Body
| Back (v : option (list Z))      (* a callee returned, before the resume *)
| Suspended (i : nat)
| Done (v : option (list Z)).

Record astate := AState { a_root : nat * nat; a_stack : list act; a_control : control }.

Definition uninit (n : nat) : obj := replicate n None.

Definition objectSize (s : Z * slot_kind) : option nat := match s.2 with Object n => Some n | _ => None end.

Definition fresh (f : nat) (fn : fn_abi) (args : list obj) : act :=
  Act f args (omap (λ s, uninit <$> objectSize s) (FnSlots fn)) [] ∅ ∅ 0.

Definition objectAt (a : act) (p : place) : option obj :=
  match p with
  | PSlot i => a_slots a !! i
  | PArg k => a_args a !! k
  | PCarved i => n ← a_handles a !! i; a_blocks a !! n
  end.

Definition setObject (a : act) (p : place) (o : obj) : act :=
  match p with
  | PSlot i => Act (a_fn a) (a_args a) (<[i := o]> (a_slots a)) (a_blocks a) (a_handles a) (a_saves a) (a_wait a)
  | PArg k => Act (a_fn a) (<[k := o]> (a_args a)) (a_slots a) (a_blocks a) (a_handles a) (a_saves a) (a_wait a)
  | PCarved i =>
      match a_handles a !! i with
      | Some n => Act (a_fn a) (a_args a) (a_slots a) (<[n := o]> (a_blocks a)) (a_handles a) (a_saves a) (a_wait a)
      | None => a
      end
  end.

Definition isByte (b : Z) : bool := (0 <=? b) && (b <? 256).

Definition actualObject (a : act) (size : nat) (x : actual) : option obj :=
  match x with
  | AValue bytes => if (length bytes =? size)%nat && forallb isByte bytes then Some (Some <$> bytes) else None
  | AByVal p => o ← objectAt a p; if (size <=? length o)%nat then Some (take size o) else None
  end.

Fixpoint actualObjects (a : act) (sizes : list nat) (args : list actual) : option (list obj) :=
  match sizes, args with
  | [], [] => Some []
  | size :: sizes, x :: args => o ← actualObject a size x; os ← actualObjects a sizes args; Some (o :: os)
  | _, _ => None
  end.

Definition okResult (r : option nat) (v : option (list Z)) : bool :=
  match r, v with
  | Some n, Some v => (length v =? n)%nat && forallb isByte v
  | None, None => true
  | _, _ => false
  end.

(** ** Operations *)

Inductive op :=
| OEnter (f : nat)
| OWrite (f : nat) (p : place) (off : nat) (bytes : list Z)
| ORead (f : nat) (p : place) (off len : nat)
| OCall (f i g : nat) (args : list actual)
| OResume (f i : nat)
| OReturn (f : nat) (v : option (list Z))
| OAlloca (f i : nat) (count : Z)
| OSave (f i : nat)
| ORestore (f i : nat)
| OSuspend (f i : nat) (yield : bool)
| OContinue (f i : nat)
| OResult (h j : nat).

Definition events := list (option (list Z)).

Definition isPlace (fn : fn_abi) (p : place) : bool :=
  match p with
  | PSlot i => match FnSlots fn !! i with Some (_, Object _) => true | _ => false end
  | PArg _ => true
  | PCarved i => match FnSlots fn !! i with Some (_, Handle _ _) => true | _ => false end
  end.

(** The step of the running function [f]'s activation [a]. *)
Definition abody (r : nat * nat) (a : act) (rest : list act) (o : op) : option (astate * events) :=
  fn ← managed (a_fn a);
  match o with
  | OWrite f p off bytes =>
      guard (f = a_fn a ∧ isPlace fn p = true ∧ forallb isByte bytes = true);;
      ob ← objectAt a p;
      guard (off + length bytes <= length ob)%nat;;
      Some (AState r (setObject a p (take off ob ++ (Some <$> bytes) ++ drop (off + length bytes) ob) :: rest) Body, [])
  | ORead f p off len =>
      guard (f = a_fn a ∧ isPlace fn p = true);;
      ob ← objectAt a p;
      guard (off + len <= length ob)%nat;;
      bytes ← mapM id (take len (drop off ob));
      Some (AState r (a :: rest) Body, [Some bytes])
  | OCall f i g args =>
      guard (f = a_fn a ∧ accepts f i g = true);;
      s ← callSite f i;
      callee ← managed g;
      objs ← actualObjects a (SiteArgs s) args;
      Some (AState r (fresh g callee (take (length (FnArgs callee)) objs) ::
        Act (a_fn a) (a_args a) (a_slots a) (a_blocks a) (a_handles a) (a_saves a) i :: rest) Enter, [])
  | OReturn f v =>
      guard (f = a_fn a ∧ okResult (snd <$> FnResult fn) v = true);;
      Some (AState r rest (match rest with [] => Done v | _ => Back v end), [])
  | OAlloca f i count =>
      guard (f = a_fn a ∧ 0 <= count < 2 ^ 64);;
      '(_, k) ← FnSlots fn !! i;
      match k with
      | Handle elem _ =>
          Some (AState r (Act (a_fn a) (a_args a) (a_slots a) (a_blocks a ++ [uninit (Z.to_nat (elem * count))])
            (<[i := length (a_blocks a)]> (a_handles a)) (a_saves a) (a_wait a) :: rest) Body, [])
      | _ => None
      end
  | OSave f i =>
      guard (f = a_fn a);;
      '(_, k) ← FnSlots fn !! i;
      match k with
      | Snapshot => Some (AState r (Act (a_fn a) (a_args a) (a_slots a) (a_blocks a) (a_handles a) (<[i := length (a_blocks a)]> (a_saves a)) (a_wait a) :: rest) Body, [])
      | _ => None
      end
  | ORestore f i =>
      guard (f = a_fn a);;
      n ← a_saves a !! i;
      Some (AState r (Act (a_fn a) (a_args a) (a_slots a) (take n (a_blocks a)) (filter (λ p, (p.2 < n)%nat) (a_handles a))
        (filter (λ p, (p.2 <= n)%nat) (a_saves a)) (a_wait a) :: rest) Body, [])
  | OSuspend f i yield => guard (f = a_fn a);; Some (AState r (a :: rest) (Suspended i), [])
  | _ => None
  end.

Definition astep (o : op) (s : astate) : option (astate * events) :=
  let r := a_root s in
  match a_control s, a_stack s, o with
  | Enter, a :: rest, OEnter f => guard (f = a_fn a);; Some (AState r (a :: rest) Body, [])
  | Body, a :: rest, _ => abody r a rest o
  | Back v, a :: rest, OResume f i => guard (f = a_fn a ∧ i = a_wait a);; Some (AState r (a :: rest) Body, [v])
  | Suspended i, a :: rest, OContinue f j => guard (f = a_fn a ∧ i = j);; Some (AState r (a :: rest) Body, [])
  | Done v, [], OResult h j => guard ((h, j) = r);; Some (s, [v])
  | _, _, _ => None
  end.

Fixpoint arun (ops : list op) (s : astate) : option (astate * events) :=
  match ops with
  | [] => Some (s, [])
  | o :: ops => '(s, e) ← astep o s; '(s, es) ← arun ops s; Some (s, e ++ es)
  end.

(** The activation a boundary call makes. *)
Definition initial (h j : nat) (s : site_abi) (f : nat) (args : list (list Z)) : option astate :=
  fn ← managed f;
  objs ← actualObjects (fresh f fn []) (SiteArgs s) (map AValue args);
  Some (AState (h, j) [fresh f fn (take (length (FnArgs fn)) objs)] Enter).

(** The emitted code: it runs where dispatch on the resume word leads. *)
Inductive cres := Running (c : cstate) (e : events) | Overflow (c : cstate) (e : events) | Stuck.

Definition orStuck {A} (x : option A) (k : A → cres) : cres := match x with Some a => k a | None => Stuck end.

(** A continuation call clears the yield before it drives the fiber. *)
Definition continue (c : cstate) : cstate :=
  if c_outcome c =? Fiber.CAPSULE_YIELD then withOutcome Fiber.CAPSULE_OK c else c.

Definition cbody (fn : fn_abi) (o : op) (c : cstate) : cres :=
  match o with
  | OEnter f =>
      if c_resume c =? entryRegionId f then
        match prologue fn c with Some c => Running c [] | None => Overflow (abort c) [] end
      else Stuck
  | OWrite f p off bytes => orStuck (placeAddr fn c p) (λ a, Running (withMem (storeBytes (c_mem c) (a + Z.of_nat off) bytes) c) [])
  | ORead f p off len => orStuck (placeAddr fn c p) (λ a, Running c [Some (loadBytes (c_mem c) (a + Z.of_nat off) len)])
  | OCall f i g args =>
      orStuck (callSite f i) (λ s, orStuck (SuspendAtCall fn s (resumeRegionId f i) (entryRegionId g) args c) (λ c, Running c []))
  | OResume f i =>
      orStuck (callSite f i) (λ s,
        if c_resume c =? resumeRegionId f i then let '(c, r) := ResumeAtCall fn s c in Running c [r] else Stuck)
  | OReturn f v => Running (LowerReturn fn v c) []
  | OAlloca f i count =>
      match FnSlots fn !! i, slotAddr fn c i with
      | Some (_, Handle elem al), Some a =>
          match LowerDynamicAlloca elem al count a c with Some c => Running c [] | None => Overflow (abort c) [] end
      | _, _ => Stuck
      end
  | OSave f i => orStuck (slotAddr fn c i) (λ a, Running (saveStack a c) [])
  | ORestore f i => orStuck (slotAddr fn c i) (λ a, Running (restoreStack a c) [])
  | OSuspend f i yield => Running (suspend yield (resumeRegionId f i) c) []
  | OContinue f i => if c_resume c =? resumeRegionId f i then Running (continue c) [] else Stuck
  | OResult h j => Stuck
  end.

Definition opFn (o : op) : nat :=
  match o with
  | OEnter f | OWrite f _ _ _ | ORead f _ _ _ | OCall f _ _ _ | OResume f _ | OReturn f _ | OAlloca f _ _
  | OSave f _ | ORestore f _ | OSuspend f _ _ | OContinue f _ | OResult f _ => f
  end.

Definition cstep (o : op) (c : cstate) : cres :=
  match o with
  | OResult h j => orStuck (rootSite h j) (λ s, if c_resume c =? RegionDone then Running c [rootResult s.1 c] else Stuck)
  | _ => orStuck (managed (opFn o)) (λ fn, cbody fn o c)
  end.

Fixpoint crun (ops : list op) (c : cstate) : cres :=
  match ops with
  | [] => Running c []
  | o :: ops =>
      match cstep o c with
      | Running c e =>
          match crun ops c with
          | Running c es => Running c (e ++ es)
          | Overflow c es => Overflow c (e ++ es)
          | Stuck => Stuck
          end
      | x => x
      end
  end.
End Machine.
End StackMachine.
