(* ===== verification/StackMachineFacts.v ===== *)
(** * Invariant of the software stack

    The laws a layout promises, the relation between activations and the
    memory that holds them, and what writes leave alone. *)

From Stdlib Require Import ZArith Lia.
From stdpp Require Import base numbers list gmap fin_maps option.
From S2P Require Import Prelude Bytes Frames FramesFacts StackMachine.

Import StackMachine.
Local Open Scope Z_scope.

(** ** Bytes *)

Lemma storeBytes_outside m a l x : x < a ∨ a + Z.of_nat (length l) <= x → storeBytes m a l x = m x.
Proof. intros H. unfold storeBytes. destruct (Z.leb_spec a x), (Z.ltb_spec x (a + Z.of_nat (length l))); simpl; (done || lia). Qed.

Lemma storeBytes_inside m a l k b : l !! k = Some b → storeBytes m a l (a + Z.of_nat k) = b.
Proof.
  intros Hk. pose proof (lookup_lt_Some _ _ _ Hk). unfold storeBytes.
  destruct (Z.leb_spec a (a + Z.of_nat k)), (Z.ltb_spec (a + Z.of_nat k) (a + Z.of_nat (length l))); simpl; try lia.
  replace (Z.to_nat (a + Z.of_nat k - a)) with k by lia. by apply nth_lookup_Some.
Qed.

Lemma loadBytes_agree m m' a n : (∀ x, a <= x < a + Z.of_nat n → m' x = m x) → loadBytes m' a n = loadBytes m a n.
Proof. intros H. unfold loadBytes. apply map_ext_in. intros k Hk%in_seq. apply H. lia. Qed.

Lemma loadBytes_length m a n : length (loadBytes m a n) = n.
Proof. unfold loadBytes. by rewrite length_map, length_seq. Qed.

Lemma loadBytes_lookup m a n k : (k < n)%nat → loadBytes m a n !! k = Some (m (a + Z.of_nat k)).
Proof.
  intros H. unfold loadBytes. change (map ?f ?l) with (f <$> l). rewrite list_lookup_fmap, lookup_seq_lt by done. done.
Qed.

Lemma loadBytes_storeBytes m a l : loadBytes (storeBytes m a l) a (length l) = l.
Proof.
  apply list_eq. intros k. destruct (Nat.lt_ge_cases k (length l)) as [Hk|Hk].
  - rewrite loadBytes_lookup by done. destruct (lookup_lt_is_Some_2 l k Hk) as [b Hb]. by rewrite (storeBytes_inside _ _ _ _ b).
  - rewrite !(proj2 (lookup_ge_None _ _)); [done|done|by rewrite loadBytes_length].
Qed.

(** Memory holds the initialised bytes of an object. *)
Definition holds (m : mem) (a : Z) (o : list (option Z)) : Prop := ∀ k b, o !! k = Some (Some b) → m (a + Z.of_nat k) = b.

Lemma holds_ext m m' a o : (∀ x, a <= x < a + Z.of_nat (length o) → m' x = m x) → holds m a o → holds m' a o.
Proof. intros Hx H k b Hk. pose proof (lookup_lt_Some _ _ _ Hk). rewrite Hx by lia. by apply H. Qed.

Lemma holds_uninit m a n : holds m a (uninit n).
Proof. intros k b [Hk _]%lookup_replicate. done. Qed.

Lemma holds_bytes m a l : holds (storeBytes m a l) a (Some <$> l).
Proof. intros k b Hk. rewrite list_lookup_fmap in Hk. destruct (l !! k) eqn:E; simplify_eq/=. by apply storeBytes_inside. Qed.

Lemma holds_take m a n o : holds m a o → holds m a (take n o).
Proof. intros H k b Hk. apply H. by apply lookup_take_Some in Hk as [? _]. Qed.

(** A write inside an object. *)
Lemma holds_write m a o off l : holds m a o → (off + length l <= length o)%nat →
  holds (storeBytes m (a + Z.of_nat off) l) a (take off o ++ (Some <$> l) ++ drop (off + length l) o).
Proof.
  intros H Hlen k b Hk. apply lookup_app_Some in Hk as [Hk|[Hge Hk]].
  { apply lookup_take_Some in Hk as [Hk Hlt]. rewrite storeBytes_outside by lia. by apply H. }
  rewrite length_take, Nat.min_l in Hge, Hk by lia. apply lookup_app_Some in Hk as [Hk|[Hge' Hk]].
  - rewrite list_lookup_fmap in Hk. destruct (l !! (k - off)%nat) eqn:E; simplify_eq/=.
    replace (a + Z.of_nat k) with (a + Z.of_nat off + Z.of_nat (k - off)) by lia. by apply storeBytes_inside.
  - rewrite length_fmap in Hge', Hk. rewrite lookup_drop in Hk. replace (off + length l + (k - off - length l))%nat with k in Hk by lia.
    rewrite storeBytes_outside by lia. by apply H.
Qed.

Lemma write_length {A} (o l : list A) off : (off + length l <= length o)%nat → length (take off o ++ l ++ drop (off + length l) o) = length o.
Proof. intros H. rewrite !length_app, length_take, length_drop. lia. Qed.

(** A read of initialised bytes. *)
Lemma holds_read m a o off len bytes : holds m a o → (off + len <= length o)%nat → mapM id (take len (drop off o)) = Some bytes →
  loadBytes m (a + Z.of_nat off) len = bytes.
Proof.
  intros H Hlen Hm%mapM_Some. apply list_eq. intros k. pose proof (Forall2_length Hm) as Hl.
  rewrite length_take, length_drop, Nat.min_l in Hl by lia. destruct (Nat.lt_ge_cases k len) as [Hk|Hk].
  - rewrite loadBytes_lookup by done. destruct (lookup_lt_is_Some_2 bytes k) as [b Hb]; [lia|]. rewrite Hb. f_equal.
    destruct (Forall2_lookup_r _ _ _ _ _ Hm Hb) as (x & Hx & Hxb). apply lookup_take_Some in Hx as [Hx _]. rewrite lookup_drop in Hx.
    cbn in Hxb. subst x. replace (a + Z.of_nat off + Z.of_nat k) with (a + Z.of_nat (off + k)) by lia. by apply H.
  - rewrite !(proj2 (lookup_ge_None _ _)); [done|lia|by rewrite loadBytes_length].
Qed.

(** ** Laws of a layout *)

Section Laws.
Context `{ABI : !StackABI}.

(** Linkage, result and arguments of a call area do not overlap. *)
Record areaLaws (s : site_abi) : Prop := {
  al_size : Frames.Size (SiteLayout s) mod FrameAlignment = 0 ∧ 16 <= Frames.Size (SiteLayout s);
  al_length : length (Frames.ArgOffsets (SiteLayout s)) = length (SiteArgs s);
  al_result n : SiteResult s = Some n →
    16 <= Frames.ResultOffset (SiteLayout s) ∧ Frames.ResultOffset (SiteLayout s) + Z.of_nat n <= Frames.Size (SiteLayout s);
  al_arg k off n : Frames.ArgOffsets (SiteLayout s) !! k = Some off → SiteArgs s !! k = Some n → 16 <= off ∧ off + Z.of_nat n <= Frames.Size (SiteLayout s);
  al_args j k off n off' n' : Frames.ArgOffsets (SiteLayout s) !! j = Some off → SiteArgs s !! j = Some n →
    Frames.ArgOffsets (SiteLayout s) !! k = Some off' → SiteArgs s !! k = Some n' → (j < k)%nat → off + Z.of_nat n <= off';
}.

(** The callee's view of an area. *)
Definition view (s : site_abi) (fn : fn_abi) : Prop :=
  FnResult fn = (λ n, (Frames.ResultOffset (SiteLayout s), n)) <$> SiteResult s ∧
  ∀ k off n, FnArgs fn !! k = Some (off, n) → Frames.ArgOffsets (SiteLayout s) !! k = Some off ∧ SiteArgs s !! k = Some n.

Record fnLaws (fn : fn_abi) : Prop := {
  fl_size : 0 <= FnFrameSize fn ∧ FnFrameSize fn mod FrameAlignment = 0 ∧ ReserveFloor + FnFrameSize fn <= RootFp;
  fl_slot i off k : FnSlots fn !! i = Some (off, k) → 0 <= off ∧ off + slotSize k <= FnFrameSize fn;
  fl_disjoint i j off k off' k' : FnSlots fn !! i = Some (off, k) → FnSlots fn !! j = Some (off', k') → i ≠ j →
    off + slotSize k <= off' ∨ off' + slotSize k' <= off;
  fl_handle i off e al : FnSlots fn !! i = Some (off, Handle e al) → 0 <= e ∧ powerOfTwo al ∧ al <= FiberStackSize;
}.

Class StackLaws : Prop := {
  law_stack : powerOfTwo FiberStackSize ∧ FiberStackSize < 2 ^ 32;
  law_base : 0 <= SliceBase ∧ SliceBase mod FiberStackSize = 0 ∧ SliceBase + 2 * FiberStackSize <= 2 ^ 64;
  law_align : powerOfTwo FrameAlignment ∧ 16 <= FrameAlignment <= FiberStackSize;
  law_floor : 0 <= TransientReserve ∧ TransientReserve <= ReserveFloor < RootFp ∧ RootFp < FiberStackSize ∧
    ReserveFloor mod FrameAlignment = 0 ∧ RootFp mod FrameAlignment = 0;
  law_fn f fn : managed f = Some fn → fnLaws fn;
  law_site f i s : callSite f i = Some s → areaLaws s ∧ TransientReserve + Frames.Size (SiteLayout s) <= ReserveFloor;
  law_root h j s f fn : rootSite h j = Some (s, f) → managed f = Some fn →
    areaLaws s ∧ RootFp + Frames.Size (SiteLayout s) <= FiberStackSize ∧ view s fn;
  law_accepts f i g s fn : accepts f i g = true → callSite f i = Some s → managed g = Some fn → view s fn;
  law_ids f i : 0 <= entryRegionId f < 2 ^ 32 ∧ 0 <= resumeRegionId f i < 2 ^ 32;
}.
End Laws.

(** ** Addresses of the slice *)

Section Slice.
Context `{ABI : !StackABI} `{Laws : !StackLaws}.

Lemma slice_offset x : 0 <= x < FiberStackSize → SliceOffset (SliceBase + x) = x.
Proof.
  intros Hx. destruct law_stack as [(k & Hk & Hs) _]. destruct law_base as (_ & Hm & _). unfold SliceOffset.
  rewrite Hs in *. rewrite Z.sub_1_r, <-Z.ones_equiv, Z.land_ones by done. rewrite Zplus_mod, Hm, Z.add_0_l, Zmod_mod. by apply Z.mod_small.
Qed.

Lemma stack_pointer x : 0 <= x < FiberStackSize → StackPtr x = SliceBase + x.
Proof.
  intros Hx. destruct law_stack as [(k & Hk & Hs) _]. unfold StackPtr. rewrite Hs in *.
  rewrite Z.sub_1_r, <-Z.ones_equiv, Z.land_ones by done. by rewrite Z.mod_small.
Qed.

Lemma frame_pointer a : SliceBase <= a < SliceBase + FiberStackSize → FramePointer a = a.
Proof.
  intros Ha. unfold FramePointer. destruct ArenaTier; [done|]. unfold StackPtr.
  change (Z.land a (FiberStackSize - 1)) with (SliceOffset a). replace a with (SliceBase + (a - SliceBase)) at 1 by lia.
  rewrite slice_offset by lia. lia.
Qed.

Lemma u64_addr a : 0 <= a → a <= SliceBase + FiberStackSize → u64 a = a.
Proof. intros H1 H2. apply wrap_small. destruct law_base as (_ & _ & ?). pose proof (pow2_gt0 _ (proj1 law_stack)). lia. Qed.

Lemma stack_pos : 0 < FiberStackSize.
Proof. apply pow2_gt0, law_stack. Qed.

Lemma base_aligned : SliceBase mod FrameAlignment = 0.
Proof.
  destruct law_base as (_ & Hm & _). destruct law_align as [Hp Hle]. pose proof stack_pos.
  eapply mod_divide_trans; [by apply pow2_gt0| |exact Hm|done]. apply pow2_divide; [done|apply law_stack|lia].
Qed.
End Slice.
