(* ===== verification/StackMachineInv.v ===== *)
(** * The simulation relation of the software stack

    Activations have a frame pointer and the addresses of their blocks; memory
    holds their objects and the linkage between them.  Each owns the bytes
    from its frontier to the end of its call area. *)

From Stdlib Require Import ZArith Lia.
From stdpp Require Import base numbers list gmap fin_maps option.
From S2P Require Import Prelude Bytes Frames FramesFacts StackMachine StackMachineFacts.

Import StackMachine.
Local Open Scope Z_scope.
Local Arguments loadLE : simpl never.
Local Arguments storeLE : simpl never.

(** Frame pointer, and for each block its address and the frontier below it. *)
Record geo := Geo { g_fp : Z; g_blocks : list (Z * Z) }.

Section Relation.
Context `{ABI : !StackABI} `{Laws : !StackLaws}.

Definition frameBase (fn : fn_abi) (g : geo) : Z := g_fp g - FnFrameSize fn.
(** The last frontier of a list of blocks. *)
Fixpoint lastNext (top : Z) (bs : list (Z * Z)) : Z := match bs with [] => top | (_, next) :: bs => lastNext next bs end.
(** The frontier when the first [n] blocks are live. *)
Definition frontierAt (fn : fn_abi) (g : geo) (n : nat) : Z := lastNext (frameBase fn g) (take n (g_blocks g)).
Definition frontier (fn : fn_abi) (g : geo) : Z := lastNext (frameBase fn g) (g_blocks g).

(** Blocks grow downwards, each below the one before. *)
Inductive carved : Z → list (Z * Z) → list (list (option Z)) → Prop :=
| carved_nil top : carved top [] []
| carved_cons top addr next bs o os :
    next <= top → next mod FrameAlignment = 0 → (o = [] ∨ (next <= addr ∧ addr + Z.of_nat (length o) <= top)) →
    carved next bs os → carved top ((addr, next) :: bs) (o :: os).

(** Saved frame pointer and return region. *)
Definition linkage (m : mem) (fp savedFp returnId : Z) : Prop :=
  loadLE m (fp + Frames.SavedFpOffset) 8 = savedFp ∧ loadLE m (fp + Frames.ReturnRegionIdOffset) 4 = returnId.

Record actR (m : mem) (fn : fn_abi) (a : act) (g : geo) : Prop := {
  ar_fp : g_fp g mod FrameAlignment = 0;
  ar_args k o : a_args a !! k = Some o → ∃ off, FnArgs fn !! k = Some (off, length o) ∧ holds m (g_fp g + off) o;
  ar_slots i o : a_slots a !! i = Some o → ∃ off, FnSlots fn !! i = Some (off, Object (length o)) ∧ holds m (frameBase fn g + off) o;
  ar_carved : carved (frameBase fn g) (g_blocks g) (a_blocks a);
  ar_blocks k addr next o : g_blocks g !! k = Some (addr, next) → a_blocks a !! k = Some o → holds m addr o;
  ar_handles i k : a_handles a !! i = Some k → ∃ off e al addr next, FnSlots fn !! i = Some (off, Handle e al) ∧
    g_blocks g !! k = Some (addr, next) ∧ loadLE m (frameBase fn g + off) 8 = addr ∧ addr mod al = 0;
  ar_saves i n : a_saves a !! i = Some n → (n <= length (a_blocks a))%nat ∧ ∃ off, FnSlots fn !! i = Some (off, Snapshot) ∧
    loadLE m (frameBase fn g + off) 8 = frontierAt fn g n;
  ar_static : dynamicSp fn = false → g_blocks g = [];
}.

(** The stack, top first.  The callee's area ends at the caller's frontier. *)
Inductive stackR (m : mem) (r : nat * nat) : list act → list geo → Prop :=
| stackR_root a g fn s :
    managed (a_fn a) = Some fn → rootSite r.1 r.2 = Some (s, a_fn a) → g_fp g = SliceBase + RootFp →
    linkage m (g_fp g) 0 RegionDone → actR m fn a g → stackR m r [a] [g]
| stackR_call a g fn b h fnb s rest gs :
    managed (a_fn a) = Some fn → managed (a_fn b) = Some fnb → callSite (a_fn b) (a_wait b) = Some s → view s fn →
    g_fp g + Frames.Size (SiteLayout s) = frontier fnb h → SliceBase + ReserveFloor <= frontier fnb h →
    linkage m (g_fp g) (g_fp h) (resumeRegionId (a_fn b) (a_wait b)) → actR m fn a g →
    stackR m r (b :: rest) (h :: gs) → stackR m r (a :: b :: rest) (g :: h :: gs).

(** ** Geometry *)

Lemma lastNext_app top bs addr next : lastNext top (bs ++ [(addr, next)]) = next.
Proof. revert top. induction bs as [|[? ?] bs IH]; intros top; cbn; auto. Qed.

Lemma carved_app top bs os addr next o : carved top bs os →
  next <= lastNext top bs → next mod FrameAlignment = 0 → (o = [] ∨ (next <= addr ∧ addr + Z.of_nat (length o) <= lastNext top bs)) →
  carved top (bs ++ [(addr, next)]) (os ++ [o]).
Proof. induction 1; cbn; intros Hn Hm Ho; constructor; auto. constructor. Qed.

Lemma carved_length top bs os : carved top bs os → length bs = length os.
Proof. induction 1; cbn; congruence. Qed.

Lemma carved_take top bs os n : carved top bs os → carved top (take n bs) (take n os).
Proof. intros H. revert n. induction H; intros [|n]; cbn; constructor; auto. Qed.

(** Every block is between the last frontier and the top. *)
Lemma carved_frontier top bs os : carved top bs os → lastNext top bs <= top.
Proof. induction 1; cbn; lia. Qed.

Lemma carved_aligned top bs os : top mod FrameAlignment = 0 → carved top bs os → lastNext top bs mod FrameAlignment = 0.
Proof. intros Ht. induction 1; cbn; auto. Qed.

Lemma carved_take_le top bs os n : carved top bs os → lastNext top bs <= lastNext top (take n bs).
Proof.
  intros H. revert n. induction H as [|top addr next bs o os H1 H2 H3 H4 IH]; intros [|n]; cbn; [done|done| |apply IH].
  pose proof (carved_frontier _ _ _ H4). lia.
Qed.

Lemma carved_bounds top bs os k addr next o : carved top bs os → bs !! k = Some (addr, next) → os !! k = Some o → o ≠ [] →
  lastNext top bs <= addr ∧ addr + Z.of_nat (length o) <= top.
Proof.
  intros H. revert k. induction H as [top|top addr' next' bs o' os H1 H2 H3 H4 IH]; intros k Hb Ho Hne; [done|].
  pose proof (carved_frontier _ _ _ H4) as Hf. cbn.
  destruct k as [|k]; simplify_eq/=; [destruct H3 as [?|[? ?]]; [done|lia]|]. destruct (IH k Hb Ho Hne). lia.
Qed.

(** Two blocks do not overlap. *)
Lemma carved_disjoint top bs os j k aj nj oj ak nk ok : carved top bs os → bs !! j = Some (aj, nj) → os !! j = Some oj →
  bs !! k = Some (ak, nk) → os !! k = Some ok → oj ≠ [] → ok ≠ [] → (j < k)%nat → ak + Z.of_nat (length ok) <= aj.
Proof.
  intros H. revert j k. induction H as [top|top addr next bs o os H1 H2 H3 H4 IH]; intros j k Hj Hoj Hk Hok Hnj Hnk Hlt; [done|].
  destruct k as [|k]; [lia|]. simpl in Hk, Hok. destruct j as [|j]; simplify_eq/=; [|eapply IH; eauto; lia].
  destruct (carved_bounds _ _ _ _ _ _ _ H4 Hk Hok Hnk). destruct H3 as [?|[? ?]]; [done|lia].
Qed.

Lemma frontier_le fn a g m : actR m fn a g → frontier fn g <= frameBase fn g.
Proof. intros H. eapply carved_frontier, ar_carved, H. Qed.

Lemma frontierAt_all fn g n : (length (g_blocks g) <= n)%nat → frontierAt fn g n = frontier fn g.
Proof. intros H. unfold frontierAt. by rewrite take_ge. Qed.

(** ** Framing *)

Definition ownEnd (fn : fn_abi) (g : geo) (size : Z) : Prop := ∀ k off n, FnArgs fn !! k = Some (off, n) → 0 <= off ∧ off + Z.of_nat n <= size.

Lemma view_ownEnd fn g s : areaLaws s → view s fn → ownEnd fn g (Frames.Size (SiteLayout s)).
Proof. intros Hs [_ Hv] k off n Hk. apply Hv in Hk as [H1 H2]. destruct (al_arg _ Hs k off n H1 H2). lia. Qed.

(** An activation only depends on its own bytes. *)
Lemma actR_frame m m' fn a g size : fnLaws fn → ownEnd fn g size → actR m fn a g →
  (∀ x, frontier fn g <= x < g_fp g + size → m' x = m x) → 0 <= size → actR m' fn a g.
Proof.
  intros Hfn Hend H Hx Hsize. pose proof (frontier_le _ _ _ _ H) as Hfr.
  assert (Hslot : ∀ i off k x, FnSlots fn !! i = Some (off, k) → frameBase fn g + off <= x < frameBase fn g + off + slotSize k → m' x = m x).
  { intros i off k x Hi Hr. destruct (fl_slot _ Hfn _ _ _ Hi). unfold frameBase in *. apply Hx. lia. }
  destruct H as [H1 H2 H3 H4 H5 H6 H7 H8]. constructor; try done.
  - intros k o Ho. destruct (H2 k o Ho) as (off & Hk & Hh). exists off. split; [done|]. eapply holds_ext; [|exact Hh].
    intros x Hr. destruct (Hend _ _ _ Hk). apply Hx. unfold frameBase in *. destruct (fl_size _ Hfn) as (? & _ & _). lia.
  - intros i o Ho. destruct (H3 i o Ho) as (off & Hi & Hh). exists off. split; [done|]. eapply holds_ext; [|exact Hh].
    intros x Hr. by eapply Hslot.
  - intros k addr next o Hb Ho. destruct o as [|x o]; [by intros k' b Hk|]. eapply holds_ext; [|by eapply H5]. intros y Hy.
    destruct (carved_bounds _ _ _ _ _ _ _ H4 Hb Ho) as [? ?]; [done|]. apply Hx. unfold frontier, frameBase in *. destruct (fl_size _ Hfn) as (? & _ & _). lia.
  - intros i k Hi. destruct (H6 i k Hi) as (off & e & al & addr & next & Hs & Hb & Hl & Ha). exists off, e, al, addr, next.
    split_and!; [done|done| |done]. rewrite <-Hl. apply loadLE_ext. intros x Hr. eapply Hslot; [exact Hs|cbn; lia].
  - intros i n Hi. destruct (H7 i n Hi) as (Hn & off & Hs & Hl). split; [done|]. exists off. split; [done|]. rewrite <-Hl. apply loadLE_ext.
    intros x Hr. eapply Hslot; [exact Hs|cbn; lia].
Qed.

Lemma linkage_frame m m' fp sfp rid : (∀ x, fp <= x < fp + 16 → m' x = m x) → linkage m fp sfp rid → linkage m' fp sfp rid.
Proof.
  unfold linkage, Frames.SavedFpOffset, Frames.ReturnRegionIdOffset. intros Hx [H1 H2].
  split; [rewrite <-H1|rewrite <-H2]; apply loadLE_ext; intros x Hr; apply Hx; lia.
Qed.

(** A stack only depends on the bytes above its frontier. *)
Lemma stackR_frame m m' r acts gs : stackR m r acts gs →
  (∀ a g fn x, head acts = Some a → head gs = Some g → managed (a_fn a) = Some fn → frontier fn g <= x → m' x = m x) → stackR m' r acts gs.
Proof.
  induction 1 as [a g fn s Hfn Hs Hfp Hl Ha|a g fn b h fnb s rest gs Hfn Hfnb Hs Hv Hg Hfl Hl Ha Hst IH]; intros Hx.
  - pose proof (law_fn _ _ Hfn) as Lf. destruct (law_root _ _ _ _ _ Hs Hfn) as (Ls & _ & Lv). pose proof (al_size _ Ls) as [_ ?].
    pose proof (frontier_le _ _ _ _ Ha). destruct (fl_size _ Lf) as (? & _ & _). unfold frameBase in *.
    econstructor; try done; [eapply linkage_frame; [|done]|eapply actR_frame; [done|by eapply view_ownEnd|done| |lia]];
      intros x Hr; apply (Hx a g fn); (done || lia).
  - pose proof (law_fn _ _ Hfn) as Lf. destruct (law_site _ _ _ Hs) as (Ls & _). pose proof (al_size _ Ls) as [_ ?].
    pose proof (frontier_le _ _ _ _ Ha). destruct (fl_size _ Lf) as (? & _ & _). unfold frameBase in *.
    eapply stackR_call; try done; [eapply linkage_frame; [|done]|eapply actR_frame; [done|by eapply view_ownEnd|done| |lia]|apply IH];
      [intros x Hr; apply (Hx a g fn); (done || lia)..|].
    cbn. intros a0 g0 fn0 x [= <-] [= <-] Hfn0 Hr. assert (fn0 = fnb) by congruence. subst fn0. apply (Hx a g fn); (done || lia).
Qed.

(** ** Changes of one activation *)

Definition argsAbove (fn : fn_abi) : Prop := ∀ k off n, FnArgs fn !! k = Some (off, n) → 16 <= off.
Definition argsApart (fn : fn_abi) : Prop := ∀ j k off n off' n', FnArgs fn !! j = Some (off, n) → FnArgs fn !! k = Some (off', n') →
  j ≠ k → off + Z.of_nat n <= off' ∨ off' + Z.of_nat n' <= off.

Lemma view_argsAbove fn s : areaLaws s → view s fn → argsAbove fn.
Proof. intros Hs [_ Hv] k off n Hk. apply Hv in Hk as [H1 H2]. by destruct (al_arg _ Hs _ _ _ H1 H2). Qed.

Lemma view_argsApart fn s : areaLaws s → view s fn → argsApart fn.
Proof.
  intros Hs [_ Hv] j k off n off' n' Hj Hk Hne. apply Hv in Hj as [H1 H2]. apply Hv in Hk as [H3 H4].
  destruct (Nat.lt_trichotomy j k) as [?|[?|?]]; [left; by eapply (al_args _ Hs j k)|done|right; by eapply (al_args _ Hs k j)].
Qed.

Lemma args_frame m m' fn (a : act) g : argsAbove fn → (∀ x, g_fp g <= x → m' x = m x) →
  (∀ k o, a_args a !! k = Some o → ∃ off, FnArgs fn !! k = Some (off, length o) ∧ holds m (g_fp g + off) o) →
  ∀ k o, a_args a !! k = Some o → ∃ off, FnArgs fn !! k = Some (off, length o) ∧ holds m' (g_fp g + off) o.
Proof.
  intros Habove Hx H k o Ho. destruct (H k o Ho) as (off & Hk & Hh). exists off. split; [done|]. eapply holds_ext; [|exact Hh].
  intros x Hr. apply Hx. specialize (Habove _ _ _ Hk). lia.
Qed.

Lemma blocks_frame m m' fn (a : act) g : carved (frameBase fn g) (g_blocks g) (a_blocks a) → (∀ x, x < frameBase fn g → m' x = m x) →
  (∀ k addr next o, g_blocks g !! k = Some (addr, next) → a_blocks a !! k = Some o → holds m addr o) →
  ∀ k addr next o, g_blocks g !! k = Some (addr, next) → a_blocks a !! k = Some o → holds m' addr o.
Proof.
  intros Hc Hx H k addr next o Hb Ho. destruct o as [|y o]; [by intros k' b Hk|]. eapply holds_ext; [|by eapply H].
  intros x Hr. destruct (carved_bounds _ _ _ _ _ _ _ Hc Hb Ho) as [? ?]; [done|]. apply Hx. lia.
Qed.

(** A change confined to one local slot. *)
Lemma actR_slot m m' fn a a' g i off k : fnLaws fn → argsAbove fn → actR m fn a g → FnSlots fn !! i = Some (off, k) →
  (∀ x, x < frameBase fn g + off ∨ frameBase fn g + off + slotSize k <= x → m' x = m x) →
  a_args a' = a_args a → a_blocks a' = a_blocks a →
  (∀ j, j ≠ i → a_slots a' !! j = a_slots a !! j ∧ a_handles a' !! j = a_handles a !! j ∧ a_saves a' !! j = a_saves a !! j) →
  (∀ o, a_slots a' !! i = Some o → k = Object (length o) ∧ holds m' (frameBase fn g + off) o) →
  (∀ n, a_handles a' !! i = Some n → ∃ e al addr next, k = Handle e al ∧ g_blocks g !! n = Some (addr, next) ∧
    loadLE m' (frameBase fn g + off) 8 = addr ∧ addr mod al = 0) →
  (∀ n, a_saves a' !! i = Some n → k = Snapshot ∧ (n <= length (a_blocks a))%nat ∧ loadLE m' (frameBase fn g + off) 8 = frontierAt fn g n) →
  actR m' fn a' g.
Proof.
  intros Hfn Habove [H1 H2 H3 H4 H5 H6 H7 H8] Hi Hx Ea Eb Eq Hs Hh Hv. destruct (fl_slot _ Hfn _ _ _ Hi).
  assert (0 <= slotSize k) by (destruct k; cbn; lia). destruct (fl_size _ Hfn) as (? & _).
  assert (Hother : ∀ j off' k' x, j ≠ i → FnSlots fn !! j = Some (off', k') → frameBase fn g + off' <= x < frameBase fn g + off' + slotSize k' → m' x = m x).
  { intros j off' k' x Hji Hj Hr. destruct (fl_disjoint _ Hfn _ _ _ _ _ _ Hj Hi Hji); apply Hx; lia. }
  constructor; rewrite ?Ea, ?Eb; try done.
  - intros q o Hq. eapply args_frame; [exact Habove| |exact H2|exact Hq]. intros x Hr. apply Hx. unfold frameBase. lia.
  - intros j o Hj. destruct (decide (j = i)) as [->|Hji]; [destruct (Hs o Hj) as [-> ?]; by exists off|].
    destruct (Eq j Hji) as (Ej & _). rewrite Ej in Hj. destruct (H3 j o Hj) as (off' & Hj' & Hho). exists off'. split; [done|].
    eapply holds_ext; [|exact Hho]. intros x Hr. by eapply (Hother j).
  - intros q addr next o Hb Hq. eapply blocks_frame; [exact H4| |exact H5|exact Hb|exact Hq]. intros x Hr. apply Hx. lia.
  - intros j n Hj. destruct (decide (j = i)) as [->|Hji]; [destruct (Hh n Hj) as (e & al & addr & next & -> & ?); by exists off, e, al, addr, next|].
    destruct (Eq j Hji) as (_ & Ej & _). rewrite Ej in Hj. destruct (H6 j n Hj) as (off' & e & al & addr & next & Hj' & Hb & Hl & Ha).
    exists off', e, al, addr, next. split_and!; [done|done| |done]. rewrite <-Hl. apply loadLE_ext. intros x Hr. eapply (Hother j); [done|done|cbn; lia].
  - intros j n Hj. destruct (decide (j = i)) as [->|Hji]; [destruct (Hv n Hj) as (-> & ? & ?); split; [done|by exists off]|].
    destruct (Eq j Hji) as (_ & _ & Ej). rewrite Ej in Hj. destruct (H7 j n Hj) as (Hn & off' & Hj' & Hl). split; [done|].
    exists off'. split; [done|]. rewrite <-Hl. apply loadLE_ext. intros x Hr. eapply (Hother j); [done|done|cbn; lia].
Qed.

(** Local slots are untouched by writes at or above the frame pointer, or
    below the frame. *)
Lemma actR_locals m m' fn a a' g : fnLaws fn → actR m fn a g →
  (∀ x, frameBase fn g <= x < g_fp g → m' x = m x) → a_slots a' = a_slots a → a_handles a' = a_handles a → a_saves a' = a_saves a →
  (∀ k o, a_args a' !! k = Some o → ∃ off, FnArgs fn !! k = Some (off, length o) ∧ holds m' (g_fp g + off) o) →
  carved (frameBase fn g) (g_blocks g) (a_blocks a') → length (a_blocks a') = length (a_blocks a) →
  (∀ k addr next o, g_blocks g !! k = Some (addr, next) → a_blocks a' !! k = Some o → holds m' addr o) → actR m' fn a' g.
Proof.
  intros Hfn [H1 H2 H3 H4 H5 H6 H7 H8] Hx Es Eh Ev Hargs Hc Hlen Hb.
  assert (Hslot : ∀ j off k x, FnSlots fn !! j = Some (off, k) → frameBase fn g + off <= x < frameBase fn g + off + slotSize k → m' x = m x).
  { intros j off k x Hj Hr. destruct (fl_slot _ Hfn _ _ _ Hj). apply Hx. unfold frameBase in *. lia. }
  constructor; rewrite ?Es, ?Eh, ?Ev, ?Hlen; try done.
  - intros i o Hi. destruct (H3 i o Hi) as (off & Hs & Hh). exists off. split; [done|]. eapply holds_ext; [|exact Hh]. intros x Hr. by eapply Hslot.
  - intros i k Hi. destruct (H6 i k Hi) as (off & e & al & addr & next & Hs & Hbk & Hl & Ha). exists off, e, al, addr, next.
    split_and!; [done|done| |done]. rewrite <-Hl. apply loadLE_ext. intros x Hr. eapply Hslot; [exact Hs|cbn; lia].
  - intros i n Hi. destruct (H7 i n Hi) as (Hn & off & Hs & Hl). split; [done|]. exists off. split; [done|]. rewrite <-Hl.
    apply loadLE_ext. intros x Hr. eapply Hslot; [exact Hs|cbn; lia].
Qed.

(** A write to a fixed argument. *)
Lemma actR_arg m m' fn a g k off o o' : fnLaws fn → argsAbove fn → argsApart fn → actR m fn a g → a_args a !! k = Some o →
  FnArgs fn !! k = Some (off, length o) → length o' = length o → holds m' (g_fp g + off) o' →
  (∀ x, x < g_fp g + off ∨ g_fp g + off + Z.of_nat (length o) <= x → m' x = m x) → actR m' fn (setObject a (PArg k) o') g.
Proof.
  intros Hfn Habove Hapart H Hk Hoff Hlen Hh Hx. pose proof (Habove _ _ _ Hoff). destruct (fl_size _ Hfn) as (? & _).
  eapply actR_locals; [done|exact H| |done|done|done| |apply H|done|].
  - intros x Hr. apply Hx. lia.
  - intros j oj Hj. cbn in Hj. destruct (decide (j = k)) as [->|Hjk].
    + rewrite list_lookup_insert_eq in Hj by (by eapply lookup_lt_Some). injection Hj as <-. exists off. by rewrite Hlen.
    + rewrite list_lookup_insert_ne in Hj by done. destruct (ar_args _ _ _ _ H j oj Hj) as (off' & Hj' & Hhj). exists off'. split; [done|].
      eapply holds_ext; [|exact Hhj]. intros x Hr. apply Hx. destruct (Hapart _ _ _ _ _ _ Hj' Hoff Hjk); lia.
  - eapply blocks_frame; [apply H| |apply H]. intros x Hr. apply Hx. unfold frameBase in *. lia.
Qed.

(** A write to a block. *)
Lemma actR_block m m' fn a g i n addr next o o' : fnLaws fn → argsAbove fn → actR m fn a g → a_handles a !! i = Some n →
  g_blocks g !! n = Some (addr, next) → a_blocks a !! n = Some o → length o' = length o → holds m' addr o' →
  (∀ x, x < addr ∨ addr + Z.of_nat (length o) <= x → m' x = m x) → actR m' fn (setObject a (PCarved i) o') g.
Proof.
  intros Hfn Habove H Hi Hb Ho Hlen Hh Hx. destruct (fl_size _ Hfn) as (? & _). pose proof (ar_carved _ _ _ _ H) as Hc.
  assert (Hend : ∀ x, frameBase fn g <= x → m' x = m x).
  { intros x Hr. apply Hx. destruct o as [|y o]; [cbn; lia|]. destruct (carved_bounds _ _ _ _ _ _ _ Hc Hb Ho) as [? ?]; [done|]. lia. }
  assert (Hc' : carved (frameBase fn g) (g_blocks g) (<[n := o']> (a_blocks a))).
  { clear -Hc Ho Hlen. revert n Ho. induction Hc as [|top addr next bs o1 os Ha Hb Hd He IH]; intros n Ho; [by constructor|].
    destruct n as [|n]; simplify_eq/=; constructor; auto. destruct Hd as [->|Hd]; [left; by apply length_zero_iff_nil|right; by rewrite Hlen]. }
  unfold setObject. rewrite Hi. eapply actR_locals; [done|exact H|intros x Hr; apply Hend; lia|done|done|done| |exact Hc'|apply length_insert|]; cbn.
  - eapply args_frame; [exact Habove| |apply H]. intros x Hr. apply Hend. unfold frameBase. lia.
  - intros k ak nk ok Hbk Hok. destruct (decide (k = n)) as [->|Hkn].
    + rewrite list_lookup_insert_eq in Hok by (by eapply lookup_lt_Some). by simplify_eq.
    + rewrite list_lookup_insert_ne in Hok by done. destruct ok as [|y ok]; [by intros ? ? ?|]. eapply holds_ext; [|by eapply (ar_blocks _ _ _ _ H)].
      intros x Hr. apply Hx. destruct o as [|z o]; [cbn; lia|].
      destruct (Nat.lt_trichotomy k n) as [?|[?|?]]; [|done|].
      * pose proof (carved_disjoint _ _ _ _ _ _ _ _ _ _ _ Hc Hbk Hok Hb Ho) as Hd. ospecialize (Hd _ _ _); [done|done|done|]. lia.
      * pose proof (carved_disjoint _ _ _ _ _ _ _ _ _ _ _ Hc Hb Ho Hbk Hok) as Hd. ospecialize (Hd _ _ _); [done|done|done|]. lia.
Qed.

(** Carving a new block. *)
Lemma frontierAt_app fn g b n : (n <= length (g_blocks g))%nat → frontierAt fn (Geo (g_fp g) (g_blocks g ++ [b])) n = frontierAt fn g n.
Proof. intros H. unfold frontierAt, frameBase. cbn. by rewrite take_app_le. Qed.

Lemma actR_push m fn a g addr next n : actR m fn a g → dynamicSp fn = true → next <= frontier fn g → next mod FrameAlignment = 0 →
  (n = O ∨ (next <= addr ∧ addr + Z.of_nat n <= frontier fn g)) →
  actR m fn (Act (a_fn a) (a_args a) (a_slots a) (a_blocks a ++ [uninit n]) (a_handles a) (a_saves a) (a_wait a)) (Geo (g_fp g) (g_blocks g ++ [(addr, next)])).
Proof.
  intros [H1 H2 H3 H4 H5 H6 H7 H8] Hdyn Hn Hm Hfit. pose proof (carved_length _ _ _ H4) as Hlen. constructor; cbn; try done.
  - apply carved_app; [done|done|done|]. destruct Hfit as [->|Hfit]; [by left|right]. unfold uninit. by rewrite length_replicate.
  - intros k ak nk o Hb Ho. destruct (Nat.lt_ge_cases k (length (a_blocks a))) as [Hk|Hk].
    + rewrite lookup_app_l in Hb by lia. rewrite lookup_app_l in Ho by lia. by eapply H5.
    + rewrite lookup_app_r in Ho by lia. destruct (k - length (a_blocks a))%nat eqn:E; simplify_eq/=. apply holds_uninit.
  - intros i k Hi. destruct (H6 i k Hi) as (off & e & al & ad & nx & Hs & Hb & Hl & Ha). exists off, e, al, ad, nx. split_and!; [done| |done|done].
    by apply lookup_app_l_Some.
  - intros i k Hi. destruct (H7 i k Hi) as (Hk & off & Hs & Hl). rewrite length_app. split; [lia|]. exists off. split; [done|].
    rewrite frontierAt_app by lia. done.
  - by rewrite Hdyn.
Qed.

(** Releasing the blocks made since a snapshot. *)
Lemma actR_release m fn a g n : actR m fn a g → (n <= length (a_blocks a))%nat →
  actR m fn (Act (a_fn a) (a_args a) (a_slots a) (take n (a_blocks a)) (filter (λ p, (p.2 < n)%nat) (a_handles a))
    (filter (λ p, (p.2 <= n)%nat) (a_saves a)) (a_wait a)) (Geo (g_fp g) (take n (g_blocks g))).
Proof.
  intros [H1 H2 H3 H4 H5 H6 H7 H8] Hn. pose proof (carved_length _ _ _ H4) as Hlen. constructor; cbn; try done.
  - by apply carved_take.
  - intros k ak nk o Hb Ho. apply lookup_take_Some in Hb as [Hb _]. apply lookup_take_Some in Ho as [Ho _]. by eapply H5.
  - intros i k Hi. apply map_lookup_filter_Some in Hi as [Hi Hk]. cbn in Hk. destruct (H6 i k Hi) as (off & e & al & ad & nx & Hs & Hb & Hl & Ha).
    exists off, e, al, ad, nx. split_and!; [done| |done|done]. by apply lookup_take_Some.
  - intros i k Hi. apply map_lookup_filter_Some in Hi as [Hi Hk]. cbn in Hk. destruct (H7 i k Hi) as (Hk' & off & Hs & Hl).
    rewrite length_take. split; [lia|]. exists off. split; [done|]. etransitivity; [exact Hl|]. unfold frontierAt, frameBase. cbn. by rewrite take_take, Nat.min_l by lia.
  - intros Hd. rewrite (H8 Hd). by destruct n.
Qed.
End Relation.
