(* ===== verification/StackMachineSim.v ===== *)
(** * Simulation of the operations

    Each operation of the call stack is matched by the emitted code. *)

From Stdlib Require Import ZArith Lia.
From stdpp Require Import base numbers list gmap fin_maps option.
From S2P Require Import Prelude Bytes Fiber Frames FramesFacts StackMachine StackMachineFacts StackMachineInv.

Import StackMachine.
Local Open Scope Z_scope.
Local Arguments loadLE : simpl never.
Local Arguments storeLE : simpl never.

Section Simulation.
Context `{ABI : !StackABI} `{Laws : !StackLaws}.

(** The call area of the top activation. *)
Definition topSite (r : nat * nat) (rest : list act) : option site_abi :=
  match rest with [] => fst <$> rootSite r.1 r.2 | b :: _ => callSite (a_fn b) (a_wait b) end.
Definition savedFp (gs : list geo) : Z := match gs with [] => 0 | h :: _ => g_fp h end.
Definition returnId (rest : list act) : Z := match rest with [] => RegionDone | b :: _ => resumeRegionId (a_fn b) (a_wait b) end.

(** What the stack relation says of its top. *)
Record topR (m : mem) (r : nat * nat) (a : act) (rest : list act) (g : geo) (gs : list geo) (fn : fn_abi) (s : site_abi) : Prop := {
  t_fn : managed (a_fn a) = Some fn;
  t_site : topSite r rest = Some s;
  t_area : areaLaws s;
  t_view : view s fn;
  t_laws : fnLaws fn;
  t_act : actR m fn a g;
  t_link : linkage m (g_fp g) (savedFp gs) (returnId rest);
  t_end : g_fp g + Frames.Size (SiteLayout s) <= SliceBase + FiberStackSize;
}.

Lemma stackR_end m r a rest g gs : stackR m r (a :: rest) (g :: gs) → g_fp g <= SliceBase + FiberStackSize.
Proof.
  revert a rest g. induction gs as [|h gs IH]; intros a rest g H; inversion H as [? ? fn s Hfn Hs Hfp|a' g' fn b h' fnb s rest' gs' Hfn Hfnb Hs Hv Hg Hfl Hl Ha Hst]; subst.
  - destruct (law_root _ _ _ _ _ Hs Hfn) as (Ls & Hle & _). destruct (al_size _ Ls). lia.
  - pose proof (IH _ _ _ Hst). destruct (law_site _ _ _ Hs) as (Ls & _). destruct (al_size _ Ls). destruct (fl_size _ (law_fn _ _ Hfnb)) as (? & _).
    assert (Hb : frontier fnb h <= frameBase fnb h).
    { inversion Hst as [? ? fn0 ? Hfn0 ? ? ? Hact|? ? fn0 ? ? ? ? ? ? Hfn0 ? ? ? ? ? ? Hact]; subst; assert (fn0 = fnb) by congruence; subst; by eapply frontier_le. }
    unfold frameBase in *. lia.
Qed.

Lemma stackR_top m r a rest g gs : stackR m r (a :: rest) (g :: gs) → ∃ fn s, topR m r a rest g gs fn s.
Proof.
  intros H. inversion H as [? ? fn s Hfn Hs Hfp Hl Ha|a' g' fn b h' fnb s rest' gs' Hfn Hfnb Hs Hv Hg Hfl Hl Ha Hst]; subst; exists fn, s.
  - destruct (law_root _ _ _ _ _ Hs Hfn) as (Ls & Hle & Lv). constructor; try done; [cbn; by rewrite Hs|by eapply law_fn|lia].
  - destruct (law_site _ _ _ Hs) as (Ls & _). constructor; try done; [by eapply law_fn|].
    pose proof (stackR_end _ _ _ _ _ _ Hst). destruct (fl_size _ (law_fn _ _ Hfnb)) as (? & _).
    assert (Hb : frontier fnb h' <= frameBase fnb h').
    { inversion Hst as [? ? fn0 ? Hfn0 ? ? ? Hact|? ? fn0 ? ? ? ? ? ? Hfn0 ? ? ? ? ? ? Hact]; subst; assert (fn0 = fnb) by congruence; subst; by eapply frontier_le. }
    unfold frameBase in *. lia.
Qed.

(** Replacing the top: the rest of the stack is above its area. *)
Lemma stackR_update m m' r a a' rest g g' gs fn s : stackR m r (a :: rest) (g :: gs) → topR m r a rest g gs fn s →
  a_fn a' = a_fn a → g_fp g' = g_fp g → actR m' fn a' g' →
  (∀ x, g_fp g <= x < g_fp g + 16 → m' x = m x) → (∀ x, g_fp g + Frames.Size (SiteLayout s) <= x → m' x = m x) →
  stackR m' r (a' :: rest) (g' :: gs).
Proof.
  intros H [Tf Ts Ta Tv Tl Tact Tk Te] Ea Eg Hact Hlink Habove. apply (linkage_frame _ m') in Tk; [|done].
  inversion H as [? ? fn' s' Hfn Hs Hfp Hl Ha|a1 g1 fn' b h' fnb s' rest' gs' Hfn Hfnb Hs Hv Hg Hfl Hl Ha Hst]; subst; simplify_eq.
  - cbn in Ts. rewrite Hs in Ts. cbn in Ts. simplify_eq. eapply stackR_root; [rewrite Ea; done|rewrite Ea; done|congruence|rewrite Eg; done|done].
  - cbn in Ts. rewrite Hs in Ts. simplify_eq. eapply (stackR_call _ _ a' g' fn b h' fnb s); try done; [by rewrite Ea|by rewrite Eg|by rewrite Eg|].
    eapply stackR_frame; [exact Hst|]. cbn. intros a0 g0 fn0 x [= <-] [= <-] Hfn0 Hr. assert (fn0 = fnb) by congruence. subst. apply Habove. lia.
Qed.

(** ** Addresses *)

(** The running function: its frame is claimed and its registers are right. *)
Record runs (c : cstate) (r : nat * nat) (a : act) (rest : list act) (g : geo) (gs : list geo) (fn : fn_abi) (s : site_abi) : Prop := {
  r_top : topR (c_mem c) r a rest g gs fn s;
  r_stack : stackR (c_mem c) r (a :: rest) (g :: gs);
  r_fp : c_fp c = g_fp g;
  r_floor : SliceBase + ReserveFloor <= frontier fn g;
  r_sp : dynamicSp fn || hasSetjmp fn = true → c_sp c = frontier fn g;
}.

Lemma runs_bounds c r a rest g gs fn s : runs c r a rest g gs fn s →
  SliceBase + ReserveFloor <= frontier fn g ∧ frontier fn g <= frameBase fn g ∧ frameBase fn g <= g_fp g ∧
  g_fp g + 16 <= SliceBase + FiberStackSize ∧ FramePointer (c_fp c) = g_fp g ∧ 0 <= SliceBase ∧ 0 <= ReserveFloor.
Proof.
  intros [[Tf Ts Ta Tv Tl Tact Tk Te] Hst Hfp Hfl Hsp]. destruct (al_size _ Ta). pose proof (frontier_le _ _ _ _ Tact).
  destruct (fl_size _ Tl) as (? & _). destruct law_base as (? & _). destruct law_floor as (? & ? & _). unfold frameBase in *.
  rewrite Hfp, frame_pointer by lia. lia.
Qed.

Lemma slot_address c r a rest g gs fn s i off k : runs c r a rest g gs fn s → FnSlots fn !! i = Some (off, k) →
  slotAddr fn c i = Some (frameBase fn g + off) ∧ 0 <= off ∧ frameBase fn g + off + slotSize k <= g_fp g.
Proof.
  intros Hr Hi. destruct (runs_bounds _ _ _ _ _ _ _ _ Hr) as (? & ? & ? & ? & Hf & ? & ?). pose proof (t_laws _ _ _ _ _ _ _ _ (r_top _ _ _ _ _ _ _ _ Hr)) as Tl.
  destruct (fl_slot _ Tl _ _ _ Hi). unfold slotAddr. rewrite Hi. cbn. rewrite Hf. assert (0 <= slotSize k) by (destruct k; cbn; lia).
  unfold frameBase in *. rewrite u64_addr by lia. split; [f_equal; lia|lia].
Qed.

Lemma arg_address c r a rest g gs fn s k off n : runs c r a rest g gs fn s → FnArgs fn !! k = Some (off, n) →
  argAddr fn c k = Some (g_fp g + off) ∧ 16 <= off ∧ off + Z.of_nat n <= Frames.Size (SiteLayout s).
Proof.
  intros Hr Hk. destruct (runs_bounds _ _ _ _ _ _ _ _ Hr) as (? & ? & ? & ? & Hf & ? & ?). destruct (r_top _ _ _ _ _ _ _ _ Hr) as [_ _ Ta [_ Tv] _ _ _ Te].
  pose proof (Tv _ _ _ Hk) as [H1' H2']. destruct (al_arg _ Ta _ _ _ H1' H2'). unfold argAddr. rewrite Hk. cbn. rewrite Hf.
  rewrite u64_addr by lia. split; [done|lia].
Qed.

(** A live object is at its place, inside the activation's own bytes and off
    the linkage. *)
Lemma place_address c r a rest g gs fn s p o : runs c r a rest g gs fn s → isPlace fn p = true → objectAt a p = Some o →
  ∃ addr, placeAddr fn c p = Some addr ∧ holds (c_mem c) addr o ∧
    (o ≠ [] → frontier fn g <= addr ∧ (addr + Z.of_nat (length o) <= g_fp g ∨ g_fp g + 16 <= addr) ∧
      addr + Z.of_nat (length o) <= g_fp g + Frames.Size (SiteLayout s)).
Proof.
  intros Hr Hp Ho. destruct (runs_bounds _ _ _ _ _ _ _ _ Hr) as (? & ? & ? & ? & _). destruct (r_top _ _ _ _ _ _ _ _ Hr) as [_ _ Ta _ Tl Tact _ Te].
  destruct (al_size _ Ta). destruct p as [i|k|i]; simpl in *.
  - destruct (ar_slots _ _ _ _ Tact i o Ho) as (off & Hi & Hh). destruct (slot_address _ _ _ _ _ _ _ _ _ _ _ Hr Hi) as (-> & ? & Hend). simpl in Hend.
    exists (frameBase fn g + off). split; [done|]. split; [done|]. intros _. lia.
  - destruct (ar_args _ _ _ _ Tact k o Ho) as (off & Hk & Hh). destruct (arg_address _ _ _ _ _ _ _ _ _ _ _ Hr Hk) as (-> & ? & ?).
    exists (g_fp g + off). split; [done|]. split; [done|]. intros _. lia.
  - destruct (a_handles a !! i) as [n|] eqn:Eh; [|done]. simpl in Ho. destruct (ar_handles _ _ _ _ Tact i n Eh) as (off & e & al & addr & next & Hi & Hb & Hl & _).
    destruct (slot_address _ _ _ _ _ _ _ _ _ _ _ Hr Hi) as (-> & _). unfold mbind, option_bind. rewrite Hl. exists addr. split; [done|].
    split; [by eapply (ar_blocks _ _ _ _ Tact)|]. intros Hne. destruct (carved_bounds _ _ _ _ _ _ _ (ar_carved _ _ _ _ Tact) Hb Ho Hne).
    unfold frontier in *. lia.
Qed.

(** ** The simulation relation *)

Definition resultAt (m : mem) (fp : Z) (s : site_abi) (v : option (list Z)) : Prop :=
  v = (n ← SiteResult s; Some (loadBytes m (fp + Frames.ResultOffset (SiteLayout s)) n)).

Definition sim (s : astate) (c : cstate) : Prop :=
  let r := a_root s in
  match a_control s with
  | Enter => ∃ a rest g gs fn, a_stack s = a :: rest ∧ managed (a_fn a) = Some fn ∧ stackR (c_mem c) r (a :: rest) (g :: gs) ∧
      c_fp c = g_fp g ∧ c_resume c = entryRegionId (a_fn a) ∧ g_blocks g = [] ∧ SliceBase + TransientReserve <= g_fp g
  | Body => ∃ a rest g gs fn t, a_stack s = a :: rest ∧ runs c r a rest g gs fn t
  | Suspended i => ∃ a rest g gs fn t, a_stack s = a :: rest ∧ runs c r a rest g gs fn t ∧ c_resume c = resumeRegionId (a_fn a) i
  | Back v => ∃ a rest g gs fn t, a_stack s = a :: rest ∧ managed (a_fn a) = Some fn ∧ callSite (a_fn a) (a_wait a) = Some t ∧
      stackR (c_mem c) r (a :: rest) (g :: gs) ∧ c_fp c = g_fp g ∧ SliceBase + ReserveFloor <= frontier fn g ∧
      c_resume c = resumeRegionId (a_fn a) (a_wait a) ∧
      c_sp c = frontier fn g - Frames.Size (SiteLayout t) + Frames.LinkageBytes ∧
      resultAt (c_mem c) (frontier fn g - Frames.Size (SiteLayout t)) t v
  | Done v => a_stack s = [] ∧ ∃ t f fn, rootSite r.1 r.2 = Some (t, f) ∧ managed f = Some fn ∧ c_resume c = RegionDone ∧
      resultAt (c_mem c) (SliceBase + RootFp) t v
  end.

(** Bytes outside the slice, and the transient reserve in it, are not written. *)
Definition untouched (m m' : mem) : Prop := ∀ x, x < SliceBase + TransientReserve ∨ SliceBase + FiberStackSize <= x → m' x = m x.

(** A step that continues or stops with the overflow outcome. *)
Definition steps (s' : astate) (e : events) (c : cstate) (r : cres) : Prop :=
  (∃ c', r = Running c' e ∧ sim s' c' ∧ untouched (c_mem c) (c_mem c')) ∨
  (∃ c', r = Overflow c' [] ∧ c_outcome c' = OutcomeValue CAPSULE_ERROR_STACK_OVERFLOW ∧ c_mem c' = c_mem c).

Lemma sim_runs c r a rest g gs fn : stackR (c_mem c) r (a :: rest) (g :: gs) → managed (a_fn a) = Some fn → c_fp c = g_fp g →
  SliceBase + ReserveFloor <= frontier fn g → (dynamicSp fn || hasSetjmp fn = true → c_sp c = frontier fn g) →
  sim (AState r (a :: rest) Body) c.
Proof.
  intros Hst Hfn Hfp Hfl Hsp. destruct (stackR_top _ _ _ _ _ _ Hst) as (fn' & s & Ht). assert (fn' = fn) by (destruct Ht; congruence). subst.
  exists a, rest, g, gs, fn, s. split; [done|]. by constructor.
Qed.

(** ** Entry *)

Lemma sim_enter s a rest c : sim s c → a_control s = Enter → a_stack s = a :: rest →
  steps (AState (a_root s) (a :: rest) Body) [] c (cstep (OEnter (a_fn a)) c).
Proof.
  intros Hsim Hc Hs. unfold sim in Hsim. rewrite Hc in Hsim. destruct Hsim as (a' & rest' & g & gs & fn & Hs' & Hfn & Hst & Hfp & Hre & Hb & Hlow).
  rewrite Hs in Hs'. injection Hs' as <- <-. unfold cstep. cbn [opFn]. rewrite Hfn. cbn [orStuck cbody]. rewrite Hre, Z.eqb_refl.
  destruct (stackR_top _ _ _ _ _ _ Hst) as (fn' & t & [Tf Ts Ta Tv Tl Tact Tk Te]). assert (fn' = fn) by congruence. subst.
  destruct law_floor as (? & ? & _). destruct law_base as (? & _). destruct (al_size _ Ta). destruct (fl_size _ Tl) as (? & _).
  unfold prologue. rewrite Hfp. replace (g_fp g) with (SliceBase + (g_fp g - SliceBase)) at 1 by lia. rewrite slice_offset by lia.
  destruct (Z.ltb_spec (g_fp g - SliceBase) (FnFrameSize fn + ReserveFloor)); [right; eexists; by split_and!|left].
  eexists. split; [done|]. split; [|done]. assert (Hfr : frontier fn g = g_fp g - FnFrameSize fn) by (unfold frontier; by rewrite Hb).
  eapply sim_runs; [exact Hst|done|done|lia|]. intros _. cbn. rewrite u64_addr by lia. by rewrite Hfr.
Qed.

(** ** Reads and writes *)

Lemma write_act c r a rest g gs fn s p o o' m' addr : runs c r a rest g gs fn s → isPlace fn p = true → objectAt a p = Some o →
  placeAddr fn c p = Some addr → length o' = length o → holds m' addr o' →
  (∀ x, x < addr ∨ addr + Z.of_nat (length o) <= x → m' x = c_mem c x) → actR m' fn (setObject a p o') g.
Proof.
  intros Hr Hp Ho Ha Hlen Hh Hx. destruct (r_top _ _ _ _ _ _ _ _ Hr) as [_ _ Ta Tv Tl Tact _ _].
  pose proof (view_argsAbove _ _ Ta Tv) as Habove. destruct p as [i|k|i]; cbn [objectAt placeAddr] in *.
  - destruct (ar_slots _ _ _ _ Tact i o Ho) as (off & Hi & _). destruct (slot_address _ _ _ _ _ _ _ _ _ _ _ Hr Hi) as (Hs & _). simplify_eq.
    eapply (actR_slot (c_mem c) _ _ a); [done|done|done|exact Hi|exact Hx|done|done| | | |]; cbn.
    + intros j Hj. by rewrite lookup_insert_ne by done.
    + intros o1. rewrite lookup_insert_eq. intros [= <-]. by rewrite Hlen.
    + intros n Hn. destruct (ar_handles _ _ _ _ Tact i n Hn) as (? & ? & ? & ? & ? & Hi' & _). simplify_eq.
    + intros n Hn. destruct (ar_saves _ _ _ _ Tact i n Hn) as (_ & ? & Hi' & _). simplify_eq.
  - destruct (ar_args _ _ _ _ Tact k o Ho) as (off & Hk & _). destruct (arg_address _ _ _ _ _ _ _ _ _ _ _ Hr Hk) as (Hs & _). simplify_eq.
    eapply (actR_arg (c_mem c)); try done. by eapply view_argsApart.
  - destruct (a_handles a !! i) as [n|] eqn:Eh; [|done]. cbn in Ho.
    destruct (ar_handles _ _ _ _ Tact i n Eh) as (off & e & al & ad & next & Hi & Hb & Hl & _).
    destruct (slot_address _ _ _ _ _ _ _ _ _ _ _ Hr Hi) as (Hs & _). rewrite Hs in Ha. unfold mbind, option_bind in Ha. rewrite Hl in Ha. simplify_eq.
    by eapply (actR_block (c_mem c)).
Qed.

Lemma sim_write c r a rest g gs fn s p o off bytes : runs c r a rest g gs fn s → isPlace fn p = true → objectAt a p = Some o →
  (off + length bytes <= length o)%nat →
  steps (AState r (setObject a p (take off o ++ (Some <$> bytes) ++ drop (off + length bytes) o) :: rest) Body) [] c
    (cbody fn (OWrite (a_fn a) p off bytes) c).
Proof.
  intros Hr Hp Ho Hlen. destruct (place_address _ _ _ _ _ _ _ _ _ _ Hr Hp Ho) as (addr & Ha & Hh & Hin). cbn [cbody]. rewrite Ha. cbn [orStuck].
  left. eexists. split; [done|]. set (m' := storeBytes (c_mem c) (addr + Z.of_nat off) bytes).
  assert (Hx : ∀ x, x < addr ∨ addr + Z.of_nat (length o) <= x → m' x = c_mem c x) by (intros x Hr'; apply storeBytes_outside; lia).
  destruct (r_top _ _ _ _ _ _ _ _ Hr) as [Tf Ts Ta Tv Tl Tact Tk Te]. destruct (runs_bounds _ _ _ _ _ _ _ _ Hr) as (? & ? & ? & ? & _ & ? & ?).
  destruct law_floor as (? & ? & _).
  assert (Hrange : ∀ x, x < frontier fn g ∨ g_fp g <= x < g_fp g + 16 ∨ g_fp g + Frames.Size (SiteLayout s) <= x → m' x = c_mem c x).
  { intros x Hr'. destruct o as [|y o]; [apply Hx; cbn; lia|]. destruct Hin as (? & ? & ?); [done|]. apply Hx. lia. }
  split; [|intros x Hr'; cbn; apply Hrange; lia].
  assert (Hact : actR m' fn (setObject a p (take off o ++ (Some <$> bytes) ++ drop (off + length bytes) o)) g).
  { eapply write_act; try done; [|by apply holds_write]. rewrite <-(length_fmap Some bytes) in *. by apply write_length. }
  assert (Hsame : a_fn (setObject a p (take off o ++ (Some <$> bytes) ++ drop (off + length bytes) o)) = a_fn a) by (destruct p; cbn; try case_match; done).
  eapply (sim_runs _ _ _ _ g gs fn); [|by rewrite Hsame|apply Hr|apply Hr|apply Hr].
  eapply (stackR_update (c_mem c)); [apply Hr|apply Hr|done|done|exact Hact| |]; intros x Hr'; apply Hrange; lia.
Qed.

Lemma sim_read c r a rest g gs fn s p o off len bytes : runs c r a rest g gs fn s → isPlace fn p = true → objectAt a p = Some o →
  (off + len <= length o)%nat → mapM id (take len (drop off o)) = Some bytes →
  steps (AState r (a :: rest) Body) [Some bytes] c (cbody fn (ORead (a_fn a) p off len) c).
Proof.
  intros Hr Hp Ho Hlen Hb. destruct (place_address _ _ _ _ _ _ _ _ _ _ Hr Hp Ho) as (addr & Ha & Hh & _). cbn [cbody]. rewrite Ha. cbn [orStuck].
  left. eexists. split; [by rewrite (holds_read _ _ _ _ _ _ Hh Hlen Hb)|]. split; [|done]. by exists a, rest, g, gs, fn, s.
Qed.
End Simulation.
