(* ===== verification/StackMachineCalls.v ===== *)
(** * Simulation of calls, returns and carving *)

From Stdlib Require Import ZArith Lia.
From stdpp Require Import base numbers list gmap fin_maps option.
From S2P Require Import Prelude Bytes Fiber Frames FramesFacts StackMachine StackMachineFacts StackMachineInv StackMachineSim.

Import StackMachine.
Local Open Scope Z_scope.
Local Arguments loadLE : simpl never.
Local Arguments storeLE : simpl never.

Section Calls.
Context `{ABI : !StackABI} `{Laws : !StackLaws}.

(** ** Arguments *)

Lemma actualObject_length a size x o : actualObject a size x = Some o → length o = size.
Proof.
  destruct x as [bytes|p]; simpl.
  - destruct ((length bytes =? size)%nat && _) eqn:E; [|done]. intros [= <-]. apply andb_true_iff in E as [E%Nat.eqb_eq _]. by rewrite length_fmap.
  - destruct (objectAt a p) as [ob|]; [|done]. simpl. destruct (Nat.leb_spec size (length ob)); [|done]. intros [= <-]. rewrite length_take. lia.
Qed.

Lemma actualObjects_lookup a sizes args objs : actualObjects a sizes args = Some objs →
  length objs = length sizes ∧ ∀ k o, objs !! k = Some o → sizes !! k = Some (length o).
Proof.
  revert args objs. induction sizes as [|n sizes IH]; intros [|x args] objs H; simplify_eq/=; [done|].
  destruct (actualObject a n x) as [o|] eqn:Ex; [|done]. simpl in H. destruct (actualObjects a sizes args) as [os|] eqn:Es; [|done]. simplify_eq/=.
  destruct (IH _ _ Es) as [Hl Hk]. split; [by rewrite Hl|]. intros [|k] o' Ho; simplify_eq/=; [by rewrite (actualObject_length _ _ _ _ Ex)|auto].
Qed.

(** The evaluation of an actual in a memory that agrees on the caller's bytes. *)
Definition evaluates (fn : fn_abi) (a : act) (c : cstate) (top : Z) (args : list actual) : Prop :=
  ∀ m1 n x o, x ∈ args → (∀ y, top <= y → m1 y = c_mem c y) → actualObject a n x = Some o →
    ∃ bytes, actualBytes fn (withMem m1 c) n x = Some bytes ∧ length bytes = n ∧ ∀ k b, o !! k = Some (Some b) → bytes !! k = Some b.

Lemma storeArguments_ok fn a c top out size : out + size <= top → ∀ offsets sizes args objs lo m1, evaluates fn a c top args →
  (∀ k off n, offsets !! k = Some off → sizes !! k = Some n → lo <= off ∧ off + Z.of_nat n <= size) →
  (∀ j k off n off' n', offsets !! j = Some off → sizes !! j = Some n → offsets !! k = Some off' → sizes !! k = Some n' → (j < k)%nat → off + Z.of_nat n <= off') →
  length offsets = length sizes → actualObjects a sizes args = Some objs → (∀ y, top <= y → m1 y = c_mem c y) →
  ∃ m2, StoreCallArguments fn out offsets sizes args (withMem m1 c) = Some (withMem m2 c) ∧
    (∀ y, y < out + lo ∨ out + size <= y → m2 y = m1 y) ∧
    ∀ k off o, offsets !! k = Some off → objs !! k = Some o → holds m2 (out + off) o.
Proof.
  intros Htop. induction offsets as [|off offsets IH]; intros [|n sizes] [|x args] objs lo m1 Hev Hin Hord Hlen Hobjs Hagree; simplify_eq/=.
  { exists m1. split_and!; [done|done|]. by intros k off o Ho. }
  destruct (actualObject a n x) as [o|] eqn:Ex; [|done]. simpl in Hobjs. destruct (actualObjects a sizes args) as [os|] eqn:Es; [|done]. simplify_eq/=.
  destruct (Hev m1 n x o) as (bytes & Hb & Hbl & Hbk); [by left|done|done|]. rewrite Hb. cbn [mbind option_bind withMem c_mem].
  destruct (Hin O off n eq_refl eq_refl) as [Hlo Hhi]. rewrite <-Hbl in Hhi.
  set (m' := storeBytes m1 (out + off) bytes).
  assert (Hm' : ∀ y, y < out + off ∨ out + off + Z.of_nat (length bytes) <= y → m' y = m1 y) by (intros y Hy; by apply storeBytes_outside).
  destruct (IH sizes args os (off + Z.of_nat n) m') as (m2 & Hst & Hout & Hh).
  - intros m n' x' o' Hx'. apply Hev. by right.
  - intros k off' n' Hk Hn. split; [eapply (Hord O (S k)); (done || lia)|by apply (Hin (S k))].
  - intros j k o1 n1 o2 n2 Hj Hnj Hk Hnk Hlt. eapply (Hord (S j) (S k)); try done. lia.
  - by simplify_eq/=.
  - done.
  - intros y Hy. rewrite Hm' by lia. by apply Hagree.
  - exists m2. split; [exact Hst|]. split.
    + intros y Hy. rewrite Hout by lia. apply Hm'. lia.
    + intros [|k] off' o' Ho Hobj; simplify_eq/=; [|by eapply Hh]. intros k b Hk. pose proof (Hbk k b Hk) as Hbk'. pose proof (lookup_lt_Some _ _ _ Hbk').
      rewrite Hout by lia. by apply storeBytes_inside.
Qed.

(** In the running function, actuals evaluate to their objects. *)
Lemma runs_evaluates c r a rest g gs fn s args : runs c r a rest g gs fn s → evaluates fn a c (frontier fn g) args.
Proof.
  intros Hr m1 n x o _ Hm Hx. destruct x as [bytes|p]; simpl in Hx.
  - destruct ((length bytes =? n)%nat && _) eqn:E; [|done]. injection Hx as <-. apply andb_true_iff in E as [E%Nat.eqb_eq _].
    exists bytes. split_and!; [done|done|]. intros k b Hk. rewrite list_lookup_fmap in Hk. destruct (bytes !! k); by simplify_eq/=.
  - destruct (objectAt a p) as [ob|] eqn:Ep; [|done]. simpl in Hx. destruct (Nat.leb_spec n (length ob)) as [Hn|]; [|done]. injection Hx as <-.
    assert (Hp : isPlace fn p = true).
    { destruct (r_top _ _ _ _ _ _ _ _ Hr) as [_ _ _ _ _ Tact _ _]. destruct p as [i|k|i]; simpl in *; [|done|].
      - by destruct (ar_slots _ _ _ _ Tact i ob Ep) as (off & -> & _).
      - destruct (a_handles a !! i) as [q|] eqn:Eh; [|done]. by destruct (ar_handles _ _ _ _ Tact i q Eh) as (off & e & al & ad & nx & -> & _). }
    assert (Hr' : runs (withMem m1 c) r a rest g gs fn s).
    { destruct Hr as [Htop Hst Hfp Hfl Hsp]. assert (Hst' : stackR m1 r (a :: rest) (g :: gs)).
      { eapply stackR_frame; [exact Hst|]. cbn. intros a0 g0 fn0 y [= <-] [= <-] Hfn0 Hy. destruct Htop. assert (fn0 = fn) by congruence. subst. by apply Hm. }
      constructor; try done. destruct (stackR_top _ _ _ _ _ _ Hst') as (fn' & s' & Ht'). destruct Htop, Ht'. simplify_eq. by constructor. }
    destruct (place_address _ _ _ _ _ _ _ _ _ _ Hr' Hp Ep) as (addr & Ha & Hh & _). simpl. rewrite Ha. eexists. split; [done|].
    split; [apply loadBytes_length|]. intros k b Hk. apply lookup_take_Some in Hk as [Hk Hkn].
    rewrite loadBytes_lookup by done. f_equal. by apply Hh.
Qed.

(** ** Calls *)

Lemma frontier_static fn a g m : actR m fn a g → dynamicSp fn = false → frontier fn g = g_fp g - FnFrameSize fn.
Proof. intros Ha Hd. unfold frontier. by rewrite (ar_static _ _ _ _ Ha Hd). Qed.

Lemma frontier_aligned fn a g m : fnLaws fn → actR m fn a g → frontier fn g mod FrameAlignment = 0.
Proof.
  intros Hfn Ha. eapply carved_aligned; [|apply Ha]. unfold frameBase. destruct (fl_size _ Hfn) as (_ & Hs & _).
  pose proof (ar_fp _ _ _ _ Ha) as Hfp. rewrite Zminus_mod, Hs, Hfp. done.
Qed.

Lemma actR_wait m fn a g i : actR m fn a g → actR m fn (Act (a_fn a) (a_args a) (a_slots a) (a_blocks a) (a_handles a) (a_saves a) i) g.
Proof. intros [H1 H2 H3 H4 H5 H6 H7 H8]. by constructor. Qed.

(** A fresh activation: only its arguments are in memory. *)
Lemma actR_fresh m f fn fp objs s : view s fn → fp mod FrameAlignment = 0 →
  (∀ k o, objs !! k = Some o → SiteArgs s !! k = Some (length o)) →
  length objs = length (SiteArgs s) → length (Frames.ArgOffsets (SiteLayout s)) = length (SiteArgs s) →
  (∀ k off o, Frames.ArgOffsets (SiteLayout s) !! k = Some off → objs !! k = Some o → holds m (fp + off) o) →
  actR m fn (fresh f fn (take (length (FnArgs fn)) objs)) (Geo fp []).
Proof.
  intros [_ Hv] Hfp Hsz Hlo Hls Hh. constructor; cbn; try done.
  - intros k o Hk. apply lookup_take_Some in Hk as [Hk Hlt]. destruct (lookup_lt_is_Some_2 _ _ Hlt) as [[off n] Hkn].
    destruct (Hv _ _ _ Hkn) as [Hoff Hn]. rewrite (Hsz _ _ Hk) in Hn. simplify_eq. exists off. split; [done|]. by eapply Hh.
  - intros i o Hi. rewrite lookup_omap in Hi. destruct (FnSlots fn !! i) as [[off k]|] eqn:Ei; [|done]. cbn in Hi. destruct k; simplify_eq/=.
    exists off. unfold uninit. rewrite length_replicate. split; [done|]. apply holds_uninit.
  - constructor.
Qed.

(** The two linkage stores. *)
Lemma linkage_stores m out v rid : 0 <= v < 2 ^ 64 → 0 <= rid < 2 ^ 32 →
  linkage (storeLE (storeLE m (out + Frames.SavedFpOffset) 8 v) (out + Frames.ReturnRegionIdOffset) 4 rid) out v rid.
Proof.
  unfold linkage, Frames.SavedFpOffset, Frames.ReturnRegionIdOffset. intros Hv Hr. split.
  - rewrite load_store_ne by lia. by apply load_store_eq.
  - by apply load_store_eq.
Qed.

Lemma linkage_stores_outside m out v rid x : x < out ∨ out + 16 <= x →
  storeLE (storeLE m (out + Frames.SavedFpOffset) 8 v) (out + Frames.ReturnRegionIdOffset) 4 rid x = m x.
Proof. unfold Frames.SavedFpOffset, Frames.ReturnRegionIdOffset. intros H. rewrite !storeLE_outside by lia. done. Qed.

Lemma sim_call c r a rest g gs fn s i q t callee args objs : runs c r a rest g gs fn s → accepts (a_fn a) i q = true →
  callSite (a_fn a) i = Some t → managed q = Some callee → actualObjects a (SiteArgs t) args = Some objs →
  steps (AState r (fresh q callee (take (length (FnArgs callee)) objs) ::
    Act (a_fn a) (a_args a) (a_slots a) (a_blocks a) (a_handles a) (a_saves a) i :: rest) Enter) [] c (cbody fn (OCall (a_fn a) i q args) c).
Proof.
  intros Hr Hacc Hsite Hq Hobjs. destruct (r_top _ _ _ _ _ _ _ _ Hr) as [Tf Ts Ta Tv Tl Tact Tk Te].
  destruct (runs_bounds _ _ _ _ _ _ _ _ Hr) as (B1 & B2 & B3 & B4 & Hfp & B5 & B6). destruct (law_site _ _ _ Hsite) as [La Lsz]. pose proof (al_size _ La) as [Lm L16].
  destruct law_floor as (F1 & F2 & _). pose proof (r_fp _ _ _ _ _ _ _ _ Hr) as Efp. pose proof (law_accepts _ _ _ _ _ Hacc Hsite Hq) as Lv.
  destruct law_base as (_ & _ & Hb64). pose proof stack_pos. set (cf := frontier fn g - Frames.Size (SiteLayout t)).
  cbn [cbody]. rewrite Hsite. cbn [orStuck]. unfold SuspendAtCall.
  assert (Hsp : (if dynamicSp fn then c_sp c else u64 (c_fp c - FnFrameSize fn)) = frontier fn g).
  { destruct (dynamicSp fn) eqn:Ed; [by apply (r_sp _ _ _ _ _ _ _ _ Hr); rewrite Ed|]. rewrite (frontier_static _ _ _ _ Tact Ed), Efp.
    unfold frameBase in *. by rewrite u64_addr by lia. }
  rewrite Hsp. assert (Hcf : u64 (frontier fn g - Frames.Size (SiteLayout t)) = cf) by (apply u64_addr; lia). rewrite Hcf.
  assert (Hout : (if dynamicSp fn then FramePointer cf else u64 (FramePointer (c_fp c) - (FnFrameSize fn + Frames.Size (SiteLayout t)))) = cf).
  { destruct (dynamicSp fn) eqn:Ed; [apply frame_pointer; lia|]. rewrite Hfp. unfold cf. rewrite (frontier_static _ _ _ _ Tact Ed). unfold frameBase in *.
    pose proof (frontier_static _ _ _ _ Tact Ed). rewrite u64_addr by lia. lia. }
  rewrite Hout. set (m1 := storeLE _ _ 4 _). destruct (actualObjects_lookup _ _ _ _ Hobjs) as [Hlo Hsz].
  assert (Hm1 : ∀ x, x < cf ∨ cf + 16 <= x → m1 x = c_mem c x) by (intros x Hx; unfold m1; by rewrite linkage_stores_outside).
  destruct (storeArguments_ok fn a c (frontier fn g) cf (Frames.Size (SiteLayout t))) with
    (offsets := Frames.ArgOffsets (SiteLayout t)) (sizes := SiteArgs t) (args := args) (objs := objs) (lo := 16) (m1 := m1) as (m2 & Hst & Hm2 & Hh);
    [lia|by eapply runs_evaluates|apply La|apply La|apply La|done|intros y Hy; apply Hm1; lia|].
  rewrite Hst. cbn [mbind option_bind orStuck]. left. eexists. split; [done|]. cbn [c_mem withMem].
  assert (Hsame : ∀ x, x < cf ∨ frontier fn g <= x → m2 x = c_mem c x) by (intros x Hx; rewrite Hm2 by lia; apply Hm1; lia).
  split; [|intros x Hx; apply Hsame; lia].
  exists (fresh q callee (take (length (FnArgs callee)) objs)), (Act (a_fn a) (a_args a) (a_slots a) (a_blocks a) (a_handles a) (a_saves a) i :: rest),
    (Geo cf []), (g :: gs), callee. cbn. split_and!; try done; [|lia].
  eapply stackR_call; cbn; try done; [lia| | |].
  - eapply (linkage_frame m1); [intros x Hx; apply Hm2; lia|]. rewrite <-Efp. apply linkage_stores; [rewrite Efp; lia|apply (law_ids (a_fn a) i)].
  - eapply actR_fresh; try done; [|apply La]. unfold cf. by rewrite Zminus_mod, (frontier_aligned _ _ _ _ Tl Tact), Lm.
  - eapply (stackR_update (c_mem c)); [apply Hr|apply Hr|done|done| | |].
    + apply actR_wait. eapply actR_frame; [done|exact (view_ownEnd _ _ _ Ta Tv)|exact Tact| |destruct (al_size _ Ta); lia]. intros x Hx. apply Hsame. lia.
    + intros x Hx. apply Hsame. lia.
    + intros x Hx. apply Hsame. destruct (al_size _ Ta). lia.
Qed.

(** ** Returns *)

Lemma sim_resume s a rest v c : sim s c → a_control s = Back v → a_stack s = a :: rest →
  steps (AState (a_root s) (a :: rest) Body) [v] c (cstep (OResume (a_fn a) (a_wait a)) c).
Proof.
  intros Hsim Hc Hs. unfold sim in Hsim. rewrite Hc in Hsim.
  destruct Hsim as (a' & rest' & g & gs & fn & t & Hs' & Hfn & Hsite & Hst & Hfp & Hfl & Hre & Hsp & Hres). rewrite Hs in Hs'. injection Hs' as <- <-.
  destruct (stackR_top _ _ _ _ _ _ Hst) as (fn' & ts & [Tf Ts Ta Tv Tl Tact Tk Te]). assert (fn' = fn) by congruence. subst fn'.
  destruct (law_site _ _ _ Hsite) as [La Lsz]. destruct (al_size _ La) as [_ L16]. destruct (al_size _ Ta) as [_ Ta16]. destruct law_floor as (F1 & F2 & _).
  destruct law_base as (B1 & _ & _). pose proof stack_pos. pose proof (frontier_le _ _ _ _ Tact) as Hle. destruct (fl_size _ Tl) as (Fs & _).
  unfold Frames.LinkageBytes, frameBase in *. unfold cstep. cbn [opFn]. rewrite Hfn. cbn [orStuck cbody]. rewrite Hsite. cbn [orStuck]. rewrite Hre, Z.eqb_refl.
  unfold ResumeAtCall, Frames.LinkageBytes. rewrite Hsp.
  assert (E1 : u64 (frontier fn g - Frames.Size (SiteLayout t) + 16 - 16) = frontier fn g - Frames.Size (SiteLayout t)) by (rewrite u64_addr; lia).
  rewrite E1. assert (E2 : (if dynamicSp fn then FramePointer (frontier fn g - Frames.Size (SiteLayout t))
      else u64 (FramePointer (c_fp c) - (FnFrameSize fn + Frames.Size (SiteLayout t)))) = frontier fn g - Frames.Size (SiteLayout t)).
  { destruct (dynamicSp fn) eqn:Ed; [apply frame_pointer; lia|]. pose proof (frontier_static _ _ _ _ Tact Ed). rewrite Hfp, frame_pointer by lia.
    rewrite u64_addr by lia. lia. }
  rewrite E2. left. eexists. split; [by rewrite Hres|]. split; [|done]. eapply (sim_runs _ _ _ _ g gs fn); [done|done|done|done|]. cbn.
  destruct (dynamicSp fn) eqn:Ed; cbn; [intros _; rewrite u64_addr by lia; lia|].
  intros ->. rewrite Hfp, (frontier_static _ _ _ _ Tact Ed). rewrite (frontier_static _ _ _ _ Tact Ed) in *. apply u64_addr; lia.
Qed.

Lemma sim_return c r a rest g gs fn s v : runs c r a rest g gs fn s → okResult (snd <$> FnResult fn) v = true →
  steps (AState r rest (match rest with [] => Done v | _ => Back v end)) [] c (cbody fn (OReturn (a_fn a) v) c).
Proof.
  intros Hr Hv. destruct (r_top _ _ _ _ _ _ _ _ Hr) as [Tf Ts Ta [Tvr Tva] Tl Tact Tk Te].
  destruct (runs_bounds _ _ _ _ _ _ _ _ Hr) as (B1 & B2 & B3 & B4 & Hfp & B5 & B6). destruct (al_size _ Ta) as [_ Ta16]. destruct law_floor as (F1 & F2 & _).
  cbn [cbody]. unfold LowerReturn. rewrite Hfp. set (m' := match v with Some _ => _ | None => _ end). left. eexists. split; [done|]. cbn [c_mem].
  assert (Hm : (∀ x, x < g_fp g + 16 ∨ g_fp g + Frames.Size (SiteLayout s) <= x → m' x = c_mem c x) ∧ resultAt m' (g_fp g) s v).
  { unfold resultAt, m'. rewrite Tvr in *. destruct (SiteResult s) as [n|] eqn:En, v as [v|]; simplify_eq/=; try done.
    destruct (al_result _ Ta n En) as [R1 R2]. apply andb_true_iff in Hv as [Hv%Nat.eqb_eq _]. subst n.
    split; [intros x Hx; apply storeBytes_outside; lia|]. by rewrite loadBytes_storeBytes. }
  destruct Hm as [Hm Hres]. split; [|intros x Hx; apply Hm; unfold frameBase in *; lia].
  apply (linkage_frame _ m') in Tk; [|intros x Hx; apply Hm; lia]. destruct Tk as [K1 K2].
  destruct rest as [|b rest]; cbn.
  - split; [done|]. cbn in Ts. destruct (rootSite r.1 r.2) as [[t f]|] eqn:Et; [|done]. simplify_eq/=.
    pose proof (r_stack _ _ _ _ _ _ _ _ Hr) as Hst. inversion Hst as [? ? fn' t' Hfn' Hs' Hg'|]; subst. rewrite Et in Hs'. simplify_eq.
    exists t', (a_fn a), fn. rewrite <-Hg'. by split_and!.
  - pose proof (r_stack _ _ _ _ _ _ _ _ Hr) as Hst. inversion Hst as [|? ? fn' ? h fnb t rest' gs' Hfn' Hfnb Hsite Hview Hg Hfl Hlk Hact Hst']; subst.
    cbn in Ts. rewrite Hsite in Ts. simplify_eq. exists b, rest, h, gs', fnb, s. cbn in *. split_and!; try done.
    + eapply stackR_frame; [exact Hst'|]. cbn. intros a0 g0 fn0 x [= <-] [= <-] Hfn0 Hx. assert (fn0 = fnb) by congruence. subst. apply Hm. lia.
    + rewrite (r_fp _ _ _ _ _ _ _ _ Hr). unfold Frames.LinkageBytes. rewrite u64_addr by lia. lia.
    + by replace (frontier fnb h - Frames.Size (SiteLayout s)) with (g_fp g) by lia.
Qed.

(** ** Carving *)

Lemma dynamicSp_slot fn i off k : FnSlots fn !! i = Some (off, k) → match k with Handle _ _ | Snapshot => True | _ => False end → dynamicSp fn = true.
Proof.
  intros Hi Hk. apply existsb_exists. exists (i, (off, k)). split; [by apply list_elem_of_In, elem_of_map_to_list|]. by destruct k.
Qed.

Lemma align_down x al : powerOfTwo al → al <= 2 ^ 64 → 0 <= x < 2 ^ 64 → Z.land x (carveMask al) = x - x mod al.
Proof.
  intros (k & Hk & ->) Hle Hx. apply land_align; [|done]. split; [done|]. apply (Z.pow_le_mono_r_iff 2); lia.
Qed.

(** The aligned block of a carving that passed its check. *)
Lemma carve_fits elem al count sp : let A := Z.max FrameAlignment al in
  0 < elem → powerOfTwo al → al <= FiberStackSize → 0 <= count → SliceBase + ReserveFloor <= sp < SliceBase + FiberStackSize →
  ((FiberStackSize / elem <? count) || (SliceOffset sp <? u64 (u64 (u64 (count * elem) + (A - 1)) + ReserveFloor))) = false →
  let next := Z.land (u64 (sp - u64 (count * elem))) (carveMask A) in
  u64 (count * elem) = count * elem ∧ SliceBase + ReserveFloor <= next ∧ next + count * elem <= sp ∧ next mod FrameAlignment = 0 ∧ next mod al = 0.
Proof.
  intros A He Hal Hle Hc Hsp Hcheck. destruct law_stack as [Hst H32]. destruct law_align as [Hfa [F16 Ffs]]. destruct law_base as (B1 & B2 & B3).
  destruct law_floor as (F1 & F2 & F3 & _). pose proof stack_pos. apply orb_false_iff in Hcheck as [C1 C2]. apply Z.ltb_ge in C1, C2.
  assert (Hneed : 0 <= count * elem <= FiberStackSize).
  { split; [nia|]. pose proof (Z.mul_div_le FiberStackSize elem He). nia. }
  assert (HA : powerOfTwo A) by (by apply pow2_max). pose proof (pow2_gt0 _ HA). assert (A <= FiberStackSize) by (unfold A; lia).
  assert (E1 : u64 (count * elem) = count * elem) by (apply wrap_small; lia). rewrite E1 in *.
  unfold u64 in C2. rewrite (wrap_small 64 (count * elem + (A - 1))) in C2 by lia. rewrite wrap_small in C2 by lia.
  replace sp with (SliceBase + (sp - SliceBase)) in C2 by lia. rewrite slice_offset in C2 by lia.
  rewrite u64_addr by lia. rewrite align_down by (done || lia). set (x := sp - count * elem) in *.
  pose proof (Z.mod_pos_bound x A). split; [done|]. split; [lia|]. split; [lia|].
  assert (HmodA : (x - x mod A) mod A = 0) by (rewrite Zminus_mod, Zmod_mod, Z.sub_diag; done).
  split; eapply (mod_divide_trans _ _ A); try done; try (apply pow2_gt0; done); apply pow2_divide; try done; unfold A; lia.
Qed.

Lemma zero_carve al sp : let A := Z.max FrameAlignment al in powerOfTwo al → al <= FiberStackSize →
  SliceBase + ReserveFloor <= sp < SliceBase + FiberStackSize →
  let addr := Z.land sp (carveMask A) in SliceBase <= addr <= sp ∧ addr mod al = 0.
Proof.
  intros A Hal Hle Hsp. destruct law_stack as [Hst H32]. destruct law_align as [Hfa [F16 Ffs]]. destruct law_base as (B1 & B2 & B3).
  destruct law_floor as (F1 & F2 & F3 & _). pose proof stack_pos. assert (HA : powerOfTwo A) by (by apply pow2_max). pose proof (pow2_gt0 _ HA).
  assert (A <= FiberStackSize) by (unfold A; lia). cbn. rewrite align_down by (done || lia).
  assert (HB : SliceBase mod A = 0) by (eapply mod_divide_trans; [done| |exact B2|done]; apply pow2_divide; done).
  assert (HmodA : (sp - sp mod A) mod A = 0) by (rewrite Zminus_mod, Zmod_mod, Z.sub_diag; done).
  pose proof (Z.mod_pos_bound sp A). split; [|eapply (mod_divide_trans _ _ A); [by apply pow2_gt0| |done|done]; apply pow2_divide; [done|done|unfold A; lia]].
  split; [|lia]. assert (Hs : sp mod A = (sp - SliceBase) mod A) by (rewrite Zminus_mod, HB, Z.sub_0_r, Zmod_mod; done).
  rewrite Hs. pose proof (Z.mod_le (sp - SliceBase) A). lia.
Qed.
End Calls.
