(* ===== verification/StackMachineProps.v ===== *)
(** * The software stack implements the call stack *)

From Stdlib Require Import ZArith Lia.
From stdpp Require Import base numbers list gmap fin_maps option.
From S2P Require Import Prelude Bytes Fiber Frames FramesFacts StackMachine StackMachineFacts StackMachineInv StackMachineSim StackMachineCalls.

Import StackMachine.
Local Open Scope Z_scope.
Local Arguments loadLE : simpl never.
Local Arguments storeLE : simpl never.

Section Steps.
Context `{ABI : !StackABI} `{Laws : !StackLaws}.

(** A store of a frontier or block address in the running frame's slot. *)
Lemma sim_slotStore c r a a' rest g g' gs fn s i off k v sp : runs c r a rest g gs fn s → FnSlots fn !! i = Some (off, k) → slotSize k = 8 →
  a_fn a' = a_fn a → g_fp g' = g_fp g → SliceBase + ReserveFloor <= frontier fn g' → (dynamicSp fn || hasSetjmp fn = true → sp = frontier fn g') →
  actR (storeLE (c_mem c) (frameBase fn g + off) 8 v) fn a' g' →
  sim (AState r (a' :: rest) Body) (withSp sp (withMem (storeLE (c_mem c) (frameBase fn g + off) 8 v) c)) ∧
  untouched (c_mem c) (storeLE (c_mem c) (frameBase fn g + off) 8 v).
Proof.
  intros Hr Hi Hk Ea Eg Hfl Hsp Hact. destruct (slot_address _ _ _ _ _ _ _ _ _ _ _ Hr Hi) as (_ & O1 & O2). rewrite Hk in O2.
  destruct (r_top _ _ _ _ _ _ _ _ Hr) as [Tf Ts Ta Tv Tl Tact Tk Te]. destruct (runs_bounds _ _ _ _ _ _ _ _ Hr) as (B1 & B2 & B3 & B4 & _ & B5 & B6).
  destruct law_floor as (F1 & F2 & _). destruct (al_size _ Ta) as [_ Ta16]. set (m' := storeLE _ _ 8 v) in *.
  assert (Hm : ∀ x, x < frameBase fn g ∨ g_fp g <= x → m' x = c_mem c x) by (intros x Hx; apply storeLE_outside; lia).
  split; [|intros x Hx; apply Hm; lia]. eapply (sim_runs _ _ _ _ g' gs fn); [|by rewrite Ea|by rewrite Eg; apply Hr|done|done].
  eapply (stackR_update (c_mem c)); [apply Hr|apply Hr|done|done|done| |]; intros x Hx; apply Hm; lia.
Qed.

(** The activation after a carving. *)
Definition carvedAct (a : act) (i n : nat) : act :=
  Act (a_fn a) (a_args a) (a_slots a) (a_blocks a ++ [uninit n]) (<[i := length (a_blocks a)]> (a_handles a)) (a_saves a) (a_wait a).

Lemma sim_carve c r a rest g gs fn s i off e al addr next n : runs c r a rest g gs fn s → FnSlots fn !! i = Some (off, Handle e al) →
  SliceBase + ReserveFloor <= next <= frontier fn g → next mod FrameAlignment = 0 → addr mod al = 0 → 0 <= addr < 2 ^ 64 →
  (n = O ∨ (next <= addr ∧ addr + Z.of_nat n <= frontier fn g)) →
  sim (AState r (carvedAct a i n :: rest) Body) (withSp next (withMem (storeLE (c_mem c) (frameBase fn g + off) 8 addr) c)) ∧
  untouched (c_mem c) (storeLE (c_mem c) (frameBase fn g + off) 8 addr).
Proof.
  intros Hr Hi Hnext Hmod Hal Haddr Hfit. destruct (r_top _ _ _ _ _ _ _ _ Hr) as [Tf Ts Ta Tv Tl Tact Tk Te].
  assert (Hdyn : dynamicSp fn = true) by by eapply dynamicSp_slot.
  pose proof (actR_push _ _ _ _ addr next n Tact Hdyn (proj2 Hnext) Hmod Hfit) as Hpush. pose proof (carved_length _ _ _ (ar_carved _ _ _ _ Tact)) as Hlen.
  set (a1 := Act _ _ _ _ (a_handles a) _ _) in Hpush. set (g' := Geo (g_fp g) (g_blocks g ++ [(addr, next)])) in *.
  assert (Hfr : frontier fn g' = next) by apply lastNext_app.
  eapply (sim_slotStore c r a (carvedAct a i n) rest g g'); [done|exact Hi|done|done|done|rewrite Hfr; lia|intros _; by rewrite Hfr|].
  eapply (actR_slot (c_mem c) _ fn a1 (carvedAct a i n) g' i off); [done|by eapply view_argsAbove|done|exact Hi| |done|done| | | |].
  - intros x Hx. apply storeLE_outside. exact Hx.
  - intros j Hj. cbn. by rewrite lookup_insert_ne by done.
  - intros o Ho. cbn in Ho. destruct (ar_slots _ _ _ _ Tact i o Ho) as (? & Hi' & _). simplify_eq.
  - intros q Hq. cbn in Hq. rewrite lookup_insert_eq in Hq. injection Hq as <-. exists e, al, addr, next. split_and!; try done.
    + cbn. rewrite lookup_app_r by lia. by rewrite Hlen, Nat.sub_diag.
    + by apply load_store_eq.
  - intros q Hq. cbn in Hq. destruct (ar_saves _ _ _ _ Tact i q Hq) as (_ & ? & Hi' & _). simplify_eq.
Qed.

Lemma sim_alloca c r a rest g gs fn s i off e al count : runs c r a rest g gs fn s → FnSlots fn !! i = Some (off, Handle e al) → 0 <= count < 2 ^ 64 →
  steps (AState r (carvedAct a i (Z.to_nat (e * count)) :: rest) Body) [] c (cbody fn (OAlloca (a_fn a) i count) c).
Proof.
  intros Hr Hi Hcount. destruct (r_top _ _ _ _ _ _ _ _ Hr) as [Tf Ts Ta Tv Tl Tact Tk Te]. destruct (slot_address _ _ _ _ _ _ _ _ _ _ _ Hr Hi) as (Haddr & _).
  destruct (runs_bounds _ _ _ _ _ _ _ _ Hr) as (B1 & B2 & B3 & B4 & _ & B5 & B6). destruct (fl_handle _ Tl _ _ _ _ Hi) as (He & Hp & Hle).
  assert (Hdyn : dynamicSp fn = true) by by eapply dynamicSp_slot. assert (Hsp : c_sp c = frontier fn g) by (apply Hr; by rewrite Hdyn).
  destruct law_base as (_ & _ & B64). pose proof stack_pos. destruct law_floor as (F1 & F2 & _).
  cbn [cbody]. rewrite Hi, Haddr. unfold LowerDynamicAlloca. rewrite Hsp. destruct (Z.eqb_spec e 0) as [->|Hne].
  - destruct (zero_carve al (frontier fn g)) as [Z1 Z2]; [done|done|lia|]. rewrite frame_pointer by lia.
    left. eexists. split; [done|]. cbn [c_mem withMem]. replace (Z.to_nat (0 * count)) with O by lia.
    destruct (sim_carve c r a rest g gs fn s i off 0 al (Z.land (frontier fn g) (carveMask (Z.max FrameAlignment al))) (frontier fn g) 0) as [S1 S2];
      [done|done|lia|by eapply frontier_aligned|done|lia|by left|]. split; [|done]. destruct c; cbn in *. by subst.
  - destruct ((_ <? count) || _) eqn:Eck; [right; eexists; by split_and!|]. left. eexists. split; [done|]. cbn [c_mem withMem withSp].
    destruct (carve_fits e al count (frontier fn g)) as (C1 & C2 & C3 & C4 & C5); [lia|done|done|lia|lia|exact Eck|].
    assert (0 <= count * e) by nia. set (next := Z.land _ _) in *.
    rewrite frame_pointer by lia. apply (sim_carve c r a rest g gs fn s i off e al next next); [exact Hr|exact Hi|lia|exact C4|exact C5|lia|right; lia].
Qed.

Lemma sim_save c r a rest g gs fn s i off : runs c r a rest g gs fn s → FnSlots fn !! i = Some (off, Snapshot) →
  steps (AState r (Act (a_fn a) (a_args a) (a_slots a) (a_blocks a) (a_handles a) (<[i := length (a_blocks a)]> (a_saves a)) (a_wait a) :: rest) Body)
    [] c (cbody fn (OSave (a_fn a) i) c).
Proof.
  intros Hr Hi. destruct (r_top _ _ _ _ _ _ _ _ Hr) as [Tf Ts Ta Tv Tl Tact Tk Te]. destruct (slot_address _ _ _ _ _ _ _ _ _ _ _ Hr Hi) as (Haddr & _).
  assert (Hdyn : dynamicSp fn = true) by by eapply dynamicSp_slot. assert (Hsp : c_sp c = frontier fn g) by (apply Hr; by rewrite Hdyn).
  destruct (runs_bounds _ _ _ _ _ _ _ _ Hr) as (B1 & B2 & B3 & B4 & _ & B5 & B6). destruct law_base as (_ & _ & B64). pose proof stack_pos.
  cbn [cbody]. rewrite Haddr. cbn [orStuck]. unfold saveStack. rewrite Hsp. left. eexists. split; [done|]. cbn [c_mem withMem].
  set (a' := Act _ _ _ _ _ (<[i := _]> _) _).
  destruct (sim_slotStore c r a a' rest g g gs fn s i off Snapshot (frontier fn g) (c_sp c)) as [S1 S2];
    [done|exact Hi|done|done|done|apply Hr|by intros _| |split; [by destruct c|done]].
  eapply (actR_slot (c_mem c) _ fn a a' g i off); [done|by eapply view_argsAbove|done|exact Hi| |done|done| | | |].
  - intros x Hx. apply storeLE_outside. exact Hx.
  - intros j Hj. cbn. by rewrite lookup_insert_ne by done.
  - intros o Ho. cbn in Ho. destruct (ar_slots _ _ _ _ Tact i o Ho) as (? & Hi' & _). simplify_eq.
  - intros q Hq. cbn in Hq. destruct (ar_handles _ _ _ _ Tact i q Hq) as (? & ? & ? & ? & ? & Hi' & _). simplify_eq.
  - intros q Hq. cbn in Hq. rewrite lookup_insert_eq in Hq. injection Hq as <-. split; [done|]. split; [lia|].
    rewrite frontierAt_all by (by rewrite (carved_length _ _ _ (ar_carved _ _ _ _ Tact))). apply load_store_eq. change (256 ^ Z.of_nat 8) with (2 ^ 64). lia.
Qed.

Lemma sim_restore c r a rest g gs fn s i n : runs c r a rest g gs fn s → a_saves a !! i = Some n →
  steps (AState r (Act (a_fn a) (a_args a) (a_slots a) (take n (a_blocks a)) (filter (λ p, (p.2 < n)%nat) (a_handles a))
    (filter (λ p, (p.2 <= n)%nat) (a_saves a)) (a_wait a) :: rest) Body) [] c (cbody fn (ORestore (a_fn a) i) c).
Proof.
  intros Hr Hn. destruct (r_top _ _ _ _ _ _ _ _ Hr) as [Tf Ts Ta Tv Tl Tact Tk Te]. destruct (ar_saves _ _ _ _ Tact i n Hn) as (Hle & off & Hi & Hl).
  destruct (slot_address _ _ _ _ _ _ _ _ _ _ _ Hr Hi) as (Haddr & _). cbn [cbody]. rewrite Haddr. cbn [orStuck]. unfold restoreStack. rewrite Hl.
  left. eexists. split; [done|]. split; [|done].
  assert (Hfr : frontier fn (Geo (g_fp g) (take n (g_blocks g))) = frontierAt fn g n) by done.
  eapply (sim_runs _ _ _ _ (Geo (g_fp g) (take n (g_blocks g))) gs fn); [|done|apply Hr| |done].
  - eapply (stackR_update (c_mem c)); [apply Hr|apply Hr|done|done|by apply actR_release|done|done].
  - rewrite Hfr. pose proof (carved_take_le _ _ _ n (ar_carved _ _ _ _ Tact)). pose proof (r_floor _ _ _ _ _ _ _ _ Hr). unfold frontier, frontierAt in *. lia.
Qed.

Lemma sim_suspend c r a rest g gs fn s i yield : runs c r a rest g gs fn s →
  steps (AState r (a :: rest) (Suspended i)) [] c (cbody fn (OSuspend (a_fn a) i yield) c).
Proof.
  intros Hr. left. eexists. split; [done|]. split; [|done]. exists a, rest, g, gs, fn, s. split; [done|]. split; [|done]. destruct Hr. by constructor.
Qed.

Lemma sim_continue s a rest i c : sim s c → a_control s = Suspended i → a_stack s = a :: rest →
  steps (AState (a_root s) (a :: rest) Body) [] c (cstep (OContinue (a_fn a) i) c).
Proof.
  intros Hsim Hc Hs. unfold sim in Hsim. rewrite Hc in Hsim. destruct Hsim as (a' & rest' & g & gs & fn & t & Hs' & Hr & Hre).
  rewrite Hs in Hs'. injection Hs' as <- <-. unfold cstep. cbn [opFn]. rewrite (t_fn _ _ _ _ _ _ _ _ (r_top _ _ _ _ _ _ _ _ Hr)). cbn [orStuck cbody].
  rewrite Hre, Z.eqb_refl. left. eexists. split; [done|]. unfold continue.
  split; [|by destruct (_ =? _)]. exists a, rest, g, gs, fn, t. split; [done|]. destruct Hr, (_ =? _); by constructor.
Qed.

Lemma sim_result s v c : sim s c → a_control s = Done v → steps s [v] c (cstep (OResult (a_root s).1 (a_root s).2) c).
Proof.
  intros Hsim Hc. pose proof Hsim as Hsim'. unfold sim in Hsim. rewrite Hc in Hsim. destruct Hsim as (Hs & t & f & fn & Ht & Hfn & Hre & Hres).
  cbn [cstep]. rewrite Ht. cbn [orStuck]. rewrite Hre, Z.eqb_refl. left. exists c. split; [|by split]. do 2 f_equal. rewrite Hres. unfold rootResult. cbn [fst].
  destruct (SiteResult t) as [[|n]|] eqn:En; [done| |done]. cbn [mbind option_bind]. do 2 f_equal. destruct (law_root _ _ _ _ _ Ht Hfn) as (Ls & Hle & _).
  destruct (al_result _ Ls _ En) as [R1 R2]. destruct law_floor as (F1 & F2 & F3 & _). rewrite stack_pointer by lia. lia.
Qed.

(** ** Every step *)

Lemma sim_body s a rest o s' e c : sim s c → a_control s = Body → a_stack s = a :: rest → abody (a_root s) a rest o = Some (s', e) →
  steps s' e c (cstep o c).
Proof.
  intros Hsim Hc Hs Ha. unfold sim in Hsim. rewrite Hc in Hsim. destruct Hsim as (a' & rest' & g & gs & fn & t & Hs' & Hr).
  rewrite Hs in Hs'. injection Hs' as <- <-. pose proof (t_fn _ _ _ _ _ _ _ _ (r_top _ _ _ _ _ _ _ _ Hr)) as Hfn.
  unfold abody in Ha. rewrite Hfn in Ha. cbn [mbind option_bind] in Ha.
  destruct o as [f|f p off bytes|f p off len|f i q args|f i|f v|f i count|f i|f i|f i yield|f i|h j]; try done; unfold cstep; cbn [opFn].
  - case_guard as Hg; [cbn [mret option_ret mbind option_bind] in Ha|done]. destruct Hg as (-> & Hp & _). rewrite Hfn. cbn [orStuck]. destruct (objectAt a p) as [o|] eqn:Eo; [|done]. cbn in Ha.
    case_guard; [|done]. simplify_eq/=. by eapply sim_write.
  - case_guard as Hg; [cbn [mret option_ret mbind option_bind] in Ha|done]. destruct Hg as (-> & Hp). rewrite Hfn. cbn [orStuck]. destruct (objectAt a p) as [o|] eqn:Eo; [|done]. cbn in Ha.
    case_guard; [|done]. cbn in Ha. destruct (mapM id _) as [bytes|] eqn:Eb; [|done]. simplify_eq/=. by eapply sim_read.
  - case_guard as Hg; [cbn [mret option_ret mbind option_bind] in Ha|done]. destruct Hg as (-> & Hacc). rewrite Hfn. cbn [orStuck]. cbn in Ha. destruct (callSite (a_fn a) i) as [si|] eqn:Esi; [|done].
    cbn in Ha. destruct (managed q) as [callee|] eqn:Eq; [|done]. cbn in Ha. destruct (actualObjects a (SiteArgs si) args) as [objs|] eqn:Eo; [|done].
    simplify_eq/=. by eapply sim_call.
  - case_guard as Hg; [cbn [mret option_ret mbind option_bind] in Ha|done]. destruct Hg as (-> & Hv). rewrite Hfn. cbn [orStuck]. simplify_eq/=. by eapply sim_return.
  - case_guard as Hg; [cbn [mret option_ret mbind option_bind] in Ha|done]. destruct Hg as (-> & Hcount). rewrite Hfn. cbn [orStuck]. cbn in Ha. destruct (FnSlots fn !! i) as [[off k]|] eqn:Ei; [|done].
    cbn in Ha. destruct k; try done. simplify_eq. by eapply sim_alloca.
  - case_guard as Hg; [cbn [mret option_ret mbind option_bind] in Ha|done]. subst. rewrite Hfn. cbn [orStuck]. cbn in Ha. destruct (FnSlots fn !! i) as [[off k]|] eqn:Ei; [|done].
    cbn in Ha. destruct k; try done. simplify_eq. by eapply sim_save.
  - case_guard as Hg; [cbn [mret option_ret mbind option_bind] in Ha|done]. subst. rewrite Hfn. cbn [orStuck]. cbn in Ha. destruct (a_saves a !! i) as [n|] eqn:En; [|done]. simplify_eq/=. by eapply sim_restore.
  - case_guard as Hg; [cbn [mret option_ret mbind option_bind] in Ha|done]. subst. rewrite Hfn. cbn [orStuck]. simplify_eq/=. by eapply sim_suspend.
Qed.

Lemma sim_step s o s' e c : sim s c → astep o s = Some (s', e) → steps s' e c (cstep o c).
Proof.
  intros Hsim Ha. unfold astep in Ha. destruct (a_control s) as [| |v|i|v] eqn:Ec, (a_stack s) as [|a rest] eqn:Es; try done.
  - destruct o; try done. case_guard as Hg; [cbn [mret option_ret mbind option_bind] in Ha|done]. simplify_eq/=. by apply sim_enter.
  - by eapply sim_body.
  - destruct o; try done. case_guard as Hg; [cbn [mret option_ret mbind option_bind] in Ha|done]. destruct Hg as [-> ->]. simplify_eq/=. by apply sim_resume.
  - destruct o; try done. case_guard as Hg; [cbn [mret option_ret mbind option_bind] in Ha|done]. destruct Hg as [-> ->]. simplify_eq/=. by eapply sim_continue.
  - destruct o; try done. case_guard as Hg; [cbn [mret option_ret mbind option_bind] in Ha|done]. simplify_eq/=. destruct (a_root s') as [h' j'] eqn:Er; simplify_eq.
    pose proof (sim_result s' v c Hsim Ec) as Hres. by rewrite Er in Hres.
Qed.

(** A run that continues, or stops at an overflow after the same events. *)
Definition runsTo (s' : astate) (e : events) (c : cstate) (r : cres) : Prop :=
  (∃ c', r = Running c' e ∧ sim s' c' ∧ untouched (c_mem c) (c_mem c')) ∨
  (∃ c' e1 e2, r = Overflow c' e1 ∧ e = e1 ++ e2 ∧ c_outcome c' = OutcomeValue CAPSULE_ERROR_STACK_OVERFLOW ∧ untouched (c_mem c) (c_mem c')).

Lemma sim_run ops : ∀ s s' e c, sim s c → arun ops s = Some (s', e) → runsTo s' e c (crun ops c).
Proof.
  induction ops as [|o ops IH]; intros s s' e c Hsim Ha; simpl in Ha; [simplify_eq; left; by exists c|].
  destruct (astep o s) as [[s1 e1]|] eqn:E1; [|done]. simpl in Ha. destruct (arun ops s1) as [[s2 e2]|] eqn:E2; [|done]. simplify_eq/=.
  destruct (sim_step _ _ _ _ _ Hsim E1) as [(c1 & -> & Hs1 & Hu1)|(c1 & -> & Ho & Hm)].
  2:{ right. exists c1, [], (e1 ++ e2). split_and!; try done. intros x _. by rewrite Hm. }
  destruct (IH _ _ _ _ Hs1 E2) as [(c2 & -> & Hs2 & Hu2)|(c2 & p1 & p2 & -> & -> & Ho & Hu2)].
  - left. exists c2. split_and!; try done. intros x Hx. rewrite Hu2 by done. by apply Hu1.
  - right. exists c2, (e1 ++ p1), p2. split_and!; try done; [by rewrite app_assoc|]. intros x Hx. rewrite Hu2 by done. by apply Hu1.
Qed.

(** ** From the boundary *)

Lemma root_evaluates f fn c top args : evaluates (FnABI 0 ∅ [] None) (fresh f fn []) c top (map AValue args).
Proof.
  intros m1 n x o (bytes & -> & _)%list_elem_of_fmap _ Hx. simpl in Hx. destruct ((length bytes =? n)%nat && _) eqn:E; [|done]. injection Hx as <-.
  apply andb_true_iff in E as [E%Nat.eqb_eq _]. exists bytes. split_and!; [done|done|]. intros k b Hk. rewrite list_lookup_fmap in Hk.
  destruct (bytes !! k); by simplify_eq/=.
Qed.

Lemma root_entry h j t f args returnSize c0 a0 : rootSite h j = Some (t, f) → initial h j t f args = Some a0 →
  ∃ c1, RewriteEntryCall t returnSize (entryRegionId f) args c0 = Some c1 ∧ sim a0 c1 ∧ untouched (c_mem c0) (c_mem c1) ∧
    c_returnSize c1 = returnSize ∧ ∃ c2, cstep (OEnter f) c1 = Running c2 [].
Proof.
  intros Hroot Hinit. unfold initial in Hinit. destruct (managed f) as [fn|] eqn:Hfn; [|done]. cbn [mbind option_bind] in Hinit.
  destruct (actualObjects _ _ _) as [objs|] eqn:Hobjs; [|done]. cbn [mbind option_bind] in Hinit. injection Hinit as <-.
  destruct (law_root _ _ _ _ _ Hroot Hfn) as (La & Lend & Lv). destruct (al_size _ La) as [Lm L16]. destruct law_floor as (F1 & F2 & F3 & F4 & F5).
  destruct law_base as (B1 & _ & B3). pose proof stack_pos. pose proof (law_fn _ _ Hfn) as Lf. destruct (fl_size _ Lf) as (Fs & _ & Froom).
  unfold RewriteEntryCall. rewrite stack_pointer by lia. set (out := SliceBase + RootFp). set (m1 := storeLE _ _ 4 _).
  assert (Hm1 : ∀ x, x < out ∨ out + 16 <= x → m1 x = c_mem c0 x) by (intros x Hx; unfold m1; by rewrite linkage_stores_outside).
  destruct (actualObjects_lookup _ _ _ _ Hobjs) as [Hlo Hsz]. set (c0' := withOutcome 0 c0) in *.
  destruct (storeArguments_ok (FnABI 0 ∅ [] None) (fresh f fn []) (withMem m1 c0') (out + Frames.Size (SiteLayout t)) out (Frames.Size (SiteLayout t))) with
    (offsets := Frames.ArgOffsets (SiteLayout t)) (sizes := SiteArgs t) (args := map AValue args) (objs := objs) (lo := 16) (m1 := m1) as (m2 & Hst & Hm2 & Hh);
    [lia|apply root_evaluates|apply La|apply La|apply La|done|done|].
  assert (Hst' : StoreCallArguments (FnABI 0 ∅ [] None) out (Frames.ArgOffsets (SiteLayout t)) (SiteArgs t) (map AValue args) (withMem m1 c0') = Some (withMem m2 c0')) by exact Hst.
  rewrite Hst'. cbn [mbind option_bind]. eexists. split; [done|].
  assert (Hsim : sim (AState (h, j) [fresh f fn (take (length (FnArgs fn)) objs)] Enter) (CState m2 (entryRegionId f) out out 0 returnSize)).
  { exists (fresh f fn (take (length (FnArgs fn)) objs)), [], (Geo out []), [], fn. split_and!; try done; [|cbn; lia].
    eapply (stackR_root _ _ _ (Geo out [])); [exact Hfn|exact Hroot|done| |].
    - eapply (linkage_frame m1); [intros x Hx; apply Hm2; cbn in *; lia|]. apply linkage_stores; unfold RegionDone; lia.
    - eapply actR_fresh; try done; [|apply La]. unfold out. by rewrite Zplus_mod, base_aligned, F5. }
  split; [exact Hsim|]. split; [intros x Hx; cbn; rewrite Hm2 by lia; apply Hm1; lia|]. split; [done|].
  unfold cstep. cbn [opFn]. rewrite Hfn. cbn [orStuck cbody c_resume]. rewrite Z.eqb_refl. unfold prologue. cbn [c_fp]. unfold out.
  rewrite slice_offset by lia. destruct (Z.ltb_spec RootFp (FnFrameSize fn + ReserveFloor)); [lia|]. by eexists.
Qed.

(** A run of the call stack from a boundary call, on the software stack. *)
Lemma software_stack_run h j t f args returnSize c0 a0 ops s e : rootSite h j = Some (t, f) → initial h j t f args = Some a0 → arun ops a0 = Some (s, e) →
  ∃ c1, RewriteEntryCall t returnSize (entryRegionId f) args c0 = Some c1 ∧ c_returnSize c1 = returnSize ∧
    (∃ c2, cstep (OEnter f) c1 = Running c2 []) ∧ runsTo s e c0 (crun ops c1).
Proof.
  intros Hroot Hinit Hrun. destruct (root_entry _ _ _ _ _ returnSize c0 _ Hroot Hinit) as (c1 & H1 & Hsim & Hu & Hrs & Henter).
  exists c1. split_and!; try done. destruct (sim_run _ _ _ _ _ Hsim Hrun) as [(c2 & H2 & Hs & Hu2)|(c2 & e1 & e2 & H2 & -> & Ho & Hu2)].
  - left. exists c2. split_and!; try done. intros x Hx. rewrite Hu2 by done. by apply Hu.
  - right. exists c2, e1, e2. split_and!; try done. intros x Hx. rewrite Hu2 by done. by apply Hu.
Qed.
End Steps.
