(* ===== verification/RegionIds.v ===== *)
(** * Region identifiers ([stackify.cpp])

    Allocation units are assigned to physical steps and every entry and resume
    state gets the packed identifier the dispatch decodes: the step in the low
    eight bits, a local index above it. *)

From Stdlib Require Import ZArith Lia.
From stdpp Require Import base numbers list gmap sets fin_maps sorting.
From S2P Require Import Prelude.

Module RegionIds.
Local Open Scope Z_scope.

(** A continuation state with its provisional identifier. *)
Record state := State { st_id : nat; st_entry : bool }.

Record alloc_unit := AllocUnit { u_states : list state; u_load : Z }.

Inductive error := StepCount | LocalCount | DuplicateId | NotContiguous | Unassigned.

Definition STEP_BITS : Z := 8.
Definition STEP_MASK : Z := Z.shiftl 1 STEP_BITS - 1.
Definition TOKEN_DISPLACEMENT : Z := Z.shiftl 1 32.

(** ** Physical roots *)

(** The first least loaded root. *)
Definition leastLoaded (loads : list Z) : nat :=
  foldl (λ best root, if nth root loads 0 <? nth best loads 0 then root else best) O (seq 1 (pred (length loads))).

(** [assignRoots]: the output root of each unit. *)
Fixpoint assignLoop (units : list alloc_unit) (loads : list Z) : list nat :=
  match units with
  | [] => []
  | u :: units =>
      let best := leastLoaded loads in
      best :: assignLoop units (<[best := u64 (nth best loads 0 + u_load u)]> loads)
  end.

Definition assignRoots (units : list alloc_unit) (roots : nat) : list nat :=
  if (roots =? 0)%nat then replicate (length units) O else assignLoop units (replicate roots 0).

(** ** Packing *)

(** Scalar units first; [None] physical roots share one step. *)
Record config := Config { scalarUnits : list alloc_unit; borrowedUnits : list alloc_unit; scalarRoots : nat; borrowedRoots : nat }.

Definition stepsOf (units : list alloc_unit) (roots : nat) : nat := match units with [] => O | _ => Nat.max 1 roots end.
Definition scalarSteps (c : config) : nat := stepsOf (scalarUnits c) (scalarRoots c).
Definition stepCount (c : config) : nat := scalarSteps c + stepsOf (borrowedUnits c) (borrowedRoots c).

(** [StepForUnit] of every unit, in order. *)
Definition StepForUnit (c : config) : list nat :=
  (if (scalarRoots c =? 0)%nat then replicate (length (scalarUnits c)) O else assignRoots (scalarUnits c) (scalarRoots c)) ++
  (Nat.add (scalarSteps c) <$> (if (borrowedRoots c =? 0)%nat then replicate (length (borrowedUnits c)) O else assignRoots (borrowedUnits c) (borrowedRoots c))).

(** The order of a unit's states: entries first, then by provisional number. *)
Definition stateLe (a b : state) : Prop :=
  if eqb (st_entry a) (st_entry b) then (st_id a <= st_id b)%nat else st_entry a = true.

#[global] Instance stateLe_dec a b : Decision (stateLe a b).
Proof. unfold stateLe. destruct (eqb _ _); apply _. Defined.

Definition sortStates (l : list state) : list state := merge_sort stateLe l.

(** The identifiers so far and the next local index of each step. *)
Record packing := Packing { packed : gmap nat Z; nextIndex : list Z }.

Definition packState (step : nat) (s : state) (p : packing) : result error packing :=
  let local := nth step (nextIndex p) 0 in
  let next := <[step := local + 1]> (nextIndex p) in
  if Z.shiftl 1 16 <=? local then Err LocalCount
  else
    let id := Z.lor (Z.shiftl local STEP_BITS) (Z.of_nat step) in
    match packed p !! st_id s with
    | Some _ => Err DuplicateId
    | None => Ok (Packing (<[st_id s := id]> (packed p)) next)
    end.

Definition packUnit (us : alloc_unit * nat) (p : packing) : result error packing :=
  let '(u, step) := us in
  let first := nth step (nextIndex p) 0 in
  p ← foldM (packState step) (sortStates (u_states u)) p;
  if nth step (nextIndex p) 0 - first =? Z.of_nat (length (u_states u)) then Ok p else Err NotContiguous.

Definition rewriteId (p : packing) (id : nat) : result error Z :=
  match packed p !! id with Some x => Ok x | None => Err Unassigned end.

(** The uses to rewrite: entries of managed functions, their states, the
    states of regions, and the stores still live. *)
Record uses := Uses { m_entries : list nat; m_states : list nat; r_states : list nat; live_stores : list nat }.

Fixpoint rewriteIds (p : packing) (l : list nat) : result error (list Z) :=
  match l with [] => Ok [] | i :: l => x ← rewriteId p i; xs ← rewriteIds p l; Ok (x :: xs) end.

Definition PackRegionIds (c : config) (u : uses) : result error (gmap nat Z) :=
  if (stepCount c =? 0)%nat || (STEP_MASK + 1 <? Z.of_nat (stepCount c)) then Err StepCount
  else
    p ← foldM packUnit (zip (scalarUnits c ++ borrowedUnits c) (StepForUnit c)) (Packing ∅ (replicate (stepCount c) 1));
    _ ← rewriteIds p (m_entries u);
    _ ← rewriteIds p (m_states u);
    _ ← rewriteIds p (r_states u);
    _ ← rewriteIds p (live_stores u);
    Ok (packed p).

(** The step and the region the dispatch selects. *)
Definition dispatchStep (id : Z) : Z := Z.land id STEP_MASK.
Definition dispatchIndex (id : Z) : Z := Z.shiftr id STEP_BITS.

(** A function's token, and [CalleeRegionId] of an indirect call. *)
Definition functionToken (window id : Z) : Z := u64 (window + TOKEN_DISPLACEMENT + id).
Definition CalleeRegionId (token : Z) : Z := u32 token.
End RegionIds.
