(* ===== verification/RegionIdsFacts.v ===== *)
(** * Packed identifiers are dispatchable

    Identifiers are distinct, name their step, and are neither the idle nor
    the completed word. *)

From Stdlib Require Import ZArith Lia.
From stdpp Require Import base numbers list gmap sets fin_maps sorting.
From S2P Require Import Prelude RegionIds.

Import RegionIds.
Local Open Scope Z_scope.

(** ** Roots *)

Lemma leastLoaded_lt loads : loads ≠ [] → (leastLoaded loads < length loads)%nat.
Proof.
  intros Hne. unfold leastLoaded. assert (Hl : (0 < length loads)%nat) by (destruct loads; [done|cbn; lia]).
  apply (foldl_invariant _ (λ _ best, (best < length loads)%nat)); [done|]. intros pre x b [post Heq] Hb. case_match; [|done].
  assert (Hx : x ∈ seq 1 (pred (length loads))) by (rewrite Heq, elem_of_app, elem_of_cons; auto). apply elem_of_seq in Hx. lia.
Qed.

Lemma assignLoop_ok units : ∀ loads, loads ≠ [] → length (assignLoop units loads) = length units ∧ Forall (λ r, (r < length loads)%nat) (assignLoop units loads).
Proof.
  induction units as [|u units IH]; intros loads Hne; cbn; [done|]. set (l' := <[_ := _]> loads).
  assert (Hl : length l' = length loads) by apply length_insert. destruct (IH l') as [H1 H2]; [intros E; rewrite E in Hl; destruct loads; done|].
  rewrite Hl in H2. split; [by rewrite H1|]. constructor; [by apply leastLoaded_lt|done].
Qed.

Lemma assignRoots_ok units roots : length (assignRoots units roots) = length units ∧ Forall (λ r, (r < Nat.max 1 roots)%nat) (assignRoots units roots).
Proof.
  unfold assignRoots. destruct (Nat.eqb_spec roots 0) as [->|Hne].
  - split; [apply length_replicate|]. apply Forall_replicate. lia.
  - destruct (assignLoop_ok units (replicate roots 0)) as [H1 H2]; [destruct roots; done|]. split; [done|].
    eapply Forall_impl; [exact H2|]. cbn. intros r. rewrite length_replicate. lia.
Qed.

Lemma steps_ok c : length (StepForUnit c) = length (scalarUnits c ++ borrowedUnits c) ∧ Forall (λ s, (s < stepCount c)%nat) (StepForUnit c).
Proof.
  assert (H : ∀ units roots, length (if (roots =? 0)%nat then replicate (length units) O else assignRoots units roots) = length units ∧
    Forall (λ r, (r < stepsOf units roots)%nat) (if (roots =? 0)%nat then replicate (length units) O else assignRoots units roots)).
  { intros units roots. assert (Heq : (if (roots =? 0)%nat then replicate (length units) O else assignRoots units roots) = assignRoots units roots)
      by (unfold assignRoots; by destruct (roots =? 0)%nat).
    rewrite Heq. destruct (assignRoots_ok units roots) as [H1 H2]. split; [done|]. destruct units as [|u units]; [|done].
    destruct (assignRoots [] roots); [constructor|done]. }
  destruct (H (scalarUnits c) (scalarRoots c)) as [A1 A2]. destruct (H (borrowedUnits c) (borrowedRoots c)) as [B1 B2].
  unfold StepForUnit, stepCount, scalarSteps in *. rewrite !length_app, length_fmap, A1, B1. split; [done|]. apply Forall_app. split.
  - eapply Forall_impl; [exact A2|]. cbn. lia.
  - apply Forall_fmap. eapply Forall_impl; [exact B2|]. cbn. lia.
Qed.

(** ** Identifiers *)

Definition encode (local : Z) (step : nat) : Z := local * 256 + Z.of_nat step.

Lemma pack_encode local step : 0 <= local → (step < 256)%nat → Z.lor (Z.shiftl local STEP_BITS) (Z.of_nat step) = encode local step.
Proof.
  intros Hl Hs. unfold STEP_BITS, encode. assert (Hland : Z.land (Z.shiftl local 8) (Z.of_nat step) = 0).
  { apply Z.bits_inj'. intros n Hn. rewrite Z.land_spec, Z.bits_0, Z.shiftl_spec by done. destruct (Z.lt_ge_cases n 8); [by rewrite (Z.testbit_neg_r local) by lia|].
    rewrite (Z.bits_above_log2 (Z.of_nat step)), andb_false_r; [done|lia|]. destruct (decide (step = 0%nat)) as [->|]; [change (0 < n); lia|].
    apply Z.log2_lt_pow2; [lia|]. assert (2 ^ 8 <= 2 ^ n) by (apply Z.pow_le_mono_r; lia). lia. }
  rewrite <-Z.lxor_lor by done. rewrite <-Z.add_nocarry_lxor by done. by rewrite Z.shiftl_mul_pow2 by lia.
Qed.

Lemma encode_inj l l' s s' : (s < 256)%nat → (s' < 256)%nat → encode l s = encode l' s' → l = l' ∧ s = s'.
Proof. unfold encode. lia. Qed.

Lemma encode_dispatch l s : 0 <= l → (s < 256)%nat → dispatchStep (encode l s) = Z.of_nat s ∧ dispatchIndex (encode l s) = l.
Proof.
  intros Hl Hs. unfold dispatchStep, dispatchIndex, encode, STEP_MASK, STEP_BITS. change (Z.shiftl 1 8 - 1) with (Z.ones 8).
  rewrite Z.land_ones, Z.shiftr_div_pow2 by lia. change (2 ^ 8) with 256. split; Z.to_euclidean_division_equations; lia.
Qed.

Section Packing.
Context (steps : nat) (Hsteps : (steps <= 256)%nat).

(** What has been packed: below the next index of its step, once. *)
Record packInv (p : packing) : Prop := {
  pi_next : length (nextIndex p) = steps ∧ Forall (λ n, 1 <= n) (nextIndex p);
  pi_ids i id : packed p !! i = Some id → ∃ l s, id = encode l s ∧ (s < steps)%nat ∧ 1 <= l < nth s (nextIndex p) 0 ∧ l < 2 ^ 16;
  pi_inj i j id : packed p !! i = Some id → packed p !! j = Some id → i = j;
}.

Lemma nth_insert (l : list Z) s v k : (s < length l)%nat → nth k (<[s := v]> l) 0 = if decide (k = s) then v else nth k l 0.
Proof.
  intros Hs. rewrite !nth_lookup. destruct (decide (k = s)) as [->|]; [by rewrite list_lookup_insert_eq|by rewrite list_lookup_insert_ne].
Qed.

Lemma packState_ok step s p p' : (step < steps)%nat → packInv p → packState step s p = Ok p' →
  packInv p' ∧ packed p ⊆ packed p' ∧ packed p' !! st_id s = Some (encode (nth step (nextIndex p) 0) step) ∧
  nth step (nextIndex p') 0 = nth step (nextIndex p) 0 + 1.
Proof.
  intros Hs [[Hlen Hpos] Hids Hinj] H. unfold packState in H. set (local := nth step (nextIndex p) 0) in *.
  assert (Hloc : 1 <= local). { unfold local. rewrite nth_lookup. destruct (lookup_lt_is_Some_2 (nextIndex p) step) as [n Hn]; [lia|]. rewrite Hn. by eapply Forall_lookup_1 in Hpos. }
  destruct (Z.leb_spec (Z.shiftl 1 16) local) as [|Hlt]; [done|]. change (Z.shiftl 1 16) with (2 ^ 16) in Hlt.
  destruct (packed p !! st_id s) eqn:Ep; [done|]. injection H as <-. rewrite pack_encode by lia. cbn [packed nextIndex].
  split; [|split; [by apply insert_subseteq|split; [apply lookup_insert_eq|]]].
  2:{ rewrite nth_insert by lia. by rewrite decide_True. }
  constructor; cbn [packed nextIndex].
  - split; [by rewrite length_insert|]. apply Forall_insert; [done|lia].
  - intros i id Hi. apply lookup_insert_Some in Hi as [[<- <-]|[Hne Hi]].
    + exists local, step. rewrite nth_insert by lia. rewrite decide_True by done. split_and!; (done || lia).
    + destruct (Hids i id Hi) as (l & t & -> & Ht & Hl & Hl'). exists l, t. rewrite nth_insert by lia.
      split_and!; try done; try lia. destruct (decide (t = step)) as [->|]; [fold local in Hl; lia|lia].
  - intros i j id Hi Hj. apply lookup_insert_Some in Hi as [[<- <-]|[Hi0 Hi]]; apply lookup_insert_Some in Hj as [[<- Ej]|[Hj0 Hj]]; try done.
    + destruct (Hids j _ Hj) as (l & t & He & Ht & Hl & _). apply encode_inj in He as [<- <-]; [|lia|lia]. fold local in Hl. lia.
    + subst. destruct (Hids i _ Hi) as (l & t & He & Ht & Hl & _). apply encode_inj in He as [<- <-]; [|lia|lia]. fold local in Hl. lia.
    + by eapply Hinj.
Qed.

Lemma packStates_ok step l : ∀ p p', (step < steps)%nat → packInv p → foldM (packState step) l p = Ok p' →
  packInv p' ∧ packed p ⊆ packed p' ∧ ∀ n s, l !! n = Some s → packed p' !! st_id s = Some (encode (nth step (nextIndex p) 0 + Z.of_nat n) step).
Proof.
  induction l as [|s l IH]; intros p p' Hs Hp H; simpl in H; [injection H as <-; by split_and!|].
  destruct (packState step s p) as [p1|] eqn:E1; [|done]. apply packState_ok in E1 as (I1 & S1 & E1 & N1); [|done|done].
  destruct (IH _ _ Hs I1 H) as (I2 & S2 & Hn). split_and!; [done|by etransitivity|]. intros [|n] t Ht; simplify_eq/=.
  - rewrite Z.add_0_r. by eapply lookup_weaken.
  - rewrite (Hn n t Ht), N1. do 2 f_equal. lia.
Qed.

(** Each unit's states are contiguous in its step, entries first. *)
Definition unitPacked (m : gmap nat Z) (us : alloc_unit * nat) : Prop :=
  ∃ first, ∀ n s, sortStates (u_states us.1) !! n = Some s → m !! st_id s = Some (encode (first + Z.of_nat n) us.2).

Lemma unitPacked_mono m m' us : m ⊆ m' → unitPacked m us → unitPacked m' us.
Proof. intros Hs [first H]. exists first. intros n s Hn. eapply lookup_weaken; [apply (H n s Hn)|exact Hs]. Qed.

Lemma packUnits_ok us p p' : Forall (λ x, (x.2 < steps)%nat) us → packInv p → foldM packUnit us p = Ok p' →
  packInv p' ∧ ∀ x, x ∈ us → unitPacked (packed p') x.
Proof.
  revert p. induction us as [|[u step] us IH]; intros p Hus Hp H; cbn [foldM] in H; [injection H as <-; split; [done|]; by intros x ?%not_elem_of_nil|].
  apply Forall_cons in Hus as [Hs Hus]. destruct (packUnit (u, step) p) as [p1|] eqn:E1; [|done]. unfold packUnit in E1.
  apply bind_Ok in E1 as (p2 & E2 & E1). destruct (_ =? _); [|done]. injection E1 as <-. destruct (packStates_ok _ _ _ _ Hs Hp E2) as (I2 & S2 & Hn).
  pose proof H as H'. apply (IH p2 Hus I2) in H as [I3 Hx]. split; [done|]. intros x [->|Hin]%elem_of_cons; [|by apply Hx].
  assert (Hsub : packed p2 ⊆ packed p').
  { clear -H' Hus I2 Hsteps. revert p2 I2 H'. induction us as [|[u step] us IH]; intros p2 I2 H'; cbn [foldM] in H'; [by injection H' as <-|].
    apply Forall_cons in Hus as [Hs Hus]. destruct (packUnit (u, step) p2) as [p3|] eqn:E3; [|done]. unfold packUnit in E3. apply bind_Ok in E3 as (p4 & E4 & E3).
    destruct (_ =? _); [|done]. injection E3 as <-. destruct (packStates_ok _ _ _ _ Hs I2 E4) as (I4 & S4 & _). etransitivity; [exact S4|]. by apply IH. }
  eapply unitPacked_mono; [exact Hsub|]. exists (nth step (nextIndex p) 0). exact Hn.
Qed.
End Packing.

Lemma rewriteIds_ok p l xs i : rewriteIds p l = Ok xs → i ∈ l → is_Some (packed p !! i).
Proof.
  revert xs. induction l as [|j l IH]; intros xs H Hi; [by apply not_elem_of_nil in Hi|]. simpl in H. apply bind_Ok in H as (x & Hx & H). apply bind_Ok in H as (ys & Hys & _).
  apply elem_of_cons in Hi as [->|Hi]; [|by eapply IH]. unfold rewriteId in Hx. destruct (packed p !! j); [by eexists|done].
Qed.

(** What the dispatch relies on. *)
Record dispatchable (c : config) (u : uses) (m : gmap nat Z) : Prop := {
  d_range i id : m !! i = Some id → 256 <= id < 2 ^ 24 ∧ (0 <= dispatchStep id < Z.of_nat (stepCount c)) ∧ 1 <= dispatchIndex id < 2 ^ 16;
  d_inj i j id : m !! i = Some id → m !! j = Some id → i = j;
  d_units x : x ∈ zip (scalarUnits c ++ borrowedUnits c) (StepForUnit c) → unitPacked m x;
  d_uses i : i ∈ m_entries u ++ m_states u ++ r_states u ++ live_stores u → is_Some (m !! i);
}.

Lemma packRegionIds_ok c u m : PackRegionIds c u = Ok m → dispatchable c u m.
Proof.
  unfold PackRegionIds. destruct (_ || _) eqn:E; [done|]. apply orb_false_iff in E as [E1%Nat.eqb_neq E2]. bool_to_prop. change (STEP_MASK + 1) with 256 in E2.
  intros H. apply bind_Ok in H as (p & Hp & H). apply bind_Ok in H as (x1 & U1 & H). apply bind_Ok in H as (x2 & U2 & H).
  apply bind_Ok in H as (x3 & U3 & H). apply bind_Ok in H as (x4 & U4 & [= <-]).
  assert (Hz : Forall (λ x : alloc_unit * nat, (x.2 < stepCount c)%nat) (zip (scalarUnits c ++ borrowedUnits c) (StepForUnit c))).
  { apply Forall_forall. intros [v s] Hx%elem_of_zip_r. by eapply Forall_forall in Hx; [|apply steps_ok]. }
  assert (Hi : packInv (stepCount c) (Packing ∅ (replicate (stepCount c) 1))).
  { constructor; cbn; [split; [apply length_replicate|by apply Forall_replicate]|done|done]. }
  destruct (packUnits_ok (stepCount c) ltac:(lia) _ _ _ Hz Hi Hp) as [Hinv Hunits]. clear Hi.
  constructor.
  - intros i id Hi. destruct (pi_ids _ _ Hinv i id Hi) as (l & s & -> & Hs & Hl & Hl'). destruct (encode_dispatch l s) as [-> ->]; [lia|lia|]. unfold encode. lia.
  - apply Hinv.
  - done.
  - intros i Hi. rewrite !elem_of_app in Hi. destruct Hi as [Hi|[Hi|[Hi|Hi]]];
      [exact (rewriteIds_ok _ _ _ _ U1 Hi)|exact (rewriteIds_ok _ _ _ _ U2 Hi)|exact (rewriteIds_ok _ _ _ _ U3 Hi)|exact (rewriteIds_ok _ _ _ _ U4 Hi)].
Qed.

(** An indirect call's token names the callee's region. *)
Lemma token_region window id : window mod 2 ^ 32 = 0 → 0 <= id < 2 ^ 32 → CalleeRegionId (functionToken window id) = id.
Proof.
  intros Hw Hid. unfold CalleeRegionId, functionToken, u32, u64, wrap, TOKEN_DISPLACEMENT. change (Z.shiftl 1 32) with (2 ^ 32).
  rewrite <-Znumtheory.Zmod_div_mod; [|lia|lia|by exists (2 ^ 32)]. apply Z.mod_divide in Hw as [q ->]; [|lia].
  replace (q * 2 ^ 32 + 2 ^ 32 + id) with (id + (q + 1) * 2 ^ 32) by lia. rewrite Z_mod_plus_full. by apply Z.mod_small.
Qed.
