(* ===== verification/StackCompiled.v ===== *)
(** * The software stack of a compiled module

    The layout of [Frames] discharges the interface of [StackMachine], so the
    emitted code of an accepted module implements its call stack. *)

From Stdlib Require Import ZArith Lia.
From stdpp Require Import base numbers list gmap fin_maps option.
From S2P Require Import Prelude Bytes Fiber Frames FramesFacts FramesProps StackMachine StackMachineFacts StackMachineInv StackMachineSim StackMachineProps RegionIds RegionIdsFacts.

Import StackMachine.
Local Open Scope Z_scope.

#[global] Instance ty_eq_dec : EqDecision Frames.ty.
Proof. solve_decision. Defined.
#[global] Instance value_eq_dec : EqDecision Frames.ManagedCallValue.
Proof. solve_decision. Defined.

Definition byteSize (t : Frames.ty) : nat := Z.to_nat (Frames.t_size t).
Definition valueBytes (v : Frames.ManagedCallValue) : nat := byteSize (Frames.storageType v).

(** What the slot of an instruction holds. *)
Definition kindOf (i : Frames.inst) : option slot_kind :=
  match i with
  | Frames.SetjmpCall => Some JumpResult
  | Frames.StackSaveCall => Some Snapshot
  | Frames.Alloca elem (Frames.Dynamic _) al false => Some (Handle (Frames.t_size elem) al)
  | Frames.Alloca elem (Frames.Static n) _ false => Some (Object (Z.to_nat (Frames.t_size elem * n)))
  | _ => None
  end.

Section Compiled.
Context (m : Frames.module) (infos : list (option Frames.frame_info)) (lay : Frames.stack_layout) (stack base : Z) (arena : bool).
Context (entryId : nat → Z) (resumeId : nat → nat → Z).
Let fa := Frames.FrameAlignment (Frames.s_alignments lay).

Definition slotsOf (g : Frames.func) (fr : Frames.frame) : gmap nat (Z * slot_kind) :=
  map_imap (λ i off, inst ← Frames.fn_body g !! i; k ← kindOf inst; Some (off, k)) (Frames.Slots fr).

Definition abiOf (g : Frames.func) (info : Frames.frame_info) (fr : Frames.frame) : fn_abi :=
  FnABI (Frames.FrameSize fr) (slotsOf g fr)
    (zip_with (λ off v, (off, valueBytes v)) (Frames.ArgOffsets (Frames.i_layout info)) (Frames.fn_args g))
    ((λ t, (Frames.ResultOffset (Frames.i_layout info), byteSize t)) <$> Frames.fn_ret g).

Definition managedOf (f : nat) : option fn_abi :=
  match m !! f, infos !! f, Frames.s_frames lay !! f with
  | Some g, Some (Some info), Some (Some fr) => Some (abiOf g info fr)
  | _, _, _ => None
  end.

Definition siteOf (r : option Frames.ty) (args : list Frames.ManagedCallValue) : option site_abi :=
  match Frames.LayoutCall stack fa r args with
  | Ok l => Some (SiteABI l (map valueBytes args) (byteSize <$> r))
  | Err _ => None
  end.

(** The callee's parameters are the first actuals. *)
Definition passes (r : option Frames.ty) (args : list Frames.ManagedCallValue) (g : Frames.func) : bool :=
  bool_decide (Frames.fn_ret g = r) && bool_decide (take (length (Frames.fn_args g)) args = Frames.fn_args g).

Definition callOf (f i : nat) : option (option Frames.ty * list Frames.ManagedCallValue) :=
  match m !! f with
  | Some g => match Frames.fn_managed g, Frames.fn_body g !! i with true, Some (Frames.Call _ true _ r args) => Some (r, args) | _, _ => None end
  | None => None
  end.

Definition boundaryOf (h j : nat) : option (nat * option Frames.ty * list Frames.ManagedCallValue) :=
  match m !! h with
  | Some g => match Frames.fn_body g !! j with Some (Frames.Call true _ (Some t) r args) => Some (t, r, args) | _ => None end
  | None => None
  end.

#[local] Instance layoutABI : StackABI := {|
  FiberStackSize := stack;
  SliceBase := base;
  ArenaTier := arena;
  FrameAlignment := fa;
  ReserveFloor := Frames.s_reserve lay;
  RootFp := Frames.s_rootFp lay;
  TransientReserve := Frames.TransientReserveBytes stack;
  managed := managedOf;
  callSite f i := '(r, args) ← callOf f i; siteOf r args;
  rootSite h j := '(t, r, args) ← boundaryOf h j; g ← m !! t; if passes r args g then (λ s, (s, t)) <$> siteOf r args else None;
  accepts f i q := match callOf f i, m !! q with Some (r, args), Some g => passes r args g | _, _ => false end;
  entryRegionId := entryId;
  resumeRegionId := resumeId;
|}.
End Compiled.

(** ** The laws *)

Lemma needs_kind i b al : goodInst i → needs i = Some (b, al) → ∃ k, kindOf i = Some k ∧ slotSize k = b.
Proof.
  destruct i as [e [n|w] al' []| | | |]; simpl; intros Hi [= <- <-]; eexists; (split; [done|]); simpl; try done.
  destruct Hi as (? & _ & ?). rewrite Z2Nat.id; [done|]. nia.
Qed.

Lemma kind_needs i k : kindOf i = Some k → ∃ b al, needs i = Some (b, al).
Proof. destruct i as [e [n|w] al []| | | |]; simpl; intros [= <-]; eauto. Qed.

Lemma valueBytes_le v : goodValue v → Z.of_nat (valueBytes v) <= slotBytes v.
Proof. intros [[Hs _] _]. unfold valueBytes, byteSize, slotBytes. rewrite Z2Nat.id by done. apply alignTo_ge. Qed.

Section AreaLaws.
Context (stack : Z) (fa : Z).
Context `{ABI : !StackABI} (Efa : FrameAlignment = fa).

Lemma argSlots_lookup args offs k off v : offs !! k = Some off → args !! k = Some v → argSlots args offs !! k = Some (off, slotBytes v, slotAlign v).
Proof. intros H1 H2. unfold argSlots. rewrite lookup_zip_with, H2. cbn. by rewrite H1. Qed.

Lemma good_areaLaws r args l : goodLayout stack fa r args l → goodRet r → Forall goodValue args →
  areaLaws (SiteABI l (map valueBytes args) (byteSize <$> r)).
Proof.
  intros Hl Hr Hargs. destruct (goodLayout_callSound _ _ _ _ _ Hl) as [(Hs & _) H16].
  destruct Hl as [Hlen _ _ (c1 & Hc1 & Hc2) (Hs1 & _) _]. pose proof (chain_le _ _ _ Hc1) as Hle1. pose proof (chain_le _ _ _ Hc2) as Hle2. unfold Frames.LinkageBytes in *.
  assert (Harg : ∀ k off n, Frames.ArgOffsets l !! k = Some off → map valueBytes args !! k = Some n →
    ∃ v, args !! k = Some v ∧ n = valueBytes v ∧ Z.of_nat n <= slotBytes v ∧ argSlots args (Frames.ArgOffsets l) !! k = Some (off, slotBytes v, slotAlign v)).
  { intros k off n Ho Hn. change (map valueBytes args) with (valueBytes <$> args) in Hn. rewrite list_lookup_fmap in Hn.
    destruct (args !! k) as [v|] eqn:Ev; [|done]. simplify_eq/=. exists v. split_and!; try done; [apply valueBytes_le; by eapply Forall_lookup_1|by apply argSlots_lookup]. }
  constructor; cbn.
  - rewrite Efa. done.
  - by rewrite length_map.
  - intros n Hn. destruct r as [t|]; simplify_eq/=. destruct (Hr t eq_refl) as [Ht _].
    inversion Hc1 as [|? ? ? ? ? ? C1 C2 C3 C4]; subst. inversion C4; subst. pose proof (alignTo_ge (Frames.t_size t)). unfold byteSize. rewrite Z2Nat.id by done. lia.
  - intros k off n Ho Hn. destruct (Harg k off n Ho Hn) as (v & _ & _ & Hle & Hslot). apply (chain_bounds _ _ _ _ _ _ _ Hc2) in Hslot as (? & ? & _). lia.
  - intros j k off n off' n' Hj Hnj Hk Hnk Hlt. destruct (Harg j off n Hj Hnj) as (v & _ & _ & Hle & Hslot). destruct (Harg k off' n' Hk Hnk) as (v' & _ & _ & _ & Hslot').
    pose proof (chain_disjoint _ _ _ _ _ _ _ _ _ _ _ Hc2 Hslot Hslot' Hlt). lia.
Qed.
End AreaLaws.

Section Laws.
Context (bytes : Z) (m1 m2 : Frames.module) (stack : Z) (infos : list (option Frames.frame_info)) (lay : Frames.stack_layout).
Context (Hbytes : 0 <= bytes < 2 ^ 32) (Hm1 : Forall goodFunc m1) (Hm2 : Forall goodFunc m2) (Hdem : Forall2 demoted m1 m2).
Context (Hlay : Frames.layOutStack bytes m1 m2 = Ok (stack, infos, lay)).
Context (base : Z) (arena : bool) (Hbase : 0 <= base ∧ base mod stack = 0 ∧ base + 2 * stack <= 2 ^ 64).
Context (entryId : nat → Z) (resumeId : nat → nat → Z).
Context (Hids : ∀ f i, 0 <= entryId f < 2 ^ 32 ∧ 0 <= resumeId f i < 2 ^ 32).
Let fa := Frames.FrameAlignment (Frames.s_alignments lay).
#[local] Instance compiledABI : StackABI := layoutABI m2 infos lay stack base arena entryId resumeId.

Lemma goodFunc_at f g : m2 !! f = Some g → goodFunc g.
Proof. by apply Forall_lookup_1. Qed.

(** A function that is managed has an info, computed on its signature. *)
Lemma managed_inv f fn : managedOf m2 infos lay f = Some fn → ∃ g info fr fa1, m2 !! f = Some g ∧ infos !! f = Some (Some info) ∧
  Frames.s_frames lay !! f = Some (Some fr) ∧ fn = abiOf g info fr ∧ Frames.fn_managed g = true ∧
  Frames.LayoutCall stack fa1 (Frames.fn_ret g) (Frames.fn_args g) = Ok (Frames.i_layout info) ∧ Frames.layOutFrame stack fa g = Ok fr.
Proof.
  intros H. unfold managedOf in H. destruct (m2 !! f) as [g|] eqn:Eg; [|done]. destruct (infos !! f) as [[info|]|] eqn:Ei; try done.
  destruct (Frames.s_frames lay !! f) as [[fr|]|] eqn:Ef; try done. injection H as <-.
  destruct (layOutStack_inv bytes m1 m2 stack infos lay Hbytes Hm1 Hm2 Hlay) as (Hst & s & Gs & _ & Hinfos & Hc).
  destruct (Forall2_lookup_r _ _ _ _ _ Hdem Eg) as (g1 & Hg1 & (Em & Er & Ea & _)). destruct (Forall2_lookup_l _ _ _ _ _ Hinfos Hg1) as (i' & Hi' & Hl).
  rewrite Ei in Hi'. injection Hi' as <-. destruct (Forall2_lookup_l _ _ _ _ _ (c_frames _ _ _ _ Hc) Eg) as (fr' & Hf' & Hfr).
  rewrite Ef in Hf'. injection Hf' as <-. unfold Frames.layOutFunction in Hl. destruct (Frames.fn_managed g1) eqn:Em1; [|done].
  apply bind_Ok in Hl as (l & Hl & [= <-]). unfold frameOf in Hfr. rewrite <-Em in Hfr. destruct Hfr as (x & [= <-] & Hx).
  exists g, (Frames.Info (match Frames.fn_ret g1 with Some t => Frames.t_size t | None => 0 end) l), fr, (Frames.FrameAlignment s).
  split_and!; try done. by rewrite <-Er, <-Ea.
Qed.

Lemma slotsOf_lookup g fr i off k : slotsOf g fr !! i = Some (off, k) → ∃ inst, Frames.fn_body g !! i = Some inst ∧ kindOf inst = Some k ∧ Frames.Slots fr !! i = Some off.
Proof.
  unfold slotsOf. rewrite map_lookup_imap. destruct (Frames.Slots fr !! i) as [o|]; [|done]. cbn. destruct (Frames.fn_body g !! i) as [inst|]; [|done]. cbn.
  destruct (kindOf inst) eqn:Ek; [|done]. intros [= -> ->]. by exists inst.
Qed.

Lemma compiled_fn f fn : managedOf m2 infos lay f = Some fn → fnLaws fn.
Proof.
  intros (g & info & fr & fa1 & Hg & _ & Hfr & -> & Hm & _ & Hlf)%managed_inv. destruct (layOutStack_inv bytes m1 m2 stack infos lay Hbytes Hm1 Hm2 Hlay) as (Hst & s & Gs & _ & _ & Hc).
  destruct (c_geometry _ _ _ _ Hc) as (Hfa & _). destruct (layOutFrame_ok stack Hst _ _ _ (goodFunc_at _ _ Hg) Hfa Hlf) as [[Hsz Hslots] Hpos].
  pose proof (goodFunc_at _ _ Hg) as (_ & _ & Hbody).
  assert (Hin : ∀ i off k, slotsOf g fr !! i = Some (off, k) → ∃ inst al, Frames.fn_body g !! i = Some inst ∧ kindOf inst = Some k ∧ needs inst = Some (slotSize k, al) ∧
    Frames.Slots fr !! i = Some off).
  { intros i off k (inst & Hi & Hk & Ho)%slotsOf_lookup. destruct (kind_needs _ _ Hk) as (b & al & Hn).
    destruct (needs_kind inst b al) as (k' & Hk' & Hs'); [by eapply Forall_lookup_1|done|]. exists inst, al. simplify_eq. by split_and!. }
  constructor; cbn.
  - split_and!; [done|done|]. apply (c_room _ _ _ _ Hc). by eapply list_elem_of_lookup_2.
  - intros i off k (inst & al & Hi & _ & Hn & Ho)%Hin. destruct (Hslots _ _ _ _ Hi Hn) as (off' & Ho' & ? & ? & _). simplify_eq. by split.
  - intros i j off k off' k' (inst & al & Hi & _ & Hn & Ho)%Hin (inst' & al' & Hj & _ & Hn' & Ho')%Hin Hij.
    destruct (Hslots _ _ _ _ Hi Hn) as (o & Hx & _ & _ & _ & Hd). simplify_eq. by eapply (Hd j).
  - intros i off e al (inst & al' & Hi & Hk & Hn & Ho)%Hin. pose proof (Forall_lookup_1 _ _ _ _ Hbody Hi) as Hgood.
    pose proof (c_small _ _ _ _ Hc g) as Hsm. ospecialize (Hsm _ _ inst _); [by eapply list_elem_of_lookup_2|done|by eapply list_elem_of_lookup_2|].
    destruct inst as [e' [n|w] al0 []| | | |]; simplify_eq/=. destruct Hgood as (? & ? & _). by split_and!.
Qed.

Lemma site_good r args s : siteOf lay stack r args = Some s → goodRet r → Forall goodValue args → areaLaws s ∧ ∃ l, Frames.LayoutCall stack fa r args = Ok l ∧
  s = SiteABI l (map valueBytes args) (byteSize <$> r).
Proof.
  intros Hs Hr Ha. unfold siteOf in Hs. destruct (Frames.LayoutCall _ _ r args) as [l|] eqn:El; [|done]. injection Hs as <-.
  destruct (layOutStack_inv bytes m1 m2 stack infos lay Hbytes Hm1 Hm2 Hlay) as (Hst & s & Gs & _ & _ & Hc). destruct (c_geometry _ _ _ _ Hc) as (Hfa & [? _] & _).
  split; [|by exists l]. eapply (good_areaLaws stack fa); [done| |done|done]. eapply (layoutCall_ok stack Hst); try done. fold fa in Hfa. pose proof (pow2_gt0 _ Hfa). lia.
Qed.

Lemma passes_view r args g s q fn : passes r args g = true → m2 !! q = Some g → siteOf lay stack r args = Some s → managedOf m2 infos lay q = Some fn → view s fn.
Proof.
  intros Hp Hq Hs (g' & info & fr & fa1 & Hg & _ & _ & -> & _ & Hl1 & _)%managed_inv. simplify_eq. apply andb_true_iff in Hp as [Hr Ha]. bool_to_prop. subst r.
  unfold siteOf in Hs. destruct (Frames.LayoutCall _ _ _ args) as [l|] eqn:El; [|done]. injection Hs as <-.
  rewrite <-(take_drop (length (Frames.fn_args g)) args), Ha in El. destruct (layoutCall_prefix _ _ _ _ _ _ _ _ Hl1 El) as [Ero [offs Eoffs]].
  split; cbn.
  - rewrite Ero. by destruct (Frames.fn_ret g).
  - intros k off n Hk. rewrite lookup_zip_with in Hk. destruct (Frames.ArgOffsets (Frames.i_layout info) !! k) as [o|] eqn:Eo; [|done]. cbn in Hk.
    destruct (Frames.fn_args g !! k) as [v|] eqn:Ev; [|done]. simplify_eq/=. rewrite Eoffs. split; [by apply lookup_app_l_Some|].
    change (map valueBytes args) with (valueBytes <$> args). rewrite list_lookup_fmap. rewrite <-Ha in Ev. apply lookup_take_Some in Ev as [-> _]. done.
Qed.

Lemma compiled_laws : StackLaws.
Proof.
  destruct (layOutStack_inv bytes m1 m2 stack infos lay Hbytes Hm1 Hm2 Hlay) as (Hst & s & Gs & _ & _ & Hc).
  pose proof (c_geometry _ _ _ _ Hc) as (Hfa & Hfs & _ & Hfl & Hrt & Hfm & Hrm). pose proof (stackSize_range _ Hst).
  constructor; cbn.
  - split; [apply Hst|lia].
  - done.
  - done.
  - split_and!; try done; [apply Z.div_pos; lia|lia|lia].
  - apply compiled_fn.
  - intros f i t Hs. destruct (callOf m2 f i) as [[r args]|] eqn:Ec; [|done]. cbn in Hs. unfold callOf in Ec. destruct (m2 !! f) as [g|] eqn:Eg; [|done].
    destruct (Frames.fn_managed g) eqn:Em; [|done]. destruct (Frames.fn_body g !! i) as [[| | |b [] tg r' args'|]|] eqn:Eb; simplify_eq.
    pose proof (goodFunc_at _ _ Eg) as (_ & _ & Hbody). destruct (Forall_lookup_1 _ _ _ _ Hbody Eb) as [Hr Ha].
    destruct (site_good _ _ _ Hs Hr Ha) as (La & l & Hl & ->). split; [done|]. cbn.
    pose proof (c_calls _ _ _ _ Hc g) as Hcalls. ospecialize (Hcalls _ Em _ _); [by eapply list_elem_of_lookup_2|by eapply list_elem_of_lookup_2, Eb|].
    destruct Hcalls as (l' & Hl' & Hle). fold fa in Hl'. rewrite Hl in Hl'. injection Hl' as <-. lia.
  - intros h j t f fn Hs Hf. destruct (boundaryOf m2 h j) as [[[t' r] args]|] eqn:Ec; [|done]. cbn in Hs. destruct (m2 !! t') as [g|] eqn:Eg; [|done]. cbn in Hs.
    destruct (passes r args g) eqn:Ep; [|done]. destruct (siteOf lay stack r args) as [si|] eqn:Esi; [|done]. simplify_eq/=.
    unfold boundaryOf in Ec. destruct (m2 !! h) as [gh|] eqn:Eh; [|done]. destruct (Frames.fn_body gh !! j) as [[| | |[] mg [tg|] r' args'|]|] eqn:Eb; simplify_eq.
    pose proof (goodFunc_at _ _ Eh) as (_ & _ & Hbody). destruct (Forall_lookup_1 _ _ _ _ Hbody Eb) as [Hr Ha].
    destruct (site_good _ _ _ Esi Hr Ha) as (La & l & Hl & ->). split; [done|]. split; [|by eapply passes_view].
    pose proof (c_roots _ _ _ _ Hc gh) as Hroots. ospecialize (Hroots _ _ _); [by eapply list_elem_of_lookup_2|by eapply list_elem_of_lookup_2, Eb|].
    destruct Hroots as (l' & Hl' & Hle & _). fold fa in Hl'. rewrite Hl in Hl'. injection Hl' as <-. cbn in *. lia.
  - intros f i q t fn Hacc Hs Hq. destruct (callOf m2 f i) as [[r args]|] eqn:Ec; [|done]. destruct (m2 !! q) as [g|] eqn:Eq; [|done]. by eapply passes_view.
  - apply Hids.
Qed.

End Laws.

(** ** Dispatch targets *)

Inductive target := TEntry (f : nat) | TResume (f i : nat).

Section Refinement.
Context (bytes : Z) (m1 m2 : Frames.module) (stack : Z) (infos : list (option Frames.frame_info)) (lay : Frames.stack_layout).
Context (Hbytes : 0 <= bytes < 2 ^ 32) (Hm1 : Forall goodFunc m1) (Hm2 : Forall goodFunc m2) (Hdem : Forall2 demoted m1 m2).
Context (Hlay : Frames.layOutStack bytes m1 m2 = Ok (stack, infos, lay)).
Context (base : Z) (arena : bool) (Hbase : 0 <= base ∧ base mod stack = 0 ∧ base + 2 * stack <= 2 ^ 64).

(** The states of the module: provisional numbers are given out once, and
    every state is among those the packing rewrites. *)
Context (cfg : RegionIds.config) (uses : RegionIds.uses) (ids : gmap nat Z) (Hpack : RegionIds.PackRegionIds cfg uses = Ok ids).
Context (provisional : target → nat) (used : target → Prop).
Context (Hfresh : ∀ t t', used t → used t' → provisional t = provisional t' → t = t').
Context (Hused : ∀ t, used t → provisional t ∈ RegionIds.m_entries uses ++ RegionIds.m_states uses ++ RegionIds.r_states uses ++ RegionIds.live_stores uses).

Definition regionId (t : target) : Z := default 0 (ids !! provisional t).
#[local] Instance packedABI : StackABI := layoutABI m2 infos lay stack base arena (λ f, regionId (TEntry f)) (λ f i, regionId (TResume f i)).

(** A region word names one target, is neither idle nor completed, and a
    function pointer carries it. *)
Definition dispatchSound : Prop := ∀ t, used t →
  0 < regionId t < RegionDone ∧ (∀ t', used t' → regionId t' = regionId t → t' = t) ∧
  ∀ window, window mod 2 ^ 32 = 0 → RegionIds.CalleeRegionId (RegionIds.functionToken window (regionId t)) = regionId t.

Lemma regionId_used t : used t → ∃ id, ids !! provisional t = Some id ∧ regionId t = id ∧ 256 <= id < 2 ^ 24.
Proof.
  intros Ht. pose proof (packRegionIds_ok _ _ _ Hpack) as Hd. destruct (d_uses _ _ _ Hd _ (Hused t Ht)) as [id Hid].
  exists id. unfold regionId. rewrite Hid. split_and!; try done; by apply (d_range _ _ _ Hd _ _ Hid).
Qed.

Lemma regionId_range t : 0 <= regionId t < 2 ^ 32.
Proof.
  unfold regionId. destruct (ids !! provisional t) as [id|] eqn:E; [|done]. destruct (d_range _ _ _ (packRegionIds_ok _ _ _ Hpack) _ _ E) as (? & _). cbn. lia.
Qed.

Lemma dispatch_ok : dispatchSound.
Proof.
  intros t Ht. destruct (regionId_used t Ht) as (id & Hid & E & Hr). rewrite E. unfold RegionDone. split; [lia|]. split.
  - intros t' Ht' E'. destruct (regionId_used t' Ht') as (id' & Hid' & E2 & _). apply Hfresh; [done|done|].
    eapply (d_inj _ _ _ (packRegionIds_ok _ _ _ Hpack)); [exact Hid'|]. rewrite Hid. congruence.
  - intros window Hw. apply token_region; [done|lia].
Qed.

(** C39: The code emitted for a module the layout accepts implements its call
    stack.  From a boundary call, every run of the abstract machine (fresh
    activations with their own arguments, locals, dynamic blocks, snapshots
    and suspensions; objects instead of addresses) is matched by the emitted
    code on fiber memory: control reaches the callee's entry, the caller's
    resume region, or completion exactly where the call stack says, every read
    and every result delivers the bytes of its object, no activation's memory
    is changed by another, and the run can only end early in the
    stack-overflow outcome, after the same events.  The root itself always
    fits.  Nothing is written outside the fiber's slice or in its transient
    reserve.  The packed region word that control goes through names one
    target only, is never the idle or the completed word, and is what an
    indirect call recovers from a function pointer. *)
Theorem software_stack_refines h j t f args returnSize c0 a0 ops s e :
  rootSite h j = Some (t, f) → initial h j t f args = Some a0 → arun ops a0 = Some (s, e) →
  dispatchSound ∧
  ∃ c1, RewriteEntryCall t returnSize (entryRegionId f) args c0 = Some c1 ∧ c_returnSize c1 = returnSize ∧
    (∃ c2, cstep (OEnter f) c1 = Running c2 []) ∧ runsTo s e c0 (crun ops c1).
Proof.
  intros Hroot Hinit Hrun. split; [apply dispatch_ok|].
  pose proof (compiled_laws bytes m1 m2 stack infos lay Hbytes Hm1 Hm2 Hdem Hlay base arena Hbase (λ f, regionId (TEntry f)) (λ f i, regionId (TResume f i))
    (λ f i, conj (regionId_range _) (regionId_range _))). by eapply software_stack_run.
Qed.
End Refinement.
