(* ===== verification/StackSamples.v ===== *)
(** * A run of the software stack

    The module of the layout sample, run through a call, a carving, a snapshot
    and both returns, on the call stack and on the emitted code. *)

From Stdlib Require Import ZArith Lia.
From stdpp Require Import base numbers list gmap fin_maps option.
From S2P Require Import Prelude Bytes Fiber Frames FramesFacts FramesProps StackMachine StackMachineFacts StackMachineInv StackMachineSim StackMachineProps RegionIds RegionIdsFacts StackCompiled.

Import StackMachine.
Local Open Scope Z_scope.

(** Four states in two units of one step each. *)
Definition sampleProvisional (t : target) : nat :=
  match t with TEntry f => f | TResume f i => 10 + 10 * f + i end.
Definition sampleTargets : list target := [TEntry 1; TEntry 2; TResume 1 4; TResume 2 1].
Definition sampleUnits : RegionIds.config := RegionIds.Config
  [RegionIds.AllocUnit [RegionIds.State 24 false; RegionIds.State 1 true] 7; RegionIds.AllocUnit [RegionIds.State 2 true; RegionIds.State 31 false] 3] [] 2 0.
Definition sampleUses : RegionIds.uses := RegionIds.Uses [1; 2]%nat [1; 2; 24; 31]%nat [] [24]%nat.
Definition sampleIds : gmap nat Z := match RegionIds.PackRegionIds sampleUnits sampleUses with Ok m => m | Err _ => ∅ end.

#[local] Instance sampleABI : StackABI := packedABI sampleAfter 65536 sampleLayout.1 sampleLayout.2 (65536 * 4) false sampleIds sampleProvisional.

Example sample_ids : map (regionId sampleIds sampleProvisional) sampleTargets = [256; 257; 512; 513].
Proof. by vm_compute. Qed.

Definition word (n : nat) (v : Z) : list Z := map (λ k, v / 256 ^ Z.of_nat k mod 256) (seq 0 n).

Definition sampleOps : list op :=
  [OEnter 1; ORead 1 (PArg 0) 0 8; OWrite 1 (PSlot 1) 4 [11; 12]; OSave 1 3; OAlloca 1 2 4; OWrite 1 (PCarved 2) 8 (word 8 77);
   OCall 1 4 2 [AValue (word 4 5); AValue (word 8 6); AValue (word 32 7); AValue (word 4 8)];
   OEnter 2; ORead 2 (PArg 0) 0 4; OSuspend 2 1 true; OContinue 2 1; OReturn 2 (Some (word 8 99));
   OResume 1 4; ORead 1 (PCarved 2) 8 8; ORead 1 (PSlot 1) 4 2; ORestore 1 3; OReturn 1 (Some (word 4 42)); OResult 0 0].

Definition sampleStart : option astate := s ← rootSite 0 0; initial 0 0 s.1 s.2 [word 8 3].

Definition sampleEvents : events :=
  [Some (word 8 3); Some (word 4 5); Some (word 8 99); Some (word 8 77); Some [11; 12]; Some (word 4 42)].

Definition sampleCState : cstate := CState (λ _, 0) 0 0 0 0 0.

(** The emitted code produces the events. *)
Example sample_concrete :
  match rootSite 0 0 with
  | Some (t, f) =>
      match RewriteEntryCall t 4 (entryRegionId f) [word 8 3] sampleCState with
      | Some c => match crun sampleOps c with Running c e => Some (e, c_resume c) | _ => None end
      | None => None
      end
  | None => None
  end = Some (sampleEvents, RegionDone).
Proof. by vm_compute. Qed.

Lemma sample_fresh t t' : t ∈ sampleTargets → t' ∈ sampleTargets → sampleProvisional t = sampleProvisional t' → t = t'.
Proof.
  unfold sampleTargets. rewrite !elem_of_cons, !elem_of_nil. intros Hx Hy. destruct_or! Hx; destruct_or! Hy; subst; cbn; (done || lia).
Qed.

Lemma sample_used t : t ∈ sampleTargets →
  sampleProvisional t ∈ RegionIds.m_entries sampleUses ++ RegionIds.m_states sampleUses ++ RegionIds.r_states sampleUses ++ RegionIds.live_stores sampleUses.
Proof. unfold sampleTargets. rewrite !elem_of_cons, !elem_of_nil. intros Hx. destruct_or! Hx; subst; cbn; set_solver. Qed.

#[local] Opaque sampleLayout sampleIds.

Lemma software_stack_refines_witness :
  match rootSite 0 0, sampleStart with
  | Some (t, f), Some a0 => ∃ s, arun sampleOps a0 = Some (s, sampleEvents) ∧
      dispatchSound sampleIds sampleProvisional (.∈ sampleTargets) ∧
      ∃ c1, RewriteEntryCall t 4 (entryRegionId f) [word 8 3] sampleCState = Some c1 ∧ c_returnSize c1 = 4 ∧
        (∃ c2, cstep (OEnter f) c1 = Running c2 []) ∧ runsTo s sampleEvents sampleCState (crun sampleOps c1)
  | _, _ => False
  end.
Proof.
  assert (Hl : Frames.layOutStack 65536 sampleBefore sampleAfter = Ok (65536, sampleLayout.1, sampleLayout.2)) by by vm_compute.
  assert (Hpk : RegionIds.PackRegionIds sampleUnits sampleUses = Ok sampleIds) by by vm_compute.
  assert (Hs : snd <$> (sampleStart ≫= arun sampleOps) = Some sampleEvents) by by vm_compute.
  unfold sampleStart in *. destruct (rootSite 0 0) as [[t f]|] eqn:Hp; [|done]. cbn [mbind option_bind fst snd] in *.
  destruct (initial 0 0 t f [word 8 3]) as [a0|] eqn:Ea; [|done]. cbn [mbind option_bind] in Hs.
  destruct (arun sampleOps a0) as [[s e]|] eqn:Hrun; [|done]. cbn in Hs. injection Hs as ->. exists s. split; [done|].
  assert (Hb : 0 <= 65536 * 4 ∧ (65536 * 4) mod 65536 = 0 ∧ 65536 * 4 + 2 * 65536 <= 2 ^ 64) by (split; [lia|split; [done|lia]]).
  assert (H32 : 0 <= 65536 < 2 ^ 32) by lia.
  pose proof (software_stack_refines 65536 sampleBefore sampleAfter 65536 sampleLayout.1 sampleLayout.2 H32 sampleBefore_good sampleAfter_good sample_demoted Hl
    (65536 * 4) false Hb sampleUnits sampleUses sampleIds Hpk sampleProvisional (.∈ sampleTargets) sample_fresh sample_used 0 0 t f [word 8 3] 4 sampleCState a0 sampleOps s sampleEvents) as H.
  exact (H Hp Ea Hrun).
Defined.
