(* ===== verification/Liveness.v ===== *)
(** * Values that survive a suspension ([stackify.cpp])

    [LivenessAnalysis], the program-order view of a value set, and the set of
    values a demotion round moves to memory.  A function is its blocks; values
    are numbered as the analysis numbers them, arguments first. *)

From Stdlib Require Import ZArith Lia.
From stdpp Require Import base numbers list gmap sets fin_maps.
From S2P Require Import Prelude.

Module Liveness.

Notation value := nat.
Notation block_id := nat.

Inductive kind := KPhi (incoming : list (block_id * option value))   (* None: a constant *)
  | KAlloca
  | KOther.

Record inst := Inst {
  i_id : value;
  i_kind : kind;
  i_ops : list value;          (* operands that are values of the function *)
}.

Record block := Block { b_insts : list inst; b_succs : list block_id }.

Record func := Func { f_args : nat; f_blocks : list block }.

Definition insts (f : func) (b : block_id) : list inst := default [] (b_insts <$> f_blocks f !! b).
Definition succs (f : func) (b : block_id) : list block_id := default [] (b_succs <$> f_blocks f !! b).

Definition is_phi (i : inst) : bool := match i_kind i with KPhi _ => true | _ => false end.
Definition is_alloca (i : inst) : bool := match i_kind i with KAlloca => true | _ => false end.

(** [getIncomingValueForBlock] *)
Definition incomingFor (i : inst) (b : block_id) : option value :=
  match i_kind i with
  | KPhi incoming => '(_, v) ← list_find (λ p, p.1 = b) incoming; v.2
  | _ => None
  end.

(** ** The analysis *)

(** One instruction of the scan that builds a block's [use] and [def]. *)
Definition scan (ud : gset value * gset value) (i : inst) : gset value * gset value :=
  let '(use, def) := ud in
  ((if is_phi i then use else use ∪ (list_to_set (i_ops i) ∖ def)), {[i_id i]} ∪ def).

Definition useDef (f : func) (b : block_id) : gset value * gset value := foldl scan (∅, ∅) (insts f b).

Definition phiValues (f : func) (from to : block_id) : gset value := list_to_set (omap (λ i, incomingFor i from) (insts f to)).
Definition phiUses (f : func) (b : block_id) : gset value := ⋃ (phiValues f b <$> succs f b).

(** [LiveIn_] and [LiveOut_]. *)
Record liveness := Live { LiveIn : list (gset value); LiveOut : list (gset value) }.

Definition inOf (l : liveness) (b : block_id) : gset value := default ∅ (LiveIn l !! b).
Definition outOf (l : liveness) (b : block_id) : gset value := default ∅ (LiveOut l !! b).

Definition blockOut (f : func) (l : liveness) (b : block_id) : gset value := phiUses f b ∪ ⋃ (inOf l <$> succs f b).
Definition blockIn (f : func) (out : gset value) (b : block_id) : gset value := (out ∖ (useDef f b).2) ∪ (useDef f b).1.

(** One block of a round, and the [changed] flag. *)
Definition visit (f : func) (s : liveness * bool) (b : block_id) : liveness * bool :=
  let '(l, changed) := s in
  let out := blockOut f l b in
  let in_ := blockIn f out b in
  (Live (<[b := in_]> (LiveIn l)) (<[b := out]> (LiveOut l)), changed || negb (bool_decide (in_ = inOf l b))).

Definition round (f : func) (l : liveness) : liveness * bool := foldl (visit f) (l, false) (reverse (seq 0 (length (f_blocks f)))).

Fixpoint iterate (fuel : nat) (f : func) (l : liveness) : option liveness :=
  match fuel with
  | O => None
  | S fuel => let '(l, changed) := round f l in if changed then iterate fuel f l else Some l
  end.

Definition initialLiveness (f : func) : liveness := Live (replicate (length (f_blocks f)) ∅) (replicate (length (f_blocks f)) ∅).

Definition valueCount (f : func) : nat := f_args f + length (f_blocks f ≫= b_insts).

(** Rounds that suffice. *)
Definition rounds (f : func) : nat := S (length (f_blocks f) * valueCount f).

Definition analyze (f : func) : option liveness := iterate (rounds f) f (initialLiveness f).

(** The backward walk of [liveAfter] over the instructions after position [k]. *)
Definition walkBack (i : inst) (live : gset value) : gset value :=
  let live := live ∖ {[i_id i]} in if is_phi i then live else list_to_set (i_ops i) ∪ live.

Definition liveAfter (f : func) (l : liveness) (b : block_id) (k : nat) : gset value :=
  foldr walkBack (outOf l b) (drop (S k) (insts f b)).

Definition liveAcross (f : func) (l : liveness) (from to : block_id) : gset value := inOf l to ∪ phiValues f from to.

(** ** Demotion *)

Definition instructions (f : func) : list inst := f_blocks f ≫= b_insts.

Definition ValuesInProgramOrder (f : func) (vs : gset value) : list value :=
  filter (λ v, v ∈ vs) (seq 0 (f_args f)) ++ filter (λ v, v ∈ vs) (i_id <$> instructions f).

(** Arguments reload from the frame and allocas live in it. *)
Definition inFrame (f : func) (v : value) : bool :=
  (v <? f_args f)%nat || existsb (λ i, (i_id i =? v)%nat && is_alloca i) (instructions f).

(** A suspending call (block, position) and a backedge (header, latch). *)
Record suspensions := Suspensions { s_calls : list (block_id * nat); s_backedges : list (block_id * block_id) }.

Definition idAt (f : func) (b : block_id) (k : nat) : option value := i_id <$> insts f b !! k.

Definition callCrossing (f : func) (l : liveness) (p : block_id * nat) : list value :=
  filter (λ v, Some v ≠ idAt f p.1 p.2 ∧ inFrame f v = false) (ValuesInProgramOrder f (liveAfter f l p.1 p.2)).

Definition definedIn (f : func) (v : value) : option block_id :=
  fst <$> list_find (λ b, existsb (λ i, i_id i =? v)%nat (b_insts b) = true) (f_blocks f).

(** [dominates] is LLVM's dominator tree. *)
Definition edgeCrossing (dominates : block_id → block_id → bool) (f : func) (l : liveness) (e : block_id * block_id) : list value :=
  (i_id <$> filter (λ i, is_phi i = true) (insts f e.1)) ++
  filter (λ v, inFrame f v = false ∧ (match definedIn f v with Some b => negb (dominates e.1 b) | None => true end) = true)
    (ValuesInProgramOrder f (liveAfter f l e.2 (pred (length (insts f e.2))))).

(** The [SetVector] of a demotion round. *)
Definition crossing (dominates : block_id → block_id → bool) (f : func) (l : liveness) (s : suspensions) : list value :=
  remove_dups ((s_calls s ≫= callCrossing f l) ++ (s_backedges s ≫= edgeCrossing dominates f l)).

(** ** Reference: paths to a use *)

(** A point of a block: before instruction [k], or after the last one. *)
Notation point := (block_id * nat)%type.

(** One step of execution that does not redefine [v]. *)
Inductive moves (f : func) (v : value) : point → point → Prop :=
| moves_inst b k i : insts f b !! k = Some i → i_id i ≠ v → moves f v (b, k) (b, S k)
| moves_edge b s : s ∈ succs f b → moves f v (b, length (insts f b)) (s, O).

(** A use at a point: an operand, or a PHI operand of an edge. *)
Inductive uses (f : func) (v : value) : point → Prop :=
| uses_inst b k i : insts f b !! k = Some i → is_phi i = false → v ∈ i_ops i → uses f v (b, k)
| uses_edge b s : s ∈ succs f b → v ∈ phiValues f b s → uses f v (b, length (insts f b)).

Definition live (f : func) (p : point) (v : value) : Prop := ∃ q, rtc (moves f v) p q ∧ uses f v q.

(** Numbering and block references are those of a function. *)
Record wf (f : func) : Prop := {
  wf_numbering : i_id <$> instructions f = seq (f_args f) (length (instructions f));
  wf_ops b i v : i ∈ insts f b → v ∈ i_ops i → (v < valueCount f)%nat;
  wf_incoming b i from v : i ∈ insts f b → incomingFor i from = Some v → (v < valueCount f)%nat;
  wf_succs b s : s ∈ succs f b → (s < length (f_blocks f))%nat;
}.
End Liveness.
