(* ===== verification/LivenessProps.v ===== *)
(** * Liveness is exact

    The forward use/def scan and the backward walk agree, the iteration
    terminates within its bound, and what it computes is the set of values
    with a path to a use. *)

From Stdlib Require Import ZArith Lia.
From stdpp Require Import base numbers list gmap sets fin_maps relations.
From S2P Require Import Prelude Liveness.

Import Liveness.

(** ** Scans of a block *)

Lemma scan_walk (X : gset nat) l : ∀ u d v,
  v ∈ (X ∖ (foldl scan (u, d) l).2) ∪ (foldl scan (u, d) l).1 ↔ v ∈ u ∨ (v ∉ d ∧ v ∈ foldr walkBack X l).
Proof.
  induction l as [|i l IH]; intros u d v; cbn [foldl foldr]; [set_solver|].
  unfold scan at 2 4. rewrite IH. unfold walkBack. destruct (is_phi i); set_solver.
Qed.

Lemma blockIn_walk f X b : blockIn f X b = foldr walkBack X (insts f b).
Proof. apply set_eq. intros v. unfold blockIn, useDef. rewrite scan_walk. set_solver. Qed.

Lemma walk_mono l (X Y : gset nat) : X ⊆ Y → foldr walkBack X l ⊆ foldr walkBack Y l.
Proof. intros H. induction l as [|i l IH]; cbn; [done|]. unfold walkBack. destruct (is_phi i); set_solver. Qed.

(** ** Paths *)

Lemma live_inst f b k i v : insts f b !! k = Some i →
  live f (b, k) v ↔ (is_phi i = false ∧ v ∈ i_ops i) ∨ (i_id i ≠ v ∧ live f (b, S k) v).
Proof.
  intros Hi. pose proof (lookup_lt_Some _ _ _ Hi) as Hk. split.
  - intros (q & Hr & Hu). apply rtc_inv in Hr as [<-|(p & Hm & Hr)].
    + inversion Hu; subst; simplify_eq; [by left|lia].
    + inversion Hm; subst; simplify_eq; [right; split; [done|]; by exists q|lia].
  - intros [[Hp Hv]|[Hne (q & Hr & Hu)]]; [exists (b, k); split; [done|by econstructor]|].
    exists q. split; [|done]. eapply rtc_l; [by econstructor|done].
Qed.

Lemma live_end f b v : live f (b, length (insts f b)) v ↔ v ∈ phiUses f b ∨ ∃ s, s ∈ succs f b ∧ live f (s, O) v.
Proof.
  assert (Hnone : ∀ i, insts f b !! length (insts f b) ≠ Some i) by (intros i Hi; pose proof (lookup_lt_Some _ _ _ Hi); lia).
  unfold phiUses. rewrite elem_of_union_list. split.
  - intros (q & Hr & Hu). apply rtc_inv in Hr as [<-|(p & Hm & Hr)].
    + inversion Hu as [? ? i Hi|? s Hs Hv]; subst; [by destruct (Hnone i)|]. left. exists (phiValues f b s). split; [by apply list_elem_of_fmap_2|done].
    + inversion Hm as [? ? i Hi|? s Hs]; subst; [by destruct (Hnone i)|]. right. exists s. split; [done|]. by exists q.
  - intros [(X & (s & -> & Hs)%list_elem_of_fmap & Hv)|(s & Hs & q & Hr & Hu)].
    + exists (b, length (insts f b)). split; [done|by econstructor].
    + exists q. split; [|done]. eapply rtc_l; [by constructor|done].
Qed.

(** The walk from the end of a block decides liveness inside it. *)
Lemma live_walk f b (X : gset nat) : (∀ v, v ∈ X ↔ live f (b, length (insts f b)) v) → ∀ n k v, n = length (insts f b) - k → k <= length (insts f b) →
  v ∈ foldr walkBack X (drop k (insts f b)) ↔ live f (b, k) v.
Proof.
  intros HX. induction n as [|n IH]; intros k v Hn Hk.
  - replace k with (length (insts f b)) by lia. rewrite drop_all. apply HX.
  - destruct (lookup_lt_is_Some_2 (insts f b) k) as [i Hi]; [lia|]. rewrite (drop_S _ i) by done. cbn [foldr]. rewrite (live_inst _ _ _ _ _ Hi), <-IH by lia.
    unfold walkBack. destruct (is_phi i); set_solver.
Qed.

(** ** The iteration *)

Section Iteration.
Context (f : func) (Hwf : wf f).
Let N := length (f_blocks f).
Let V := valueCount f.

(** The sets only hold live values. *)
Definition soundL (l : liveness) : Prop :=
  (∀ b v, v ∈ inOf l b → live f (b, O) v) ∧ (∀ b v, v ∈ outOf l b → live f (b, length (insts f b)) v).

Lemma blockOut_sound l b v : soundL l → v ∈ blockOut f l b → live f (b, length (insts f b)) v.
Proof.
  unfold blockOut. intros [Hin _] [Hv|Hv]%elem_of_union; apply live_end; [by left|]. right. apply elem_of_union_list in Hv as (X & (s & -> & Hs)%list_elem_of_fmap & Hv).
  exists s. split; [done|by apply Hin].
Qed.

Lemma walk_sound b (X : gset nat) v : (∀ v, v ∈ X → live f (b, length (insts f b)) v) → ∀ n k, n = length (insts f b) - k → k <= length (insts f b) →
  v ∈ foldr walkBack X (drop k (insts f b)) → live f (b, k) v.
Proof.
  intros HX. induction n as [|n IH]; intros k Hn Hk Hv.
  - replace k with (length (insts f b)) in * by lia. rewrite drop_all in Hv. by apply HX.
  - destruct (lookup_lt_is_Some_2 (insts f b) k) as [i Hi]; [lia|]. rewrite (drop_S _ i) in Hv by done. cbn [foldr] in Hv. rewrite (live_inst _ _ _ _ _ Hi).
    unfold walkBack in Hv. destruct (is_phi i) eqn:Ep; [right|].
    + split; [set_solver|]. apply IH; [lia|lia|set_solver].
    + destruct (decide (v ∈ i_ops i)) as [|Hno]; [by left|right]. split; [set_solver|]. apply IH; [lia|lia|set_solver].
Qed.

Lemma blockIn_sound l b v : soundL l → v ∈ blockIn f (blockOut f l b) b → live f (b, O) v.
Proof.
  intros Hs. rewrite blockIn_walk. intros Hv. eapply (walk_sound b (blockOut f l b)); [|done|lia|by rewrite drop_0].
  intros w Hw. by eapply blockOut_sound.
Qed.

Lemma lookup_insert_default (l : list (gset nat)) b X c : default ∅ (<[b := X]> l !! c) = X ∧ c = b ∨ default ∅ (<[b := X]> l !! c) = default ∅ (l !! c).
Proof.
  destruct (decide (c = b)) as [->|Hne]; [|right; by rewrite list_lookup_insert_ne].
  destruct (decide (b < length l)) as [Hlt|Hge]; [left; by rewrite list_lookup_insert_eq|right]. by rewrite list_insert_ge by lia.
Qed.

Lemma visit_sound s b : soundL s.1 → soundL (visit f s b).1.
Proof.
  destruct s as [l ch]. simpl. intros Hs. pose proof Hs as [H1 H2]. split; intros c v; unfold inOf, outOf; cbn; intros Hv.
  - destruct (lookup_insert_default (LiveIn l) b (blockIn f (blockOut f l b) b) c) as [[E ->]|E]; rewrite E in Hv; [by eapply blockIn_sound|by apply H1].
  - destruct (lookup_insert_default (LiveOut l) b (blockOut f l b) c) as [[E ->]|E]; rewrite E in Hv; [by eapply blockOut_sound|by apply H2].
Qed.

(** The sets grow: each is below what its block would compute. *)
Record growing (l : liveness) : Prop := {
  gr_in : length (LiveIn l) = N;
  gr_out : length (LiveOut l) = N;
  gr_below b : inOf l b ⊆ blockIn f (blockOut f l b) b;
  gr_values b v : v ∈ inOf l b → (v < V)%nat;
}.

Definition le_live (l l' : liveness) : Prop := ∀ b, inOf l b ⊆ inOf l' b.

Lemma blockOut_mono l l' b : le_live l l' → blockOut f l b ⊆ blockOut f l' b.
Proof.
  intros Hle v. unfold blockOut. rewrite !elem_of_union, !elem_of_union_list. intros [Hv|(X & (s & -> & Hs)%list_elem_of_fmap & Hv)]; [by left|right].
  exists (inOf l' s). split; [by apply list_elem_of_fmap_2|by apply Hle].
Qed.

Lemma blockIn_mono (X Y : gset nat) b : X ⊆ Y → blockIn f X b ⊆ blockIn f Y b.
Proof. rewrite !blockIn_walk. apply walk_mono. Qed.

Lemma walk_values (X : gset nat) b l v : (∀ w, w ∈ X → (w < V)%nat) → (∀ i, i ∈ l → i ∈ insts f b) → v ∈ foldr walkBack X l → (v < V)%nat.
Proof.
  intros HX. induction l as [|i l IH]; intros Hl Hv; cbn in Hv; [by apply HX|].
  assert (Hi : i ∈ insts f b) by (apply Hl; by left). unfold walkBack in Hv.
  assert (v ∈ i_ops i ∨ v ∈ foldr walkBack X l) as [Ho|Ho] by (destruct (is_phi i); set_solver); [by eapply (wf_ops _ Hwf)|].
  apply IH; [|done]. intros j Hj. apply Hl. by right.
Qed.

Lemma blockOut_values l b v : growing l → v ∈ blockOut f l b → (v < V)%nat.
Proof.
  intros Hg. unfold blockOut, phiUses. rewrite elem_of_union, !elem_of_union_list.
  intros [(X & (s & -> & Hs)%list_elem_of_fmap & Hv)|(X & (s & -> & Hs)%list_elem_of_fmap & Hv)]; [|by eapply gr_values].
  unfold phiValues in Hv. apply elem_of_list_to_set, list_elem_of_omap in Hv as (i & Hi & Hv). by eapply (wf_incoming _ Hwf).
Qed.

Lemma visit_growing s b : (b < N)%nat → growing s.1 → growing (visit f s b).1 ∧ le_live s.1 (visit f s b).1.
Proof.
  destruct s as [l ch]. cbn [fst]. intros Hb Hg. set (X := blockIn f (blockOut f l b) b).
  assert (Hin : ∀ c, inOf (visit f (l, ch) b).1 c = if decide (c = b) then X else inOf l c).
  { intros c. unfold inOf. cbn. destruct (decide (c = b)) as [->|Hne]; [|by rewrite list_lookup_insert_ne].
    by rewrite list_lookup_insert_eq by (rewrite (gr_in _ Hg); done). }
  assert (Hle : le_live l (visit f (l, ch) b).1).
  { intros c. rewrite Hin. destruct (decide (c = b)) as [->|]; [apply Hg|done]. }
  split; [|done]. constructor.
  - cbn. rewrite length_insert. apply Hg.
  - cbn. rewrite length_insert. apply Hg.
  - intros c. rewrite Hin. destruct (decide (c = b)) as [->|].
    + apply blockIn_mono, blockOut_mono, Hle.
    + etransitivity; [apply Hg|]. apply blockIn_mono, blockOut_mono, Hle.
  - intros c v. rewrite Hin. destruct (decide (c = b)) as [->|]; [|by apply Hg]. unfold X. rewrite blockIn_walk.
    apply walk_values with b; [intros w; by apply blockOut_values|done].
Qed.

(** ** Termination *)

Definition total (l : liveness) : nat := sum_list_with size (LiveIn l).

Lemma sum_insert (l : list (gset nat)) b X Y : l !! b = Some Y → sum_list_with size (<[b := X]> l) + size Y = sum_list_with size l + size X.
Proof.
  revert b. induction l as [|Z l IH]; intros b Hb; [done|]. destruct b as [|b]; simplify_eq/=; [lia|]. specialize (IH b Hb). lia.
Qed.

Lemma total_le l : growing l → total l <= N * V.
Proof.
  intros Hg. assert (Hall : ∀ X, X ∈ LiveIn l → size X <= V).
  { intros X [b Hb]%list_elem_of_lookup. assert (HX : X ⊆ set_seq 0 V).
    { intros v Hv. apply elem_of_set_seq. split; [lia|]. apply (gr_values _ Hg b). unfold inOf. by rewrite Hb. }
    apply subseteq_size in HX. by rewrite size_set_seq in HX. }
  rewrite <-(gr_in _ Hg). unfold total. induction (LiveIn l) as [|X L IH]; cbn; [lia|].
  pose proof (Hall X). ospecialize (IH _); [intros Y HY; apply Hall; by right|]. ospecialize (H _); [by left|]. lia.
Qed.

Lemma visit_total l ch b : (b < N)%nat → growing l →
  total l <= total (visit f (l, ch) b).1 ∧ ((visit f (l, ch) b).2 = true → ch = true ∨ total l < total (visit f (l, ch) b).1).
Proof.
  intros Hb Hg. destruct (lookup_lt_is_Some_2 (LiveIn l) b) as [Y HY]; [by rewrite (gr_in _ Hg)|]. unfold total. cbn [visit fst snd LiveIn].
  set (X := blockIn f (blockOut f l b) b). pose proof (sum_insert _ _ X _ HY) as Hsum.
  assert (HYin : inOf l b = Y) by (unfold inOf; by rewrite HY). pose proof (gr_below _ Hg b) as Hsub. rewrite HYin in *. fold X in Hsub.
  pose proof (subseteq_size _ _ Hsub). split; [lia|]. intros [->|Hne]%orb_true_iff; [by left|right]. apply negb_true_iff, bool_decide_eq_false in Hne.
  assert (Y ⊂ X) as Hlt%subset_size by set_solver. lia.
Qed.

Lemma visits_ok bs : ∀ l ch, Forall (λ b, (b < N)%nat) bs → growing l → soundL l →
  let '(l', ch') := foldl (visit f) (l, ch) bs in growing l' ∧ soundL l' ∧ total l <= total l' ∧ (ch' = true → ch = true ∨ total l < total l').
Proof.
  induction bs as [|b bs IH]; intros l ch Hbs Hg Hs; cbn [foldl]; [split_and!; auto|]. apply Forall_cons in Hbs as [Hb Hbs].
  destruct (visit_total l ch b Hb Hg) as [T1 T2]. destruct (visit_growing (l, ch) b Hb Hg) as [G1 _]. pose proof (visit_sound (l, ch) b Hs) as S1.
  destruct (visit f (l, ch) b) as [l1 ch1]. cbn [fst snd] in *. specialize (IH l1 ch1 Hbs G1 S1). destruct (foldl (visit f) (l1, ch1) bs) as [l' ch'].
  destruct IH as (? & ? & ? & Hch). split_and!; [done|done|lia|]. intros Hc. destruct (Hch Hc) as [Hc1|]; [destruct (T2 Hc1); [by left|right; lia]|right; lia].
Qed.

Lemma order_bound : Forall (λ b, (b < N)%nat) (reverse (seq 0 N)).
Proof. apply Forall_forall. intros b. rewrite elem_of_reverse, elem_of_seq. lia. Qed.

(** A round that changes nothing has solved the equations. *)
Definition solved (l : liveness) : Prop := ∀ b, (b < N)%nat → inOf l b = blockIn f (blockOut f l b) b ∧ outOf l b = blockOut f l b.

Lemma blockOut_in l l' b : LiveIn l' = LiveIn l → blockOut f l' b = blockOut f l b.
Proof. intros E. unfold blockOut, inOf. by rewrite E. Qed.

Lemma visits_stable bs : ∀ l l', Forall (λ b, (b < N)%nat) bs → length (LiveIn l) = N → length (LiveOut l) = N → foldl (visit f) (l, false) bs = (l', false) →
  LiveIn l' = LiveIn l ∧ length (LiveOut l') = N ∧ ∀ b, b ∈ bs → inOf l b = blockIn f (blockOut f l b) b ∧ outOf l' b = blockOut f l b.
Proof.
  induction bs as [|b bs IH] using rev_ind; intros l l' Hbs Hli Hlo H; [cbn in H; simplify_eq; split_and!; [done|done|]; by intros b ?%not_elem_of_nil|].
  rewrite foldl_app in H. cbn in H. destruct (foldl (visit f) (l, false) bs) as [l1 ch1] eqn:E1. cbn in H. apply Forall_app in Hbs as [Hbs Hb].
  apply Forall_cons in Hb as [Hb _]. injection H as <- [-> Hch]%orb_false_iff. apply negb_false_iff, bool_decide_eq_true in Hch.
  destruct (IH l l1 Hbs Hli Hlo E1) as (Ein & Elo & Hall). rewrite (blockOut_in l l1) in * by done.
  assert (Hinb : inOf l1 b = inOf l b) by (unfold inOf; by rewrite Ein). cbn. split_and!.
  - rewrite Ein. apply list_insert_id. rewrite Hch, Hinb. unfold inOf. destruct (lookup_lt_is_Some_2 (LiveIn l) b) as [Y ->]; [rewrite Hli; exact Hb|done].
  - by rewrite length_insert.
  - intros c Hc. unfold outOf. cbn. destruct (decide (c = b)) as [->|Hne].
    + rewrite Hch, Hinb. split; [done|]. by rewrite list_lookup_insert_eq by (rewrite Elo; exact Hb).
    + rewrite list_lookup_insert_ne by done. apply Hall. set_solver.
Qed.

Lemma iterate_ok fuel : ∀ l, growing l → soundL l → N * V < total l + fuel → ∃ l', iterate fuel f l = Some l' ∧ soundL l' ∧ solved l'.
Proof.
  induction fuel as [|fuel IH]; intros l Hg Hs Hfuel; [pose proof (total_le l Hg); lia|]. cbn [iterate]. unfold round.
  pose proof (visits_ok (reverse (seq 0 N)) l false order_bound Hg Hs) as Hv. fold N. destruct (foldl (visit f) (l, false) (reverse (seq 0 N))) as [l1 [|]] eqn:E.
  - destruct Hv as (G1 & S1 & T1 & T2). destruct (T2 eq_refl) as [|Hlt]; [done|]. apply IH; [done|done|lia].
  - destruct Hv as (G1 & S1 & _). exists l1. split; [done|]. split; [done|]. intros b Hb.
    destruct (visits_stable _ _ _ order_bound (gr_in _ Hg) (gr_out _ Hg) E) as (Ein & _ & Hall). destruct (Hall b) as [H1 H2]; [rewrite elem_of_reverse, elem_of_seq; lia|].
    rewrite (blockOut_in l l1) by done. split; [|done]. rewrite <-H1. unfold inOf. by rewrite Ein.
Qed.

Lemma initial_growing : growing (initialLiveness f) ∧ soundL (initialLiveness f).
Proof.
  assert (Hin : ∀ b, inOf (initialLiveness f) b = ∅) by (intros b; unfold inOf; cbn; destruct (replicate _ _ !! b) eqn:E; [|done]; by apply lookup_replicate in E as [-> _]).
  assert (Hout : ∀ b, outOf (initialLiveness f) b = ∅) by (intros b; unfold outOf; cbn; destruct (replicate _ _ !! b) eqn:E; [|done]; by apply lookup_replicate in E as [-> _]).
  split; [constructor|split].
  - cbn. by rewrite length_replicate.
  - cbn. by rewrite length_replicate.
  - intros b. rewrite Hin. set_solver.
  - intros b v. rewrite Hin. set_solver.
  - intros b v. rewrite Hin. set_solver.
  - intros b v. rewrite Hout. set_solver.
Qed.

(** ** Exactness *)

Lemma insts_beyond b : N <= b → insts f b = [] ∧ succs f b = [].
Proof. intros H. unfold insts, succs. by rewrite (proj2 (lookup_ge_None _ _)) by done. Qed.

Lemma solved_complete l : solved l → ∀ p q v, rtc (moves f v) p q → uses f v q → v ∈ foldr walkBack (blockOut f l p.1) (drop p.2 (insts f p.1)).
Proof.
  intros Hsol p q v Hr Hu. induction Hr as [p|p p' q Hm Hr IH].
  - inversion Hu as [b k i Hi Hp Hv|b s Hs Hv]; subst; cbn [fst snd].
    + rewrite (drop_S _ i) by done. cbn [foldr]. unfold walkBack. rewrite Hp. set_solver.
    + rewrite drop_all. cbn. unfold blockOut, phiUses. apply elem_of_union. left. apply elem_of_union_list. exists (phiValues f b s).
      split; [by apply list_elem_of_fmap_2|done].
  - specialize (IH Hu). inversion Hm as [b k i Hi Hne|b s Hs]; subst; cbn [fst snd] in *.
    + rewrite (drop_S _ i) by done. cbn [foldr]. unfold walkBack at 1. destruct (is_phi i); set_solver.
    + rewrite drop_all. cbn. rewrite drop_0, <-blockIn_walk in IH. destruct (Hsol s) as [Hin _]; [by eapply (wf_succs _ Hwf)|]. rewrite <-Hin in IH.
      unfold blockOut. apply elem_of_union. right. apply elem_of_union_list. exists (inOf l s). split; [by apply list_elem_of_fmap_2|done].
Qed.

Lemma solved_exact l : soundL l → solved l → (∀ b v, (b < N)%nat → v ∈ inOf l b ↔ live f (b, O) v) ∧
  (∀ b v, (b < N)%nat → v ∈ outOf l b ↔ live f (b, length (insts f b)) v).
Proof.
  intros Hs Hsol. split; intros b v Hb; (split; [by apply Hs|]); intros (q & Hr & Hu); pose proof (solved_complete l Hsol _ _ _ Hr Hu) as Hv; cbn [fst snd] in Hv;
    destruct (Hsol b Hb) as [Hin Hout].
  - rewrite drop_0, <-blockIn_walk in Hv. by rewrite Hin.
  - rewrite drop_all in Hv. by rewrite Hout.
Qed.

Lemma analyze_ok : ∃ l, analyze f = Some l ∧ (∀ b v, (b < N)%nat → v ∈ inOf l b ↔ live f (b, O) v) ∧
  (∀ b v, (b < N)%nat → v ∈ outOf l b ↔ live f (b, length (insts f b)) v).
Proof.
  destruct initial_growing as [Hg Hs]. destruct (iterate_ok (rounds f) _ Hg Hs) as (l & Hl & Hsl & Hsol); [unfold rounds; fold N V; lia|].
  exists l. split; [done|]. by apply solved_exact.
Qed.
End Iteration.

(** ** Queries *)

Lemma insts_block f b k i : insts f b !! k = Some i → (b < length (f_blocks f))%nat.
Proof. unfold insts. destruct (f_blocks f !! b) eqn:E; [by apply lookup_lt_Some in E|done]. Qed.

Lemma live_value f p v : wf f → live f p v → (v < valueCount f)%nat.
Proof.
  intros Hwf (q & _ & Hu). inversion Hu as [b k i Hi _ Hv|b s Hs Hv]; subst; [by eapply (wf_ops _ Hwf); [eapply list_elem_of_lookup_2|]|].
  unfold phiValues in Hv. apply elem_of_list_to_set, list_elem_of_omap in Hv as (i & Hi & Hv). by eapply (wf_incoming _ Hwf).
Qed.

(** Every value below the count is an argument or an instruction. *)
Lemma program_order f vs v : wf f → (v < valueCount f)%nat → v ∈ ValuesInProgramOrder f vs ↔ v ∈ vs.
Proof.
  intros Hwf Hv. unfold ValuesInProgramOrder. rewrite (wf_numbering _ Hwf), elem_of_app, !list_elem_of_filter, !elem_of_seq.
  unfold valueCount, instructions in *. split; [by intros [[? _]|[? _]]|]. intros Hin. destruct (decide (v < f_args f)); [left|right]; split; try done; lia.
Qed.

Section Queries.
Context (f : func) (Hwf : wf f) (l : liveness).
Context (Hin : ∀ b v, (b < length (f_blocks f))%nat → v ∈ inOf l b ↔ live f (b, O) v).
Context (Hout : ∀ b v, (b < length (f_blocks f))%nat → v ∈ outOf l b ↔ live f (b, length (insts f b)) v).

Lemma liveAfter_exact b k i v : insts f b !! k = Some i → v ∈ liveAfter f l b k ↔ live f (b, S k) v.
Proof.
  intros Hi. pose proof (lookup_lt_Some _ _ _ Hi). pose proof (insts_block _ _ _ _ Hi). unfold liveAfter.
  eapply live_walk; [intros w; by apply Hout|done|lia].
Qed.

Lemma liveAcross_exact from to v : (to < length (f_blocks f))%nat → v ∈ liveAcross f l from to ↔ v ∈ phiValues f from to ∨ live f (to, O) v.
Proof. intros Hto. unfold liveAcross. rewrite elem_of_union, (Hin to v Hto). tauto. Qed.

Lemma ordered_after b k i v : insts f b !! k = Some i → v ∈ ValuesInProgramOrder f (liveAfter f l b k) ↔ live f (b, S k) v.
Proof.
  intros Hi. split.
  - unfold ValuesInProgramOrder. rewrite elem_of_app, !list_elem_of_filter. intros [[Hv _]|[Hv _]]; by eapply liveAfter_exact.
  - intros Hv. apply program_order; [done|by eapply live_value|by eapply liveAfter_exact].
Qed.

Lemma callCrossing_exact b k i v : insts f b !! k = Some i →
  v ∈ callCrossing f l (b, k) ↔ live f (b, S k) v ∧ i_id i ≠ v ∧ inFrame f v = false.
Proof.
  intros Hi. unfold callCrossing. rewrite list_elem_of_filter. cbn [fst snd]. rewrite (ordered_after b k i v Hi). unfold idAt. rewrite Hi. cbn. naive_solver.
Qed.

Lemma edgeCrossing_exact dominates h t v : insts f t ≠ [] →
  v ∈ edgeCrossing dominates f l (h, t) ↔ (∃ i, i ∈ insts f h ∧ is_phi i = true ∧ i_id i = v) ∨
    (live f (t, length (insts f t)) v ∧ inFrame f v = false ∧ match definedIn f v with Some b => dominates h b = false | None => True end).
Proof.
  intros Ht. unfold edgeCrossing. cbn [fst snd]. rewrite elem_of_app, list_elem_of_fmap, list_elem_of_filter.
  destruct (lookup_lt_is_Some_2 (insts f t) (pred (length (insts f t)))) as [i Hi]; [destruct (insts f t); [done|cbn; lia]|].
  rewrite (ordered_after _ _ _ v Hi). replace (S (pred (length (insts f t)))) with (length (insts f t)) by (destruct (insts f t); [done|done]).
  assert (Hd : (match definedIn f v with Some b => negb (dominates h b) | None => true end) = true ↔ match definedIn f v with Some b => dominates h b = false | None => True end).
  { destruct (definedIn f v); [apply negb_true_iff|done]. }
  rewrite Hd. split; [intros [(j & -> & [? ?]%list_elem_of_filter)|?]; [left; by exists j|right; tauto]|].
  intros [(j & ? & ? & <-)|?]; [left; exists j; split; [done|by apply list_elem_of_filter]|right; tauto].
Qed.
End Queries.

(** Suspension points of the function. *)
Definition goodSuspensions (f : func) (s : suspensions) : Prop :=
  (∀ b k, (b, k) ∈ s_calls s → is_Some (insts f b !! k)) ∧ (∀ h t, (h, t) ∈ s_backedges s → insts f t ≠ []).

(** C40: The liveness analysis terminates within [blocks * values + 1] rounds
    and is exact: a value is live after an instruction, or across an edge,
    exactly when some path from there reaches a use of it (an operand, or a
    PHI operand on its own edge) without redefining it.  A demotion round
    therefore moves to memory, each once, exactly the values that must survive
    a suspending call (arguments, allocas and the call's own result excepted),
    the PHIs of a suspended loop header and the values that cross its backedge
    and are not recomputed below the header. *)
Theorem liveness_exact f dominates s : wf f → goodSuspensions f s →
  ∃ l, analyze f = Some l ∧
    (∀ b k i v, insts f b !! k = Some i → v ∈ liveAfter f l b k ↔ live f (b, S k) v) ∧
    (∀ from to v, (to < length (f_blocks f))%nat → v ∈ liveAcross f l from to ↔ v ∈ phiValues f from to ∨ live f (to, O) v) ∧
    NoDup (crossing dominates f l s) ∧
    ∀ v, v ∈ crossing dominates f l s ↔
      (∃ b k i, (b, k) ∈ s_calls s ∧ insts f b !! k = Some i ∧ live f (b, S k) v ∧ i_id i ≠ v ∧ inFrame f v = false) ∨
      (∃ h t, (h, t) ∈ s_backedges s ∧ ((∃ i, i ∈ insts f h ∧ is_phi i = true ∧ i_id i = v) ∨
        (live f (t, length (insts f t)) v ∧ inFrame f v = false ∧ match definedIn f v with Some b => dominates h b = false | None => True end))).
Proof.
  intros Hwf [Hcalls Hedges]. destruct (analyze_ok f Hwf) as (l & Hl & Hin & Hout). exists l. split; [done|].
  split; [intros; by eapply liveAfter_exact|]. split; [intros; by eapply liveAcross_exact|]. split; [apply NoDup_remove_dups|].
  intros v. unfold crossing. rewrite elem_of_remove_dups, elem_of_app, !list_elem_of_bind. split.
  - intros [([b k] & Hv & Hp)|([h t] & Hv & Hp)].
    + left. destruct (Hcalls b k Hp) as [i Hi]. exists b, k, i. split; [done|]. split; [done|]. by eapply callCrossing_exact.
    + right. exists h, t. split; [done|]. eapply edgeCrossing_exact; eauto.
  - intros [(b & k & i & Hp & Hi & Hv)|(h & t & Hp & Hv)].
    + left. exists (b, k). split; [by eapply callCrossing_exact|done].
    + right. exists (h, t). split; [eapply edgeCrossing_exact; eauto|done].
Qed.

(** A loop that calls in its body: argument 0 is the bound, 1 an alloca, the
    header's PHI 3 the counter and 6 the call. *)
Definition sampleLoop : func := Func 1
  [Block [Inst 1 KAlloca []; Inst 2 KOther []] [1];
   Block [Inst 3 (KPhi [(0, None); (2, Some 7)]) []; Inst 4 KOther [3; 0]; Inst 5 KOther [4]] [2; 3];
   Block [Inst 6 KOther [1]; Inst 7 KOther [3]; Inst 8 KOther []] [1];
   Block [Inst 9 KOther [3; 1]] []].

Definition sampleSuspensions : suspensions := Suspensions [(2, 0)] [(1, 2)].
Definition sampleDominates (a b : nat) : bool := (a <=? b)%nat.

(** Only the counter crosses. *)
Example sample_crossing : (λ l, crossing sampleDominates sampleLoop l sampleSuspensions) <$> analyze sampleLoop = Some [3].
Proof. by vm_compute. Qed.

Lemma sampleLoop_wf : wf sampleLoop.
Proof.
  assert (Hb : ∀ b i, i ∈ insts sampleLoop b → b = 0 ∨ b = 1 ∨ b = 2 ∨ b = 3).
  { intros b i Hi. do 4 (destruct b as [|b]; [lia|]). by apply not_elem_of_nil in Hi. }
  constructor; [done|..].
  - intros b i v Hi Hv. destruct (Hb b i Hi) as [-> | [-> | [-> | ->]]]; cbn in Hi; set_unfold in Hi; destruct_or! Hi; subst; cbn in Hv; set_unfold in Hv; unfold valueCount; cbn; lia.
  - intros b i from v Hi Hv. destruct (Hb b i Hi) as [-> | [-> | [-> | ->]]]; cbn in Hi; set_unfold in Hi; destruct_or! Hi; subst; cbn in Hv; try done.
    repeat case_decide; simplify_eq/=. unfold valueCount; cbn; lia.
  - intros b s Hs. do 4 (destruct b as [|b]; [cbn in Hs; set_unfold in Hs; cbn; lia|]). by apply not_elem_of_nil in Hs.
Qed.

Lemma liveness_exact_witness : ∃ l, analyze sampleLoop = Some l ∧ ∀ v, v ∈ crossing sampleDominates sampleLoop l sampleSuspensions → v = 3.
Proof.
  destruct (liveness_exact sampleLoop sampleDominates sampleSuspensions sampleLoop_wf) as (l & Hl & _).
  { split.
    - intros b k Hp. cbn in Hp. apply list_elem_of_singleton in Hp. injection Hp as -> ->. by eexists.
    - intros h t Hp. cbn in Hp. apply list_elem_of_singleton in Hp. by injection Hp as -> ->. }
  exists l. split; [exact Hl|]. pose proof sample_crossing as Hc. rewrite Hl in Hc. cbn [fmap option_fmap option_map] in Hc. injection Hc as Hc.
  intros v Hv. rewrite Hc in Hv. by apply list_elem_of_singleton in Hv.
Defined.
