(* ===== verification/FixedImage.v ===== *)
(** * The fixed-memory image ([src/src/pass/memory.cpp])

    On kernels without an arena the memory pass gives every movable global an
    offset in one flat address space, serialises the initialisers into an
    image of bytes, lists the words that hold addresses in a fixup table,
    cuts the image into region maps and writes the object's configuration
    record.  This file holds the operations; [FixedImageFacts] and
    [FixedImageProps] prove that a loaded and relocated image holds exactly
    the values of the initialisers.

    LLVM's data layout is a parameter ([DataLayout]) with the documented laws
    the pass relies on ([DataLayoutLaws]). *)

From Stdlib Require Import ZArith Lia.
From stdpp Require Import base numbers list gmap strings.
From S2P Require Import Prelude Fiber Host.

Module FixedImage.
Import Fiber Host.
Local Open Scope Z_scope.

(** ** Types and their layout *)

Inductive ty :=
| IntegerTy (bits : Z)
| FloatTy (bits : Z)
| PointerTy
| ArrayTy (count : nat) (element : ty)
| StructTy (packed : bool) (elements : list ty).

(** LLVM's [DataLayout]: allocation sizes, and the offsets of
    [getStructLayout]. *)
Class DataLayout := {
  getTypeAllocSize : ty → Z;
  getElementOffset : bool → list ty → nat → Z;
}.

Class DataLayoutLaws (DL : DataLayout) : Prop := {
  alloc_size_nonneg t : 0 <= getTypeAllocSize t;
  alloc_size_pointer : getTypeAllocSize PointerTy = 8;
  alloc_size_array n t : getTypeAllocSize (ArrayTy n t) = Z.of_nat n * getTypeAllocSize t;
  element_inside p ts i t : ts !! i = Some t →
    0 <= getElementOffset p ts i ∧ getElementOffset p ts i + getTypeAllocSize t <= getTypeAllocSize (StructTy p ts);
  element_order p ts i j t u : (i < j)%nat → ts !! i = Some t → ts !! j = Some u →
    getElementOffset p ts i + getTypeAllocSize t <= getElementOffset p ts j;
}.

(** ** Constants *)

Inductive cast_opcode := IntToPtr | PtrToInt | BitCast | AddrSpaceCast | Trunc | ZExt | SExt.
Inductive binary_opcode := Add | Sub.

(** An initialiser.  [offset] of an address computation is what
    [accumulateConstantOffset] finds, and [allZero] whether every index is
    zero; [OtherExpr] is any constant expression the pass does not resolve. *)
Inductive constant :=
| ConstantZero (t : ty)
| UndefValue (t : ty)
| ConstantInt (bits value : Z)
| ConstantFP (bits pattern : Z)
| ConstantDataSequential (element : ty) (count : nat) (raw : list Z)
| ConstantArray (element : ty) (operands : list constant)
| ConstantStruct (packed : bool) (operands : list constant)
| FunctionRef (name : string)
| GlobalRef (name : string)
| CastExpr (op : cast_opcode) (t : ty) (operand : constant)
| BinaryExpr (op : binary_opcode) (lhs rhs : constant)
| GEPExpr (allZero : bool) (base : constant) (offset : option Z)
| OtherExpr (t : ty).

Fixpoint typeOf (c : constant) : ty :=
  match c with
  | ConstantZero t | UndefValue t | OtherExpr t => t
  | ConstantInt bits _ => IntegerTy bits
  | ConstantFP bits _ => FloatTy bits
  | ConstantDataSequential element count _ => ArrayTy count element
  | ConstantArray element operands => ArrayTy (length operands) element
  | ConstantStruct packed operands => StructTy packed (map typeOf operands)
  | FunctionRef _ | GlobalRef _ | GEPExpr _ _ _ => PointerTy
  | CastExpr _ t _ => t
  | BinaryExpr _ lhs _ => typeOf lhs
  end.

(** [Constant::isNullValue]; LLVM folds an aggregate of zeros into
    [ConstantZero]. *)
Definition isNullValue (c : constant) : bool :=
  match c with
  | ConstantZero _ => true
  | ConstantInt _ v | ConstantFP _ v => v =? 0
  | _ => false
  end.

(** The function a pointer constant denotes behind its pointer casts. *)
Fixpoint strippedFunction (c : constant) : option string :=
  match c with
  | FunctionRef f => Some f
  | CastExpr (BitCast | AddrSpaceCast) _ c => strippedFunction c
  | GEPExpr true c _ => strippedFunction c
  | _ => None
  end.

(** ** Function identities *)

Inductive memory_error :=
| ImageNotRepresentable
| PointerSlotWidth
| TokenRangeExhausted
| CannotLayOut (global : string)
| CannotAlign (global : string)
| ExceedsDomain (global : string)
| CannotFitRegion (global : string)
| StorageExceedsDomain
| ImageExceedsDirectMaps
| NoMapSlots
| DirectRegionsOutOfRange
| MalformedStackBank
| NoSoftwareStack
| FiberAbiMismatch
| LayoutNotPristine
| BackendMismatch
| InvalidHeapOrFibers
| InvalidStackAlignment
| ExceedsAddressDomain
| ExceedsOffsetDomain
| NoArrayBacking
| CannotResolveInitializer
| InitializerWidth
| FixupTableTooLarge
| ImageExceedsArena
| MemoryExceedsArena.

Definition IsTokenDisplacement (value : Z) : bool :=
  (FUNCTION_TOKEN_DISPLACEMENT <=? value) && (value <? FUNCTION_TOKEN_DISPLACEMENT + FUNCTION_TOKEN_SPAN).

(** The pass object's state while it serialises: the image so far, the fixup
    slots, and the identities given to functions. *)
Record emission := Emission {
  imageBytes : list Z;
  FixupSlots : list Z;
  FunctionIds : gmap string Z;
  NextFunctionId : Z;
}.

Definition firstFunctionId : Z := FUNCTION_TOKEN_DISPLACEMENT + MANAGED_FUNCTION_TOKEN_SPAN.

Definition GetFunctionId (f : string) (st : emission) : result memory_error (Z * emission) :=
  match FunctionIds st !! f with
  | Some id => Ok (id, st)
  | None =>
      if FUNCTION_TOKEN_DISPLACEMENT + FUNCTION_TOKEN_SPAN <=? NextFunctionId st then Err TokenRangeExhausted
      else Ok (NextFunctionId st,
               Emission (imageBytes st) (FixupSlots st) (<[f := NextFunctionId st]> (FunctionIds st)) (NextFunctionId st + 1))
  end.

(** ** Serialisation *)

(** The integer a pointer-shaped constant has become, and how many absolute
    addresses it sums to. *)
Fixpoint ResolvePointerConstant (offsets : gmap string Z) (c : constant) : option (Z * Z) :=
  match c with
  | ConstantInt _ v => Some (u64 v, 0)
  | GlobalRef g => match offsets !! g with Some offset => Some (offset, 1) | None => None end
  | CastExpr _ _ c => ResolvePointerConstant offsets c
  | BinaryExpr op lhs rhs =>
      match ResolvePointerConstant offsets lhs, ResolvePointerConstant offsets rhs with
      | Some (l, nl), Some (r, nr) =>
          match op with Sub => Some (u64 (l - r), nl - nr) | Add => Some (u64 (l + r), nl + nr) end
      | _, _ => None
      end
  | GEPExpr _ base offset =>
      match ResolvePointerConstant offsets base, offset with
      | Some (b, n), Some delta => Some (u64 (b + delta), n)
      | _, _ => None
      end
  | _ => None
  end.

(** [std::vector::resize] to at least [n] bytes. *)
Definition resizeImage (n : Z) (l : list Z) : list Z :=
  if Z.of_nat (length l) <? n then l ++ replicate (Z.to_nat n - length l) 0 else l.

(** Consecutive assignments [image[at + i] = bytes[i]]. *)
Fixpoint writeBytes (at_ : Z) (bs l : list Z) : list Z :=
  match bs with
  | [] => l
  | b :: bs => writeBytes (at_ + 1) bs (<[Z.to_nat at_ := b]> l)
  end.

(** The [size] low bytes of an integer, least significant first. *)
Definition leBytes (v : Z) (size : nat) : list Z := map (λ i, Z.shiftr v (8 * Z.of_nat i) mod 256) (seq 0 size).

Definition withImage (st : emission) (l : list Z) : emission :=
  Emission l (FixupSlots st) (FunctionIds st) (NextFunctionId st).

(** The end of [EmitConstant]: a pointer-shaped constant of [size] bytes. *)
Definition emitPointer (offsets : gmap string Z) (c : constant) (at_ size : Z) (st : emission) : result memory_error emission :=
  match ResolvePointerConstant offsets c with
  | None => Err (CannotLayOut EmptyString)
  | Some (value, addressness) =>
      let absolute := (addressness =? 1) || IsTokenDisplacement value in
      if absolute && negb (size =? 8) then Err PointerSlotWidth
      else
        Ok (Emission (writeBytes at_ (leBytes value (Z.to_nat size)) (imageBytes st))
              (if absolute then FixupSlots st ++ [at_] else FixupSlots st) (FunctionIds st) (NextFunctionId st))
  end.

Section emit.
Context {DL : DataLayout}.

(** The loop over the operands of an aggregate; [offsetOf i] is the place of
    operand [i]. *)
Section operands.
Context (emit : constant → Z → emission → result memory_error emission) (offsetOf : nat → Z).

Fixpoint emitOperands (i : nat) (operands : list constant) (st : emission) : result memory_error emission :=
  match operands with
  | [] => Ok st
  | c :: operands =>
      match emit c (offsetOf i) st with
      | Ok st => emitOperands (S i) operands st
      | Err e => Err e
      end
  end.
End operands.

Fixpoint EmitConstant (offsets : gmap string Z) (c : constant) (at_ : Z) (st : emission) {struct c} :
    result memory_error emission :=
  let size := getTypeAllocSize (typeOf c) in
  if (2 ^ 64 - 1 - at_ <? size) || (2 ^ 64 - 1 <? at_ + size) then Err ImageNotRepresentable
  else
    let st := withImage st (resizeImage (at_ + size) (imageBytes st)) in
    if isNullValue c then Ok st
    else
      match c with
      | ConstantZero _ | UndefValue _ => Ok st
      | ConstantInt _ v | ConstantFP _ v => Ok (withImage st (writeBytes at_ (leBytes v (Z.to_nat size)) (imageBytes st)))
      | ConstantDataSequential _ _ raw => Ok (withImage st (writeBytes at_ (take (Z.to_nat size) raw) (imageBytes st)))
      | ConstantArray element operands =>
          let stride := getTypeAllocSize element in
          emitOperands (EmitConstant offsets) (λ i, at_ + Z.of_nat i * stride) 0 operands st
      | ConstantStruct packed operands =>
          emitOperands (EmitConstant offsets) (λ i, at_ + getElementOffset packed (map typeOf operands) i) 0 operands st
      | _ =>
          match strippedFunction c with
          | Some f =>
              match GetFunctionId f st with
              | Ok (id, st) => emitPointer offsets (CastExpr IntToPtr PointerTy (ConstantInt 64 id)) at_ size st
              | Err e => Err e
              end
          | None => emitPointer offsets c at_ size st
          end
      end.

(** ** Globals *)

Record global := Global {
  g_name : string;
  g_declaration : bool;
  g_section : string;
  g_addrspace : Z;
  g_native : bool;
  g_capsule : bool;
  g_constant : bool;
  g_align : option Z;
  g_init : constant;
}.

Definition ArenaAS : Z := 1.

Definition IsMovableGlobal (g : global) : bool :=
  negb (String.prefix "llvm." (g_name g)) && negb (g_declaration g) && bool_decide (g_section g = EmptyString) &&
  negb (g_addrspace g =? ArenaAS) && negb (g_native g && negb (g_capsule g)).

Definition CallStack : string := "bpf_call_stack".

Definition isCallStack (g : global) : bool := bool_decide (g_name g = CallStack).

(** The rank of the stable sort: initialised data, zero data, the stack bank. *)
Definition rank (g : global) : Z :=
  if negb (isNullValue (g_init g)) then 0 else if isCallStack g then 2 else 1.

Definition stableSort (l : list global) : list global :=
  filter (λ g, rank g = 0) l ++ filter (λ g, rank g = 1) l ++ filter (λ g, rank g = 2) l.

Definition isPowerOf2 (x : Z) : bool := (0 <? x) && (Z.land x (x - 1) =? 0).

Definition AlignWithin (value alignment limit : Z) : option Z :=
  if negb (isPowerOf2 alignment) || (limit <? value) then None
  else
    let remainder := Z.land value (alignment - 1) in
    let padding := if remainder =? 0 then 0 else alignment - remainder in
    if limit - value <? padding then None else Some (value + padding).

Definition span : Z := Z.shiftl 1 MEMORY_REGION_SHIFT.
Definition addressLimit : Z := Z.shiftl 1 32.

(** ** Placement *)

Record placement := Placement { cursor : Z; offsetsOf : gmap string Z; Spanning : list (Z * Z) }.

(** One iteration of the placement loop. *)
Definition placeGlobal (g : global) (p : placement) : result memory_error placement :=
  if isCallStack g then Ok p
  else
    let align := Z.max (default 1 (g_align g)) 8 in
    let size := getTypeAllocSize (typeOf (g_init g)) in
    match AlignWithin (cursor p) align addressLimit with
    | None => Err (CannotAlign (g_name g))
    | Some cursor =>
        if addressLimit - cursor <? size then Err (ExceedsDomain (g_name g))
        else
          match (if negb (size =? 0) && (size <=? span) &&
                    negb (Z.shiftr cursor MEMORY_REGION_SHIFT =? Z.shiftr (cursor + size - 1) MEMORY_REGION_SHIFT)
                 then match AlignWithin cursor span addressLimit with
                      | Some next => if addressLimit - next <? size then None else Some next
                      | None => None
                      end
                 else Some cursor) with
          | None => Err (CannotFitRegion (g_name g))
          | Some cursor =>
              Ok (Placement (cursor + size) (<[g_name g := cursor]> (offsetsOf p))
                    (if span <? size then Spanning p ++ [(cursor, cursor + size)] else Spanning p))
          end
    end.

Definition placeGlobals (movable : list global) : result memory_error placement :=
  foldM placeGlobal movable (Placement ARENA_PAGE_SIZE ∅ []).

(** The end of the initialised data. *)
Definition initializedEnd (offsets : gmap string Z) (movable : list global) : Z :=
  foldl (λ e g, if isCallStack g || isNullValue (g_init g) then e
                else Z.max e (default 0 (offsets !! g_name g) + getTypeAllocSize (typeOf (g_init g)))) 0 movable.

(** One iteration of the serialisation loop. *)
Definition emitGlobal (offsets : gmap string Z) (g : global) (st : emission) : result memory_error emission :=
  if isNullValue (g_init g) then Ok st
  else
    match EmitConstant offsets (g_init g) (default 0 (offsets !! g_name g)) st with
    | Ok st => Ok st
    | Err (CannotLayOut _) => Err (CannotLayOut (g_name g))
    | Err e => Err e
    end.

(** ** Regions *)

(** The initialiser of region [r] after the image is installed: its slice of
    the image, zero beyond it; a region whose slice is zero keeps the empty
    initialiser. *)
Definition regionContent (l : list Z) (r : nat) : list Z :=
  let begin := Z.of_nat r * span in
  let imageSize := Z.of_nat (length l) in
  if imageSize <=? begin then []
  else
    let taken := Z.min span (imageSize - begin) in
    let content := take (Z.to_nat taken) (drop (Z.to_nat begin) l) in
    if forallb (λ b, b =? 0) content then [] else content.

Definition InstallImage (l : list Z) (count : nat) : list (list Z) := map (regionContent l) (seq 0 count).

(** ** The map budget *)

Definition MapsSection : string := ".maps".
Definition FixupSection : string := ".rodata.bpffix".

(** The section in which a kept global lands, and whether it is a map. *)
Definition budgetSection (g : global) : option (string + unit) :=
  if bool_decide (g_section g = ".kconfig"%string) then Some (inl ".kconfig"%string)
  else if g_declaration g || String.prefix "llvm." (g_name g) || IsMovableGlobal g then None
  else if bool_decide (g_section g = MapsSection) || String.prefix ".struct_ops" (g_section g) then Some (inr tt)
  else if String.prefix ".data" (g_section g) || String.prefix ".bss" (g_section g) || String.prefix ".rodata" (g_section g)
  then Some (inl (g_section g))
  else if bool_decide (g_section g = EmptyString)
  then Some (inl (if g_constant g then ".rodata" else if isNullValue (g_init g) then ".bss" else ".data")%string)
  else None.

(** [option] is the value of [--direct-map-regions] when it is given. *)
Definition DirectRegionBudget (option : option Z) (globals : list global) : result memory_error Z :=
  let uses := omap budgetSection globals in
  let sections : gset string :=
    list_to_set ([FixupSection; ".rodata"%string] ++ omap (λ u, match u with inl s => Some s | inr _ => None end) uses) in
  let maps := Z.of_nat (length (filter (λ u, u = inr tt) uses)) + Z.of_nat (size sections) in
  if 64 <=? maps then Err NoMapSlots
  else
    let available := 64 - maps in
    match option with
    | Some n => if (n =? 0) || (available <? n) then Err DirectRegionsOutOfRange else Ok n
    | None => Ok (Z.shiftl 1 (Z.log2 available))
    end.

(** ** The configuration record *)

(** [alignTo] of LLVM. *)
Definition alignTo (value alignment : Z) : Z := (value + alignment - 1) / alignment * alignment.

(** [c] is the record the runtime was linked with. *)
Definition ConfigureObjectLayout (c : config) (heapBase stackBytesPerFiber maxFibers arenaImagePages memoryBackend
    stackFloor stackAlignment directRegions : Z) : result memory_error config :=
  if (negb (stack_bytes_per_fiber c =? 0) && negb (stack_bytes_per_fiber c =? stackBytesPerFiber)) ||
     negb (max_fibers c =? maxFibers) || negb (abi_magic c =? ABI_MAGIC) || negb (abi_version c =? ABI_VERSION)
  then Err FiberAbiMismatch
  else if negb (heap_base c =? 0) || negb (stack_base c =? 0) || negb (memory_end c =? 0) ||
          negb (arena_image_pages c =? 0) || negb (direct_memory_regions c =? 0)
  then Err LayoutNotPristine
  else if negb (memory_backend c =? memoryBackend) then Err BackendMismatch
  else if (fiber_count c =? 0) || (maxFibers <? fiber_count c) || (stackBytesPerFiber =? 0) ||
          (addressLimit <? heapBase) || (addressLimit - heapBase <? heap_bytes c)
  then Err InvalidHeapOrFibers
  else if negb (isPowerOf2 stackAlignment) then Err InvalidStackAlignment
  else
    let heapEnd := heapBase + heap_bytes c in
    let stackBase := alignTo (Z.max heapEnd stackFloor) stackAlignment in
    if (addressLimit <? stackBase) || ((addressLimit - stackBase) / stackBytesPerFiber <? fiber_count c)
    then Err ExceedsAddressDomain
    else
      let memoryEnd := stackBase + fiber_count c * stackBytesPerFiber in
      if 2 ^ 32 - 1 <? memoryEnd then Err ExceedsOffsetDomain
      else Ok (Config (u32 heapBase) (u32 (heap_bytes c)) (u32 stackBase) (u32 memoryEnd) (u32 (fiber_count c))
                 (u32 stackBytesPerFiber) (u32 maxFibers) (u32 arenaImagePages) (u32 memoryBackend) (u32 directRegions)
                 ABI_MAGIC ABI_VERSION 0).

(** ** The stack bank *)

(** The size of the bank [SoftwareStackBytes_] and of one fiber's slice. *)
Definition ConfigureSoftwareStack (bank : option (Z * option Z)) (maximumSliceBytes : Z) : result memory_error (Z * Z) :=
  match bank with
  | None => Ok (0, 0)
  | Some (bytes, slice) =>
      let slice := default 0 slice in
      if (slice =? 0) || negb (isPowerOf2 slice) || (maximumSliceBytes <? slice) || negb (bytes mod slice =? 0)
      then Err MalformedStackBank else Ok (bytes, slice)
  end.

(** ** The pass *)

(** What the fixed-memory pass leaves in the object, the rewriting of code
    apart. *)
Record fixed_object := FixedObject {
  o_offsets : gmap string Z;
  o_spanning : list (Z * Z);
  o_regions : list (list Z);
  o_fixups : list Z;
  o_functions : gmap string Z;
  o_config : config;
  o_arrayRegions : Z;
}.

(** [slice] is the per-fiber stack size recorded on the bank, [ids] the
    function identities the code already uses. *)
Definition runFixedMemory (option slice : option Z) (globals : list global) (linked : config) (ids : gmap string Z)
    (next : Z) : result memory_error fixed_object :=
  directRegions ← DirectRegionBudget option globals;
  let movable := stableSort (filter (λ g, IsMovableGlobal g = true) globals) in
  let bank := head (filter (λ g, isCallStack g = true) movable) in
  '(stackBytes, sliceBytes) ← ConfigureSoftwareStack ((λ g, (getTypeAllocSize (typeOf (g_init g)), slice)) <$> bank) span;
  p ← placeGlobals movable;
  match AlignWithin (cursor p) 16 addressLimit with
  | None => Err StorageExceedsDomain
  | Some heapBase =>
      if directRegions * span <? initializedEnd (offsetsOf p) movable then Err ImageExceedsDirectMaps
      else
        st ← foldM (emitGlobal (offsetsOf p)) movable (Emission [] [] ids next);
        let imageRegions := (Z.of_nat (length (imageBytes st)) + span - 1) / span in
        if directRegions <? imageRegions then Err ImageExceedsDirectMaps
        else if bool_decide (bank = None) then Err NoSoftwareStack
        else
          c ← ConfigureObjectLayout linked heapBase sliceBytes (stackBytes / sliceBytes) 0 MEMORY_FIXED
                (directRegions * span) span directRegions;
          let defaultRegions := (memory_end c + span - 1) / span in
          let arrayRegions := defaultRegions - directRegions in
          if arrayRegions =? 0 then Err NoArrayBacking
          else Ok (FixedObject (offsetsOf p) (Spanning p ++ [(heapBase, 2 ^ 32)])
                     (InstallImage (imageBytes st) (Z.to_nat directRegions)) (FixupSlots st) (FunctionIds st) c arrayRegions)
  end.
End emit.
End FixedImage.
