(* ===== verification/FixedImageFacts.v ===== *)
(** * What an image means, and that serialisation produces it

    [constantByte] gives the bytes of an initialiser in a program loaded at a
    window: the specification.  [emit_spec] shows that [EmitConstant] leaves
    bytes which become exactly those once the window is added to the words of
    the fixup slots it recorded. *)

From Stdlib Require Import ZArith Lia.
From stdpp Require Import base numbers list gmap strings.
From S2P Require Import Prelude Bytes Fiber Host FixedImage.
Import Fiber Host FixedImage.

Local Open Scope Z_scope.

(** ** Vectors of bytes *)

(** The byte at address [a], zero past the end. *)
Definition byteAt (l : list Z) (a : Z) : Z := default 0 (l !! Z.to_nat a).

Lemma byteAt_app_zero l n a : byteAt (l ++ replicate n 0) a = byteAt l a.
Proof.
  unfold byteAt. destruct (decide (Z.to_nat a < length l)%nat) as [Hlt|Hge].
  - by rewrite lookup_app_l.
  - rewrite lookup_app_r, (lookup_ge_None_2 l) by lia.
    destruct (replicate n 0 !! _) as [x|] eqn:E; [|done]. apply lookup_replicate in E as [-> _]. done.
Qed.

Lemma byteAt_resize n l a : byteAt (resizeImage n l) a = byteAt l a.
Proof. unfold resizeImage. destruct (_ <? _); [apply byteAt_app_zero|done]. Qed.

Lemma length_resize n l : Z.of_nat (length (resizeImage n l)) = Z.max (Z.of_nat (length l)) n.
Proof.
  unfold resizeImage. destruct (Z.ltb_spec (Z.of_nat (length l)) n); [|lia].
  rewrite length_app, length_replicate. lia.
Qed.

Lemma length_writeBytes at_ bs l : length (writeBytes at_ bs l) = length l.
Proof. revert at_ l. induction bs as [|b bs IH]; intros at_ l; [done|]. simpl. by rewrite IH, length_insert. Qed.

Lemma byteAt_insert l i b a : 0 <= i < Z.of_nat (length l) → 0 <= a →
  byteAt (<[Z.to_nat i := b]> l) a = if a =? i then b else byteAt l a.
Proof.
  intros Hi Ha. unfold byteAt. destruct (Z.eqb_spec a i) as [->|Hne].
  - by rewrite list_lookup_insert_eq by lia.
  - by rewrite list_lookup_insert_ne by lia.
Qed.

Lemma byteAt_writeBytes at_ bs l a :
  0 <= at_ → at_ + Z.of_nat (length bs) <= Z.of_nat (length l) → 0 <= a →
  byteAt (writeBytes at_ bs l) a =
  if (at_ <=? a) && (a <? at_ + Z.of_nat (length bs)) then byteAt bs (a - at_) else byteAt l a.
Proof.
  revert at_ l. induction bs as [|b bs IH]; intros at_ l Hat Hlen Ha; cbn [writeBytes length] in *.
  { destruct (Z.leb_spec at_ a), (Z.ltb_spec a (at_ + Z.of_nat 0)); simpl; (done || lia). }
  rewrite IH by (rewrite ?length_insert; lia). rewrite byteAt_insert by lia.
  replace (at_ + 1 + Z.of_nat (length bs)) with (at_ + Z.of_nat (S (length bs))) by lia.
  destruct (Z.leb_spec (at_ + 1) a), (Z.leb_spec at_ a), (Z.ltb_spec a (at_ + Z.of_nat (S (length bs)))),
    (Z.eqb_spec a at_); cbn [andb]; try done; try lia.
  - unfold byteAt. f_equal. replace (Z.to_nat (a - at_)) with (S (Z.to_nat (a - (at_ + 1)))) by lia. done.
  - subst a. unfold byteAt. by rewrite Z.sub_diag.
Qed.

Lemma length_leBytes v n : length (leBytes v n) = n.
Proof. unfold leBytes. by rewrite length_map, length_seq. Qed.

(** Byte [k] of an integer. *)
Definition byteOf (v k : Z) : Z := Z.shiftr v (8 * k) mod 256.

Lemma byteOf_div v k : 0 <= k → byteOf v k = v / 256 ^ k mod 256.
Proof. intros Hk. unfold byteOf. rewrite Z.shiftr_div_pow2 by lia. by rewrite Z.pow_mul_r by lia. Qed.

Lemma byteAt_leBytes v n k : 0 <= k < Z.of_nat n → byteAt (leBytes v n) k = byteOf v k.
Proof.
  intros Hk. unfold byteAt, leBytes, byteOf. change (map ?f ?l) with (f <$> l).
  rewrite list_lookup_fmap, lookup_seq_lt by lia. simpl. do 3 f_equal. lia.
Qed.

(** The low bytes depend on the low bits only. *)
Lemma byteOf_mod v v' w k : 0 <= k → 8 * (k + 1) <= w → v mod 2 ^ w = v' mod 2 ^ w → byteOf v k = byteOf v' k.
Proof.
  intros Hk Hw Hv. unfold byteOf. change 256 with (2 ^ 8). rewrite <-!Z.land_ones by lia.
  apply Z.bits_inj'. intros i Hi. rewrite !Z.land_spec, !Z.shiftr_spec by lia.
  destruct (decide (i < 8)) as [Hlt|Hge].
  - f_equal. rewrite <-!Z.land_ones in Hv by lia. apply (f_equal (λ z, Z.testbit z (i + 8 * k))) in Hv.
    rewrite !Z.land_spec, !Z.ones_spec_low, !andb_true_r in Hv by lia. done.
  - rewrite !Z.ones_spec_high by lia. by rewrite !andb_false_r.
Qed.

Lemma loadLE_leBytes (m : Z → Z) at_ n v :
  (∀ k, 0 <= k < Z.of_nat n → m (at_ + k) = byteOf v k) → loadLE m at_ n = v mod 256 ^ Z.of_nat n.
Proof.
  revert at_ v. induction n as [|n IH]; intros at_ v Hm; [by rewrite Z.mod_1_r|].
  cbn [loadLE]. rewrite (IH _ (v / 256)).
  - rewrite <-(Z.add_0_r at_) at 1. rewrite Hm by lia. rewrite byteOf_div, Z.pow_0_r, Z.div_1_r by lia.
    rewrite Nat2Z.inj_succ, Z.pow_succ_r by lia. rewrite Z.rem_mul_r by lia. lia.
  - intros k Hk. replace (at_ + 1 + k) with (at_ + (k + 1)) by lia. rewrite Hm by lia. rewrite !byteOf_div by lia.
    rewrite Z.pow_add_r, Z.pow_1_r, (Z.mul_comm (256 ^ k)), <-Z.div_div by lia. done.
Qed.

(** ** The specification *)

Definition bitsOf (t : ty) : Z := match t with IntegerTy b | FloatTy b => b | PointerTy => 64 | _ => 0 end.

Definition castValue (op : cast_opcode) (from to : ty) (v : Z) : Z :=
  match op with
  | BitCast | AddrSpaceCast => v
  | SExt => wrap (bitsOf to) (sgn (bitsOf from) v)
  | IntToPtr | PtrToInt | Trunc | ZExt => wrap (bitsOf to) v
  end.

Section spec.
Context {DL : DataLayout}.
(** Where the globals are, the identities of the functions, and the window. *)
Context (offsets ids : gmap string Z) (win : Z).

(** The value of a scalar constant in the loaded program.  A pointer made of a
    token displacement is that function's address. *)
Fixpoint constantValue (c : constant) : Z :=
  match c with
  | ConstantInt _ v | ConstantFP _ v => v
  | GlobalRef g => u64 (win + default 0 (offsets !! g))
  | FunctionRef f => u64 (win + default 0 (ids !! f))
  | CastExpr IntToPtr t (ConstantInt _ v) => if IsTokenDisplacement v then u64 (win + v) else wrap (bitsOf t) v
  | CastExpr op t c => castValue op (typeOf c) t (constantValue c)
  | BinaryExpr Add lhs rhs => wrap (bitsOf (typeOf lhs)) (constantValue lhs + constantValue rhs)
  | BinaryExpr Sub lhs rhs => wrap (bitsOf (typeOf lhs)) (constantValue lhs - constantValue rhs)
  | GEPExpr _ base offset => u64 (constantValue base + default 0 offset)
  | _ => 0
  end.

(** Byte [k] of an aggregate: that of the operand which covers it; padding is
    zero. *)
Section operands.
Context (byte : constant → Z → Z) (offsetOf : nat → Z).

Fixpoint operandByte (i : nat) (operands : list constant) (k : Z) : Z :=
  match operands with
  | [] => 0
  | c :: operands =>
      if (offsetOf i <=? k) && (k <? offsetOf i + getTypeAllocSize (typeOf c)) then byte c (k - offsetOf i)
      else operandByte (S i) operands k
  end.
End operands.

Fixpoint constantByte (c : constant) (k : Z) : Z :=
  match c with
  | ConstantZero _ | UndefValue _ => 0
  | ConstantDataSequential _ _ raw => byteAt raw k
  | ConstantArray element operands => operandByte constantByte (λ i, Z.of_nat i * getTypeAllocSize element) 0 operands k
  | ConstantStruct packed operands => operandByte constantByte (getElementOffset packed (map typeOf operands)) 0 operands k
  | _ => byteOf (constantValue c) k
  end.
End spec.

(** ** Well-formed initialisers *)

(** No cast widens its operand. *)
Fixpoint noWidening (c : constant) : bool :=
  match c with
  | CastExpr _ t c => (0 <=? bitsOf t) && (bitsOf t <=? bitsOf (typeOf c)) && noWidening c
  | BinaryExpr _ lhs rhs => (bitsOf (typeOf lhs) =? bitsOf (typeOf rhs)) && noWidening lhs && noWidening rhs
  | GEPExpr _ base _ => (bitsOf (typeOf base) =? 64) && noWidening base
  | ConstantInt bits v => (0 <=? v) && (v <? 2 ^ bits) && (0 <? bits) && (bits <=? 64)
  | _ => true
  end.

(** An address computation all of whose indices are zero has offset zero. *)
Fixpoint zeroIndices (c : constant) : bool :=
  match c with
  | CastExpr (BitCast | AddrSpaceCast) _ c => zeroIndices c
  | GEPExpr true base offset => (default 0 offset =? 0) && zeroIndices base
  | _ => true
  end.

(** How many token displacements a constant sums to. *)
Fixpoint tokenCount (c : constant) : Z :=
  match c with
  | CastExpr IntToPtr _ (ConstantInt _ v) => if IsTokenDisplacement v then 1 else 0
  | CastExpr _ _ c => tokenCount c
  | BinaryExpr Add lhs rhs => tokenCount lhs + tokenCount rhs
  | BinaryExpr Sub lhs rhs => tokenCount lhs - tokenCount rhs
  | GEPExpr _ base _ => tokenCount base
  | _ => 0
  end.

Section wf.
Context {DL : DataLayout} (offsets : gmap string Z).

(** A pointer-shaped leaf fills its bytes, and is absolute exactly when it sums
    to one address. *)
Definition pointerLeaf (c : constant) : bool :=
  (8 * getTypeAllocSize (typeOf c) =? bitsOf (typeOf c)) && (bitsOf (typeOf c) <=? 64) && noWidening c &&
  match ResolvePointerConstant offsets c with
  | Some (v, n) => n + tokenCount c =? (if (n =? 1) || IsTokenDisplacement v then 1 else 0)
  | None => true
  end.

Fixpoint wellFormed (c : constant) : Prop :=
  match c with
  | ConstantZero _ | UndefValue _ | ConstantInt _ _ | ConstantFP _ _ | FunctionRef _ => True
  | ConstantDataSequential element count raw =>
      Z.of_nat (length raw) = getTypeAllocSize (ArrayTy count element)
  | ConstantArray element operands => foldr (λ c P, typeOf c = element ∧ wellFormed c ∧ P) True operands
  | ConstantStruct _ operands => foldr (λ c P, wellFormed c ∧ P) True operands
  | CastExpr _ _ _ | GEPExpr _ _ _ | BinaryExpr _ _ _ | GlobalRef _ | OtherExpr _ =>
      if strippedFunction c then typeOf c = PointerTy ∧ zeroIndices c = true else pointerLeaf c = true
  end.
End wf.

(** ** Values *)

Lemma mod_pow2_weaken a b n w : 0 <= n <= w → a mod 2 ^ w = b mod 2 ^ w → a mod 2 ^ n = b mod 2 ^ n.
Proof.
  intros Hn H. assert (Hd : (2 ^ n | 2 ^ w)) by (exists (2 ^ (w - n)); rewrite <-Z.pow_add_r by lia; f_equal; lia).
  rewrite <-(Z.mod_mod_divide a _ _ Hd), <-(Z.mod_mod_divide b _ _ Hd). by rewrite H.
Qed.

Lemma wrap_mod n w x : 0 <= n <= w → wrap w x mod 2 ^ n = x mod 2 ^ n.
Proof. intros Hn. apply (mod_pow2_weaken _ _ n w Hn). unfold wrap. apply Z.mod_mod. pose proof (pow2_pos w). lia. Qed.

Lemma sgn_mod n w x : 0 <= n <= w → sgn w x mod 2 ^ n = x mod 2 ^ n.
Proof.
  intros Hn. apply (mod_pow2_weaken _ _ n w Hn). unfold sgn. destruct (_ <? _); [done|].
  rewrite <-(Z_mod_plus_full (x - 2 ^ w) 1). f_equal. lia.
Qed.

Lemma castValue_mod op from to v : 0 <= bitsOf to <= bitsOf from → castValue op from to v mod 2 ^ bitsOf to = v mod 2 ^ bitsOf to.
Proof. intros H. unfold castValue. destruct op; rewrite ?wrap_mod, ?sgn_mod by lia; done. Qed.

Lemma token_range v : IsTokenDisplacement v = true → 2 ^ 32 <= v < 2 ^ 32 + 17825792.
Proof.
  unfold IsTokenDisplacement. change FUNCTION_TOKEN_DISPLACEMENT with (2 ^ 32). change FUNCTION_TOKEN_SPAN with 17825792.
  intros H. bool_to_prop. lia.
Qed.

(** Every resolvable constant is between 0 and 64 bits wide, and its value is
    the resolved one plus the window for each address it sums to. *)
Lemma resolve_value offsets ids win c v n :
  noWidening c = true → ResolvePointerConstant offsets c = Some (v, n) →
  0 <= bitsOf (typeOf c) <= 64 ∧
  constantValue offsets ids win c mod 2 ^ bitsOf (typeOf c) = (v + (n + tokenCount c) * win) mod 2 ^ bitsOf (typeOf c).
Proof.
  revert v n. induction c as [| |bits v0| | | | | |g|op t c IH|op c1 IH1 c2 IH2|z c IH o|]; intros v n Hw Hr; try done.
  - cbn in *. bool_to_prop. injection Hr as <- <-. split; [lia|]. cbn. rewrite Z.add_0_r.
    symmetry. apply (wrap_mod bits 64). lia.
  - cbn in Hr |- *. destruct (offsets !! g) as [o|]; [|done]. injection Hr as <- <-. split; [lia|].
    cbn [default from_option id tokenCount]. rewrite (wrap_mod 64 64) by lia. f_equal. lia.
  - cbn [noWidening ResolvePointerConstant] in Hw, Hr. bool_to_prop. destruct (IH _ _ ltac:(done) Hr) as [Hb Hv].
    cbn [typeOf]. assert (Hbt : 0 <= bitsOf t <= 64) by lia. split; [done|].
    assert (Hgen : castValue op (typeOf c) t (constantValue offsets ids win c) mod 2 ^ bitsOf t =
                   (v + (n + tokenCount c) * win) mod 2 ^ bitsOf t).
    { rewrite castValue_mod by lia. apply (mod_pow2_weaken _ _ _ (bitsOf (typeOf c))); [lia|done]. }
    assert (Hd : (∃ b v0, op = IntToPtr ∧ c = ConstantInt b v0) ∨
      (constantValue offsets ids win (CastExpr op t c) = castValue op (typeOf c) t (constantValue offsets ids win c) ∧
       tokenCount (CastExpr op t c) = tokenCount c)).
    { destruct op; try (right; done). destruct c; try (right; done). left. eauto. }
    destruct Hd as [(b & v0 & -> & ->)|[-> ->]]; [|done].
    cbn in Hr, Hv, Hgen, Hb |- *. injection Hr as <- <-.
    destruct (IsTokenDisplacement v0) eqn:Et; [|by rewrite Hgen].
    apply token_range in Et. assert (Hu : u64 v0 = v0) by (apply wrap_small; lia). rewrite Hu.
    rewrite (wrap_mod (bitsOf t) 64) by lia. f_equal. lia.
  - cbn [noWidening ResolvePointerConstant] in Hw, Hr.
    destruct (ResolvePointerConstant offsets c1) as [[l nl]|]; [|done].
    destruct (ResolvePointerConstant offsets c2) as [[r nr]|]; [|done]. bool_to_prop.
    destruct (IH1 l nl) as [Hb1 Hv1]; [done|done|]. destruct (IH2 r nr) as [Hb2 Hv2]; [done|done|].
    cbn [typeOf]. split; [done|]. set (w := bitsOf (typeOf c1)) in *. replace (bitsOf (typeOf c2)) with w in * by done.
    pose proof (pow2_pos w ltac:(lia)).
    destruct op; injection Hr as <- <-; cbn [constantValue tokenCount]; fold w; rewrite (wrap_mod w w) by lia.
    + rewrite Z.add_mod, Hv1, Hv2, <-Z.add_mod by lia.
      rewrite (Z.add_mod (u64 (l + r))), (wrap_mod w 64), <-Z.add_mod by lia. f_equal. lia.
    + rewrite Zminus_mod, Hv1, Hv2, <-Zminus_mod by lia.
      rewrite (Z.add_mod (u64 (l - r))), (wrap_mod w 64), <-Z.add_mod by lia. f_equal. lia.
  - cbn [noWidening ResolvePointerConstant] in Hw, Hr. bool_to_prop.
    destruct (ResolvePointerConstant offsets c) as [[b nb]|]; [|done]. destruct o as [d|]; [|done]. injection Hr as <- <-.
    destruct (IH b nb) as [_ Hv]; [done|done|]. cbn [typeOf bitsOf constantValue tokenCount default from_option id].
    split; [lia|]. replace (bitsOf (typeOf c)) with 64 in Hv by done.
    rewrite (wrap_mod 64 64) by lia. rewrite Z.add_mod, Hv, <-Z.add_mod by lia.
    rewrite (Z.add_mod (u64 (b + d))), (wrap_mod 64 64), <-Z.add_mod by lia. f_equal. lia.
Qed.

(** ** Induction on initialisers *)

Section induction.
Context (P : constant → Prop)
  (Hleaf : ∀ c, (∀ e ops, c ≠ ConstantArray e ops) → (∀ p ops, c ≠ ConstantStruct p ops) → P c)
  (Harray : ∀ e ops, Forall P ops → P (ConstantArray e ops))
  (Hstruct : ∀ p ops, Forall P ops → P (ConstantStruct p ops)).

Fixpoint constant_nested_ind (c : constant) : P c.
Proof.
  pose (all := fix all l : Forall P l :=
    match l with [] => @List.Forall_nil _ P | x :: l => @List.Forall_cons _ P x l (constant_nested_ind x) (all l) end).
  destruct c as [| | | | |e ops|p ops| | | | | |]; [..|apply Harray, all|apply Hstruct, all| | | | | |]; by apply Hleaf.
Defined.
End induction.

(** ** Function identities *)

(** The identities given so far are distinct native function tokens. *)
Record idsOk (st : emission) : Prop := {
  ids_next : firstFunctionId <= NextFunctionId st;
  ids_token f id : FunctionIds st !! f = Some id → firstFunctionId <= id < NextFunctionId st ∧ IsTokenDisplacement id = true;
  ids_inj f g id : FunctionIds st !! f = Some id → FunctionIds st !! g = Some id → f = g;
}.

(** Identities are kept and stay sound. *)
Definition idsExtend (st st' : emission) : Prop := FunctionIds st ⊆ FunctionIds st' ∧ (idsOk st → idsOk st').

Global Instance idsExtend_preorder : PreOrder idsExtend.
Proof.
  split; [by intros st|]. intros s1 s2 s3 [H1 H1'] [H2 H2']. split; [by etransitivity|auto].
Qed.

Lemma idsExtend_same st st' : FunctionIds st' = FunctionIds st → NextFunctionId st' = NextFunctionId st → idsExtend st st'.
Proof. intros E1 E2. split; [by rewrite E1|]. intros [H1 H2 H3]. split; rewrite ?E1, ?E2; done. Qed.

Lemma GetFunctionId_spec f st id st' :
  GetFunctionId f st = Ok (id, st') →
  idsExtend st st' ∧ FunctionIds st' !! f = Some id ∧ imageBytes st' = imageBytes st ∧ FixupSlots st' = FixupSlots st.
Proof.
  unfold GetFunctionId. destruct (FunctionIds st !! f) as [i|] eqn:Ef.
  { intros [= <- <-]. done. }
  destruct (Z.leb_spec (FUNCTION_TOKEN_DISPLACEMENT + FUNCTION_TOKEN_SPAN) (NextFunctionId st)) as [|Hlt]; [done|].
  intros [= <- <-]. cbn. split_and!; [|by rewrite lookup_insert_eq|done|done].
  split; cbn; [by apply insert_subseteq|]. intros [Hn Ht Hi]. split; cbn; [lia| |].
  - intros g i [[<- <-]|[_ Hg]]%lookup_insert_Some.
    + split; [lia|]. unfold IsTokenDisplacement. apply andb_true_iff. rewrite Z.leb_le, Z.ltb_lt. split; [|lia].
      revert Hn. unfold firstFunctionId, MANAGED_FUNCTION_TOKEN_SPAN. lia.
    + apply Ht in Hg as [? ?]. split; [lia|done].
  - intros g h i [[<- <-]|[Hne Hg]]%lookup_insert_Some [[<- E]|[Hne' Hh]]%lookup_insert_Some; try done.
    + apply Ht in Hh as [? ?]. lia.
    + apply Ht in Hg as [? ?]. lia.
    + by apply (Hi g h i).
Qed.

Section emission.
Context {DL : DataLayout}.

Lemma emitPointer_ids offsets c a n st st' : emitPointer offsets c a n st = Ok st' → idsExtend st st'.
Proof.
  unfold emitPointer. destruct (ResolvePointerConstant _ _) as [[v k]|]; [|done]. cbv zeta.
  destruct (_ && _); [done|]. intros [= <-]. by apply idsExtend_same.
Qed.

Lemma emitOperands_relates (R : relation emission) `{!PreOrder R} emit off i ops st st' :
  Forall (λ c, ∀ a s s', emit c a s = Ok s' → R s s') ops → emitOperands emit off i ops st = Ok st' → R st st'.
Proof.
  intros Hops. revert i st. induction Hops as [|c ops Hc _ IH]; intros i st H; cbn [emitOperands] in H.
  { by injection H as <-. }
  destruct (emit c (off i) st) as [s1|] eqn:E1; [|done]. etransitivity; [by eapply Hc|by eapply IH].
Qed.

Lemma EmitConstant_ids offsets c a st st' : EmitConstant offsets c a st = Ok st' → idsExtend st st'.
Proof.
  revert a st st'. induction c as [c Hna Hns|e ops IH|p ops IH] using constant_nested_ind; intros a st st' H.
  - assert (Hs : ∀ l, idsExtend st (withImage st l)) by (intros; by apply idsExtend_same).
    assert (Htail : ∀ n l, (match strippedFunction c with
              | Some f => match GetFunctionId f (withImage st l) with
                 | Ok (id, s) => emitPointer offsets (CastExpr IntToPtr PointerTy (ConstantInt 64 id)) a n s
                 | Err e => Err e end
              | None => emitPointer offsets c a n (withImage st l) end) = Ok st' → idsExtend st st').
    { intros n l Ht. destruct (strippedFunction c) as [f|].
      - destruct (GetFunctionId f _) as [[id s]|] eqn:Eg; [|done].
        apply GetFunctionId_spec in Eg as [? _]. apply emitPointer_ids in Ht. by rewrite (Hs l), H0.
      - apply emitPointer_ids in Ht. by rewrite (Hs l). }
    destruct c; cbn [EmitConstant] in H; cbv zeta in H; (destruct (_ || _); [done|]);
      cbn [isNullValue] in H;
      try (match type of H with (if ?b then _ else _) = _ => destruct b; [by injection H as <-|] end);
      try (injection H as <-; by apply idsExtend_same); try (eapply Htail; exact H); (by edestruct Hna) || (by edestruct Hns).
  - cbn [EmitConstant] in H. cbv zeta in H. destruct (_ || _); [done|]. cbn [isNullValue] in H.
    eapply (emitOperands_relates idsExtend) in H; [|exact IH]. etransitivity; [|exact H]. by apply idsExtend_same.
  - cbn [EmitConstant] in H. cbv zeta in H. destruct (_ || _); [done|]. cbn [isNullValue] in H.
    eapply (emitOperands_relates idsExtend) in H; [|exact IH]. etransitivity; [|exact H]. by apply idsExtend_same.
Qed.
End emission.
