(* ===== verification/FixedImageSound.v ===== *)
(** * Serialisation is sound

    Emitting a constant changes only its own bytes, records the slots of its
    addresses in increasing order, and leaves bytes that become the constant's
    once those slots are relocated. *)

From Stdlib Require Import ZArith Lia.
From stdpp Require Import base numbers list gmap strings.
From S2P Require Import Prelude Bytes Fiber Host FixedImage FixedImageFacts.
Import Fiber Host FixedImage.

Local Open Scope Z_scope.
Local Arguments loadLE : simpl never.

(** ** Slots *)

(** Increasing, disjoint words between [lo] and [hi]. *)
Fixpoint chain (lo : Z) (slots : list Z) (hi : Z) : Prop :=
  match slots with [] => lo <= hi | s :: slots => lo <= s ∧ chain (s + 8) slots hi end.

Lemma chain_inside lo slots hi s : chain lo slots hi → s ∈ slots → lo <= s ∧ s + 8 <= hi.
Proof.
  revert lo. induction slots as [|x slots IH]; intros lo H Hs; [by apply not_elem_of_nil in Hs|].
  destruct H as [Hlo H]. assert (Hle : x + 8 <= hi).
  { clear IH Hs Hlo lo. revert x H. induction slots as [|y slots IH]; intros x H; [done|]. destruct H as [Hxy H].
    apply IH in H. lia. }
  apply elem_of_cons in Hs as [->|Hs]; [lia|]. apply IH in H; [lia|done].
Qed.

Lemma pieces_chain_le lo slots hi : chain lo slots hi → lo <= hi.
Proof.
  revert lo. induction slots as [|x slots IH]; intros lo H; [done|]. destruct H as [? H]. apply IH in H. lia.
Qed.

Lemma chain_weaken lo slots hi lo' hi' : chain lo slots hi → lo' <= lo → hi <= hi' → chain lo' slots hi'.
Proof.
  revert lo lo'. induction slots as [|x slots IH]; intros lo lo' H Hlo Hhi; simpl in *; [lia|].
  destruct H as [? H]. split; [lia|]. eapply IH; [exact H|lia|done].
Qed.

Lemma pieces_chain_app lo l1 mid l2 hi : chain lo l1 mid → chain mid l2 hi → chain lo (l1 ++ l2) hi.
Proof.
  revert lo. induction l1 as [|x l1 IH]; intros lo H1 H2; simpl in *; [by eapply chain_weaken|].
  destruct H1 as [? H1]. split; [done|by apply IH].
Qed.

(** The memory [m] is the image [img] with the window added to the words at
    [slots], on the addresses from [lo] to [hi]. *)
Record relocated (win : Z) (img : Z → Z) (slots : list Z) (m : Z → Z) (lo hi : Z) : Prop := {
  rel_slot s k : s ∈ slots → 0 <= k < 8 → m (s + k) = byteOf (u64 (loadLE img s 8 + win)) k;
  rel_other a : lo <= a < hi → (∀ s, s ∈ slots → ¬ (s <= a < s + 8)) → m a = img a;
}.

(** Restricting to a part whose slots are exactly those that touch it. *)
Lemma relocated_part win img img' slots slots' m lo hi lo' hi' :
  relocated win img slots m lo hi → lo <= lo' → hi' <= hi →
  (∀ a, lo' <= a < hi' → img' a = img a) → (∀ s, s ∈ slots' → s ∈ slots ∧ lo' <= s ∧ s + 8 <= hi') →
  (∀ s, s ∈ slots → s ∈ slots' ∨ s + 8 <= lo' ∨ hi' <= s) → relocated win img' slots' m lo' hi'.
Proof.
  intros [Hs Ho] Hlo Hhi Himg Hsub Hcov. split.
  - intros s k Hin Hk. destruct (Hsub s Hin) as (Hin' & ? & ?). rewrite (Hs s k) by done.
    f_equal. f_equal. f_equal. symmetry. apply loadLE_ext. intros x Hx. apply Himg. lia.
  - intros a Ha Hno. rewrite Himg by lia. apply Ho; [lia|]. intros s Hin Hc.
    destruct (Hcov s Hin) as [Hin'|Hfar]; [by apply (Hno s)|lia].
Qed.

(** ** Pieces *)

(** From [st] to [st'] the bytes from [lo] to [hi] were serialised; in the
    program loaded at [win] they are [spec win]. *)
Record piece (lo hi : Z) (spec : Z → Z → Z) (st st' : emission) : Prop := {
  pc_slots : ∃ news, FixupSlots st' = FixupSlots st ++ news ∧ chain lo news hi ∧
    ∀ win m, relocated win (byteAt (imageBytes st')) news m lo hi → ∀ a, lo <= a < hi → m a = spec win a;
  pc_frame a : 0 <= a → ¬ (lo <= a < hi) → byteAt (imageBytes st') a = byteAt (imageBytes st) a;
  pc_length : Z.of_nat (length (imageBytes st)) <= Z.of_nat (length (imageBytes st')) <=
    Z.max (Z.of_nat (length (imageBytes st))) hi;
}.

(** A piece without addresses. *)
Lemma piece_plain lo hi spec st l :
  lo <= hi → Z.of_nat (length (imageBytes st)) <= Z.of_nat (length l) <= Z.max (Z.of_nat (length (imageBytes st))) hi →
  (∀ a, 0 <= a → ¬ (lo <= a < hi) → byteAt l a = byteAt (imageBytes st) a) →
  (∀ win a, lo <= a < hi → byteAt l a = spec win a) → piece lo hi spec st (withImage st l).
Proof.
  intros Hle Hlen Hframe Hspec. split; cbn [imageBytes withImage]; [|done|done].
  exists []. rewrite app_nil_r. split_and!; [done|done|]. intros win m Hrel a Ha.
  rewrite (rel_other _ _ _ _ _ _ Hrel) by (done || by intros ? ?%not_elem_of_nil). by apply Hspec.
Qed.

(** One piece after another: bytes between them were zero. *)
Lemma piece_seq lo mid next hi spec1 spec2 spec st s1 s2 :
  0 <= lo → lo <= mid → mid <= next → next <= hi →
  piece mid next spec1 st s1 → piece next hi spec2 s1 s2 →
  (∀ a, lo <= a < hi → byteAt (imageBytes st) a = 0) →
  (∀ win a, lo <= a < mid → spec win a = 0) →
  (∀ win a, mid <= a < next → spec win a = spec1 win a) →
  (∀ win a, next <= a < hi → spec win a = spec2 win a) →
  piece lo hi spec st s2.
Proof.
  intros Hlo Hm Hn Hh [(n1 & E1 & Hc1 & Hs1) Hf1 Hl1] [(n2 & E2 & Hc2 & Hs2) Hf2 Hl2] Hz Hsp0 Hsp1 Hsp2.
  split; [|intros a H0 Ha; rewrite Hf2, Hf1 by lia; done|lia].
  exists (n1 ++ n2). rewrite E2, E1, app_assoc. split_and!; [done| |].
  { eapply pieces_chain_app; [|exact Hc2]. by eapply chain_weaken. }
  intros win m Hrel a Ha.
  assert (Hin1 : ∀ s, s ∈ n1 → mid <= s ∧ s + 8 <= next) by (intros s; by apply chain_inside).
  assert (Hin2 : ∀ s, s ∈ n2 → next <= s ∧ s + 8 <= hi) by (intros s; by apply chain_inside).
  destruct (decide (a < mid)) as [H1|H1].
  - rewrite (rel_other _ _ _ _ _ _ Hrel), Hsp0 by
      (lia || (intros s [Hi%Hin1|Hi%Hin2]%elem_of_app; lia)).
    rewrite Hf2, Hf1 by lia. apply Hz. lia.
  - destruct (decide (a < next)) as [H2|H2].
    + rewrite Hsp1 by lia. apply (Hs1 win); [|lia]. eapply relocated_part; [exact Hrel|lia|lia| | |].
      * intros x Hx. symmetry. apply Hf2; lia.
      * intros s Hs. split; [apply elem_of_app; by left|by apply Hin1].
      * intros s [Hi|Hi%Hin2]%elem_of_app; [by left|right; right; lia].
    + rewrite Hsp2 by lia. apply (Hs2 win); [|lia]. eapply relocated_part; [exact Hrel|lia|lia|done| |].
      * intros s Hs. split; [apply elem_of_app; by right|by apply Hin2].
      * intros s [Hi%Hin1|Hi]%elem_of_app; [right; left; lia|by left].
Qed.

Section sound.
Context {DL : DataLayout} {Laws : DataLayoutLaws DL}.

(** ** Operands *)

Fixpoint laidOut (rel : nat → Z) (i : nat) (cur : Z) (ops : list constant) (hi : Z) : Prop :=
  match ops with
  | [] => cur <= hi
  | c :: ops => cur <= rel i ∧ laidOut rel (S i) (rel i + getTypeAllocSize (typeOf c)) ops hi
  end.

Lemma laidOut_le rel i cur ops hi : laidOut rel i cur ops hi → cur <= hi.
Proof.
  revert i cur. induction ops as [|c ops IH]; intros i cur H; [done|]. destruct H as [? H]. apply IH in H.
  pose proof (alloc_size_nonneg (typeOf c)). lia.
Qed.

Lemma operandByte_before byte rel i cur ops hi k :
  laidOut rel i cur ops hi → k < cur → operandByte byte rel i ops k = 0.
Proof.
  revert i cur. induction ops as [|c ops IH]; intros i cur H Hk; [done|]. destruct H as [? H].
  pose proof (alloc_size_nonneg (typeOf c)). cbn [operandByte].
  destruct (Z.leb_spec (rel i) k); [lia|]. cbn [andb]. eapply IH; [exact H|lia].
Qed.

Lemma emitOperands_piece offsets ids base rel i cur ops hi st st' :
  Forall (λ c, ∀ a s s', EmitConstant offsets c a s = Ok s' → idsOk s → FunctionIds s' ⊆ ids → 0 <= a →
    (∀ x, a <= x < a + getTypeAllocSize (typeOf c) → byteAt (imageBytes s) x = 0) →
    piece a (a + getTypeAllocSize (typeOf c)) (λ win x, constantByte offsets ids win c (x - a)) s s') ops →
  laidOut rel i cur ops hi → 0 <= base + cur → base + hi <= Z.of_nat (length (imageBytes st)) →
  (∀ x, base + cur <= x < base + hi → byteAt (imageBytes st) x = 0) →
  idsOk st → FunctionIds st' ⊆ ids → emitOperands (EmitConstant offsets) (λ i, base + rel i) i ops st = Ok st' →
  piece (base + cur) (base + hi) (λ win x, operandByte (constantByte offsets ids win) rel i ops (x - base)) st st'.
Proof.
  intros Hops. revert i cur st.
  induction Hops as [|c ops Hc Hops IH]; intros i cur st Hl Hcur Hlen Hz Hok Hids H; cbn [emitOperands] in H.
  { injection H as <-. replace st with (withImage st (imageBytes st)) at 2 by (by destruct st).
    apply piece_plain; [simpl in Hl; lia|simpl in Hl; lia|done|]. intros win a Ha. by apply Hz. }
  destruct (EmitConstant offsets c (base + rel i) st) as [s1|] eqn:E1; [|done].
  destruct Hl as [Hci Hl]. pose proof (alloc_size_nonneg (typeOf c)) as Hsz. pose proof (laidOut_le _ _ _ _ _ Hl) as Hle.
  destruct (EmitConstant_ids _ _ _ _ _ E1) as [Hsub1 Hok1].
  assert (Hsub2 : idsExtend s1 st').
  { eapply (emitOperands_relates idsExtend); [|exact H]. apply Forall_true. intros x a s s'. apply EmitConstant_ids. }
  assert (P1 : piece (base + rel i) (base + rel i + getTypeAllocSize (typeOf c))
    (λ win x, constantByte offsets ids win c (x - (base + rel i))) st s1).
  { apply Hc; [done|done|etransitivity; [apply Hsub2|done]|lia|]. intros x Hx. apply Hz. lia. }
  pose proof (pc_length _ _ _ _ _ P1) as Hlen1.
  assert (P2 := IH (S i) (rel i + getTypeAllocSize (typeOf c)) s1 Hl ltac:(lia) ltac:(lia)).
  rewrite !Z.add_assoc in P2. eapply (piece_seq _ (base + rel i) (base + rel i + getTypeAllocSize (typeOf c)));
    [lia|lia|lia|lia|exact P1|apply P2| | | |]; clear P2; try done; auto.
  - intros x Hx. rewrite (pc_frame _ _ _ _ _ P1) by lia. apply Hz. lia.
  - intros win a Ha. cbn [operandByte]. destruct (Z.leb_spec (rel i) (a - base)); [lia|]. cbn [andb].
    eapply operandByte_before; [exact Hl|lia].
  - intros win a Ha. cbn [operandByte]. destruct (Z.leb_spec (rel i) (a - base)); [|lia].
    destruct (Z.ltb_spec (a - base) (rel i + getTypeAllocSize (typeOf c))); [|lia]. cbn [andb]. f_equal. lia.
  - intros win a Ha. cbn [operandByte]. destruct (Z.ltb_spec (a - base) (rel i + getTypeAllocSize (typeOf c))); [lia|].
    by rewrite andb_false_r.
Qed.

(** ** Leaves *)

Lemma byteOf_u64 v k : 0 <= k < 8 → byteOf (u64 v) k = byteOf v k.
Proof. intros Hk. apply (byteOf_mod _ _ 64); [lia|lia|]. apply Z.mod_mod. lia. Qed.

Lemma emitPointer_piece offsets c v n at_ size st st' :
  ResolvePointerConstant offsets c = Some (v, n) → emitPointer offsets c at_ size st = Ok st' →
  0 <= at_ → 0 <= size → at_ + size <= Z.of_nat (length (imageBytes st)) →
  piece at_ (at_ + size)
    (λ win a, byteOf (if (n =? 1) || IsTokenDisplacement v then v + win else v) (a - at_)) st st'.
Proof.
  intros Hr He Hat Hsz Hlen. unfold emitPointer in He. rewrite Hr in He. cbv zeta in He.
  set (absolute := (n =? 1) || IsTokenDisplacement v) in *.
  destruct (absolute && negb (size =? 8)) eqn:Ew; [done|]. injection He as <-.
  set (l := writeBytes at_ (leBytes v (Z.to_nat size)) (imageBytes st)).
  assert (Hb : ∀ a, 0 <= a → byteAt l a = if (at_ <=? a) && (a <? at_ + size) then byteOf v (a - at_) else byteAt (imageBytes st) a).
  { intros a Ha. unfold l. rewrite byteAt_writeBytes by (rewrite ?length_leBytes; lia). rewrite length_leBytes, Z2Nat.id by lia.
    destruct (Z.leb_spec at_ a), (Z.ltb_spec a (at_ + size)); cbn [andb]; try done. apply byteAt_leBytes. lia. }
  assert (Hout : ∀ a, 0 <= a → ¬ (at_ <= a < at_ + size) → byteAt l a = byteAt (imageBytes st) a).
  { intros a Ha Hno. rewrite Hb by done. destruct (Z.leb_spec at_ a), (Z.ltb_spec a (at_ + size)); cbn [andb]; (done || lia). }
  assert (Hin : ∀ a, at_ <= a < at_ + size → byteAt l a = byteOf v (a - at_)).
  { intros a Ha. rewrite Hb by lia. destruct (Z.leb_spec at_ a), (Z.ltb_spec a (at_ + size)); cbn [andb]; (done || lia). }
  assert (Hl : Z.of_nat (length (imageBytes st)) <= Z.of_nat (length l) <= Z.max (Z.of_nat (length (imageBytes st))) (at_ + size))
    by (unfold l; rewrite length_writeBytes; lia).
  split; cbn [imageBytes FixupSlots]; [|done|done].
  destruct absolute; cbn [andb] in Ew.
  - bool_to_prop. subst size. exists [at_]. split_and!; [done|simpl; lia|]. intros win m Hrel a Ha.
    replace a with (at_ + (a - at_)) at 1 by lia. rewrite (rel_slot _ _ _ _ _ _ Hrel) by (lia || by left).
    rewrite byteOf_u64 by lia. rewrite (loadLE_leBytes _ _ _ v).
    + apply (byteOf_mod _ _ 64); [lia|lia|]. change (256 ^ Z.of_nat 8) with (2 ^ 64). by rewrite Zplus_mod_idemp_l.
    + intros k Hk. rewrite Hin by lia. f_equal. lia.
  - exists []. rewrite app_nil_r. split_and!; [done|simpl; lia|]. intros win m Hrel a Ha.
    rewrite (rel_other _ _ _ _ _ _ Hrel) by (done || by intros ? ?%not_elem_of_nil). by apply Hin.
Qed.

Lemma pointerLeaf_value offsets ids win c v n k :
  pointerLeaf offsets c = true → ResolvePointerConstant offsets c = Some (v, n) → 0 <= k < getTypeAllocSize (typeOf c) →
  byteOf (if (n =? 1) || IsTokenDisplacement v then v + win else v) k = byteOf (constantValue offsets ids win c) k.
Proof.
  unfold pointerLeaf. intros H Hr Hk. rewrite Hr in H. apply andb_true_iff in H as [H Hn]. apply Z.eqb_eq in Hn. bool_to_prop.
  destruct (resolve_value offsets ids win c v n) as [_ Hv]; [done|done|]. symmetry.
  apply (byteOf_mod _ _ (bitsOf (typeOf c))); [lia|lia|]. rewrite Hv, Hn. f_equal. destruct (_ || _); lia.
Qed.

Lemma stripped_value offsets ids win c f :
  strippedFunction c = Some f → zeroIndices c = true → constantValue offsets ids win c = u64 (win + default 0 (ids !! f)).
Proof.
  induction c as [| | | | | | | | |op t c IH| |z c IH o|]; intros Hs Hz; try done.
  - by injection Hs as ->.
  - destruct op; try done; cbn [strippedFunction zeroIndices constantValue castValue] in *; by rewrite IH.
  - cbn [strippedFunction] in Hs. destruct z; [|done]. cbn [zeroIndices] in Hz. bool_to_prop.
    cbn [constantValue]. rewrite IH by done. replace (default 0 o) with 0 by done. rewrite Z.add_0_r.
    by apply wrap_idemp.
Qed.

(** The bytes of a leaf that is stored as such. *)
Lemma written_piece offsets ids c at_ bs st :
  0 <= at_ → Z.of_nat (length bs) = getTypeAllocSize (typeOf c) →
  at_ + getTypeAllocSize (typeOf c) <= Z.of_nat (length (imageBytes st)) →
  (∀ win k, 0 <= k < getTypeAllocSize (typeOf c) → byteAt bs k = constantByte offsets ids win c k) →
  piece at_ (at_ + getTypeAllocSize (typeOf c)) (λ win x, constantByte offsets ids win c (x - at_)) st
    (withImage st (writeBytes at_ bs (imageBytes st))).
Proof.
  intros Hat Hl Hlen Hb. pose proof (alloc_size_nonneg (typeOf c)). apply piece_plain; [lia|rewrite length_writeBytes; lia| |].
  - intros a Ha Hno. rewrite byteAt_writeBytes, Hl by lia. 
    destruct (Z.leb_spec at_ a), (Z.ltb_spec a (at_ + getTypeAllocSize (typeOf c))); cbn [andb]; (done || lia).
  - intros win a Ha. rewrite byteAt_writeBytes, Hl by lia.
    destruct (Z.leb_spec at_ a), (Z.ltb_spec a (at_ + getTypeAllocSize (typeOf c))); cbn [andb]; try lia. apply Hb. lia.
Qed.

Lemma piece_resize lo hi spec st st' :
  piece lo hi spec (withImage st (resizeImage hi (imageBytes st))) st' → piece lo hi spec st st'.
Proof.
  intros [Hs Hf Hl]. cbn [imageBytes withImage FixupSlots] in *. split; [done| |].
  - intros a Ha Hno. rewrite Hf by done. apply byteAt_resize.
  - rewrite length_resize in Hl. lia.
Qed.

Lemma array_laidOut element ops i : Forall (λ c, typeOf c = element) ops →
  laidOut (λ i, Z.of_nat i * getTypeAllocSize element) i (Z.of_nat i * getTypeAllocSize element) ops
    ((Z.of_nat i + Z.of_nat (length ops)) * getTypeAllocSize element).
Proof.
  intros H. revert i. induction H as [|c ops Hc _ IH]; intros i; cbn [laidOut length]; [lia|]. split; [lia|].
  specialize (IH (S i)). rewrite Hc. rewrite Nat2Z.inj_succ in *.
  replace (Z.of_nat i * getTypeAllocSize element + getTypeAllocSize element)
    with (Z.succ (Z.of_nat i) * getTypeAllocSize element) by lia.
  replace (Z.of_nat i + Z.succ (Z.of_nat (length ops))) with (Z.succ (Z.of_nat i) + Z.of_nat (length ops)) by lia. done.
Qed.

Lemma struct_laidOut packed ops : ∀ pre cur,
  let ts := map typeOf (pre ++ ops) in
  0 <= cur <= getTypeAllocSize (StructTy packed ts) →
  (∀ c, head ops = Some c → cur <= getElementOffset packed ts (length pre)) →
  laidOut (getElementOffset packed ts) (length pre) cur ops (getTypeAllocSize (StructTy packed ts)).
Proof.
  induction ops as [|c ops IH]; intros pre cur ts Hcur Hhd; cbn [laidOut]; [lia|].
  assert (Hc : ts !! length pre = Some (typeOf c)).
  { subst ts. change (map ?f ?l) with (f <$> l). rewrite fmap_app, lookup_app_r by (rewrite length_fmap; done).
    by rewrite length_fmap, Nat.sub_diag. }
  destruct (element_inside packed ts _ _ Hc) as [H0 H1]. split; [by apply (Hhd c)|].
  specialize (IH (pre ++ [c]) (getElementOffset packed ts (length pre) + getTypeAllocSize (typeOf c))).
  cbv zeta in IH. rewrite <-app_assoc in IH. cbn [app] in IH. fold ts in IH. rewrite length_app, Nat.add_1_r in IH.
  pose proof (alloc_size_nonneg (typeOf c)). apply IH; [lia|]. intros d Hd.
  destruct ops as [|d' ops]; [done|]. injection Hd as ->.
  eapply element_order; [|exact Hc|]; [lia|]. subst ts. change (map ?f ?l) with (f <$> l).
  rewrite fmap_app, lookup_app_r by (rewrite length_fmap; lia). rewrite length_fmap.
  replace (S (length pre) - length pre)%nat with 1%nat by lia. done.
Qed.

Lemma wellFormed_array offsets element ops : wellFormed offsets (ConstantArray element ops) →
  Forall (λ c, typeOf c = element) ops ∧ Forall (wellFormed offsets) ops.
Proof. cbn [wellFormed]. induction ops as [|c ops IH]; simpl; [done|]. intros (? & ? & [? ?]%IH). split; by constructor. Qed.

Lemma wellFormed_struct offsets packed ops : wellFormed offsets (ConstantStruct packed ops) → Forall (wellFormed offsets) ops.
Proof. cbn [wellFormed]. induction ops as [|c ops IH]; simpl; [done|]. intros (? & ?%IH). by constructor. Qed.

Definition emits offsets ids c : Prop :=
  ∀ at_ st st', EmitConstant offsets c at_ st = Ok st' → idsOk st → FunctionIds st' ⊆ ids → 0 <= at_ →
    (∀ x, at_ <= x < at_ + getTypeAllocSize (typeOf c) → byteAt (imageBytes st) x = 0) →
    piece at_ (at_ + getTypeAllocSize (typeOf c)) (λ win x, constantByte offsets ids win c (x - at_)) st st'.

(** The tail of [EmitConstant] on a pointer-shaped constant. *)
Lemma pointer_emits offsets ids c at_ st st' :
  (∀ win k, constantByte offsets ids win c k = byteOf (constantValue offsets ids win c) k) →
  wellFormed offsets c → (if strippedFunction c then typeOf c = PointerTy ∧ zeroIndices c = true else pointerLeaf offsets c = true) →
  (match strippedFunction c with
   | Some f => match GetFunctionId f st with
      | Ok (id, st) => emitPointer offsets (CastExpr IntToPtr PointerTy (ConstantInt 64 id)) at_ (getTypeAllocSize (typeOf c)) st
      | Err e => Err e end
   | None => emitPointer offsets c at_ (getTypeAllocSize (typeOf c)) st end) = Ok st' →
  FunctionIds st' ⊆ ids → idsOk st' → 0 <= at_ → at_ + getTypeAllocSize (typeOf c) <= Z.of_nat (length (imageBytes st)) →
  piece at_ (at_ + getTypeAllocSize (typeOf c)) (λ win x, constantByte offsets ids win c (x - at_)) st st'.
Proof.
  intros Hbyte _ Hleaf He Hids Hok Hat Hlen. pose proof (alloc_size_nonneg (typeOf c)) as Hsz.
  assert (Hres : ∀ c' s s', emitPointer offsets c' at_ (getTypeAllocSize (typeOf c)) s = Ok s' → ∃ v n, ResolvePointerConstant offsets c' = Some (v, n)).
  { intros c' s s'. unfold emitPointer. destruct (ResolvePointerConstant offsets c') as [[v n]|]; [eauto|done]. }
  destruct (strippedFunction c) as [f|] eqn:Es.
  - destruct Hleaf as [Ht Hz]. destruct (GetFunctionId f st) as [[id s1]|] eqn:Eg; [|done].
    apply GetFunctionId_spec in Eg as (_ & Hf & Himg & Hfix).
    destruct (emitPointer_ids _ _ _ _ _ _ He) as [Hsub _].
    assert (Hid : FunctionIds st' !! f = Some id) by (by eapply lookup_weaken).
    destruct (ids_token _ Hok _ _ Hid) as [_ Htok]. pose proof (token_range _ Htok).
    assert (Hu : u64 id = id) by (apply wrap_small; lia).
    destruct (emitPointer_piece offsets (CastExpr IntToPtr PointerTy (ConstantInt 64 id)) (u64 id) 0 _ _ _ _ eq_refl He) as [Hs Hfr Hl]; [lia|lia|rewrite Himg; lia|].
    rewrite Hu, Htok in Hs. cbn [Z.eqb orb] in Hs. rewrite Hfix, ?Himg in *. split; [|done|done].
    destruct Hs as (news & E & Hc & Hs). exists news. split_and!; [done|done|]. intros win m Hrel a Ha. rewrite (Hs win m Hrel a Ha), Hbyte.
    rewrite (stripped_value _ _ _ _ f) by done. rewrite (lookup_weaken _ _ _ _ Hid Hids). change (default 0 (Some id)) with id.
    rewrite Ht, alloc_size_pointer in Ha. rewrite byteOf_u64 by lia. f_equal. lia.
  - destruct (Hres _ _ _ He) as (v & n & Hr).
    destruct (emitPointer_piece _ _ v n _ _ _ _ Hr He) as [(news & E & Hc & Hs) Hfr Hl]; [lia|lia|lia|].
    split; [|done|done]. exists news. split_and!; [done|done|]. intros win m Hrel a Ha.
    rewrite (Hs win m Hrel a Ha), Hbyte. apply pointerLeaf_value; [done|done|lia].
Qed.

Lemma aggregate_emits offsets ids rel ops at_ size st st' :
  Forall (emits offsets ids) ops → laidOut rel 0 0 ops size → 0 <= at_ →
  at_ + size <= Z.of_nat (length (imageBytes st)) → (∀ x, at_ <= x < at_ + size → byteAt (imageBytes st) x = 0) →
  idsOk st → FunctionIds st' ⊆ ids →
  emitOperands (EmitConstant offsets) (λ i, at_ + rel i) 0 ops st = Ok st' →
  piece at_ (at_ + size) (λ win x, operandByte (constantByte offsets ids win) rel 0 ops (x - at_)) st st'.
Proof.
  intros Hops Hl Hat Hlen Hz Hok Hids H.
  pose proof (emitOperands_piece offsets ids at_ rel 0 0 ops size st st') as Hp. rewrite Z.add_0_r in Hp. apply Hp; done.
Qed.

Lemma withImage_idsOk st l : idsOk st → idsOk (withImage st l).
Proof. intros [H1 H2 H3]. by split. Qed.

(** Emission is sound: the bytes of a constant, once relocated, are those of
    its value in the loaded program. *)
Lemma emit_sound offsets ids c : wellFormed offsets c → emits offsets ids c.
Proof.
  induction c as [c Hna Hns|e ops IH|p ops IH] using constant_nested_ind; intros Hwf at_ st st' H Hst Hids Hat Hz;
    destruct (EmitConstant_ids _ _ _ _ _ H) as [_ Hok]; specialize (Hok Hst); apply piece_resize.
  - pose proof (alloc_size_nonneg (typeOf c)) as Hsz.
    set (s0 := withImage st _). assert (Hlen : at_ + getTypeAllocSize (typeOf c) <= Z.of_nat (length (imageBytes s0)))
      by (subst s0; cbn [imageBytes withImage]; rewrite length_resize; lia).
    assert (Hzero : (∀ win k, constantByte offsets ids win c k = 0) →
      piece at_ (at_ + getTypeAllocSize (typeOf c)) (λ win x, constantByte offsets ids win c (x - at_)) s0 s0).
    { intros Hc. replace s0 with (withImage s0 (imageBytes s0)) at 2 by (by destruct s0).
      apply piece_plain; [lia|lia|done|]. intros win a Ha. rewrite Hc. subst s0. cbn [imageBytes withImage].
      rewrite byteAt_resize. by apply Hz. }
    assert (Hwrite : ∀ bs, Z.of_nat (length bs) = getTypeAllocSize (typeOf c) →
      (∀ win k, 0 <= k < getTypeAllocSize (typeOf c) → byteAt bs k = constantByte offsets ids win c k) →
      piece at_ (at_ + getTypeAllocSize (typeOf c)) (λ win x, constantByte offsets ids win c (x - at_)) s0
        (withImage s0 (writeBytes at_ bs (imageBytes s0)))) by (intros; by apply written_piece).
    destruct c; cbn [EmitConstant] in H; cbv zeta in H; fold s0 in H; (destruct (_ || _); [done|]); cbn [isNullValue] in H.
    + injection H as <-. by apply Hzero.
    + injection H as <-. by apply Hzero.
    + destruct (Z.eqb_spec value 0) as [->|_]; injection H as <-.
      * apply Hzero. intros win k. cbn. unfold byteOf. by rewrite Z.shiftr_0_l.
      * cbn [typeOf] in *. apply Hwrite; [rewrite length_leBytes; lia|]. intros win k Hk. apply byteAt_leBytes. lia.
    + destruct (Z.eqb_spec pattern 0) as [->|_]; injection H as <-.
      * apply Hzero. intros win k. cbn. unfold byteOf. by rewrite Z.shiftr_0_l.
      * cbn [typeOf] in *. apply Hwrite; [rewrite length_leBytes; lia|]. intros win k Hk. apply byteAt_leBytes. lia.
    + injection H as <-. cbn [wellFormed] in Hwf. cbn [typeOf] in *.
      rewrite take_ge by lia. by apply Hwrite.
    + by destruct (Hna element operands).
    + by destruct (Hns packed operands).
    + by apply (pointer_emits offsets ids (FunctionRef name)).
    + by apply (pointer_emits offsets ids (GlobalRef name)).
    + by apply (pointer_emits offsets ids (CastExpr op t c)).
    + by apply (pointer_emits offsets ids (BinaryExpr op c1 c2)).
    + by apply (pointer_emits offsets ids (GEPExpr allZero c offset)).
    + by apply (pointer_emits offsets ids (OtherExpr t)).
  - apply wellFormed_array in Hwf as [Ht Hwf]. cbn [EmitConstant] in H. cbv zeta in H. destruct (_ || _); [done|].
    cbn [isNullValue constantByte typeOf] in *. rewrite alloc_size_array in *.
    eapply (aggregate_emits _ _ (λ i, Z.of_nat i * getTypeAllocSize e)); [|apply (array_laidOut e ops 0 Ht)|done| | | |done|exact H].
    + rewrite Forall_forall in *. eauto.
    + cbn [imageBytes withImage]. rewrite length_resize. lia.
    + intros x Hx. cbn [imageBytes withImage]. rewrite byteAt_resize. by apply Hz.
    + by apply withImage_idsOk.
  - apply wellFormed_struct in Hwf. cbn [EmitConstant] in H. cbv zeta in H. destruct (_ || _); [done|].
    cbn [isNullValue constantByte typeOf] in *.
    pose proof (alloc_size_nonneg (StructTy p (map typeOf ops))).
    assert (Hl : laidOut (getElementOffset p (map typeOf ops)) 0 0 ops (getTypeAllocSize (StructTy p (map typeOf ops)))).
    { apply (struct_laidOut p ops [] 0); [simpl; lia|]. intros c Hc. destruct ops as [|c' ops]; [done|].
      apply (element_inside p (map typeOf (c' :: ops)) 0 (typeOf c')). done. }
    eapply (aggregate_emits _ _ (getElementOffset p (map typeOf ops))); [|exact Hl|done| | | |done|exact H].
    + rewrite Forall_forall in *. eauto.
    + cbn [imageBytes withImage]. rewrite length_resize. lia.
    + intros x Hx. cbn [imageBytes withImage]. rewrite byteAt_resize. by apply Hz.
    + by apply withImage_idsOk.
Qed.
End sound.
