(* ===== verification/FixedLayout.v ===== *)
(** * Placement of globals and the whole image

    The globals are placed one after another, aligned, inside the address
    domain and never across a region boundary unless they are larger than a
    region; the serialised globals, cut into regions and relocated by the
    host, are the initialisers. *)

From Stdlib Require Import ZArith Lia.
From stdpp Require Import base numbers list gmap strings.
From S2P Require Import Prelude Bytes Fiber ExpandMem ExpandMemProps Host FixedImage FixedImageFacts FixedImageSound.
Import Fiber Host FixedImage.

Local Open Scope Z_scope.
Local Arguments loadLE : simpl never.

Lemma isPowerOf2_iff x : isPowerOf2 x = true ↔ powerOfTwo x.
Proof.
  unfold isPowerOf2. split.
  - intros H. bool_to_prop. by apply land_pow2_iff.
  - intros H. pose proof (pow2_gt0 _ H). rewrite andb_true_iff, Z.ltb_lt, Z.eqb_eq. split; [done|]. by apply land_pow2_iff.
Qed.

Lemma AlignWithin_spec value alignment limit r :
  AlignWithin value alignment limit = Some r →
  powerOfTwo alignment ∧ value <= r <= limit ∧ r < value + alignment ∧ r mod alignment = 0.
Proof.
  unfold AlignWithin. destruct (isPowerOf2 alignment) eqn:Ep; cbn [negb orb]; [|done].
  apply isPowerOf2_iff in Ep. pose proof (pow2_gt0 _ Ep).
  destruct (Z.ltb_spec limit value); [done|]. rewrite land_pow2_mod by done. cbv zeta.
  pose proof (Z.mod_pos_bound value alignment).
  destruct (Z.eqb_spec (value mod alignment) 0) as [Hz|Hz].
  - destruct (Z.ltb_spec (limit - value) 0); [done|]. intros [= <-]. rewrite Z.add_0_r. split_and!; (done || lia).
  - destruct (Z.ltb_spec (limit - value) (alignment - value mod alignment)); [done|]. intros [= <-].
    split_and!; [done|lia|lia|lia|]. 
    rewrite Z.add_sub_assoc, Zminus_mod_idemp_r. replace (value + alignment - value) with alignment by lia.
    apply Z_mod_same_full.
Qed.

(** The alignment fails only when no aligned address is left. *)
Lemma AlignWithin_None value alignment limit x :
  powerOfTwo alignment → AlignWithin value alignment limit = None → value <= x → x mod alignment = 0 → limit < x.
Proof.
  intros Hp. unfold AlignWithin. rewrite (proj2 (isPowerOf2_iff _) Hp). cbn [negb orb]. pose proof (pow2_gt0 _ Hp).
  destruct (Z.ltb_spec limit value); [lia|]. rewrite land_pow2_mod by done. cbv zeta.
  pose proof (Z.div_mod value alignment). pose proof (Z.mod_pos_bound value alignment).
  intros Hn Hx Hm. apply Z.div_exact in Hm; [|lia].
  destruct (Z.eqb_spec (value mod alignment) 0) as [Hz|Hz].
  - destruct (Z.ltb_spec (limit - value) 0); [lia|done].
  - destruct (Z.ltb_spec (limit - value) (alignment - value mod alignment)); [|done].
    assert (value / alignment < x / alignment) by nia. nia.
Qed.

Section layout.
Context {DL : DataLayout} {Laws : DataLayoutLaws DL}.

Definition sizeOf (g : global) : Z := getTypeAllocSize (typeOf (g_init g)).

Lemma sizeOf_nonneg g : 0 <= sizeOf g.
Proof. apply alloc_size_nonneg. Qed.

(** ** Placement *)

(** [g] lies at [off], where no region boundary cuts it unless it must. *)
Record lies (spanning : list (Z * Z)) (g : global) (off : Z) : Prop := {
  lies_low : ARENA_PAGE_SIZE <= off;
  lies_high : off + sizeOf g <= addressLimit;
  lies_aligned : off mod Z.max (default 1 (g_align g)) 8 = 0;
  lies_region : 0 < sizeOf g <= span → off / span = (off + sizeOf g - 1) / span;
  lies_spanning : span < sizeOf g → (off, off + sizeOf g) ∈ spanning;
}.

(** The globals of [l] follow each other from [lo] to [hi]. *)
Fixpoint stacked (offsets : gmap string Z) (spanning : list (Z * Z)) (lo : Z) (l : list global) (hi : Z) : Prop :=
  match l with
  | [] => lo <= hi
  | g :: l =>
      if isCallStack g then stacked offsets spanning lo l hi
      else ∃ off, offsets !! g_name g = Some off ∧ lo <= off ∧ lies spanning g off ∧
           stacked offsets spanning (off + sizeOf g) l hi
  end.

Lemma stacked_le offsets spanning lo l hi : stacked offsets spanning lo l hi → lo <= hi.
Proof.
  revert lo. induction l as [|g l IH]; intros lo H; cbn [stacked] in H; [done|]. destruct (isCallStack g); [by apply IH|].
  destruct H as (off & _ & ? & _ & H). apply IH in H. pose proof (sizeOf_nonneg g). lia.
Qed.

Lemma stacked_lookup offsets spanning lo l hi g :
  stacked offsets spanning lo l hi → g ∈ l → isCallStack g = false →
  ∃ off, offsets !! g_name g = Some off ∧ lo <= off ∧ off + sizeOf g <= hi ∧ lies spanning g off.
Proof.
  revert lo. induction l as [|x l IH]; intros lo H Hg Hc; [by apply not_elem_of_nil in Hg|]. cbn [stacked] in H.
  apply elem_of_cons in Hg as [->|Hg].
  - rewrite Hc in H. destruct H as (off & ? & ? & ? & H). apply stacked_le in H. eauto.
  - destruct (isCallStack x); [by apply IH|]. destruct H as (off & _ & ? & _ & H).
    destruct (IH _ H Hg Hc) as (o & ? & ? & ? & ?). pose proof (sizeOf_nonneg x). exists o. split_and!; (done || lia).
Qed.

Lemma placeGlobal_spec g p p' :
  ARENA_PAGE_SIZE <= cursor p → placeGlobal g p = Ok p' →
  if isCallStack g then p' = p
  else ∃ off, cursor p <= off ∧ lies (Spanning p') g off ∧ cursor p' = off + sizeOf g ∧
       offsetsOf p' = <[g_name g := off]> (offsetsOf p) ∧ Spanning p ⊆ Spanning p' ∧
       (∀ r, r ∈ Spanning p' → r ∈ Spanning p ∨ (r = (off, off + sizeOf g) ∧ span < sizeOf g)).
Proof.
  intros Hcur H. unfold placeGlobal in H. destruct (isCallStack g); [by injection H as <-|]. cbv zeta in H.
  fold (sizeOf g) in H. pose proof (sizeOf_nonneg g) as Hsz. set (al := Z.max (default 1 (g_align g)) 8) in *.
  destruct (AlignWithin (cursor p) al addressLimit) as [c1|] eqn:E1; [|done].
  apply AlignWithin_spec in E1 as (Hal & Hc1 & _ & Hm1).
  destruct (Z.ltb_spec (addressLimit - c1) (sizeOf g)) as [|Hfit]; [done|].
  match type of H with match ?x with _ => _ end = _ => destruct x as [c2|] eqn:E2; [|done] end.
  change MEMORY_REGION_SHIFT with 22 in E2. change span with (2 ^ 22) in *. rewrite !Z.shiftr_div_pow2 in E2 by lia.
  assert (Hc2 : c1 <= c2 ∧ c2 + sizeOf g <= addressLimit ∧ c2 mod al = 0 ∧
    (0 < sizeOf g <= 2 ^ 22 → c2 / 2 ^ 22 = (c2 + sizeOf g - 1) / 2 ^ 22)).
  { destruct (negb (sizeOf g =? 0) && (sizeOf g <=? 2 ^ 22) && negb (c1 / 2 ^ 22 =? (c1 + sizeOf g - 1) / 2 ^ 22)) eqn:Eb.
    - destruct (AlignWithin c1 (2 ^ 22) addressLimit) as [c3|] eqn:E3; [|done].
      destruct (Z.ltb_spec (addressLimit - c3) (sizeOf g)) as [|Hfit3]; [done|]. injection E2 as ->.
      apply AlignWithin_spec in E3 as (_ & Hc3 & Hup & Hm3). bool_to_prop. split_and!; [lia|lia| |].
      + destruct (decide (al <= 2 ^ 22)) as [Hle|Hgt].
        * eapply mod_divide_trans; [by apply pow2_gt0| |exact Hm3|lia]. apply pow2_divide; [done|by exists 22|done].
        * replace c2 with c1; [done|]. apply Z.mod_divide in Hm1; [|lia].
          assert (Hd : (2 ^ 22 | al)) by (apply pow2_divide; [by exists 22|done|lia]).
          assert (Hd1 : (2 ^ 22 | c1)) by (by eapply Z.divide_trans). apply Z.mod_divide in Hm3; [|lia].
          destruct Hd1 as [q1 ->], Hm3 as [q3 ->]. nia.
      + intros _. apply Z.div_exact in Hm3; [|lia]. set (q := c2 / 2 ^ 22) in *. rewrite Hm3.
        apply (Z.div_unique _ _ _ (sizeOf g - 1)); lia.
    - injection E2 as ->. split_and!; [lia|lia|done|]. intros Hs. 
      destruct (Z.eqb_spec (sizeOf g) 0); [lia|]. destruct (Z.leb_spec (sizeOf g) (2 ^ 22)); [|lia].
      cbn [negb andb] in Eb. by bool_to_prop. }
  destruct Hc2 as (Hle & Hhi & Hm & Hreg). injection H as <-. cbn [cursor offsetsOf Spanning].
  exists c2. split_and!; [lia| |done|done| |].
  - split; [lia|done|done|done|]. change span with (2 ^ 22). intros Hs. destruct (Z.ltb_spec (2 ^ 22) (sizeOf g)); [|lia].
    apply elem_of_app. right. by left.
  - destruct (_ <? _); [intros r Hr; apply elem_of_app; by left|done].
  - intros r Hr. destruct (Z.ltb_spec (2 ^ 22) (sizeOf g)); [|by left].
    apply elem_of_app in Hr as [Hr|Hr%list_elem_of_singleton]; [by left|right; done].
Qed.

Lemma lies_weaken spanning spanning' g off : spanning ⊆ spanning' → lies spanning g off → lies spanning' g off.
Proof. intros Hs [H1 H2 H3 H4 H5]. split; auto. Qed.

Lemma placeGlobals_spec l p p' :
  NoDup (g_name <$> l) → ARENA_PAGE_SIZE <= cursor p <= addressLimit → foldM placeGlobal l p = Ok p' →
  stacked (offsetsOf p') (Spanning p') (cursor p) l (cursor p') ∧ cursor p' <= addressLimit ∧ Spanning p ⊆ Spanning p' ∧
  (∀ n, n ∉ g_name <$> l → offsetsOf p' !! n = offsetsOf p !! n) ∧
  (∀ r, r ∈ Spanning p' → r ∈ Spanning p ∨ ∃ g off, g ∈ l ∧ offsetsOf p' !! g_name g = Some off ∧ r = (off, off + sizeOf g)).
Proof.
  revert p. induction l as [|g l IH]; intros p Hnd Hcur H; cbn [foldM] in H.
  { injection H as <-. cbn [stacked]. split_and!; [lia|lia|done|done|by left]. }
  destruct (placeGlobal g p) as [p1|] eqn:E1; [|done]. apply placeGlobal_spec in E1; [|lia].
  rewrite fmap_cons in Hnd. apply NoDup_cons in Hnd as [Hfresh Hnd]. cbn [stacked].
  destruct (isCallStack g).
  - subst p1. destruct (IH p Hnd Hcur H) as (Hs & Hc & Hsp & Ho & Hr). split_and!; [done|done|done| |].
    + intros n Hn. apply Ho. intros Hin. apply Hn. rewrite fmap_cons. by right.
    + intros r Hr'. destruct (Hr r Hr') as [?|(g' & off & ? & ? & ?)]; [by left|]. right. exists g', off. split_and!; [by right|done|done].
  - destruct E1 as (off & Hlo & Hlies & Ecur & Eoff & Esp & Erev). pose proof (sizeOf_nonneg g).
    pose proof (lies_high _ _ _ Hlies). pose proof (lies_low _ _ _ Hlies).
    destruct (IH p1 Hnd ltac:(lia) H) as (Hs & Hc & Hsp & Ho & Hr).
    assert (Hg : offsetsOf p' !! g_name g = Some off) by (by rewrite (Ho _ Hfresh), Eoff, lookup_insert_eq).
    split_and!; [|done|by etransitivity| |].
    + exists off. split_and!; [done|lia|by eapply lies_weaken|by rewrite <-Ecur].
    + intros n Hn. rewrite fmap_cons in Hn. apply not_elem_of_cons in Hn as [Hne Hn]. rewrite (Ho n Hn), Eoff.
      by rewrite lookup_insert_ne.
    + intros r Hr'. destruct (Hr r Hr') as [Hin|(g' & o & ? & ? & ?)].
      * destruct (Erev r Hin) as [?|[-> _]]; [by left|]. right. exists g, off. split_and!; [by left|done|done].
      * right. exists g', o. split_and!; [by right|done|done].
Qed.

(** ** The serialised globals *)

Lemma null_byte offsets ids win c k : isNullValue c = true → constantByte offsets ids win c k = 0.
Proof.
  destruct c; cbn [isNullValue constantByte constantValue]; try done; intros H; bool_to_prop; subst; unfold byteOf;
    by rewrite Z.shiftr_0_l.
Qed.

(** The byte of the loaded program at displacement [a]. *)
Fixpoint globalsByte (offsets ids : gmap string Z) (win : Z) (l : list global) (a : Z) : Z :=
  match l with
  | [] => 0
  | g :: l =>
      let off := default 0 (offsets !! g_name g) in
      if negb (isCallStack g) && (off <=? a) && (a <? off + sizeOf g) then constantByte offsets ids win (g_init g) (a - off)
      else globalsByte offsets ids win l a
  end.

Lemma globalsByte_before offsets ids win spanning lo l hi a :
  stacked offsets spanning lo l hi → a < lo → globalsByte offsets ids win l a = 0.
Proof.
  revert lo. induction l as [|g l IH]; intros lo H Ha; [done|]. cbn [stacked globalsByte] in *. cbv zeta.
  destruct (isCallStack g); cbn [negb andb]; [by eapply IH|]. destruct H as (off & -> & ? & _ & H).
  change (default 0 (Some off)) with off. destruct (Z.leb_spec off a); [lia|]. cbn [andb]. pose proof (sizeOf_nonneg g). eapply IH; [exact H|lia].
Qed.

Lemma globalsByte_at offsets ids win spanning lo l hi g off k :
  stacked offsets spanning lo l hi → g ∈ l → isCallStack g = false → NoDup (g_name <$> l) →
  offsets !! g_name g = Some off → 0 <= k < sizeOf g →
  globalsByte offsets ids win l (off + k) = constantByte offsets ids win (g_init g) k.
Proof.
  revert lo. induction l as [|x l IH]; intros lo H Hg Hc Hnd Ho Hk; [by apply not_elem_of_nil in Hg|].
  rewrite fmap_cons in Hnd. apply NoDup_cons in Hnd as [Hfresh Hnd]. cbn [stacked globalsByte] in *. cbv zeta.
  apply elem_of_cons in Hg as [->|Hg].
  - rewrite Hc, Ho. change (default 0 (Some off)) with off. cbn [negb andb].
    destruct (Z.leb_spec off (off + k)), (Z.ltb_spec (off + k) (off + sizeOf x)); try lia. cbn [andb]. f_equal. lia.
  - destruct (isCallStack x) eqn:Ex; cbn [negb andb]; [by eapply IH|]. destruct H as (o & -> & ? & _ & H).
    change (default 0 (Some o)) with o. destruct (stacked_lookup _ _ _ _ _ _ H Hg Hc) as (o' & Ho' & ? & _).
    replace o' with off in * by congruence. destruct (Z.ltb_spec (off + k) (o + sizeOf x)); [lia|].
    rewrite andb_false_r. by eapply IH.
Qed.

Lemma emitGlobal_emits offsets g st st' :
  emitGlobal offsets g st = Ok st' →
  if isNullValue (g_init g) then st' = st
  else EmitConstant offsets (g_init g) (default 0 (offsets !! g_name g)) st = Ok st'.
Proof.
  unfold emitGlobal. destruct (isNullValue _); [by intros [= <-]|]. destruct (EmitConstant _ _ _ _) as [s|e]; [done|]. by destruct e.
Qed.

Lemma emitGlobals_ids offsets l st st' : foldM (emitGlobal offsets) l st = Ok st' → idsExtend st st'.
Proof.
  revert st. induction l as [|g l IH]; intros st H; cbn [foldM] in H; [by injection H as <-|].
  destruct (emitGlobal offsets g st) as [s1|] eqn:E1; [|done]. apply emitGlobal_emits in E1. etransitivity; [|by eapply IH].
  destruct (isNullValue _); [by subst|by eapply EmitConstant_ids].
Qed.

(** What the serialisation loop needs of a global. *)
Definition emittable (offsets : gmap string Z) (g : global) : Prop :=
  isNullValue (g_init g) = false → isCallStack g = false ∧ wellFormed offsets (g_init g).

Lemma emitGlobals_piece offsets spanning ids cur l hi st st' :
  stacked offsets spanning cur l hi → Forall (emittable offsets) l → 0 <= cur →
  (∀ a, cur <= a < hi → byteAt (imageBytes st) a = 0) → idsOk st → FunctionIds st' ⊆ ids →
  foldM (emitGlobal offsets) l st = Ok st' → piece cur hi (λ win, globalsByte offsets ids win l) st st'.
Proof.
  intros Hst Hwf. revert cur st Hst. induction Hwf as [|g l Hg Hwf IH]; intros cur st Hst Hcur Hz Hok Hids H; cbn [foldM] in H.
  { injection H as <-. replace st with (withImage st (imageBytes st)) at 2 by (by destruct st). cbn [stacked] in Hst.
    apply piece_plain; [done|lia|done|]. intros win a Ha. by apply Hz. }
  destruct (emitGlobal offsets g st) as [s1|] eqn:E1; [|done]. apply emitGlobal_emits in E1. cbn [stacked] in Hst.
  destruct (isCallStack g) eqn:Ec.
  { destruct (isNullValue (g_init g)) eqn:En; [|by destruct (Hg En) as [? _]; congruence]. subst s1.
    destruct (IH cur st Hst Hcur Hz Hok Hids H) as [Hs Hf Hl]. split; [|done|done].
    destruct Hs as (news & E & Hc & Hs). exists news. split_and!; [done|done|]. intros win m Hrel a Ha.
    rewrite (Hs win m Hrel a Ha). cbn [globalsByte]. cbv zeta. by rewrite Ec. }
  destruct Hst as (off & Ho & Hlo & Hlies & Hst). rewrite Ho in E1. change (default 0 (Some off)) with off in E1.
  pose proof (sizeOf_nonneg g) as Hsz. pose proof (stacked_le _ _ _ _ _ Hst).
  pose proof (emitGlobals_ids _ _ _ _ H) as [Hsub _].
  assert (P1 : piece off (off + sizeOf g) (λ win a, constantByte offsets ids win (g_init g) (a - off)) st s1 ∧ idsOk s1).
  { destruct (isNullValue (g_init g)) eqn:En.
    - subst s1. split; [|done]. replace st with (withImage st (imageBytes st)) at 2 by (by destruct st).
      apply piece_plain; [lia|lia|done|]. intros win a Ha. rewrite null_byte by done. apply Hz. lia.
    - destruct (Hg En) as [_ Hw]. destruct (EmitConstant_ids _ _ _ _ _ E1) as [_ Hok1]. split; [|auto].
      apply (emit_sound offsets ids (g_init g) Hw); [done|done|by etransitivity|lia|]. intros x Hx. apply Hz. fold (sizeOf g) in Hx. lia. }
  destruct P1 as [P1 Hok1].
  eapply (piece_seq cur off (off + sizeOf g)); [lia|lia|lia|lia|exact P1|apply (IH _ _ Hst); [lia| |done|done|exact H]|done| | |].
  - intros a Ha. rewrite (pc_frame _ _ _ _ _ P1) by lia. apply Hz. lia.
  - intros win a Ha. eapply (globalsByte_before _ _ _ spanning off); [|lia]. cbn [stacked]. rewrite Ec. by exists off.
  - intros win a Ha. cbn [globalsByte]. cbv zeta. rewrite Ec, Ho. change (default 0 (Some off)) with off. cbn [negb andb].
    destruct (Z.leb_spec off a), (Z.ltb_spec a (off + sizeOf g)); try lia. done.
  - intros win a Ha. cbn [globalsByte]. cbv zeta. rewrite Ec, Ho. change (default 0 (Some off)) with off.
    destruct (Z.ltb_spec a (off + sizeOf g)); [lia|]. by rewrite andb_false_r.
Qed.

(** ** Order of the globals *)

Lemma rank_cases g : rank g = 0 ∨ rank g = 1 ∨ rank g = 2.
Proof. unfold rank. destruct (negb _); [auto|]. destruct (isCallStack g); auto. Qed.

Lemma stableSort_Permutation l : stableSort l ≡ₚ l.
Proof.
  unfold stableSort. induction l as [|g l IH]; [done|]. rewrite !filter_cons.
  destruct (rank_cases g) as [Hr|[Hr|Hr]].
  - repeat case_decide; try lia. simpl. by rewrite IH.
  - repeat case_decide; try lia. cbn [app]. rewrite <-Permutation_middle. by rewrite IH.
  - repeat case_decide; try lia. rewrite !app_assoc, <-Permutation_middle, <-!app_assoc. by rewrite IH.
Qed.

(** ** Regions *)

(** The byte of the object's regions at displacement [a]. *)
Definition regionByte (regions : list (list Z)) (a : Z) : Z :=
  byteAt (default [] (regions !! Z.to_nat (a / span))) (a mod span).

Lemma byteAt_zeros l a : forallb (λ b, b =? 0) l = true → byteAt l a = 0.
Proof.
  intros H. unfold byteAt. destruct (l !! Z.to_nat a) as [b|] eqn:E; [|done].
  apply list_elem_of_lookup_2, list_elem_of_In in E. rewrite forallb_forall in H. apply H in E. by bool_to_prop.
Qed.

(** Cutting an image that fits into regions loses nothing. *)
Lemma InstallImage_byte l n a :
  0 <= a → Z.of_nat (length l) <= Z.of_nat n * span → regionByte (InstallImage l n) a = byteAt l a.
Proof.
  intros Ha Hlen. unfold regionByte, InstallImage. change (map ?f ?l) with (f <$> l).
  assert (Hs : span = 2 ^ 22) by done. pose proof (Z.div_mod a span). pose proof (Z.mod_pos_bound a span).
  assert (Hq : 0 <= a / span) by (apply Z.div_pos; lia). set (q := a / span) in *. set (r := a mod span) in *.
  destruct (decide (q < Z.of_nat n)) as [Hlt|Hge].
  - rewrite list_lookup_fmap, lookup_seq_lt by lia. cbn [fmap option_fmap option_map default from_option id Nat.add].
    unfold regionContent. cbv zeta. rewrite Z2Nat.id by lia.
    destruct (Z.leb_spec (Z.of_nat (length l)) (q * span)) as [Hle|Hgt].
    + unfold byteAt. by rewrite lookup_nil, (lookup_ge_None_2 l) by lia.
    + set (content := take _ _).
      assert (Hc : byteAt content r = byteAt l a).
      { subst content. unfold byteAt. destruct (decide (r < Z.of_nat (length l) - q * span)).
        - rewrite lookup_take_lt, lookup_drop by lia. do 2 f_equal. lia.
        - rewrite (lookup_ge_None_2 l), lookup_ge_None_2 by (rewrite ?length_take, ?length_drop; lia). done. }
      destruct (forallb _ content) eqn:Ez; [|done]. rewrite <-Hc, (byteAt_zeros content) by done. done.
  - rewrite list_lookup_fmap, lookup_seq_ge by lia. unfold byteAt. cbn [fmap option_fmap option_map default from_option id].
    rewrite lookup_nil, (lookup_ge_None_2 l) by nia. done.
Qed.
End layout.
