(* ===== verification/FixedImageProps.v ===== *)
(** * What the fixed-memory object promises

    The placement is sound, the compiled configuration record is the one the
    host's planner would make, and the loaded and relocated image holds the
    values of the initialisers. *)

From Stdlib Require Import ZArith Lia.
From stdpp Require Import base numbers list gmap strings.
From S2P Require Import Prelude Bytes Fiber FiberProps ExpandMem ExpandMemProps Host HostProps HostLife FixedImage FixedImageFacts FixedImageSound FixedLayout.
Import Fiber Host FixedImage.

Local Open Scope Z_scope.
Local Arguments loadLE : simpl never.

(** ** Relocation by the host *)

Lemma loadBytes_loadLE m p n : in_space p (Z.of_nat n) → ExpandMem.loadBytes m p n = loadLE m p n.
Proof.
  revert p. induction n as [|n IH]; intros p [H0 H1]; [done|]. cbn [ExpandMem.loadBytes]. unfold loadLE; fold loadLE.
  rewrite IH by (split; lia). unfold u64. by rewrite wrap_small by lia.
Qed.

Lemma loadLE_shift (m : Z → Z) w a n : loadLE m (w + a) n = loadLE (λ x, m (w + x)) a n.
Proof.
  revert a. induction n as [|n IH]; intros a; [done|]. unfold loadLE; fold loadLE. rewrite <-Z.add_assoc, IH. done.
Qed.

(** A fixup table of disjoint words of the static prefix is applied without
    fault, to exactly those words. *)
Lemma applyFixups_chain c win lo slots m :
  chain lo slots (heap_base c) → ARENA_PAGE_SIZE <= lo → 0 <= win → win + heap_base c <= 2 ^ 64 →
  ∃ m', applyFixups c win slots m = (m', 0) ∧
    relocated win (λ a, m (win + a)) slots (λ a, m' (win + a)) 0 (heap_base c) ∧
    ∀ a, a < win + lo → m' a = m a.
Proof.
  revert lo m. induction slots as [|s slots IH]; intros lo m Hc Hlo Hwin Hfit; cbn [applyFixups].
  { exists m. split_and!; [done| |done]. split; [by intros s k ?%not_elem_of_nil|done]. }
  destruct Hc as [Hs Hc]. pose proof (pieces_chain_le _ _ _ Hc) as Hle.
  destruct (Z.ltb_spec s ARENA_PAGE_SIZE); [lia|]. destruct (Z.ltb_spec (heap_base c - 8) s); [lia|]. cbn [orb].
  change ARENA_PAGE_SIZE with 4096 in *.
  destruct (IH (s + 8) (relocate win s m) Hc ltac:(change ARENA_PAGE_SIZE with 4096; lia) Hwin Hfit) as (m' & -> & [Hslot Hother] & Hbefore).
  assert (Hspace : in_space (win + s) (Z.of_nat 8)) by (split; lia).
  assert (Hrel : ∀ a, relocate win s m a =
    if (win + s <=? a) && (a <? win + s + 8) then byte_of (u64 (loadLE (λ x, m (win + x)) s 8 + win)) (a - (win + s)) else m a).
  { intros a. unfold relocate, WORD. rewrite (storeBytes_spec 8) by done. rewrite (loadBytes_loadLE m _ 8 Hspace), loadLE_shift. done. }
  assert (Hkeep : ∀ a, ¬ (win + s <= a < win + s + 8) → relocate win s m a = m a).
  { intros a Ha. rewrite Hrel. destruct (Z.leb_spec (win + s) a), (Z.ltb_spec a (win + s + 8)); cbn [andb]; (done || lia). }
  assert (Hin : ∀ x, x ∈ slots → s + 8 <= x) by (intros x Hx; eapply chain_inside in Hx; [|exact Hc]; lia).
  exists m'. split_and!; [done| |].
  - split.
    + intros x k [->|Hx]%elem_of_cons Hk.
      * rewrite Hbefore by lia. rewrite Hrel.
        destruct (Z.leb_spec (win + s) (win + (s + k))), (Z.ltb_spec (win + (s + k)) (win + s + 8)); try lia. cbn [andb].
        rewrite byteOf_div by lia. unfold byte_of. replace (win + (s + k) - (win + s)) with k by lia. done.
      * rewrite (Hslot x k Hx Hk). f_equal. f_equal. f_equal. apply loadLE_ext. intros y Hy. apply Hkeep.
        specialize (Hin x Hx). lia.
    + intros a Ha Hno. rewrite Hother; [|done|intros x Hx; apply Hno; by right]. apply Hkeep.
      specialize (Hno s ltac:(by left)). lia.
  - intros a Ha. rewrite Hbefore by lia. apply Hkeep. lia.
Qed.

(** ** The pass step by step *)

Section fixed.
Context {DL : DataLayout} {Laws : DataLayoutLaws DL}.

Definition movableOf (globals : list global) : list global := stableSort (filter (λ g, IsMovableGlobal g = true) globals).

(** The steps of a pass that succeeded. *)
Record fixedSteps (option slice : option Z) (globals : list global) (linked : config) (ids : gmap string Z) (next : Z)
    (o : fixed_object) (direct slots sliceBytes heapBase : Z) (p : placement) (st : emission) : Prop := {
  fs_budget : DirectRegionBudget option globals = Ok direct;
  fs_bank : ∃ g, g ∈ globals ∧ isCallStack g = true ∧ slots = sizeOf g ∧
    ConfigureSoftwareStack (Some (sizeOf g, slice)) span = Ok (sizeOf g, sliceBytes);
  fs_place : placeGlobals (movableOf globals) = Ok p;
  fs_heap : AlignWithin (cursor p) 16 addressLimit = Some heapBase;
  fs_emit : foldM (emitGlobal (offsetsOf p)) (movableOf globals) (Emission [] [] ids next) = Ok st;
  fs_image : Z.of_nat (length (imageBytes st)) <= direct * span;
  fs_config : ConfigureObjectLayout linked heapBase sliceBytes (slots / sliceBytes) 0 MEMORY_FIXED (direct * span) span direct =
    Ok (o_config o);
  fs_array : o_arrayRegions o = (memory_end (o_config o) + span - 1) / span - direct ∧ o_arrayRegions o ≠ 0;
  fs_object : o_offsets o = offsetsOf p ∧ o_spanning o = Spanning p ++ [(heapBase, 2 ^ 32)] ∧
    o_regions o = InstallImage (imageBytes st) (Z.to_nat direct) ∧ o_fixups o = FixupSlots st ∧ o_functions o = FunctionIds st;
}.

Lemma budget_range option globals direct : DirectRegionBudget option globals = Ok direct →
  (∀ n, option = Some n → 0 <= n) → 0 < direct <= 62.
Proof.
  unfold DirectRegionBudget. cbv zeta. set (uses := omap budgetSection globals). set (sections := list_to_set _ : gset string).
  assert (Hsz : 2 <= Z.of_nat (size sections)).
  { assert (Hsub : ({[FixupSection; ".rodata"%string]} : gset string) ⊆ sections) by (subst sections; set_solver).
    apply subseteq_size in Hsub. rewrite size_union, !size_singleton in Hsub by (unfold FixupSection; set_solver). lia. }
  set (maps := Z.of_nat (length _) + _). assert (Hm : 2 <= maps) by (subst maps; lia).
  destruct (Z.leb_spec 64 maps); [done|]. destruct option as [n|].
  - intros Hd Hn. specialize (Hn n eq_refl). destruct (Z.eqb_spec n 0); [done|]. destruct (Z.ltb_spec (64 - maps) n); [done|].
    injection Hd as <-. lia.
  - intros [= <-] _. rewrite Z.shiftl_1_l. pose proof (Z.log2_nonneg (64 - maps)). destruct (Z.log2_spec (64 - maps)); [lia|].
    pose proof (pow2_pos (Z.log2 (64 - maps))). lia.
Qed.

Lemma fixed_steps option slice globals linked ids next o :
  runFixedMemory option slice globals linked ids next = Ok o →
  ∃ direct slots sliceBytes heapBase p st, fixedSteps option slice globals linked ids next o direct slots sliceBytes heapBase p st.
Proof.
  unfold runFixedMemory. fold (movableOf globals). unfold mbind, result_bind. intros H.
  destruct (DirectRegionBudget option globals) as [direct|] eqn:Eb; [|done].
  set (bank := head _) in H.
  destruct (ConfigureSoftwareStack _ span) as [[slots sliceBytes]|] eqn:Es; [|done].
  destruct (placeGlobals (movableOf globals)) as [p|] eqn:Ep; [|done].
  destruct (AlignWithin (cursor p) 16 addressLimit) as [heapBase|] eqn:Eh; [|done].
  destruct (_ <? initializedEnd _ _); [done|].
  destruct (foldM (emitGlobal (offsetsOf p)) _ _) as [st|] eqn:Ee; [|done]. cbv zeta in H.
  destruct (Z.ltb_spec direct ((Z.of_nat (length (imageBytes st)) + span - 1) / span)) as [|Himg]; [done|].
  case_bool_decide as Hbank; [done|].
  destruct (ConfigureObjectLayout _ _ _ _ _ _ _ _ _) as [c|] eqn:Ec; [|done].
  destruct (Z.eqb_spec ((memory_end c + span - 1) / span - direct) 0) as [|Ha]; [done|]. injection H as <-.
  exists direct, slots, sliceBytes, heapBase, p, st. split; try done.
  - destruct bank as [g|] eqn:Ebk; [|done]. exists g. subst bank.
    assert (Hg : g ∈ filter (λ g, isCallStack g = true) (movableOf globals)) by (by apply head_Some_elem_of).
    apply list_elem_of_filter in Hg as [Hc Hg]. unfold movableOf in Hg. rewrite stableSort_Permutation in Hg.
    apply list_elem_of_filter in Hg as [_ Hg]. cbn [fmap option_fmap option_map] in Es. unfold ConfigureSoftwareStack in Es.
    fold (sizeOf g) in Es. unfold ConfigureSoftwareStack. cbv zeta in *. destruct (_ || _); [done|]. injection Es as <- <-. done.
  - change span with (2 ^ 22) in *. pose proof (Z.div_mod (Z.of_nat (length (imageBytes st)) + 2 ^ 22 - 1) (2 ^ 22)).
    pose proof (Z.mod_pos_bound (Z.of_nat (length (imageBytes st)) + 2 ^ 22 - 1) (2 ^ 22)). lia.
Qed.

(** ** The configuration record *)

(** The fields of the linked record are 32-bit words. *)
Definition linkedWords (c : config) : Prop :=
  0 <= heap_bytes c < 2 ^ 32 ∧ 0 <= fiber_count c < 2 ^ 32 ∧ 0 <= max_fibers c < 2 ^ 32.

Lemma alignTo_spec v a : 0 < a → v <= alignTo v a < v + a ∧ alignTo v a mod a = 0.
Proof.
  intros Ha. unfold alignTo. pose proof (Z.div_mod (v + a - 1) a). pose proof (Z.mod_pos_bound (v + a - 1) a).
  split; [lia|]. apply Z_mod_mult.
Qed.

Record configured (linked : config) (heapBase slice maxFibers direct : Z) (c : config) : Prop := {
  cf_record : ∃ sb, c = Config heapBase (heap_bytes linked) sb (sb + fiber_count linked * slice) (fiber_count linked) slice maxFibers
    0 MEMORY_FIXED direct ABI_MAGIC ABI_VERSION 0;
  cf_fibers : 0 < fiber_count linked <= maxFibers ∧ max_fibers linked = maxFibers;
  cf_heap : heapBase + heap_bytes linked <= stack_base c;
  cf_floor : direct * span <= stack_base c;
  cf_tight : stack_base c < Z.max (heapBase + heap_bytes linked) (direct * span) + span;
  cf_aligned : stack_base c mod span = 0;
  cf_end : memory_end c <= 2 ^ 32 - 1;
}.

(** What an accepted layout is, on either tier. *)
Lemma ConfigureObjectLayout_record linked heapBase slice maxFibers pages backend floor al direct c :
  linkedWords linked → 0 <= heapBase → 0 < slice → powerOfTwo al →
  0 <= pages < 2 ^ 32 → 0 <= backend < 2 ^ 32 → 0 <= direct < 2 ^ 32 →
  ConfigureObjectLayout linked heapBase slice maxFibers pages backend floor al direct = Ok c →
  ∃ sb, c = Config heapBase (heap_bytes linked) sb (sb + fiber_count linked * slice) (fiber_count linked) slice maxFibers
              pages backend direct ABI_MAGIC ABI_VERSION 0 ∧
    0 < fiber_count linked <= maxFibers ∧ max_fibers linked = maxFibers ∧
    Z.max (heapBase + heap_bytes linked) floor <= sb < Z.max (heapBase + heap_bytes linked) floor + al ∧ sb mod al = 0 ∧
    sb + fiber_count linked * slice <= 2 ^ 32 - 1.
Proof.
  intros (Hhb & Hfc & Hmf) Hheap Hslice Hal Hpg Hbk Hd H. unfold ConfigureObjectLayout in H. change addressLimit with (2 ^ 32) in H.
  destruct (_ || _) eqn:E1 in H; [done|]. destruct (_ || _) eqn:E2 in H; [done|]. destruct (negb _) eqn:E3 in H; [done|].
  destruct (_ || _) eqn:E4 in H; [done|]. rewrite (proj2 (isPowerOf2_iff al) Hal) in H. cbn [negb] in H. cbv zeta in H. bool_to_prop.
  set (sb := alignTo _ al) in H. destruct (alignTo_spec (Z.max (heapBase + heap_bytes linked) floor) al) as [Hsb Hm]; [by apply pow2_gt0|].
  fold sb in Hsb, Hm.
  destruct (_ || _) eqn:E5 in H; [done|]. destruct (Z.ltb_spec (2 ^ 32 - 1) (sb + fiber_count linked * slice)) as [|Hend]; [done|].
  bool_to_prop. assert (Hn : 0 < fiber_count linked * slice) by nia. assert (slice <= fiber_count linked * slice) by nia.
  assert (Hu : ∀ x, 0 <= x < 2 ^ 32 → u32 x = x) by (intros; by apply wrap_small).
  rewrite (Hu heapBase), (Hu (heap_bytes linked)), (Hu sb), (Hu (sb + _)), (Hu (fiber_count linked)), (Hu slice), (Hu maxFibers),
    (Hu pages), (Hu backend), (Hu direct) in H by lia.
  injection H as <-. exists sb. split_and!; try lia; done.
Qed.

Lemma ConfigureObjectLayout_spec linked heapBase slice maxFibers direct c :
  linkedWords linked → 0 <= heapBase → 0 < slice → 0 <= direct < 2 ^ 32 →
  ConfigureObjectLayout linked heapBase slice maxFibers 0 MEMORY_FIXED (direct * span) span direct = Ok c →
  configured linked heapBase slice maxFibers direct c.
Proof.
  intros Hw Hheap Hslice Hd H. apply ConfigureObjectLayout_record in H as (sb & -> & Hf & Hmf & Hsb & Hm & Hend); try done.
  - split; cbn [stack_base memory_end]; try done; try lia. by exists sb.
  - by exists 22.
Qed.

Lemma steps_configured option slice globals linked ids next o direct slots sliceBytes heapBase p st :
  fixedSteps option slice globals linked ids next o direct slots sliceBytes heapBase p st → linkedWords linked →
  NoDup (g_name <$> globals) → (∀ n, option = Some n → 0 <= n) →
  0 < direct <= 62 ∧ powerOfTwo sliceBytes ∧ sliceBytes <= span ∧
  ARENA_PAGE_SIZE <= cursor p <= heapBase ∧ heapBase <= addressLimit ∧ heapBase mod 16 = 0 ∧
  stacked (offsetsOf p) (Spanning p) ARENA_PAGE_SIZE (movableOf globals) (cursor p) ∧
  NoDup (g_name <$> movableOf globals) ∧ configured linked heapBase sliceBytes (slots / sliceBytes) direct (o_config o).
Proof.
  intros Hs Hw Hnd Hopt. pose proof (budget_range _ _ _ (fs_budget _ _ _ _ _ _ _ _ _ _ _ _ _ Hs) Hopt) as Hd.
  destruct (fs_bank _ _ _ _ _ _ _ _ _ _ _ _ _ Hs) as (g & _ & _ & _ & Hbank).
  unfold ConfigureSoftwareStack in Hbank. cbv zeta in Hbank. destruct (_ || _) eqn:Eb in Hbank; [done|]. injection Hbank as <-.
  bool_to_prop. assert (Hp : powerOfTwo (default 0 slice)) by (by apply isPowerOf2_iff). pose proof (pow2_gt0 _ Hp).
  destruct (AlignWithin_spec _ _ _ _ (fs_heap _ _ _ _ _ _ _ _ _ _ _ _ _ Hs)) as (_ & Hhb & _ & Hm).
  assert (Hnd' : NoDup (g_name <$> movableOf globals)).
  { unfold movableOf. rewrite stableSort_Permutation. eapply sublist_NoDup; [exact Hnd|].
    apply fmap_sublist, sublist_filter. }
  destruct (placeGlobals_spec (movableOf globals) (Placement ARENA_PAGE_SIZE ∅ []) p) as (Hst & Hcur & _);
    [done|done|apply (fs_place _ _ _ _ _ _ _ _ _ _ _ _ _ Hs)|]. cbn [cursor] in *. pose proof (stacked_le _ _ _ _ _ Hst) as Hlow.
  split_and!; try done; try lia.
  apply ConfigureObjectLayout_spec; [done| |done|lia|apply (fs_config _ _ _ _ _ _ _ _ _ _ _ _ _ Hs)].
  change ARENA_PAGE_SIZE with 4096 in *. lia.
Qed.

(** The extents of two placed globals. *)
Definition apart (offsets : gmap string Z) (g h : global) : Prop :=
  ∀ a b, offsets !! g_name g = Some a → offsets !! g_name h = Some b → a + sizeOf g <= b ∨ b + sizeOf h <= a.

Lemma stacked_apart offsets spanning lo l hi g h :
  stacked offsets spanning lo l hi → g ∈ l → h ∈ l → g ≠ h → isCallStack g = false → isCallStack h = false → apart offsets g h.
Proof.
  revert lo. induction l as [|x l IH]; intros lo H Hg Hh Hne Hcg Hch a b Ha Hb; [by apply not_elem_of_nil in Hg|].
  cbn [stacked] in H. destruct (isCallStack x) eqn:Ex.
  { apply elem_of_cons in Hg as [->|Hg], Hh as [->|Hh]; try congruence. by eapply (IH lo). }
  destruct H as (off & Ho & Hlo & _ & H).
  apply elem_of_cons in Hg as [->|Hg], Hh as [->|Hh]; [done| | |by eapply IH].
  - destruct (stacked_lookup _ _ _ _ _ _ H Hh Hch) as (o & ? & ? & _). left. replace a with off by congruence. replace b with o by congruence. done.
  - destruct (stacked_lookup _ _ _ _ _ _ H Hg Hcg) as (o & ? & ? & _). right. replace b with off by congruence. replace a with o by congruence. done.
Qed.

Lemma movable_elem globals g : g ∈ globals → IsMovableGlobal g = true → g ∈ movableOf globals.
Proof. intros Hg Hm. unfold movableOf. rewrite stableSort_Permutation. by apply list_elem_of_filter. Qed.

(** C4: the placement of a fixed-memory object is sound.  Every movable global
    other than the stack bank has its own aligned place above the null page
    and below the heap, no two overlap, and only an object larger than a
    region crosses a region boundary, which is then recorded; the heap is
    16-byte aligned and followed, on a region boundary above the direct maps,
    by the fiber stacks, which end below 4 GiB and inside the array map. *)
Theorem fixed_layout_sound (option slice : option Z) (globals : list global) (linked : config) (ids : gmap string Z) (next : Z)
    (o : fixed_object) :
  NoDup (g_name <$> globals) → linkedWords linked → (∀ n, option = Some n → 0 <= n) →
  runFixedMemory option slice globals linked ids next = Ok o →
  (∀ g, g ∈ globals → IsMovableGlobal g = true → isCallStack g = false →
     ∃ off, o_offsets o !! g_name g = Some off ∧ lies (o_spanning o) g off ∧ off + sizeOf g <= heap_base (o_config o)) ∧
  (∀ g h, g ∈ globals → h ∈ globals → IsMovableGlobal g = true → IsMovableGlobal h = true → isCallStack g = false →
     isCallStack h = false → g ≠ h → apart (o_offsets o) g h) ∧
  heap_base (o_config o) mod 16 = 0 ∧ (heap_base (o_config o), 2 ^ 32) ∈ o_spanning o ∧
  heap_base (o_config o) + heap_bytes (o_config o) <= stack_base (o_config o) ∧ stack_base (o_config o) mod span = 0 ∧
  Z.of_nat (length (o_regions o)) * span <= stack_base (o_config o) ∧
  memory_end (o_config o) = stack_base (o_config o) + fiber_count (o_config o) * stack_bytes_per_fiber (o_config o) ∧
  memory_end (o_config o) < 2 ^ 32 ∧
  memory_end (o_config o) <= (Z.of_nat (length (o_regions o)) + o_arrayRegions o) * span ∧ 0 < o_arrayRegions o.
Proof.
  intros Hnd Hw Hopt H. destruct (fixed_steps _ _ _ _ _ _ _ H) as (direct & slots & sliceBytes & heapBase & p & st & Hs).
  destruct (steps_configured _ _ _ _ _ _ _ _ _ _ _ _ _ Hs Hw Hnd Hopt) as (Hd & Hp2 & Hsl & Hcur & Hlim & Hm & Hst & Hnd' & Hcf).
  destruct (fs_object _ _ _ _ _ _ _ _ _ _ _ _ _ Hs) as (-> & -> & -> & _). destruct (fs_array _ _ _ _ _ _ _ _ _ _ _ _ _ Hs) as [Ha Ha0].
  destruct Hcf as [(sb & Ec) [Hfib _] Hheap Hfloor _ Hal Hend].
  assert (Hpos : 0 < fiber_count linked * sliceBytes) by (pose proof (pow2_gt0 _ Hp2); nia). rewrite Ha in Ha0 |- *. rewrite Ec in *.
  cbn [heap_base heap_bytes stack_base memory_end fiber_count stack_bytes_per_fiber] in *.
  assert (Hlen : Z.of_nat (length (InstallImage (imageBytes st) (Z.to_nat direct))) = direct).
  { unfold InstallImage. rewrite length_map, length_seq. lia. }
  rewrite Hlen. change span with (2 ^ 22) in *.
  pose proof (Z.div_mod (sb + fiber_count linked * sliceBytes + 2 ^ 22 - 1) (2 ^ 22)).
  pose proof (Z.mod_pos_bound (sb + fiber_count linked * sliceBytes + 2 ^ 22 - 1) (2 ^ 22)).
  split_and!; try done; try lia.
  - intros g Hg Hmv Hc. destruct (stacked_lookup _ _ _ _ _ g Hst) as (off & Ho & ? & ? & Hl); [by apply movable_elem|done|].
    exists off. split_and!; [done| |lia]. eapply lies_weaken; [|exact Hl]. intros r Hr. apply elem_of_app. by left.
  - intros g h Hg Hh Hmg Hmh Hcg Hch Hne. eapply stacked_apart; [exact Hst|by apply movable_elem|by apply movable_elem|done|done|done].
  - apply elem_of_app. right. by left.
Qed.

(** The host's checks on the header of a fixed-memory record. *)
Lemma fixed_header_valid hb sl mf direct :
  powerOfTwo sl → sl <= span → ARENA_PAGE_SIZE <= hb < 2 ^ 32 → 0 < mf <= MAX_FIBERS_LIMIT → 0 < direct <= 62 →
  ∀ x y z w win, layout_header_valid (Config hb x y z w sl mf 0 MEMORY_FIXED direct ABI_MAGIC ABI_VERSION win) = true.
Proof.
  intros Hp Hsl Hhb Hmf Hd x y z w win. pose proof (pow2_gt0 _ Hp). change span with (2 ^ 22) in Hsl.
  assert (Hl2 : Z.land sl (u32 (sl - 1)) = 0) by (unfold u32; rewrite wrap_small by lia; by apply land_pow2_iff).
  unfold layout_header_valid. cbn [stack_bytes_per_fiber max_fibers heap_base memory_backend direct_memory_regions abi_magic abi_version].
  rewrite Hl2. change MEMORY_REGION_SIZE with (2 ^ 22). change MAX_DIRECT_MEMORY_REGIONS with 63.
  change (MEMORY_FIXED =? MEMORY_ARENA) with false. change (MEMORY_FIXED <=? MEMORY_ARENA) with true. cbv iota.
  repeat (apply andb_true_iff; split); rewrite ?negb_true_iff, ?Z.eqb_neq, ?Z.leb_le, ?Z.ltb_lt, ?Z.eqb_eq; (done || lia).
Qed.

(** The host rounds to the stack alignment as the compiler does. *)
Lemma stack_base_ldiff v sb al : powerOfTwo al → v <= sb < v + al → sb mod al = 0 → Z.ldiff (v + al - 1) (al - 1) = sb.
Proof.
  intros [n [Hn ->]] Hsb Hal. pose proof (pow2_pos n Hn) as H0. replace (2 ^ n - 1) with (Z.ones n) by (rewrite Z.ones_equiv; lia).
  rewrite Z.ldiff_ones_r, Z.shiftr_div_pow2, Z.shiftl_mul_pow2 by lia.
  apply Z.div_exact in Hal; [|lia]. set (q := sb / 2 ^ n) in *.
  replace ((v + 2 ^ n - 1) / 2 ^ n) with q; [lia|]. apply (Z.div_unique _ _ _ (v + 2 ^ n - 1 - 2 ^ n * q)); lia.
Qed.

(** A record laid out by the compiler is planned as it is. *)
Lemma plan_record hb heap sb fc sl mf pages backend direct floor al :
  let c := Config hb heap sb (sb + fc * sl) fc sl mf pages backend direct ABI_MAGIC ABI_VERSION 0 in
  layout_header_valid c = true → stackAlignment c = al → stackFloor c = floor → powerOfTwo al → al <= 2 ^ 32 →
  0 <= hb → 0 <= heap → 0 < fc <= mf → 0 < sl → 0 <= floor →
  Z.max (hb + heap) floor <= sb < Z.max (hb + heap) floor + al → sb mod al = 0 → sb + fc * sl <= 2 ^ 32 - 1 →
  plan c CONFIG_SIZE (Requested fc heap) = match backendEntries c (sb + fc * sl) with Err e => Err e | Ok n => Ok (c, n) end.
Proof.
  intros c Hv Eal Efl Hp Hle Hhb Hheap Hfc Hsl Hfl Hsb Hal Hend. pose proof (pow2_gt0 _ Hp) as Hal0.
  assert (Hpos : 0 < fc * sl) by nia. unfold plan. cbv zeta. cbn [req_fiber_count req_heap_bytes]. rewrite Hv, Eal, Efl.
  change address_limit with (2 ^ 32). change (CONFIG_SIZE <? CONFIG_SIZE) with false. change (max_fibers c) with mf. change (heap_base c) with hb.
  destruct (Z.eqb_spec fc 0); [lia|]. destruct (Z.ltb_spec mf fc); [lia|]. cbn [negb]. destruct (Z.ltb_spec (2 ^ 32 - hb) heap); [lia|].
  assert (Hu : ∀ x, 0 <= x < 2 ^ 64 → u64 x = x) by (intros; by apply wrap_small). rewrite (Hu (hb + heap)) by lia.
  replace (if floor <? hb + heap then hb + heap else floor) with (Z.max (hb + heap) floor) by (destruct (Z.ltb_spec floor (hb + heap)); lia).
  assert (Hroom : sb <= 2 ^ 32 - al).
  { assert (Hd : (al | 2 ^ 32)) by (apply pow2_divide; [done|by exists 32|done]). destruct Hd as [q Hq].
    apply Z.div_exact in Hal; [|lia]. set (k := sb / al) in *. assert (Hkq : al * k < al * q) by lia.
    apply Z.mul_lt_mono_pos_l in Hkq; [|done]. nia. }
  destruct (Z.ltb_spec (2 ^ 32 - (al - 1)) (Z.max (hb + heap) floor)) as [|_]; [lia|].
  rewrite (Hu (Z.max _ _ + al - 1)) by lia. rewrite (stack_base_ldiff _ sb) by (done || lia).
  change (stack_bytes_per_fiber c) with sl. rewrite (Z.mul_comm sl). rewrite (Hu (fc * sl)), (Hu (2 ^ 32 - sb)), (Hu (sb + fc * sl)) by lia.
  destruct (Z.leb_spec (2 ^ 32 - sb) (fc * sl)); [lia|]. by destruct (backendEntries c _).
Qed.

(** C14: compiler and host agree on the layout.  The record the pass compiles
    into an object is the one the host's planner makes of it for the default
    fiber count and heap size, with exactly the array map entries the pass
    declared, and the host's checks on the frozen record accept it. *)
Theorem compiled_record_planned (option slice : option Z) (globals : list global) (linked : config) (ids : gmap string Z)
    (next : Z) (o : fixed_object) :
  NoDup (g_name <$> globals) → linkedWords linked → max_fibers linked <= MAX_FIBERS_LIMIT → (∀ n, option = Some n → 0 <= n) →
  runFixedMemory option slice globals linked ids next = Ok o →
  plan (o_config o) CONFIG_SIZE (Requested (fiber_count linked) (heap_bytes linked)) = Ok (o_config o, o_arrayRegions o) ∧
  ∀ window, viewable (withWindow (o_config o) window) = true.
Proof.
  intros Hnd Hw Hmax Hopt H. destruct (fixed_steps _ _ _ _ _ _ _ H) as (direct & slots & sl & hb & p & st & Hs).
  destruct (steps_configured _ _ _ _ _ _ _ _ _ _ _ _ _ Hs Hw Hnd Hopt) as (Hd & Hp2 & Hsl & Hcur & Hlim & Hm & _ & _ & Hcf).
  destruct (fs_array _ _ _ _ _ _ _ _ _ _ _ _ _ Hs) as [Ha Ha0]. rewrite Ha in Ha0 |- *. destruct Hw as (Hhb & Hfc & _).
  destruct Hcf as [(sb & Ec) [Hfib Hmf] Hheap Hfloor Htight Hal Hend]. rewrite Ec in *. clear Ec H Hs. rewrite <-Hmf in *. clear Hmf.
  cbn [heap_base heap_bytes stack_base memory_end fiber_count stack_bytes_per_fiber] in *. pose proof (pow2_gt0 _ Hp2) as Hsp.
  assert (Hpos : 0 < fiber_count linked * sl) by nia. set (n := fiber_count linked * sl) in *.
  assert (Hhdr := fixed_header_valid hb sl (max_fibers linked) direct Hp2 Hsl).
  change ARENA_PAGE_SIZE with 4096 in *. change MAX_FIBERS_LIMIT with 65535 in Hmax. change addressLimit with (2 ^ 32) in Hlim.
  change span with (2 ^ 22) in *. set (c := Config _ _ _ _ _ _ _ _ _ _ _ _ _) in *.
  assert (Hv : layout_header_valid c = true) by (apply Hhdr; change ARENA_PAGE_SIZE with 4096; change MAX_FIBERS_LIMIT with 65535; lia).
  split.
  - unfold c, n. rewrite (plan_record _ _ _ _ _ _ _ _ _ (direct * 2 ^ 22) (2 ^ 22)); try done; try lia; [|by exists 22]. fold n. fold c.
    unfold backendEntries. change (memory_backend c) with MEMORY_FIXED. change (direct_memory_regions c) with direct. change (MEMORY_FIXED =? MEMORY_ARENA) with false.
    change MEMORY_REGION_SIZE with (2 ^ 22). change MEMORY_REGION_SHIFT with 22. cbv iota zeta. rewrite Z.shiftr_div_pow2 by lia.
    pose proof (Z.div_mod (sb + n + 2 ^ 22 - 1) (2 ^ 22)). pose proof (Z.mod_pos_bound (sb + n + 2 ^ 22 - 1) (2 ^ 22)).
    unfold u32. rewrite (wrap_small 32) by lia. set (q := (sb + n + 2 ^ 22 - 1) / 2 ^ 22) in *.
    destruct (Z.ltb_spec direct q); [|lia]. destruct (Z.eqb_spec (q - direct) 0); [lia|]. done.
  - intros window. unfold viewable, withWindow. subst c. cbn [heap_base heap_bytes stack_base memory_end fiber_count stack_bytes_per_fiber
      max_fibers arena_image_pages memory_backend direct_memory_regions abi_magic abi_version]. rewrite Hhdr by (change ARENA_PAGE_SIZE with 4096; change MAX_FIBERS_LIMIT with 65535; lia).
    rewrite (Z.mul_comm sl). fold n. assert (Hu : ∀ x, 0 <= x < 2 ^ 64 → u64 x = x) by (intros; by apply wrap_small).
    rewrite (Hu n), (Hu (sb + n)) by lia.
    cbn [andb]. repeat (apply andb_true_iff; split); rewrite ?negb_true_iff, ?Z.eqb_neq, ?Z.leb_le, ?Z.eqb_eq; (done || lia).
Qed.

(** ** The loaded image *)

(** The initialisers of the movable globals can be serialised, and only the
    stack bank is without a place. *)
Definition serialisable (o : fixed_object) (globals : list global) : Prop :=
  ∀ g, g ∈ globals → IsMovableGlobal g = true → emittable (o_offsets o) g.

Lemma image_relocates option slice globals linked ids next o :
  NoDup (g_name <$> globals) → linkedWords linked → (∀ n, option = Some n → 0 <= n) → idsOk (Emission [] [] ids next) →
  runFixedMemory option slice globals linked ids next = Ok o → serialisable o globals →
  ∃ cur, ARENA_PAGE_SIZE <= cur <= heap_base (o_config o) ∧ chain ARENA_PAGE_SIZE (o_fixups o) cur ∧
    (∀ win m, relocated win (regionByte (o_regions o)) (o_fixups o) m ARENA_PAGE_SIZE cur →
      ∀ g off k, g ∈ globals → IsMovableGlobal g = true → isCallStack g = false → o_offsets o !! g_name g = Some off →
        0 <= k < sizeOf g → m (off + k) = constantByte (o_offsets o) (o_functions o) win (g_init g) k).
Proof.
  intros Hnd Hw Hopt Hids H Hser. destruct (fixed_steps _ _ _ _ _ _ _ H) as (direct & slots & sl & hb & p & st & Hs).
  destruct (steps_configured _ _ _ _ _ _ _ _ _ _ _ _ _ Hs Hw Hnd Hopt) as (Hd & _ & _ & Hcur & Hlim & _ & Hst & Hnd' & Hcf).
  destruct (fs_object _ _ _ _ _ _ _ _ _ _ _ _ _ Hs) as (Eo & _ & Er & Ef & Ei). destruct Hcf as [(sb & Ec) _ _ _ _ _ _].
  unfold serialisable in Hser. rewrite Eo, Er, Ef, Ei, Ec in *. cbn [heap_base]. exists (cursor p).
  assert (HP : piece ARENA_PAGE_SIZE (cursor p) (λ win, globalsByte (offsetsOf p) (FunctionIds st) win (movableOf globals))
    (Emission [] [] ids next) st).
  { apply (emitGlobals_piece _ (Spanning p)); [done| |done|done|done|done|by apply (fs_emit _ _ _ _ _ _ _ _ _ _ _ _ _ Hs)].
    apply Forall_forall. intros g Hg. unfold movableOf in Hg. rewrite stableSort_Permutation in Hg.
    apply list_elem_of_filter in Hg as [Hm Hg]. by apply Hser. }
  destruct (pc_slots _ _ _ _ _ HP) as (news & En & Hc & Hspec). cbn [FixupSlots app] in En. rewrite En in *.
  split_and!; [lia|lia|done|]. intros win m Hrel g off k Hg Hm Hcs Ho Hk.
  destruct (stacked_lookup _ _ _ _ _ g Hst) as (off' & Ho' & ? & ? & _); [by apply movable_elem|done|].
  replace off' with off in * by congruence.
  rewrite (Hspec win m); [| |lia].
  - eapply globalsByte_at; [exact Hst|by apply movable_elem|done|done|done|done].
  - eapply relocated_part; [exact Hrel|done|done| | |].
    + intros a Ha. symmetry. apply InstallImage_byte; [change ARENA_PAGE_SIZE with 4096 in *; lia|].
      rewrite Z2Nat.id by lia. apply (fs_image _ _ _ _ _ _ _ _ _ _ _ _ _ Hs).
    + intros s' Hs'. split; [done|]. by eapply chain_inside.
    + by left.
Qed.

(** C9: what a program finds in memory is what its source wrote.  Once the
    host has initialised a loaded fixed-memory object, every byte of every
    movable global is that of its initialiser in a program loaded at the
    window: integers, data and padding as they are, and every pointer - to a
    global, into one, or to a function - the address its target has there.
    The fixup table is applied without a fault. *)
Theorem fixed_image_loads (option slice : option Z) (globals : list global) (linked : config) (ids : gmap string Z) (next : Z)
    (o : fixed_object) (run : Datatypes.option (Z * Z * Z)) (sys : view_calls) (bk : backing) (h h' : host) (img img' : image)
    (s : capsule_state) (e : Z) :
  NoDup (g_name <$> globals) → linkedWords linked → (∀ n, option = Some n → 0 <= n) → idsOk (Emission [] [] ids next) →
  runFixedMemory option slice globals linked ids next = Ok o → serialisable o globals →
  owned h img → handle_state h = Some s → ready img = Value 0 → fixups img = Value (o_fixups o) →
  (∀ c size, config_map (object h) = Some (c, size) → heap_base c = heap_base (o_config o)) →
  (∀ a, 0 <= a < heap_base (o_config o) → bytes img (window s + a) = regionByte (o_regions o) a) →
  initialize run sys bk h img = (h', img', e) →
  (h' = h ∧ img' = img ∧ e ≠ 0) ∨
  (e = 0 ∧ ready img' = Value 1 ∧
   ∀ g off k, g ∈ globals → IsMovableGlobal g = true → isCallStack g = false → o_offsets o !! g_name g = Some off →
     0 <= k < sizeOf g →
     bytes img' (window s + (off + k)) = constantByte (o_offsets o) (o_functions o) (window s) (g_init g) k).
Proof.
  intros Hnd Hw Hopt Hids H Hser Ho Hst Hready Hfix Hrec Hload Hi.
  destruct (image_relocates _ _ _ _ _ _ _ Hnd Hw Hopt Hids H Hser) as (cur & Hcur & Hc & Hspec).
  destruct (initialize_cases _ _ _ _ _ _ _ _ Hi) as [?|(s' & c & ok & Es & _ & Eh & _ & Hb & Hcase)]; [by left|right].
  assert (s' = s) as -> by congruence. destruct (o_window _ _ Ho s Hst) as (_ & _ & Hwin & _).
  assert (Hview : viewable c = true ∧ memory_view_base c = window s ∧ ∃ size, config_map (object h) = Some (c, size)).
  { destruct Hb as [Hb|(l & Hp)]; [by apply (o_bound _ _ Ho s)|by eapply prepare_memory_bound]. }
  destruct Hview as (Hv & Hbase & size & Hmap). specialize (Hrec _ _ Hmap).
  assert (Hheap : heap_base c <= 2 ^ 32 - 1).
  { unfold viewable, layout_header_valid in Hv. repeat (apply andb_true_iff in Hv as [Hv ?]). bool_to_prop. lia. }
  destruct Hcase as [(_ & _ & _ & [?|(r & Hr1 & Hr2)])|[(_ & _ & _ & [?|?])|(_ & m & sl & Hsl & Ha & -> & ->)]]; [congruence|congruence|congruence|congruence|].
  assert (sl = o_fixups o) as -> by (destruct Hsl as [?|[? _]]; congruence). rewrite Hbase in Ha.
  change MEMORY_WINDOW_SIZE with (2 ^ 32 + 17825792) in Hwin.
  destruct (applyFixups_chain c (window s) ARENA_PAGE_SIZE (o_fixups o) (bytes img)) as (m' & Ha' & Hrel & _);
    [eapply chain_weaken; [exact Hc|done|lia]|done|lia|lia|].
  rewrite Ha' in Ha. injection Ha as <- <-. cbn [Z.eqb ready bytes]. split_and!; [done|done|].
  intros g off k. apply (Hspec (window s) (λ a, m' (window s + a))).
  eapply relocated_part; [exact Hrel|done|lia| | |].
  - intros a Ha. symmetry. apply Hload. change ARENA_PAGE_SIZE with 4096 in *. lia.
  - intros x Hx. split; [done|]. by eapply chain_inside.
  - by left.
Qed.
End fixed.
