(* ===== verification/FixedSamples.v ===== *)
(** * A small fixed-memory object

    A data layout with natural alignment, which satisfies the laws the pass
    relies on, and a program with a structure of pointers, a buffer and a
    stack bank: the hypotheses of the fixed-memory theorems hold together. *)

From Stdlib Require Import ZArith Lia.
From stdpp Require Import base numbers list gmap strings.
From S2P Require Import Prelude Bytes Fiber ExpandMem Host HostProps HostLife HostSamples FixedImage FixedImageFacts FixedImageSound FixedLayout FixedImageProps.
Import Fiber Host FixedImage.

Local Open Scope Z_scope.

(** ** Natural layout *)

(** Size and alignment of the fields, and of the whole. *)
Fixpoint fieldOffset (packed : bool) (fields : list (Z * Z)) (cur : Z) (i : nat) : Z :=
  match fields with
  | [] => cur
  | (size, align) :: fields =>
      let off := if packed then cur else alignTo cur align in
      match i with O => off | S i => fieldOffset packed fields (off + size) i end
  end.

Definition scalarBytes (bits : Z) : Z := Z.max 1 ((bits + 7) / 8).

Fixpoint natural (t : ty) : Z * Z :=
  match t with
  | IntegerTy bits | FloatTy bits => (scalarBytes bits, scalarBytes bits)
  | PointerTy => (8, 8)
  | ArrayTy n t => (Z.of_nat n * (natural t).1, (natural t).2)
  | StructTy packed ts =>
      let fields := map natural ts in
      let align := if packed then 1 else foldr (λ f a, Z.max f.2 a) 1 fields in
      (alignTo (fieldOffset packed fields 0 (length fields)) align, align)
  end.

#[local] Instance naturalLayout : DataLayout := {|
  getTypeAllocSize t := (natural t).1;
  getElementOffset packed ts i := fieldOffset packed (map natural ts) 0 i;
|}.

Definition sane (f : Z * Z) : Prop := 0 <= f.1 ∧ 0 < f.2.

Lemma fieldOffset_ge packed fields cur i : Forall sane fields → cur <= fieldOffset packed fields cur i.
Proof.
  intros H. revert cur i. induction H as [|[s a] fields [Hs Ha] _ IH]; intros cur i; cbn [fieldOffset]; [done|]. cbv zeta.
  cbn in Hs, Ha. destruct (alignTo_spec cur a Ha) as [? _].
  assert (cur <= if packed then cur else alignTo cur a) by (destruct packed; lia).
  destruct i as [|i]; [done|]. etransitivity; [|apply IH]. lia.
Qed.

Lemma fieldOffset_step packed fields cur i j f :
  Forall sane fields → (i < j)%nat → fields !! i = Some f →
  fieldOffset packed fields cur i + f.1 <= fieldOffset packed fields cur j.
Proof.
  intros H. revert cur i j. induction H as [|[s a] fields Hsa H IH]; intros cur i j Hij Hf; [done|].
  destruct j as [|j]; [lia|]. cbn [fieldOffset]. cbv zeta. destruct i as [|i].
  - injection Hf as <-. cbn. by apply fieldOffset_ge.
  - apply IH; [lia|done].
Qed.

Lemma natural_sane t : sane (natural t).
Proof.
  revert t. fix IH 1. intros [bits|bits| |n t|packed ts]; cbn [natural].
  - unfold sane, scalarBytes. cbn. lia.
  - unfold sane, scalarBytes. cbn. lia.
  - by unfold sane.
  - destruct (IH t). unfold sane. cbn. split; [lia|done].
  - assert (Hf : Forall sane (map natural ts)) by (induction ts; constructor; [apply IH|done]).
    cbv zeta. set (al := if packed then 1 else _).
    assert (Hal : 0 < al) by (subst al; destruct packed; [done|]; clear -Hf; induction Hf; cbn; lia).
    split; [|done]. cbn [fst]. destruct (alignTo_spec (fieldOffset packed (map natural ts) 0 (length (map natural ts))) al Hal).
    pose proof (fieldOffset_ge packed (map natural ts) 0 (length (map natural ts)) Hf). lia.
Qed.

Lemma naturals_sane ts : Forall sane (map natural ts).
Proof. induction ts; constructor; [apply natural_sane|done]. Qed.

Lemma field_lookup ts i t : ts !! i = Some t → map natural ts !! i = Some (natural t).
Proof. intros H. change (map natural ts) with (natural <$> ts). by rewrite list_lookup_fmap, H. Qed.

#[local] Instance naturalLaws : DataLayoutLaws naturalLayout.
Proof.
  split; cbn [getTypeAllocSize getElementOffset naturalLayout].
  - intros t. apply natural_sane.
  - done.
  - done.
  - intros p ts i t Ht. pose proof (naturals_sane ts) as Hs. pose proof (field_lookup _ _ _ Ht) as Hf.
    split; [by apply fieldOffset_ge|]. cbn [natural fst]. cbv zeta. set (al := if p then 1 else _).
    assert (Hal : 0 < al) by (subst al; destruct p; [done|]; clear -Hs; induction Hs; cbn; lia).
    destruct (alignTo_spec (fieldOffset p (map natural ts) 0 (length (map natural ts))) al Hal).
    pose proof (fieldOffset_step p (map natural ts) 0 i (length (map natural ts)) (natural t) Hs (lookup_lt_Some _ _ _ Hf) Hf). lia.
  - intros p ts i j t u Hij Ht _. by apply (fieldOffset_step p (map natural ts) 0 i j (natural t) (naturals_sane ts) Hij), field_lookup.
Qed.

(** ** The program *)

Module FixedSample.

Definition plain (name : string) (init : constant) : global := Global name false "" 0 false true false None init.

(** [{ i64 42, ptr @buffer + 4, ptr @callback, i32 (@buffer - @table) }] *)
Definition tableInit : constant :=
  ConstantStruct false
    [ConstantInt 64 42;
     GEPExpr false (GlobalRef "buffer") (Some 4);
     CastExpr BitCast PointerTy (FunctionRef "callback");
     CastExpr Trunc (IntegerTy 32)
       (BinaryExpr Sub (CastExpr PtrToInt (IntegerTy 64) (GlobalRef "buffer")) (CastExpr PtrToInt (IntegerTy 64) (GlobalRef "table")))].

Definition globals : list global :=
  [plain "buffer" (ConstantZero (ArrayTy 4064 (IntegerTy 8)));
   plain "bpf_call_stack" (ConstantZero (ArrayTy 16384 (IntegerTy 8)));
   plain "table" tableInit].

Definition linked : config := Config 0 65536 0 0 2 0 4 0 MEMORY_FIXED 0 ABI_MAGIC ABI_VERSION 0.

Definition object : fixed_object :=
  Eval vm_compute in
  match runFixedMemory (Some 1) (Some 4096) globals linked ∅ firstFunctionId with
  | Ok o => o
  | Err _ => FixedObject ∅ [] [] [] ∅ linked 0
  end.

Lemma object_eq : runFixedMemory (Some 1) (Some 4096) globals linked ∅ firstFunctionId = Ok object.
Proof. by vm_compute. Qed.

Lemma object_offsets : o_offsets object = {["buffer" := 4128; "table" := 4096]}.
Proof. by vm_compute. Qed.

Lemma object_fixups : o_fixups object = [4104; 4112].
Proof. done. Qed.

Lemma names : NoDup (g_name <$> globals).
Proof. apply NoDup_ListNoDup. repeat constructor; set_solver. Qed.

Lemma linked_words : linkedWords linked.
Proof. by repeat split. Qed.

Lemma no_ids : idsOk (Emission [] [] ∅ firstFunctionId).
Proof. by split; cbn [FunctionIds NextFunctionId]; [|intros ? ? ?%lookup_empty_Some|intros ? ? ? ?%lookup_empty_Some]. Qed.

Lemma serialisable_object : serialisable object globals.
Proof.
  intros g Hg _ Hn. unfold globals in Hg. rewrite !elem_of_cons in Hg.
  destruct Hg as [->|[->|[->|Hg]]]; [done|done| |by apply not_elem_of_nil in Hg].
  split; [done|]. rewrite object_offsets. vm_compute. repeat split.
Qed.

(** The object loaded at the window. *)
Definition loaded : image :=
  Image (Value 0) (Value (o_fixups object)) (λ a, regionByte (o_regions object) (a - HostSample.win)).
Definition result : host * image * Z := initialize None HostSample.quiet HostSample.files HostSample.handle loaded.

Lemma result_eq : initialize None HostSample.quiet HostSample.files HostSample.handle loaded = (result.1.1, result.1.2, result.2).
Proof. by destruct result as [[? ?] ?] eqn:E. Qed.

Lemma loaded_owned : owned HostSample.handle loaded.
Proof. by constructor; intros; simplify_eq/=. Qed.

Lemma option_words : ∀ n, Some 1 = Some n → 0 <= n.
Proof. by intros n [= <-]. Qed.

#[local] Opaque object.

End FixedSample.

Lemma fixed_layout_sound_witness :
  ∃ off, o_offsets FixedSample.object !! "table"%string = Some off ∧
    lies (o_spanning FixedSample.object) (FixedSample.plain "table" FixedSample.tableInit) off ∧
    off + 32 <= heap_base (o_config FixedSample.object).
Proof.
  pose proof (fixed_layout_sound (Some 1) (Some 4096) FixedSample.globals FixedSample.linked ∅ firstFunctionId FixedSample.object
    FixedSample.names FixedSample.linked_words FixedSample.option_words FixedSample.object_eq) as [H _].
  exact (H (FixedSample.plain "table" FixedSample.tableInit) ltac:(right; right; left) eq_refl eq_refl).
Defined.

Lemma compiled_record_planned_witness :
  plan (o_config FixedSample.object) CONFIG_SIZE (Requested 2 65536) = Ok (o_config FixedSample.object, 1) ∧
  viewable (withWindow (o_config FixedSample.object) HostSample.win) = true.
Proof.
  destruct (compiled_record_planned (Some 1) (Some 4096) FixedSample.globals FixedSample.linked ∅ firstFunctionId FixedSample.object
    FixedSample.names FixedSample.linked_words ltac:(done) FixedSample.option_words FixedSample.object_eq) as [H1 H2].
  split; [exact H1|exact (H2 HostSample.win)].
Defined.

(** The pointer to the buffer's fourth byte, after initialisation. *)
Lemma fixed_image_loads_witness :
  FixedSample.result.2 = 0 ∧
  ∀ k, 0 <= k < 32 → bytes FixedSample.result.1.2 (HostSample.win + (4096 + k)) =
    constantByte (o_offsets FixedSample.object) (o_functions FixedSample.object) HostSample.win FixedSample.tableInit k.
Proof.
  destruct (fixed_image_loads (Some 1) (Some 4096) FixedSample.globals FixedSample.linked ∅ firstFunctionId FixedSample.object
    None HostSample.quiet HostSample.files HostSample.handle FixedSample.result.1.1 FixedSample.loaded FixedSample.result.1.2
    (CapsuleState HostSample.win None 0 false false false) FixedSample.result.2) as [(_ & _ & Hbad)|(He & _ & H)].
  - exact FixedSample.names.
  - exact FixedSample.linked_words.
  - exact FixedSample.option_words.
  - exact FixedSample.no_ids.
  - exact FixedSample.object_eq.
  - exact FixedSample.serialisable_object.
  - exact FixedSample.loaded_owned.
  - reflexivity.
  - reflexivity.
  - reflexivity.
  - intros c size [= <- <-]. by vm_compute.
  - intros a Ha. cbn [bytes FixedSample.loaded window]. f_equal. lia.
  - exact FixedSample.result_eq.
  - exfalso. by apply Hbad; vm_compute.
  - split; [exact He|]. intros k Hk.
    refine (H (FixedSample.plain "table" FixedSample.tableInit) 4096 k _ eq_refl eq_refl _ Hk); [right; right; left|by vm_compute].
Defined.
