(* ===== verification/HeapAccess.v ===== *)
(** * Access to fixed memory ([src/src/pass/memory.cpp])

    The flat address space of the fixed tier is backed by region maps: the
    direct regions are globals of the object, the rest are the entries of one
    array map.  The pass emits an accessor function for every width of load,
    store and atomic operation, splits unaligned accesses into aligned parts,
    reaches a global whose region is known without a call, bounds accesses to
    sectioned globals, and translates stack addresses to the current fiber's
    slice.  This file says what the emitted code computes. *)

From Stdlib Require Import ZArith Lia.
From stdpp Require Import base numbers list gmap strings.
From S2P Require Import Prelude Bytes Fiber Host FixedImage.

Module HeapAccess.
Import Fiber Host FixedImage.
Local Open Scope Z_scope.

(** ** Backing *)

(** The value of one map entry: bytes by offset. *)
Definition region := Z → Z.
Definition zeroRegion : region := λ _, 0.

(** The direct regions [Regions_] and the entries of [HeapArray_]. *)
Record store := Store { direct : list region; entries : list region }.

Definition TotalRegions : Z := Z.shiftr (Z.shiftl 1 32) MEMORY_REGION_SHIFT.

Inductive location := InDirect (r : nat) | InArray (i : nat).

Definition regionAt (s : store) (l : location) : region :=
  match l with InDirect r => default zeroRegion (direct s !! r) | InArray i => default zeroRegion (entries s !! i) end.

Definition updateAt (s : store) (l : location) (m : region) : store :=
  match l with
  | InDirect r => Store (<[r := m]> (direct s)) (entries s)
  | InArray i => Store (direct s) (<[i := m]> (entries s))
  end.

(** [bpf_map_lookup_elem] on the array map: null past its last entry. *)
Definition CreateHeapArrayLookup (s : store) (index : Z) : option location :=
  if index <? Z.of_nat (length (entries s)) then Some (InArray (Z.to_nat index)) else None.

(** ** The accessors *)

(** The offset inside the region, aligned to the access. *)
Definition lowOffset (width offset : Z) : Z := Z.land offset (span - width).

(** The region of an address, from its low word. *)
Definition regionIndex (offset : Z) : Z := Z.shiftr (u32 offset) MEMORY_REGION_SHIFT.

(** The overflow path: where [CreateHeapArrayAccessor] ends up. *)
Definition arrayRoute (s : store) (offset : Z) : option location :=
  let index := regionIndex offset in
  let afterDirect := Z.of_nat (length (direct s)) <=? index in
  let beforeEnd := index <? TotalRegions in
  if afterDirect && beforeEnd then CreateHeapArrayLookup s (index - Z.of_nat (length (direct s))) else None.

(** The entry of [CreateHeapAccessor]: region 0 first, then a switch over the
    other direct regions whose default is the overflow path.  [hasArray] says
    that the object has an array map. *)
Definition heapRoute (hasArray : bool) (s : store) (offset : Z) : option location :=
  let index := regionIndex offset in
  if index =? 0 then Some (InDirect 0)
  else if index <? Z.of_nat (length (direct s)) then Some (InDirect (Z.to_nat index))
  else if hasArray then arrayRoute s offset else None.

Definition heapLoad (hasArray : bool) (width : nat) (s : store) (offset : Z) : Z :=
  match heapRoute hasArray s offset with
  | Some l => loadLE (regionAt s l) (lowOffset (Z.of_nat width) offset) width
  | None => 0
  end.

(** The status a store accessor returns is always zero. *)
Definition heapStore (hasArray : bool) (width : nat) (s : store) (offset value : Z) : store * Z :=
  match heapRoute hasArray s offset with
  | Some l =>
      (updateAt s l (storeLE (regionAt s l) (lowOffset (Z.of_nat width) offset) width (wrap (8 * Z.of_nat width) value)), 0)
  | None => (s, 0)
  end.

Inductive HeapAtomicKind := AtomicAdd | AtomicAnd | AtomicOr | AtomicXor | AtomicExchange | AtomicCompareExchange.

(** What the native atomic instruction writes over [old]. *)
Definition nativeAtomic (kind : HeapAtomicKind) (bits old operand replacement : Z) : Z :=
  match kind with
  | AtomicAdd => wrap bits (old + operand)
  | AtomicAnd => Z.land old operand
  | AtomicOr => Z.lor old operand
  | AtomicXor => Z.lxor old operand
  | AtomicExchange => operand
  | AtomicCompareExchange => if old =? operand then replacement else old
  end.

Definition heapAtomic (hasArray : bool) (kind : HeapAtomicKind) (width : nat) (s : store) (offset operand replacement : Z) :
    store * Z :=
  match heapRoute hasArray s offset with
  | Some l =>
      let bits := 8 * Z.of_nat width in
      let low := lowOffset (Z.of_nat width) offset in
      let old := loadLE (regionAt s l) low width in
      (updateAt s l (storeLE (regionAt s l) low width (nativeAtomic kind bits old (wrap bits operand) (wrap bits replacement))), old)
  | None => (s, 0)
  end.

(** ** Unaligned accesses *)

Section split.
Context (loadPart : Z → Z) (alignment : Z).

(** The parts of a load, combined: [parts] of them are left from [offset]. *)
Fixpoint splitLoad (parts : nat) (pointer offset raw : Z) : Z :=
  match parts with
  | O => raw
  | S parts =>
      let part := loadPart (u64 (pointer + offset)) in
      splitLoad parts pointer (offset + alignment) (Z.lor raw (Z.shiftl part (8 * offset)))
  end.
End split.

Section splitStore.
Context {S : Type} (storePart : S → Z → Z → S) (alignment : Z).

Fixpoint splitStore (parts : nat) (pointer offset raw : Z) (s : S) : S :=
  match parts with
  | O => s
  | Datatypes.S parts =>
      let s := storePart s (u64 (pointer + offset)) (wrap (8 * alignment) (Z.shiftr raw (8 * offset))) in
      splitStore parts pointer (offset + alignment) raw s
  end.
End splitStore.

Inductive access_error := AtomicAlignment | UnsupportedUnaligned.

(** The decision of [SplitUnalignedAccesses]: [None] leaves the access, a
    number is the count of its parts. *)
Definition splitParts (isAtomic scalar : bool) (width alignment : Z) : result access_error (option nat) :=
  if width <=? alignment then Ok None
  else if isAtomic then Err AtomicAlignment
  else if negb scalar || negb (isPowerOf2 width) || (8 <? width) then Err UnsupportedUnaligned
  else Ok (Some (Z.to_nat (width / alignment))).

(** ** Direct access *)

(** The address of an access as an expression; [VOpaque] and the index of an
    address computation are run-time values. *)
Inductive value :=
| VConstant (k : Z)
| VViewBase
| VOpaque (i : nat)
| VGEP (base : value) (index : nat)
| VCast (v : value)
| VAdd (lhs rhs : value).

Definition isViewBase (v : value) : bool := match v with VViewBase => true | _ => false end.
Definition isConstant (v : value) : bool := match v with VConstant _ => true | _ => false end.

(** The number of steps [TraceRegion] follows. *)
Definition HOPS : nat := 16.

Section trace.
Context (Spanning : list (Z * Z)) (regions : Z).

Definition inSpanning (base : Z) : bool := existsb (λ r, (r.1 <=? base) && (base <? r.2)) Spanning.

Fixpoint TraceRegion (hops : nat) (v : value) {struct v} : option Z :=
  match hops with
  | O => None
  | S hops =>
      match v with
      | VGEP base _ => TraceRegion hops base
      | VCast v => TraceRegion hops v
      | VAdd lhs rhs =>
          if isViewBase lhs then TraceRegion hops rhs
          else if isViewBase rhs then TraceRegion hops lhs
          else if isConstant rhs then TraceRegion hops lhs
          else if isConstant lhs then TraceRegion hops rhs
          else
            match TraceRegion HOPS lhs with
            | Some region => Some region
            | None => TraceRegion hops rhs
            end
      | VConstant base =>
          if inSpanning base then None
          else
            let region := Z.shiftr base MEMORY_REGION_SHIFT in
            if region <? regions then Some region else None
      | VViewBase | VOpaque _ => None
      end
  end.
End trace.

(** The place of a direct access: the region and the masked low word.  A
    guarded access compares the mask again. *)
Definition directOffset (guarded : bool) (width offset : Z) : Z :=
  let masked32 := Z.land (u32 offset) (span - width) in
  if guarded then (if masked32 <? span then masked32 else 0) else masked32.

(** ** Sectioned globals *)

(** [BoundSectionedGlobalAddress] on an address [constant + sum scale*index]
    into an object; [None] when the pass gives up, [inl] when nothing has to
    be bounded. *)
Definition BoundSectionedGlobalAddress (constant : Z) (variables : list (Z * Z)) (objectSize accessSize : Z) :
    option (unit + Z) :=
  match variables with
  | [] => Some (inl tt)
  | _ =>
      if (accessSize =? 0) || (objectSize <? accessSize) then None
      else
        let offset := foldl (λ o '(index, scale), u64 (o + u64 (index * scale))) (u64 constant) variables in
        Some (inr (if offset <=? objectSize - accessSize then offset else 0))
  end.

(** ** The software stack *)

Section stack.
Context (FiberStackSize SoftwareStackBytes : Z).

Definition maxFibers : Z := SoftwareStackBytes / FiberStackSize.

Definition normalizeFiber (fiber : Z) : Z :=
  if isPowerOf2 maxFibers then Z.land fiber (maxFibers - 1) else fiber mod maxFibers.

(** The map entry that holds a fiber's slice, and the slice's offset in it. *)
Definition stackRegion (c : config) (s : store) (fiber : Z) : option location :=
  let fiber := normalizeFiber fiber in
  let stackAddress := stack_base c + fiber * FiberStackSize in
  let region := u32 (Z.shiftr stackAddress MEMORY_REGION_SHIFT) in
  CreateHeapArrayLookup s (u32 (region - Z.of_nat (length (direct s)))).

Definition stackOffset (fiber : Z) : Z :=
  let fiber := normalizeFiber fiber in
  Z.land (u32 (fiber * FiberStackSize)) (span - 1).

(** The offset of a logical stack address inside the slice: the mask of
    [SoftwareStackAccessor]; an address it cannot bound is invalid. *)
Definition stackLow (width address : Z) : option Z :=
  let low := Z.land (u32 address) (FiberStackSize - width) in
  if low <=? FiberStackSize - width then Some low else None.

(** The slice as the accessors see it: a region and the slice's offset. *)
Definition stackLoad (s : store) (base : option (location * Z)) (width : nat) (address : Z) : Z :=
  match base, stackLow (Z.of_nat width) address with
  | Some (l, off), Some low => loadLE (regionAt s l) (off + low) width
  | _, _ => 0
  end.

Definition stackStore (s : store) (base : option (location * Z)) (width : nat) (address v : Z) : store :=
  match base, stackLow (Z.of_nat width) address with
  | Some (l, off), Some low => updateAt s l (storeLE (regionAt s l) (off + low) width (wrap (8 * Z.of_nat width) v))
  | _, _ => s
  end.

(** A group of frame accesses with one translation
    ([PromoteSingleRegionSoftwareStack]): accesses as offset, width and
    alignment. *)
Record stack_access := StackAccess { sa_offset : Z; sa_width : Z; sa_align : Z }.

Record stack_group := StackGroup { sg_minimum : Z; sg_maximum : Z; sg_align : Z; sg_alignedOffset : Z }.

Definition groupStep (g : stack_group) (a : stack_access) : stack_group :=
  if (2 ^ 63 - 1 <? sa_width a) || (2 ^ 63 - 1 - sa_width a <? sa_offset a) then g
  else
  let minimum := Z.min (sg_minimum g) (sa_offset a) in
  let maximum := Z.max (sg_maximum g) (sa_offset a + sa_width a) in
  if sg_align g <? sa_align a then StackGroup minimum maximum (sa_align a) (sa_offset a)
  else StackGroup minimum maximum (sg_align g) (sg_alignedOffset g).

Definition groupOf (l : list stack_access) : stack_group :=
  foldl groupStep (StackGroup (2 ^ 63 - 1) (- 2 ^ 63) 1 0) l.

(** What an access demands of its root: accesses are grouped by it.
    [frameRoot] says that the root is the current frame's, which is 16-byte
    aligned. *)
Definition constraintOf (frameRoot : bool) (a : stack_access) : Z :=
  let residue := Z.land (u64 (- sa_offset a)) (sa_align a - 1) in
  let frameAligned := frameRoot && (sa_align a <=? 16) && (residue =? 0) in
  if frameAligned then 0 else sa_align a + residue.

Definition groupAlignment (frameRoot : bool) (g : stack_group) : Z * Z :=
  if frameRoot && (sg_align g <? 16) then (16, 0) else (sg_align g, sg_alignedOffset g).

(** The checked offset of the group's first byte in the slice: [inl] when the
    group is not promoted, [inr None] when the access faults at run time. *)
Definition promoteGroup (frameRoot terminate : bool) (l : list stack_access) (root : Z) : unit + option Z :=
  let g := groupOf l in
  let '(alignment, alignedOffset) := groupAlignment frameRoot g in
  if (sg_minimum g =? 2 ^ 63 - 1) || (sg_maximum g <? sg_minimum g) || (FiberStackSize <? sg_maximum g - sg_minimum g) then inl tt
  else
    let extent := sg_maximum g - sg_minimum g in
    let mask := Z.min alignment FiberStackSize - 1 in
    let residue := Z.land (u64 (sg_minimum g - alignedOffset)) mask in
    if FiberStackSize - extent <? residue then inl tt
    else
      let low := Z.lor (Z.land (u32 (u64 (root + sg_minimum g))) (FiberStackSize - 1 - mask)) residue in
      let inRange := low <=? FiberStackSize - extent in
      inr (if terminate then (if inRange then Some low else None) else Some (if inRange then low else residue)).
End stack.

End HeapAccess.
