(* ===== verification/HeapAccessProps.v ===== *)
(** * Region maps implement flat memory

    The bytes of the regions, one after another, are the flat address space;
    accessors, split accesses and direct accesses are loads and stores of it. *)

From Stdlib Require Import ZArith Lia.
From stdpp Require Import base numbers list gmap strings.
From S2P Require Import Prelude Bytes Fiber Host FixedImage FixedImageFacts FixedLayout HeapAccess.
Import Fiber Host FixedImage HeapAccess.

Local Open Scope Z_scope.
Local Arguments loadLE : simpl never.
Local Arguments storeLE : simpl never.

(** ** Masks *)

(** Masking with [S - w] for powers of two keeps the remainder by [S], rounded
    down to a multiple of [w]. *)
Lemma land_span_width x i j : 0 <= j <= i → Z.land x (2 ^ i - 2 ^ j) = x mod 2 ^ i - x mod 2 ^ j.
Proof.
  intros Hj. replace (2 ^ i - 2 ^ j) with (Z.ldiff (Z.ones i) (Z.ones j)).
  - rewrite Z.ldiff_land, Z.land_assoc, Z.land_ones, <-Z.ldiff_land, Z.ldiff_ones_r by lia.
    rewrite Z.shiftr_div_pow2, Z.shiftl_mul_pow2 by lia.
    assert (Hd : (2 ^ j | 2 ^ i)) by (exists (2 ^ (i - j)); rewrite <-Z.pow_add_r by lia; f_equal; lia).
    pose proof (Z.mod_mod_divide x _ _ Hd). pose proof (pow2_pos j). pose proof (Z.div_mod (x mod 2 ^ i) (2 ^ j)). lia.
  - rewrite Z.ldiff_ones_r by lia. rewrite Z.shiftr_div_pow2, Z.shiftl_mul_pow2, Z.ones_equiv by lia.
    replace (2 ^ i) with (2 ^ (i - j) * 2 ^ j) by (rewrite <-Z.pow_add_r by lia; f_equal; lia).
    pose proof (pow2_pos j). replace (Z.pred (2 ^ (i - j) * 2 ^ j) / 2 ^ j) with (2 ^ (i - j) - 1); [lia|].
    apply (Z.div_unique _ _ _ (2 ^ j - 1)); lia.
Qed.

(** The widths of accesses. *)
Definition accessWidth (n : nat) : Prop := n ∈ [1; 2; 4; 8]%nat.

Lemma accessWidth_pow n : accessWidth n → ∃ j, 0 <= j <= 3 ∧ Z.of_nat n = 2 ^ j.
Proof.
  unfold accessWidth. rewrite !elem_of_cons, elem_of_nil. intros [->|[->|[->|[->|[]]]]].
  - by exists 0. - by exists 1. - by exists 2. - by exists 3.
Qed.

(** The masked offset of an access: inside the region, aligned, and exact for
    an aligned address. *)
Lemma lowOffset_spec n offset :
  accessWidth n →
  let low := lowOffset (Z.of_nat n) offset in
  0 <= low ∧ low + Z.of_nat n <= span ∧ low mod Z.of_nat n = 0 ∧
  (u32 offset mod Z.of_nat n = 0 → low = u32 offset mod span).
Proof.
  intros (j & Hj & Hn)%accessWidth_pow. unfold lowOffset. cbv zeta. rewrite Hn. change span with (2 ^ 22).
  rewrite land_span_width by lia. pose proof (pow2_pos j). pose proof (Z.pow_le_mono_r 2 j 22).
  assert (Hd : (2 ^ j | 2 ^ 22)) by (exists (2 ^ (22 - j)); rewrite <-Z.pow_add_r by lia; f_equal; lia).
  pose proof (Z.mod_mod_divide offset _ _ Hd) as Hmm. pose proof (Z.mod_pos_bound offset (2 ^ 22)).
  assert (Hdm := Z.div_mod (offset mod 2 ^ 22) (2 ^ j) ltac:(lia)). rewrite Hmm in Hdm.
  pose proof (Z.mod_pos_bound offset (2 ^ j)).
  assert (Hq : (offset mod 2 ^ 22) / 2 ^ j < 2 ^ (22 - j)).
  { apply Z.div_lt_upper_bound; [lia|]. rewrite <-Z.pow_add_r by lia. replace (j + (22 - j)) with 22 by lia. lia. }
  assert (Hs : 2 ^ 22 = 2 ^ j * 2 ^ (22 - j)) by (rewrite <-Z.pow_add_r by lia; f_equal; lia).
  assert (Hq0 : 0 <= (offset mod 2 ^ 22) / 2 ^ j) by (apply Z.div_pos; lia).
  split_and!; [nia|nia| |].
  - replace (offset mod 2 ^ 22 - offset mod 2 ^ j) with (2 ^ j * ((offset mod 2 ^ 22) / 2 ^ j)) by lia.
    rewrite Z.mul_comm. apply Z_mod_mult.
  - unfold u32. rewrite !wrap_mod by lia. lia.
Qed.

(** ** The flat view *)

Definition regionsOf (s : store) : list region := direct s ++ entries s.

(** The byte at displacement [a]; zero where nothing is backed. *)
Definition flat (s : store) (a : Z) : Z := default zeroRegion (regionsOf s !! Z.to_nat (a / span)) (a mod span).

Definition backedBytes (s : store) : Z := Z.of_nat (length (regionsOf s)) * span.

(** At least one direct region, and no more regions than addresses. *)
Definition backed (s : store) : Prop := (1 <= length (direct s))%nat ∧ backedBytes s <= 2 ^ 32.

(** The same regions with other contents. *)
Definition sameShape (s s' : store) : Prop :=
  length (direct s') = length (direct s) ∧ length (entries s') = length (entries s).

Lemma heapRoute_spec s offset :
  backed s → let r := Z.to_nat (u32 offset / span) in
  match heapRoute true s offset with
  | Some l => regionsOf s !! r = Some (regionAt s l) ∧
      ∀ m, regionsOf (updateAt s l m) = <[r := m]> (regionsOf s) ∧ sameShape s (updateAt s l m)
  | None => regionsOf s !! r = None
  end.
Proof.
  intros [Hd Hb]. unfold backedBytes, regionsOf in Hb. rewrite length_app in Hb. change span with (2 ^ 22) in *.
  unfold heapRoute, arrayRoute, CreateHeapArrayLookup, regionIndex. change MEMORY_REGION_SHIFT with 22.
  rewrite Z.shiftr_div_pow2 by lia. change TotalRegions with 1024.
  assert (Hu : 0 <= u32 offset < 2 ^ 32) by (by apply wrap_range).
  assert (Hq : 0 <= u32 offset / 2 ^ 22 < 1024) by (split; [apply Z.div_pos; lia|apply Z.div_lt_upper_bound; lia]).
  set (q := u32 offset / 2 ^ 22) in *. cbv zeta.
  assert (Hdirect : q < Z.of_nat (length (direct s)) →
    regionsOf s !! Z.to_nat q = Some (regionAt s (InDirect (Z.to_nat q))) ∧
    ∀ m, regionsOf (updateAt s (InDirect (Z.to_nat q)) m) = <[Z.to_nat q := m]> (regionsOf s) ∧ sameShape s (updateAt s (InDirect (Z.to_nat q)) m)).
  { intros Hlt. unfold regionsOf. cbn [regionAt updateAt direct entries]. rewrite lookup_app_l by lia.
    destruct (lookup_lt_is_Some_2 (direct s) (Z.to_nat q)) as [m0 ->]; [lia|]. split; [done|]. intros m.
    rewrite insert_app_l by lia. split; [done|]. split; cbn [direct entries]; [apply length_insert|done]. }
  destruct (Z.eqb_spec q 0) as [Hz|Hz].
  { replace (InDirect 0) with (InDirect (Z.to_nat q)) by (by rewrite Hz). apply Hdirect. lia. }
  destruct (Z.ltb_spec q (Z.of_nat (length (direct s)))) as [Hlt|Hge]; [by apply Hdirect|].
  destruct (Z.leb_spec (Z.of_nat (length (direct s))) q); [|lia]. destruct (Z.ltb_spec q 1024); [|lia]. cbn [andb].
  destruct (Z.ltb_spec (q - Z.of_nat (length (direct s))) (Z.of_nat (length (entries s)))) as [Hin|Hout].
  - unfold regionsOf. cbn [regionAt updateAt direct entries]. rewrite lookup_app_r by lia.
    replace (Z.to_nat q - length (direct s))%nat with (Z.to_nat (q - Z.of_nat (length (direct s)))) by lia.
    destruct (lookup_lt_is_Some_2 (entries s) (Z.to_nat (q - Z.of_nat (length (direct s))))) as [m0 ->]; [lia|]. split; [done|].
    intros m. rewrite insert_app_r_alt by lia.
    replace (Z.to_nat q - length (direct s))%nat with (Z.to_nat (q - Z.of_nat (length (direct s)))) by lia.
    split; [done|]. split; cbn [direct entries]; [done|apply length_insert].
  - unfold regionsOf. apply lookup_ge_None_2. rewrite length_app. lia.
Qed.

(** An aligned access does not leave its region. *)
Lemma aligned_inside a n : accessWidth n → a mod Z.of_nat n = 0 → a mod span + Z.of_nat n <= span.
Proof.
  intros (j & Hj & ->)%accessWidth_pow Hal. change span with (2 ^ 22). pose proof (pow2_pos j).
  assert (Hd : (2 ^ j | 2 ^ 22)) by (exists (2 ^ (22 - j)); rewrite <-Z.pow_add_r by lia; f_equal; lia).
  pose proof (Z.mod_mod_divide a _ _ Hd) as Hmm. rewrite Hal in Hmm. destruct Hd as [q Hq].
  pose proof (Z.mod_pos_bound a (2 ^ 22)). apply Z.div_exact in Hmm; [|lia].
  assert ((a mod 2 ^ 22) / 2 ^ j < q) by (apply Z.div_lt_upper_bound; lia). nia.
Qed.

(** ** Accesses inside one region *)

Section inside.
Context (s : store) (a : Z) (n : nat) (m0 : region).
Context (Ha : 0 <= a) (Hfit : a mod span + Z.of_nat n <= span) (Hm0 : regionsOf s !! Z.to_nat (a / span) = Some m0).

Lemma inside_byte x : a <= x < a + Z.of_nat n → x / span = a / span ∧ x mod span = a mod span + (x - a).
Proof.
  change span with (2 ^ 22) in *. intros Hx. pose proof (Z.div_mod a (2 ^ 22)). pose proof (Z.mod_pos_bound a (2 ^ 22)).
  split; symmetry; [apply (Z.div_unique _ _ _ (a mod 2 ^ 22 + (x - a)))|apply (Z.mod_unique _ _ (a / 2 ^ 22))]; lia.
Qed.

(** Reading a word of the region is reading it in the flat memory. *)
Lemma inside_load : loadLE m0 (a mod span) n = loadLE (flat s) a n.
Proof.
  assert (H : ∀ k y, (k <= n)%nat → y = Z.of_nat n - Z.of_nat k → loadLE m0 (a mod span + y) k = loadLE (flat s) (a + y) k).
  { induction k as [|k IH]; intros y Hk Hy; [done|]. unfold loadLE; fold loadLE.
    destruct (inside_byte (a + y)) as [Hd Hm]; [lia|]. f_equal.
    - unfold flat. rewrite Hd, Hm, Hm0. cbn. f_equal. lia.
    - f_equal. rewrite <-!Z.add_assoc. apply IH; lia. }
  specialize (H n 0 ltac:(lia) ltac:(lia)). by rewrite !Z.add_0_r in H.
Qed.

(** Writing a word of the region is writing it in the flat memory. *)
Lemma inside_store s' v x : 0 <= x →
  regionsOf s' = <[Z.to_nat (a / span) := storeLE m0 (a mod span) n v]> (regionsOf s) → flat s' x = storeLE (flat s) a n v x.
Proof.
  intros Hx Hu. unfold flat at 1. rewrite Hu. clear Hu. assert (Hsp : span = 2 ^ 22) by done.
  assert (Hda : 0 <= a / span) by (apply Z.div_pos; lia). assert (Hdx : 0 <= x / span) by (apply Z.div_pos; lia).
  pose proof (Z.div_mod a span). pose proof (Z.div_mod x span). pose proof (Z.mod_pos_bound x span). pose proof (Z.mod_pos_bound a span).
  destruct (decide (x / span = a / span)) as [He|Hne].
  - rewrite He, list_lookup_insert_eq by (by eapply lookup_lt_Some). cbn. rewrite !storeLE_lookup.
    replace (x mod span - a mod span) with (x - a) by lia.
    destruct (Z.leb_spec (a mod span) (x mod span)), (Z.leb_spec a x), (Z.ltb_spec (x mod span) (a mod span + Z.of_nat n)),
      (Z.ltb_spec x (a + Z.of_nat n)); cbn [andb]; try lia; try done; unfold flat; by rewrite He, Hm0.
  - rewrite list_lookup_insert_ne by (intros E; apply Hne; lia). rewrite storeLE_outside; [done|].
    destruct (decide (a <= x < a + Z.of_nat n)) as [Hin|]; [|lia]. destruct (inside_byte x Hin) as [? _]. lia.
Qed.
End inside.

(** ** Accessors *)

Section access.
Context (s : store) (n : nat) (offset : Z).
Context (Hback : backed s) (Hn : accessWidth n) (Hal : u32 offset mod Z.of_nat n = 0).

Let a := u32 offset.

Lemma address_range : 0 <= a < 2 ^ 32.
Proof. by apply wrap_range. Qed.

Lemma region_load l : regionsOf s !! Z.to_nat (a / span) = Some (regionAt s l) →
  loadLE (regionAt s l) (lowOffset (Z.of_nat n) offset) n = loadLE (flat s) a n.
Proof.
  intros Hl. destruct (lowOffset_spec n offset Hn) as (_ & _ & _ & ->); [|done]. fold a. pose proof address_range.
  apply inside_load; [by apply aligned_inside|done].
Qed.

(** Nothing is backed where the accessor finds no region. *)
Lemma unbacked_load : regionsOf s !! Z.to_nat (a / span) = None → loadLE (flat s) a n = 0.
Proof.
  intros Hl. assert (H : ∀ k y, (k <= n)%nat → y = Z.of_nat n - Z.of_nat k → loadLE (flat s) (a + y) k = 0).
  { pose proof address_range. induction k as [|k IH]; intros y Hk Hy; [done|]. unfold loadLE; fold loadLE.
    destruct (inside_byte a n ltac:(by apply aligned_inside) (a + y)) as [Hd Hm]; [lia|]. unfold flat at 1. rewrite Hd, Hl. cbn.
    rewrite <-Z.add_assoc, IH by lia. done. }
  specialize (H n 0 ltac:(lia) ltac:(lia)). by rewrite Z.add_0_r in H.
Qed.

Lemma heapLoad_flat : heapLoad true n s offset = loadLE (flat s) a n.
Proof.
  unfold heapLoad. pose proof (heapRoute_spec s offset Hback) as Hr. fold a in Hr.
  destruct (heapRoute true s offset) as [l|]; [apply region_load, Hr|by rewrite unbacked_load].
Qed.

Lemma storeLE_wrap (m : mem) b k v : storeLE m b k (wrap (8 * Z.of_nat k) v) = storeLE m b k v.
Proof.
  assert (H : ∀ k m b v, storeLE m b k (wrap (8 * Z.of_nat k) v) = storeLE m b k v).
  { clear. induction k as [|k IH]; intros m b v; [done|]. unfold storeLE; fold storeLE.
    rewrite <-(IH m (b + 1) (v / 256)), <-(IH m (b + 1) (wrap _ v / 256)). unfold wrap.
    replace (8 * Z.of_nat (S k)) with (8 + 8 * Z.of_nat k) by lia. rewrite Z.pow_add_r by lia. change (2 ^ 8) with 256.
    pose proof (pow2_pos (8 * Z.of_nat k)).
    rewrite (Z.rem_mul_r v 256) by lia. rewrite (Z.mul_comm 256), Z.mod_add, Z.mod_mod, Z.div_add by lia.
    rewrite (Z.div_small (v mod 256)) by (apply Z.mod_pos_bound; lia). rewrite Z.add_0_l, Z.mod_mod by lia. done. }
  apply H.
Qed.

(** A store of the flat memory, or nothing outside the backing. *)
Definition stored (s' : store) (v : Z) : Prop :=
  sameShape s s' ∧ if a <? backedBytes s then ∀ x, 0 <= x → flat s' x = storeLE (flat s) a n v x else s' = s.

Lemma updateAt_stored l v : heapRoute true s offset = Some l →
  stored (updateAt s l (storeLE (regionAt s l) (lowOffset (Z.of_nat n) offset) n v)) v.
Proof.
  intros Hr. pose proof (heapRoute_spec s offset Hback) as H. rewrite Hr in H. fold a in H. destruct H as [Hl Hu].
  destruct (Hu (storeLE (regionAt s l) (lowOffset (Z.of_nat n) offset) n v)) as [Hu' Hs]. split; [done|].
  pose proof address_range. apply lookup_lt_Some in Hl as Hlt. unfold backedBytes.
  destruct (Z.ltb_spec a (Z.of_nat (length (regionsOf s)) * span)) as [_|Hge].
  - intros x Hx. destruct (lowOffset_spec n offset Hn) as (_ & _ & _ & Hlow). rewrite (Hlow Hal) in *. fold a in Hu' |- *.
    eapply inside_store; [lia|by apply aligned_inside|exact Hl|done|done].
  - exfalso. pose proof (Z.div_le_lower_bound a span (Z.of_nat (length (regionsOf s)))). change span with (2 ^ 22) in *. lia.
Qed.

Lemma unrouted_stored v : heapRoute true s offset = None → stored s v.
Proof.
  intros Hr. pose proof (heapRoute_spec s offset Hback) as H. rewrite Hr in H. fold a in H. split; [done|].
  pose proof address_range. apply lookup_ge_None in H. unfold backedBytes.
  destruct (Z.ltb_spec a (Z.of_nat (length (regionsOf s)) * span)) as [Hlt|]; [|done].
  exfalso. pose proof (Z.div_lt_upper_bound a span (Z.of_nat (length (regionsOf s)))). change span with (2 ^ 22) in *. lia.
Qed.

Lemma heapStore_flat v : stored (heapStore true n s offset v).1 v ∧ (heapStore true n s offset v).2 = 0.
Proof.
  unfold heapStore. destruct (heapRoute true s offset) as [l|] eqn:Hr; cbn [fst snd].
  - rewrite storeLE_wrap. split; [by apply updateAt_stored|done].
  - split; [by apply unrouted_stored|done].
Qed.

Lemma heapAtomic_flat kind operand replacement :
  let bits := 8 * Z.of_nat n in
  let old := loadLE (flat s) a n in
  (heapAtomic true kind n s offset operand replacement).2 = old ∧
  stored (heapAtomic true kind n s offset operand replacement).1
    (nativeAtomic kind bits old (wrap bits operand) (wrap bits replacement)).
Proof.
  cbv zeta. unfold heapAtomic. pose proof (heapRoute_spec s offset Hback) as H. fold a in H.
  destruct (heapRoute true s offset) as [l|] eqn:Hr; cbv zeta; cbn [fst snd].
  - rewrite region_load by apply H. split; [done|]. by apply updateAt_stored.
  - rewrite unbacked_load by done. split; [done|]. by apply unrouted_stored.
Qed.
End access.

(** ** Split accesses *)

(** Every byte of the regions is a byte. *)
Definition byteStore (s : store) : Prop := ∀ a, 0 <= flat s a < 256.

Lemma loadLE_app m b i j : loadLE m b (i + j) = loadLE m b i + 256 ^ Z.of_nat i * loadLE m (b + Z.of_nat i) j.
Proof.
  revert b. induction i as [|i IH]; intros b.
  { cbn [Nat.add]. rewrite Z.add_0_r. change (loadLE m b 0) with 0. change (256 ^ Z.of_nat 0) with 1. lia. }
  cbn [Nat.add]. unfold loadLE; fold loadLE. rewrite IH. rewrite Nat2Z.inj_succ, Z.pow_succ_r by lia.
  replace (b + Z.succ (Z.of_nat i)) with (b + 1 + Z.of_nat i) by lia. lia.
Qed.

Lemma log2_below x k i : 0 <= k <= i → 0 <= x < 2 ^ k → Z.log2 x < i ∨ x = 0.
Proof.
  intros Hk Hx. destruct (decide (x = 0)) as [->|]; [by right|left]. apply Z.log2_lt_pow2; [lia|].
  pose proof (Z.pow_le_mono_r 2 k i). lia.
Qed.

Lemma land_shifted x y k : 0 <= k → 0 <= x < 2 ^ k → Z.land x (Z.shiftl y k) = 0.
Proof.
  intros Hk Hx. apply Z.bits_inj'. intros i Hi. rewrite Z.land_spec, Z.bits_0. destruct (decide (i < k)).
  - rewrite Z.shiftl_spec_low by done. by rewrite andb_false_r.
  - destruct (log2_below x k i) as [Hl | ->]; [lia|done| |by rewrite Z.bits_0]. by rewrite (Z.bits_above_log2 x) by lia.
Qed.

Lemma lor_shifted x y k : 0 <= k → 0 <= x < 2 ^ k → Z.lor x (Z.shiftl y k) = x + 2 ^ k * y.
Proof.
  intros Hk Hx. rewrite <-Z.lxor_lor, <-Z.add_nocarry_lxor by (by apply land_shifted). rewrite Z.shiftl_mul_pow2 by done. lia.
Qed.

(** The low word of a part's address. *)
Lemma part_address pointer k : 0 <= k → u32 pointer + k < 2 ^ 32 → u32 (u64 (pointer + k)) = u32 pointer + k.
Proof.
  intros Hk Hlim. unfold u32, u64 in *. unfold wrap at 1. rewrite (wrap_mod 32 64) by lia.
  unfold wrap in *. rewrite Z.add_mod by lia. pose proof (Z.mod_pos_bound pointer (2 ^ 32)). rewrite (Z.mod_small k) by lia.
  by rewrite Z.mod_small by lia.
Qed.

Lemma splitLoad_flat s al : backed s → byteStore s → accessWidth al → ∀ parts pointer done_,
  u32 pointer mod Z.of_nat al = 0 → Z.of_nat done_ mod Z.of_nat al = 0 →
  u32 pointer + Z.of_nat (done_ + parts * al) <= 2 ^ 32 →
  splitLoad (heapLoad true al s) (Z.of_nat al) parts pointer (Z.of_nat done_) (loadLE (flat s) (u32 pointer) done_) =
  loadLE (flat s) (u32 pointer) (done_ + parts * al).
Proof.
  intros Hb Hbytes Hal. assert (Hpos : 0 < Z.of_nat al) by (apply accessWidth_pow in Hal as (j & Hj & ->); apply pow2_pos; lia).
  induction parts as [|parts IH]; intros pointer d Hp Hd Hlim; cbn [splitLoad]; [by rewrite Nat.add_0_r|]. cbv zeta.
  assert (Haddr : u32 (u64 (pointer + Z.of_nat d)) = u32 pointer + Z.of_nat d) by (apply part_address; lia).
  rewrite heapLoad_flat, Haddr; [|done|done|rewrite Haddr, Z.add_mod, Hp, Hd by lia; done].
  rewrite lor_shifted; [|lia|].
  - replace (2 ^ (8 * Z.of_nat d)) with (256 ^ Z.of_nat d) by (by rewrite Z.pow_mul_r by lia). rewrite <-loadLE_app.
    replace (Z.of_nat d + Z.of_nat al) with (Z.of_nat (d + al)) by lia.
    rewrite IH; [f_equal; lia|done| |lia]. rewrite Nat2Z.inj_add, Z.add_mod, Hd, Z.mod_same by lia. done.
  - replace (2 ^ (8 * Z.of_nat d)) with (256 ^ Z.of_nat d) by (by rewrite Z.pow_mul_r by lia). apply loadLE_range. intros x. apply Hbytes.
Qed.

(** What was stored so far, and the next part. *)
Lemma storeLE_extend (m : mem) b i j v x :
  storeLE (storeLE m b i v) (b + Z.of_nat i) j (wrap (8 * Z.of_nat j) (Z.shiftr v (8 * Z.of_nat i))) x = storeLE m b (i + j) v x.
Proof.
  rewrite storeLE_wrap, !storeLE_lookup. rewrite Z.shiftr_div_pow2 by lia.
  replace (2 ^ (8 * Z.of_nat i)) with (256 ^ Z.of_nat i) by (by rewrite Z.pow_mul_r by lia). rewrite Nat2Z.inj_add.
  destruct (Z.leb_spec (b + Z.of_nat i) x), (Z.leb_spec b x), (Z.ltb_spec x (b + Z.of_nat i + Z.of_nat j)),
    (Z.ltb_spec x (b + Z.of_nat i)), (Z.ltb_spec x (b + (Z.of_nat i + Z.of_nat j))); cbn [andb]; try lia; try done.
  rewrite Z.div_div by lia. do 2 f_equal. rewrite <-Z.pow_add_r by lia. f_equal. lia.
Qed.

Lemma sameShape_backed s s' : sameShape s s' → backed s → backed s' ∧ backedBytes s' = backedBytes s.
Proof.
  intros [H1 H2] [Hd Hb]. unfold backed, backedBytes, regionsOf in *. rewrite !length_app, H1, H2 in *. done.
Qed.

Lemma splitStore_flat s0 al raw : accessWidth al → ∀ parts pointer d s,
  backed s → sameShape s0 s → u32 pointer mod Z.of_nat al = 0 → Z.of_nat d mod Z.of_nat al = 0 →
  u32 pointer + Z.of_nat (d + parts * al) <= backedBytes s →
  (∀ x, 0 <= x → flat s x = storeLE (flat s0) (u32 pointer) d raw x) →
  let s' := splitStore (λ s b v, (heapStore true al s b v).1) (Z.of_nat al) parts pointer (Z.of_nat d) raw s in
  sameShape s0 s' ∧ ∀ x, 0 <= x → flat s' x = storeLE (flat s0) (u32 pointer) (d + parts * al) raw x.
Proof.
  intros Hal. assert (Hpos : 0 < Z.of_nat al) by (apply accessWidth_pow in Hal as (j & Hj & ->); apply pow2_pos; lia).
  induction parts as [|parts IH]; intros pointer d s Hb Hsh Hp Hd Hlim Hflat; cbn [splitStore]; cbv zeta.
  { by rewrite Nat.add_0_r. }
  set (v := wrap _ _). assert (Hlim32 := proj2 Hb).
  assert (Haddr : u32 (u64 (pointer + Z.of_nat d)) = u32 pointer + Z.of_nat d) by (apply part_address; lia).
  destruct (heapStore_flat s al (u64 (pointer + Z.of_nat d)) Hb Hal) with (v := v) as [[Hsh1 Hst] _].
  { rewrite Haddr, Z.add_mod, Hp, Hd by lia. done. }
  set (s1 := (heapStore true al s (u64 (pointer + Z.of_nat d)) v).1) in *. rewrite Haddr in Hst.
  destruct (Z.ltb_spec (u32 pointer + Z.of_nat d) (backedBytes s)) as [_|]; [|lia].
  destruct (sameShape_backed _ _ Hsh1 Hb) as [Hb1 Hbk]. replace (Z.of_nat d + Z.of_nat al) with (Z.of_nat (d + al)) by lia.
  replace (d + S parts * al)%nat with (d + al + parts * al)%nat by lia. apply IH; [done| |done| |lia|].
  - destruct Hsh, Hsh1. split; congruence.
  - rewrite Nat2Z.inj_add, Z.add_mod, Hd, Z.mod_same by lia. done.
  - intros x Hx. rewrite (Hst x Hx), <-storeLE_extend. fold v.
    rewrite !(storeLE_lookup _ (u32 pointer + Z.of_nat d)). case_match; [done|]. by apply Hflat.
Qed.

(** ** Sectioned globals *)

(** The offset an address computation names, modulo the address space. *)
Definition namedOffset (constant : Z) (variables : list (Z * Z)) : Z := u64 (constant + Zsum (λ v, v.1 * v.2) variables).

Lemma offset_fold variables start :
  foldl (λ o '(index, scale), u64 (o + u64 (index * scale))) (u64 start) variables = namedOffset start variables.
Proof.
  unfold namedOffset. revert start. induction variables as [|[i c] l IH]; intros start; cbn [foldl Zsum fst snd]; [by rewrite Z.add_0_r|].
  replace (u64 (u64 start + u64 (i * c))) with (u64 (start + i * c)); [rewrite IH; f_equal; lia|].
  unfold u64, wrap. by rewrite <-Z.add_mod by lia.
Qed.

(** A bounded access keeps a valid offset, goes to the object's first byte
    otherwise, and never leaves the object. *)
Lemma bounded_offset constant variables objectSize accessSize off :
  0 < accessSize → BoundSectionedGlobalAddress constant variables objectSize accessSize = Some (inr off) →
  off = (if namedOffset constant variables <=? objectSize - accessSize then namedOffset constant variables else 0) ∧
  0 <= off ∧ off + accessSize <= objectSize.
Proof.
  intros Ha. unfold BoundSectionedGlobalAddress. destruct variables as [|v l]; [done|]. set (vs := v :: l).
  destruct (Z.eqb_spec accessSize 0); [lia|]. destruct (Z.ltb_spec objectSize accessSize); [done|]. cbn [orb]. cbv zeta.
  rewrite offset_fold. assert (0 <= namedOffset constant vs) by (unfold namedOffset; apply wrap_range; lia).
  intros [= <-]. destruct (Z.leb_spec (namedOffset constant vs) (objectSize - accessSize)); (split; [done|lia]).
Qed.
