(* ===== verification/HeapAccessClaims.v ===== *)
(** * What accesses to fixed memory promise *)

From Stdlib Require Import ZArith Lia.
From stdpp Require Import base numbers list gmap strings.
From S2P Require Import Prelude Bytes Fiber Host HostLife FixedImage FixedImageFacts FixedLayout FixedImageProps FixedSamples HeapAccess HeapAccessProps.
Import Fiber Host FixedImage HeapAccess.

Local Open Scope Z_scope.
Local Arguments loadLE : simpl never.
Local Arguments storeLE : simpl never.

(** C17: the accessors implement flat memory over the region maps.  An aligned
    access of any width at any 64-bit pointer loads, stores or atomically
    updates exactly the bytes its low word names in the concatenation of the
    direct regions and the array map's entries; where nothing is backed a load
    gives zero and a store does nothing. *)
Theorem heap_access_refines (s : store) (n : nat) (offset : Z) :
  backed s → accessWidth n → u32 offset mod Z.of_nat n = 0 →
  heapLoad true n s offset = loadLE (flat s) (u32 offset) n ∧
  (∀ v, stored s n offset (heapStore true n s offset v).1 v) ∧
  ∀ kind operand replacement,
    let bits := 8 * Z.of_nat n in
    let old := loadLE (flat s) (u32 offset) n in
    (heapAtomic true kind n s offset operand replacement).2 = old ∧
    stored s n offset (heapAtomic true kind n s offset operand replacement).1
      (nativeAtomic kind bits old (wrap bits operand) (wrap bits replacement)).
Proof.
  intros Hb Hn Hal. split_and!; [by apply heapLoad_flat| |].
  - intros v. by apply heapStore_flat.
  - intros kind operand replacement. by apply heapAtomic_flat.
Qed.

Lemma splitParts_spec width al parts :
  powerOfTwo al → splitParts false true width al = Ok (Some parts) →
  accessWidth (Z.to_nat al) ∧ Z.of_nat (parts * Z.to_nat al) = width ∧ 0 < al.
Proof.
  unfold splitParts. cbn [negb orb]. intros Hal. destruct (Z.leb_spec width al) as [|Hlt]; [done|].
  destruct (isPowerOf2 width) eqn:Ep; cbn [negb orb]; [|done]. destruct (Z.ltb_spec 8 width) as [|Hw]; [done|]. intros [= <-].
  apply isPowerOf2_iff in Ep. destruct (pow2_divide al width Hal Ep ltac:(lia)) as [q ->]. pose proof (pow2_gt0 _ Hal).
  rewrite Z.div_mul by lia. destruct Hal as (j & Hj & ->).
  assert (Hj3 : j < 3). { apply (Z.pow_lt_mono_r_iff 2); lia. }
  assert (j = 0 ∨ j = 1 ∨ j = 2) as Hc by lia. split_and!; [|nia|done].
  unfold accessWidth. rewrite !elem_of_cons. destruct Hc as [Ej|[Ej|Ej]]; rewrite Ej; auto.
Qed.

(** C22: an access weaker than its natural alignment is split into aligned
    parts whose accessors together load and store exactly the bytes of the
    whole access, also when it crosses from one region map into the next. *)
Theorem split_access_refines (s : store) (width al : Z) (parts : nat) (pointer : Z) :
  backed s → byteStore s → powerOfTwo al → splitParts false true width al = Ok (Some parts) →
  u32 pointer mod al = 0 → u32 pointer + width <= backedBytes s →
  splitLoad (heapLoad true (Z.to_nat al) s) al parts pointer 0 0 = loadLE (flat s) (u32 pointer) (Z.to_nat width) ∧
  ∀ raw,
    let s' := splitStore (λ s b v, (heapStore true (Z.to_nat al) s b v).1) al parts pointer 0 raw s in
    sameShape s s' ∧ ∀ x, 0 <= x → flat s' x = storeLE (flat s) (u32 pointer) (Z.to_nat width) raw x.
Proof.
  intros Hb Hbytes Hal Hs Hp Hlim. destruct (splitParts_spec _ _ _ Hal Hs) as (Hw & Hwidth & Hpos).
  assert (Hw' : Z.to_nat width = (parts * Z.to_nat al)%nat) by lia. rewrite Hw'. pose proof (proj2 Hb).
  assert (Hal' : Z.of_nat (Z.to_nat al) = al) by lia.
  split.
  - pose proof (splitLoad_flat s (Z.to_nat al) Hb Hbytes Hw parts pointer 0) as H'. rewrite Hal' in H'. apply H'; [done|done|lia].
  - intros raw. pose proof (splitStore_flat s (Z.to_nat al) raw Hw parts pointer 0 s Hb) as H'. rewrite Hal' in H'.
    apply H'; [done|done|done|lia|done].
Qed.

(** ** Direct access *)

Section value.
Context (env : nat → Z) (win : Z).

Fixpoint valueOf (v : value) : Z :=
  match v with
  | VConstant k => u64 k
  | VViewBase => win
  | VOpaque i => env i
  | VGEP base i => u64 (valueOf base + env i)
  | VCast v => valueOf v
  | VAdd lhs rhs => u64 (valueOf lhs + valueOf rhs)
  end.
End value.

(** The constant an address was traced to. *)
Fixpoint tracedBase (spanning : list (Z * Z)) (regions : Z) (hops : nat) (v : value) : option Z :=
  match hops with
  | O => None
  | S hops =>
      match v with
      | VGEP base _ => tracedBase spanning regions hops base
      | VCast v => tracedBase spanning regions hops v
      | VAdd lhs rhs =>
          if isViewBase lhs then tracedBase spanning regions hops rhs
          else if isViewBase rhs then tracedBase spanning regions hops lhs
          else if isConstant rhs then tracedBase spanning regions hops lhs
          else if isConstant lhs then tracedBase spanning regions hops rhs
          else match tracedBase spanning regions HOPS lhs with Some k => Some k | None => tracedBase spanning regions hops rhs end
      | VConstant k => if inSpanning spanning k then None else if Z.shiftr k 22 <? regions then Some k else None
      | VViewBase | VOpaque _ => None
      end
  end.

Lemma TraceRegion_base spanning regions hops v :
  TraceRegion spanning regions hops v = (λ k, Z.shiftr k 22) <$> tracedBase spanning regions hops v.
Proof.
  revert hops. induction v as [k| |i|base IH i|v IH|lhs IHl rhs IHr]; intros [|hops]; cbn [TraceRegion tracedBase]; try done.
  - destruct (inSpanning spanning k); [done|]. change MEMORY_REGION_SHIFT with 22. by destruct (Z.shiftr k 22 <? regions).
  - destruct (isViewBase lhs); [done|]. destruct (isViewBase rhs); [done|]. destruct (isConstant rhs); [done|].
    destruct (isConstant lhs); [done|]. rewrite IHl, IHr. by destruct (tracedBase spanning regions HOPS lhs).
Qed.

Lemma tracedBase_sound spanning regions hops v k :
  tracedBase spanning regions hops v = Some k → inSpanning spanning k = false ∧ Z.shiftr k 22 < regions.
Proof.
  revert hops. induction v as [k0| |i|base IH i|v IH|lhs IHl rhs IHr]; intros [|hops]; cbn [tracedBase]; try done.
  - destruct (inSpanning spanning k0) eqn:Es; [done|]. destruct (Z.ltb_spec (Z.shiftr k0 22) regions); [|done]. by intros [= <-].
  - apply IH.
  - apply IH.
  - repeat case_match; eauto. intros [= <-]. eauto.
Qed.

Lemma inSpanning_member spanning lo hi k : (lo, hi) ∈ spanning → lo <= k < hi → inSpanning spanning k = true.
Proof.
  intros Hin Hk. unfold inSpanning. apply existsb_exists. exists (lo, hi). split; [by apply list_elem_of_In|].
  apply andb_true_iff. rewrite Z.leb_le, Z.ltb_lt. done.
Qed.

Lemma directOffset_low guarded n offset : accessWidth n → directOffset guarded (Z.of_nat n) offset = lowOffset (Z.of_nat n) offset.
Proof.
  intros Hn. destruct (lowOffset_spec n offset Hn) as (H0 & H1 & _). pose proof (accessWidth_pow n Hn) as (j & Hj & Ej). unfold directOffset.
  assert (Hm : Z.land (u32 offset) (span - Z.of_nat n) = lowOffset (Z.of_nat n) offset).
  { unfold lowOffset. rewrite Ej. change span with (2 ^ 22). rewrite !land_span_width by lia. unfold u32. by rewrite !wrap_mod by lia. }
  rewrite Hm. cbv zeta. destruct guarded; [|done]. pose proof (pow2_pos j). destruct (Z.ltb_spec (lowOffset (Z.of_nat n) offset) span); [done|lia].
Qed.

Section direct.
Context {DL : DataLayout} {Laws : DataLayoutLaws DL}.

(** C8: an access that reaches its region without a call reaches the same
    bytes.  When the pass traces an address to a constant inside a placed
    global and the access stays inside that global, the region chosen at
    compile time and the masked low word are the place the general accessor
    computes at run time, with or without the guard. *)
Theorem direct_access_equivalent (option slice : option Z) (globals : list global) (linked : config) (ids : gmap string Z) (next : Z)
    (o : fixed_object) (g : global) (off k : Z) (env : nat → Z) (win : Z) (v : value) (r : Z) (s : store) (n : nat) (guarded : bool) :
  NoDup (g_name <$> globals) → linkedWords linked → (∀ n, option = Some n → 0 <= n) →
  runFixedMemory option slice globals linked ids next = Ok o →
  g ∈ globals → IsMovableGlobal g = true → isCallStack g = false → o_offsets o !! g_name g = Some off →
  length (HeapAccess.direct s) = length (o_regions o) → accessWidth n →
  TraceRegion (o_spanning o) (Z.of_nat (length (HeapAccess.direct s))) HOPS v = Some r →
  tracedBase (o_spanning o) (Z.of_nat (length (HeapAccess.direct s))) HOPS v = Some k → off <= k < off + sizeOf g →
  off <= u32 (valueOf env win v) → u32 (valueOf env win v) + Z.of_nat n <= off + sizeOf g →
  heapRoute true s (valueOf env win v) = Some (InDirect (Z.to_nat r)) ∧
  directOffset guarded (Z.of_nat n) (valueOf env win v) = lowOffset (Z.of_nat n) (valueOf env win v).
Proof.
  intros Hnd Hw Hopt Hrun Hg Hm Hc Ho Hlen Hn Htr Hbase Hk Hlo Hhi. split; [|by apply directOffset_low].
  destruct (fixed_steps _ _ _ _ _ _ _ Hrun) as (direct & slots & sl & hb & p & st & Hs).
  destruct (steps_configured _ _ _ _ _ _ _ _ _ _ _ _ _ Hs Hw Hnd Hopt) as (_ & _ & _ & _ & _ & _ & Hst & _).
  destruct (fs_object _ _ _ _ _ _ _ _ _ _ _ _ _ Hs) as (Eo & Esp & _). rewrite Eo in Ho.
  destruct (stacked_lookup _ _ _ _ _ g Hst) as (off' & Ho' & Hoff & _ & Hl); [by apply movable_elem|done|].
  replace off' with off in * by congruence.
  destruct (tracedBase_sound _ _ _ _ _ Hbase) as [Hsp Hreg]. rewrite TraceRegion_base, Hbase in Htr. injection Htr as <-.
  assert (Hsize : sizeOf g <= span).
  { destruct (decide (span < sizeOf g)) as [Hbig|]; [|lia]. rewrite (inSpanning_member _ off (off + sizeOf g)) in Hsp; [done| |done].
    rewrite Esp. apply elem_of_app. left. by apply Hl. }
  pose proof (accessWidth_pow n Hn) as (j & Hj & Ej). pose proof (pow2_pos j). set (a := u32 (valueOf env win v)) in *.
  pose proof (lies_region _ _ _ Hl ltac:(lia)) as Hr. change span with (2 ^ 22) in *. change ARENA_PAGE_SIZE with 4096 in *.
  rewrite Z.shiftr_div_pow2 in * by lia.
  assert (Hmono : ∀ x, off <= x < off + sizeOf g → x / 2 ^ 22 = off / 2 ^ 22).
  { intros x Hx. pose proof (Z.div_le_mono off x (2 ^ 22)). pose proof (Z.div_le_mono x (off + sizeOf g - 1) (2 ^ 22)). lia. }
  unfold heapRoute, regionIndex. fold a. change MEMORY_REGION_SHIFT with 22. rewrite Z.shiftr_div_pow2 by lia. cbv zeta.
  rewrite (Hmono a), (Hmono k) in * by lia. destruct (Z.eqb_spec (off / 2 ^ 22) 0) as [->|_]; [done|].
  destruct (Z.ltb_spec (off / 2 ^ 22) (Z.of_nat (length (HeapAccess.direct s)))); [done|lia].
Qed.
End direct.

(** ** Two direct regions and one array entry *)

Module AccessSample.
Definition memory : store := Store [λ o, o mod 256; λ o, (o + 1) mod 256] [λ o, (o + 2) mod 256].

Lemma memory_backed : backed memory.
Proof. split; [cbn; lia|by vm_compute]. Qed.

Lemma memory_bytes : byteStore memory.
Proof.
  intros a. unfold flat, regionsOf, memory. cbn [direct entries app].
  destruct (Z.to_nat (a / span)) as [|[|[|k]]]; cbn; try (apply Z.mod_pos_bound; lia). done.
Qed.

(** A pointer at the window, eight bytes before the second region. *)
Definition pointer : Z := 2 ^ 33 + 4194296.
End AccessSample.

Lemma heap_access_refines_witness :
  heapLoad true 8 AccessSample.memory AccessSample.pointer = loadLE (flat AccessSample.memory) 4194296 8.
Proof.
  refine (proj1 (heap_access_refines AccessSample.memory 8 AccessSample.pointer AccessSample.memory_backed _ _)).
  - unfold accessWidth. set_solver.
  - reflexivity.
Defined.

(** A word across the boundary of two regions. *)
Lemma split_access_refines_witness :
  splitLoad (heapLoad true 2 AccessSample.memory) 2 4 (AccessSample.pointer + 4) 0 0 = loadLE (flat AccessSample.memory) 4194300 8 ∧
  loadLE (flat AccessSample.memory) 4194300 8 = 289077008694967804.
Proof.
  split; [|by vm_compute].
  refine (proj1 (split_access_refines AccessSample.memory 8 2 4 (AccessSample.pointer + 4) AccessSample.memory_backed
    AccessSample.memory_bytes _ _ _ _)).
  - by exists 1.
  - reflexivity.
  - reflexivity.
  - by vm_compute.
Defined.

(** [table + index] of the sample object, an access of its second field. *)
Lemma direct_access_equivalent_witness :
  heapRoute true (Store [zeroRegion] [zeroRegion])
    (valueOf (λ _, 8) (2 ^ 33) (VGEP (VCast (VAdd VViewBase (VConstant 4096))) 0)) = Some (InDirect 0).
Proof.
  refine (proj1 (direct_access_equivalent (Some 1) (Some 4096) FixedSample.globals FixedSample.linked ∅ firstFunctionId FixedSample.object
    (FixedSample.plain "table" FixedSample.tableInit) 4096 4096 (λ _, 8) (2 ^ 33) (VGEP (VCast (VAdd VViewBase (VConstant 4096))) 0) 0
    (Store [zeroRegion] [zeroRegion]) 8 true
    FixedSample.names FixedSample.linked_words FixedSample.option_words FixedSample.object_eq _ eq_refl eq_refl _ _ _ _ _ _ _ _)).
  - exact naturalLaws.
  - right; right; left.
  - by vm_compute.
  - by vm_compute.
  - unfold accessWidth. set_solver.
  - by vm_compute.
  - by vm_compute.
  - by vm_compute.
  - by vm_compute.
  - by vm_compute.
Defined.
