(* ===== verification/StackAccess.v ===== *)
(** * Access to the software stack in fixed memory

    The current fiber's slice of the stack bank is one part of one entry of
    the array map.  Addresses of compiler frames are translated to it without
    a region search; the translation is the flat address for every address of
    the slice, and no address leads out of the slice. *)

From Stdlib Require Import ZArith Lia.
From stdpp Require Import base numbers list gmap strings.
From S2P Require Import Prelude Bytes Fiber Host FixedImage FixedImageFacts FixedLayout HeapAccess HeapAccessProps.
Import Fiber Host FixedImage HeapAccess.

Local Open Scope Z_scope.
Local Arguments loadLE : simpl never.
Local Arguments storeLE : simpl never.

Section slice.
Context (size bytes : Z) (Hpow : powerOfTwo size) (Hsize : 8 <= size <= span).

(** Both forms of the normalisation are the remainder. *)
Lemma normalizeFiber_mod fiber : normalizeFiber size bytes fiber = fiber mod maxFibers size bytes.
Proof.
  unfold normalizeFiber. destruct (isPowerOf2 (maxFibers size bytes)) eqn:E; [|done].
  apply isPowerOf2_iff in E. by apply land_pow2_mod.
Qed.

Lemma size_pow : ∃ i, 3 <= i <= 22 ∧ size = 2 ^ i.
Proof.
  destruct Hpow as (i & Hi & E). exists i. change span with (2 ^ 22) in Hsize. split; [|done]. rewrite E in Hsize.
  change 8 with (2 ^ 3) in Hsize. rewrite <-!Z.pow_le_mono_r_iff in Hsize by lia. lia.
Qed.

Lemma stackLow_spec n address : accessWidth n →
  stackLow size (Z.of_nat n) address = Some (u32 address mod size - u32 address mod Z.of_nat n) ∧
  0 <= u32 address mod size - u32 address mod Z.of_nat n ∧
  u32 address mod size - u32 address mod Z.of_nat n + Z.of_nat n <= size.
Proof.
  intros (j & Hj & Ej)%accessWidth_pow. destruct size_pow as (i & Hi & Ei). rewrite Ej, Ei. unfold stackLow. rewrite land_span_width by lia.
  set (x := u32 address). pose proof (pow2_pos j). pose proof (pow2_pos i).
  assert (Hd : (2 ^ j | 2 ^ i)) by (exists (2 ^ (i - j)); rewrite <-Z.pow_add_r by lia; f_equal; lia).
  pose proof (Z.mod_mod_divide x _ _ Hd) as Hmm. pose proof (Z.div_mod (x mod 2 ^ i) (2 ^ j)). pose proof (Z.mod_pos_bound x (2 ^ i)).
  pose proof (Z.mod_pos_bound x (2 ^ j)). rewrite Hmm in *. destruct Hd as [q Hq].
  assert (Hq0 : 0 <= (x mod 2 ^ i) / 2 ^ j) by (apply Z.div_pos; lia). assert (Hlt : (x mod 2 ^ i) / 2 ^ j < q) by (apply Z.div_lt_upper_bound; lia).
  assert (Hle : x mod 2 ^ i - x mod 2 ^ j + 2 ^ j <= 2 ^ i) by nia.
  destruct (Z.leb_spec (x mod 2 ^ i - x mod 2 ^ j) (2 ^ i - 2 ^ j)); [|lia]. split_and!; [done|nia|done].
Qed.

Section fiber.
Context (c : config) (s : store) (fiber : Z).
Context (Hback : backed s) (Hbase : stack_base c mod span = 0) (Hfloor : Z.of_nat (length (direct s)) * span <= stack_base c).
Context (Hfiber : 0 <= fiber < maxFibers size bytes) (Hin : stack_base c + (fiber + 1) * size <= backedBytes s).

Let sliceBase : Z := stack_base c + fiber * size.

(** The slice as a location and an offset in it. *)
Definition sliceOf : option (location * Z) :=
  (λ l, (l, stackOffset size bytes fiber)) <$> stackRegion size bytes c s fiber.

Lemma slice_located : ∃ l, sliceOf = Some (l, sliceBase mod span) ∧
  regionsOf s !! Z.to_nat (sliceBase / span) = Some (regionAt s l) ∧
  (∀ m, regionsOf (updateAt s l m) = <[Z.to_nat (sliceBase / span) := m]> (regionsOf s) ∧ sameShape s (updateAt s l m)) ∧
  sliceBase mod span + size <= span.
Proof.
  destruct size_pow as (i & Hi & Ei). destruct Hback as [Hd Hb]. unfold backedBytes, regionsOf in Hin, Hb. rewrite length_app in Hin, Hb.
  unfold sliceOf, stackRegion, stackOffset. rewrite normalizeFiber_mod, Z.mod_small by done. fold sliceBase. cbv zeta.
  change MEMORY_REGION_SHIFT with 22. rewrite Z.shiftr_div_pow2 by lia. change span with (2 ^ 22) in *.
  assert (Hsb : 0 <= fiber * size) by nia. apply Z.div_exact in Hbase; [|lia]. set (b := stack_base c / 2 ^ 22) in *.
  pose proof (pow2_pos (22 - i)). assert (Hs : 2 ^ 22 = size * 2 ^ (22 - i)) by (rewrite Ei, <-Z.pow_add_r by lia; f_equal; lia).
  pose proof (Z.div_mod sliceBase (2 ^ 22)). pose proof (Z.mod_pos_bound sliceBase (2 ^ 22)).
  assert (Hq0 : b <= sliceBase / 2 ^ 22) by (apply Z.div_le_lower_bound; unfold sliceBase; lia).
  set (q := sliceBase / 2 ^ 22) in *. set (r := sliceBase mod 2 ^ 22) in *.
  assert (Hr : r = size * (b * 2 ^ (22 - i) + fiber - q * 2 ^ (22 - i))) by (unfold sliceBase in *; nia).
  assert (Hfit : r + size <= 2 ^ 22).
  { set (t := b * 2 ^ (22 - i) + fiber - q * 2 ^ (22 - i)) in *. assert (t <= 2 ^ (22 - i) - 1) by nia. nia. }
  assert (Hoff : Z.land (u32 (fiber * size)) (2 ^ 22 - 1) = r).
  { rewrite land_pow2_mod by (by exists 22). unfold u32. rewrite wrap_mod by lia. subst r. unfold sliceBase.
    rewrite Hbase, Z.add_comm, Z.mul_comm, Z.mul_comm, (Z.mul_comm (2 ^ 22)), Z_mod_plus_full. done. }
  assert (Hqb : q < Z.of_nat (length (direct s)) + Z.of_nat (length (entries s))) by (unfold sliceBase in *; nia).
  rewrite Hoff. unfold u32. rewrite (wrap_small 32 q) by nia. rewrite (wrap_small 32) by nia. unfold CreateHeapArrayLookup.
  destruct (Z.ltb_spec (q - Z.of_nat (length (direct s))) (Z.of_nat (length (entries s)))); [|lia]. cbn [fmap option_fmap option_map].
  eexists. split; [done|]. unfold regionsOf. cbn [regionAt updateAt direct entries]. rewrite lookup_app_r by nia.
  replace (Z.to_nat q - length (direct s))%nat with (Z.to_nat (q - Z.of_nat (length (direct s)))) by nia.
  destruct (lookup_lt_is_Some_2 (entries s) (Z.to_nat (q - Z.of_nat (length (direct s))))) as [m0 ->]; [nia|].
  split_and!; [done| |done]. intros m. rewrite insert_app_r_alt by nia.
  replace (Z.to_nat q - length (direct s))%nat with (Z.to_nat (q - Z.of_nat (length (direct s)))) by nia.
  split; [done|]. split; cbn [direct entries]; [done|apply length_insert].
Qed.

Lemma slice_mod k : (k | size) → sliceBase mod k = 0.
Proof.
  intros Hk. destruct size_pow as (i & Hi & Ei). change span with (2 ^ 22) in *.
  assert (Hk0 : k ≠ 0) by (intros ->; apply Z.divide_0_l in Hk; lia).
  apply Z.mod_divide; [done|]. unfold sliceBase. apply Z.divide_add_r; [|by apply Z.divide_mul_r].
  eapply Z.divide_trans; [exact Hk|]. apply Z.mod_divide in Hbase; [|lia]. eapply Z.divide_trans; [|exact Hbase].
  rewrite Ei. exists (2 ^ (22 - i)). rewrite <-Z.pow_add_r by lia. f_equal. lia.
Qed.

(** Whatever the address, the access is one of the slice's bytes in the flat
    memory. *)
Lemma slice_access n address : accessWidth n →
  let low := u32 address mod size - u32 address mod Z.of_nat n in
  stackLoad size s sliceOf n address = loadLE (flat s) (sliceBase + low) n ∧
  ∀ v, sameShape s (stackStore size s sliceOf n address v) ∧
    ∀ x, 0 <= x → flat (stackStore size s sliceOf n address v) x = storeLE (flat s) (sliceBase + low) n v x.
Proof.
  intros Hn low. destruct (stackLow_spec n address Hn) as (Hlow & H0 & H1). fold low in Hlow, H0, H1.
  destruct slice_located as (l & Hsl & Hl & Hu & Hfit). unfold stackLoad, stackStore. rewrite Hsl, Hlow.
  assert (Hsb : 0 <= sliceBase) by (unfold sliceBase; nia). change span with (2 ^ 22) in *.
  assert (Hpos : 0 < Z.of_nat n) by (apply accessWidth_pow in Hn as (j & Hj & ->); apply pow2_pos; lia).
  pose proof (Z.div_mod sliceBase (2 ^ 22)). pose proof (Z.mod_pos_bound sliceBase (2 ^ 22)).
  assert (Hd : (sliceBase + low) / 2 ^ 22 = sliceBase / 2 ^ 22).
  { symmetry. apply (Z.div_unique _ _ _ (sliceBase mod 2 ^ 22 + low)); lia. }
  assert (Hm : (sliceBase + low) mod 2 ^ 22 = sliceBase mod 2 ^ 22 + low).
  { symmetry. apply (Z.mod_unique _ _ (sliceBase / 2 ^ 22)); lia. }
  split.
  - rewrite <-Hm. apply (inside_load s); change span with (2 ^ 22); [lia|by rewrite Hd].
  - intros v. rewrite storeLE_wrap, <-Hm.
    destruct (Hu (storeLE (regionAt s l) ((sliceBase + low) mod 2 ^ 22) n v)) as [Hu' Hs]. split; [done|]. intros x Hx.
    eapply inside_store; change span with (2 ^ 22); [lia|lia|by rewrite Hd|done|by rewrite Hd].
Qed.

(** An aligned address of the slice is its own. *)
Lemma slice_exact n address : accessWidth n →
  sliceBase <= u32 address → u32 address + Z.of_nat n <= sliceBase + size → u32 address mod Z.of_nat n = 0 →
  sliceBase + (u32 address mod size - u32 address mod Z.of_nat n) = u32 address.
Proof.
  intros Hn Hlo Hhi Hal. rewrite Hal, Z.sub_0_r. pose proof (slice_mod size (Z.divide_refl _)) as Hz.
  apply accessWidth_pow in Hn as (j & Hj & Ej). pose proof (pow2_pos j).
  replace (u32 address) with (u32 address - sliceBase + sliceBase) at 1 by lia.
  rewrite Z.add_mod, Hz, Z.add_0_r, Z.mod_mod, Z.mod_small by lia. lia.
Qed.
End fiber.
End slice.

(** ** Groups of frame accesses *)

(** The most aligned place of the group is aligned. *)
Definition groupAligned (frameRoot : bool) (l : list stack_access) (root : Z) : Prop :=
  let '(alignment, alignedOffset) := groupAlignment frameRoot (groupOf l) in
  powerOfTwo alignment ∧ alignment <= 2 ^ 32 ∧ (root + alignedOffset) mod alignment = 0.

Definition plainAccess (a : stack_access) : Prop :=
  0 <= sa_width a < 2 ^ 62 ∧ - 2 ^ 62 <= sa_offset a < 2 ^ 62 ∧ powerOfTwo (sa_align a) ∧ sa_align a <= 2 ^ 32.

Lemma groupOf_bounds l a : Forall plainAccess l → a ∈ l →
  sg_minimum (groupOf l) <= sa_offset a ∧ sa_offset a + sa_width a <= sg_maximum (groupOf l).
Proof.
  intros Hl Ha. unfold groupOf.
  refine (foldl_invariant groupStep (λ pre g, ∀ a, a ∈ pre →
    sg_minimum g <= sa_offset a ∧ sa_offset a + sa_width a <= sg_maximum g) l _ _ _ a Ha); [by intros x ?%not_elem_of_nil|].
  intros pre x g [post ->] IH y Hy. rewrite Forall_app, Forall_cons in Hl. destruct Hl as (_ & Hx & _). destruct Hx as (Hw & Ho & _).
  unfold groupStep. destruct (Z.ltb_spec (2 ^ 63 - 1) (sa_width x)); [lia|].
  destruct (Z.ltb_spec (2 ^ 63 - 1 - sa_width x) (sa_offset x)); [lia|]. cbn [orb]. cbv zeta.
  apply elem_of_app in Hy as [Hy|Hy%list_elem_of_singleton].
  - specialize (IH y Hy). destruct (_ <? _); cbn [sg_minimum sg_maximum]; lia.
  - subst y. destruct (_ <? _); cbn [sg_minimum sg_maximum]; lia.
Qed.

(** The residue of an offset. *)
Lemma residue_mod a : powerOfTwo (sa_align a) → sa_align a <= 2 ^ 32 →
  Z.land (u64 (- sa_offset a)) (sa_align a - 1) = (- sa_offset a) mod sa_align a.
Proof.
  intros Hp Hle. rewrite land_pow2_mod by done. destruct Hp as (k & Hk & E). rewrite E in *. apply Z.pow_le_mono_r_iff in Hle; [|lia..].
  unfold u64. apply wrap_mod. lia.
Qed.

(** The constraint names the alignment and the residue. *)
Lemma pow2_key x y p q : powerOfTwo x → powerOfTwo y → 0 <= p < x → 0 <= q < y → x + p = y + q → x = y ∧ p = q.
Proof.
  intros (i & Hi & ->) (j & Hj & ->) Hp Hq E.
  assert (Hij : i = j); [|subst; lia]. destruct (Z.lt_trichotomy i j) as [H|[H|H]]; [exfalso|done|exfalso].
  - pose proof (Z.pow_le_mono_r 2 (i + 1) j). rewrite Z.pow_add_r in * by lia. lia.
  - pose proof (Z.pow_le_mono_r 2 (j + 1) i). rewrite Z.pow_add_r in * by lia. lia.
Qed.

Lemma groupOf_align l : Forall plainAccess l →
  (sg_align (groupOf l) = 1 ∧ sg_alignedOffset (groupOf l) = 0) ∨
  ∃ a, a ∈ l ∧ sg_align (groupOf l) = sa_align a ∧ sg_alignedOffset (groupOf l) = sa_offset a.
Proof.
  intros Hl. unfold groupOf. refine (foldl_invariant groupStep (λ pre g, (sg_align g = 1 ∧ sg_alignedOffset g = 0) ∨
    ∃ a, a ∈ pre ∧ sg_align g = sa_align a ∧ sg_alignedOffset g = sa_offset a) l _ _ _); [by left|].
  intros pre x g _ IH. unfold groupStep. destruct (_ || _); [|cbv zeta; destruct (_ <? _)]; cbn [sg_align sg_alignedOffset].
  - destruct IH as [IH|(a & ? & ?)]; [by left|right]. exists a. split; [apply elem_of_app; by left|done].
  - right. exists x. split; [apply elem_of_app; right; by left|done].
  - destruct IH as [IH|(a & ? & ?)]; [by left|right]. exists a. split; [apply elem_of_app; by left|done].
Qed.

(** One executed access is enough: the others of its group have the same
    residue, or rely on the frame. *)
Lemma group_aligned frameRoot l root a0 :
  Forall plainAccess l → a0 ∈ l → (∀ a, a ∈ l → constraintOf frameRoot a = constraintOf frameRoot a0) →
  (frameRoot = true → root mod 16 = 0) → (root + sa_offset a0) mod sa_align a0 = 0 → groupAligned frameRoot l root.
Proof.
  intros Hl H0 Hkey Hframe Hal. unfold groupAligned, groupAlignment. rewrite Forall_forall in Hl.
  destruct (frameRoot && (sg_align (groupOf l) <? 16)) eqn:Ef.
  { apply andb_true_iff in Ef as [-> _]. rewrite Z.add_0_r. split_and!; [by exists 4|lia|by apply Hframe]. }
  destruct (groupOf_align l) as [[-> ->]|(a & Ha & -> & ->)]; [by apply Forall_forall|by split_and!; [exists 0|lia|rewrite Z.mod_1_r]|].
  destruct (Hl a Ha) as (_ & _ & Hp & Hle). destruct (Hl a0 H0) as (_ & _ & Hp0 & Hle0). split_and!; [done|done|].
  specialize (Hkey a Ha). unfold constraintOf in Hkey. cbv zeta in Hkey. rewrite !residue_mod in Hkey by done.
  pose proof (pow2_gt0 _ Hp). pose proof (pow2_gt0 _ Hp0). pose proof (Z.mod_pos_bound (- sa_offset a) (sa_align a)).
  pose proof (Z.mod_pos_bound (- sa_offset a0) (sa_align a0)).
  destruct (frameRoot && (sa_align a <=? 16) && _) eqn:Ea in Hkey; destruct (frameRoot && (sa_align a0 <=? 16) && _) eqn:Ea0 in Hkey; try lia.
  - bool_to_prop. subst frameRoot. 
    assert (Hroot : root mod sa_align a = 0).
    { eapply mod_divide_trans; [done| |by apply Hframe|lia]. apply pow2_divide; [done|by exists 4|done]. }
    rewrite Z.add_mod, Hroot by lia. assert (Hz : sa_offset a mod sa_align a = 0); [|by rewrite Hz, Z.mod_0_l by lia].
    apply Z.mod_divide; [lia|]. apply Z.divide_opp_r. apply Z.mod_divide; [lia|done].
  - destruct (pow2_key (sa_align a) (sa_align a0) ((- sa_offset a) mod sa_align a) ((- sa_offset a0) mod sa_align a0)) as [Eal Eres];
      [done|done|lia|lia|done|]. rewrite Eal in *.
    replace (root + sa_offset a) with ((root + sa_offset a0) + ((- sa_offset a0) - (- sa_offset a))) by lia.
    rewrite Z.add_mod, Hal, Zminus_mod, Eres, Z.sub_diag by lia. by rewrite Z.mod_0_l by lia.
Qed.

(** The checked offset of a promoted group is the address's place in the
    slice. *)
Lemma promoted_low size root minimum alignment alignedOffset :
  powerOfTwo size → size <= span → powerOfTwo alignment → alignment <= 2 ^ 32 → (root + alignedOffset) mod alignment = 0 →
  let mask := Z.min alignment size - 1 in
  let residue := Z.land (u64 (minimum - alignedOffset)) mask in
  Z.lor (Z.land (u32 (u64 (root + minimum))) (size - 1 - mask)) residue = (root + minimum) mod size ∧ 0 <= residue.
Proof.
  intros (i & Hi & ->) Hsz (k & Hk & ->) Hal Hroot mask residue. change span with (2 ^ 22) in Hsz.
  apply Z.pow_le_mono_r_iff in Hsz, Hal; [|lia..]. set (j := Z.min k i). pose proof (pow2_pos j). pose proof (pow2_pos i).
  assert (Hw : Z.min (2 ^ k) (2 ^ i) = 2 ^ j).
  { subst j. destruct (Z.min_spec k i) as [[? ->]|[? ->]]; [rewrite Z.min_l|rewrite Z.min_r]; try done; apply Z.pow_le_mono_r; lia. }
  assert (Hres : residue = (minimum - alignedOffset) mod 2 ^ j).
  { subst residue mask. rewrite Hw, land_pow2_mod by (exists j; split; [lia|done]). unfold u64. apply wrap_mod. lia. }
  assert (Hx : residue = (root + minimum) mod 2 ^ j).
  { rewrite Hres. assert (Hd : (root + alignedOffset) mod 2 ^ j = 0).
    { eapply mod_divide_trans; [lia| |exact Hroot|apply pow2_pos; lia]. apply pow2_divide; [by exists j; split; [lia|]|by exists k|].
      apply Z.pow_le_mono_r; lia. }
    replace (root + minimum) with ((root + alignedOffset) + (minimum - alignedOffset)) by lia.
    by rewrite Z.add_mod, Hd, Z.add_0_l, Z.mod_mod by lia. }
  split; [|rewrite Hx; apply Z.mod_pos_bound; lia].
  replace (2 ^ i - 1 - mask) with (2 ^ i - 2 ^ j) by (subst mask; lia). rewrite land_span_width by lia. rewrite Hx.
  unfold u32, u64. rewrite !(wrap_mod _ 32), !(wrap_mod _ 64) by lia. set (x := root + minimum).
  assert (Hd : (2 ^ j | 2 ^ i)) by (exists (2 ^ (i - j)); rewrite <-Z.pow_add_r by lia; f_equal; lia).
  pose proof (Z.mod_mod_divide x _ _ Hd) as Hmm. pose proof (Z.div_mod (x mod 2 ^ i) (2 ^ j)) as Hdm. rewrite Hmm in Hdm.
  rewrite Z.lor_comm. replace (x mod 2 ^ i - x mod 2 ^ j) with (Z.shiftl ((x mod 2 ^ i) / 2 ^ j) j)
    by (rewrite Z.shiftl_mul_pow2 by lia; lia).
  rewrite lor_shifted by (lia || (apply Z.mod_pos_bound; lia)). lia.
Qed.

(** C20: a stack access through the fiber's cached slice is confined to it
    and exact.  For a record whose stack bank is region-aligned above the
    direct maps, a load or store at any address is a load or store of the flat
    memory inside the fiber's own slice; for an aligned address of the slice
    it is the access at that very address. *)
Theorem stack_access_refines (size bytes : Z) (c : config) (s : store) (fiber : Z) (n : nat) (address : Z) :
  powerOfTwo size → 8 <= size <= span → backed s →
  stack_base c mod span = 0 → Z.of_nat (length (direct s)) * span <= stack_base c →
  0 <= fiber < maxFibers size bytes → stack_base c + (fiber + 1) * size <= backedBytes s → accessWidth n →
  let slice := stack_base c + fiber * size in
  let base := sliceOf size bytes c s fiber in
  ∃ a, slice <= a ∧ a + Z.of_nat n <= slice + size ∧
    stackLoad size s base n address = loadLE (flat s) a n ∧
    (∀ v, sameShape s (stackStore size s base n address v) ∧
      ∀ x, 0 <= x → flat (stackStore size s base n address v) x = storeLE (flat s) a n v x) ∧
    (slice <= u32 address → u32 address + Z.of_nat n <= slice + size → u32 address mod Z.of_nat n = 0 → a = u32 address).
Proof.
  intros Hpow Hsize Hback Hbase Hfloor Hfiber Hin Hn slice base.
  destruct (stackLow_spec size Hpow Hsize n address Hn) as (_ & H0 & H1).
  destruct (slice_access size bytes Hpow Hsize c s fiber Hback Hbase Hfloor Hfiber Hin n address Hn) as [Hload Hstore].
  exists (slice + (u32 address mod size - u32 address mod Z.of_nat n)). split_and!; [lia|lia|done|done|].
  intros Hlo Hhi Hal. by eapply slice_exact.
Qed.

(** C27: a group of frame accesses that shares one translation is translated
    as each would be alone.  If its accesses put the same constraint on the
    root and the one that is executed is aligned, then when the group lies inside the
    slice the checked offset is the address of its first byte, so every access
    keeps its place; when it does not, the group faults or is moved as a whole to a place
    inside the slice, and in no case does an access leave it. *)
Theorem promoted_group_sound (size : Z) (frameRoot terminate : bool) (l : list stack_access) (a0 : stack_access) (root : Z) (r : option Z) :
  powerOfTwo size → size <= span → Forall plainAccess l →
  a0 ∈ l → (∀ a, a ∈ l → constraintOf frameRoot a = constraintOf frameRoot a0) →
  (frameRoot = true → root mod 16 = 0) → (root + sa_offset a0) mod sa_align a0 = 0 →
  promoteGroup size frameRoot terminate l root = inr r →
  let g := groupOf l in
  let extent := sg_maximum g - sg_minimum g in
  let first := (root + sg_minimum g) mod size in
  (first + extent <= size → r = Some first ∧
     ∀ a, a ∈ l → 0 <= sa_width a → first + (sa_offset a - sg_minimum g) < size →
       first + (sa_offset a - sg_minimum g) = (root + sa_offset a) mod size) ∧
  (size < first + extent → terminate = true → r = None) ∧
  (∀ low a, r = Some low → a ∈ l →
     0 <= low + (sa_offset a - sg_minimum g) ∧ low + (sa_offset a - sg_minimum g) + sa_width a <= size).
Proof.
  intros Hpow Hsize Hl H0 Hkey Hframe Hal0 Hp g extent first. pose proof (group_aligned _ _ _ _ Hl H0 Hkey Hframe Hal0) as Hga. unfold promoteGroup in Hp. fold g in Hp. unfold groupAligned in Hga. fold g in Hga.
  destruct (groupAlignment frameRoot g) as [alignment alignedOffset]. destruct Hga as (Hal & Hlim & Hroot).
  destruct (_ || _) eqn:Eg in Hp; [done|]. bool_to_prop. cbv zeta in Hp. fold extent in Hp.
  destruct (promoted_low size root (sg_minimum g) alignment alignedOffset Hpow Hsize Hal Hlim Hroot) as [Hlow Hres].
  rewrite Hlow in Hp. clear Hlow. fold first in Hp. set (residue := Z.land _ _) in *.
  destruct (Z.ltb_spec (size - extent) residue) as [|Hfit]; [done|]. injection Hp as <-.
  pose proof (pow2_gt0 _ Hpow). assert (Hf : 0 <= first < size) by (by apply Z.mod_pos_bound).
  split_and!.
  - intros Hok. destruct (Z.leb_spec first (size - extent)) as [_|]; [|lia]. split; [by destruct terminate|].
    intros a Ha Hw Hlt. destruct (groupOf_bounds l a Hl Ha) as [Hmin _]. fold g in Hmin.
    replace (root + sa_offset a) with (root + sg_minimum g + (sa_offset a - sg_minimum g)) by lia.
    rewrite Z.add_mod by lia. fold first. rewrite (Z.mod_small (sa_offset a - sg_minimum g)) by lia. by rewrite Z.mod_small by lia.
  - intros Hbad ->. destruct (Z.leb_spec first (size - extent)); [lia|done].
  - intros low a Hr Ha. destruct (groupOf_bounds l a Hl Ha) as [Hmin Hmax]. fold g in Hmin, Hmax.
    assert (0 <= low <= size - extent); [|lia].
    destruct (Z.leb_spec first (size - extent)), terminate; try done; injection Hr as <-; lia.
Qed.

(** ** A bank of two slices behind one direct region *)

Module StackSample.
Definition record : config := Config 8192 65536 4194304 4202496 2 4096 4 0 0 1 ABI_MAGIC ABI_VERSION 0.
Definition memory : store := Store [zeroRegion] [λ o, o mod 256].

Lemma slices_backed : backed memory.
Proof. split; [cbn; lia|by vm_compute]. Qed.

Definition fields : list stack_access := [StackAccess 8 8 8; StackAccess 20 4 4; StackAccess 24 8 8].

Lemma fields_plain : Forall plainAccess fields.
Proof. unfold fields, plainAccess. repeat apply Forall_cons_2; try apply Forall_nil_2; cbn [sa_width sa_offset sa_align];
  split_and!; try lia; ((by exists 3) || (by exists 2)). Qed.
End StackSample.

(** The second fiber's word at displacement 32 of its slice. *)
Lemma stack_access_refines_witness :
  ∃ a, 4198400 <= a ∧ a + 8 <= 4202496 ∧
    stackLoad 4096 StackSample.memory (sliceOf 4096 16384 StackSample.record StackSample.memory 1) 8 4198432 =
    loadLE (flat StackSample.memory) a 8.
Proof.
  destruct (stack_access_refines 4096 16384 StackSample.record StackSample.memory 1 8 4198432) as (a & H1 & H2 & H3 & _).
  - by exists 12.
  - by vm_compute.
  - exact StackSample.slices_backed.
  - reflexivity.
  - by vm_compute.
  - by vm_compute.
  - by vm_compute.
  - unfold accessWidth. set_solver.
  - exists a. split_and!; [exact H1|exact H2|exact H3].
Defined.

Lemma promoted_group_sound_witness :
  promoteGroup 4096 true false StackSample.fields 64 = inr (Some 72) ∧
  (64 + 24) mod 4096 = 72 + (24 - 8).
Proof.
  assert (Hp : promoteGroup 4096 true false StackSample.fields 64 = inr (Some 72)) by reflexivity.
  destruct (promoted_group_sound 4096 true false StackSample.fields (StackAccess 20 4 4) 64 (Some 72)) as (H & _ & _).
  - by exists 12.
  - by vm_compute.
  - exact StackSample.fields_plain.
  - right; left.
  - intros a Ha. unfold StackSample.fields in Ha. rewrite !elem_of_cons in Ha.
    destruct Ha as [->|[->|[->|Ha]]]; [reflexivity..|by apply not_elem_of_nil in Ha].
  - reflexivity.
  - reflexivity.
  - exact Hp.
  - split; [exact Hp|]. destruct H as [_ H]; [by vm_compute|].
    symmetry. apply (H (StackAccess 24 8 8)); [right; right; left|done|by vm_compute].
Defined.
