(* ===== verification/Arena.v ===== *)
(** * The arena tier ([src/src/pass/memory.cpp])

    On kernels with an arena the memory pass keeps initialised objects in the
    arena section, gives zero objects offsets in a sparse span allocated at
    run time, strips addresses from the initialisers and generates the
    initialiser program: it elects one initialiser, allocates the span,
    publishes its slice-aligned base, applies the stripped addresses from
    tables and opens the application entries.

    Parameters: LLVM's data layout and ABI alignments, the assembler's
    placement of the arena section's objects ([symbols]) and the kernel's
    [bpf_loop] and [bpf_arena_alloc_pages]. *)

From Stdlib Require Import ZArith Lia.
From stdpp Require Import base numbers list gmap strings.
From S2P Require Import Prelude Bytes Fiber Host FixedImage.

(** LLVM's ABI alignment of a type. *)
Class ABIAlign := getABITypeAlign : FixedImage.ty → Z.

(** The kernel's [bpf_loop(n, callback, context, 0)]: the memory it leaves.  A
    callback takes the index and returns its verdict. *)
Class BpfLoop := bpf_loop : Z → (Z → mem → Z * mem) → mem → mem.

Module Arena.
Import Fiber Host FixedImage.
Local Open Scope Z_scope.

(** ** Initialisers without addresses *)

(** Whether a leaf mentions a global; an expression the pass cannot resolve is
    left by LLVM's folding only around one. *)
Fixpoint referencesGlobal (c : constant) : bool :=
  match c with
  | FunctionRef _ | GlobalRef _ | OtherExpr _ => true
  | CastExpr _ _ c | GEPExpr _ c _ => referencesGlobal c
  | BinaryExpr _ lhs rhs => referencesGlobal lhs || referencesGlobal rhs
  | ConstantArray _ operands | ConstantStruct _ operands => existsb referencesGlobal operands
  | _ => false
  end.

(** The managed function tokens: [inttoptr] of a displacement. *)
Definition isToken (c : constant) : bool :=
  match c with CastExpr IntToPtr _ (ConstantInt _ v) => IsTokenDisplacement v | _ => false end.

(** [ConstantStruct::get] and [ConstantArray::get] fold an aggregate of zeros. *)
Definition getStruct (packed : bool) (operands : list constant) : constant :=
  if forallb isNullValue operands then ConstantZero (StructTy packed (map typeOf operands)) else ConstantStruct packed operands.

Definition getArray (element : ty) (operands : list constant) : constant :=
  if forallb isNullValue operands then ConstantZero (ArrayTy (length operands) element) else ConstantArray element operands.

(** The recorded fixups, and the pass object with its function identities. *)
Definition fixup : Type := Z * constant.
Definition sanitizing : Type := list fixup * emission.

(** A slot that gets a fixup and is zeroed. *)
Definition record (c value : constant) (offset : Z) (s : sanitizing) : constant * sanitizing :=
  (ConstantZero (typeOf c), (s.1 ++ [(offset, value)], s.2)).

Section sanitize.
Context {DL : DataLayout}.

Section operands.
Context (sanitize : constant → Z → sanitizing → result memory_error (constant * sanitizing)) (offsetOf : nat → Z).

Fixpoint sanitizeOperands (i : nat) (operands : list constant) (s : sanitizing) :
    result memory_error (list constant * sanitizing) :=
  match operands with
  | [] => Ok ([], s)
  | c :: operands =>
      match sanitize c (offsetOf i) s with
      | Ok (elem, s) =>
          match sanitizeOperands (S i) operands s with
          | Ok (elems, s) => Ok (elem :: elems, s)
          | Err e => Err e
          end
      | Err e => Err e
      end
  end.
End operands.

Fixpoint SanitizeInitializer (c : constant) (offset : Z) (s : sanitizing) {struct c} :
    result memory_error (constant * sanitizing) :=
  if isNullValue c then Ok (c, s)
  else
    match c with
    | ConstantZero _ | UndefValue _ | ConstantInt _ _ | ConstantFP _ _ | ConstantDataSequential _ _ _ => Ok (c, s)
    | ConstantStruct packed operands =>
        match sanitizeOperands SanitizeInitializer (λ i, offset + getElementOffset packed (map typeOf operands) i) 0 operands s with
        | Ok (elems, s) => Ok (getStruct packed elems, s)
        | Err e => Err e
        end
    | ConstantArray element operands =>
        match sanitizeOperands SanitizeInitializer (λ i, offset + Z.of_nat i * getTypeAllocSize element) 0 operands s with
        | Ok (elems, s) => Ok (getArray element elems, s)
        | Err e => Err e
        end
    | _ =>
        match strippedFunction c with
        | Some f =>
            match GetFunctionId f s.2 with
            | Ok (id, st) => Ok (record c (CastExpr IntToPtr PointerTy (ConstantInt 64 id)) offset (s.1, st))
            | Err e => Err e
            end
        | None => if isToken c || referencesGlobal c then Ok (record c c offset s) else Ok (c, s)
        end
    end.
End sanitize.

(** ** Resolving a stripped address *)

(** How often a value counts the sparse span, the function window and the
    initialised image. *)
Record ArenaInitializer := Resolved { Addend : Z; Bases : Z * Z * Z }.

Definition combine (op : binary_opcode) (l r : ArenaInitializer) : ArenaInitializer :=
  let '(l0, l1, l2) := Bases l in
  let '(r0, r1, r2) := Bases r in
  match op with
  | Add => Resolved (u64 (Addend l + Addend r)) (l0 + r0, l1 + r1, l2 + r2)
  | Sub => Resolved (u64 (Addend l - Addend r)) (l0 - r0, l1 - r1, l2 - r2)
  end.

(** An expression of an integer type narrower than the stored value. *)
Definition tooNarrow (storedBits : Z) (t : ty) : bool := match t with IntegerTy bits => bits <? storedBits | _ => false end.

(** [symbols]: the places the assembler gives the objects of the arena
    section; [image] is the place of the object taken as reference. *)
Fixpoint ResolveArenaInitializer (symbols : gmap string Z) (image : Z) (offsets : gmap string Z) (storedBits : Z)
    (value : constant) : result memory_error ArenaInitializer :=
  match value with
  | ConstantInt _ v => Ok (Resolved (u64 v) (0, 0, 0))
  | ConstantZero PointerTy => Ok (Resolved 0 (0, 0, 0))
  | GlobalRef g =>
      match offsets !! g with
      | Some o => Ok (Resolved o (1, 0, 0))
      | None =>
          match symbols !! g with
          | Some a => Ok (Resolved (u64 (a - image)) (0, 0, 1))
          | None => Err CannotResolveInitializer
          end
      end
  | CastExpr op t c =>
      if tooNarrow storedBits t then Err CannotResolveInitializer
      else if isToken value then
        match c with ConstantInt _ v => Ok (Resolved (u64 v) (0, 1, 0)) | _ => Err CannotResolveInitializer end
      else
        match ResolveArenaInitializer symbols image offsets storedBits c with
        | Ok r => match op with ZExt | SExt => Err CannotResolveInitializer | _ => Ok r end
        | Err e => Err e
        end
  | GEPExpr _ base offset =>
      match ResolveArenaInitializer symbols image offsets storedBits base, offset with
      | Ok r, Some delta => Ok (Resolved (u64 (Addend r + delta)) (Bases r))
      | Ok _, None => Err CannotResolveInitializer
      | Err e, _ => Err e
      end
  | BinaryExpr op lhs rhs =>
      if tooNarrow storedBits (typeOf lhs) then Err CannotResolveInitializer
      else
        match ResolveArenaInitializer symbols image offsets storedBits lhs with
        | Ok l =>
            match ResolveArenaInitializer symbols image offsets storedBits rhs with
            | Ok r => Ok (combine op l r)
            | Err e => Err e
            end
        | Err e => Err e
        end
  | _ => Err CannotResolveInitializer
  end.

(** ** Fixup tables *)

(** [getTypeStoreSize]. *)
Definition getTypeStoreSize `{DataLayout} (t : ty) : Z :=
  match t with
  | IntegerTy bits | FloatTy bits => (bits + 7) / 8
  | PointerTy => 8
  | ArrayTy _ _ | StructTy _ _ => getTypeAllocSize t
  end.

(** Relocation bases, width and alignment of the stores of one table; a row is
    a destination and an addend. *)
Record group := Group { gr_bases : Z * Z * Z; gr_width : Z; gr_align : Z }.
Definition row : Type := Z * Z.

#[global] Instance group_eq_dec : EqDecision group.
Proof. solve_decision. Defined.

Definition keyOf (g : group) : list Z := let '(a, b, c) := gr_bases g in [a; b; c; gr_width g; gr_align g].

Fixpoint lexLess (l r : list Z) : bool :=
  match l, r with
  | x :: l, y :: r => (x <? y) || ((x =? y) && lexLess l r)
  | _, _ => false
  end.

(** [groups[key].push_back(row)] of a [std::map]. *)
Fixpoint pushRow (key : group) (r : row) (groups : list (group * list row)) : list (group * list row) :=
  match groups with
  | [] => [(key, [r])]
  | (k, rows) :: groups =>
      if bool_decide (k = key) then (k, rows ++ [r]) :: groups
      else if lexLess (keyOf key) (keyOf k) then (key, [r]) :: (k, rows) :: groups
      else (k, rows) :: pushRow key r groups
  end.

(** [commonAlignment]: the largest power of two that divides both. *)
Definition commonAlignment (alignment offset : Z) : Z := Z.land (Z.lor alignment offset) (- Z.lor alignment offset).

Section tables.
Context {DL : DataLayout} (symbols offsets : gmap string Z) (image : Z).

(** One fixup of the object [name], which has alignment [alignment]. *)
Definition tableRow (f : string * option Z * fixup) : result memory_error (group * row) :=
  let '(name, alignment, (offset, value)) := f in
  let width := getTypeStoreSize (typeOf value) in
  if negb (isPowerOf2 width) || (8 <? width) || match typeOf value with IntegerTy bits => negb (bits =? width * 8) | _ => false end
  then Err InitializerWidth
  else
    match ResolveArenaInitializer symbols image offsets (width * 8) value with
    | Ok resolved =>
        Ok (Group (Bases resolved) width (Z.min width (commonAlignment (default 1 alignment) offset)),
            (u64 (default 0 (symbols !! name) - image + offset), Addend resolved))
    | Err e => Err e
    end.

Definition addFixup (f : string * option Z * fixup) (groups : list (group * list row)) : result memory_error (list (group * list row)) :=
  match tableRow f with
  | Ok (key, r) => Ok (pushRow key r groups)
  | Err e => Err e
  end.

End tables.

(** The place of the object all destinations are relative to: that of the
    first fixup. *)
Definition imagePlace (symbols : gmap string Z) (fixups : list (string * option Z * fixup)) : Z :=
  default 0 (head fixups ≫= λ f, symbols !! f.1.1).

Definition EmitArenaFixups `{DataLayout} (symbols offsets : gmap string Z) (fixups : list (string * option Z * fixup)) :
    result memory_error (list (group * list row)) :=
  groups ← foldM (addFixup symbols offsets (imagePlace symbols fixups)) fixups [];
  if forallb (λ g : group * list row, Z.of_nat (length g.2) <=? Z.shiftl 1 23) groups then Ok groups else Err FixupTableTooLarge.

(** ** What the tables do at run time *)

Section fixing.
Context {BL : BpfLoop}.

(** The callback of one table, with the two words of its context. *)
Definition callback (g : group) (rows : list row) (imageBase valueBase index : Z) (m : mem) : Z * mem :=
  if index <? Z.of_nat (length rows) then
    let '(destination, addend) := default (0, 0) (rows !! Z.to_nat index) in
    (0, storeLE m (u64 (imageBase + destination)) (Z.to_nat (gr_width g)) (u64 (valueBase + addend)))
  else (0, m).

(** [bases]: the span, the function window and the image at run time. *)
Definition relocationBase (bases : Z * Z * Z) (g : group) : Z :=
  let '(b0, b1, b2) := bases in
  let '(n0, n1, n2) := gr_bases g in
  let add acc n b := if n =? 0 then acc else u64 (acc + u64 (b * n)) in
  add (add (add 0 n0 b0) n1 b1) n2 b2.

Definition applyTable (bases : Z * Z * Z) (t : group * list row) (m : mem) : mem :=
  bpf_loop (Z.of_nat (length t.2)) (callback t.1 t.2 bases.2 (relocationBase bases t.1)) m.

Definition applyTables (bases : Z * Z * Z) (groups : list (group * list row)) (m : mem) : mem :=
  foldl (λ m t, applyTable bases t m) m groups.
End fixing.

(** ** Layout of the object *)

(** An object that is already in the arena address space. *)
Definition isArenaGlobal (g : global) : bool :=
  negb (g_declaration g) && bool_decide (g_section g = EmptyString) && (g_addrspace g =? ArenaAS) &&
  negb (String.prefix "llvm." (g_name g)).

Definition isInitialised (g : global) : bool := negb (isNullValue (g_init g)).

(** The pass's two work lists: explicit arena objects come first. *)
Definition movableGlobals (globals : list global) : list global :=
  filter (λ g, IsMovableGlobal g = true ∧ isCallStack g = false) globals.

Definition zeroGlobals (globals : list global) : list global :=
  filter (λ g, isInitialised g = false) (filter (λ g, isArenaGlobal g = true) globals ++ movableGlobals globals).

Definition movedGlobals (globals : list global) : list global :=
  filter (λ g, isInitialised g = true) (filter (λ g, isArenaGlobal g = true) globals ++ movableGlobals globals).

Section layout.
Context {DL : DataLayout} {ABI : ABIAlign}.

Definition alignmentOf (g : global) : Z := Z.max (default 1 (g_align g)) (getABITypeAlign (typeOf (g_init g))).

(** One iteration of the sparse layout: the size so far and the offsets. *)
Definition placeZero (g : global) (p : Z * gmap string Z) : result memory_error (Z * gmap string Z) :=
  match AlignWithin p.1 (alignmentOf g) addressLimit with
  | None => Err (CannotAlign (g_name g))
  | Some virtualSize =>
      let size := getTypeAllocSize (typeOf (g_init g)) in
      if addressLimit - virtualSize <? size then Err (ExceedsDomain (g_name g))
      else Ok (virtualSize + size, <[g_name g := virtualSize]> p.2)
  end.

Definition MaxArenaBytes : Z := MAX_ARENA_PAGES * ARENA_PAGE_SIZE.

(** One iteration of the bound on the initialised image. *)
Definition countInitialized (g : global) (initializedBytes : Z) : result memory_error Z :=
  let align := alignmentOf g in
  if MaxArenaBytes - initializedBytes <? align - 1 then Err ImageExceedsArena
  else
    let initializedBytes := initializedBytes + (align - 1) in
    let size := getTypeAllocSize (typeOf (g_init g)) in
    if MaxArenaBytes - initializedBytes <? size then Err ImageExceedsArena else Ok (initializedBytes + size).

(** One initialised object: its new initialiser and its fixups. *)
Definition sanitizeGlobal (g : global) (s : list (global * list fixup) * emission) :
    result memory_error (list (global * list fixup) * emission) :=
  match SanitizeInitializer (g_init g) 0 ([], s.2) with
  | Ok (init, (local, st)) =>
      Ok (s.1 ++ [(Global (g_name g) (g_declaration g) (g_section g) ArenaAS (g_native g) (g_capsule g) (g_constant g) (g_align g) init, local)], st)
  | Err e => Err e
  end.

Record arena_object := ArenaObject {
  a_zeroOffsets : gmap string Z;
  a_moved : list (global * list fixup);
  a_functions : gmap string Z;
  a_config : config;
  a_pages : Z;
}.

(** The fixups in the order in which the pass lists them. *)
Definition fixupsOf (moved : list (global * list fixup)) : list (string * option Z * fixup) :=
  moved ≫= λ gf, (λ f, (g_name gf.1, g_align gf.1, f)) <$> gf.2.

Definition pagesFor (bytes : Z) : Z := Z.shiftr (bytes + ARENA_PAGE_SIZE - 1) ARENA_PAGE_SHIFT.

Definition runArenaMemory (slice : option Z) (globals : list global) (linked : config) (ids : gmap string Z) (next : Z) :
    result memory_error arena_object :=
  let bank := last (filter (λ g, IsMovableGlobal g = true ∧ isCallStack g = true) globals) in
  '(virtualSize, zeroOffsets) ← foldM placeZero (zeroGlobals globals) (ARENA_PAGE_SIZE, ∅);
  match AlignWithin virtualSize 16 addressLimit with
  | None => Err StorageExceedsDomain
  | Some heapBase =>
      if bool_decide (bank = None) then Err NoSoftwareStack
      else
        '(stackBytes, sliceBytes) ← ConfigureSoftwareStack ((λ g, (getTypeAllocSize (typeOf (g_init g)), slice)) <$> bank) MEMORY_REGION_SIZE;
        '(moved, st) ← foldM sanitizeGlobal (movedGlobals globals) ([], Emission [] [] ids next);
        initializedBytes ← foldM countInitialized (movedGlobals globals) 0;
        let initializedPages := pagesFor initializedBytes in
        c ← ConfigureObjectLayout linked heapBase sliceBytes (stackBytes / sliceBytes) initializedPages MEMORY_ARENA 0
              (Z.max ARENA_PAGE_SIZE sliceBytes) 0;
        let pages := pagesFor (memory_end c) + initializedPages + ARENA_SLICE_SLACK_PAGES sliceBytes in
        if MAX_ARENA_PAGES <? pages then Err MemoryExceedsArena
        else Ok (ArenaObject zeroOffsets moved (FunctionIds st) c (u32 (Z.max 1 pages)))
  end.
End layout.
End Arena.
