(* ===== verification/ArenaFacts.v ===== *)
(** * Stripping addresses loses nothing

    [sanitize_sound]: the bytes of a stripped initialiser, with the recorded
    values stored over its slots, are those of the initialiser.
    [resolve_affine]: a resolved value is, to the stored width, its addend
    plus the counted bases. *)

From Stdlib Require Import ZArith Lia.
From stdpp Require Import base numbers list gmap strings.
From S2P Require Import Prelude Bytes Fiber Host FixedImage FixedImageFacts FixedImageSound FixedLayout Arena.
Import Fiber Host FixedImage Arena.

Local Open Scope Z_scope.

(** ** Well-formed initialisers *)

(** What LLVM's verifier guarantees of casts and integer arithmetic. *)
Fixpoint wellTyped (c : constant) : bool :=
  match c with
  | CastExpr op t c =>
      match op, t with
      | IntToPtr, PointerTy | (PtrToInt | Trunc | ZExt | SExt), IntegerTy _ | (BitCast | AddrSpaceCast), _ => wellTyped c
      | _, _ => false
      end
  | BinaryExpr _ lhs rhs => match typeOf lhs with IntegerTy _ => wellTyped lhs && wellTyped rhs | _ => false end
  | GEPExpr _ base _ => wellTyped base
  | _ => true
  end.

Fixpoint mentionsToken (c : constant) : bool :=
  match c with
  | CastExpr _ _ c' => isToken c || mentionsToken c'
  | BinaryExpr _ lhs rhs => mentionsToken lhs || mentionsToken rhs
  | GEPExpr _ base _ => mentionsToken base
  | _ => false
  end.

Section formed.
Context {DL : DataLayout}.

(** A leaf fills its bytes, is well typed, and one without addresses has no
    function token inside an expression either (LLVM folds those). *)
Definition leafFormed (c : constant) : bool :=
  (getTypeAllocSize (typeOf c) =? getTypeStoreSize (typeOf c)) && wellTyped c &&
  (isToken c || referencesGlobal c || negb (mentionsToken c)).

Fixpoint arenaFormed (c : constant) : Prop :=
  match c with
  | ConstantZero _ | UndefValue _ | ConstantInt _ _ | ConstantFP _ _ | ConstantDataSequential _ _ _ | FunctionRef _ => True
  | ConstantArray element operands => foldr (λ c P, typeOf c = element ∧ arenaFormed c ∧ P) True operands
  | ConstantStruct _ operands => foldr (λ c P, arenaFormed c ∧ P) True operands
  | CastExpr _ _ _ | GEPExpr _ _ _ | BinaryExpr _ _ _ | GlobalRef _ | OtherExpr _ =>
      if strippedFunction c then typeOf c = PointerTy ∧ zeroIndices c = true else leafFormed c = true
  end.
End formed.

(** ** Values that do not move *)

Lemma value_fixed d ids win d' ids' win' c :
  referencesGlobal c = false → mentionsToken c = false → constantValue d ids win c = constantValue d' ids' win' c.
Proof.
  induction c as [| | | | | | | | |op t c IH|op c1 IH1 c2 IH2|z c IH o|]; intros Hr Ht; try done.
  - cbn [referencesGlobal mentionsToken] in *. apply orb_false_iff in Ht as [Hk Ht]. specialize (IH Hr Ht).
    destruct op; cbn [constantValue]; try (by rewrite IH). destruct c; cbn [constantValue] in *; try (by rewrite ?IH).
    cbn [isToken] in Hk. by rewrite Hk.
  - cbn [referencesGlobal mentionsToken] in *. apply orb_false_iff in Ht as [Ht1 Ht2]. apply orb_false_iff in Hr as [Hr1 Hr2].
    destruct op; cbn [constantValue]; by rewrite IH1, IH2.
  - cbn [referencesGlobal mentionsToken constantValue] in *. by rewrite IH.
Qed.

(** ** Stripping *)

Section sanitize.
Context {DL : DataLayout} {Laws : DataLayoutLaws DL}.

Definition slotWidth (v : constant) : Z := getTypeStoreSize (typeOf v).
Definition covers (f : fixup) (x : Z) : Prop := f.1 <= x < f.1 + slotWidth f.2.

(** [stripped lo hi old new news spec]: with the values of [news] stored over
    the bytes [new] from [lo] to [hi], they are [old]. *)
Record stripped (lo hi : Z) (old new : Z → Z) (value : constant → Z) (news : list fixup) : Prop := {
  st_typed f : f ∈ news → wellTyped f.2 = true;
  st_inside f : f ∈ news → lo <= f.1 ∧ f.1 + slotWidth f.2 <= hi;
  st_slot f x : f ∈ news → covers f x → old x = byteOf (value f.2) (x - f.1);
  st_other x : lo <= x < hi → (∀ f, f ∈ news → ¬ covers f x) → new x = old x;
}.

Lemma stripped_same lo hi old new value : (∀ x, lo <= x < hi → new x = old x) → stripped lo hi old new value [].
Proof. intros H. split; [by intros ? ?%not_elem_of_nil|by intros ? ?%not_elem_of_nil|by intros ? ? ?%not_elem_of_nil|auto]. Qed.

Lemma stripped_seq lo mid next hi old new old1 new1 old2 new2 value n1 n2 :
  lo <= mid → mid <= next → next <= hi →
  stripped mid next old1 new1 value n1 → stripped next hi old2 new2 value n2 →
  (∀ x, lo <= x < mid → new x = old x) →
  (∀ x, mid <= x < next → old x = old1 x ∧ new x = new1 x) →
  (∀ x, next <= x < hi → old x = old2 x ∧ new x = new2 x) →
  stripped lo hi old new value (n1 ++ n2).
Proof.
  intros Hm Hn Hh [Ht1 Hi1 Hs1 Ho1] [Ht2 Hi2 Hs2 Ho2] H0 H1 H2. split.
  - intros f [Hf|Hf]%elem_of_app; auto.
  - intros f [Hf%Hi1|Hf%Hi2]%elem_of_app; lia.
  - intros f x [Hf|Hf]%elem_of_app Hc; unfold covers in *.
    + pose proof (Hi1 _ Hf). rewrite (proj1 (H1 x ltac:(lia))). by apply Hs1.
    + pose proof (Hi2 _ Hf). rewrite (proj1 (H2 x ltac:(lia))). by apply Hs2.
  - intros x Hx Hno. destruct (decide (x < mid)); [apply H0; lia|]. destruct (decide (x < next)).
    + destruct (H1 x ltac:(lia)) as [-> ->]. apply Ho1; [lia|]. intros f Hf. apply Hno, elem_of_app. by left.
    + destruct (H2 x ltac:(lia)) as [-> ->]. apply Ho2; [lia|]. intros f Hf. apply Hno, elem_of_app. by right.
Qed.

(** What stripping a constant at [offset] must give, for every later set of
    identities and every place of the program. *)
Definition sanitizes (c : constant) : Prop :=
  ∀ offset fx st c' fx' st', SanitizeInitializer c offset (fx, st) = Ok (c', (fx', st')) → idsOk st →
    typeOf c' = typeOf c ∧ idsExtend st st' ∧ ∃ news, fx' = fx ++ news ∧
    ∀ d ids win, FunctionIds st' ⊆ ids →
      stripped offset (offset + getTypeAllocSize (typeOf c)) (λ x, constantByte d ids win c (x - offset))
        (λ x, constantByte ∅ ∅ 0 c' (x - offset)) (constantValue d ids win) news.

Lemma sanitizes_kept c offset fx st (s : constant * sanitizing) c' fx' st' :
  (∀ d ids win k, constantByte ∅ ∅ 0 c k = constantByte d ids win c k) → s = (c, (fx, st)) → s = (c', (fx', st')) →
  typeOf c' = typeOf c ∧ idsExtend st st' ∧ ∃ news, fx' = fx ++ news ∧
  ∀ d ids win, FunctionIds st' ⊆ ids →
      stripped offset (offset + getTypeAllocSize (typeOf c)) (λ x, constantByte d ids win c (x - offset))
        (λ x, constantByte ∅ ∅ 0 c' (x - offset)) (constantValue d ids win) news.
Proof.
  intros H -> [= <- <- <-]. split_and!; [done|done|]. exists []. rewrite app_nil_r. split; [done|]. intros d ids win _.
  apply stripped_same. intros x _. apply H.
Qed.

(** The tail of [SanitizeInitializer] on a pointer-shaped constant. *)
Lemma sanitizes_leaf c offset fx st c' fx' st' :
  (∀ d ids win k, constantByte d ids win c k = byteOf (constantValue d ids win c) k) →
  (if strippedFunction c then typeOf c = PointerTy ∧ zeroIndices c = true else leafFormed c = true) →
  match strippedFunction c with
  | Some f => match GetFunctionId f st with
              | Ok (id, st) => Ok (record c (CastExpr IntToPtr PointerTy (ConstantInt 64 id)) offset (fx, st))
              | Err e => Err e end
  | None => if isToken c || referencesGlobal c then Ok (record c c offset (fx, st)) else Ok (c, (fx, st)) end
    = (Ok (c', (fx', st')) : result memory_error _) → idsOk st →
  typeOf c' = typeOf c ∧ idsExtend st st' ∧ ∃ news, fx' = fx ++ news ∧
  ∀ d ids win, FunctionIds st' ⊆ ids →
      stripped offset (offset + getTypeAllocSize (typeOf c)) (λ x, constantByte d ids win c (x - offset))
        (λ x, constantByte ∅ ∅ 0 c' (x - offset)) (constantValue d ids win) news.
Proof.
  intros Hb Hw H Hst. destruct (strippedFunction c) as [f|] eqn:Es.
  - destruct Hw as [Ht Hz]. destruct (GetFunctionId f st) as [[id s1]|] eqn:Eg; [|done]. injection H as <- <- <-.
    apply GetFunctionId_spec in Eg as ([Hsub Hok] & Hf & _). split_and!; [done|by split|].
    eexists. split; [done|]. intros d ids win Hids. destruct (ids_token _ (Hok Hst) _ _ Hf) as [_ Htok].
    rewrite Ht, alloc_size_pointer. split.
    + by intros g ->%list_elem_of_singleton.
    + intros g ->%list_elem_of_singleton. cbn. lia.
    + intros g x ->%list_elem_of_singleton Hc. rewrite Hb, (stripped_value _ _ _ _ f) by done.
      rewrite (lookup_weaken _ _ _ _ Hf Hids). cbn [constantValue snd fst]. by rewrite Htok.
    + intros x Hx Hno. exfalso. eapply Hno; [by apply list_elem_of_singleton|]. unfold covers. cbn. lia.
  - unfold leafFormed in Hw. apply andb_true_iff in Hw as [Hw Hl]. apply andb_true_iff in Hw as [Hsz Hty]. apply Z.eqb_eq in Hsz.
    destruct (isToken c || referencesGlobal c) eqn:Er.
    + injection H as <- <- <-. split_and!; [done|done|]. eexists. split; [done|]. intros d ids win _. split.
      * by intros g ->%list_elem_of_singleton.
      * intros g ->%list_elem_of_singleton. unfold slotWidth. cbn [fst snd]. lia.
      * intros g x ->%list_elem_of_singleton Hc. by rewrite Hb.
      * intros x Hx Hno. exfalso. eapply Hno; [by apply list_elem_of_singleton|]. unfold covers, slotWidth. cbn [fst snd]. lia.
    + apply orb_false_iff in Er as [_ Hr]. cbn [orb] in Hl. apply negb_true_iff in Hl.
      eapply sanitizes_kept; [|reflexivity|by injection H as <- <- <-]. intros d ids win k. rewrite !Hb. f_equal. by apply value_fixed.
Qed.

(** One operand of an aggregate and the rest. *)
Lemma operandByte_here byte rel i c ops k :
  rel i <= k < rel i + getTypeAllocSize (typeOf c) → operandByte byte rel i (c :: ops) k = byte c (k - rel i).
Proof.
  intros Hk. cbn [operandByte]. destruct (Z.leb_spec (rel i) k), (Z.ltb_spec k (rel i + getTypeAllocSize (typeOf c))); (done || lia).
Qed.

Lemma operandByte_later byte rel i c ops k :
  rel i + getTypeAllocSize (typeOf c) <= k → operandByte byte rel i (c :: ops) k = operandByte byte rel (S i) ops k.
Proof.
  intros Hk. cbn [operandByte]. destruct (Z.ltb_spec k (rel i + getTypeAllocSize (typeOf c))); [lia|]. by rewrite andb_false_r.
Qed.

Lemma laidOut_types rel i cur ops ops' hi : map typeOf ops' = map typeOf ops → laidOut rel i cur ops hi → laidOut rel i cur ops' hi.
Proof.
  revert i cur ops'. induction ops as [|c ops IH]; intros i cur [|c' ops'] E H; try done.
  injection E as E1 E2. destruct H as [? H]. split; [done|]. rewrite E1. by apply IH.
Qed.

Lemma sanitizeOperands_sound base rel i cur ops hi fx st elems fx' st' :
  Forall sanitizes ops → laidOut rel i cur ops hi →
  sanitizeOperands SanitizeInitializer (λ i, base + rel i) i ops (fx, st) = Ok (elems, (fx', st')) → idsOk st →
  map typeOf elems = map typeOf ops ∧ idsExtend st st' ∧ ∃ news, fx' = fx ++ news ∧
  ∀ d ids win, FunctionIds st' ⊆ ids →
    stripped (base + cur) (base + hi) (λ x, operandByte (constantByte d ids win) rel i ops (x - base))
      (λ x, operandByte (constantByte ∅ ∅ 0) rel i elems (x - base)) (constantValue d ids win) news.
Proof.
  intros Hops. revert i cur fx st elems. induction Hops as [|c ops Hc _ IH]; intros i cur fx st elems Hl H Hst;
    cbn [sanitizeOperands] in H.
  { injection H as <- <- <-. split_and!; [done|done|]. exists []. rewrite app_nil_r. split; [done|]. intros d ids win _.
    by apply stripped_same. }
  destruct (SanitizeInitializer c (base + rel i) (fx, st)) as [[e1 [fx1 st1]]|] eqn:E1; [|done].
  destruct (sanitizeOperands _ _ (S i) ops (fx1, st1)) as [[es [fx2 st2]]|] eqn:E2; [|done]. injection H as <- <- <-.
  destruct (Hc _ _ _ _ _ _ E1 Hst) as (Ht1 & [Hx1 Hok1] & n1 & -> & Hs1). destruct Hl as [Hcur Hl].
  destruct (IH _ _ _ _ _ Hl E2 (Hok1 Hst)) as (Ht2 & Hx2 & n2 & -> & Hs2).
  split_and!; [cbn; by rewrite Ht1, Ht2|transitivity st1; [by split|done]|].
  exists (n1 ++ n2). rewrite app_assoc. split; [done|]. intros d ids win Hids.
  pose proof (alloc_size_nonneg (typeOf c)). pose proof (laidOut_le _ _ _ _ _ Hl).
  specialize (Hs1 d ids win (transitivity (proj1 Hx2) Hids)). specialize (Hs2 d ids win Hids). rewrite Z.add_assoc in Hs2.
  eapply stripped_seq; [| | |exact Hs1|exact Hs2| | |]; try lia.
  - intros x Hx. assert (Hl' : laidOut rel i (rel i) (c :: ops) hi) by (by split).
    rewrite (operandByte_before _ rel i (rel i) (c :: ops) hi), (operandByte_before _ rel i (rel i) (e1 :: es) hi); try done; try lia.
    eapply laidOut_types; [|exact Hl']. cbn. by rewrite Ht1, Ht2.
  - intros x Hx. rewrite !operandByte_here by (rewrite ?Ht1; lia). by rewrite !Z.sub_add_distr.
  - intros x Hx. rewrite !operandByte_later by (rewrite ?Ht1; lia). done.
Qed.

Lemma null_operands d ids win rel i ops k :
  forallb isNullValue ops = true → operandByte (constantByte d ids win) rel i ops k = 0.
Proof.
  revert i. induction ops as [|c ops IH]; intros i H; [done|]. cbn [forallb] in H. apply andb_true_iff in H as [Hc H].
  cbn [operandByte]. destruct (_ && _); [by apply null_byte|by apply IH].
Qed.

Lemma arenaFormed_array element ops : arenaFormed (ConstantArray element ops) →
  Forall (λ c, typeOf c = element) ops ∧ Forall arenaFormed ops.
Proof. cbn [arenaFormed]. induction ops as [|c ops IH]; simpl; [done|]. intros (? & ? & [? ?]%IH). split; by constructor. Qed.

Lemma arenaFormed_struct packed ops : arenaFormed (ConstantStruct packed ops) → Forall arenaFormed ops.
Proof. cbn [arenaFormed]. induction ops as [|c ops IH]; simpl; [done|]. intros (? & ?%IH). by constructor. Qed.

Lemma getArray_bytes d ids win element ops k :
  constantByte d ids win (getArray element ops) k =
  operandByte (constantByte d ids win) (λ i, Z.of_nat i * getTypeAllocSize element) 0 ops k.
Proof. unfold getArray. destruct (forallb _ _) eqn:E; [|done]. symmetry. by apply null_operands. Qed.

Lemma getStruct_bytes d ids win packed ops k :
  constantByte d ids win (getStruct packed ops) k =
  operandByte (constantByte d ids win) (getElementOffset packed (map typeOf ops)) 0 ops k.
Proof. unfold getStruct. destruct (forallb _ _) eqn:E; [|done]. symmetry. by apply null_operands. Qed.

(** Stripping an initialiser is sound. *)
Lemma sanitize_sound c : arenaFormed c → sanitizes c.
Proof.
  induction c as [c Hna Hns|e ops IH|p ops IH] using constant_nested_ind; intros Hw offset fx st c' fx' st' H Hst.
  - destruct c; cbn [SanitizeInitializer isNullValue arenaFormed] in H, Hw;
      try (by eapply sanitizes_leaf); try (by destruct (Hna element operands)); try (by destruct (Hns packed operands));
      try (eapply sanitizes_kept; [|reflexivity|by injection H as <- <- <-]; done).
    + destruct (_ =? 0); (eapply sanitizes_kept; [|reflexivity|by injection H as <- <- <-]; done).
    + destruct (_ =? 0); (eapply sanitizes_kept; [|reflexivity|by injection H as <- <- <-]; done).
  - apply arenaFormed_array in Hw as [Ht Hw]. cbn [SanitizeInitializer isNullValue] in H.
    destruct (sanitizeOperands _ _ 0 ops (fx, st)) as [[es s]|] eqn:E; [|done]. injection H as <- ->.
    assert (Hi : Forall sanitizes ops) by (rewrite Forall_forall in *; eauto).
    destruct (sanitizeOperands_sound _ _ _ _ _ _ _ _ _ _ _ Hi (array_laidOut e ops 0 Ht) E Hst) as (Hts & Hx & news & -> & Hs).
    assert (Hlen : length es = length ops) by (apply (f_equal length) in Hts; by rewrite !length_map in Hts).
    split_and!; [|done|].
    { unfold getArray. destruct (forallb _ _); cbn [typeOf]; by rewrite Hlen. }
    exists news. split; [done|]. intros d ids win Hids. specialize (Hs d ids win Hids). cbn [typeOf].
    rewrite alloc_size_array. rewrite Z.mul_0_l, !Z.add_0_r, Z.add_0_l in Hs.
    eapply (stripped_seq offset offset offset _ _ _ (λ _, 0) (λ _, 0) _ _ _ []); [lia|lia| | |exact Hs|..]; try lia.
    + pose proof (alloc_size_nonneg e). nia.
    + apply stripped_same. lia.
    + intros x Hx'. by rewrite getArray_bytes.
  - apply arenaFormed_struct in Hw. cbn [SanitizeInitializer isNullValue] in H.
    destruct (sanitizeOperands _ _ 0 ops (fx, st)) as [[es s]|] eqn:E; [|done]. injection H as <- ->.
    assert (Hi : Forall sanitizes ops) by (rewrite Forall_forall in *; eauto).
    pose proof (alloc_size_nonneg (StructTy p (map typeOf ops))) as Hsz.
    assert (Hl : laidOut (getElementOffset p (map typeOf ops)) 0 0 ops (getTypeAllocSize (StructTy p (map typeOf ops)))).
    { apply (struct_laidOut p ops [] 0); [simpl; lia|]. intros c Hc. destruct ops as [|c0 ops]; [done|].
      apply (element_inside p (map typeOf (c0 :: ops)) 0 (typeOf c0)). done. }
    destruct (sanitizeOperands_sound _ _ _ _ _ _ _ _ _ _ _ Hi Hl E Hst) as (Hts & Hx & news & -> & Hs).
    split_and!; [|done|].
    { unfold getStruct. destruct (forallb _ _); cbn [typeOf]; by rewrite Hts. }
    exists news. split; [done|]. intros d ids win Hids. specialize (Hs d ids win Hids). cbn [typeOf]. rewrite Z.add_0_r in Hs.
    eapply (stripped_seq offset offset offset _ _ _ (λ _, 0) (λ _, 0) _ _ _ []); [lia|lia|lia| |exact Hs|..]; try lia.
    + apply stripped_same. lia.
    + intros x Hx'. by rewrite getStruct_bytes, Hts.
Qed.
End sanitize.

(** ** Resolving *)

(** [counted bases n]: the bases counted [n] times. *)
Definition counted (bases n : Z * Z * Z) : Z :=
  bases.1.1 * n.1.1 + bases.1.2 * n.1.2 + bases.2 * n.2.

Section resolve.
Context (symbols offsets d ids : gmap string Z) (image base win section : Z).

(** Where the globals are, relative to the window. *)
Hypothesis Hsparse : ∀ g o, offsets !! g = Some o → ∃ p, d !! g = Some p ∧ u64 (win + p) = u64 (base + o).
Hypothesis Hsymbol : ∀ g a, offsets !! g = None → symbols !! g = Some a → ∃ p, d !! g = Some p ∧ u64 (win + p) = u64 (section + a).

Let bases : Z * Z * Z := (base, win, u64 (section + image)).

Lemma mod_add_congr n a a' b b' : a mod n = a' mod n → b mod n = b' mod n → (a + b) mod n = (a' + b') mod n.
Proof. intros Ha Hb. by rewrite Zplus_mod, Ha, Hb, <-Zplus_mod. Qed.

Lemma mod_sub_congr n a a' b b' : a mod n = a' mod n → b mod n = b' mod n → (a - b) mod n = (a' - b') mod n.
Proof. intros Ha Hb. by rewrite Zminus_mod, Ha, Hb, <-Zminus_mod. Qed.

Lemma cast_resolves storedBits op t c :
  0 <= storedBits <= 64 → wellTyped (CastExpr op t c) = true → tooNarrow storedBits t = false → op ≠ ZExt → op ≠ SExt →
  isToken (CastExpr op t c) = false →
  constantValue d ids win (CastExpr op t c) mod 2 ^ storedBits = constantValue d ids win c mod 2 ^ storedBits.
Proof.
  intros Hs Hw Hn Hz Hx Ht.
  assert (E : constantValue d ids win (CastExpr op t c) = castValue op (typeOf c) t (constantValue d ids win c)).
  { destruct op; try done. destruct c; try done. cbn [isToken] in Ht. cbn [constantValue]. by rewrite Ht. }
  rewrite E. unfold castValue. destruct op; try done; destruct t; try done; cbn [bitsOf tooNarrow] in *; bool_to_prop;
    by rewrite wrap_mod by lia.
Qed.

(** A resolved value is affine in the bases, to the stored width. *)
Lemma resolve_affine storedBits c r :
  0 <= storedBits <= 64 → wellTyped c = true →
  ResolveArenaInitializer symbols image offsets storedBits c = Ok r →
  constantValue d ids win c mod 2 ^ storedBits = (Addend r + counted bases (Bases r)) mod 2 ^ storedBits.
Proof.
  intros Hs. assert (Hu : ∀ x, u64 x mod 2 ^ storedBits = x mod 2 ^ storedBits) by (intros; by apply wrap_mod).
  revert r. induction c as [t| |bits v| | | | | |g|op t c IH|op c1 IH1 c2 IH2|z c IH o|]; intros r Hw Hr;
    cbn [ResolveArenaInitializer] in Hr; try done.
  - destruct t; try done. injection Hr as <-. unfold counted. cbn [constantValue Addend Bases fst snd]. f_equal. lia.
  - injection Hr as <-. unfold counted. cbn [constantValue Addend Bases fst snd]. by rewrite !Z.mul_0_r, !Z.add_0_r, Hu.
  - unfold counted, bases. destruct (offsets !! g) as [o|] eqn:Eo.
    + injection Hr as <-. destruct (Hsparse _ _ Eo) as (p & Hp & E). cbn [constantValue Addend Bases fst snd]. rewrite Hp.
      cbn [default from_option id]. rewrite E, Hu. f_equal. lia.
    + destruct (symbols !! g) as [a|] eqn:Ea; [|done]. injection Hr as <-. destruct (Hsymbol _ _ Eo Ea) as (p & Hp & E).
      cbn [constantValue Addend Bases fst snd]. rewrite Hp. cbn [default from_option id]. rewrite E, Hu.
      transitivity ((a - image + (section + image)) mod 2 ^ storedBits); [f_equal; lia|].
      rewrite !Z.mul_0_r, !Z.add_0_l, Z.mul_1_r. apply mod_add_congr; by rewrite Hu.
  - destruct (tooNarrow storedBits t) eqn:En; [done|]. destruct (isToken (CastExpr op t c)) eqn:Et.
    + destruct op; try done. destruct c; try done. injection Hr as <-. cbn [isToken] in Et. cbn [constantValue Addend Bases].
      rewrite Et, Hu. unfold counted, bases. cbn [fst snd]. transitivity ((value + win) mod 2 ^ storedBits); [f_equal; lia|].
      apply mod_add_congr; [by rewrite Hu|f_equal; lia].
    + destruct (ResolveArenaInitializer _ _ _ _ c) as [r'|] eqn:Er; [|done].
      assert (Hop : op ≠ ZExt ∧ op ≠ SExt ∧ r' = r) by (destruct op; simplify_eq; done). destruct Hop as (Hz & Hx & ->).
      rewrite cast_resolves by done. apply IH; [|done]. cbn [wellTyped] in Hw. destruct op, t; done.
  - destruct (tooNarrow storedBits (typeOf c1)) eqn:En; [done|].
    destruct (ResolveArenaInitializer _ _ _ _ c1) as [l|]; [|done]. destruct (ResolveArenaInitializer _ _ _ _ c2) as [r2|]; [|done].
    injection Hr as <-. cbn [wellTyped] in Hw. destruct (typeOf c1) as [b| | | |] eqn:Et; try done. apply andb_true_iff in Hw as [Hw1 Hw2].
    specialize (IH1 _ Hw1 eq_refl). specialize (IH2 _ Hw2 eq_refl). cbn [tooNarrow] in En. bool_to_prop.
    unfold combine, counted in *. destruct l as [al [[l0 l1] l2]], r2 as [ar [[r0 r1] r2]]. cbn [Bases Addend fst snd] in *.
    destruct op; cbn [constantValue Addend Bases fst snd]; rewrite Et; cbn [bitsOf]; rewrite wrap_mod by lia.
    + rewrite (mod_add_congr _ _ _ _ _ IH1 IH2). 
      transitivity (((al + ar) + (base * (l0 + r0) + win * (l1 + r1) + bases.2 * (l2 + r2))) mod 2 ^ storedBits);
        [f_equal; unfold bases; cbn [fst snd]; lia|]. apply mod_add_congr; [by rewrite Hu|done].
    + rewrite (mod_sub_congr _ _ _ _ _ IH1 IH2).
      transitivity (((al - ar) + (base * (l0 - r0) + win * (l1 - r1) + bases.2 * (l2 - r2))) mod 2 ^ storedBits);
        [f_equal; unfold bases; cbn [fst snd]; lia|]. apply mod_add_congr; [by rewrite Hu|done].
  - destruct (ResolveArenaInitializer _ _ _ _ c) as [r'|] eqn:Er; [|done]. destruct o as [delta|]; [|done]. injection Hr as <-.
    specialize (IH _ Hw eq_refl). cbn [constantValue Addend Bases default from_option id]. rewrite Hu.
    rewrite (mod_add_congr _ _ _ delta delta IH eq_refl).
    transitivity ((Addend r' + delta + counted bases (Bases r')) mod 2 ^ storedBits); [f_equal; lia|].
    apply mod_add_congr; [by rewrite Hu|done].
Qed.
End resolve.
