(* ===== verification/ArenaTables.v ===== *)
(** * The fixup tables write every stripped address

    The tables hold one row for each recorded fixup, whatever order the map
    keeps them in; run by the kernel's loop they store, at each slot and only
    there, the bytes of the recorded value at the run-time bases. *)

From Stdlib Require Import ZArith Lia.
From stdpp Require Import base numbers list gmap strings.
From S2P Require Import Prelude Bytes Fiber Host FixedImage FixedImageFacts FixedImageSound FixedLayout Arena ArenaFacts.
Import Fiber Host FixedImage Arena.

Local Open Scope Z_scope.

(** The documented behaviour of [bpf_loop]: up to 2^23 calls, as long as the
    callback returns zero. *)
Class BpfLoopLaws (BL : BpfLoop) : Prop :=
  bpf_loop_runs (n : nat) f m : Z.of_nat n <= 2 ^ 23 → (∀ i m, (f i m).1 = 0) →
    bpf_loop (Z.of_nat n) f m = foldl (λ m i, (f (Z.of_nat i) m).2) m (seq 0 n).

(** ** Rows *)

Definition flat (groups : list (group * list row)) : list (group * row) := groups ≫= λ t, (λ r, (t.1, r)) <$> t.2.

Lemma flat_cons t groups : flat (t :: groups) = ((λ r, (t.1, r)) <$> t.2) ++ flat groups.
Proof. done. Qed.

Lemma pushRow_elem key r groups x : x ∈ flat (pushRow key r groups) ↔ x = (key, r) ∨ x ∈ flat groups.
Proof.
  induction groups as [|[k rows] groups IH]; cbn [pushRow].
  - rewrite flat_cons. cbn. rewrite list_elem_of_singleton, elem_of_nil. naive_solver.
  - case_bool_decide as E; [subst k|case_match]; rewrite !flat_cons; cbn [fst snd].
    + rewrite fmap_app, !elem_of_app. cbn. rewrite list_elem_of_singleton. naive_solver.
    + cbn. rewrite elem_of_cons, !elem_of_app. naive_solver.
    + rewrite !elem_of_app, IH. naive_solver.
Qed.

(** ** Powers of two that divide *)

Lemma lowbit_divides x : 0 < x → ∃ n, 0 <= n ∧ Z.land x (- x) = 2 ^ n ∧ x mod 2 ^ n = 0.
Proof.
  intros Hx. destruct x as [|p|]; [lia| |lia]. clear Hx. induction p as [p IH|p IH|].
  - exists 0. split_and!; [lia| |apply Z.mod_1_r]. apply Z.bits_inj'. intros i Hi. rewrite Z.land_spec.
    replace (- Z.pos p~1) with (Z.lnot (2 * Z.pos p)) by (unfold Z.lnot; lia). rewrite Z.lnot_spec by done.
    destruct (decide (i = 0)) as [->|Hne].
    { rewrite Z.testbit_even_0, Z.bit0_odd. done. }
    change (Z.pos p~1) with (2 * Z.pos p + 1). replace i with (Z.succ (i - 1)) by lia.
    rewrite Z.testbit_odd_succ, Z.testbit_even_succ, andb_negb_r by lia. symmetry. apply Z.bits_above_log2; simpl; lia.
  - destruct IH as (n & Hn & E & Hm). exists (n + 1). rewrite Z.pow_add_r, Z.pow_1_r by lia. split_and!; [lia| |].
    + change (Z.pos p~0) with (2 * Z.pos p). rewrite <-E. replace (- (2 * Z.pos p)) with (2 * - Z.pos p) by lia.
      apply Z.bits_inj'. intros i Hi. rewrite (Z.mul_comm (Z.land _ _)), Z.land_spec. destruct (decide (i = 0)) as [->|Hne].
      { by rewrite !Z.testbit_even_0. }
      replace i with (Z.succ (i - 1)) by lia. by rewrite !Z.testbit_even_succ, Z.land_spec by lia.
    + change (Z.pos p~0) with (2 * Z.pos p). rewrite (Z.mul_comm (2 ^ n)). rewrite Z.mul_mod_distr_l by (pose proof (pow2_pos n Hn); lia). lia.
  - exists 0. done.
Qed.

Lemma mod_pow2_ones x n : 0 <= n → x mod 2 ^ n = 0 ↔ Z.land x (Z.ones n) = 0.
Proof. intros Hn. by rewrite Z.land_ones by done. Qed.

(** The common alignment divides the alignment and the offset. *)
Lemma commonAlignment_spec a o : 0 < a → 0 <= o →
  powerOfTwo (commonAlignment a o) ∧ a mod commonAlignment a o = 0 ∧ o mod commonAlignment a o = 0.
Proof.
  intros Ha Ho. unfold commonAlignment.
  assert (Hx : 0 < Z.lor a o).
  { destruct (decide (Z.lor a o = 0)) as [E|Hne]; [apply Z.lor_eq_0_iff in E; lia|].
    assert (0 <= Z.lor a o) by (apply Z.lor_nonneg; lia). lia. }
  destruct (lowbit_divides _ Hx) as (n & Hn & -> & Hm). rewrite mod_pow2_ones, Z.land_lor_distr_l, Z.lor_eq_0_iff in Hm by done.
  split; [by exists n|]. split; apply mod_pow2_ones; tauto.
Qed.

Lemma min_pow2_divides a b x : powerOfTwo a → powerOfTwo b → x mod b = 0 → x mod Z.min a b = 0.
Proof.
  intros Ha Hb Hx. destruct (Z.min_spec a b) as [[? ->]|[? ->]]; [|done].
  apply Z.mod_divide; [pose proof (pow2_gt0 _ Ha); lia|]. apply Z.mod_divide in Hx; [|pose proof (pow2_gt0 _ Hb); lia].
  etransitivity; [|exact Hx]. by apply pow2_divide; [..|lia].
Qed.

(** ** Tables of the fixups *)

Section tables.
Context {DL : DataLayout} (symbols offsets : gmap string Z).

Lemma addFixups_rows image fixups groups groups' :
  foldM (addFixup symbols offsets image) fixups groups = Ok groups' →
  (∀ f, f ∈ fixups → ∃ kr, tableRow symbols offsets image f = Ok kr ∧ kr ∈ flat groups') ∧
  (∀ kr, kr ∈ flat groups → kr ∈ flat groups') ∧
  (∀ kr, kr ∈ flat groups' → kr ∈ flat groups ∨ ∃ f, f ∈ fixups ∧ tableRow symbols offsets image f = Ok kr).
Proof.
  revert groups. induction fixups as [|f fixups IH]; intros groups H; cbn [foldM] in H.
  { injection H as <-. split_and!; [by intros f ?%not_elem_of_nil|done|by left]. }
  unfold addFixup in H at 1. destruct (tableRow symbols offsets image f) as [[key r]|] eqn:Et; [|done].
  apply IH in H as (H1 & H2 & H3). split_and!.
  - intros f' [->|Hf]%elem_of_cons; [|by apply H1]. exists (key, r). split; [done|]. apply H2, pushRow_elem. by left.
  - intros kr Hkr. apply H2, pushRow_elem. by right.
  - intros kr [Hkr|(f' & Hf & E)]%H3; [|right; exists f'; split; [by right|done]].
    apply pushRow_elem in Hkr as [->|Hkr]; [|by left]. right. exists f. split; [by left|done].
Qed.

Lemma EmitArenaFixups_rows fixups groups :
  EmitArenaFixups symbols offsets fixups = Ok groups →
  (∀ f, f ∈ fixups → ∃ kr, tableRow symbols offsets (imagePlace symbols fixups) f = Ok kr ∧ kr ∈ flat groups) ∧
  (∀ kr, kr ∈ flat groups → ∃ f, f ∈ fixups ∧ tableRow symbols offsets (imagePlace symbols fixups) f = Ok kr) ∧
  Forall (λ t : group * list row, Z.of_nat (length t.2) <= 2 ^ 23) groups.
Proof.
  unfold EmitArenaFixups. intros H. apply bind_Ok in H as (gs & Hf & H). destruct (forallb _ gs) eqn:Ef; [|done]. injection H as <-.
  apply addFixups_rows in Hf as (H1 & _ & H3). split_and!; [done| |].
  - intros kr [Hkr|?]%H3; [by apply not_elem_of_nil in Hkr|done].
  - apply Forall_forall. intros t Ht. rewrite forallb_forall in Ef. apply list_elem_of_In in Ht. apply Ef in Ht. by apply Z.leb_le in Ht.
Qed.

(** What a row says of its fixup. *)
Lemma tableRow_spec image name al o v k r :
  tableRow symbols offsets image (name, al, (o, v)) = Ok (k, r) →
  gr_width k = slotWidth v ∧ powerOfTwo (slotWidth v) ∧ slotWidth v <= 8 ∧
  gr_align k = Z.min (slotWidth v) (commonAlignment (default 1 al) o) ∧
  r.1 = u64 (default 0 (symbols !! name) - image + o) ∧
  ∃ res, ResolveArenaInitializer symbols image offsets (slotWidth v * 8) v = Ok res ∧ gr_bases k = Bases res ∧ r.2 = Addend res.
Proof.
  unfold tableRow. change (getTypeStoreSize (typeOf v)) with (slotWidth v). cbv zeta. destruct (_ || _) eqn:E; [done|].
  apply orb_false_iff in E as [E _]. apply orb_false_iff in E as [E1 E2]. apply negb_false_iff, isPowerOf2_iff in E1. apply Z.ltb_ge in E2.
  destruct (ResolveArenaInitializer _ _ _ _ v) as [res|]; [|done]. intros [= <- <-]. cbn. eauto 10.
Qed.
End tables.

(** ** Stores *)

Section stores.
Context {BL : BpfLoop} {Laws : BpfLoopLaws BL} (bases : Z * Z * Z).

Definition rowAddress (x : group * row) : Z := u64 (bases.2 + x.2.1).
Definition rowValue (x : group * row) : Z := u64 (relocationBase bases x.1 + x.2.2).
Definition rowStore (m : mem) (x : group * row) : mem := storeLE m (rowAddress x) (Z.to_nat (gr_width x.1)) (rowValue x).
Definition rowCovers (x : group * row) (a : Z) : Prop := rowAddress x <= a < rowAddress x + gr_width x.1.

Lemma foldl_seq_lookup {A B} (f : A → B → A) (g : A → nat → A) (l : list B) i a :
  (∀ a j b, l !! j = Some b → g a (i + j)%nat = f a b) → foldl g a (seq i (length l)) = foldl f a l.
Proof.
  revert i a. induction l as [|b l IH]; intros i a H; [done|]. cbn [length seq foldl].
  rewrite <-(Nat.add_0_r i) at 1. rewrite (H a 0%nat b eq_refl). apply IH. intros a' j b' Hj.
  rewrite <-(H a' (S j) b' Hj). f_equal. lia.
Qed.

Lemma applyTable_stores t m : Z.of_nat (length t.2) <= 2 ^ 23 →
  applyTable bases t m = foldl rowStore m ((λ r, (t.1, r)) <$> t.2).
Proof.
  intros Hn. unfold applyTable. rewrite bpf_loop_runs; [|done|].
  - rewrite <-(length_fmap (λ r, (t.1, r)) t.2). apply foldl_seq_lookup. intros a j b Hj. cbn [Nat.add].
    pose proof (lookup_lt_Some _ _ _ Hj) as Hlt. rewrite length_fmap in Hlt.
    rewrite list_lookup_fmap in Hj. destruct (t.2 !! j) as [r|] eqn:Er; [|done]. injection Hj as <-.
    unfold callback. destruct (Z.ltb_spec (Z.of_nat j) (Z.of_nat (length t.2))); [|lia].
    change (t.2 !! Z.to_nat (Z.of_nat j)) with (lookup (Z.to_nat (Z.of_nat j)) t.2). rewrite Nat2Z.id, Er. by destruct r.
  - intros i m'. unfold callback. destruct (_ <? _); [|done]. by destruct (default _ _).
Qed.

Lemma applyTables_stores groups m : Forall (λ t : group * list row, Z.of_nat (length t.2) <= 2 ^ 23) groups →
  applyTables bases groups m = foldl rowStore m (flat groups).
Proof.
  intros H. unfold applyTables. revert m. induction H as [|t groups Ht _ IH]; intros m; [done|].
  cbn [foldl]. rewrite flat_cons, foldl_app, <-applyTable_stores by done. apply IH.
Qed.

Lemma rowStore_at m x a : 0 <= gr_width x.1 →
  (rowCovers x a → rowStore m x a = byteOf (rowValue x) (a - rowAddress x)) ∧ (¬ rowCovers x a → rowStore m x a = m a).
Proof.
  intros Hw. unfold rowStore, rowCovers. rewrite storeLE_lookup, Z2Nat.id by done. split; intros H.
  - destruct (Z.leb_spec (rowAddress x) a), (Z.ltb_spec a (rowAddress x + gr_width x.1)); try lia. cbn [andb]. by rewrite byteOf_div by lia.
  - destruct (Z.leb_spec (rowAddress x) a), (Z.ltb_spec a (rowAddress x + gr_width x.1)); cbn [andb]; (done || lia).
Qed.

(** A byte is the agreed one when some store covers it, and kept otherwise. *)
Lemma stores_at rows m a b :
  (∀ x, x ∈ rows → 0 <= gr_width x.1 ∧ (rowCovers x a → byteOf (rowValue x) (a - rowAddress x) = b)) →
  (∃ x, x ∈ rows ∧ rowCovers x a) ∨ m a = b → foldl rowStore m rows a = b.
Proof.
  revert m. induction rows as [|x rows IH]; intros m H Hb; cbn [foldl].
  { destruct Hb as [(x & Hx%not_elem_of_nil & _)|Hb]; done. }
  destruct (H x ltac:(by left)) as [Hw Hv]. destruct (rowStore_at m x a Hw) as [Hc Hn].
  apply IH; [intros y Hy; apply H; by right|]. unfold rowCovers in Hc, Hn, Hv.
  destruct (decide (rowAddress x <= a < rowAddress x + gr_width x.1)) as [Hx|Hx].
  - right. rewrite Hc by done. by apply Hv.
  - destruct Hb as [(y & [->|Hy]%elem_of_cons & Hy')|Hb]; [done|left; by exists y|right]. by rewrite Hn.
Qed.

Lemma relocationBase_counted k : relocationBase bases k mod 2 ^ 64 = counted bases (gr_bases k) mod 2 ^ 64.
Proof.
  unfold relocationBase, counted. destruct bases as [[b0 b1] b2], (gr_bases k) as [[n0 n1] n2]. cbn [fst snd].
  assert (Hadd : ∀ acc acc' n b, acc mod 2 ^ 64 = acc' mod 2 ^ 64 →
    (if n =? 0 then acc else u64 (acc + u64 (b * n))) mod 2 ^ 64 = (acc' + b * n) mod 2 ^ 64).
  { intros acc acc' n b E. destruct (Z.eqb_spec n 0) as [->|_]; [by rewrite Z.mul_0_r, Z.add_0_r|].
    unfold u64. rewrite (wrap_mod 64 64) by lia. apply mod_add_congr; [done|]. by rewrite (wrap_mod 64 64) by lia. }
  by apply Hadd, Hadd, (Hadd 0 0).
Qed.
End stores.
