(* ===== verification/ArenaProps.v ===== *)
(** * The initialised arena image

    The initialiser program's tables turn the loaded, address-free image into
    the initialisers of the program, at whatever base the kernel allocated. *)

From Stdlib Require Import ZArith Lia.
From stdpp Require Import base numbers list gmap strings.
From S2P Require Import Prelude Bytes Fiber Host FixedImage FixedImageFacts FixedImageSound FixedLayout Arena ArenaFacts ArenaTables.
Import Fiber Host FixedImage Arena.

Local Open Scope Z_scope.

Section image.
Context {DL : DataLayout} {Laws : DataLayoutLaws DL} {ABI : ABIAlign}.

(** ** The stripped objects *)

Definition strippedGlobal (ids : gmap string Z) (g : global) (gf : global * list fixup) : Prop :=
  g_name gf.1 = g_name g ∧ g_align gf.1 = g_align g ∧ typeOf (g_init gf.1) = typeOf (g_init g) ∧
  ∀ d win, stripped 0 (sizeOf g) (constantByte d ids win (g_init g)) (constantByte ∅ ∅ 0 (g_init gf.1)) (constantValue d ids win) gf.2.

Lemma sanitizeGlobals_spec l acc st moved st' :
  foldM sanitizeGlobal l (acc, st) = Ok (moved, st') → idsOk st → Forall (λ g, arenaFormed (g_init g)) l →
  idsExtend st st' ∧ ∃ news, moved = acc ++ news ∧ ∀ ids, FunctionIds st' ⊆ ids → Forall2 (strippedGlobal ids) l news.
Proof.
  revert acc st. induction l as [|g l IH]; intros acc st H Hst Hw; cbn [foldM] in H.
  { injection H as <- <-. split; [done|]. exists []. by rewrite app_nil_r. }
  unfold sanitizeGlobal in H at 1. cbn [fst snd] in H. apply Forall_cons in Hw as [Hg Hw].
  destruct (SanitizeInitializer (g_init g) 0 ([], st)) as [[init [local s1]]|] eqn:E; [|done].
  destruct (sanitize_sound _ Hg _ _ _ _ _ _ E Hst) as (Ht & [Hx Hok] & news & -> & Hs).
  apply IH in H as ([Hx' Hok'] & more & -> & Hall); [|auto|done]. split; [split; [by etransitivity|auto]|].
  eexists. rewrite <-app_assoc. split; [done|]. intros ids Hids. constructor; [|by apply Hall].
  split_and!; [done|done|done|]. intros d win. specialize (Hs d ids win (transitivity Hx' Hids)). cbn [fst snd g_init app].
  rewrite Z.add_0_l in Hs. destruct Hs as [H1 H2 H3 H4]. split; [done|done| |].
  - intros f x Hf Hc. rewrite <-(H3 f x Hf Hc). by rewrite Z.sub_0_r.
  - intros x Hx0 Hno. specialize (H4 x Hx0 Hno). by rewrite !Z.sub_0_r in H4.
Qed.

(** ** The loaded section *)

(** The assembler gave every initialised object an aligned place of its own,
    and the loader put its stripped bytes there. *)
Record loaded (moved : list (global * list fixup)) (symbols : gmap string Z) (section : Z) (m : mem) : Prop := {
  ld_place gf : gf ∈ moved → ∃ a, symbols !! g_name gf.1 = Some a ∧ 0 <= section + a ∧ section + a + sizeOf gf.1 <= 2 ^ 64 ∧
    powerOfTwo (default 1 (g_align gf.1)) ∧ (section + a) mod default 1 (g_align gf.1) = 0;
  ld_apart gf hf a b : gf ∈ moved → hf ∈ moved → symbols !! g_name gf.1 = Some a → symbols !! g_name hf.1 = Some b →
    g_name gf.1 ≠ g_name hf.1 → a + sizeOf gf.1 <= b ∨ b + sizeOf hf.1 <= a;
  ld_bytes gf a k : gf ∈ moved → symbols !! g_name gf.1 = Some a → 0 <= k < sizeOf gf.1 →
    m (section + a + k) = constantByte ∅ ∅ 0 (g_init gf.1) k;
}.

(** Where the globals are in the running program, relative to the window:
    sparse objects in the span, the others in the loaded section. *)
Definition places (symbols zeroOffsets : gmap string Z) (base win section : Z) : gmap string Z :=
  ((λ o, base + o - win) <$> zeroOffsets) ∪ ((λ a, section + a - win) <$> symbols).

Lemma places_sparse symbols zeroOffsets base win section g o : zeroOffsets !! g = Some o →
  ∃ p, places symbols zeroOffsets base win section !! g = Some p ∧ u64 (win + p) = u64 (base + o).
Proof.
  intros H. exists (base + o - win). unfold places. rewrite (lookup_union_Some_l _ _ _ (base + o - win)) by (by rewrite lookup_fmap, H).
  split; [done|]. f_equal. lia.
Qed.

Lemma places_symbol symbols zeroOffsets base win section g a : zeroOffsets !! g = None → symbols !! g = Some a →
  ∃ p, places symbols zeroOffsets base win section !! g = Some p ∧ u64 (win + p) = u64 (section + a).
Proof.
  intros Hz H. exists (section + a - win). unfold places. rewrite lookup_union_r by (by rewrite lookup_fmap, Hz).
  rewrite lookup_fmap, H. split; [done|]. f_equal. lia.
Qed.

(** ** Rows against fixups *)

Section rows.
Context (symbols zeroOffsets ids : gmap string Z) (moved : list (global * list fixup)) (objects : list global)
  (base win section : Z) (m : mem).
Context (Hnames : NoDup (g_name <$> objects)) (Hstrip : Forall2 (strippedGlobal ids) objects moved)
  (Hload : loaded moved symbols section m).

Let image : Z := imagePlace symbols (fixupsOf moved).
Let bases : Z * Z * Z := (base, win, u64 (section + image)).
Let d : gmap string Z := places symbols zeroOffsets base win section.

(** The object and the fixup behind a row. *)
Lemma row_fixup kr f :
  f ∈ fixupsOf moved → tableRow symbols zeroOffsets image f = Ok kr →
  ∃ g gf a, g ∈ objects ∧ gf ∈ moved ∧ strippedGlobal ids g gf ∧ f.1.1 = g_name g ∧ f.2 ∈ gf.2 ∧ symbols !! g_name g = Some a ∧
    0 < gr_width kr.1 ∧ gr_width kr.1 = slotWidth f.2.2 ∧ rowAddress bases kr = section + a + f.2.1 ∧
    rowAddress bases kr mod gr_align kr.1 = 0 ∧
    ∀ x, covers f.2 (x - (section + a)) →
      byteOf (rowValue bases kr) (x - rowAddress bases kr) = byteOf (constantValue d ids win f.2.2) (x - rowAddress bases kr).
Proof.
  intros Hf Ht. unfold fixupsOf in Hf. apply list_elem_of_bind in Hf as (gf & Hf & Hgf).
  apply list_elem_of_fmap in Hf as ([o v] & -> & Hov). destruct kr as [k r].
  apply list_elem_of_lookup in Hgf as [i Hi]. destruct (Forall2_lookup_r _ _ _ _ _ Hstrip Hi) as (g & Hg & Hs).
  apply list_elem_of_lookup_2 in Hi. apply list_elem_of_lookup_2 in Hg. destruct (Hs) as (En & Ea & Et & Hst).
  destruct (ld_place _ _ _ _ Hload _ Hi) as (a & Hsym & Hlo & Hhi & Hpow & Hal).
  destruct (tableRow_spec _ _ _ _ _ _ _ _ _ Ht) as (Hw & Hp & H8 & Hga & Hr1 & res & Hres & Hb & Hr2).
  destruct (st_inside _ _ _ _ _ _ (Hst d win) _ Hov) as [Hin0 Hin1]. cbn [fst snd] in *.
  assert (Hsz : sizeOf gf.1 = sizeOf g) by (unfold sizeOf; by rewrite Et). pose proof (pow2_gt0 _ Hp) as Hw0.
  assert (Hbits : 0 <= slotWidth v * 8 <= 64) by lia.
  assert (Haddr : rowAddress bases (k, r) = section + a + o).
  { unfold rowAddress, bases. cbn [fst snd]. rewrite Hr1, Hsym. cbn [default from_option id]. unfold u64, wrap.
    rewrite <-Zplus_mod. replace (section + image + (a - image + o)) with (section + a + o) by lia. apply Z.mod_small. lia. }
  exists g, gf, a. rewrite Haddr, Hw. split_and!; try done; [by rewrite <-En| |].
  - rewrite Hga. destruct (commonAlignment_spec (default 1 (g_align gf.1)) o (pow2_gt0 _ Hpow) Hin0) as (Hc & Hc1 & Hc2).
    apply min_pow2_divides; [done|done|]. pose proof (pow2_gt0 _ Hc). rewrite Zplus_mod, Hc2, Z.add_0_r, Z.mod_mod by lia.
    apply Z.mod_divide in Hc1; [|lia]. pose proof (pow2_gt0 _ Hpow). by eapply mod_divide_trans.
  - intros x Hx. unfold covers in Hx. cbn [fst snd] in Hx. symmetry. apply (byteOf_mod _ _ (slotWidth v * 8)); [lia|lia|].
    rewrite (resolve_affine symbols zeroOffsets d ids image base win section
      (λ g o, places_sparse _ _ _ _ _ g o) (λ g a, places_symbol _ _ _ _ _ g a)
      (slotWidth v * 8) v res Hbits (st_typed _ _ _ _ _ _ (Hst d win) _ Hov) Hres).
    unfold rowValue. cbn [fst snd]. unfold u64. rewrite wrap_mod by lia. rewrite Hr2, Z.add_comm.
    apply mod_add_congr; [|done]. apply (mod_pow2_weaken _ _ _ 64); [lia|]. rewrite relocationBase_counted. by rewrite Hb.
Qed.

(** The stripped form of an object. *)
Lemma object_stripped g : g ∈ objects → ∃ gf a, gf ∈ moved ∧ strippedGlobal ids g gf ∧ symbols !! g_name g = Some a.
Proof.
  intros [i Hi]%list_elem_of_lookup. destruct (Forall2_lookup_l _ _ _ _ _ Hstrip Hi) as (gf & Hgf & Hs).
  apply list_elem_of_lookup_2 in Hgf. destruct (ld_place _ _ _ _ Hload _ Hgf) as (a & Ha & _). destruct (Hs) as (En & _).
  exists gf, a. split_and!; [done|done|by rewrite <-En].
Qed.

(** A fixup that covers a byte of an object is a fixup of that object. *)
Lemma covers_own g gf a h hf b f x :
  g ∈ objects → gf ∈ moved → strippedGlobal ids g gf → symbols !! g_name g = Some a →
  h ∈ objects → hf ∈ moved → strippedGlobal ids h hf → symbols !! g_name h = Some b → f ∈ hf.2 →
  section + a <= x < section + a + sizeOf g → covers f (x - (section + b)) → h = g ∧ a = b.
Proof.
  intros Hg Hgf (En & _ & Et & _) Ha Hh Hhf (En' & _ & Et' & Hst) Hb Hf Hx Hc. unfold covers in Hc.
  destruct (st_inside _ _ _ _ _ _ (Hst ∅ 0) _ Hf) as [H0 H1].
  assert (Hsz : sizeOf gf.1 = sizeOf g) by (unfold sizeOf; by rewrite Et). assert (Hsz' : sizeOf hf.1 = sizeOf h) by (unfold sizeOf; by rewrite Et').
  destruct (decide (g_name g = g_name h)) as [E|Hne].
  - split; [|congruence]. apply list_elem_of_lookup in Hg as [i Hi], Hh as [j Hj].
    assert (i = j); [|congruence]. eapply (NoDup_lookup (g_name <$> objects)); [done| |]; rewrite list_lookup_fmap, ?Hi, ?Hj; [done|].
    simpl. by rewrite E.
  - rewrite <-En in Ha. rewrite <-En' in Hb. destruct (ld_apart _ _ _ _ Hload gf hf a b) as [|]; try done; [congruence|lia|lia].
Qed.
End rows.

(** ** The pass, step by step *)

Record arenaSteps (slice : option Z) (globals : list global) (linked : config) (ids : gmap string Z) (next : Z) (o : arena_object)
    (virtualSize heapBase stackBytes sliceBytes initializedBytes : Z) (st : emission) : Prop := {
  as_zero : foldM placeZero (zeroGlobals globals) (ARENA_PAGE_SIZE, ∅) = Ok (virtualSize, a_zeroOffsets o);
  as_heap : AlignWithin virtualSize 16 addressLimit = Some heapBase;
  as_bank : ∃ bytes, ConfigureSoftwareStack (Some (bytes, slice)) MEMORY_REGION_SIZE = Ok (stackBytes, sliceBytes);
  as_moved : foldM sanitizeGlobal (movedGlobals globals) ([], Emission [] [] ids next) = Ok (a_moved o, st);
  as_functions : a_functions o = FunctionIds st;
  as_count : foldM countInitialized (movedGlobals globals) 0 = Ok initializedBytes;
  as_config : ConfigureObjectLayout linked heapBase sliceBytes (stackBytes / sliceBytes) (pagesFor initializedBytes) MEMORY_ARENA 0
    (Z.max ARENA_PAGE_SIZE sliceBytes) 0 = Ok (a_config o);
  as_pages : let pages := pagesFor (memory_end (a_config o)) + pagesFor initializedBytes + ARENA_SLICE_SLACK_PAGES sliceBytes in
    pages <= MAX_ARENA_PAGES ∧ a_pages o = u32 (Z.max 1 pages);
}.

Lemma arena_steps slice globals linked ids next o :
  runArenaMemory slice globals linked ids next = Ok o →
  ∃ virtualSize heapBase stackBytes sliceBytes initializedBytes st,
    arenaSteps slice globals linked ids next o virtualSize heapBase stackBytes sliceBytes initializedBytes st.
Proof.
  unfold runArenaMemory. cbv zeta. intros H. apply bind_Ok in H as ([vs zo] & Hz & H).
  destruct (AlignWithin vs 16 addressLimit) as [hb|] eqn:Eh; [|done].
  destruct (last _) as [g|] eqn:El; case_bool_decide as Eb; try done. clear Eb El. cbn [fmap option_fmap option_map] in H.
  apply bind_Ok in H as ([sb sl] & Hb & H). apply bind_Ok in H as ([moved st] & Hm & H). apply bind_Ok in H as (ib & Hi & H).
  apply bind_Ok in H as (c & Hc & H). destruct (Z.ltb_spec MAX_ARENA_PAGES
    (pagesFor (memory_end c) + pagesFor ib + ARENA_SLICE_SLACK_PAGES sl)) as [|Hle]; [done|]. injection H as <-.
  exists vs, hb, sb, sl, ib, st. split; cbn; try done. by eexists.
Qed.

(** The objects of the two work lists are distinct. *)
Lemma work_names globals : NoDup (g_name <$> globals) →
  NoDup (g_name <$> (filter (λ g, isArenaGlobal g = true) globals ++ movableGlobals globals)).
Proof.
  intros H. assert (Hs : filter (λ g, isArenaGlobal g = true) globals ++ movableGlobals globals ⊆+ globals).
  { unfold movableGlobals. clear H. induction globals as [|g l IH]; [done|]. rewrite !filter_cons.
    destruct (decide (isArenaGlobal g = true)) as [Ha|Ha], (decide (IsMovableGlobal g = true ∧ isCallStack g = false)) as [Hm|Hm].
    - exfalso. unfold isArenaGlobal in Ha. destruct Hm as [Hm _]. unfold IsMovableGlobal in Hm. rewrite !andb_true_iff in *.
      destruct Ha as [[[_ _] Ha] _], Hm as [[[[_ _] _] Hm] _]. by rewrite Ha in Hm.
    - simpl. by apply submseteq_skip.
    - rewrite <-Permutation_middle. by apply submseteq_skip.
    - by apply submseteq_cons. }
  apply submseteq_Permutation in Hs as [rest Hs]. rewrite Hs, fmap_app in H. by apply NoDup_app in H as [H _].
Qed.

Lemma moved_names globals : NoDup (g_name <$> globals) → NoDup (g_name <$> movedGlobals globals).
Proof. intros H%work_names. eapply sublist_NoDup; [exact H|]. apply fmap_sublist, sublist_filter. Qed.

Lemma zero_names globals : NoDup (g_name <$> globals) → NoDup (g_name <$> zeroGlobals globals).
Proof. intros H%work_names. eapply sublist_NoDup; [exact H|]. apply fmap_sublist, sublist_filter. Qed.

(** ** Running the tables *)

Section restore.
Context {BL : BpfLoop} {BLaws : BpfLoopLaws BL}.
Context (symbols zeroOffsets ids : gmap string Z) (moved : list (global * list fixup)) (objects : list global)
  (groups : list (group * list row)) (base win section : Z) (m : mem).
Context (Hn : NoDup (g_name <$> objects)) (Hall : Forall2 (strippedGlobal ids) objects moved)
  (Hload : loaded moved symbols section m) (Hemit : EmitArenaFixups symbols zeroOffsets (fixupsOf moved) = Ok groups).

Let bases : Z * Z * Z := (base, win, u64 (section + imagePlace symbols (fixupsOf moved))).

Lemma restore_bytes g : g ∈ objects → ∃ a, symbols !! g_name g = Some a ∧ ∀ k, 0 <= k < sizeOf g →
  applyTables bases groups m (section + a + k) =
  constantByte (places symbols zeroOffsets base win section) ids win (g_init g) k.
Proof.
  destruct (EmitArenaFixups_rows _ _ _ _ Hemit) as (Hto & Hfrom & Hsmall). rewrite (applyTables_stores bases) by done.
  intros Hg. destruct (object_stripped _ _ _ _ _ _ Hall Hload g Hg) as (gf & a & Hgf & Hst & Ha). exists a. split; [done|].
  intros k Hk. destruct (Hst) as (En & _ & Et & Hb). specialize (Hb (places symbols zeroOffsets base win section) win).
  apply stores_at.
  - intros x Hx. destruct (Hfrom x Hx) as (f & Hf & Ht). destruct (row_fixup _ _ _ _ _ base win section m Hall Hload _ _ Hf Ht)
      as (h & hf & b & Hh & Hhf & Hhst & _ & Hfh & Hb' & Hw0 & Ewidth & Eaddr & _ & Hval). split; [lia|]. intros Hc.
    unfold rowCovers in Hc. fold bases in Eaddr, Hval. rewrite Ewidth, Eaddr in Hc.
    assert (Hcf : covers f.2 (section + a + k - (section + b))) by (unfold covers; lia).
    assert (h = g ∧ a = b) as [-> <-] by (eapply (covers_own _ _ _ _ _ m Hn Hload g gf a h hf b f.2 (section + a + k)); try done; lia).
    destruct Hhst as (_ & _ & _ & Hb2). specialize (Hb2 (places symbols zeroOffsets base win section) win).
    rewrite (Hval _ Hcf), Eaddr. replace (section + a + k - (section + a)) with k in Hcf by lia.
    rewrite (st_slot _ _ _ _ _ _ Hb2 f.2 k) by done. f_equal. lia.
  - destruct (decide (Exists (λ f, f.1 <= k < f.1 + slotWidth f.2) gf.2)) as [He|He].
    + left. apply Exists_exists in He as (f & Hf & Hc).
      assert (Hin : (g_name gf.1, g_align gf.1, f) ∈ fixupsOf moved).
      { apply list_elem_of_bind. exists gf. split; [|done]. by apply list_elem_of_fmap_2. }
      destruct (Hto _ Hin) as (kr & Ht & Hkr). exists kr. split; [done|].
      destruct (row_fixup _ _ _ _ _ base win section m Hall Hload _ _ Hin Ht)
        as (h & hf & b & _ & _ & _ & Eh & _ & Hb' & _ & Ewidth & Eaddr & _ & _). cbn [fst snd] in *. rewrite <-Eh, En, Ha in Hb'.
      injection Hb' as <-. unfold rowCovers. fold bases in Eaddr. rewrite Ewidth, Eaddr. lia.
    + right. rewrite (ld_bytes _ _ _ _ Hload gf a k) by (rewrite ?En; unfold sizeOf in *; rewrite ?Et; done).
      apply (st_other _ _ _ _ _ _ Hb); [done|]. intros f Hf Hc. apply He, Exists_exists. by exists f.
Qed.

Lemma restore_frame x :
  (∀ g a, g ∈ objects → symbols !! g_name g = Some a → ¬ (section + a <= x < section + a + sizeOf g)) →
  applyTables bases groups m x = m x.
Proof.
  destruct (EmitArenaFixups_rows _ _ _ _ Hemit) as (_ & Hfrom & Hsmall). rewrite (applyTables_stores bases) by done.
  intros Hout. apply stores_at; [|by right]. intros y Hy. destruct (Hfrom y Hy) as (f & Hf & Ht).
  destruct (row_fixup _ _ _ _ _ base win section m Hall Hload _ _ Hf Ht)
    as (h & hf & b & Hh & Hhf & (_ & _ & _ & Hst) & _ & Hfh & Hb' & Hw0 & Ewidth & Eaddr & _ & _). split; [lia|]. intros Hc. exfalso.
  unfold rowCovers in Hc. fold bases in Eaddr. rewrite Ewidth, Eaddr in Hc.
  destruct (st_inside _ _ _ _ _ _ (Hst ∅ 0) _ Hfh) as [H0 H1]. apply (Hout h b Hh Hb'). lia.
Qed.

Lemma restore_aligned t r : t ∈ groups → r ∈ t.2 → rowAddress bases (t.1, r) mod gr_align t.1 = 0.
Proof.
  destruct (EmitArenaFixups_rows _ _ _ _ Hemit) as (_ & Hfrom & _).
  intros Ht Hr. assert (Hy : (t.1, r) ∈ flat groups).
  { apply list_elem_of_bind. exists t. split; [|done]. by apply list_elem_of_fmap_2. }
  destruct (Hfrom _ Hy) as (f & Hf & Hrow). destruct (row_fixup _ _ _ _ _ base win section m Hall Hload _ _ Hf Hrow)
    as (h & hf & b & _ & _ & _ & _ & _ & _ & _ & _ & _ & Hal & _). done.
Qed.
End restore.

(** The objects of an accepted module and their stripped forms. *)
Lemma accepted_stripped slice globals linked ids next o :
  NoDup (g_name <$> globals) → idsOk (Emission [] [] ids next) → Forall (λ g, arenaFormed (g_init g)) (movedGlobals globals) →
  runArenaMemory slice globals linked ids next = Ok o →
  NoDup (g_name <$> movedGlobals globals) ∧ Forall2 (strippedGlobal (a_functions o)) (movedGlobals globals) (a_moved o).
Proof.
  intros Hnd Hids Hw Hrun. destruct (arena_steps _ _ _ _ _ _ Hrun) as (vs & hb & sb & sl & ib & st & Hs).
  destruct (sanitizeGlobals_spec _ _ _ _ _ (as_moved _ _ _ _ _ _ _ _ _ _ _ _ Hs) Hids Hw) as (_ & news & Enews & Hall).
  cbn [app] in Enews. subst news. rewrite (as_functions _ _ _ _ _ _ _ _ _ _ _ _ Hs). split; [by apply moved_names|by apply Hall].
Qed.

(** C30: the tables restore the initialisers.  When the pass accepts a module
    whose initialisers are well formed, and its section is loaded anywhere,
    then for any span [base] and window [win] the tables store into the
    initialised objects exactly the bytes of their initialisers in the running
    program: addresses of sparse objects in the span, of initialised objects
    in the section, of functions in the window, differences and truncations
    of those, and plain data and padding as they were.  No byte outside the
    objects changes, and every store is aligned as declared. *)
Theorem arena_fixups_exact (BL : BpfLoop) (BLaws : BpfLoopLaws BL) (slice : option Z) (globals : list global) (linked : config)
    (ids : gmap string Z) (next : Z) (o : arena_object) (symbols : gmap string Z) (groups : list (group * list row))
    (base win section : Z) (m : mem) :
  NoDup (g_name <$> globals) → idsOk (Emission [] [] ids next) → Forall (λ g, arenaFormed (g_init g)) (movedGlobals globals) →
  runArenaMemory slice globals linked ids next = Ok o →
  EmitArenaFixups symbols (a_zeroOffsets o) (fixupsOf (a_moved o)) = Ok groups → loaded (a_moved o) symbols section m →
  let bases := (base, win, u64 (section + imagePlace symbols (fixupsOf (a_moved o)))) in
  (∀ g, g ∈ movedGlobals globals → ∃ a, symbols !! g_name g = Some a ∧ ∀ k, 0 <= k < sizeOf g →
     applyTables bases groups m (section + a + k) =
     constantByte (places symbols (a_zeroOffsets o) base win section) (a_functions o) win (g_init g) k) ∧
  (∀ x, (∀ g a, g ∈ movedGlobals globals → symbols !! g_name g = Some a → ¬ (section + a <= x < section + a + sizeOf g)) →
     applyTables bases groups m x = m x) ∧
  (∀ t r, t ∈ groups → r ∈ t.2 → rowAddress bases (t.1, r) mod gr_align t.1 = 0).
Proof.
  intros Hnd Hids Hw Hrun Hemit Hload bases. destruct (accepted_stripped _ _ _ _ _ _ Hnd Hids Hw Hrun) as [Hn Hall].
  split_and!.
  - intros g Hg. by apply (restore_bytes symbols (a_zeroOffsets o) (a_functions o) (a_moved o) (movedGlobals globals)).
  - intros x Hx. by eapply (restore_frame symbols (a_zeroOffsets o) (a_functions o) (a_moved o) (movedGlobals globals)).
  - intros t r Ht Hr. by eapply (restore_aligned symbols (a_zeroOffsets o) (a_functions o) (a_moved o) (movedGlobals globals)).
Qed.
End image.
