(* ===== verification/ArenaLayout.v ===== *)
(** * The layout of an arena object

    Sparse objects are disjoint, aligned and between the null page and the
    heap; the bound on the initialised image holds for every order in which
    the assembler may place it; and the compiled record is the host's plan. *)

From Stdlib Require Import ZArith Lia.
From stdpp Require Import base numbers list gmap strings.
From S2P Require Import Prelude Bytes Fiber Host FixedImage FixedImageFacts FixedLayout FixedImageProps Arena ArenaFacts ArenaProps.
Import Fiber Host FixedImage Arena.

Local Open Scope Z_scope.

(** An ABI alignment is at least one. *)
Class ABIAlignLaws (ABI : ABIAlign) : Prop := abi_align_pos t : 1 <= getABITypeAlign t.

Section layout.
Context {DL : DataLayout} {Laws : DataLayoutLaws DL} {ABI : ABIAlign} {ALaws : ABIAlignLaws ABI}.

(** ** Sparse objects *)

Fixpoint sparse (offsets : gmap string Z) (lo : Z) (l : list global) (hi : Z) : Prop :=
  match l with
  | [] => lo <= hi
  | g :: l => ∃ off, offsets !! g_name g = Some off ∧ lo <= off ∧ off mod alignmentOf g = 0 ∧ sparse offsets (off + sizeOf g) l hi
  end.

Lemma sparse_le offsets lo l hi : sparse offsets lo l hi → lo <= hi.
Proof.
  revert lo. induction l as [|g l IH]; intros lo H; [done|]. destruct H as (off & _ & ? & _ & H%IH). pose proof (sizeOf_nonneg g). lia.
Qed.

Lemma sparse_lookup offsets lo l hi g : sparse offsets lo l hi → g ∈ l →
  ∃ off, offsets !! g_name g = Some off ∧ lo <= off ∧ off mod alignmentOf g = 0 ∧ off + sizeOf g <= hi.
Proof.
  revert lo. induction l as [|h l IH]; intros lo H Hg; [by apply not_elem_of_nil in Hg|]. destruct H as (off & Ho & Hlo & Hal & H).
  pose proof (sizeOf_nonneg h). apply elem_of_cons in Hg as [->|Hg].
  - exists off. apply sparse_le in H. split_and!; (done || lia).
  - destruct (IH _ H Hg) as (x & ? & ? & ? & ?). exists x. split_and!; (done || lia).
Qed.

Lemma sparse_apart offsets lo l hi g h : sparse offsets lo l hi → g ∈ l → h ∈ l → g ≠ h → apart offsets g h.
Proof.
  revert lo. induction l as [|x l IH]; intros lo H Hg Hh Hne a b Ha Hb; [by apply not_elem_of_nil in Hg|].
  destruct H as (off & Ho & _ & _ & H). apply elem_of_cons in Hg as [->|Hg], Hh as [->|Hh]; [done| | |by eapply IH].
  - destruct (sparse_lookup _ _ _ _ _ H Hh) as (y & Hy & ? & _). left. replace a with off by congruence. by replace b with y by congruence.
  - destruct (sparse_lookup _ _ _ _ _ H Hg) as (y & Hy & ? & _). right. replace b with off by congruence. by replace a with y by congruence.
Qed.

Lemma placeZeros_spec l vs offs vs' offs' :
  foldM placeZero l (vs, offs) = Ok (vs', offs') → NoDup (g_name <$> l) →
  sparse offs' vs l vs' ∧ (∀ n, n ∉ (g_name <$> l) → offs' !! n = offs !! n) ∧ (vs <= addressLimit → vs' <= addressLimit).
Proof.
  revert vs offs. induction l as [|g l IH]; intros vs offs H Hnd; cbn [foldM] in H.
  { injection H as <- <-. split_and!; cbn; (done || lia). }
  unfold placeZero in H at 1. cbn [fst snd] in H. destruct (AlignWithin vs (alignmentOf g) addressLimit) as [off|] eqn:Ea; [|done].
  cbv zeta in H. fold (sizeOf g) in H. destruct (Z.ltb_spec (addressLimit - off) (sizeOf g)) as [|Hfit]; [done|].
  rewrite fmap_cons in Hnd. apply NoDup_cons in Hnd as [Hng Hnd]. apply IH in H as (Hs & Hkeep & Hlim); [|done].
  destruct (AlignWithin_spec _ _ _ _ Ea) as (_ & Hoff & _ & Hmod). split_and!.
  - exists off. split_and!; [|lia|done|done]. rewrite Hkeep by done. by rewrite lookup_insert_eq.
  - intros n Hn. rewrite fmap_cons, not_elem_of_cons in Hn. rewrite Hkeep by tauto. rewrite lookup_insert_ne; [done|]. intros <-. tauto.
  - intros _. apply Hlim. lia.
Qed.

(** ** The initialised image *)

(** Objects placed one after another, each at its alignment. *)
Definition packed (l : list global) (start : Z) : Z := foldl (λ cur g, alignTo cur (alignmentOf g) + sizeOf g) start l.

Definition room (l : list global) : Z := Zsum (λ g, alignmentOf g - 1 + sizeOf g) l.

Lemma alignmentOf_pos g : 1 <= alignmentOf g.
Proof. unfold alignmentOf. pose proof (abi_align_pos (typeOf (g_init g))). lia. Qed.

Lemma room_nonneg l : 0 <= room l.
Proof. induction l as [|g l IH]; cbn; [done|]. pose proof (alignmentOf_pos g). pose proof (sizeOf_nonneg g). unfold room in IH. lia. Qed.

Lemma room_perm l l' : l ≡ₚ l' → room l = room l'.
Proof. unfold room. induction 1; cbn; lia. Qed.

Lemma packed_room l start : packed l start <= start + room l.
Proof.
  revert start. induction l as [|g l IH]; intros start; cbn; [lia|].
  etransitivity; [apply IH|]. pose proof (alignmentOf_pos g). destruct (alignTo_spec start (alignmentOf g)) as [? _]; [lia|]. unfold room. lia.
Qed.

Lemma countInitialized_room l n n' : foldM countInitialized l n = Ok n' → n' = n + room l ∧ (n <= MaxArenaBytes → n' <= MaxArenaBytes).
Proof.
  revert n. induction l as [|g l IH]; intros n H; cbn [foldM] in H; [injection H as <-; cbn; lia|].
  unfold countInitialized in H at 1. cbv zeta in H. destruct (Z.ltb_spec (MaxArenaBytes - n) (alignmentOf g - 1)); [done|].
  fold (sizeOf g) in H. destruct (Z.ltb_spec (MaxArenaBytes - (n + (alignmentOf g - 1))) (sizeOf g)); [done|].
  apply IH in H as [-> Hle]. unfold room in *. cbn [Zsum]. split; [lia|]. intros _. apply Hle. lia.
Qed.

Lemma pagesFor_spec n : n <= pagesFor n * ARENA_PAGE_SIZE < n + ARENA_PAGE_SIZE.
Proof.
  unfold pagesFor. change ARENA_PAGE_SHIFT with 12. rewrite Z.shiftr_div_pow2 by lia. change ARENA_PAGE_SIZE with 4096. change (2 ^ 12) with 4096.
  pose proof (Z.div_mod (n + 4096 - 1) 4096). pose proof (Z.mod_pos_bound (n + 4096 - 1) 4096). lia.
Qed.

(** The host's checks on the header of an arena record. *)
Lemma arena_header_valid hb sl mf :
  powerOfTwo sl → sl <= MEMORY_REGION_SIZE → ARENA_PAGE_SIZE <= hb < 2 ^ 32 → 0 < mf <= MAX_FIBERS_LIMIT →
  ∀ x y z w pages win, layout_header_valid (Config hb x y z w sl mf pages MEMORY_ARENA 0 ABI_MAGIC ABI_VERSION win) = true.
Proof.
  intros Hp Hsl Hhb Hmf x y z w pages win. pose proof (pow2_gt0 _ Hp). change MEMORY_REGION_SIZE with (2 ^ 22) in Hsl.
  assert (Hl2 : Z.land sl (u32 (sl - 1)) = 0) by (unfold u32; rewrite wrap_small by lia; by apply land_pow2_iff).
  unfold layout_header_valid. cbn [stack_bytes_per_fiber max_fibers heap_base memory_backend direct_memory_regions abi_magic abi_version].
  rewrite Hl2. change MEMORY_REGION_SIZE with (2 ^ 22). change (MEMORY_ARENA =? MEMORY_ARENA) with true. change (MEMORY_ARENA <=? MEMORY_ARENA) with true.
  repeat (apply andb_true_iff; split); rewrite ?negb_true_iff, ?Z.eqb_neq, ?Z.leb_le, ?Z.ltb_lt, ?Z.eqb_eq; (done || lia).
Qed.

(** The record of an accepted module. *)
Lemma arena_configured slice globals linked ids next o vs hb sb sl ib st :
  arenaSteps slice globals linked ids next o vs hb sb sl ib st → linkedWords linked → NoDup (g_name <$> globals) →
  sparse (a_zeroOffsets o) ARENA_PAGE_SIZE (zeroGlobals globals) vs ∧ vs <= hb <= 2 ^ 32 ∧ hb mod 16 = 0 ∧
  powerOfTwo sl ∧ sl <= MEMORY_REGION_SIZE ∧ ib = room (movedGlobals globals) ∧ 0 <= pagesFor ib <= MAX_ARENA_PAGES ∧
  ∃ base mf, a_config o = Config hb (heap_bytes linked) base (base + fiber_count linked * sl) (fiber_count linked) sl mf
              (pagesFor ib) MEMORY_ARENA 0 ABI_MAGIC ABI_VERSION 0 ∧
    0 < fiber_count linked <= mf ∧ max_fibers linked = mf ∧
    hb + heap_bytes linked <= base < Z.max (hb + heap_bytes linked) 0 + Z.max ARENA_PAGE_SIZE sl ∧ base mod Z.max ARENA_PAGE_SIZE sl = 0 ∧
    base + fiber_count linked * sl <= 2 ^ 32 - 1.
Proof.
  intros Hs Hw Hnd. destruct (placeZeros_spec _ _ _ _ _ (as_zero _ _ _ _ _ _ _ _ _ _ _ _ Hs) (zero_names _ Hnd)) as (Hsp & _ & _).
  destruct (AlignWithin_spec _ _ _ _ (as_heap _ _ _ _ _ _ _ _ _ _ _ _ Hs)) as (_ & Hhb & _ & Hm).
  destruct (as_bank _ _ _ _ _ _ _ _ _ _ _ _ Hs) as [bytes Hbank]. unfold ConfigureSoftwareStack in Hbank. cbv zeta in Hbank.
  destruct (_ || _) eqn:Eb in Hbank; [done|]. injection Hbank as -> <-. bool_to_prop.
  assert (Hp : powerOfTwo (default 0 slice)) by (by apply isPowerOf2_iff).
  destruct (countInitialized_room _ _ _ (as_count _ _ _ _ _ _ _ _ _ _ _ _ Hs)) as [Hib Hmax]. rewrite Z.add_0_l in Hib.
  pose proof (room_nonneg (movedGlobals globals)) as Hr. pose proof (pagesFor_spec ib) as Hpg. pose proof (sparse_le _ _ _ _ Hsp).
  change addressLimit with (2 ^ 32) in *. change MaxArenaBytes with (2 ^ 32) in Hmax. change ARENA_PAGE_SIZE with 4096 in *.
  change MAX_ARENA_PAGES with (2 ^ 20).
  split_and!; try done; try lia.
  pose proof (as_config _ _ _ _ _ _ _ _ _ _ _ _ Hs) as Hc. change ARENA_PAGE_SIZE with 4096 in *.
  assert (Hpm : powerOfTwo (Z.max 4096 (default 0 slice))) by (apply pow2_max; [by exists 12|done]).
  apply ConfigureObjectLayout_record in Hc as (base & -> & Hf & Hmf & Hb & Hm' & He); try done; try (unfold MEMORY_ARENA; lia); [|by apply pow2_gt0].
  exists base, (sb / default 0 slice). split_and!; try done; try lia.
Qed.

(** C23: the layout of an arena object is sound.  Every zero object, wherever
    it comes from, has its own aligned place between the null page and the
    heap and no two overlap; the heap is 16-byte aligned and followed by
    slice-aligned fiber stacks that end below 4 GiB; in whatever order the
    assembler places the initialised objects, they fit the image pages of the
    record; and the host's planner makes exactly this record of the default
    request, with exactly the arena pages the pass declared. *)
Theorem arena_layout_sound (slice : option Z) (globals : list global) (linked : config) (ids : gmap string Z) (next : Z)
    (o : arena_object) :
  NoDup (g_name <$> globals) → linkedWords linked → max_fibers linked <= MAX_FIBERS_LIMIT →
  runArenaMemory slice globals linked ids next = Ok o →
  (∀ g, g ∈ zeroGlobals globals → ∃ off, a_zeroOffsets o !! g_name g = Some off ∧ ARENA_PAGE_SIZE <= off ∧
     off mod alignmentOf g = 0 ∧ off + sizeOf g <= heap_base (a_config o)) ∧
  (∀ g h, g ∈ zeroGlobals globals → h ∈ zeroGlobals globals → g ≠ h → apart (a_zeroOffsets o) g h) ∧
  heap_base (a_config o) mod 16 = 0 ∧
  heap_base (a_config o) + heap_bytes (a_config o) <= stack_base (a_config o) ∧
  stack_base (a_config o) mod Z.max ARENA_PAGE_SIZE (stack_bytes_per_fiber (a_config o)) = 0 ∧
  memory_end (a_config o) = stack_base (a_config o) + fiber_count (a_config o) * stack_bytes_per_fiber (a_config o) ∧
  memory_end (a_config o) < 2 ^ 32 ∧
  (∀ l, l ≡ₚ movedGlobals globals → packed l 0 <= arena_image_pages (a_config o) * ARENA_PAGE_SIZE) ∧
  plan (a_config o) CONFIG_SIZE (Requested (fiber_count linked) (heap_bytes linked)) = Ok (a_config o, a_pages o).
Proof.
  intros Hnd Hw Hmax H. destruct (arena_steps _ _ _ _ _ _ H) as (vs & hb & sb & sl & ib & st & Hs).
  destruct (arena_configured _ _ _ _ _ _ _ _ _ _ _ _ Hs Hw Hnd)
    as (Hsp & Hhb & Hm & Hp & Hsl & Hib & Hpg & base & mf & Ec & Hf & Hmf & Hb & Hal & Hend).
  destruct (as_pages _ _ _ _ _ _ _ _ _ _ _ _ Hs) as [Hle Ha]. rewrite Ec in *. cbn [memory_end] in Hle, Ha.
  cbn [heap_base heap_bytes stack_base memory_end fiber_count stack_bytes_per_fiber arena_image_pages].
  pose proof (pow2_gt0 _ Hp) as Hsl0. pose proof (sparse_le _ _ _ _ Hsp) as Hvs. destruct Hw as (Hh & _ & _).
  assert (Hn : 0 < fiber_count linked * sl) by nia. pose proof (pagesFor_spec (base + fiber_count linked * sl)) as Hpe.
  split_and!; try done; try lia.
  - intros g Hg. destruct (sparse_lookup _ _ _ _ _ Hsp Hg) as (off & ? & ? & ? & ?). exists off. split_and!; (done || lia).
  - intros g h Hg Hh' Hne. by eapply sparse_apart.
  - intros l Hl. pose proof (packed_room l 0). rewrite (room_perm _ _ Hl) in *. pose proof (pagesFor_spec ib). lia.
  - rewrite (plan_record _ _ _ _ _ _ _ _ _ 0 (Z.max ARENA_PAGE_SIZE sl)); try done; try lia.
    + unfold backendEntries. cbn [memory_backend arena_image_pages stack_bytes_per_fiber]. change (MEMORY_ARENA =? MEMORY_ARENA) with true. cbv iota zeta.
      fold (pagesFor (base + fiber_count linked * sl)). change ARENA_PAGE_SIZE with 4096 in *.
      assert (0 <= ARENA_SLICE_SLACK_PAGES sl).
      { unfold ARENA_SLICE_SLACK_PAGES. change ARENA_PAGE_SIZE with 4096. destruct (Z.ltb_spec 4096 sl); [|lia].
        assert (1 <= sl / 4096) by (apply Z.div_le_lower_bound; lia). lia. }
      destruct (Z.eqb_spec (pagesFor ib + pagesFor (base + fiber_count linked * sl) + ARENA_SLICE_SLACK_PAGES sl) 0); [lia|].
      destruct (Z.ltb_spec MAX_ARENA_PAGES (pagesFor ib + pagesFor (base + fiber_count linked * sl) + ARENA_SLICE_SLACK_PAGES sl)); [lia|].
      cbn [orb]. rewrite Ha. do 3 f_equal. lia.
    + apply arena_header_valid; try done; lia.
    + unfold stackAlignment. cbn [memory_backend stack_bytes_per_fiber]. change (MEMORY_ARENA =? MEMORY_ARENA) with true. cbv iota.
      destruct (Z.ltb_spec ARENA_PAGE_SIZE sl); lia.
    + apply pow2_max; [by exists 12|done].
Qed.
End layout.
