(* ===== verification/ArenaInit.v ===== *)
(** * The initialiser program of an arena object ([src/src/pass/memory.cpp])

    [ProduceInitGlobalsFunction] generates a program that several processors
    may run at once: the word [ready] goes from 0 (untouched) to 1 (one caller
    is initialising) to 2 (published), or back to 0 when the kernel has no
    pages.  Every application entry starts with a test of that word.  Here the
    generated code is a step function of one thread on shared state, one
    access of shared state per step, and the system is every interleaving, in
    sequentially consistent order (the entries' test is a plain load). *)

From Stdlib Require Import ZArith Lia.
From stdpp Require Import base numbers list gmap strings relations.
From S2P Require Import Prelude Bytes Fiber Host FixedImage Arena.

Module ArenaInit.
Import Fiber Host FixedImage Arena.
Local Open Scope Z_scope.

Definition EAGAIN : Z := 11.
Definition ENOMEM : Z := 12.

(** ** Application entries *)

Inductive return_type := ReturnsVoid | ReturnsInteger (bits : Z) | ReturnsOther.

(** What an entry returns while the object is not initialised. *)
Definition entryFailure (section : string) (returns : return_type) : option Z :=
  match returns with
  | ReturnsVoid => None
  | ReturnsInteger bits => Some (wrap bits (if String.prefix "syscall" section then - EAGAIN else 0))
  | ReturnsOther => Some 0
  end.

(** ** Threads *)

(** The blocks of the generated function, and an application entry. *)
Inductive pc :=
| Entry
| Claim
| Contested (previous : Z)
| Allocate
| Initialize (allocation : Z)
| Fixing (base : Z) (rest : list (group * list row))
| Busy
| Failed
| Returned (status : Z)
| Prologue (section : string) (returns : return_type)
| Body
| Refused (value : option Z).

(** [bpf_capsule_arena_control], the arena's memory and the page spans the
    kernel handed out, as (address, pages). *)
Record shared := Shared { ready : Z; virtual_base : Z; memory : mem; spans : list (Z * Z) }.

Section program.
Context {BL : BpfLoop}.
(** The slice size the pass compiled in, [memory_end] and [memory_view_base] of
    the frozen record, the image's address and the generated tables. *)
Context (slice memoryEnd win image : Z) (groups : list (group * list row)).

Definition selectedPages : Z := u32 (pagesFor memoryEnd + ARENA_SLICE_SLACK_PAGES slice).

(** The published base: the allocation, rounded up to a slice. *)
Definition publishedBase (allocation : Z) : Z :=
  if ARENA_SLICE_SLACK_PAGES slice =? 0 then allocation else Z.ldiff (u64 (allocation + (slice - 1))) (slice - 1).

(** One step of a thread; [answer] is what [bpf_arena_alloc_pages] returns. *)
Definition act (answer : Z) (p : pc) (s : shared) : option (shared * pc) :=
  match p with
  | Entry => Some (s, if ready s =? 2 then Returned 0 else Claim)
  | Claim =>
      if ready s =? 0 then Some (Shared 1 (virtual_base s) (memory s) (spans s), Allocate)
      else Some (s, Contested (ready s))
  | Contested previous => Some (s, if previous =? 2 then Returned 0 else Busy)
  | Allocate =>
      if answer =? 0 then Some (s, Failed)
      else Some (Shared (ready s) (virtual_base s) (memory s) ((answer, selectedPages) :: spans s), Initialize answer)
  | Initialize allocation =>
      Some (Shared (ready s) (publishedBase allocation) (memory s) (spans s), Fixing (publishedBase allocation) groups)
  | Fixing base (t :: rest) =>
      Some (Shared (ready s) (virtual_base s) (applyTable (base, win, image) t (memory s)) (spans s), Fixing base rest)
  | Fixing base [] => Some (Shared 2 (virtual_base s) (memory s) (spans s), Returned 0)
  | Busy => Some (s, Returned (- EAGAIN))
  | Failed => Some (Shared 0 (virtual_base s) (memory s) (spans s), Returned (- ENOMEM))
  | Prologue section returns => Some (s, if ready s =? 2 then Body else Refused (entryFailure section returns))
  | Returned _ | Body | Refused _ => None
  end.

(** ** Interleavings *)

Definition system : Type := shared * list pc.

(** The answers the kernel may give to a request for [n] pages. *)
Context (allocates : Z → Z → Prop).

(** Any thread moves, or the code behind an opened entry writes memory. *)
Inductive step : system → system → Prop :=
| step_thread s ts i p answer s' p' :
    ts !! i = Some p → (p = Allocate → allocates selectedPages answer) → act answer p s = Some (s', p') →
    step (s, ts) (s', <[i := p']> ts)
| step_body s ts i m :
    ts !! i = Some Body → step (s, ts) (Shared (ready s) (virtual_base s) m (spans s), ts).

(** A loaded object and the threads that arrive at it. *)
Definition starting (p : pc) : Prop := match p with Entry | Prologue _ _ => True | _ => False end.

Definition boot (m : mem) (ts : list pc) : system := (Shared 0 0 m [], ts).
End program.
End ArenaInit.
