(* ===== verification/ArenaInitProps.v ===== *)
(** * One initialiser, and nobody before it

    The phases of [ready] under every interleaving ([phase]), kept by every
    step ([phase_step]); the published base lies in the kernel's span. *)

From Stdlib Require Import ZArith Lia.
From stdpp Require Import base numbers list gmap strings relations.
From S2P Require Import Prelude Bytes Fiber Host FixedImage FixedImageFacts FixedLayout FixedImageProps Arena ArenaFacts ArenaTables ArenaProps ArenaLayout ArenaInit.
Import Fiber Host FixedImage Arena ArenaInit.

Local Open Scope Z_scope.

(** What the kernel documents: a page-aligned address of [n] mapped pages, or
    null. *)
Class AllocLaws (allocates : Z → Z → Prop) : Prop :=
  alloc_span n a : allocates n a → a ≠ 0 → 0 < a ∧ a mod ARENA_PAGE_SIZE = 0 ∧ a + n * ARENA_PAGE_SIZE <= 2 ^ 64.

Section init.
Context {BL : BpfLoop} (slice memoryEnd win image : Z) (groups : list (group * list row)).
Context (allocates : Z → Z → Prop) {ALaws : AllocLaws allocates} (m0 : mem).

Notation pages := (selectedPages slice memoryEnd).
Notation act := (ArenaInit.act slice memoryEnd win image groups).
Notation step := (ArenaInit.step slice memoryEnd win image groups allocates).

(** ** The published base *)

Lemma selectedPages_spec : powerOfTwo slice → slice <= MEMORY_REGION_SIZE → 0 < memoryEnd < 2 ^ 32 →
  pages = pagesFor memoryEnd + ARENA_SLICE_SLACK_PAGES slice ∧ memoryEnd <= pagesFor memoryEnd * ARENA_PAGE_SIZE.
Proof.
  intros Hp Hs He. pose proof (pow2_gt0 _ Hp). pose proof (pagesFor_spec memoryEnd) as Hpg. change ARENA_PAGE_SIZE with 4096 in *.
  change MEMORY_REGION_SIZE with (2 ^ 22) in Hs. split; [|lia]. unfold selectedPages, u32. apply wrap_small.
  unfold ARENA_SLICE_SLACK_PAGES. change ARENA_PAGE_SIZE with 4096. destruct (Z.ltb_spec 4096 slice); [|lia].
  assert (slice / 4096 <= 2 ^ 10) by (apply Z.div_le_upper_bound; lia). assert (1 <= slice / 4096) by (apply Z.div_le_lower_bound; lia). lia.
Qed.

(** The base is slice aligned and the whole memory fits the span behind it. *)
Lemma publishedBase_spec a :
  powerOfTwo slice → slice <= MEMORY_REGION_SIZE → 0 < memoryEnd < 2 ^ 32 → allocates pages a → a ≠ 0 →
  publishedBase slice a mod slice = 0 ∧ a <= publishedBase slice a ∧
  publishedBase slice a + memoryEnd <= a + pages * ARENA_PAGE_SIZE.
Proof.
  intros Hp Hs He Ha Hne. destruct (selectedPages_spec Hp Hs He) as [Epg Hpg]. destruct (alloc_span _ _ Ha Hne) as (H0 & Hal & Hend).
  pose proof (pow2_gt0 _ Hp) as Hs0. rewrite Epg in *. unfold publishedBase, ARENA_SLICE_SLACK_PAGES in *.
  change ARENA_PAGE_SIZE with 4096 in *. assert (H12 : powerOfTwo 4096) by (by exists 12).
  destruct (Z.ltb_spec 4096 slice) as [Hbig|Hsmall].
  - assert (Hd : (4096 | slice)) by (apply pow2_divide; [done|done|lia]). destruct Hd as [q Hq]. rewrite Hq in *.
    rewrite Z.div_mul in * by lia. destruct (Z.eqb_spec (q - 1) 0); [lia|].
    change MEMORY_REGION_SIZE with (2 ^ 22) in Hs. pose proof (pagesFor_spec memoryEnd). change ARENA_PAGE_SIZE with 4096 in *.
    rewrite Z.add_sub_assoc. unfold u64. rewrite wrap_small by lia.
    destruct (alignTo_spec a (q * 4096)) as [Hup Hm]; [lia|]. rewrite (stack_base_ldiff a (alignTo a (q * 4096))) by done.
    set (b := alignTo a (q * 4096)) in *. split_and!; [done|lia|].
    assert (Hb : b mod 4096 = 0) by (eapply (mod_divide_trans b 4096 (q * 4096)); [lia|by exists q|done|lia]).
    apply Z.div_exact in Hb; [|lia]. apply Z.div_exact in Hal; [|lia]. lia.
  - rewrite Z.eqb_refl. split_and!; [|lia|lia]. apply (mod_divide_trans a slice 4096); [lia|apply pow2_divide; (done || lia)|done|lia].
Qed.

(** ** Phases *)

(** The threads that hold the initialisation. *)
Definition owner (p : pc) : bool := match p with Allocate | Initialize _ | Fixing _ _ | Failed => true | _ => false end.

(** The kernel's span behind a base. *)
Definition granted (a : Z) (s : shared) : Prop := spans s = [(a, pages)] ∧ allocates pages a ∧ a ≠ 0.

(** What the owner has done so far. *)
Definition progress (p : pc) (s : shared) : Prop :=
  match p with
  | Allocate | Failed => memory s = m0 ∧ spans s = []
  | Initialize a => memory s = m0 ∧ granted a s
  | Fixing base rest => ∃ a done, granted a s ∧ base = publishedBase slice a ∧ virtual_base s = base ∧ groups = done ++ rest ∧
      memory s = applyTables (base, win, image) done m0
  | _ => False
  end.

(** A thread that was told, or acts as if, the object is initialised. *)
Definition admitted (p : pc) : Prop := p = Body ∨ p = Returned 0 ∨ p = Contested 2.

Inductive phase (s : shared) (ts : list pc) : Prop :=
| Untouched : ready s = 0 → memory s = m0 → spans s = [] → (∀ i p, ts !! i = Some p → owner p = false) → phase s ts
| Initializing i p : ready s = 1 → ts !! i = Some p → progress p s → (∀ j q, ts !! j = Some q → owner q = true → j = i) → phase s ts
| Published a : ready s = 2 → granted a s → virtual_base s = publishedBase slice a →
    (∀ i p, ts !! i = Some p → owner p = false) → phase s ts.

Record invariant (x : system) : Prop := {
  inv_phase : phase x.1 x.2;
  inv_admitted i p : x.2 !! i = Some p → admitted p → ready x.1 = 2;
}.

Lemma boot_invariant ts : Forall starting ts → invariant (boot m0 ts).
Proof.
  intros Hs. assert (Hp : ∀ i p, ts !! i = Some p → owner p = false ∧ ¬ admitted p).
  { intros i p Hi. rewrite Forall_lookup in Hs. specialize (Hs i p Hi). unfold admitted. destruct p; try done; (split; [done|naive_solver]). }
  split.
  - apply Untouched; try done. intros i p Hi. by apply (Hp i p).
  - intros i p Hi Ha. by destruct (Hp i p Hi).
Qed.

(** ** Steps *)

Lemma progress_owner p s : progress p s → owner p = true.
Proof. by destruct p. Qed.

Lemma moved_thread (ts : list pc) i p' j q : <[i := p']> ts !! j = Some q → (j = i ∧ q = p') ∨ (j ≠ i ∧ ts !! j = Some q).
Proof. intros [(-> & -> & _)|[Hne Hj]]%list_lookup_insert_Some; [by left|right; done]. Qed.

(** A thread outside the initialisation moves without touching anything. *)
Lemma phase_quiet s ts i p p' : ts !! i = Some p → owner p = false → owner p' = false → phase s ts → phase s (<[i := p']> ts).
Proof.
  intros Hi Ho Ho' [H0 Hm Hs Hno|j q H1 Hj Hq Hu|a H2 Hg Hv Hno].
  - apply Untouched; try done. intros k r [[-> ->]|[_ Hk]]%moved_thread; [done|by apply (Hno k)].
  - apply (Initializing _ _ j q); try done.
    + rewrite list_lookup_insert_ne; [done|]. intros ->. apply progress_owner in Hq. congruence.
    + intros k r [[-> ->]|[_ Hk]]%moved_thread Hr; [congruence|by apply (Hu k r)].
  - apply (Published _ _ a); try done. intros k r [[-> ->]|[_ Hk]]%moved_thread; [done|by apply (Hno k)].
Qed.

(** Only the one initialiser is past the claim. *)
Lemma phase_owner s ts i p : phase s ts → ts !! i = Some p → owner p = true →
  ready s = 1 ∧ progress p s ∧ ∀ j q, ts !! j = Some q → owner q = true → j = i.
Proof.
  intros [H0 Hm Hs Hno|j q H1 Hj Hq Hu|a H2 Hg Hv Hno] Hi Ho.
  - apply Hno in Hi. congruence.
  - assert (i = j) as -> by (by apply (Hu i p)). split_and!; [done|congruence|done].
  - apply Hno in Hi. congruence.
Qed.

(** The initialiser goes on. *)
Lemma phase_go s' (ts : list pc) i p p' : ts !! i = Some p → (∀ j q, ts !! j = Some q → owner q = true → j = i) →
  ready s' = 1 → progress p' s' → phase s' (<[i := p']> ts).
Proof.
  intros Hi Hu Hr Hp. apply (Initializing _ _ i p'); [done| |done|].
  - apply list_lookup_insert_eq. by eapply lookup_lt_Some.
  - intros j q [[-> ->]|[_ Hj]]%moved_thread Hq; [done|by apply (Hu j q)].
Qed.

(** The initialiser leaves: nobody is past the claim. *)
Lemma nobody_left (ts : list pc) i p' : (∀ j q, ts !! j = Some q → owner q = true → j = i) → owner p' = false →
  ∀ j q, <[i := p']> ts !! j = Some q → owner q = false.
Proof.
  intros Hu Ho j q [[-> ->]|[Hne Hj]]%moved_thread; [done|]. destruct (owner q) eqn:E; [|done]. by apply (Hu j q) in E.
Qed.

Lemma phase_thread s ts i p answer s' p' :
  phase s ts → ts !! i = Some p → (p = Allocate → allocates pages answer) → act answer p s = Some (s', p') → phase s' (<[i := p']> ts).
Proof.
  intros Hph Hi Hal Hact. destruct (owner p) eqn:Ho.
  - destruct (phase_owner _ _ _ _ Hph Hi Ho) as (Hr & Hp & Hu). destruct p as [| | | |a|base rest| | | | | |]; try done; cbn in Hact, Hp.
    + destruct (Z.eqb_spec answer 0) as [->|Hne]; injection Hact as <- <-; (eapply phase_go; [exact Hi|exact Hu|done|]); [done|].
      destruct Hp as [Hm Hs]. unfold progress, granted. cbn. rewrite Hs. auto.
    + injection Hact as <- <-. eapply phase_go; [exact Hi|exact Hu|done|]. destruct Hp as [Hm Hg]. exists a, []. by rewrite <-Hm.
    + destruct Hp as (a & done & Hg & Hb & Hv & Hd & Hm). destruct rest as [|t rest]; injection Hact as <- <-.
      * apply (Published _ _ a); cbn; try done; [congruence|by eapply nobody_left].
      * eapply phase_go; [exact Hi|exact Hu|done|]. exists a, (done ++ [t]). split_and!; try done; [by rewrite <-app_assoc|].
        cbn. unfold applyTables. rewrite foldl_app, Hm. done.
    + injection Hact as <- <-. destruct Hp as [Hm Hs]. apply Untouched; cbn; try done. by eapply nobody_left.
  - destruct p; try done; cbn in Hact; try (injection Hact as <- <-; eapply phase_quiet; try done; by destruct (_ =? 2)).
    destruct (Z.eqb_spec (ready s) 0) as [Hr|Hr]; injection Hact as <- <-; [|by eapply phase_quiet].
    destruct Hph as [_ Hm Hs Hno|j q H1 _ _ _|a H2 _ _ _]; [|congruence|congruence].
    eapply phase_go; [exact Hi| |done|done]. intros j q Hj Hq. apply Hno in Hj. congruence.
Qed.

(** Once published, always published. *)
Lemma thread_stable s ts i p answer s' p' : phase s ts → ts !! i = Some p → ready s = 2 → act answer p s = Some (s', p') → s' = s.
Proof.
  intros Hph Hi Hr Hact. destruct (owner p) eqn:Ho; [apply (phase_owner _ _ _ _ Hph Hi) in Ho as [? _]; congruence|].
  destruct p; try done; cbn in Hact; try (by injection Hact as <- <-). rewrite Hr in Hact. by injection Hact as <- <-.
Qed.

Lemma invariant_step x y : invariant x → step x y → invariant y.
Proof.
  intros [Hph Had] Hs. destruct Hs as [s ts i p answer s' p' Hi Hal Hact|s ts i m Hi]; cbn [fst snd] in *.
  - split; cbn [fst snd]; [by eapply phase_thread|]. intros j q Hj Hq.
    assert (Hst : ready s = 2 → ready s' = 2) by (intros Hr; by rewrite (thread_stable _ _ _ _ _ _ _ Hph Hi Hr Hact)).
    apply moved_thread in Hj as [[-> ->]|[_ Hj]]; [|by apply Hst, (Had j q)].
    unfold admitted in Hq. destruct p; try done; cbn in Hact.
    + injection Hact as <- <-. destruct (Z.eqb_spec (ready s) 2); [done|naive_solver].
    + destruct (Z.eqb_spec (ready s) 0); injection Hact as <- <-; [naive_solver|]. by destruct Hq as [|[|[=]]].
    + injection Hact as <- <-. destruct (Z.eqb_spec previous 2) as [->|]; [|naive_solver]. apply (Had i (Contested 2)); [done|by right; right].
    + destruct (answer =? 0); injection Hact as <- <-; naive_solver.
    + injection Hact as <- <-. naive_solver.
    + destruct rest; injection Hact as <- <-; [done|naive_solver].
    + injection Hact as <- <-. unfold EAGAIN in Hq. naive_solver.
    + injection Hact as <- <-. unfold ENOMEM in Hq. naive_solver.
    + injection Hact as <- <-. destruct (Z.eqb_spec (ready s) 2); [done|naive_solver].
  - assert (Hr : ready s = 2) by (apply (Had i Body); [done|by left]). split; cbn [fst snd ready]; [|done].
    destruct Hph as [|j q|a _ Hg Hv Hno]; [congruence|congruence|]. by apply (Published _ _ a).
Qed.

Lemma invariant_steps x y : invariant x → rtc step x y → invariant y.
Proof. intros H Hs. induction Hs as [|x y z Hxy _ IH]; [done|]. apply IH. by eapply invariant_step. Qed.

(** What publication is preceded by. *)
Lemma published_image x y : invariant x → step x y → ready x.1 ≠ 2 → ready y.1 = 2 →
  ∃ a, granted a y.1 ∧ virtual_base y.1 = publishedBase slice a ∧
       memory y.1 = applyTables (virtual_base y.1, win, image) groups m0.
Proof.
  intros [Hph _] Hs Hx Hy. destruct Hs as [s ts i p answer s' p' Hi Hal Hact|s ts i m Hi]; cbn [fst snd ready] in *; [|done].
  destruct p as [| | | |a|base rest| | | | | |]; cbn in Hact; try done; try (injection Hact as <- <-; done).
  - destruct (ready s =? 0); by injection Hact as <- <-.
  - destruct (answer =? 0); by injection Hact as <- <-.
  - destruct rest as [|t rest]; [|by injection Hact as <- <-]. injection Hact as <- <-.
    destruct (phase_owner _ _ _ _ Hph Hi eq_refl) as (_ & (a & done & Hg & Hb & Hv & Hd & Hm) & _).
    rewrite app_nil_r in Hd. subst done. exists a. cbn. split_and!; [done|congruence|]. by rewrite Hv.
Qed.

Lemma published_stable x y : invariant x → ready x.1 = 2 → rtc step x y →
  ready y.1 = 2 ∧ virtual_base y.1 = virtual_base x.1 ∧ spans y.1 = spans x.1.
Proof.
  intros Hi Hr Hs. induction Hs as [|x y z Hxy _ IH]; [done|]. assert (Hiy := invariant_step _ _ Hi Hxy).
  assert (E : ready y.1 = 2 ∧ virtual_base y.1 = virtual_base x.1 ∧ spans y.1 = spans x.1).
  { destruct Hxy as [s ts i p answer s' p' Hp _ Hact|s ts i m Hp]; [|done]. cbn [fst snd] in *.
    by rewrite (thread_stable _ _ _ _ _ _ _ (inv_phase _ Hi) Hp Hr Hact). }
  destruct E as (E1 & <- & <-). by apply IH.
Qed.

Lemma phase_spans s ts : phase s ts → (length (spans s) <= 1)%nat.
Proof.
  intros [_ _ -> _|i p _ _ Hp _|a _ (-> & _) _ _]; [simpl; lia| |done].
  destruct p; try done; cbn in Hp; [by destruct Hp as [_ ->]; simpl; lia|by destruct Hp as [_ (-> & _)]| |by destruct Hp as [_ ->]; simpl; lia].
  destruct Hp as (a & done & (-> & _) & _). done.
Qed.

(** ** Progress *)

Lemma thread_runs s ts i p answer s' p' z :
  ts !! i = Some p → (p = Allocate → allocates pages answer) → act answer p s = Some (s', p') →
  rtc step (s', <[i := p']> ts) z → rtc step (s, ts) z.
Proof. intros Hi Ha Hact. eapply rtc_l. by econstructor. Qed.

Lemma fixing_finishes base rest s ts i : ts !! i = Some (Fixing base rest) →
  ∃ y, rtc step (s, ts) y ∧ y.2 !! i = Some (Returned 0) ∧ ready y.1 = 2.
Proof.
  revert s ts. induction rest as [|t rest IH]; intros s ts Hi; pose proof (lookup_lt_Some _ _ _ Hi) as Hlt.
  - eexists. split; [eapply (thread_runs _ _ _ _ 0); [exact Hi|done|done|apply rtc_refl]|]. cbn. split; [|done].
    by apply list_lookup_insert_eq.
  - edestruct (IH (Shared (ready s) (virtual_base s) (applyTable (base, win, image) t (memory s)) (spans s)) (<[i := Fixing base rest]> ts))
      as (y & Hy & H1 & H2); [by apply list_lookup_insert_eq|].
    exists y. split; [|done]. eapply (thread_runs _ _ _ _ 0); [exact Hi|done|done|exact Hy].
Qed.

(** A caller that finds the object untouched, and gets its pages, initialises it. *)
Lemma caller_initializes s ts i a : ready s = 0 → ts !! i = Some Entry → allocates pages a → a ≠ 0 →
  ∃ y, rtc step (s, ts) y ∧ y.2 !! i = Some (Returned 0) ∧ ready y.1 = 2.
Proof.
  intros Hr Hi Ha Hne. pose proof (lookup_lt_Some _ _ _ Hi) as Hlt.
  set (s3 := Shared 1 (publishedBase slice a) (memory s) ((a, pages) :: spans s)).
  destruct (fixing_finishes (publishedBase slice a) groups s3 (<[i := Fixing (publishedBase slice a) groups]> ts) i) as (y & Hy & H1 & H2);
    [by apply list_lookup_insert_eq|]. exists y. split; [|done].
  eapply (thread_runs _ _ _ _ a _ Claim); [exact Hi|done|by cbn; rewrite Hr|].
  eapply (thread_runs _ _ i Claim a _ Allocate); [by apply list_lookup_insert_eq|done|by cbn; rewrite Hr|]. rewrite list_insert_insert_eq.
  eapply (thread_runs _ _ i Allocate a _ (Initialize a)); [by apply list_lookup_insert_eq|done| |].
  { cbn. by rewrite (proj2 (Z.eqb_neq a 0) Hne). }
  rewrite list_insert_insert_eq.
  eapply (thread_runs _ _ i (Initialize a) a); [by apply list_lookup_insert_eq|done|done|]. by rewrite list_insert_insert_eq.
Qed.
End init.

(** C31: an arena object is initialised once and before anything runs.  For an
    accepted module whose section is loaded, under every interleaving of any
    number of initialiser calls and application entries: the kernel is asked
    for at most one span that is kept; no call reports success and no entry
    runs its body before publication; publication is final; the step that
    publishes finds every initialised object holding its initialiser at the
    published base, which is slice aligned and followed, inside the span, by
    the whole configured memory; and a caller that finds the object untouched
    can finish the initialisation whenever the kernel has pages. *)
Theorem arena_initialized_once (DL : DataLayout) (Laws : DataLayoutLaws DL) (ABI : ABIAlign) (ABILaws : ABIAlignLaws ABI)
    (BL : BpfLoop) (BLaws : BpfLoopLaws BL) (allocates : Z → Z → Prop) (KLaws : AllocLaws allocates)
    (slice : option Z) (globals : list global) (linked : config) (ids : gmap string Z) (next : Z) (o : arena_object)
    (symbols : gmap string Z) (groups : list (group * list row)) (memoryEnd win section : Z) (m : mem) (ts : list pc) (x : system) :
  NoDup (g_name <$> globals) → linkedWords linked → idsOk (Emission [] [] ids next) →
  Forall (λ g, arenaFormed (g_init g)) (movedGlobals globals) →
  runArenaMemory slice globals linked ids next = Ok o →
  EmitArenaFixups symbols (a_zeroOffsets o) (fixupsOf (a_moved o)) = Ok groups → loaded (a_moved o) symbols section m →
  0 < memoryEnd < 2 ^ 32 → Forall starting ts →
  let sl := stack_bytes_per_fiber (a_config o) in
  let step := ArenaInit.step sl memoryEnd win (u64 (section + imagePlace symbols (fixupsOf (a_moved o)))) groups allocates in
  rtc step (boot m ts) x →
  (length (spans x.1) <= 1)%nat ∧
  (∀ i p, x.2 !! i = Some p → p = Body ∨ p = Returned 0 → ready x.1 = 2) ∧
  (∀ y, ready x.1 = 2 → rtc step x y → ready y.1 = 2 ∧ virtual_base y.1 = virtual_base x.1 ∧ spans y.1 = spans x.1) ∧
  (∀ y, ready x.1 ≠ 2 → step x y → ready y.1 = 2 →
     (∀ g, g ∈ movedGlobals globals → ∃ a, symbols !! g_name g = Some a ∧ ∀ k, 0 <= k < sizeOf g →
        memory y.1 (section + a + k) =
        constantByte (places symbols (a_zeroOffsets o) (virtual_base y.1) win section) (a_functions o) win (g_init g) k) ∧
     virtual_base y.1 mod sl = 0 ∧
     ∃ a n, spans y.1 = [(a, n)] ∧ a <= virtual_base y.1 ∧ virtual_base y.1 + memoryEnd <= a + n * ARENA_PAGE_SIZE) ∧
  (∀ i a, ready x.1 = 0 → x.2 !! i = Some Entry → allocates (selectedPages sl memoryEnd) a → a ≠ 0 →
     ∃ y, rtc step x y ∧ y.2 !! i = Some (Returned 0) ∧ ready y.1 = 2).
Proof.
  intros Hnd Hw Hids Hform Hrun Hemit Hload Hend Hts sl step Hx.
  destruct (accepted_stripped _ _ _ _ _ _ Hnd Hids Hform Hrun) as [Hn Hall].
  destruct (arena_steps _ _ _ _ _ _ Hrun) as (vs & hb & sb & sl' & ib & st & Hs).
  destruct (arena_configured _ _ _ _ _ _ _ _ _ _ _ _ Hs Hw Hnd) as (_ & _ & _ & Hp & Hsl & _ & _ & base & mf & Ec & _).
  assert (sl = sl') as E by (subst sl; by rewrite Ec). rewrite <-E in Hp, Hsl. clear E Ec Hs.
  pose proof (invariant_steps _ _ _ _ _ _ _ _ _ (boot_invariant sl memoryEnd win _ groups allocates m ts Hts) Hx) as Hinv.
  split_and!.
  - by eapply phase_spans, Hinv.
  - intros i p Hi Hpp. eapply (inv_admitted _ _ _ _ _ _ _ _ Hinv); [exact Hi|]. unfold admitted. tauto.
  - intros y Hr Hy. by eapply published_stable.
  - intros y Hr Hy Hr'. destruct (published_image _ _ _ _ _ _ _ _ _ Hinv Hy Hr Hr') as (a & (Hsp & Ha & Hne) & Hv & Hm).
    destruct (publishedBase_spec sl memoryEnd allocates a Hp Hsl Hend Ha Hne) as (Hmod & Hlo & Hhi).
    split_and!; [|by rewrite Hv|exists a, (selectedPages sl memoryEnd); rewrite Hv; split_and!; done].
    intros g Hg. rewrite Hm. by apply (restore_bytes symbols (a_zeroOffsets o) (a_functions o) (a_moved o) (movedGlobals globals)).
  - intros i a Hr Hi Ha Hne. destruct x as [s us]. by eapply caller_initializes.
Qed.
