(* ===== verification/ArenaSamples.v ===== *)
(** * A small arena object

    The program of [FixedSamples] with a second initialised object, compiled
    for the arena: the hypotheses of the arena theorems hold together. *)

From Stdlib Require Import ZArith Lia.
From stdpp Require Import base numbers list gmap strings relations.
From S2P Require Import Prelude Bytes Fiber Host FixedImage FixedImageFacts FixedLayout FixedImageProps FixedSamples Arena ArenaFacts ArenaTables ArenaProps ArenaLayout ArenaInit ArenaInitProps.
Import Fiber Host FixedImage Arena ArenaInit.

Local Open Scope Z_scope.

#[local] Existing Instance naturalLayout.
#[local] Existing Instance naturalLaws.

#[local] Instance naturalAlign : ABIAlign := λ t, (natural t).2.

#[local] Instance naturalAlign_pos : ABIAlignLaws naturalAlign.
Proof. intros t. unfold getABITypeAlign, naturalAlign. destruct (natural_sane t). lia. Qed.

(** The loop as the kernel documents it. *)
#[local] Instance plainLoop : BpfLoop := λ n f m, foldl (λ m i, (f (Z.of_nat i) m).2) m (seq 0 (Z.to_nat n)).

#[local] Instance plainLoop_laws : BpfLoopLaws plainLoop.
Proof. intros n f m _ _. unfold bpf_loop, plainLoop. by rewrite Nat2Z.id. Qed.

(** A kernel with one free span. *)
Definition freeAt (n a : Z) : Prop := a = 0 ∨ (a = 2 ^ 34 + 4096 ∧ n <= 2 ^ 20).

#[local] Instance freeAt_laws : AllocLaws freeAt.
Proof. intros n a [->|[-> Hn]] H; [done|]. change ARENA_PAGE_SIZE with 4096. split_and!; [lia|done|lia]. Qed.

Module ArenaSample.

(** [{ ptr @table + 8, i32 1 }] *)
Definition linksInit : constant := ConstantStruct false [GEPExpr false (GlobalRef "table") (Some 8); ConstantInt 32 1].

Definition globals : list global :=
  [FixedSample.plain "buffer" (ConstantZero (ArrayTy 4064 (IntegerTy 8)));
   FixedSample.plain "bpf_call_stack" (ConstantZero (ArrayTy 32768 (IntegerTy 8)));
   FixedSample.plain "table" FixedSample.tableInit;
   FixedSample.plain "links" linksInit].

Definition linked : config := Config 0 65536 0 0 2 0 4 0 MEMORY_ARENA 0 ABI_MAGIC ABI_VERSION 0.

Definition object : arena_object :=
  Eval vm_compute in
  match runArenaMemory (Some 8192) globals linked ∅ firstFunctionId with
  | Ok o => o
  | Err _ => ArenaObject ∅ [] ∅ linked 0
  end.

Lemma sample_accepted : runArenaMemory (Some 8192) globals linked ∅ firstFunctionId = Ok object.
Proof. by vm_compute. Qed.

Lemma sample_names : NoDup (g_name <$> globals).
Proof. apply NoDup_ListNoDup. repeat constructor; set_solver. Qed.

Lemma sample_linked : linkedWords linked.
Proof. by repeat split. Qed.

Lemma formed : Forall (λ g, arenaFormed (g_init g)) (movedGlobals globals).
Proof.
  assert (E : movedGlobals globals = [FixedSample.plain "table" FixedSample.tableInit; FixedSample.plain "links" linksInit]) by (by vm_compute).
  rewrite E. repeat apply Forall_cons_2; try apply Forall_nil_2; cbn [g_init FixedSample.plain arenaFormed FixedSample.tableInit linksInit foldr strippedFunction typeOf zeroIndices];
    repeat split; by vm_compute.
Qed.

Definition symbols : gmap string Z := {["table" := 0; "links" := 64]}.

Definition groups : list (group * list row) :=
  Eval vm_compute in
  match EmitArenaFixups symbols (a_zeroOffsets object) (fixupsOf (a_moved object)) with Ok g => g | Err _ => [] end.

Lemma groups_eq : EmitArenaFixups symbols (a_zeroOffsets object) (fixupsOf (a_moved object)) = Ok groups.
Proof. by vm_compute. Qed.

(** Where the section, the window and the span are. *)
Definition section : Z := 2 ^ 33.
Definition win : Z := 2 ^ 40.

Definition stripped (i : nat) : constant := default (ConstantZero PointerTy) ((λ gf, g_init gf.1) <$> a_moved object !! i).

Definition memory : mem := λ x,
  if (section <=? x) && (x <? section + 32) then constantByte ∅ ∅ 0 (stripped 0) (x - section)
  else constantByte ∅ ∅ 0 (stripped 1) (x - (section + 64)).

Lemma moved_objects gf : gf ∈ a_moved object → a_moved object !! 0%nat = Some gf ∨ a_moved object !! 1%nat = Some gf.
Proof.
  intros [i Hi]%list_elem_of_lookup. destruct i as [|[|i]]; [by left|by right|]. apply lookup_lt_Some in Hi. simpl in Hi. lia.
Qed.

Lemma loaded_object : loaded (a_moved object) symbols section memory.
Proof.
  split.
  - intros gf [Hgf|Hgf]%moved_objects; injection Hgf as <-; [exists 0|exists 64]; (split_and!; try by vm_compute); by exists 0.
  - intros gf hf a b [Hg|Hg]%moved_objects [Hh|Hh]%moved_objects; injection Hg as <-; injection Hh as <-; intros Ha Hb Hne; try done;
      vm_compute in Ha, Hb; injection Ha as <-; injection Hb as <-; vm_compute; naive_solver.
  - intros gf a k [Hg|Hg]%moved_objects; injection Hg as <-; intros Ha Hk; vm_compute in Ha; injection Ha as <-; unfold memory.
    + change (0 <= k < 32) in Hk. destruct (Z.leb_spec section (section + 0 + k)), (Z.ltb_spec (section + 0 + k) (section + 32)); try (unfold section in *; lia). cbn [andb].
      replace (section + 0 + k - section) with k by lia. done.
    + change (0 <= k < 16) in Hk. destruct (Z.ltb_spec (section + 64 + k) (section + 32)); [unfold section in *; lia|]. rewrite andb_false_r.
      replace (section + 64 + k - (section + 64)) with k by lia. done.
Qed.

#[local] Opaque object.
End ArenaSample.

(** The buffer has its place, and the host plans the compiled record. *)
Lemma arena_layout_sound_witness :
  (∃ off, a_zeroOffsets ArenaSample.object !! "buffer"%string = Some off ∧ ARENA_PAGE_SIZE <= off ∧
     off + 4064 <= heap_base (a_config ArenaSample.object)) ∧
  plan (a_config ArenaSample.object) CONFIG_SIZE (Requested 2 65536) = Ok (a_config ArenaSample.object, a_pages ArenaSample.object).
Proof.
  pose proof (arena_layout_sound (Some 8192) ArenaSample.globals ArenaSample.linked ∅ firstFunctionId ArenaSample.object
    ArenaSample.sample_names ArenaSample.sample_linked ltac:(done) ArenaSample.sample_accepted) as (H & _ & _ & _ & _ & _ & _ & _ & Hplan).
  split; [|exact Hplan].
  destruct (H (FixedSample.plain "buffer" (ConstantZero (ArrayTy 4064 (IntegerTy 8))))) as (off & H1 & H2 & _ & H3); [by vm_compute; left|].
  exists off. split_and!; [exact H1|exact H2|exact H3].
Defined.

(** The tables at a span of the kernel's choice. *)
Lemma arena_fixups_exact_witness :
  ∃ a, ArenaSample.symbols !! "table"%string = Some a ∧ ∀ k, 0 <= k < 32 →
    applyTables (2 ^ 34 + 8192, ArenaSample.win, 2 ^ 33) ArenaSample.groups ArenaSample.memory (ArenaSample.section + a + k) =
    constantByte (places ArenaSample.symbols (a_zeroOffsets ArenaSample.object) (2 ^ 34 + 8192) ArenaSample.win ArenaSample.section)
      (a_functions ArenaSample.object) ArenaSample.win FixedSample.tableInit k.
Proof.
  destruct (arena_fixups_exact plainLoop plainLoop_laws (Some 8192) ArenaSample.globals ArenaSample.linked ∅ firstFunctionId
    ArenaSample.object ArenaSample.symbols ArenaSample.groups (2 ^ 34 + 8192) ArenaSample.win ArenaSample.section ArenaSample.memory
    ArenaSample.sample_names FixedSample.no_ids ArenaSample.formed ArenaSample.sample_accepted ArenaSample.groups_eq ArenaSample.loaded_object) as [H _].
  exact (H (FixedSample.plain "table" FixedSample.tableInit) ltac:(vm_compute; left)).
Defined.

(** Two initialisers and an entry: the second caller can finish. *)
Lemma arena_initialized_once_witness :
  ∃ y, rtc (ArenaInit.step 8192 90112 ArenaSample.win (2 ^ 33) ArenaSample.groups freeAt)
         (boot ArenaSample.memory [Entry; Prologue "syscall" (ReturnsInteger 32); Entry]) y ∧
       y.2 !! 2%nat = Some (Returned 0) ∧ ready y.1 = 2.
Proof.
  pose proof (arena_initialized_once naturalLayout naturalLaws naturalAlign naturalAlign_pos plainLoop plainLoop_laws freeAt freeAt_laws
    (Some 8192) ArenaSample.globals ArenaSample.linked ∅ firstFunctionId ArenaSample.object ArenaSample.symbols ArenaSample.groups
    90112 ArenaSample.win ArenaSample.section ArenaSample.memory [Entry; Prologue "syscall" (ReturnsInteger 32); Entry]
    (boot ArenaSample.memory [Entry; Prologue "syscall" (ReturnsInteger 32); Entry])
    ArenaSample.sample_names ArenaSample.sample_linked FixedSample.no_ids ArenaSample.formed ArenaSample.sample_accepted ArenaSample.groups_eq
    ArenaSample.loaded_object ltac:(done) ltac:(by repeat constructor) (rtc_refl _ _)) as (_ & _ & _ & _ & H).
  exact (H 2%nat (2 ^ 34 + 4096) eq_refl eq_refl ltac:(right; split; [done|by vm_compute]) ltac:(done)).
Defined.

(** The words of the two objects after the tables ran: a place in the span, a
    function of the window, a place in the section. *)
Example arena_words :
  map (λ a, loadLE (applyTables (2 ^ 34 + 8192, ArenaSample.win, 2 ^ 33) ArenaSample.groups ArenaSample.memory) (ArenaSample.section + a) 8)
    [0; 8; 16; 64] = [42; 2 ^ 34 + 8192 + 4100; ArenaSample.win + firstFunctionId; ArenaSample.section + 8].
Proof. by vm_compute. Qed.
