(* ===== verification/SoftFloat.v ===== *)
(** * Software floating point ([src/src/pass/softfloat.cpp])

    The pass turns every floating-point operation into a call of an integer
    routine of the compiler runtime and every floating-point value into the
    integer of its bits, in signatures, instructions and constants.  Programs
    are functions of blocks in SSA form; the same interpreter runs a program
    before and after the pass.  [validate_no_float.cpp], which checks the
    result, is at the end.

    Parameters: the rounding operations of IEEE arithmetic ([FloatOps]), the
    runtime's routines ([Routines]), LLVM's data layout ([Layout]) and the
    functions outside the module ([Externals]). *)

From Stdlib Require Import ZArith Lia.
From stdpp Require Import base numbers list gmap strings.
From S2P Require Import Prelude Bytes.

Module SoftFloat.
Local Open Scope Z_scope.

(** ** Types *)

Inductive type :=
| IntegerTy (bits : Z)
| HalfTy | BFloatTy | FloatTy | DoubleTy | X86_FP80Ty | FP128Ty | PPC_FP128Ty
| PointerTy | VoidTy
| ArrayTy (count : nat) (element : type)
| VectorTy (count : nat) (element : type)
| StructTy (name : option string) (packed : bool) (elements : list type)
| FunctionTy (result : type) (params : list type) (vararg : bool).

(** Decidable equality of types. *)
Fixpoint typeEq (t u : type) {struct t} : bool :=
  let all := fix all (ts us : list type) : bool :=
    match ts, us with
    | [], [] => true
    | t :: ts, u :: us => typeEq t u && all ts us
    | _, _ => false
    end in
  match t, u with
  | IntegerTy a, IntegerTy b => a =? b
  | HalfTy, HalfTy | BFloatTy, BFloatTy | FloatTy, FloatTy | DoubleTy, DoubleTy | X86_FP80Ty, X86_FP80Ty | FP128Ty, FP128Ty
  | PPC_FP128Ty, PPC_FP128Ty | PointerTy, PointerTy | VoidTy, VoidTy => true
  | ArrayTy n t, ArrayTy k u | VectorTy n t, VectorTy k u => Nat.eqb n k && typeEq t u
  | StructTy n p ts, StructTy k q us => bool_decide (n = k) && Bool.eqb p q && all ts us
  | FunctionTy r ts v, FunctionTy s us w => typeEq r s && all ts us && Bool.eqb v w
  | _, _ => false
  end.

Definition isFloatingPointTy (t : type) : bool :=
  match t with HalfTy | BFloatTy | FloatTy | DoubleTy | X86_FP80Ty | FP128Ty | PPC_FP128Ty => true | _ => false end.

Inductive unsupported := None_ | Narrow | Wide | Vector.

Definition isNone (u : unsupported) : bool := match u with None_ => true | _ => false end.

(** [merge]: the last element with a finding decides. *)
Definition merge (current result : unsupported) : unsupported := if isNone current then result else current.

(** [visited] is the set of types already seen. *)
Fixpoint classifyVisited (t : type) (visited : list type) {struct t} : unsupported * list type :=
  if existsb (typeEq t) visited then (None_, visited)
  else
    let visited := t :: visited in
    let mergeAll := fix mergeAll (ts : list type) (result : unsupported) (visited : list type) : unsupported * list type :=
      match ts with
      | [] => (result, visited)
      | t :: ts =>
          let '(current, visited) := classifyVisited t visited in
          mergeAll ts (merge current result) visited
      end in
    match t with
    | HalfTy | BFloatTy => (Narrow, visited)
    | X86_FP80Ty | FP128Ty | PPC_FP128Ty => (Wide, visited)
    | VectorTy _ e => if isFloatingPointTy e then (Vector, visited) else classifyVisited e visited
    | ArrayTy _ e =>
        let '(current, visited) := classifyVisited e visited in (merge current None_, visited)
    | StructTy _ _ ts => mergeAll ts None_ visited
    | FunctionTy r ts _ =>
        let '(current, visited) := classifyVisited r visited in mergeAll ts (merge current None_) visited
    | _ => (None_, visited)
    end.

Definition classifyUnsupportedFloatType (t : type) : unsupported := (classifyVisited t []).1.

(** float to i32, double to i64, and structurally through aggregates; the type
    cache only remembers results.  The wider types, on which the pass stops,
    are rejected by the validation before. *)
Fixpoint mapType (t : type) : type :=
  match t with
  | FloatTy => IntegerTy 32
  | DoubleTy => IntegerTy 64
  | ArrayTy n e => ArrayTy n (mapType e)
  | VectorTy n e => VectorTy n (mapType e)
  | StructTy name packed ts =>
      let elems := map mapType ts in
      if typeEq (StructTy name packed elems) t then t
      else StructTy ((λ n : string, (n ++ ".bpf_bits")%string) <$> name) packed elems
  | FunctionTy r ts v => FunctionTy (mapType r) (map mapType ts) v
  | _ => t
  end.

Definition hasFloat (t : type) : bool := negb (typeEq (mapType t) t).

(** ** Values *)

(** Floating-point values are their bits; [VUndef] is any value that a program
    must not depend on (undef and poison). *)
Inductive val :=
| VUndef
| VInt (bits z : Z)
| VFloat (z : Z)
| VDouble (z : Z)
| VPtr (z : Z)
| VAgg (l : list val).

(** ** Constants *)

Inductive constant :=
| CInt (bits z : Z)
| CFloat (z : Z)
| CDouble (z : Z)
| CPoison (t : type)
| CUndef (t : type)
| CZero (t : type)
| CArray (t : type) (operands : list constant)
| CStruct (t : type) (operands : list constant)
| CData (element : type) (elements : list Z)
| CSymbol (name : string)
| CExpr (t : type) (z : Z).

Definition elementOf (t : type) (z : Z) : constant :=
  match t with FloatTy => CFloat z | DoubleTy => CDouble z | IntegerTy b => CInt b z | _ => CUndef t end.

Definition typeOfConstant (c : constant) : type :=
  match c with
  | CInt b _ => IntegerTy b
  | CFloat _ => FloatTy
  | CDouble _ => DoubleTy
  | CPoison t | CUndef t | CZero t | CArray t _ | CStruct t _ | CExpr t _ => t
  | CData e l => ArrayTy (length l) e
  | CSymbol _ => PointerTy
  end.

Inductive soft_error :=
| UnsupportedType (u : unsupported)
| WideConversion
| UnhandledConstant
| ClassMaskNotConstant
| NoIntegerLowering (intrinsic : string)
| NotLinked (name : string).

(** One element of a literal table. *)
Definition mapElement (e : type) (z : Z) : constant :=
  match e with FloatTy => CInt 32 (wrap 32 z) | DoubleTy => CInt 64 (wrap 64 z) | _ => elementOf e z end.

Fixpoint mapConstant (c : constant) : result soft_error constant :=
  match c with
  | CFloat z => Ok (CInt 32 (wrap 32 z))
  | CDouble z => Ok (CInt 64 (wrap 64 z))
  | CPoison t => Ok (CPoison (mapType t))
  | CUndef t => Ok (CUndef (mapType t))
  | CZero t => Ok (CZero (mapType t))
  | CArray t ops => match mapResult mapConstant ops with Ok ops => Ok (CArray (mapType t) ops) | Err e => Err e end
  | CStruct t ops => match mapResult mapConstant ops with Ok ops => Ok (CStruct (mapType t) ops) | Err e => Err e end
  | CData e l => Ok (CArray (ArrayTy (length l) (mapType e)) (map (mapElement e) l))
  | CInt _ _ | CSymbol _ => Ok c
  | CExpr t _ => if hasFloat t then Err UnhandledConstant else Ok c
  end.

(** ** Instructions *)

Inductive operand := Reg (r : nat) | Arg (i : nat) | Const (c : constant).

Inductive float_binary := FAdd | FSub | FMul | FDiv | FRem.

Inductive float_predicate :=
| FCMP_FALSE | FCMP_OEQ | FCMP_OGT | FCMP_OGE | FCMP_OLT | FCMP_OLE | FCMP_ONE | FCMP_ORD
| FCMP_UNO | FCMP_UEQ | FCMP_UGT | FCMP_UGE | FCMP_ULT | FCMP_ULE | FCMP_UNE | FCMP_TRUE.

Inductive int_predicate := ICMP_EQ | ICMP_NE | ICMP_UGT | ICMP_ULT | ICMP_ULE | ICMP_SGT | ICMP_SGE | ICMP_SLT | ICMP_SLE.

(** The integer code the pass emits in place of an instruction. *)
Inductive expr :=
| EOp (o : operand)
| ECall (name : string) (bits : Z) (args : list expr)
| EICmp (p : int_predicate) (bits : Z) (x y : expr)
| EAnd (bits : Z) (x y : expr)
| EOr (bits : Z) (x y : expr)
| ENot (x : expr)
| ESExtOrTrunc (from to : Z) (x : expr)
| EZExtOrTrunc (from to : Z) (x : expr).

Inductive callee := Direct (name : string) | Indirect (o : operand).

(** [f32]: the static type of the operands is float, otherwise double.
    [IOther] is an instruction the pass has no case for: integer and pointer
    operations, but also [freeze], which may be of any type. *)
Inductive instr :=
| IBitCast (from to : type) (x : operand)
| IFBinary (op : float_binary) (f32 : bool) (x y : operand)
| IFNeg (f32 : bool) (x : operand)
| IFCmp (p : float_predicate) (f32 : bool) (x y : operand)
| IFPExt (x : operand)
| IFPTrunc (x : operand)
| IToFP (signed : bool) (bits : Z) (toF32 : bool) (x : operand)
| IFPToI (signed : bool) (fromF32 : bool) (bits : Z) (x : operand)
| IClass (f32 : bool) (x : operand) (mask : operand)
| IFMulAdd (f32 : bool) (x y z : operand)
| IIntrinsic (id : string) (f32 : bool) (args : list operand)
| ICall (f : callee) (t : type) (args : list operand)
| ILoad (t : type) (p : operand)
| IStore (t : type) (x p : operand)
| IVAArg (t : type) (p : operand)
| ISelect (t : type) (c x y : operand)
| IExtract (t : type) (x : operand) (indices : list nat)
| IInsert (t : type) (x v : operand) (indices : list nat)
| IOther (opcode : nat) (t : type) (args : list operand)
| IExpr (t : type) (e : expr).

Inductive terminator := Br (l : nat) | CondBr (c : operand) (yes no : nat) | Ret (x : option operand) | Unreachable.

Record phi := Phi { ph_reg : nat; ph_type : type; ph_incoming : list (nat * operand) }.
Record block := Block { b_phis : list phi; b_body : list (nat * instr); b_term : terminator }.
Record func := Func { f_type : type; f_blocks : list block }.
(** Functions by name; one without blocks is a declaration. *)
Definition program : Type := list (string * func).

(** ** Names of the runtime *)

Definition binaryLibcall (op : float_binary) (f32 : bool) : string :=
  match op with
  | FAdd => if f32 then "__addsf3" else "__adddf3"
  | FSub => if f32 then "__subsf3" else "__subdf3"
  | FMul => if f32 then "__mulsf3" else "__muldf3"
  | FDiv => if f32 then "__divsf3" else "__divdf3"
  | FRem => if f32 then "fmodf" else "fmod"
  end.

Definition negLibcall (f32 : bool) : string := if f32 then "__negsf2" else "__negdf2".
Definition F2D : string := "__extendsfdf2".
Definition D2F : string := "__truncdfsf2".
Definition toFloatLibcall (signed toF32 : bool) : string :=
  if toF32 then (if signed then "__floatdisf" else "__floatundisf") else (if signed then "__floatdidf" else "__floatundidf").
Definition toIntLibcall (signed fromF32 : bool) : string :=
  if fromF32 then (if signed then "__fixsfdi" else "__fixunssfdi") else (if signed then "__fixdfdi" else "__fixunsdfdi").

Definition eqLibcall (f32 : bool) : string := if f32 then "__eqsf2" else "__eqdf2".
Definition leLibcall (f32 : bool) : string := if f32 then "__lesf2" else "__ledf2".
Definition geLibcall (f32 : bool) : string := if f32 then "__gesf2" else "__gedf2".
Definition unordLibcall (f32 : bool) : string := if f32 then "__unordsf2" else "__unorddf2".

Definition comparisonLibcall (p : float_predicate) (f32 : bool) : option (string * int_predicate) :=
  match p with
  | FCMP_OEQ | FCMP_UEQ => Some (eqLibcall f32, ICMP_EQ)
  | FCMP_ONE | FCMP_UNE => Some (eqLibcall f32, ICMP_NE)
  | FCMP_OLT => Some (leLibcall f32, ICMP_SLT)
  | FCMP_OLE => Some (leLibcall f32, ICMP_SLE)
  | FCMP_OGT => Some (geLibcall f32, ICMP_SGT)
  | FCMP_OGE => Some (geLibcall f32, ICMP_SGE)
  | FCMP_ULT => Some (geLibcall f32, ICMP_SLT)
  | FCMP_ULE => Some (geLibcall f32, ICMP_SLE)
  | FCMP_UGT => Some (leLibcall f32, ICMP_SGT)
  | FCMP_UGE => Some (leLibcall f32, ICMP_SGE)
  | FCMP_ORD => Some (unordLibcall f32, ICMP_EQ)
  | FCMP_UNO => Some (unordLibcall f32, ICMP_NE)
  | FCMP_FALSE | FCMP_TRUE => None
  end.

(** Intrinsics with an implementation in the C library, by their base name. *)
Definition libmNames : list (string * string) :=
  [("fabs", "fabs"); ("copysign", "copysign"); ("fma", "fma"); ("sqrt", "sqrt"); ("floor", "floor"); ("ceil", "ceil");
   ("trunc", "trunc"); ("round", "round"); ("rint", "rint"); ("nearbyint", "nearbyint"); ("sin", "sin"); ("cos", "cos");
   ("tan", "tan"); ("asin", "asin"); ("acos", "acos"); ("atan", "atan"); ("atan2", "atan2"); ("exp", "exp"); ("exp2", "exp2");
   ("log", "log"); ("log2", "log2"); ("log10", "log10"); ("pow", "pow"); ("minnum", "fmin"); ("maxnum", "fmax")]%string.

Definition intrinsicLibmBase (id : string) : option string :=
  snd <$> head (filter (λ p : string * string, p.1 = id) libmNames).

(** The C function behind an intrinsic. *)
Definition libmName (id : string) (f32 : bool) : option string :=
  (λ base : string, if f32 then (base ++ "f")%string else base) <$> intrinsicLibmBase id.
(** ** Classification of a value ([llvm.is.fpclass]) *)

Definition fcSNan : Z := 1.
Definition fcQNan : Z := 2.
Definition fcNegInf : Z := 4.
Definition fcNegNormal : Z := 8.
Definition fcNegSubnormal : Z := 16.
Definition fcNegZero : Z := 32.
Definition fcPosZero : Z := 64.
Definition fcPosSubnormal : Z := 128.
Definition fcPosNormal : Z := 256.
Definition fcPosInf : Z := 512.
Definition fcNan : Z := 3.
Definition fcInf : Z := 516.
Definition fcNormal : Z := 264.
Definition fcSubnormal : Z := 144.
Definition fcZero : Z := 96.
Definition fcPosFinite : Z := 448.
Definition fcNegFinite : Z := 56.
Definition fcFinite : Z := 504.
Definition fcPositive : Z := 960.
Definition fcNegative : Z := 60.
Definition fcAllFlags : Z := 1023.

Definition widthOf (f32 : bool) : Z := if f32 then 32 else 64.
Definition signMask (f32 : bool) : Z := if f32 then 0x80000000 else 0x8000000000000000.
Definition exponentMask (f32 : bool) : Z := if f32 then 0x7f800000 else 0x7ff0000000000000.
Definition quietMask (f32 : bool) : Z := if f32 then 0x00400000 else 0x0008000000000000.

Definition constantOf (w z : Z) : expr := EOp (Const (CInt w z)).
Definition getBool (b : bool) : expr := constantOf 1 (if b then 1 else 0).

Section fpclass.
Context (f32 : bool) (mask : Z) (bits : expr).

Let w : Z := widthOf f32.
Let c (z : Z) : expr := constantOf w z.

Definition magnitude : expr := EAnd w bits (c (wrap w (Z.lnot (signMask f32)))).
Definition isNan : expr := EICmp ICMP_UGT w magnitude (c (exponentMask f32)).
Definition isInf : expr := EICmp ICMP_EQ w magnitude (c (exponentMask f32)).
Definition isZero : expr := EICmp ICMP_EQ w magnitude (c 0).
Definition exponent : expr := EAnd w magnitude (c (exponentMask f32)).
Definition isNormal : expr := EAnd 1 (EICmp ICMP_NE w exponent (c 0)) (EICmp ICMP_NE w exponent (c (exponentMask f32))).
Definition isSubnormal : expr := EAnd 1 (EICmp ICMP_EQ w exponent (c 0)) (EICmp ICMP_NE w magnitude (c 0)).
Definition isNegative : expr := EICmp ICMP_SLT w bits (c 0).
Definition isFinite : expr := EICmp ICMP_ULT w magnitude (c (exponentMask f32)).
Definition notNan : expr := EICmp ICMP_ULE w magnitude (c (exponentMask f32)).
Definition quiet : expr := EICmp ICMP_NE w (EAnd w bits (c (quietMask f32))) (c 0).

Definition wants (class : Z) : bool := negb (Z.land mask class =? 0).

Definition includeSigned (predicate : expr) (negativeClass positiveClass : Z) (result : expr) : expr :=
  if wants negativeClass && wants positiveClass then EOr 1 result predicate
  else if wants negativeClass then EOr 1 result (EAnd 1 predicate isNegative)
  else if wants positiveClass then EOr 1 result (EAnd 1 predicate (ENot isNegative))
  else result.

Definition includeNan (result : expr) : expr :=
  if wants fcNan then
    if Z.land mask fcNan =? fcNan then EOr 1 result isNan
    else EOr 1 result (EAnd 1 isNan (if wants fcQNan then quiet else ENot quiet))
  else result.

Definition lowerFPClass : expr :=
  if mask =? 0 then getBool false
  else if mask =? fcAllFlags then getBool true
  else if mask =? fcNan then isNan
  else if mask =? fcInf then isInf
  else if mask =? fcNormal then isNormal
  else if mask =? fcSubnormal then isSubnormal
  else if mask =? fcZero then isZero
  else if mask =? fcFinite then isFinite
  else if mask =? fcPosFinite then EAnd 1 (ENot isNegative) isFinite
  else if mask =? fcNegFinite then EAnd 1 isNegative isFinite
  else if mask =? fcPositive then EAnd 1 (ENot isNegative) notNan
  else if mask =? fcNegative then EAnd 1 isNegative notNan
  else
    includeSigned isZero fcNegZero fcPosZero
      (includeSigned isSubnormal fcNegSubnormal fcPosSubnormal
        (includeSigned isNormal fcNegNormal fcPosNormal
          (includeSigned isInf fcNegInf fcPosInf (includeNan (getBool false))))).
End fpclass.

Definition floatType (f32 : bool) : type := if f32 then FloatTy else DoubleTy.

(** The type of the value an instruction defines. *)
Definition resultType (i : instr) : type :=
  match i with
  | IBitCast _ t _ | ILoad t _ | IVAArg t _ | ISelect t _ _ _ | IExtract t _ _ | IInsert t _ _ _ | IOther _ t _ | IExpr t _ => t
  | IFBinary _ f32 _ _ | IFNeg f32 _ | IFMulAdd f32 _ _ _ | IIntrinsic _ f32 _ => floatType f32
  | IFCmp _ _ _ _ | IClass _ _ _ => IntegerTy 1
  | IFPExt _ => DoubleTy
  | IFPTrunc _ => FloatTy
  | IToFP _ _ toF32 _ => floatType toF32
  | IFPToI _ _ bits _ => IntegerTy bits
  | ICall _ t _ => match t with FunctionTy r _ _ => r | _ => VoidTy end
  | IStore _ _ _ => VoidTy
  end.

(** ** Lowering *)

(** Comparison with zero of a routine's result, a C [long]. *)
Definition compareCall (c : string * int_predicate) (x y : expr) : expr :=
  EICmp c.2 64 (ECall c.1 64 [x; y]) (constantOf 64 0).

Definition lowerFCmp (p : float_predicate) (f32 : bool) (x y : expr) : expr :=
  match comparisonLibcall p f32 with
  | None => getBool (match p with FCMP_TRUE => true | _ => false end)
  | Some c =>
      let result := compareCall c x y in
      match p with
      | FCMP_ONE => match comparisonLibcall FCMP_ORD f32 with Some c => EAnd 1 result (compareCall c x y) | None => result end
      | FCMP_UEQ => match comparisonLibcall FCMP_UNO f32 with Some c => EOr 1 result (compareCall c x y) | None => result end
      | _ => result
      end
  end.

(** [get]: the replacement of an operand. *)
Definition getOperand (o : operand) : result soft_error operand :=
  match o with
  | Const c => match mapConstant c with Ok c => Ok (Const c) | Err e => Err e end
  | _ => Ok o
  end.

Definition getCallee (f : callee) : result soft_error callee :=
  match f with
  | Direct _ => Ok f
  | Indirect o => match getOperand o with Ok o => Ok (Indirect o) | Err e => Err e end
  end.

(** Operands the emitted code does not read are not replaced. *)
Definition trivialMask (mask : Z) : bool := (mask =? 0) || (mask =? fcAllFlags).
Definition trivialPredicate (p : float_predicate) : bool := match p with FCMP_FALSE | FCMP_TRUE => true | _ => false end.
Definition getUnless (trivial : bool) (o : operand) : result soft_error operand := if trivial then Ok o else getOperand o.

(** The integer replacement of an instruction, or none when it only needs
    retyping. *)
Definition lower (i : instr) : result soft_error (option expr) :=
  match i with
  | IBitCast from to x =>
      x ← getOperand x;
      Ok (if (hasFloat to || hasFloat from) && typeEq (mapType from) (mapType to) then Some (EOp x) else None)
  | IFBinary op f32 x y =>
      x ← getOperand x; y ← getOperand y; Ok (Some (ECall (binaryLibcall op f32) (widthOf f32) [EOp x; EOp y]))
  | IFNeg f32 x => x ← getOperand x; Ok (Some (ECall (negLibcall f32) (widthOf f32) [EOp x]))
  | IFCmp p f32 x y =>
      x ← getUnless (trivialPredicate p) x; y ← getUnless (trivialPredicate p) y; Ok (Some (lowerFCmp p f32 (EOp x) (EOp y)))
  | IFPExt x => x ← getOperand x; Ok (Some (ECall F2D 64 [EOp x]))
  | IFPTrunc x => x ← getOperand x; Ok (Some (ECall D2F 32 [EOp x]))
  | IToFP signed bits toF32 x =>
      x ← getOperand x;
      let x := if signed then ESExtOrTrunc bits 64 (EOp x) else EZExtOrTrunc bits 64 (EOp x) in
      Ok (Some (ECall (toFloatLibcall signed toF32) (widthOf toF32) [x]))
  | IFPToI signed fromF32 bits x =>
      x ← getOperand x; Ok (Some (EZExtOrTrunc 64 bits (ECall (toIntLibcall signed fromF32) 64 [EOp x])))
  | _ => Ok None
  end.

(** Intrinsics on floating point; [linked]: whether the image defines a
    function. *)
Definition lowerIntrinsic (linked : string → bool) (i : instr) : result soft_error instr :=
  match i with
  | IClass f32 x mask =>
      match mask with
      | Const (CInt _ mask) => x ← getUnless (trivialMask mask) x; Ok (IExpr (IntegerTy 1) (lowerFPClass f32 mask (EOp x)))
      | _ => Err ClassMaskNotConstant
      end
  | IFMulAdd f32 x y z =>
      x ← getOperand x; y ← getOperand y; z ← getOperand z;
      Ok (IExpr (IntegerTy (widthOf f32))
            (ECall (binaryLibcall FAdd f32) (widthOf f32)
               [ECall (binaryLibcall FMul f32) (widthOf f32) [EOp x; EOp y]; EOp z]))
  | IIntrinsic id f32 args =>
      match libmName id f32 with
      | None => Err (NoIntegerLowering id)
      | Some name =>
          if linked name then
            args ← mapResult getOperand args;
            Ok (ICall (Direct name) (FunctionTy (IntegerTy (widthOf f32)) (map (λ _, IntegerTy (widthOf f32)) args) false) args)
          else Err (NotLinked name)
      end
  | _ => Ok i
  end.

(** Instructions that carry a floating-point type, and the replacement of the
    operands of all others. *)
Definition retypeInstr (i : instr) : result soft_error instr :=
  match i with
  | ICall f t args => f ← getCallee f; args ← mapResult getOperand args; Ok (ICall f (mapType t) args)
  | ILoad t p => p ← getOperand p; Ok (ILoad (mapType t) p)
  | IStore t x p => x ← getOperand x; p ← getOperand p; Ok (IStore (mapType t) x p)
  | IVAArg t p => p ← getOperand p; Ok (IVAArg (mapType t) p)
  | ISelect t c x y => c ← getOperand c; x ← getOperand x; y ← getOperand y; Ok (ISelect (mapType t) c x y)
  | IExtract t x l => x ← getOperand x; Ok (IExtract (mapType t) x l)
  | IInsert t x v l => x ← getOperand x; v ← getOperand v; Ok (IInsert (mapType t) x v l)
  | IBitCast from to x => x ← getOperand x; Ok (IBitCast (mapType from) to x)
  | IOther op t args => args ← mapResult getOperand args; Ok (IOther op t args)
  | _ => Ok i
  end.

Definition lowerInstr (linked : string → bool) (i : instr) : result soft_error instr :=
  replacement ← lower i;
  match replacement with
  | Some x => Ok (IExpr (mapType (resultType i)) x)
  | None => match i with
            | IClass _ _ _ | IFMulAdd _ _ _ _ | IIntrinsic _ _ _ => lowerIntrinsic linked i
            | _ => retypeInstr i
            end
  end.

Definition lowerTerminator (t : terminator) : result soft_error terminator :=
  match t with
  | CondBr c yes no => c ← getOperand c; Ok (CondBr c yes no)
  | Ret (Some x) => x ← getOperand x; Ok (Ret (Some x))
  | _ => Ok t
  end.

Definition lowerPhi (p : phi) : result soft_error phi :=
  incoming ← mapResult (λ i : nat * operand, match getOperand i.2 with Ok o => Ok (i.1, o) | Err e => Err e end) (ph_incoming p);
  Ok (Phi (ph_reg p) (mapType (ph_type p)) incoming).

(** The pass visits bodies first, then phis, then the operands that remain; the
    replacements do not depend on the order, only which of several diagnostics
    comes first does. *)
Definition lowerBlock (linked : string → bool) (b : block) : result soft_error block :=
  phis ← mapResult lowerPhi (b_phis b);
  body ← mapResult (λ ri : nat * instr, match lowerInstr linked ri.2 with Ok i => Ok (ri.1, i) | Err e => Err e end) (b_body b);
  term ← lowerTerminator (b_term b);
  Ok (Block phis body term).

Definition lowerFunction (linked : string → bool) (f : func) : result soft_error func :=
  blocks ← mapResult (lowerBlock linked) (f_blocks f); Ok (Func (mapType (f_type f)) blocks).

(** ** Validation of the input *)

Fixpoint exprOperands (x : expr) : list operand :=
  match x with
  | EOp o => [o]
  | ECall _ _ xs => flat_map exprOperands xs
  | EICmp _ _ x y | EAnd _ x y | EOr _ x y => exprOperands x ++ exprOperands y
  | ENot x | ESExtOrTrunc _ _ x | EZExtOrTrunc _ _ x => exprOperands x
  end.

Definition operandsOf (i : instr) : list operand :=
  match i with
  | IBitCast _ _ x | IFNeg _ x | IFPExt x | IFPTrunc x | IToFP _ _ _ x | IFPToI _ _ _ x | ILoad _ x | IVAArg _ x | IExtract _ x _ => [x]
  | IFBinary _ _ x y | IFCmp _ _ x y | IClass _ x y | IStore _ x y | IInsert _ x y _ => [x; y]
  | IFMulAdd _ x y z | ISelect _ x y z => [x; y; z]
  | IIntrinsic _ _ args | IOther _ _ args => args
  | ICall f _ args => match f with Direct _ => args | Indirect o => o :: args end
  | IExpr _ x => exprOperands x
  end.

(** The types of the constants among operands. *)
Definition constantTypes (l : list operand) : list type :=
  omap (λ o, match o with Const c => Some (typeOfConstant c) | _ => None end) l.

(** The types of the operands an instruction names itself; those of registers
    are result types, those of arguments are in the signature. *)
Definition operandTypes (i : instr) : list type :=
  (match i with IBitCast t _ _ | IStore t _ _ => [t] | ICall _ t _ => [t] | _ => [] end) ++
  constantTypes (operandsOf i).

Definition checkType (t : type) : result soft_error () :=
  let u := classifyUnsupportedFloatType t in if isNone u then Ok () else Err (UnsupportedType u).

Definition checkTypes (ts : list type) : result soft_error () := foldM (λ t _, checkType t) ts ().

Definition wideConversion (i : instr) : bool :=
  match i with IToFP _ bits _ _ | IFPToI _ _ bits _ => 64 <? bits | _ => false end.

Definition checkInstr (i : instr) : result soft_error () :=
  _ ← checkTypes (resultType i :: operandTypes i);
  if wideConversion i then Err WideConversion else Ok ().

(** Phi nodes and terminators are instructions too. *)
Definition phiTypes (p : phi) : list type := ph_type p :: constantTypes (snd <$> ph_incoming p).

Definition terminatorTypes (t : terminator) : list type :=
  match t with Ret (Some x) | CondBr x _ _ => constantTypes [x] | _ => [] end.

Definition checkBlock (b : block) : result soft_error () :=
  _ ← foldM (λ p _, checkTypes (phiTypes p)) (b_phis b) ();
  _ ← foldM (λ ri _, checkInstr ri.2) (b_body b) ();
  checkTypes (terminatorTypes (b_term b)).

Definition checkFunction (f : func) : result soft_error () :=
  _ ← checkType (f_type f); foldM (λ b _, checkBlock b) (f_blocks f) ().

(** ** The pass *)

Definition lowerFunctions (linked : string → bool) (p : program) : result soft_error program :=
  mapResult (λ nf : string * func, match lowerFunction linked nf.2 with Ok f => Ok (nf.1, f) | Err e => Err e end) p.

Definition linkedIn (p : program) (name : string) : bool :=
  existsb (λ nf : string * func, bool_decide (nf.1 = name) && negb (bool_decide (f_blocks nf.2 = []))) p.

(** [globals]: the value types of the module's variables. *)
Definition runSoftFloat (globals : list type) (p : program) : result soft_error program :=
  _ ← checkTypes globals;
  _ ← foldM (λ nf _, checkFunction nf.2) p ();
  lowerFunctions (linkedIn p) p.

(** ** The routines a module needs *)

Definition arithmeticLibcall (i : instr) : option string :=
  match i with
  | IFBinary op f32 _ _ => Some (binaryLibcall op f32)
  | IFNeg f32 _ => Some (negLibcall f32)
  | IFPExt _ => Some F2D
  | IFPTrunc _ => Some D2F
  | IToFP signed _ toF32 _ => Some (toFloatLibcall signed toF32)
  | IFPToI signed fromF32 _ _ => Some (toIntLibcall signed fromF32)
  | _ => None
  end.

Definition requiredBy (i : instr) : list string :=
  option_list (arithmeticLibcall i) ++
  match i with
  | IFCmp p f32 _ _ =>
      option_list (fst <$> comparisonLibcall p f32) ++
      match p with FCMP_ONE | FCMP_UEQ => option_list (fst <$> comparisonLibcall FCMP_UNO f32) | _ => [] end
  | IFMulAdd f32 _ _ _ => [binaryLibcall FMul f32; binaryLibcall FAdd f32]
  | IIntrinsic id f32 _ => option_list (libmName id f32)
  | _ => []
  end.

(** [defined]: names with an implementation in the module. *)
Definition requireName (defined : string → bool) (name : string) (result : list string) : list string :=
  if defined name || bool_decide (name ∈ result) then result else result ++ [name].

Definition instructionsOf (p : program) : list instr :=
  p ≫= λ nf, f_blocks nf.2 ≫= λ b, snd <$> b_body b.

Definition RequiredSoftFloatLibcalls (defined : string → bool) (p : program) : list string :=
  foldl (λ result name, requireName defined name result) [] (instructionsOf p ≫= requiredBy).

(** ** The later check ([validate_no_float.cpp]) *)

Definition isFPOrFPVectorTy (t : type) : bool :=
  match t with VectorTy _ e => isFloatingPointTy e | _ => isFloatingPointTy t end.

Definition UsesFloatingPoint (f : func) : bool :=
  match f_type f with FunctionTy r ts _ => isFPOrFPVectorTy r || existsb isFPOrFPVectorTy ts | _ => false end ||
  existsb (λ b,
    existsb (λ p, existsb isFPOrFPVectorTy (phiTypes p)) (b_phis b) || existsb isFPOrFPVectorTy (terminatorTypes (b_term b)) ||
    existsb (λ ri : nat * instr, isFPOrFPVectorTy (resultType ri.2) || existsb isFPOrFPVectorTy (operandTypes ri.2)) (b_body b))
    (f_blocks f).
End SoftFloat.
