(* ===== verification/SoftFloatRun.v ===== *)
(** * Running programs with and without floating point

    LLVM's meaning of the programs of [SoftFloat], and the documented
    behaviour of the compiler runtime's integer routines.  Comparison and
    classification of IEEE values are defined on their bits; the operations
    that round are a parameter. *)

From Stdlib Require Import ZArith Lia.
From stdpp Require Import base numbers list gmap strings.
From S2P Require Import Prelude Bytes SoftFloat.
Import SoftFloat.

Local Open Scope Z_scope.

(** ** IEEE values *)

(** Arithmetic on bits; integers are rounded to a value and values truncated
    to an integer ([None] for infinities and NaNs). *)
Class FloatOps := {
  fbinary : float_binary → bool → Z → Z → Z;
  fextend : Z → Z;
  ftruncate : Z → Z;
  fromInteger : bool → Z → Z;
  toInteger : bool → Z → option Z;
}.

Definition magnitudeOf (f32 : bool) (x : Z) : Z := Z.land x (Z.ones (widthOf f32 - 1)).
Definition signOf (f32 : bool) (x : Z) : bool := Z.testbit x (widthOf f32 - 1).
Definition nan (f32 : bool) (x : Z) : bool := exponentMask f32 <? magnitudeOf f32 x.

(** IEEE order is the order of the signed magnitudes; the two zeros are equal. *)
Definition orderKey (f32 : bool) (x : Z) : Z := if signOf f32 x then - magnitudeOf f32 x else magnitudeOf f32 x.

Definition fcompare (f32 : bool) (x y : Z) : option comparison :=
  if nan f32 x || nan f32 y then None else Some (orderKey f32 x ?= orderKey f32 y).

Definition fcmp (p : float_predicate) (c : option comparison) : bool :=
  match p, c with
  | FCMP_FALSE, _ => false
  | FCMP_TRUE, _ => true
  | (FCMP_OEQ | FCMP_OGE | FCMP_OLE | FCMP_UEQ | FCMP_UGE | FCMP_ULE | FCMP_ORD), Some Eq => true
  | (FCMP_OLT | FCMP_OLE | FCMP_ONE | FCMP_ULT | FCMP_ULE | FCMP_UNE | FCMP_ORD), Some Lt => true
  | (FCMP_OGT | FCMP_OGE | FCMP_ONE | FCMP_UGT | FCMP_UGE | FCMP_UNE | FCMP_ORD), Some Gt => true
  | (FCMP_UNO | FCMP_UEQ | FCMP_UGT | FCMP_UGE | FCMP_ULT | FCMP_ULE | FCMP_UNE), None => true
  | _, _ => false
  end.

(** The class of a value, one bit of the mask. *)
Definition classOf (f32 : bool) (x : Z) : Z :=
  let m := magnitudeOf f32 x in
  let pick negative positive := if signOf f32 x then negative else positive in
  if exponentMask f32 <? m then (if Z.land x (quietMask f32) =? 0 then fcSNan else fcQNan)
  else if m =? exponentMask f32 then pick fcNegInf fcPosInf
  else if m =? 0 then pick fcNegZero fcPosZero
  else if Z.land m (exponentMask f32) =? 0 then pick fcNegSubnormal fcPosSubnormal
  else pick fcNegNormal fcPosNormal.

(** ** The runtime's routines *)

Class Routines := routine : string → list Z → Z.

Definition word (f32 : bool) (x : Z) : Prop := 0 <= x < 2 ^ widthOf f32.

(** compiler-rt's documented routines: what each name computes.  Comparisons
    return a C [long] of which the sign matters, and an unordered pair is
    greater for [__le] and less for [__ge]. *)
Inductive contract :=
| Arithmetic (op : float_binary) (f32 : bool)
| Negation (f32 : bool)
| Extension
| Truncation
| FromInteger (signed toF32 : bool)
| ToInteger (signed fromF32 : bool)
| Equality (f32 : bool)
| AtMost (f32 : bool)
| AtLeast (f32 : bool)
| Unordered (f32 : bool).

Definition runtime : list (string * contract) :=
  [("__addsf3", Arithmetic FAdd true); ("__adddf3", Arithmetic FAdd false);
   ("__subsf3", Arithmetic FSub true); ("__subdf3", Arithmetic FSub false);
   ("__mulsf3", Arithmetic FMul true); ("__muldf3", Arithmetic FMul false);
   ("__divsf3", Arithmetic FDiv true); ("__divdf3", Arithmetic FDiv false);
   ("fmodf", Arithmetic FRem true); ("fmod", Arithmetic FRem false);
   ("__negsf2", Negation true); ("__negdf2", Negation false);
   ("__extendsfdf2", Extension); ("__truncdfsf2", Truncation);
   ("__floatdisf", FromInteger true true); ("__floatundisf", FromInteger false true);
   ("__floatdidf", FromInteger true false); ("__floatundidf", FromInteger false false);
   ("__fixsfdi", ToInteger true true); ("__fixunssfdi", ToInteger false true);
   ("__fixdfdi", ToInteger true false); ("__fixunsdfdi", ToInteger false false);
   ("__eqsf2", Equality true); ("__eqdf2", Equality false);
   ("__lesf2", AtMost true); ("__ledf2", AtMost false);
   ("__gesf2", AtLeast true); ("__gedf2", AtLeast false);
   ("__unordsf2", Unordered true); ("__unorddf2", Unordered false)]%string.

Definition meets `{FloatOps} (f : list Z → Z) (c : contract) : Prop :=
  match c with
  | Arithmetic op f32 => ∀ x y, word f32 x → word f32 y → f [x; y] = fbinary op f32 x y
  | Negation f32 => ∀ x, word f32 x → f [x] = Z.lxor x (signMask f32)
  | Extension => ∀ x, word true x → f [x] = fextend x
  | Truncation => ∀ x, word false x → f [x] = ftruncate x
  | FromInteger signed f32 => ∀ z, 0 <= z < 2 ^ 64 → f [z] = fromInteger f32 (if signed then sgn 64 z else z)
  | ToInteger signed f32 => ∀ x n, word f32 x → toInteger f32 x = Some n →
      (if signed then - 2 ^ 63 <= n < 2 ^ 63 else 0 <= n < 2 ^ 64) → wrap 64 (f [x]) = wrap 64 n
  | Equality f32 => ∀ x y, word f32 x → word f32 y → f [x; y] mod 2 ^ 64 = 0 ↔ fcompare f32 x y = Some Eq
  | AtMost f32 => ∀ x y, word f32 x → word f32 y →
      Z.sgn (sgn 64 (f [x; y] mod 2 ^ 64)) =
      match fcompare f32 x y with Some Lt => -1 | Some Eq => 0 | Some Gt => 1 | None => 1 end
  | AtLeast f32 => ∀ x y, word f32 x → word f32 y →
      Z.sgn (sgn 64 (f [x; y] mod 2 ^ 64)) =
      match fcompare f32 x y with Some Lt => -1 | Some Eq => 0 | Some Gt => 1 | None => -1 end
  | Unordered f32 => ∀ x y, word f32 x → word f32 y → f [x; y] mod 2 ^ 64 = 0 ↔ fcompare f32 x y ≠ None
  end.

Class RoutineLaws (FO : FloatOps) (RT : Routines) : Prop :=
  routine_meets : Forall (λ nc, meets (routine nc.1) nc.2) runtime.

(** The routines the pass selects are those of the operations. *)
Section routines.
Context {FO : FloatOps} {RT : Routines} {RLaws : RoutineLaws FO RT}.

Lemma routine_in name c : (name, c) ∈ runtime → meets (routine name) c.
Proof. intros H. pose proof routine_meets as R. rewrite Forall_forall in R. exact (R _ H). Qed.

Ltac named := cbn -[String.eqb]; repeat (first [by left|right]).

Lemma routine_binary op f32 x y : word f32 x → word f32 y → routine (binaryLibcall op f32) [x; y] = fbinary op f32 x y.
Proof. apply (routine_in _ (Arithmetic op f32)). destruct op, f32; named. Qed.
Lemma routine_neg f32 x : word f32 x → routine (negLibcall f32) [x] = Z.lxor x (signMask f32).
Proof. apply (routine_in _ (Negation f32)). destruct f32; named. Qed.
Lemma routine_extend x : word true x → routine F2D [x] = fextend x.
Proof. apply (routine_in _ Extension). named. Qed.
Lemma routine_truncate x : word false x → routine D2F [x] = ftruncate x.
Proof. apply (routine_in _ Truncation). named. Qed.
Lemma routine_toFloat signed f32 z : 0 <= z < 2 ^ 64 →
  routine (toFloatLibcall signed f32) [z] = fromInteger f32 (if signed then sgn 64 z else z).
Proof. apply (routine_in _ (FromInteger signed f32)). destruct signed, f32; named. Qed.
Lemma routine_toInt (signed f32 : bool) x n : word f32 x → toInteger f32 x = Some n →
  (if signed then - 2 ^ 63 <= n < 2 ^ 63 else 0 <= n < 2 ^ 64) → wrap 64 (routine (toIntLibcall signed f32) [x]) = wrap 64 n.
Proof. apply (routine_in _ (ToInteger signed f32)). destruct signed, f32; named. Qed.
Lemma routine_eq f32 x y : word f32 x → word f32 y →
  routine (eqLibcall f32) [x; y] mod 2 ^ 64 = 0 ↔ fcompare f32 x y = Some Eq.
Proof. apply (routine_in _ (Equality f32)). destruct f32; named. Qed.
Lemma routine_le f32 x y : word f32 x → word f32 y →
  Z.sgn (sgn 64 (routine (leLibcall f32) [x; y] mod 2 ^ 64)) =
  match fcompare f32 x y with Some Lt => -1 | Some Eq => 0 | Some Gt => 1 | None => 1 end.
Proof. apply (routine_in _ (AtMost f32)). destruct f32; named. Qed.
Lemma routine_ge f32 x y : word f32 x → word f32 y →
  Z.sgn (sgn 64 (routine (geLibcall f32) [x; y] mod 2 ^ 64)) =
  match fcompare f32 x y with Some Lt => -1 | Some Eq => 0 | Some Gt => 1 | None => -1 end.
Proof. apply (routine_in _ (AtLeast f32)). destruct f32; named. Qed.
Lemma routine_unord f32 x y : word f32 x → word f32 y →
  routine (unordLibcall f32) [x; y] mod 2 ^ 64 = 0 ↔ fcompare f32 x y ≠ None.
Proof. apply (routine_in _ (Unordered f32)). destruct f32; named. Qed.
End routines.

(** ** The C library *)

(** The meaning the language reference gives to the floating-point intrinsics:
    the C function of the operands' type, float or double. *)
Definition cFunctions : list (string * (string * string)) :=
  [("fabs", ("fabsf", "fabs")); ("copysign", ("copysignf", "copysign")); ("fma", ("fmaf", "fma"));
   ("sqrt", ("sqrtf", "sqrt")); ("floor", ("floorf", "floor")); ("ceil", ("ceilf", "ceil"));
   ("trunc", ("truncf", "trunc")); ("round", ("roundf", "round")); ("rint", ("rintf", "rint"));
   ("nearbyint", ("nearbyintf", "nearbyint")); ("sin", ("sinf", "sin")); ("cos", ("cosf", "cos"));
   ("tan", ("tanf", "tan")); ("asin", ("asinf", "asin")); ("acos", ("acosf", "acos")); ("atan", ("atanf", "atan"));
   ("atan2", ("atan2f", "atan2")); ("exp", ("expf", "exp")); ("exp2", ("exp2f", "exp2")); ("log", ("logf", "log"));
   ("log2", ("log2f", "log2")); ("log10", ("log10f", "log10")); ("pow", ("powf", "pow")); ("minnum", ("fminf", "fmin"));
   ("maxnum", ("fmaxf", "fmax"))]%string.

Definition cFunction (id : string) (f32 : bool) : option string :=
  (λ r : string * (string * string), if f32 then r.2.1 else r.2.2) <$> head (filter (λ r, r.1 = id) cFunctions).

(** The pass's table is this one, row by row. *)
Lemma head_filter_map {A B} (f : A → string * B) (l : list A) (id : string) :
  head (filter (λ p : string * B, p.1 = id) (f <$> l)) = f <$> head (filter (λ x, (f x).1 = id) l).
Proof. induction l as [|x l IH]; [done|]. rewrite fmap_cons, !filter_cons. by case_decide. Qed.

Lemma libmName_cFunction id f32 : libmName id f32 = cFunction id f32.
Proof.
  assert (E : libmNames = (λ r : string * (string * string), (r.1, r.2.2)) <$> cFunctions) by reflexivity.
  unfold libmName, intrinsicLibmBase, cFunction. rewrite E, head_filter_map, <-!option_fmap_compose.
  change (λ x : string * (string * string), (x.1, x.2.2).1 = id) with (λ x : string * (string * string), x.1 = id).
  assert (F : Forall (λ r : string * (string * string), r.2.1 = (r.2.2 ++ "f")%string) cFunctions) by repeat constructor.
  destruct (head _) as [r|] eqn:Er; [|done]. cbn. destruct f32; [|done]. rewrite Forall_forall in F. rewrite F; [done|].
  destruct (filter _ cFunctions) as [|r' l] eqn:Ef; [done|]. injection Er as ->.
  assert (H : r ∈ r :: l) by (by left). rewrite <-Ef in H.
  by apply list_elem_of_filter in H as [_ H].
Qed.

Lemma intrinsicLibmBase_cFunction id : intrinsicLibmBase id = None ↔ ∀ f32, cFunction id f32 = None.
Proof.
  setoid_rewrite <-libmName_cFunction. unfold libmName. destruct (intrinsicLibmBase id); cbn; [|done].
  split; [done|]. intros H. discriminate (H true).
Qed.

(** ** Layout and the outside *)

Class Layout := { sizeOf : type → Z; alignOf : type → Z; offsetOf : bool → list type → nat → Z }.

Definition sameShape `{Layout} (t u : type) : Prop := sizeOf t = sizeOf u ∧ alignOf t = alignOf u.

(** The layout of an aggregate depends on sizes and alignments only, and a
    scalar float is laid out like the integer of its width. *)
Class LayoutLaws (LO : Layout) : Prop := {
  shape_float : sameShape FloatTy (IntegerTy 32);
  shape_double : sameShape DoubleTy (IntegerTy 64);
  shape_array n t u : sameShape t u → sameShape (ArrayTy n t) (ArrayTy n u);
  shape_vector n t u : sameShape t u → sameShape (VectorTy n t) (VectorTy n u);
  shape_struct a b p ts us : Forall2 sameShape ts us →
    sameShape (StructTy a p ts) (StructTy b p us) ∧ ∀ i, offsetOf p ts i = offsetOf p us i;
  (* a function type has no layout *)
  shape_function r ts v s us k : sameShape (FunctionTy r ts v) (FunctionTy s us k);
}.

(** Addresses of symbols, the function at an address, instructions without
    floating point, the target's variadic arguments - given the size and
    alignment of the next argument and the list's address, where the argument
    is and the memory with the list advanced - and functions outside the
    module. *)
Class Externals := {
  symbolAddress : string → Z;
  functionAt : Z → option string;
  other : nat → type → list val → val;
  vaNext : Z → Z → Z → mem → option (Z * mem);
  external : string → list val → mem → option (val * mem);
}.

(** ** Evaluation *)

Section run.
Context {FO : FloatOps} {RT : Routines} {LO : Layout} {EX : Externals}.

Fixpoint zeroVal (t : type) : val :=
  match t with
  | IntegerTy b => VInt b 0
  | FloatTy => VFloat 0
  | DoubleTy => VDouble 0
  | PointerTy => VPtr 0
  | ArrayTy n e => VAgg (replicate n (zeroVal e))
  | StructTy _ _ ts => VAgg (map zeroVal ts)
  | _ => VUndef
  end.

Fixpoint evalConstant (c : constant) : val :=
  match c with
  | CInt b z => VInt b z
  | CFloat z => VFloat (wrap 32 z)
  | CDouble z => VDouble (wrap 64 z)
  | CPoison _ | CUndef _ => VUndef
  | CZero t => zeroVal t
  | CArray _ ops | CStruct _ ops => VAgg (map evalConstant ops)
  | CData e l => VAgg (map (λ z, match e with FloatTy => VFloat (wrap 32 z) | DoubleTy => VDouble (wrap 64 z) | IntegerTy b => VInt b z | _ => VUndef end) l)
  | CSymbol s => VPtr (symbolAddress s)
  | CExpr t z => match t with PointerTy => VPtr z | IntegerTy b => VInt b z | _ => VUndef end
  end.

(** Registers and arguments of one activation. *)
Record env := Env { regs : nat → val; args : list val }.

Definition setReg (e : env) (r : nat) (v : val) : env := Env (λ n, if Nat.eqb n r then v else regs e n) (args e).

Definition evalOperand (e : env) (o : operand) : val :=
  match o with Reg r => regs e r | Arg i => default VUndef (args e !! i) | Const c => evalConstant c end.

Definition icmp (p : int_predicate) (w x y : Z) : bool :=
  match p with
  | ICMP_EQ => x =? y
  | ICMP_NE => negb (x =? y)
  | ICMP_UGT => y <? x
  | ICMP_ULT => x <? y
  | ICMP_ULE => x <=? y
  | ICMP_SGT => sgn w y <? sgn w x
  | ICMP_SGE => sgn w y <=? sgn w x
  | ICMP_SLT => sgn w x <? sgn w y
  | ICMP_SLE => sgn w x <=? sgn w y
  end.

Definition ofBool (b : bool) : val := VInt 1 (if b then 1 else 0).

Definition intOf (v : val) : option Z := match v with VInt b z => Some (wrap b z) | _ => None end.

(** The integers of a list of values, if all are. *)
Definition intsOf (l : list val) : option (list Z) := mapM intOf l.

Definition onInt (v : val) (f : Z → val) : val := match intOf v with Some z => f z | None => VUndef end.

Fixpoint evalExpr (e : env) (x : expr) : val :=
  match x with
  | EOp o => evalOperand e o
  | ECall name bits xs => match intsOf (map (evalExpr e) xs) with Some zs => VInt bits (wrap bits (routine name zs)) | None => VUndef end
  | EICmp p w x y => onInt (evalExpr e x) (λ a, onInt (evalExpr e y) (λ b, ofBool (icmp p w a b)))
  | EAnd w x y => onInt (evalExpr e x) (λ a, onInt (evalExpr e y) (λ b, VInt w (Z.land a b)))
  | EOr w x y => onInt (evalExpr e x) (λ a, onInt (evalExpr e y) (λ b, VInt w (Z.lor a b)))
  | ENot x => onInt (evalExpr e x) (λ a, VInt 1 (Z.lxor a 1))
  | ESExtOrTrunc from to x => onInt (evalExpr e x) (λ a, VInt to (wrap to (sgn from a)))
  | EZExtOrTrunc _ to x => onInt (evalExpr e x) (λ a, VInt to (wrap to a))
  end.

(** The bits of a floating-point value of the given type. *)
Definition floatBits (f32 : bool) (v : val) : option Z :=
  match f32, v with true, VFloat z => Some (wrap 32 z) | false, VDouble z => Some (wrap 64 z) | _, _ => None end.

Definition onFloat (f32 : bool) (v : val) (f : Z → val) : val := match floatBits f32 v with Some z => f z | None => VUndef end.

Definition mkFloat (f32 : bool) (z : Z) : val := if f32 then VFloat (wrap 32 z) else VDouble (wrap 64 z).

(** A reinterpretation of a scalar. *)
Definition scalarBits (t : type) (v : val) : option (Z * Z) :=
  match t, v with
  | IntegerTy b, VInt k z => if b =? k then Some (b, z) else None
  | FloatTy, VFloat z => Some (32, z)
  | DoubleTy, VDouble z => Some (64, z)
  | _, _ => None
  end.

Definition ofBits (t : type) (w z : Z) : val :=
  match t with
  | IntegerTy b => if b =? w then VInt b z else VUndef
  | FloatTy => if w =? 32 then VFloat z else VUndef
  | DoubleTy => if w =? 64 then VDouble z else VUndef
  | _ => VUndef
  end.

Definition bitcast (from to : type) (v : val) : val :=
  match from, to, v with
  | PointerTy, PointerTy, VPtr z => VPtr z
  | _, _, _ => match scalarBits from v with Some (w, z) => ofBits to w z | None => VUndef end
  end.

(** [sgn] of an integer of [bits] bits, or the integer. *)
Definition integerOf (signed : bool) (bits : Z) (v : val) : option Z :=
  match v with
  | VInt b z => if (b =? bits) && (0 <? bits) then Some (if signed then sgn bits (wrap bits z) else wrap bits z) else None
  | _ => None
  end.

Definition fits (signed : bool) (bits n : Z) : bool :=
  if signed then (- 2 ^ (bits - 1) <=? n) && (n <? 2 ^ (bits - 1)) else (0 <=? n) && (n <? 2 ^ bits).

Fixpoint extract (v : val) (indices : list nat) : val :=
  match indices with
  | [] => v
  | i :: indices => match v with VAgg l => extract (default VUndef (l !! i)) indices | _ => VUndef end
  end.

Fixpoint insert (v x : val) (indices : list nat) : val :=
  match indices with
  | [] => x
  | i :: indices => match v with VAgg l => VAgg (<[i := insert (default VUndef (l !! i)) x indices]> l) | _ => VUndef end
  end.

Definition isPlain (v : val) : bool := match v with VInt _ _ | VPtr _ => true | _ => false end.

(** The instructions without effects. *)
Definition evalPure (e : env) (i : instr) : option val :=
  let ev := evalOperand e in
  match i with
  | IBitCast from to x => Some (bitcast from to (ev x))
  | IFBinary op f32 x y => Some (onFloat f32 (ev x) (λ a, onFloat f32 (ev y) (λ b, mkFloat f32 (fbinary op f32 a b))))
  | IFNeg f32 x => Some (onFloat f32 (ev x) (λ a, mkFloat f32 (Z.lxor a (signMask f32))))
  | IFCmp p f32 x y => Some (onFloat f32 (ev x) (λ a, onFloat f32 (ev y) (λ b, ofBool (fcmp p (fcompare f32 a b)))))
  | IFPExt x => Some (onFloat true (ev x) (λ a, mkFloat false (fextend a)))
  | IFPTrunc x => Some (onFloat false (ev x) (λ a, mkFloat true (ftruncate a)))
  | IToFP signed bits toF32 x =>
      Some (match integerOf signed bits (ev x) with Some n => mkFloat toF32 (fromInteger toF32 n) | None => VUndef end)
  | IFPToI signed fromF32 bits x =>
      Some (onFloat fromF32 (ev x) (λ a,
        match toInteger fromF32 a with
        | Some n => if (0 <? bits) && fits signed bits n then VInt bits (wrap bits n) else VUndef
        | None => VUndef
        end))
  | IClass f32 x mask =>
      Some (match mask with
            | Const (CInt _ mask) =>
                if (0 <=? mask) && (mask <=? fcAllFlags)
                then onFloat f32 (ev x) (λ a, ofBool (negb (Z.land mask (classOf f32 a) =? 0))) else VUndef
            | _ => VUndef
            end)
  | IFMulAdd f32 x y z =>
      Some (onFloat f32 (ev x) (λ a, onFloat f32 (ev y) (λ b, onFloat f32 (ev z) (λ c,
        mkFloat f32 (fbinary FAdd f32 (wrap (widthOf f32) (fbinary FMul f32 a b)) c)))))
  | ISelect _ c x y => Some (match ev c with VInt 1 z => if wrap 1 z =? 1 then ev x else ev y | _ => VUndef end)
  | IExtract _ x l => Some (extract (ev x) l)
  | IInsert _ x v l => Some (insert (ev x) (ev v) l)
  | IOther op t xs =>
      let vs := map ev xs in
      Some (if forallb isPlain vs then let v := other op t vs in if isPlain v then v else VUndef else VUndef)
  | IExpr _ x => Some (evalExpr e x)
  | _ => None
  end.

(** ** Memory *)

Fixpoint loadVal (t : type) (m : mem) (a : Z) {struct t} : val :=
  match t with
  | IntegerTy b => VInt b (wrap b (loadLE m a (Z.to_nat ((b + 7) / 8))))
  | FloatTy => VFloat (wrap 32 (loadLE m a 4))
  | DoubleTy => VDouble (wrap 64 (loadLE m a 8))
  | PointerTy => VPtr (loadLE m a 8)
  | ArrayTy n e => VAgg (map (λ i, loadVal e m (a + Z.of_nat i * sizeOf e)) (seq 0 n))
  | StructTy _ p ts =>
      VAgg ((fix fields (i : nat) (l : list type) : list val :=
        match l with [] => [] | t :: l => loadVal t m (a + offsetOf p ts i) :: fields (S i) l end) 0%nat ts)
  | _ => VUndef
  end.

(** [None]: the value is not of the type, or undefined. *)
Fixpoint storeVal (t : type) (v : val) (m : mem) (a : Z) {struct t} : option mem :=
  match t, v with
  | IntegerTy b, VInt k z => if b =? k then Some (storeLE m a (Z.to_nat ((b + 7) / 8)) z) else None
  | FloatTy, VFloat z => Some (storeLE m a 4 z)
  | DoubleTy, VDouble z => Some (storeLE m a 8 z)
  | PointerTy, VPtr z => Some (storeLE m a 8 z)
  | ArrayTy n e, VAgg l =>
      if Nat.eqb (length l) n then
        (fix elements (i : nat) (l : list val) (m : mem) : option mem :=
          match l with
          | [] => Some m
          | v :: l => match storeVal e v m (a + Z.of_nat i * sizeOf e) with Some m => elements (S i) l m | None => None end
          end) 0%nat l m
      else None
  | StructTy _ p ts, VAgg l =>
      (fix fields (i : nat) (us : list type) (l : list val) (m : mem) : option mem :=
        match us, l with
        | [], [] => Some m
        | u :: us, v :: l => match storeVal u v m (a + offsetOf p ts i) with Some m => fields (S i) us l m | None => None end
        | _, _ => None
        end) 0%nat ts l m
  | _, _ => None
  end.

(** ** Programs *)

Definition lookupFunction (p : program) (name : string) : option func :=
  snd <$> head (filter (λ nf : string * func, nf.1 = name ∧ f_blocks nf.2 ≠ []) p).

Definition calleeName (e : env) (f : callee) : option string :=
  match f with
  | Direct name => Some name
  | Indirect o => match evalOperand e o with VPtr z => functionAt z | _ => None end
  end.

(** One instruction; [call] runs a function. *)
Definition execInstr (call : string → list val → mem → option (val * mem)) (e : env) (m : mem) (i : instr) : option (val * mem) :=
  let ev := evalOperand e in
  match evalPure e i with
  | Some v => Some (v, m)
  | None =>
      match i with
      | ICall f _ xs => match calleeName e f with Some name => call name (map ev xs) m | None => None end
      | IIntrinsic id f32 xs => match cFunction id f32 with Some name => call name (map ev xs) m | None => None end
      | ILoad t p => match ev p with VPtr a => Some (loadVal t m a, m) | _ => None end
      | IStore t x p =>
          match ev p with
          | VPtr a => match storeVal t (ev x) m a with Some m => Some (VUndef, m) | None => None end
          | _ => None
          end
      | IVAArg t p =>
          match ev p with
          | VPtr a => match vaNext (sizeOf t) (alignOf t) a m with Some (at_, m) => Some (loadVal t m at_, m) | None => None end
          | _ => None
          end
      | _ => None
      end
  end.

Fixpoint execBody (call : string → list val → mem → option (val * mem)) (e : env) (m : mem) (body : list (nat * instr)) :
    option (env * mem) :=
  match body with
  | [] => Some (e, m)
  | (r, i) :: body => match execInstr call e m i with Some (v, m) => execBody call (setReg e r v) m body | None => None end
  end.

(** The phis of a block read the registers as they were. *)
Definition incoming (e : env) (prev : nat) (p : phi) : val :=
  match head (filter (λ i : nat * operand, i.1 = prev) (ph_incoming p)) with Some i => evalOperand e i.2 | None => VUndef end.

Definition execPhis (e : env) (prev : nat) (l : list phi) : env := foldl (λ e' p, setReg e' (ph_reg p) (incoming e prev p)) e l.

Fixpoint runBlock (p : program) (fuel : nat) (f : func) (e : env) (prev l : nat) (m : mem) {struct fuel} : option (val * mem) :=
  match fuel with
  | O => None
  | S fuel =>
      let call name xs m :=
        match lookupFunction p name with
        | Some g => runBlock p fuel g (Env (λ _, VUndef) xs) 0 0 m
        | None => external name xs m
        end in
      match f_blocks f !! l with
      | None => None
      | Some b =>
          match execBody call (execPhis e prev (b_phis b)) m (b_body b) with
          | None => None
          | Some (e, m) =>
              match b_term b with
              | Br l' => runBlock p fuel f e l l' m
              | CondBr c yes no =>
                  match evalOperand e c with
                  | VInt 1 z => runBlock p fuel f e l (if wrap 1 z =? 1 then yes else no) m
                  | _ => None
                  end
              | Ret x => Some (match x with Some x => evalOperand e x | None => VUndef end, m)
              | Unreachable => None
              end
          end
      end
  end.

(** Running a function of a program. *)
Definition runFunction (p : program) (fuel : nat) (name : string) (xs : list val) (m : mem) : option (val * mem) :=
  match lookupFunction p name with
  | Some g => runBlock p fuel g (Env (λ _, VUndef) xs) 0 0 m
  | None => external name xs m
  end.
End run.
