(* ===== verification/SoftFloatClass.v ===== *)
(** * Classification and comparison on bits

    The integer tests emitted for [llvm.is.fpclass] decide, for every mask,
    whether the value is in one of its classes; the calls emitted for the
    fourteen comparisons decide their predicate. *)

From Stdlib Require Import ZArith Lia.
From stdpp Require Import base numbers list gmap strings.
From S2P Require Import Prelude Bytes SoftFloat SoftFloatRun.
Import SoftFloat.

Local Open Scope Z_scope.

(** ** Bits *)

Definition mantissaBits (f32 : bool) : Z := if f32 then 23 else 52.

Lemma magnitude_range f32 x : 0 <= magnitudeOf f32 x < 2 ^ (widthOf f32 - 1).
Proof. unfold magnitudeOf. rewrite Z.land_ones by (by destruct f32). apply Z.mod_pos_bound. by destruct f32. Qed.

(** The exponent field of a magnitude. *)
Lemma exponent_part f32 m : 0 <= m < 2 ^ (widthOf f32 - 1) →
  Z.land m (exponentMask f32) = m / 2 ^ mantissaBits f32 * 2 ^ mantissaBits f32.
Proof.
  intros Hm. set (k := mantissaBits f32). assert (Hk : 0 <= k) by (unfold k; by destruct f32).
  assert (E : exponentMask f32 = Z.shiftl (Z.ones (widthOf f32 - 1 - k)) k) by (by destruct f32). rewrite E.
  rewrite <-(Z.shiftl_mul_pow2 _ k) by done. rewrite <-Z.shiftr_div_pow2 by done. apply Z.bits_inj'. intros i Hi.
  rewrite Z.land_spec, !Z.shiftl_spec by done. destruct (decide (i < k)) as [Hlt|Hge].
  { rewrite !(Z.testbit_neg_r _ (i - k)) by lia. by rewrite andb_false_r. }
  rewrite Z.shiftr_spec by lia. replace (i - k + k) with i by lia.
  destruct (decide (i < widthOf f32 - 1)) as [Hlt|Hbig].
  - rewrite Z.ones_spec_low by lia. by rewrite andb_true_r.
  - rewrite Z.ones_spec_high by (destruct f32; simpl in *; lia). rewrite andb_false_r. symmetry.
    destruct (decide (m = 0)) as [->|Hne]; [apply Z.bits_0|]. apply Z.bits_above_log2; [lia|].
    apply Z.log2_lt_pow2; [lia|]. eapply Z.lt_le_trans; [apply Hm|]. apply Z.pow_le_mono_r; lia.
Qed.

Lemma exponentMask_value f32 : exponentMask f32 = (2 ^ (widthOf f32 - 1 - mantissaBits f32) - 1) * 2 ^ mantissaBits f32.
Proof. by destruct f32. Qed.

Lemma exponent_above f32 m : exponentMask f32 <= m < 2 ^ (widthOf f32 - 1) → Z.land m (exponentMask f32) = exponentMask f32.
Proof.
  intros Hm. assert (0 <= exponentMask f32) by (by destruct f32). rewrite exponent_part by lia. rewrite (exponentMask_value f32) in *.
  set (k := mantissaBits f32) in *. assert (Hk : 0 < 2 ^ k) by (unfold k; by destruct f32). f_equal.
  assert (E : 2 ^ (widthOf f32 - 1) = 2 ^ (widthOf f32 - 1 - k) * 2 ^ k) by (unfold k; by destruct f32).
  assert (m / 2 ^ k < 2 ^ (widthOf f32 - 1 - k)) by (apply Z.div_lt_upper_bound; lia).
  assert (2 ^ (widthOf f32 - 1 - k) - 1 <= m / 2 ^ k) by (apply Z.div_le_lower_bound; lia). lia.
Qed.

Lemma exponent_below f32 m : 0 <= m < exponentMask f32 → Z.land m (exponentMask f32) ≠ exponentMask f32.
Proof.
  intros Hm. assert (exponentMask f32 < 2 ^ (widthOf f32 - 1)) by (by destruct f32). rewrite exponent_part by lia.
  assert (0 < 2 ^ mantissaBits f32) by (by destruct f32). pose proof (Z.mul_div_le m (2 ^ mantissaBits f32)). lia.
Qed.

Lemma sign_negative f32 x : word f32 x → (sgn (widthOf f32) x <? 0) = signOf f32 x.
Proof.
  unfold word, sgn, signOf. intros Hx. set (w := widthOf f32) in *. assert (Hw : 0 < w) by (unfold w; by destruct f32).
  assert (E2 : 2 ^ w = 2 * 2 ^ (w - 1)) by (rewrite <-Z.pow_succ_r by lia; f_equal; lia). pose proof (pow2_pos (w - 1) ltac:(lia)).
  rewrite Z.testbit_odd, Z.shiftr_div_pow2 by lia. destruct (Z.ltb_spec x (2 ^ (w - 1))).
  - rewrite Z.div_small by lia. destruct (Z.ltb_spec x 0); [lia|done].
  - replace (x / 2 ^ (w - 1)) with 1 by (apply Z.div_unique with (x - 2 ^ (w - 1)); lia). by destruct (Z.ltb_spec (x - 2 ^ w) 0); [|lia].
Qed.

(** ** Boolean integer code *)

Section eval.
Context {RT : Routines} {EX : Externals} (e : env).

Notation evals x b := (evalExpr e x = ofBool b).

Lemma eval_and x y a b : evals x a → evals y b → evals (EAnd 1 x y) (a && b).
Proof. intros Hx Hy. cbn. rewrite Hx, Hy. by destruct a, b. Qed.

Lemma eval_or x y a b : evals x a → evals y b → evals (EOr 1 x y) (a || b).
Proof. intros Hx Hy. cbn. rewrite Hx, Hy. by destruct a, b. Qed.

Lemma eval_not x a : evals x a → evals (ENot x) (negb a).
Proof. intros Hx. cbn. rewrite Hx. by destruct a. Qed.

Lemma eval_getBool b : evals (getBool b) b.
Proof. by destruct b. Qed.

(** Comparison of an integer with a constant. *)
Lemma eval_icmp p w x a k : intOf (evalExpr e x) = Some a → 0 <= k < 2 ^ w →
  evals (EICmp p w x (constantOf w k)) (icmp p w a k).
Proof. intros Hx Hk. cbn [evalExpr constantOf evalOperand evalConstant]. unfold onInt. rewrite Hx. cbn [intOf]. by rewrite wrap_small. Qed.

Lemma eval_mask w x a k : intOf (evalExpr e x) = Some a → 0 <= a < 2 ^ w → 0 <= k < 2 ^ w → 0 < w →
  intOf (evalExpr e (EAnd w x (constantOf w k))) = Some (Z.land a k).
Proof.
  intros Hx Ha Hk Hw. cbn [evalExpr constantOf evalOperand evalConstant]. unfold onInt. rewrite Hx. cbn [intOf]. f_equal.
  rewrite (wrap_small w k) by done. apply wrap_small. split; [apply Z.land_nonneg; lia|].
  destruct (decide (Z.land a k = 0)) as [->|Hne]; [apply pow2_pos; lia|].
  assert (0 <= Z.land a k) by (apply Z.land_nonneg; lia). apply Z.log2_lt_pow2; [lia|].
  eapply Z.le_lt_trans; [apply Z.log2_land; lia|]. apply Z.min_lt_iff. left. apply Z.log2_lt_pow2; [|lia].
  destruct (decide (a = 0)) as [->|]; [done|lia].
Qed.

(** ** The class tests *)

Record flags := Flags { fl_nan : bool; fl_inf : bool; fl_zero : bool; fl_normal : bool; fl_subnormal : bool; fl_finite : bool; fl_negative : bool; fl_quiet : bool }.

(** What [lowerFPClass] computes from the flags. *)
Definition signedFlag (mask : Z) (predicate negative : bool) (n p : Z) : bool :=
  if wants mask n && wants mask p then predicate
  else if wants mask n then predicate && negative else if wants mask p then predicate && negb negative else false.

Definition classTest (mask : Z) (f : flags) : bool :=
  if mask =? 0 then false
  else if mask =? fcAllFlags then true
  else if mask =? fcNan then fl_nan f
  else if mask =? fcInf then fl_inf f
  else if mask =? fcNormal then fl_normal f
  else if mask =? fcSubnormal then fl_subnormal f
  else if mask =? fcZero then fl_zero f
  else if mask =? fcFinite then fl_finite f
  else if mask =? fcPosFinite then negb (fl_negative f) && fl_finite f
  else if mask =? fcNegFinite then fl_negative f && fl_finite f
  else if mask =? fcPositive then negb (fl_negative f) && negb (fl_nan f)
  else if mask =? fcNegative then fl_negative f && negb (fl_nan f)
  else
    (if wants mask fcNan then
       if Z.land mask fcNan =? fcNan then fl_nan f else fl_nan f && (if wants mask fcQNan then fl_quiet f else negb (fl_quiet f))
     else false) ||
    signedFlag mask (fl_inf f) (fl_negative f) fcNegInf fcPosInf || signedFlag mask (fl_normal f) (fl_negative f) fcNegNormal fcPosNormal ||
    signedFlag mask (fl_subnormal f) (fl_negative f) fcNegSubnormal fcPosSubnormal || signedFlag mask (fl_zero f) (fl_negative f) fcNegZero fcPosZero.

Definition flagsOf (f32 : bool) (x : Z) : flags :=
  let m := magnitudeOf f32 x in
  let ex := Z.land m (exponentMask f32) in
  Flags (exponentMask f32 <? m) (m =? exponentMask f32) (m =? 0) (negb (ex =? 0) && negb (ex =? exponentMask f32))
    ((ex =? 0) && negb (m =? 0)) (m <? exponentMask f32) (signOf f32 x) (negb (Z.land x (quietMask f32) =? 0)).

Lemma eval_signed f32 mask bits predicate n p result a r neg :
  evals predicate a → evals result r → evals (isNegative f32 bits) neg →
  evals (includeSigned f32 mask bits predicate n p result) (r || signedFlag mask a neg n p).
Proof.
  intros Ha Hr Hn. unfold includeSigned, signedFlag. destruct (wants mask n), (wants mask p); cbn [andb]; try (rewrite orb_false_r; done);
    apply eval_or; auto using eval_and, eval_not.
Qed.

Lemma lowerFPClass_flags f32 mask bits x :
  intOf (evalExpr e bits) = Some x → word f32 x → evals (lowerFPClass f32 mask bits) (classTest mask (flagsOf f32 x)).
Proof.
  intros Hb Hx. set (w := widthOf f32). assert (Hw : 0 < w) by (unfold w; by destruct f32).
  assert (Hrange : ∀ k, k ∈ [0; exponentMask f32; quietMask f32; wrap w (Z.lnot (signMask f32))] → 0 <= k < 2 ^ w).
  { intros k Hk. rewrite !elem_of_cons, elem_of_nil in Hk. unfold w. destruct f32; destruct_or! Hk; subst; try done. }
  assert (Hm : intOf (evalExpr e (magnitude f32 bits)) = Some (magnitudeOf f32 x)).
  { unfold magnitude. fold w. rewrite (eval_mask w bits x) by (done || apply Hrange; set_solver). f_equal. unfold w. by destruct f32. }
  pose proof (magnitude_range f32 x) as Hmr. set (m := magnitudeOf f32 x) in *.
  assert (Hmw : 0 <= m < 2 ^ w) by (unfold w; destruct f32; simpl in *; lia).
  assert (He : intOf (evalExpr e (exponent f32 bits)) = Some (Z.land m (exponentMask f32))).
  { unfold exponent. fold w. apply eval_mask; try done. apply Hrange. set_solver. }
  assert (Hq : intOf (evalExpr e (EAnd w bits (constantOf w (quietMask f32)))) = Some (Z.land x (quietMask f32))).
  { apply eval_mask; try done. apply Hrange. set_solver. }
  assert (K : ∀ p y a k, intOf (evalExpr e y) = Some a → k ∈ [0; exponentMask f32] → evals (EICmp p w y (constantOf w k)) (icmp p w a k)).
  { intros p y a k Hy Hk. apply eval_icmp; [done|]. apply Hrange. set_solver. }
  assert (Inan : evals (isNan f32 bits) (exponentMask f32 <? m)) by (apply (K ICMP_UGT); [done|set_solver]).
  assert (Iinf : evals (isInf f32 bits) (m =? exponentMask f32)) by (apply (K ICMP_EQ); [done|set_solver]).
  assert (Izero : evals (isZero f32 bits) (m =? 0)) by (apply (K ICMP_EQ); [done|set_solver]).
  assert (Ifin : evals (isFinite f32 bits) (m <? exponentMask f32)) by (apply (K ICMP_ULT); [done|set_solver]).
  assert (Inn : evals (notNan f32 bits) (negb (exponentMask f32 <? m))).
  { rewrite <-Z.leb_antisym. apply (K ICMP_ULE); [done|set_solver]. }
  assert (Inorm : evals (isNormal f32 bits) (negb (Z.land m (exponentMask f32) =? 0) && negb (Z.land m (exponentMask f32) =? exponentMask f32))).
  { apply eval_and; apply (K ICMP_NE); (done || set_solver). }
  assert (Isub : evals (isSubnormal f32 bits) ((Z.land m (exponentMask f32) =? 0) && negb (m =? 0))).
  { apply eval_and; [apply (K ICMP_EQ)|apply (K ICMP_NE)]; (done || set_solver). }
  assert (Ineg : evals (isNegative f32 bits) (signOf f32 x)).
  { rewrite <-sign_negative by done. replace 0 with (sgn w 0) at 1 by (unfold w; by destruct f32). apply (K ICMP_SLT); [done|set_solver]. }
  assert (Iq : evals (quiet f32 bits) (negb (Z.land x (quietMask f32) =? 0))) by (apply (K ICMP_NE); [done|set_solver]).
  unfold lowerFPClass, classTest, flagsOf. fold m. cbv zeta. cbn [fl_nan fl_inf fl_zero fl_normal fl_subnormal fl_finite fl_negative fl_quiet].
  repeat (case_match; [solve [done|auto using eval_and, eval_not, eval_getBool]|]).
  repeat (apply eval_signed; [done| |done]). unfold includeNan. destruct (wants mask fcNan); [|apply eval_getBool].
  destruct (Z.land mask fcNan =? fcNan); apply (eval_or _ _ false); auto using eval_getBool.
  destruct (wants mask fcQNan); (apply eval_and; [done|]); auto using eval_not.
Qed.
End eval.

(** The flags of each class. *)
Definition flagsOfClass (c : Z) (negative quiet : bool) : flags :=
  Flags ((c =? fcSNan) || (c =? fcQNan)) ((c =? fcNegInf) || (c =? fcPosInf)) ((c =? fcNegZero) || (c =? fcPosZero))
    ((c =? fcNegNormal) || (c =? fcPosNormal)) ((c =? fcNegSubnormal) || (c =? fcPosSubnormal))
    (negb ((c =? fcSNan) || (c =? fcQNan) || (c =? fcNegInf) || (c =? fcPosInf))) negative quiet.

(** Sign and quiet bit agree with the class. *)
Definition agrees (c : Z) (negative quiet : bool) : bool :=
  match negative, quiet with n, q =>
    if c =? fcSNan then negb q else if c =? fcQNan then q else Bool.eqb n (negb (Z.land c (fcNegInf + fcNegNormal + fcNegSubnormal + fcNegZero) =? 0))
  end.

Definition classes : list Z := [fcSNan; fcQNan; fcNegInf; fcNegNormal; fcNegSubnormal; fcNegZero; fcPosZero; fcPosSubnormal; fcPosNormal; fcPosInf].

Lemma flags_class f32 x : word f32 x →
  classOf f32 x ∈ classes ∧ flagsOf f32 x = flagsOfClass (classOf f32 x) (signOf f32 x) (negb (Z.land x (quietMask f32) =? 0)) ∧
  agrees (classOf f32 x) (signOf f32 x) (negb (Z.land x (quietMask f32) =? 0)) = true.
Proof.
  intros Hx. unfold flagsOf, classOf. cbv zeta. pose proof (magnitude_range f32 x) as Hm. set (m := magnitudeOf f32 x) in *.
  assert (Hem : 0 < exponentMask f32) by (by destruct f32).
  destruct (Z.ltb_spec (exponentMask f32) m) as [H1|H1].
  - rewrite exponent_above by lia. rewrite Z.eqb_refl. destruct (Z.eqb_spec m (exponentMask f32)), (Z.eqb_spec m 0), (Z.eqb_spec (exponentMask f32) 0),
      (Z.ltb_spec m (exponentMask f32)); try lia. destruct (Z.land x (quietMask f32) =? 0), (signOf f32 x); (split; [unfold classes; set_solver|done]).
  - destruct (Z.eqb_spec m (exponentMask f32)) as [->|H2].
    { rewrite exponent_above by lia. rewrite Z.eqb_refl, Z.ltb_irrefl. destruct (Z.eqb_spec (exponentMask f32) 0); [lia|].
      destruct (Z.land x (quietMask f32) =? 0), (signOf f32 x); (split; [unfold classes; set_solver|done]). }
    pose proof (exponent_below f32 m ltac:(lia)) as H3. apply Z.eqb_neq in H3. rewrite H3. destruct (Z.ltb_spec m (exponentMask f32)); [|lia].
    destruct (Z.eqb_spec m 0) as [->|H0].
    { rewrite Z.land_0_l. destruct (Z.land x (quietMask f32) =? 0), (signOf f32 x); (split; [unfold classes; set_solver|done]). }
    destruct (Z.land m (exponentMask f32) =? 0), (Z.land x (quietMask f32) =? 0), (signOf f32 x); (split; [unfold classes; set_solver|done]).
Qed.

(** Every mask against every class. *)
Lemma classTest_table :
  forallb (λ mask, forallb (λ c, forallb (λ n, forallb (λ q, implb (agrees c n q)
    (Bool.eqb (classTest mask (flagsOfClass c n q)) (negb (Z.land mask c =? 0)))) [true; false]) [true; false]) classes) (seqZ 0 1024) = true.
Proof. by vm_compute. Qed.

Lemma classTest_class mask c n q : 0 <= mask <= fcAllFlags → c ∈ classes → agrees c n q = true →
  classTest mask (flagsOfClass c n q) = negb (Z.land mask c =? 0).
Proof.
  intros Hm Hc Ha. pose proof classTest_table as H. rewrite forallb_forall in H.
  specialize (H mask). rewrite <-list_elem_of_In, elem_of_seqZ in H. specialize (H ltac:(unfold fcAllFlags in Hm; lia)).
  rewrite forallb_forall in H. specialize (H c). rewrite <-list_elem_of_In in H. specialize (H Hc).
  rewrite forallb_forall in H. specialize (H n (ltac:(destruct n; simpl; auto))). rewrite forallb_forall in H.
  specialize (H q (ltac:(destruct q; simpl; auto))). rewrite Ha in H. by apply eqb_prop in H.
Qed.

(** ** Comparisons *)

Section compare.
Context {FO : FloatOps} {RT : Routines} {RLaws : RoutineLaws FO RT} {EX : Externals} (e : env).

Lemma eval_call name bits xs zs : intsOf (map (evalExpr e) xs) = Some zs →
  evalExpr e (ECall name bits xs) = VInt bits (wrap bits (routine name zs)).
Proof. intros H. cbn [evalExpr]. by rewrite H. Qed.

Lemma intsOf_two u v a b : intOf u = Some a → intOf v = Some b → intsOf [u; v] = Some [a; b].
Proof. intros Hu Hv. unfold intsOf. cbn. by rewrite Hu, Hv. Qed.

Lemma intsOf_one u a : intOf u = Some a → intsOf [u] = Some [a].
Proof. intros Hu. unfold intsOf. cbn. by rewrite Hu. Qed.

Lemma eval_compare name i x y a b : intOf (evalExpr e x) = Some a → intOf (evalExpr e y) = Some b →
  evalExpr e (compareCall (name, i) x y) = ofBool (icmp i 64 (routine name [a; b] mod 2 ^ 64) 0).
Proof.
  intros Hx Hy. unfold compareCall. cbn [fst snd]. apply eval_icmp; [|done].
  rewrite (eval_call _ _ _ [a; b]) by (by apply intsOf_two). cbn [intOf]. by rewrite wrap_idemp.
Qed.

Lemma sgn_cases r : Z.sgn r = -1 ∧ r < 0 ∨ Z.sgn r = 0 ∧ r = 0 ∨ Z.sgn r = 1 ∧ 0 < r.
Proof. destruct r; simpl; lia. Qed.

Definition isSigned (i : int_predicate) : bool := match i with ICMP_SLT | ICMP_SLE | ICMP_SGT | ICMP_SGE => true | _ => false end.

Lemma signed_icmp i r c : isSigned i = true → Z.sgn (sgn 64 r) = c →
  icmp i 64 r 0 = match i with ICMP_SLT => c =? -1 | ICMP_SLE => c <=? 0 | ICMP_SGT => c =? 1 | _ => 0 <=? c end.
Proof.
  intros Hi <-. destruct i; try done; cbn [icmp]; change (sgn 64 0) with 0;
    destruct (sgn_cases (sgn 64 r)) as [[-> H]|[[-> H]|[-> H]]];
    (destruct (Z.ltb_spec (sgn 64 r) 0) || destruct (Z.leb_spec (sgn 64 r) 0) || destruct (Z.ltb_spec 0 (sgn 64 r)) || destruct (Z.leb_spec 0 (sgn 64 r))); (done || lia).
Qed.

Lemma zero_decides r (P : Prop) `{Decision P} : (r = 0 ↔ P) → (r =? 0) = bool_decide P.
Proof. intros E. case_bool_decide as Hp; [by apply Z.eqb_eq, E|]. apply Z.eqb_neq. by rewrite E. Qed.

Lemma lowerFCmp_correct p f32 x y a b :
  intOf (evalExpr e x) = Some a → intOf (evalExpr e y) = Some b → word f32 a → word f32 b →
  evalExpr e (lowerFCmp p f32 x y) = ofBool (fcmp p (fcompare f32 a b)).
Proof.
  intros Hx Hy Ha Hb. pose proof (routine_eq f32 a b Ha Hb) as Heq. pose proof (routine_unord f32 a b Ha Hb) as Hun.
  pose proof (routine_le f32 a b Ha Hb) as Hle. pose proof (routine_ge f32 a b Ha Hb) as Hge.
  set (re := routine (eqLibcall f32) [a; b] mod 2 ^ 64) in *. set (ru := routine (unordLibcall f32) [a; b] mod 2 ^ 64) in *.
  pose proof (zero_decides re _ Heq) as Ee. pose proof (zero_decides ru _ Hun) as Eu.
  assert (K : ∀ name i c, evalExpr e (compareCall (name, i) x y) = ofBool c ↔ ofBool (icmp i 64 (routine name [a; b] mod 2 ^ 64) 0) = ofBool c)
    by (intros; by rewrite (eval_compare _ _ _ _ a b Hx Hy)).
  unfold lowerFCmp. destruct p; cbn [comparisonLibcall]; try apply eval_getBool;
    try (apply K; f_equal; (erewrite signed_icmp; [|reflexivity|(exact Hle || exact Hge)]);
         by destruct (fcompare f32 a b) as [[]|]).
  - apply K. cbn [icmp]. fold re. rewrite Ee. by destruct (fcompare f32 a b) as [[]|].
  - cbv zeta. rewrite (eval_and e _ _ _ _ (proj2 (K _ _ _) eq_refl) (proj2 (K _ _ _) eq_refl)). cbn [icmp]. fold re ru. rewrite Ee, Eu. by destruct (fcompare f32 a b) as [[]|].
  - apply K. cbn [icmp]. fold ru. rewrite Eu. by destruct (fcompare f32 a b) as [[]|].
  - apply K. cbn [icmp]. fold ru. rewrite Eu. by destruct (fcompare f32 a b) as [[]|].
  - cbv zeta. rewrite (eval_or e _ _ _ _ (proj2 (K _ _ _) eq_refl) (proj2 (K _ _ _) eq_refl)). cbn [icmp]. fold re ru. rewrite Ee, Eu. by destruct (fcompare f32 a b) as [[]|].
  - apply K. cbn [icmp]. fold re. rewrite Ee. by destruct (fcompare f32 a b) as [[]|].
Qed.
End compare.
