(* ===== verification/SoftFloatTypes.v ===== *)
(** * Retyping keeps layouts and removes floating point

    Types with decidable equality; the unsupported types are exactly those the
    classification finds; a retyped supported type has no floating point left
    and the layout of the original. *)

From Stdlib Require Import ZArith Lia.
From stdpp Require Import base numbers list gmap strings.
From S2P Require Import Prelude Bytes SoftFloat SoftFloatRun.
Import SoftFloat.

Local Open Scope Z_scope.

(** ** Induction and equality *)

Section induction.
Context (P : type → Prop)
  (Hleaf : ∀ t, (∀ n e, t ≠ ArrayTy n e) → (∀ n e, t ≠ VectorTy n e) → (∀ a p ts, t ≠ StructTy a p ts) →
     (∀ r ts v, t ≠ FunctionTy r ts v) → P t)
  (Harray : ∀ n e, P e → P (ArrayTy n e))
  (Hvector : ∀ n e, P e → P (VectorTy n e))
  (Hstruct : ∀ a p ts, Forall P ts → P (StructTy a p ts))
  (Hfunction : ∀ r ts v, P r → Forall P ts → P (FunctionTy r ts v)).

Fixpoint type_nested_ind (t : type) : P t.
Proof.
  pose (all := fix all l : Forall P l :=
    match l with [] => @List.Forall_nil _ P | x :: l => @List.Forall_cons _ P x l (type_nested_ind x) (all l) end).
  destruct t as [| | | | | | | | | |n e|n e|a p ts|r ts v];
    [..|apply Harray, type_nested_ind|apply Hvector, type_nested_ind|apply Hstruct, all|apply Hfunction; [apply type_nested_ind|apply all]];
    by apply Hleaf.
Defined.
End induction.

Definition typesEq : list type → list type → bool :=
  fix all ts us := match ts, us with [], [] => true | t :: ts, u :: us => typeEq t u && all ts us | _, _ => false end.

Lemma typesEq_spec ts : Forall (λ t, ∀ u, typeEq t u = true ↔ t = u) ts → ∀ us, typesEq ts us = true ↔ ts = us.
Proof.
  induction 1 as [|t ts Ht _ IH]; intros [|u us]; cbn; try done. rewrite andb_true_iff, Ht. fold typesEq. rewrite IH. naive_solver.
Qed.

Lemma typeEq_spec t u : typeEq t u = true ↔ t = u.
Proof.
  revert u. induction t as [t Ha Hv Hs Hf|n e IH|n e IH|a p ts IH|r ts v IHr IH] using type_nested_ind; intros u.
  - destruct t; try (by destruct (Ha count t)); try (by destruct (Hv count t)); try (by destruct (Hs name packed elements));
      try (by destruct (Hf t params vararg)); destruct u; cbn; try done. rewrite Z.eqb_eq. naive_solver.
  - destruct u; cbn; try done. rewrite andb_true_iff, Nat.eqb_eq, IH. naive_solver.
  - destruct u; cbn; try done. rewrite andb_true_iff, Nat.eqb_eq, IH. naive_solver.
  - destruct u; cbn; try done. fold typesEq. rewrite !andb_true_iff, bool_decide_eq_true, eqb_true_iff, typesEq_spec by done. naive_solver.
  - destruct u; cbn; try done. fold typesEq. rewrite !andb_true_iff, eqb_true_iff, IHr, typesEq_spec by done. naive_solver.
Qed.

#[global] Instance type_eq_dec : EqDecision type.
Proof. refine (λ t u, cast_if (decide (typeEq t u = true))); by rewrite <-typeEq_spec. Defined.

Lemma typeEq_refl t : typeEq t t = true.
Proof. by apply typeEq_spec. Qed.

(** ** Retyping *)

(** The two outcomes for a structure. *)
Lemma mapType_struct name packed ts :
  (map mapType ts = ts ∧ mapType (StructTy name packed ts) = StructTy name packed ts) ∨
  mapType (StructTy name packed ts) = StructTy ((λ n : string, (n ++ ".bpf_bits")%string) <$> name) packed (map mapType ts).
Proof.
  cbn [mapType]. destruct (typeEq _ _) eqn:E; [|by right]. apply typeEq_spec in E. injection E as E. by left.
Qed.

(** Supported types: float and double, alone or in aggregates. *)
Fixpoint supported (t : type) : Prop :=
  match t with
  | HalfTy | BFloatTy | X86_FP80Ty | FP128Ty | PPC_FP128Ty => False
  | ArrayTy _ e => supported e
  | VectorTy _ e => isFloatingPointTy e = false ∧ supported e
  | StructTy _ _ ts => foldr (λ t P, supported t ∧ P) True ts
  | FunctionTy r ts _ => supported r ∧ foldr (λ t P, supported t ∧ P) True ts
  | _ => True
  end.

Lemma supported_all ts : foldr (λ t P, supported t ∧ P) True ts ↔ Forall supported ts.
Proof. induction ts as [|t ts IH]; cbn; [done|]. by rewrite IH, Forall_cons. Qed.

(** No floating-point type anywhere. *)
Fixpoint floatFree (t : type) : bool :=
  negb (isFloatingPointTy t) &&
  match t with
  | ArrayTy _ e | VectorTy _ e => floatFree e
  | StructTy _ _ ts => forallb floatFree ts
  | FunctionTy r ts _ => floatFree r && forallb floatFree ts
  | _ => true
  end.

Lemma mapType_floatFree t : supported t → floatFree (mapType t) = true.
Proof.
  induction t as [t Ha Hv Hs Hf|n e IH|n e IH|a p ts IH|r ts v IHr IH] using type_nested_ind; intros H.
  - destruct t; try done; [by destruct (Ha count t)|by destruct (Hv count t)|by destruct (Hs name packed elements)|by destruct (Hf t params vararg)].
  - cbn in *. by apply IH.
  - cbn in *. apply IH. tauto.
  - cbn [supported] in H. rewrite supported_all in H.
    assert (Hall : forallb floatFree (map mapType ts) = true).
    { apply forallb_forall. intros x Hx. apply in_map_iff in Hx as (y & <- & Hy). apply list_elem_of_In in Hy.
      rewrite Forall_forall in IH, H. by apply IH; [|apply H]. }
    destruct (mapType_struct a p ts) as [[E ->]| ->]; cbn [floatFree isFloatingPointTy negb andb]; [by rewrite <-E|done].
  - cbn [supported] in H. rewrite supported_all in H. destruct H as [Hr H]. cbn. apply andb_true_iff. split; [by apply IHr|].
    apply forallb_forall. intros x Hx. apply in_map_iff in Hx as (y & <- & Hy). apply list_elem_of_In in Hy.
    rewrite Forall_forall in IH, H. by apply IH; [|apply H].
Qed.

(** Retyping keeps size, alignment and field offsets. *)
Section layout.
Context {LO : Layout} {LLaws : LayoutLaws LO}.

#[local] Instance sameShape_refl : Reflexive sameShape.
Proof. by intros t. Qed.

Lemma mapType_shape t : sameShape t (mapType t).
Proof.
  induction t as [t Ha Hv Hs Hf|n e IH|n e IH|a p ts IH|r ts v IHr IH] using type_nested_ind.
  - destruct t; try done; [apply shape_float|apply shape_double|by destruct (Ha count t)|by destruct (Hv count t)|
      by destruct (Hs name packed elements)|by destruct (Hf t params vararg)].
  - by apply shape_array.
  - by apply shape_vector.
  - destruct (mapType_struct a p ts) as [[_ ->]| ->]; [done|]. apply shape_struct.
    induction IH; cbn; constructor; auto.
  - apply shape_function.
Qed.

Lemma mapType_offsets p ts i : offsetOf p ts i = offsetOf p (map mapType ts) i.
Proof.
  apply (shape_struct None None p ts (map mapType ts)). induction ts; cbn; constructor; [apply mapType_shape|done].
Qed.
End layout.

(** ** Classification *)

Fixpoint tsize (t : type) : nat :=
  match t with
  | ArrayTy _ e | VectorTy _ e => S (tsize e)
  | StructTy _ _ ts => S (sum_list (map tsize ts))
  | FunctionTy r ts _ => S (tsize r + sum_list (map tsize ts))
  | _ => 1%nat
  end.

Lemma tsize_in t ts : t ∈ ts → (tsize t <= sum_list (map tsize ts))%nat.
Proof. induction ts as [|u ts IH]; [by intros ?%elem_of_nil|]. intros [->|H]%elem_of_cons; cbn; [lia|]. specialize (IH H). lia. Qed.

(** A type on which [f] holds occurs in [t]. *)
Fixpoint occurs (f : type → bool) (t : type) : bool :=
  f t ||
  match t with
  | ArrayTy _ e | VectorTy _ e => occurs f e
  | StructTy _ _ ts => existsb (occurs f) ts
  | FunctionTy r ts _ => occurs f r || existsb (occurs f) ts
  | _ => false
  end.

(** What each verdict stands for. *)
Definition causes (u : unsupported) (t : type) : bool :=
  match u, t with
  | Narrow, (HalfTy | BFloatTy) | Wide, (X86_FP80Ty | FP128Ty | PPC_FP128Ty) => true
  | Vector, VectorTy _ e => isFloatingPointTy e
  | _, _ => false
  end.

Definition mergeTypes : list type → unsupported → list type → unsupported * list type :=
  fix mergeAll ts result visited :=
    match ts with
    | [] => (result, visited)
    | t :: ts => let '(current, visited) := classifyVisited t visited in mergeAll ts (merge current result) visited
    end.

Lemma merge_None u r : merge u r = None_ ↔ u = None_ ∧ r = None_.
Proof. destruct u, r; naive_solver. Qed.

Lemma visited_spec t visited : existsb (typeEq t) visited = true ↔ t ∈ visited.
Proof.
  rewrite existsb_exists. split.
  - intros (u & Hu & E). apply typeEq_spec in E as ->. by apply list_elem_of_In.
  - intros H. exists t. split; [by apply list_elem_of_In|apply typeEq_refl].
Qed.

(** Seen types of the size of [n] or below are supported. *)
Definition clean (n : nat) (visited : list type) : Prop := ∀ s, s ∈ visited → (tsize s <= n)%nat → supported s.

(** The verdict on [t] and what it leaves in the set of seen types. *)
Definition sound (t : type) (visited : list type) (r : unsupported * list type) : Prop :=
  (r.1 = None_ ↔ supported t) ∧ (r.1 = None_ → ∀ s, s ∈ r.2 → s ∈ visited ∨ supported s).

Lemma clean_mono n k visited : (k <= n)%nat → clean n visited → clean k visited.
Proof. intros H Hc s Hs Hk. apply Hc; [done|lia]. Qed.

Lemma clean_cons t n visited : (n < tsize t)%nat → clean (tsize t) visited → clean n (t :: visited).
Proof. intros H Hc s [->|Hs]%elem_of_cons Hn; [lia|]. apply Hc; [done|lia]. Qed.

Lemma clean_next n visited visited' : clean n visited → (∀ s, s ∈ visited' → s ∈ visited ∨ supported s) → clean n visited'.
Proof. intros Hc H s Hs Hn. destruct (H s Hs); [by apply Hc|done]. Qed.

Lemma mergeTypes_sound n ts : Forall (λ t, ∀ V, clean (tsize t) V → sound t V (classifyVisited t V)) ts →
  (∀ t, t ∈ ts → (tsize t <= n)%nat) → ∀ r V, (r = None_ → clean n V) →
  ((mergeTypes ts r V).1 = None_ ↔ r = None_ ∧ Forall supported ts) ∧
  ((mergeTypes ts r V).1 = None_ → ∀ s, s ∈ (mergeTypes ts r V).2 → s ∈ V ∨ supported s).
Proof.
  induction 1 as [|t ts Ht _ IH]; intros Hn r V HV; cbn.
  { split; [|by auto]. rewrite Forall_nil. naive_solver. }
  destruct (classifyVisited t V) as [u V1] eqn:E. fold mergeTypes.
  destruct r as [| | |] eqn:Er; [|
    (destruct (IH (λ t H, Hn t (list_elem_of_further _ _ _ H)) (merge u r) V1) as [I1 I2];
      [rewrite merge_None; subst; intros [_ ?]; done|]; subst r; rewrite merge_None in I1;
      split; [naive_solver|]; intros H; by apply I1 in H as [[_ ?] _])..].
  assert (Hs : sound t V (u, V1)).
  { rewrite <-E. apply Ht. eapply clean_mono; [apply Hn|]; [by left|by apply HV]. }
  destruct Hs as [S1 S2]. cbn in S1, S2.
  destruct (IH (λ t H, Hn t (list_elem_of_further _ _ _ H)) (merge u None_) V1) as [I1 I2].
  { rewrite merge_None. intros [Hu _]. eapply clean_next; [by apply HV|by apply S2]. }
  rewrite merge_None in I1. rewrite Forall_cons. split; [naive_solver|].
  intros H s Hs. destruct (I2 H s Hs) as [Hs'|]; [|by right]. apply S2; [|done]. by apply I1 in H as [[? _] _].
Qed.

(** Reading off a verdict once [t] is among the seen types. *)
Lemma sound_seen t V u V' : (u = None_ ↔ supported t) → (u = None_ → ∀ s, s ∈ V' → s ∈ t :: V ∨ supported s) → sound t V (u, V').
Proof.
  intros H1 H2. split; [done|]. cbn. intros Hu s Hs. destruct (H2 Hu s Hs) as [[->|?]%elem_of_cons|?]; [right; by apply H1|by left|by right].
Qed.

Lemma sound_again t V : existsb (typeEq t) V = true → clean (tsize t) V → sound t V (classifyVisited t V).
Proof.
  intros Hin HV. assert (E : classifyVisited t V = (None_, V)) by (destruct t; cbn [classifyVisited]; by rewrite Hin).
  rewrite E. apply visited_spec in Hin. pose proof (HV t Hin (Nat.le_refl _)). split; cbn; [tauto|by auto].
Qed.

Lemma classifyVisited_sound t : ∀ V, clean (tsize t) V → sound t V (classifyVisited t V).
Proof.
  induction t as [t Ha Hv Hs Hf|n e IH|n e IH|a p ts IH|r ts v IHr IH] using type_nested_ind; intros V HV.
  all: match goal with |- sound ?t ?W _ => destruct (existsb (typeEq t) W) eqn:Hin; [by apply sound_again|] end.
  - assert (E : classifyVisited t V = (match t with HalfTy | BFloatTy => Narrow | X86_FP80Ty | FP128Ty | PPC_FP128Ty => Wide | _ => None_ end, t :: V)).
    { destruct t; cbn [classifyVisited]; rewrite Hin; try done; [by destruct (Ha count t)|by destruct (Hv count t)|
        by destruct (Hs name packed elements)|by destruct (Hf t params vararg)]. }
    rewrite E. apply sound_seen; [|by auto]. destruct t; cbn; try tauto; try (split; [done|tauto]);
      [by destruct (Ha count t)|by destruct (Hv count t)|by destruct (Hs name packed elements)|by destruct (Hf t params vararg)].
  - cbn [classifyVisited]. rewrite Hin. specialize (IH (ArrayTy n e :: V)). destruct (classifyVisited e _) as [u V1] eqn:E.
    destruct IH as [I1 I2]; [apply clean_cons; [cbn; lia|done]|]. cbn in I1, I2. apply sound_seen; cbn [supported].
    + rewrite merge_None. tauto.
    + rewrite merge_None. intros [? _]. auto.
  - cbn [classifyVisited]. rewrite Hin. destruct (isFloatingPointTy e) eqn:Ef.
    + apply sound_seen; cbn [supported]; [|by auto]. rewrite Ef. split; [done|]. by intros [? _].
    + specialize (IH (VectorTy n e :: V)). destruct (classifyVisited e _) as [u V1] eqn:E.
      destruct IH as [I1 I2]; [apply clean_cons; [cbn; lia|done]|]. cbn in I1, I2. apply sound_seen; cbn [supported]; [|done]. rewrite Ef. tauto.
  - cbn [classifyVisited]. rewrite Hin. fold mergeTypes. destruct (mergeTypes ts None_ (StructTy a p ts :: V)) as [u V1] eqn:E.
    destruct (mergeTypes_sound (sum_list (map tsize ts)) ts IH (λ t, tsize_in t ts) None_ (StructTy a p ts :: V)) as [I1 I2].
    { intros _. apply clean_cons; [cbn; lia|done]. }
    rewrite E in I1, I2. cbn in I1, I2. apply sound_seen; [|done]. cbn [supported]. rewrite supported_all. tauto.
  - cbn [classifyVisited]. rewrite Hin. fold mergeTypes. specialize (IHr (FunctionTy r ts v :: V)).
    destruct (classifyVisited r _) as [u V1] eqn:Er. destruct IHr as [R1 R2]; [apply clean_cons; [cbn; lia|done]|]. cbn in R1, R2.
    destruct (mergeTypes ts (merge u None_) V1) as [u2 V2] eqn:E.
    destruct (mergeTypes_sound (sum_list (map tsize ts)) ts IH (λ t, tsize_in t ts) (merge u None_) V1) as [I1 I2].
    { rewrite merge_None. intros [Hu _]. eapply clean_next; [|by apply R2]. apply clean_cons; [cbn; lia|done]. }
    rewrite E, merge_None in I1. rewrite E in I2. cbn in I1, I2. apply sound_seen; cbn [supported]; [rewrite supported_all; tauto|].
    intros Hu s Hs. destruct (I2 Hu s Hs) as [Hs'|]; [|by right]. apply I1 in Hu as [[Hu _] _]. by apply R2.
Qed.

(** Exactly the unsupported types are found. *)
Lemma classify_supported t : classifyUnsupportedFloatType t = None_ ↔ supported t.
Proof. apply (classifyVisited_sound t []). intros s Hs. by apply elem_of_nil in Hs. Qed.

(** A verdict names a type that occurs. *)
Definition named (t : type) (u : unsupported) : Prop := u = None_ ∨ occurs (causes u) t = true.

Lemma merge_cases u r : merge u r = u ∨ merge u r = r.
Proof. destruct u; auto. Qed.

Lemma mergeTypes_named ts : Forall (λ t, ∀ V, named t (classifyVisited t V).1) ts → ∀ r V,
  let u := (mergeTypes ts r V).1 in u = r ∨ u = None_ ∨ existsb (occurs (causes u)) ts = true.
Proof.
  induction 1 as [|t ts Ht _ IH]; intros r V; cbn; [by left|]. specialize (Ht V).
  destruct (classifyVisited t V) as [u V1]. fold mergeTypes. cbn in Ht.
  destruct (IH (merge u r) V1) as [E|[E|E]]; [|auto|rewrite E, orb_true_r; auto].
  rewrite E. destruct (merge_cases u r) as [-> | ->]; [|by left]. destruct Ht as [-> |Ht]; [by auto|]. rewrite Ht. auto.
Qed.

Lemma classifyVisited_named t : ∀ V, named t (classifyVisited t V).1.
Proof.
  induction t as [t Ha Hv Hs Hf|n e IH|n e IH|a p ts IH|r ts v IHr IH] using type_nested_ind; intros V.
  - destruct t; cbn [classifyVisited]; destruct (existsb _ _); try (by left); try (by right);
      [by destruct (Ha count t)|by destruct (Hv count t)|by destruct (Hs name packed elements)|by destruct (Hf t params vararg)].
  - cbn [classifyVisited]. destruct (existsb _ _); [by left|]. specialize (IH (ArrayTy n e :: V)).
    destruct (classifyVisited e _) as [u V1]. cbn in *. destruct u; [by left|..]; right; cbn; by destruct IH.
  - cbn [classifyVisited]. destruct (existsb _ _); [by left|]. destruct (isFloatingPointTy e) eqn:Ef; [right; cbn; by rewrite Ef|].
    specialize (IH (VectorTy n e :: V)). destruct (classifyVisited e _) as [u V1]. cbn in *.
    destruct IH as [-> |IH]; [by left|]. right. cbn. rewrite IH. apply orb_true_r.
  - cbn [classifyVisited]. destruct (existsb _ _); [by left|]. fold mergeTypes.
    destruct (mergeTypes_named ts IH None_ (StructTy a p ts :: V)) as [E|[E|E]]; [by left|by left|].
    right. cbn. rewrite E. apply orb_true_r.
  - cbn [classifyVisited]. destruct (existsb _ _); [by left|]. fold mergeTypes. specialize (IHr (FunctionTy r ts v :: V)).
    destruct (classifyVisited r _) as [u V1]. cbn in IHr.
    destruct (mergeTypes_named ts IH (merge u None_) V1) as [E|[E|E]]; [|by left|right; cbn; rewrite E; by rewrite !orb_true_r].
    rewrite E. destruct (merge_cases u None_) as [-> | ->]; [|by left]. destruct IHr as [-> |IHr]; [by left|].
    right. cbn. rewrite IHr. by rewrite orb_true_r.
Qed.

Lemma classify_cause t : classifyUnsupportedFloatType t ≠ None_ → occurs (causes (classifyUnsupportedFloatType t)) t = true.
Proof. intros H. by destruct (classifyVisited_named t []). Qed.
