(* ===== verification/SoftFloatFacts.v ===== *)
(** * Values, constants, memory and instructions under retyping

    A value after the pass has the bits of the value before it ([refines]);
    loads, stores, constants and every instruction keep this relation. *)

From Stdlib Require Import ZArith Lia.
From stdpp Require Import base numbers list gmap strings.
From S2P Require Import Prelude Bytes SoftFloat SoftFloatRun SoftFloatClass SoftFloatTypes.
Import SoftFloat.

Local Open Scope Z_scope.

(** ** The relation *)

(** An undefined value may become any; a float becomes its bits. *)
Inductive refines : val → val → Prop :=
| refines_undef v : refines VUndef v
| refines_int b z : refines (VInt b z) (VInt b z)
| refines_float z : refines (VFloat z) (VInt 32 z)
| refines_double z : refines (VDouble z) (VInt 64 z)
| refines_ptr z : refines (VPtr z) (VPtr z)
| refines_agg l l' : Forall2 refines l l' → refines (VAgg l) (VAgg l').



Definition envRefines (e e' : env) : Prop := (∀ r, refines (regs e r) (regs e' r)) ∧ Forall2 refines (args e) (args e').

Lemma envRefines_set e e' r v v' : envRefines e e' → refines v v' → envRefines (setReg e r v) (setReg e' r v').
Proof. intros [Hr Ha] Hv. split; [|done]. intros n. cbn. by destruct (Nat.eqb n r). Qed.

Lemma refines_lookup l l' i : Forall2 refines l l' → refines (default VUndef (l !! i)) (default VUndef (l' !! i)).
Proof.
  intros H. destruct (l !! i) as [v|] eqn:E; cbn; [|constructor]. destruct (Forall2_lookup_l _ _ _ _ _ H E) as (v' & -> & ?). done.
Qed.

(** ** Constants *)

Section constants.
Context (P : constant → Prop)
  (Hleaf : ∀ c, (∀ t l, c ≠ CArray t l) → (∀ t l, c ≠ CStruct t l) → P c)
  (Harray : ∀ t l, Forall P l → P (CArray t l))
  (Hstruct : ∀ t l, Forall P l → P (CStruct t l)).

Fixpoint constant_nested_ind (c : constant) : P c.
Proof.
  pose (all := fix all l : Forall P l :=
    match l with [] => @List.Forall_nil _ P | x :: l => @List.Forall_cons _ P x l (constant_nested_ind x) (all l) end).
  destruct c as [| | | | | |t l|t l| | |]; [..|apply Harray, all|apply Hstruct, all| | |]; by apply Hleaf.
Defined.
End constants.

Lemma zeroVal_refines t : refines (zeroVal t) (zeroVal (mapType t)).
Proof.
  induction t as [t Ha Hv Hs Hf|n e IH|n e IH|a p ts IH|r ts v IHr IH] using type_nested_ind; try constructor.
  - destruct t; try constructor; [by destruct (Ha count t)|by destruct (Hs name packed elements)].
  - by apply Forall2_replicate.
  - assert (E : zeroVal (mapType (StructTy a p ts)) = VAgg (map zeroVal (map mapType ts))).
    { destruct (mapType_struct a p ts) as [[E ->]| ->]; cbn; [by rewrite E|done]. }
    rewrite E. constructor. clear E. induction IH; [constructor|]. cbn [map]. by constructor.
Qed.

Section evaluation.
Context {FO : FloatOps} {RT : Routines} {LO : Layout} {EX : Externals}.

Lemma mapConstants_refines l l' : Forall (λ c, ∀ c', mapConstant c = Ok c' → refines (evalConstant c) (evalConstant c')) l →
  mapResult mapConstant l = Ok l' → Forall2 refines (map evalConstant l) (map evalConstant l').
Proof.
  intros H M%mapResult_Forall2. revert H. induction M as [|c c' l l' Hc _ IH]; intros H; cbn [map]; [constructor|].
  apply Forall_cons in H as [Hx H]. constructor; auto.
Qed.

Lemma mapConstant_refines c c' : mapConstant c = Ok c' → refines (evalConstant c) (evalConstant c').
Proof.
  revert c'. induction c as [c Ha Hs|t l IH|t l IH] using constant_nested_ind; intros c' H; cbn in H.
  - destruct c; cbn in H; try (injection H as <-); cbn [evalConstant]; try constructor; try apply zeroVal_refines;
      try (by destruct (Ha t operands)); try (by destruct (Hs t operands)).
    + clear. induction elements as [|z l IH]; cbn; constructor; [|done]. destruct element; constructor.
    + destruct (hasFloat t); [done|]. injection H as <-. cbn. destruct t; constructor.
  - destruct (mapResult mapConstant l) as [l'|] eqn:E; [|done]. injection H as <-. constructor. by apply mapConstants_refines.
  - destruct (mapResult mapConstant l) as [l'|] eqn:E; [|done]. injection H as <-. constructor. by apply mapConstants_refines.
Qed.

(** ** Operands *)

Lemma getOperand_refines e e' o o' : envRefines e e' → getOperand o = Ok o' → refines (evalOperand e o) (evalOperand e' o').
Proof.
  intros [Hr Ha] H. destruct o as [r|i|c]; cbn in H.
  - injection H as <-. apply Hr.
  - injection H as <-. by apply refines_lookup.
  - destruct (mapConstant c) as [c'|] eqn:E; [|done]. injection H as <-. by apply mapConstant_refines.
Qed.

Lemma getOperands_refines e e' l l' : envRefines e e' → mapResult getOperand l = Ok l' →
  Forall2 refines (map (evalOperand e) l) (map (evalOperand e') l').
Proof. intros He M%mapResult_Forall2. induction M; cbn; constructor; [|done]. by eapply getOperand_refines. Qed.

(** What a defined value of each kind becomes. *)
Lemma refines_floatBits f32 v v' a : refines v v' → floatBits f32 v = Some a → intOf v' = Some a ∧ word f32 a.
Proof.
  intros H Ha. destruct f32, H; cbn in Ha; simplify_eq; (split; [done|]); unfold word; cbn; by apply wrap_range.
Qed.

Lemma refines_VInt b z v : refines (VInt b z) v → v = VInt b z.
Proof. by inversion 1. Qed.

Lemma refines_VPtr z v : refines (VPtr z) v → v = VPtr z.
Proof. by inversion 1. Qed.

Lemma refines_onFloat f32 v v' f w : refines v v' →
  (∀ a, intOf v' = Some a → word f32 a → refines (f a) w) → refines (onFloat f32 v f) w.
Proof.
  intros H Hf. unfold onFloat. destruct (floatBits f32 v) as [a|] eqn:E; [|constructor].
  destruct (refines_floatBits _ _ _ _ H E). by apply Hf.
Qed.

Lemma refines_mkFloat f32 z : refines (mkFloat f32 z) (VInt (widthOf f32) (wrap (widthOf f32) z)).
Proof. destruct f32; constructor. Qed.

(** ** Aggregates *)

Lemma extract_refines l v v' : refines v v' → refines (extract v l) (extract v' l).
Proof.
  revert v v'. induction l as [|i l IH]; intros v v' H; cbn; [done|].
  destruct H; try constructor. by apply IH, refines_lookup.
Qed.

Lemma insert_refines l v v' x x' : refines v v' → refines x x' → refines (insert v x l) (insert v' x' l).
Proof.
  intros H Hx. revert v v' H. induction l as [|i l IH]; intros v v' H; cbn; [done|].
  destruct H; try constructor. apply Forall2_insert; [done|]. by apply IH, refines_lookup.
Qed.

Lemma plain_refines l l' : Forall2 refines l l' → forallb isPlain l = true → l' = l.
Proof.
  induction 1 as [|v v' l l' Hv _ IH]; intros H; [done|]. cbn in H. apply andb_true_iff in H as [Hp H]. rewrite IH by done.
  by destruct Hv.
Qed.

Lemma isPlain_refl v : isPlain v = true → refines v v.
Proof. destruct v; try done; constructor. Qed.

(** ** Reinterpretation *)

(** A defined reinterpretation, by the bits it passes on. *)
Lemma bitcast_cases from to v :
  bitcast from to v = VUndef ∨ (from = PointerTy ∧ to = PointerTy ∧ bitcast from to v = v) ∨
  ∃ w z, scalarBits from v = Some (w, z) ∧ bitcast from to v = ofBits to w z.
Proof.
  unfold bitcast. destruct (scalarBits from v) as [[w z]|] eqn:E; [|destruct from, to, v; auto].
  right. right. exists w, z. split; [done|]. destruct from, to, v; done.
Qed.

Lemma scalarBits_refines t v v' w z : scalarBits t v = Some (w, z) → refines v v' → v' = VInt w z ∧ mapType t = IntegerTy w.
Proof.
  intros E H. destruct t, H; cbn in E; try done; try (by injection E as <- <-).
  destruct (Z.eqb_spec bits b) as [-> |]; [|done]. by injection E as <- <-.
Qed.

Lemma ofBits_refines t w z : mapType t = IntegerTy w → refines (ofBits t w z) (VInt w z).
Proof.
  intros H. destruct t; try done; cbn in H; try (injection H as <-; cbn; rewrite ?Z.eqb_refl; constructor).
  by case_match.
Qed.

Lemma ofBits_plain t w z : hasFloat t = false → refines (ofBits t w z) (ofBits t w z).
Proof. destruct t; cbn; try done; try constructor. intros _. destruct (_ =? _); constructor. Qed.

Lemma bitcast_same from to v v' : refines v v' → mapType from = mapType to → hasFloat to || hasFloat from = true →
  refines (bitcast from to v) v'.
Proof.
  intros H E F. destruct (bitcast_cases from to v) as [-> |[(-> & -> & _)|(w & z & Eb & ->)]]; [constructor|done|].
  destruct (scalarBits_refines _ _ _ _ _ Eb H) as [-> Ef]. apply ofBits_refines. congruence.
Qed.

Lemma bitcast_kept from to v v' : refines v v' → (hasFloat to || hasFloat from) && typeEq (mapType from) (mapType to) = false →
  refines (bitcast from to v) (bitcast (mapType from) to v').
Proof.
  intros H F. destruct (bitcast_cases from to v) as [-> |[(-> & -> & E)|(w & z & Eb & ->)]]; [constructor|..].
  - rewrite E. destruct H; cbn in E; try done; constructor.
  - destruct (scalarBits_refines _ _ _ _ _ Eb H) as [-> Ef]. rewrite Ef in *.
    assert (E : bitcast (IntegerTy w) to (VInt w z) = ofBits to w z) by (unfold bitcast; cbn; by rewrite Z.eqb_refl).
    rewrite E. destruct (hasFloat to) eqn:Et; [|by apply ofBits_plain]. cbn in F.
    destruct to; cbn in *; try (rewrite F; constructor); try constructor. destruct (bits =? w); constructor.
Qed.

(** ** Memory *)

Section memory.
Context {LLaws : LayoutLaws LO}.

(** The fields of a structure from the [i]th on. *)
Definition loadFields (m : mem) (a : Z) (p : bool) (all : list type) : nat → list type → list val :=
  fix fields i l := match l with [] => [] | t :: l => loadVal t m (a + offsetOf p all i) :: fields (S i) l end.

Definition storeFields (a : Z) (p : bool) (all : list type) : nat → list type → list val → mem → option mem :=
  fix fields i us l m :=
    match us, l with
    | [], [] => Some m
    | u :: us, v :: l => match storeVal u v m (a + offsetOf p all i) with Some m => fields (S i) us l m | None => None end
    | _, _ => None
    end.

Definition storeElements (t : type) (a : Z) : nat → list val → mem → option mem :=
  fix elements i l m :=
    match l with
    | [] => Some m
    | v :: l => match storeVal t v m (a + Z.of_nat i * sizeOf t) with Some m => elements (S i) l m | None => None end
    end.

Lemma loadVal_struct name p ts m a : loadVal (StructTy name p ts) m a = VAgg (loadFields m a p ts 0 ts).
Proof. done. Qed.

Lemma storeVal_struct name p ts l m a : storeVal (StructTy name p ts) (VAgg l) m a = storeFields a p ts 0 ts l m.
Proof. done. Qed.

Lemma mapType_struct_fields name p ts : ∃ name', mapType (StructTy name p ts) = StructTy name' p (map mapType ts).
Proof. destruct (mapType_struct name p ts) as [[E ->]| ->]; [|by eexists]. exists name. by rewrite E. Qed.

Lemma loadFields_refines m a p all ts i : Forall (λ t, ∀ m a, refines (loadVal t m a) (loadVal (mapType t) m a)) ts →
  Forall2 refines (loadFields m a p all i ts) (loadFields m a p (map mapType all) i (map mapType ts)).
Proof.
  intros H. revert i. induction H as [|t ts Ht _ IH]; intros i; cbn; constructor; [|apply IH]. rewrite <-mapType_offsets. apply Ht.
Qed.

Lemma loadVal_refines t : ∀ m a, refines (loadVal t m a) (loadVal (mapType t) m a).
Proof.
  induction t as [t Ha Hv Hs Hf|n e IH|n e IH|name p ts IH|r ts v IHr IH] using type_nested_ind; intros m a; try (by constructor).
  - destruct t; try constructor; [by destruct (Ha count t)|by destruct (Hs name packed elements)].
  - cbn [loadVal mapType]. constructor. destruct (mapType_shape e) as [<- _]. apply Forall2_fmap, Forall_Forall2_diag, Forall_true. auto.
  - destruct (mapType_struct_fields name p ts) as [name' ->]. rewrite !loadVal_struct. constructor. by apply loadFields_refines.
Qed.

(** Storing a defined value writes the same bytes. *)
Definition storesAlike (t : type) : Prop :=
  ∀ v v' m a m', refines v v' → storeVal t v m a = Some m' → storeVal (mapType t) v' m a = Some m'.

Lemma storeFields_refines a p all ts : Forall storesAlike ts → ∀ i l l' m m', Forall2 refines l l' →
  storeFields a p all i ts l m = Some m' → storeFields a p (map mapType all) i (map mapType ts) l' m = Some m'.
Proof.
  induction 1 as [|t ts Ht _ IH]; intros i l l' m m' Hl H; destruct Hl as [|v v' l l' Hv Hl]; cbn in *; try done.
  fold (storeFields a p all) in H. fold (storeFields a p (map mapType all)). rewrite <-mapType_offsets.
  destruct (storeVal t v m _) as [m1|] eqn:E; [|done]. rewrite (Ht _ _ _ _ _ Hv E). by eapply IH.
Qed.

Lemma storeElements_refines t a : storesAlike t → ∀ l l' i m m', Forall2 refines l l' →
  storeElements t a i l m = Some m' → storeElements (mapType t) a i l' m = Some m'.
Proof.
  intros Ht l l' i m m' Hl. revert i m. induction Hl as [|v v' l l' Hv _ IH]; intros i m H; cbn in *; [done|].
  fold (storeElements t a) in H. fold (storeElements (mapType t) a). destruct (mapType_shape t) as [Hsz _]. rewrite <-Hsz.
  destruct (storeVal t v m _) as [m1|] eqn:E; [|done]. rewrite (Ht _ _ _ _ _ Hv E). by apply IH.
Qed.

Lemma storeVal_refines t : storesAlike t.
Proof.
  induction t as [t Ha Hv Hs Hf|n e IH|n e IH|name p ts IH|r ts v IHr IH] using type_nested_ind; intros v0 v' m a m' Hr H; try done.
  - destruct t; try done; try (destruct Hr; by cbn in * ); [by destruct (Ha count t)|by destruct (Hs name packed elements)].
  - destruct Hr; try done. cbn [storeVal mapType] in *. fold (storeElements e a) in H. fold (storeElements (mapType e) a).
    rewrite <-(Forall2_length _ _ _ H0). destruct (Nat.eqb (length l) n); [|done]. by eapply storeElements_refines.
  - destruct Hr; try done. destruct (mapType_struct_fields name p ts) as [name' ->]. rewrite storeVal_struct in *. by eapply storeFields_refines.
Qed.
End memory.
End evaluation.

(** ** Instructions

    Every instruction without effects, lowered, computes the bits of what it
    computed before. *)

(** The program before the pass has none of the code the pass emits. *)
Definition sourceInstr (i : instr) : bool := match i with IExpr _ _ => false | _ => true end.

(** The whole step from an instruction to its replacement, by cases. *)
Definition lowerCases (linked : string → bool) (i : instr) : result soft_error instr :=
  match i with
  | IBitCast from to x =>
      x ← getOperand x;
      if (hasFloat to || hasFloat from) && typeEq (mapType from) (mapType to) then Ok (IExpr (mapType to) (EOp x))
      else Ok (IBitCast (mapType from) to x)
  | IFBinary op f32 x y =>
      x ← getOperand x; y ← getOperand y;
      Ok (IExpr (IntegerTy (widthOf f32)) (ECall (binaryLibcall op f32) (widthOf f32) [EOp x; EOp y]))
  | IFNeg f32 x =>
      x ← getOperand x; Ok (IExpr (IntegerTy (widthOf f32)) (ECall (negLibcall f32) (widthOf f32) [EOp x]))
  | IFCmp p f32 x y =>
      x ← getUnless (trivialPredicate p) x; y ← getUnless (trivialPredicate p) y; Ok (IExpr (IntegerTy 1) (lowerFCmp p f32 (EOp x) (EOp y)))
  | IFPExt x => x ← getOperand x; Ok (IExpr (IntegerTy 64) (ECall F2D 64 [EOp x]))
  | IFPTrunc x => x ← getOperand x; Ok (IExpr (IntegerTy 32) (ECall D2F 32 [EOp x]))
  | IToFP signed bits toF32 x =>
      x ← getOperand x;
      let x := if signed then ESExtOrTrunc bits 64 (EOp x) else EZExtOrTrunc bits 64 (EOp x) in
      Ok (IExpr (IntegerTy (widthOf toF32)) (ECall (toFloatLibcall signed toF32) (widthOf toF32) [x]))
  | IFPToI signed fromF32 bits x =>
      x ← getOperand x;
      Ok (IExpr (IntegerTy bits) (EZExtOrTrunc 64 bits (ECall (toIntLibcall signed fromF32) 64 [EOp x])))
  | IClass f32 x mask =>
      match mask with
      | Const (CInt _ mask) =>
          x ← getUnless (trivialMask mask) x; Ok (IExpr (IntegerTy 1) (lowerFPClass f32 mask (EOp x)))
      | _ => Err ClassMaskNotConstant
      end
  | IFMulAdd f32 x y z =>
      x ← getOperand x; y ← getOperand y; z ← getOperand z;
      Ok (IExpr (IntegerTy (widthOf f32))
            (ECall (binaryLibcall FAdd f32) (widthOf f32)
               [ECall (binaryLibcall FMul f32) (widthOf f32) [EOp x; EOp y]; EOp z]))
  | IIntrinsic id f32 args =>
      match libmName id f32 with
      | None => Err (NoIntegerLowering id)
      | Some name =>
          if linked name then
            args ← mapResult getOperand args;
            Ok (ICall (Direct name) (FunctionTy (IntegerTy (widthOf f32)) (map (λ _, IntegerTy (widthOf f32)) args) false) args)
          else Err (NotLinked name)
      end
  | ICall f t args => f ← getCallee f; args ← mapResult getOperand args; Ok (ICall f (mapType t) args)
  | ILoad t p => p ← getOperand p; Ok (ILoad (mapType t) p)
  | IStore t x p => x ← getOperand x; p ← getOperand p; Ok (IStore (mapType t) x p)
  | IVAArg t p => p ← getOperand p; Ok (IVAArg (mapType t) p)
  | ISelect t c x y => c ← getOperand c; x ← getOperand x; y ← getOperand y; Ok (ISelect (mapType t) c x y)
  | IExtract t x l => x ← getOperand x; Ok (IExtract (mapType t) x l)
  | IInsert t x v l => x ← getOperand x; v ← getOperand v; Ok (IInsert (mapType t) x v l)
  | IOther op t args => args ← mapResult getOperand args; Ok (IOther op t args)
  | IExpr t e => Ok (IExpr t e)
  end.

Lemma lowerInstr_cases linked i : lowerInstr linked i = lowerCases linked i.
Proof.
  unfold lowerInstr. destruct i; cbn [lower lowerCases retypeInstr lowerIntrinsic resultType]; try done;
    repeat match goal with |- context [getOperand ?o] => destruct (getOperand o); [|done]
                         | |- context [getUnless ?b ?o] => destruct (getUnless b o); [|done] end;
    rewrite ?bind_ok; try done; try (by destruct f32); try (by destruct toF32). by destruct (_ && _).
Qed.

(** ** Integers of other widths *)

Lemma pow2_half b : 0 < b → 2 ^ b = 2 * 2 ^ (b - 1).
Proof. intros H. rewrite <-Z.pow_succ_r by lia. f_equal. lia. Qed.

Lemma sgn_bounds b a : 0 < b → 0 <= a < 2 ^ b → - 2 ^ (b - 1) <= sgn b a < 2 ^ (b - 1).
Proof. intros Hb Ha. pose proof (pow2_half b Hb). unfold sgn. destruct (Z.ltb_spec a (2 ^ (b - 1))); lia. Qed.

Lemma sgn_wrap_exact b n : 0 < b → - 2 ^ (b - 1) <= n < 2 ^ (b - 1) → sgn b (wrap b n) = n.
Proof.
  intros Hb Hn. pose proof (pow2_half b Hb). unfold sgn, wrap. destruct (Z.ltb_spec n 0).
  - assert (E : n mod 2 ^ b = n + 2 ^ b).
    { symmetry. apply Z.mod_unique with (-1); lia. }
    rewrite E. destruct (Z.ltb_spec (n + 2 ^ b) (2 ^ (b - 1))); lia.
  - rewrite Z.mod_small by lia. destruct (Z.ltb_spec n (2 ^ (b - 1))); lia.
Qed.

(** Sign extension to 64 bits. *)
Lemma sgn_extend b a : 0 < b <= 64 → 0 <= a < 2 ^ b → sgn 64 (wrap 64 (sgn b a)) = sgn b a.
Proof.
  intros Hb Ha. apply sgn_wrap_exact; [done|]. pose proof (sgn_bounds b a ltac:(lia) Ha).
  pose proof (Z.pow_le_mono_r 2 (b - 1) (64 - 1)). lia.
Qed.

Lemma wrap_narrow b n : 0 <= b <= 64 → wrap b (wrap 64 n) = wrap b n.
Proof.
  intros Hb. unfold wrap. symmetry. apply Znumtheory.Zmod_div_mod; [apply pow2_pos; lia|done|].
  exists (2 ^ (64 - b)). rewrite <-Z.pow_add_r by lia. f_equal. lia.
Qed.

Lemma fits_word signed b n : 0 < b <= 64 → fits signed b n = true →
  if signed then - 2 ^ 63 <= n < 2 ^ 63 else 0 <= n < 2 ^ 64.
Proof.
  intros Hb H. unfold fits in H. destruct signed; bool_to_prop.
  - pose proof (Z.pow_le_mono_r 2 (b - 1) 63). lia.
  - pose proof (Z.pow_le_mono_r 2 b 64). lia.
Qed.

Section instruction.
Context {FO : FloatOps} {RT : Routines} {RLaws : RoutineLaws FO RT} {LO : Layout} {EX : Externals} (e e' : env).

(** ** Conversions *)

Lemma toFloat_refines (signed : bool) bits toF32 v v' x : refines v v' → bits <= 64 → evalExpr e' x = v' →
  refines (match integerOf signed bits v with Some n => mkFloat toF32 (fromInteger toF32 n) | None => VUndef end)
    (evalExpr e' (ECall (toFloatLibcall signed toF32) (widthOf toF32) [if signed then ESExtOrTrunc bits 64 x else EZExtOrTrunc bits 64 x])).
Proof.
  intros H Hb Hx. destruct (integerOf signed bits v) as [n|] eqn:E; [|constructor].
  destruct H as [|b z| | | |]; try done. cbn [integerOf] in E. destruct ((b =? bits) && (0 <? bits)) eqn:Eb; [|done].
  bool_to_prop. subst b. injection E as <-. pose proof (wrap_range bits z ltac:(lia)) as Hz. set (a := wrap bits z) in *.
  assert (Hi : ∀ y, evalExpr e' (if signed then ESExtOrTrunc bits 64 x else EZExtOrTrunc bits 64 x) = VInt 64 (wrap 64 y) →
    intsOf (map (evalExpr e') [if signed then ESExtOrTrunc bits 64 x else EZExtOrTrunc bits 64 x]) = Some [wrap 64 y]).
  { intros y Hy. apply intsOf_one. rewrite Hy. cbn [intOf]. by rewrite wrap_idemp. }
  rewrite (eval_call e' _ _ _ _ (Hi (if signed then sgn bits a else a) ltac:(destruct signed; cbn; by rewrite Hx))).
  rewrite routine_toFloat by (by apply wrap_range). replace (if signed then sgn 64 _ else _) with (if signed then sgn bits a else a).
  - apply refines_mkFloat.
  - destruct signed; [by rewrite sgn_extend by lia|]. rewrite wrap_small; [done|]. pose proof (Z.pow_le_mono_r 2 bits 64). lia.
Qed.

Lemma toInt_refines signed fromF32 bits v v' x : refines v v' → bits <= 64 → evalExpr e' x = v' →
  refines (onFloat fromF32 v (λ a, match toInteger fromF32 a with
      | Some n => if (0 <? bits) && fits signed bits n then VInt bits (wrap bits n) else VUndef | None => VUndef end))
    (evalExpr e' (EZExtOrTrunc 64 bits (ECall (toIntLibcall signed fromF32) 64 [x]))).
Proof.
  intros H Hb Hx. apply (refines_onFloat _ _ v'); [done|]. intros a Ha Hw.
  destruct (toInteger fromF32 a) as [n|] eqn:En; [|constructor]. destruct ((0 <? bits) && fits signed bits n) eqn:Ef; [|constructor].
  apply andb_true_iff in Ef as [Hp Hf]. apply Z.ltb_lt in Hp.
  assert (Hc : evalExpr e' (ECall (toIntLibcall signed fromF32) 64 [x]) = VInt 64 (wrap 64 n)).
  { rewrite (eval_call e' _ _ _ [a]) by (apply intsOf_one; by rewrite Hx).
    f_equal. apply routine_toInt; [done..|]. apply (fits_word signed bits); [lia|done]. }
  cbn [evalExpr]. unfold onInt. cbn [evalExpr] in Hc. rewrite Hc. cbn [intOf]. rewrite wrap_idemp, wrap_narrow by lia. constructor.
Qed.

(** ** Arithmetic *)

Lemma call1_refines f32 from name v v' x (g : Z → Z) : refines v v' → evalExpr e' x = v' →
  (∀ a, word from a → routine name [a] = g a) →
  refines (onFloat from v (λ a, mkFloat f32 (g a))) (evalExpr e' (ECall name (widthOf f32) [x])).
Proof.
  intros H Hx Hg. apply (refines_onFloat _ _ v'); [done|]. intros a Ha Hw.
  rewrite (eval_call e' _ _ _ [a]) by (apply intsOf_one; by rewrite Hx). rewrite Hg by done. apply refines_mkFloat.
Qed.

Lemma call2_refines f32 op v v' w w' x y : refines v v' → refines w w' → evalExpr e' x = v' → evalExpr e' y = w' →
  refines (onFloat f32 v (λ a, onFloat f32 w (λ b, mkFloat f32 (fbinary op f32 a b))))
    (evalExpr e' (ECall (binaryLibcall op f32) (widthOf f32) [x; y])).
Proof.
  intros H1 H2 Hx Hy. apply (refines_onFloat _ _ v'); [done|]. intros a Ha Hwa. apply (refines_onFloat _ _ w'); [done|]. intros b Hb Hwb.
  rewrite (eval_call e' _ _ _ [a; b]) by (apply intsOf_two; congruence). rewrite routine_binary by done. apply refines_mkFloat.
Qed.

Lemma muladd_refines f32 u u' v v' w w' x y z : refines u u' → refines v v' → refines w w' →
  evalExpr e' x = u' → evalExpr e' y = v' → evalExpr e' z = w' →
  refines (onFloat f32 u (λ a, onFloat f32 v (λ b, onFloat f32 w (λ c,
      mkFloat f32 (fbinary FAdd f32 (wrap (widthOf f32) (fbinary FMul f32 a b)) c)))))
    (evalExpr e' (ECall (binaryLibcall FAdd f32) (widthOf f32) [ECall (binaryLibcall FMul f32) (widthOf f32) [x; y]; z])).
Proof.
  intros H1 H2 H3 Hx Hy Hz. apply (refines_onFloat _ _ u'); [done|]. intros a Ha Hwa. apply (refines_onFloat _ _ v'); [done|]. intros b Hb Hwb.
  apply (refines_onFloat _ _ w'); [done|]. intros c Hc Hwc. assert (Hw : 0 <= widthOf f32) by (by destruct f32).
  pose proof (wrap_range (widthOf f32) (fbinary FMul f32 a b) Hw) as Hp.
  rewrite (eval_call e' _ _ _ [wrap (widthOf f32) (fbinary FMul f32 a b); c]); [rewrite routine_binary by done; apply refines_mkFloat|].
  cbn [map]. rewrite (eval_call e' _ _ _ [a; b]) by (apply intsOf_two; congruence). rewrite routine_binary by done.
  apply intsOf_two; [|congruence]. cbn [intOf]. by rewrite wrap_idemp.
Qed.

Lemma compare_refines p f32 v v' w w' x y : refines v v' → refines w w' → evalExpr e' x = v' → evalExpr e' y = w' →
  refines (onFloat f32 v (λ a, onFloat f32 w (λ b, ofBool (fcmp p (fcompare f32 a b))))) (evalExpr e' (lowerFCmp p f32 x y)).
Proof.
  intros H1 H2 Hx Hy. apply (refines_onFloat _ _ v'); [done|]. intros a Ha Hwa. apply (refines_onFloat _ _ w'); [done|]. intros b Hb Hwb.
  rewrite (lowerFCmp_correct e' p f32 x y a b) by congruence. constructor.
Qed.

Lemma compare_trivial_refines p f32 v w x y : trivialPredicate p = true →
  refines (onFloat f32 v (λ a, onFloat f32 w (λ b, ofBool (fcmp p (fcompare f32 a b))))) (evalExpr e' (lowerFCmp p f32 x y)).
Proof.
  intros H. unfold onFloat. destruct (floatBits f32 v); [|constructor]. destruct (floatBits f32 w); [|constructor].
  destruct p; try done; constructor.
Qed.

Lemma class_refines f32 mask v v' x : refines v v' → evalExpr e' x = v' → 0 <= mask <= fcAllFlags →
  refines (onFloat f32 v (λ a, ofBool (negb (Z.land mask (classOf f32 a) =? 0)))) (evalExpr e' (lowerFPClass f32 mask x)).
Proof.
  intros H Hx Hm. apply (refines_onFloat _ _ v'); [done|]. intros a Ha Hw.
  rewrite (lowerFPClass_flags e' f32 mask x a) by congruence. destruct (flags_class f32 a Hw) as (Hc & -> & Hag).
  rewrite classTest_class by done. constructor.
Qed.

(** The value is not read. *)
Lemma class_trivial f32 mask x y : trivialMask mask = true → lowerFPClass f32 mask x = lowerFPClass f32 mask y.
Proof.
  unfold trivialMask, lowerFPClass. destruct (mask =? 0); [reflexivity|]. destruct (mask =? fcAllFlags); [reflexivity|]. discriminate.
Qed.

Lemma class_trivial_refines f32 mask v x : trivialMask mask = true → 0 <= mask <= fcAllFlags →
  refines (onFloat f32 v (λ a, ofBool (negb (Z.land mask (classOf f32 a) =? 0)))) (evalExpr e' (lowerFPClass f32 mask x)).
Proof.
  intros Ht Hm. assert (H : ∀ w z, refines v (VInt w z) → refines (onFloat f32 v (λ a, ofBool (negb (Z.land mask (classOf f32 a) =? 0))))
    (evalExpr e' (lowerFPClass f32 mask x))).
  { intros w z Hv. rewrite (class_trivial f32 mask x (constantOf w z) Ht). by eapply class_refines. }
  destruct v as [|b z|z|z|z|l]; [|apply (H b z); constructor|apply (H 32 z); constructor|apply (H 64 z); constructor|..];
    (unfold onFloat; replace (floatBits f32 _) with (@None Z) by (by destruct f32); apply refines_undef).
Qed.

(** ** The instructions without effects *)

Lemma lowerInstr_pure linked i i' v : envRefines e e' → sourceInstr i = true → wideConversion i = false →
  lowerInstr linked i = Ok i' → evalPure e i = Some v → ∃ v', evalPure e' i' = Some v' ∧ refines v v'.
Proof.
  intros He Hsrc Hwide H Hv.
  assert (G := λ o o', getOperand_refines e e' o o' He). assert (Gs := λ o o', getOperands_refines e e' o o' He).
  destruct i; cbn [evalPure] in Hv; try done; injection Hv as <-; rewrite lowerInstr_cases in H; cbn [lowerCases] in H;
    repeat (apply bind_Ok in H as (? & ?%G & H)).
  - destruct (_ && _) eqn:E in H; injection H as <-; (eexists; split; [done|]).
    + apply andb_true_iff in E as [E1 E2%typeEq_spec]. by apply bitcast_same.
    + by apply bitcast_kept.
  - injection H as <-. eexists. split; [done|]. by eapply call2_refines.
  - injection H as <-. eexists. split; [done|]. eapply (call1_refines f32 f32); [done..|]. intros a Ha. by apply routine_neg.
  - apply bind_Ok in H as (x' & Hx & H). apply bind_Ok in H as (y' & Hy & H). injection H as <-. eexists. split; [done|].
    unfold getUnless in Hx, Hy. destruct (trivialPredicate p) eqn:Et; [by apply compare_trivial_refines|].
    apply G in Hx, Hy. by eapply compare_refines.
  - injection H as <-. eexists. split; [done|]. eapply (call1_refines false true); [done..|]. intros a Ha. by apply routine_extend.
  - injection H as <-. eexists. split; [done|]. eapply (call1_refines true false); [done..|]. intros a Ha. by apply routine_truncate.
  - injection H as <-. eexists. split; [done|]. cbn in Hwide. apply Z.ltb_ge in Hwide. by eapply toFloat_refines.
  - injection H as <-. eexists. split; [done|]. cbn in Hwide. apply Z.ltb_ge in Hwide. by eapply toInt_refines.
  - destruct mask0 as [| |[b mask| | | | | | | | | |]]; try done. apply bind_Ok in H as (x' & Hx & H). injection H as <-. eexists. split; [done|].
    destruct (_ && _) eqn:E; [|constructor]. bool_to_prop. unfold getUnless in Hx. destruct (trivialMask mask) eqn:Et; [by apply class_trivial_refines|].
    apply G in Hx. by eapply class_refines.
  - injection H as <-. eexists. split; [done|]. by eapply muladd_refines.
  - injection H as <-. eexists. split; [done|]. destruct (evalOperand e c) as [|b b0| | | |] eqn:Ec; try constructor.
    match goal with Hc : refines (VInt _ _) _ |- _ => apply refines_VInt in Hc; rewrite Hc end.
    destruct b as [|[| |]|]; try constructor. by destruct (_ =? 1).
  - injection H as <-. eexists. split; [done|]. by apply extract_refines.
  - injection H as <-. eexists. split; [done|]. by apply insert_refines.
  - apply bind_Ok in H as (xs & Hx%Gs & H). injection H as <-. eexists. split; [done|]. cbv zeta.
    destruct (forallb isPlain (map (evalOperand e) args)) eqn:E; [|constructor]. rewrite (plain_refines _ _ Hx E), E.
    destruct (isPlain (other opcode t (map (evalOperand e) args))) eqn:Ep; [by apply isPlain_refl|constructor].
Qed.
End instruction.
