(* ===== verification/SoftFloatSim.v ===== *)
(** * Runs before and after the pass

    A lowered function, started on the bits of the arguments, does what the
    original does: the same memory, and the bits of the same result. *)

From Stdlib Require Import ZArith Lia.
From stdpp Require Import base numbers list gmap strings.
From S2P Require Import Prelude Bytes SoftFloat SoftFloatRun SoftFloatClass SoftFloatTypes SoftFloatFacts.
Import SoftFloat.

Local Open Scope Z_scope.

Definition callRefines (call call' : string → list val → mem → option (val * mem)) : Prop :=
  ∀ name xs xs' m v m', Forall2 refines xs xs' → call name xs m = Some (v, m') →
    ∃ v', call' name xs' m = Some (v', m') ∧ refines v v'.

(** A function outside the module passes floating-point arguments and results
    in integer registers, so it cannot tell the two programs apart. *)
Class ExternalLaws (EX : Externals) : Prop := external_refines : callRefines external external.

(** What the pass has established of an instruction, a block and a function. *)
Definition sourceProgram (p : program) : bool := forallb sourceInstr (instructionsOf p).

Definition instrOk (i : instr) : Prop := sourceInstr i = true ∧ wideConversion i = false.
Definition blockOk (b : block) : Prop := ∀ r i, (r, i) ∈ b_body b → instrOk i.
Definition funcOk (f : func) : Prop := ∀ b, b ∈ f_blocks f → blockOk b.

Lemma foldM_unit {A} (f : A → result soft_error ()) l : foldM (λ x _, f x) l () = Ok () ↔ ∀ x, x ∈ l → f x = Ok ().
Proof.
  induction l as [|x l IH]; cbn; [split; [by intros _ y ?%elem_of_nil|done]|]. destruct (f x) as [[]|] eqn:E.
  - rewrite IH. setoid_rewrite elem_of_cons. naive_solver.
  - split; [done|]. intros H. rewrite (H x) in E; [done|by left].
Qed.

(** ** The validation *)

Lemma instructionsOf_spec p i : i ∈ instructionsOf p ↔ ∃ nf b r, nf ∈ p ∧ b ∈ f_blocks nf.2 ∧ (r, i) ∈ b_body b.
Proof.
  unfold instructionsOf. rewrite list_elem_of_bind. split.
  - intros (nf & H & Hnf). apply list_elem_of_bind in H as (b & H & Hb). apply list_elem_of_fmap in H as ([r i'] & -> & Hi). eauto 10.
  - intros (nf & b & r & Hnf & Hb & Hi). exists nf. split; [|done]. apply list_elem_of_bind. exists b. split; [|done].
    apply list_elem_of_fmap. by exists (r, i).
Qed.

(** Every instruction of an accepted program was checked. *)
Lemma checked_instr p nf b r i : foldM (λ (nf : string * func) _, checkFunction nf.2) p () = Ok () → nf ∈ p → b ∈ f_blocks nf.2 → (r, i) ∈ b_body b →
  checkInstr i = Ok ().
Proof.
  intros H Hnf Hb Hi. rewrite (foldM_unit (λ nf : string * func, checkFunction nf.2)) in H. apply H in Hnf. unfold checkFunction in Hnf.
  apply bind_Ok in Hnf as ([] & _ & Hnf). rewrite (foldM_unit checkBlock) in Hnf. apply Hnf in Hb. unfold checkBlock in Hb.
  apply bind_Ok in Hb as ([] & _ & Hb). apply bind_Ok in Hb as ([] & Hb & _).
  rewrite (foldM_unit (λ ri : nat * instr, checkInstr ri.2)) in Hb. by apply (Hb (r, i)).
Qed.

Lemma checkInstr_wide i : checkInstr i = Ok () → wideConversion i = false.
Proof. unfold checkInstr. intros H. apply bind_Ok in H as (? & _ & H). by destruct (wideConversion i). Qed.

Lemma accepted_shape globals p p' : runSoftFloat globals p = Ok p' →
  checkTypes globals = Ok () ∧ foldM (λ (nf : string * func) _, checkFunction nf.2) p () = Ok () ∧ lowerFunctions (linkedIn p) p = Ok p'.
Proof. unfold runSoftFloat. intros H. apply bind_Ok in H as ([] & H1 & H). apply bind_Ok in H as ([] & H2 & H). done. Qed.

(** Functions and their lowered forms, in order. *)
Definition lowered (linked : string → bool) (nf nf' : string * func) : Prop :=
  nf'.1 = nf.1 ∧ lowerFunction linked nf.2 = Ok nf'.2 ∧ funcOk nf.2.

Lemma accepted_lowered globals p p' : runSoftFloat globals p = Ok p' → sourceProgram p = true →
  Forall2 (lowered (linkedIn p)) p p'.
Proof.
  intros (_ & Hc & Hl)%accepted_shape Hs. apply mapResult_Forall2 in Hl.
  assert (Hok : ∀ nf, nf ∈ p → funcOk nf.2).
  { intros nf Hnf b Hb r i Hi. split; [|eapply checkInstr_wide, checked_instr; eauto].
    unfold sourceProgram in Hs. rewrite forallb_forall in Hs. apply Hs. rewrite <-list_elem_of_In, instructionsOf_spec. eauto 10. }
  clear Hc Hs. revert Hl Hok. generalize (linkedIn p) as linked. intros linked Hl Hok.
  induction Hl as [|nf nf' p p' Hf _ IH]; constructor; [|apply IH; intros; apply Hok; by right].
  destruct (lowerFunction linked nf.2) as [f'|] eqn:E; [|done]. injection Hf as <-. split_and!; [done|done|apply Hok; by left].
Qed.

Lemma lowerFunction_blocks linked f f' : lowerFunction linked f = Ok f' →
  Forall2 (λ b b', lowerBlock linked b = Ok b') (f_blocks f) (f_blocks f').
Proof. unfold lowerFunction. intros H. apply bind_Ok in H as (bs & Hb & H). injection H as <-. by apply mapResult_Forall2. Qed.

Lemma lookupFunction_lowered linked p p' name : Forall2 (lowered linked) p p' →
  match lookupFunction p name with
  | Some f => ∃ f', lookupFunction p' name = Some f' ∧ lowerFunction linked f = Ok f' ∧ funcOk f
  | None => lookupFunction p' name = None
  end.
Proof.
  unfold lookupFunction. induction 1 as [|[n f] [n' f'] p p' (E & Hf & Hok) _ IH]; [done|]. cbn in E, Hf, Hok. subst n'.
  assert (Hb : f_blocks f = [] ↔ f_blocks f' = []).
  { apply lowerFunction_blocks in Hf. destruct Hf; done. }
  unfold program in *. rewrite !filter_cons. destruct (decide (n = name ∧ f_blocks f ≠ [])) as [[-> Hne]|Hno].
  - rewrite !decide_True by (cbn; tauto). cbn. eauto.
  - rewrite !decide_False by (cbn; tauto). apply IH.
Qed.

(** ** Simulation *)

Section simulation.
Context {FO : FloatOps} {RT : Routines} {RLaws : RoutineLaws FO RT} {LO : Layout} {LLaws : LayoutLaws LO} {EX : Externals} {ELaws : ExternalLaws EX}.

Lemma calleeName_refines e e' f f' : envRefines e e' → getCallee f = Ok f' → ∀ name, calleeName e f = Some name → calleeName e' f' = Some name.
Proof.
  intros He H name Hn. destruct f as [n|o]; cbn in *; [by injection H as <-|]. destruct (getOperand o) as [o'|] eqn:E; [|done].
  injection H as <-. cbn. apply (getOperand_refines e e') in E; [|done]. destruct (evalOperand e o) as [| | | |z|]; try done.
  by apply refines_VPtr in E as ->.
Qed.

Lemma execInstr_refines linked call call' e e' m i i' v m1 : envRefines e e' → callRefines call call' → instrOk i →
  lowerInstr linked i = Ok i' → execInstr call e m i = Some (v, m1) → ∃ v', execInstr call' e' m i' = Some (v', m1) ∧ refines v v'.
Proof.
  intros He Hcall [Hsrc Hwide] H Hx. unfold execInstr in Hx. destruct (evalPure e i) as [w|] eqn:Ep.
  { injection Hx as <- <-. destruct (lowerInstr_pure e e' linked i i' w He Hsrc Hwide H Ep) as (v' & Ep' & Hv).
    exists v'. unfold execInstr. by rewrite Ep'. }
  assert (G := λ o o', getOperand_refines e e' o o' He). assert (Gs := λ o o', getOperands_refines e e' o o' He).
  rewrite lowerInstr_cases in H. destruct i; try done; cbn [lowerCases] in H.
  - rewrite libmName_cFunction in H. destruct (cFunction id f32) as [name|]; [|done]. destruct (linked name); [|done].
    apply bind_Ok in H as (xs & Hxs%Gs & H). injection H as <-. apply (Hcall _ _ _ _ _ _ Hxs Hx).
  - apply bind_Ok in H as (f' & Hf & H). apply bind_Ok in H as (xs & Hxs%Gs & H). injection H as <-.
    destruct (calleeName e f) as [name|] eqn:En; [|done]. unfold execInstr. cbn.
    rewrite (calleeName_refines _ _ _ _ He Hf _ En). apply (Hcall _ _ _ _ _ _ Hxs Hx).
  - apply bind_Ok in H as (p' & Hp%G & H). injection H as <-. destruct (evalOperand e p) as [| | | |a|]; try done.
    injection Hx as <- <-. apply refines_VPtr in Hp. unfold execInstr. cbn. rewrite Hp. eexists. split; [done|apply loadVal_refines].
  - apply bind_Ok in H as (x' & Hx'%G & H). apply bind_Ok in H as (p' & Hp%G & H). injection H as <-.
    destruct (evalOperand e p) as [| | | |a|]; try done. destruct (storeVal t (evalOperand e x) m a) as [m2|] eqn:Es; [|done].
    injection Hx as <- <-. apply refines_VPtr in Hp. unfold execInstr. cbn. rewrite Hp, (storeVal_refines t _ _ _ _ _ Hx' Es).
    eexists. split; [done|constructor].
  - apply bind_Ok in H as (p' & Hp%G & H). injection H as <-. destruct (evalOperand e p) as [| | | |a|]; try done.
    destruct (vaNext (sizeOf t) (alignOf t) a m) as [[b m2]|] eqn:Ev; [|done]. injection Hx as <- <-.
    apply refines_VPtr in Hp. unfold execInstr. cbn [evalPure]. rewrite Hp. destruct (mapType_shape t) as [<- <-]. rewrite Ev.
    eexists. split; [done|apply loadVal_refines].
Qed.

Lemma execBody_refines linked call call' body body' : callRefines call call' →
  Forall2 (λ ri ri', match lowerInstr linked ri.2 with Ok i => Ok (ri.1, i) | Err e => Err e end = Ok ri') body body' →
  (∀ r i, (r, i) ∈ body → instrOk i) → ∀ e e' m e1 m1, envRefines e e' → execBody call e m body = Some (e1, m1) →
  ∃ e1', execBody call' e' m body' = Some (e1', m1) ∧ envRefines e1 e1'.
Proof.
  intros Hcall Hl. induction Hl as [|[r i] ri' body body' Hi _ IH]; intros Hok e e' m e1 m1 He Hx; cbn [execBody] in Hx.
  { injection Hx as <- <-. by exists e'. }
  cbn in Hi. destruct (lowerInstr linked i) as [i'|] eqn:El; [|done]. injection Hi as <-.
  destruct (execInstr call e m i) as [[v m2]|] eqn:Ei; [|done].
  destruct (execInstr_refines linked call call' e e' m i i' v m2) as (v' & Ei' & Hv); [done..|by apply (Hok r); left|done|done|].
  cbn [execBody]. rewrite Ei'. apply (IH (λ r i H, Hok r i (list_elem_of_further _ _ _ H)) (setReg e r v)); [by apply envRefines_set|done].
Qed.

Lemma incoming_refines e e' prev p p' : envRefines e e' → lowerPhi p = Ok p' → refines (incoming e prev p) (incoming e' prev p').
Proof.
  intros He H. unfold lowerPhi in H. apply bind_Ok in H as (l & Hl%mapResult_Forall2 & H). injection H as <-. unfold incoming. cbn [ph_incoming].
  induction Hl as [|[n o] i' l l' Hi _ IH]; [constructor|]. cbn in Hi. destruct (getOperand o) as [o'|] eqn:E; [|done]. injection Hi as <-.
  rewrite !filter_cons. cbn [fst]. destruct (decide (n = prev)) as [->|Hne]; [|apply IH]. by eapply getOperand_refines.
Qed.

Lemma execPhis_refines e e' prev l l' : envRefines e e' → Forall2 (λ p p', lowerPhi p = Ok p') l l' →
  envRefines (execPhis e prev l) (execPhis e' prev l').
Proof.
  intros He Hl. unfold execPhis. cut (∀ a a', envRefines a a' →
    envRefines (foldl (λ e' p, setReg e' (ph_reg p) (incoming e prev p)) a l) (foldl (λ e0 p, setReg e0 (ph_reg p) (incoming e' prev p)) a' l')); [auto|].
  induction Hl as [|p p' l l' Hp _ IH]; intros a a' Ha; cbn [foldl]; [done|]. apply IH.
  assert (E : ph_reg p' = ph_reg p) by (unfold lowerPhi in Hp; apply bind_Ok in Hp as (? & _ & Hp); by injection Hp as <-).
  rewrite E. apply envRefines_set; [done|]. by apply incoming_refines.
Qed.

Lemma lowerBlock_parts linked b b' : lowerBlock linked b = Ok b' →
  Forall2 (λ p p', lowerPhi p = Ok p') (b_phis b) (b_phis b') ∧
  Forall2 (λ ri ri', match lowerInstr linked ri.2 with Ok i => Ok (ri.1, i) | Err e => Err e end = Ok ri') (b_body b) (b_body b') ∧
  lowerTerminator (b_term b) = Ok (b_term b').
Proof.
  unfold lowerBlock. intros H. apply bind_Ok in H as (ps & Hp & H). apply bind_Ok in H as (bd & Hb & H). apply bind_Ok in H as (t & Ht & H).
  injection H as <-. cbn. split_and!; [by apply mapResult_Forall2|by apply mapResult_Forall2|done].
Qed.

Lemma runBlock_refines linked p p' : Forall2 (lowered linked) p p' → ∀ fuel f f' e e' prev l m v m1,
  lowerFunction linked f = Ok f' → funcOk f → envRefines e e' → runBlock p fuel f e prev l m = Some (v, m1) →
  ∃ v', runBlock p' fuel f' e' prev l m = Some (v', m1) ∧ refines v v'.
Proof.
  intros Hp. induction fuel as [|fuel IH]; intros f f' e e' prev l m v m1 Hf Hok He Hx; [done|].
  assert (Hcall : callRefines
    (λ name xs m, match lookupFunction p name with Some g => runBlock p fuel g (Env (λ _, VUndef) xs) 0 0 m | None => external name xs m end)
    (λ name xs m, match lookupFunction p' name with Some g => runBlock p' fuel g (Env (λ _, VUndef) xs) 0 0 m | None => external name xs m end)).
  { intros name xs xs' m0 v0 m2 Hxs H. pose proof (lookupFunction_lowered linked p p' name Hp) as L.
    destruct (lookupFunction p name) as [g|]; [|rewrite L; by eapply external_refines].
    destruct L as (g' & -> & Hg & Hgok). eapply IH; [done|done| |exact H]. split; [intros; constructor|done]. }
  cbn [runBlock] in *. destruct (f_blocks f !! l) as [b|] eqn:Eb; [|done].
  destruct (Forall2_lookup_l _ _ _ _ _ (lowerFunction_blocks _ _ _ Hf) Eb) as (b' & Eb' & Hb). rewrite Eb'.
  apply lowerBlock_parts in Hb as (Hphi & Hbody & Hterm).
  assert (Hbok : blockOk b) by (apply Hok, list_elem_of_lookup; eauto).
  destruct (execBody _ (execPhis e prev (b_phis b)) m (b_body b)) as [[e1 m2]|] eqn:Ebody; [|done].
  destruct (execBody_refines linked _ _ _ _ Hcall Hbody Hbok (execPhis e prev (b_phis b)) (execPhis e' prev (b_phis b')) m e1 m2) as (e1' & -> & He1);
    [by apply execPhis_refines|done|].
  assert (G := λ o o', getOperand_refines e1 e1' o o' He1).
  destruct (b_term b) as [l'|c yes no|[x|]|]; cbn in Hterm; try (injection Hterm as <-); try done.
  - by eapply IH.
  - apply bind_Ok in Hterm as (c' & Hc%G & Hterm). injection Hterm as <-. destruct (evalOperand e1 c) as [|b0 z| | | |]; try done.
    destruct b0 as [|[| |]|]; try done. apply refines_VInt in Hc as ->. by eapply IH.
  - apply bind_Ok in Hterm as (x' & Hx'%G & Hterm). injection Hterm as <-. injection Hx as <- <-. eauto.
  - injection Hx as <- <-. eexists. split; [done|constructor].
Qed.

Lemma runFunction_refines linked p p' fuel : Forall2 (lowered linked) p p' → callRefines (runFunction p fuel) (runFunction p' fuel).
Proof.
  intros Hp name xs xs' m v m1 Hxs H. unfold runFunction in *. pose proof (lookupFunction_lowered linked p p' name Hp) as L.
  destruct (lookupFunction p name) as [g|]; [|rewrite L; by eapply external_refines].
  destruct L as (g' & -> & Hg & Hgok). eapply runBlock_refines; [done|done|done| |exact H]. split; [intros; constructor|done].
Qed.
End simulation.
