(* ===== verification/SoftFloatVerdict.v ===== *)
(** * What is accepted, and what is left of floating point

    Every diagnostic of the pass names a cause in the program, and a program
    with such a cause is not accepted; what an accepted program has left of
    floating point are the results of the instructions the pass has no case
    for, which the later check reports. *)

From Stdlib Require Import ZArith Lia.
From stdpp Require Import base numbers list gmap strings.
From S2P Require Import Prelude Bytes SoftFloat SoftFloatRun SoftFloatTypes SoftFloatFacts SoftFloatSim.
Import SoftFloat.

Local Open Scope Z_scope.

(** ** The parts of a program *)

Definition blockTypes (b : block) : list type :=
  (b_phis b ≫= phiTypes) ++ (b_body b ≫= λ ri, resultType ri.2 :: operandTypes ri.2) ++ terminatorTypes (b_term b).

Definition functionTypes (f : func) : list type := f_type f :: (f_blocks f ≫= blockTypes).

Definition terminatorOperands (t : terminator) : list operand :=
  match t with Ret (Some x) | CondBr x _ _ => [x] | _ => [] end.

(** The operands an instruction is given replacements for. *)
Definition mappedOperands (i : instr) : list operand :=
  match i with
  | IClass _ x (Const (CInt _ mask)) => if trivialMask mask then [] else [x]
  | IFCmp p _ x y => if trivialPredicate p then [] else [x; y]
  | _ => operandsOf i
  end.

Definition blockOperands (b : block) : list operand :=
  (b_phis b ≫= λ p, snd <$> ph_incoming p) ++ (b_body b ≫= λ ri, mappedOperands ri.2) ++ terminatorOperands (b_term b).

Definition functionOperands (f : func) : list operand := f_blocks f ≫= blockOperands.

(** A constant expression of a floating-point type inside a constant. *)
Fixpoint badConstant (c : constant) : bool :=
  match c with CArray _ l | CStruct _ l => existsb badConstant l | CExpr t _ => hasFloat t | _ => false end.

(** The cause of each diagnostic in a program. *)
Definition cause (globals : list type) (p : program) (e : soft_error) : Prop :=
  match e with
  | UnsupportedType u => ∃ t, (t ∈ globals ∨ ∃ nf, nf ∈ p ∧ t ∈ functionTypes nf.2) ∧ occurs (causes u) t = true
  | WideConversion => ∃ i, i ∈ instructionsOf p ∧ wideConversion i = true
  | UnhandledConstant => ∃ nf c, nf ∈ p ∧ Const c ∈ functionOperands nf.2 ∧ badConstant c = true
  | ClassMaskNotConstant => ∃ f32 x mask, IClass f32 x mask ∈ instructionsOf p ∧ ∀ b z, mask ≠ Const (CInt b z)
  | NoIntegerLowering id => ∃ f32 args, IIntrinsic id f32 args ∈ instructionsOf p ∧ ∀ f32, cFunction id f32 = None
  | NotLinked name => ∃ id f32 args, IIntrinsic id f32 args ∈ instructionsOf p ∧ cFunction id f32 = Some name ∧
      ¬ ∃ f, (name, f) ∈ p ∧ f_blocks f ≠ []
  end.

Lemma linkedIn_spec p name : linkedIn p name = false ↔ ¬ ∃ f, (name, f) ∈ p ∧ f_blocks f ≠ [].
Proof.
  rewrite <-not_true_iff_false. apply not_iff_compat. unfold linkedIn. rewrite existsb_exists. setoid_rewrite <-list_elem_of_In. split.
  - intros ([n f] & Hin & H). cbn in H. bool_to_prop. subst n. by exists f.
  - intros (f & Hin & H). exists (name, f). split; [done|]. cbn. by rewrite bool_decide_eq_true_2, bool_decide_eq_false_2.
Qed.

(** ** Loops that stop *)

Lemma foldM_unit_Err {A} (f : A → result soft_error ()) l e : foldM (λ x _, f x) l () = Err e → ∃ x, x ∈ l ∧ f x = Err e.
Proof. intros (pre & x & post & [] & -> & _ & H)%foldM_Err_split. exists x. split; [|done]. apply elem_of_app. right. by left. Qed.

(** ** Types *)

Lemma supported_occurs u t : supported t → occurs (causes u) t = false.
Proof.
  assert (L : ∀ ts, Forall (λ t, supported t → occurs (causes u) t = false) ts → Forall supported ts → existsb (occurs (causes u)) ts = false).
  { induction 1 as [|x xs Hx _ IH]; intros H; [done|]. apply Forall_cons in H as [H1 H2]. cbn. by rewrite Hx, IH. }
  induction t as [t Ha Hv Hs Hf|n e IH|n e IH|a p ts IH|r ts v IHr IH] using type_nested_ind; intros H.
  - destruct t; cbn in *; try done; try (by destruct u); [by destruct (Ha count t)|by destruct (Hv count t)|
      by destruct (Hs name packed elements)|by destruct (Hf t params vararg)].
  - cbn in *. rewrite IH by done. by destruct u.
  - cbn in *. destruct H as [Hf H]. rewrite IH by done. destruct u; try done. cbn. by rewrite Hf.
  - cbn [supported] in H. rewrite supported_all in H. cbn. rewrite L by done. by destruct u.
  - cbn [supported] in H. rewrite supported_all in H. destruct H as [Hr H]. cbn. rewrite IHr, L by done. by destruct u.
Qed.

Lemma checkType_supported t : checkType t = Ok () ↔ supported t.
Proof. unfold checkType. rewrite <-classify_supported. destruct (classifyUnsupportedFloatType t); by split. Qed.

Lemma checkTypes_supported ts : checkTypes ts = Ok () ↔ ∀ t, t ∈ ts → supported t.
Proof. unfold checkTypes. rewrite (foldM_unit checkType). by setoid_rewrite checkType_supported. Qed.

Lemma checkTypes_Err ts e : checkTypes ts = Err e → ∃ t u, t ∈ ts ∧ e = UnsupportedType u ∧ occurs (causes u) t = true.
Proof.
  intros (t & Ht & H)%(foldM_unit_Err checkType). unfold checkType in H. exists t, (classifyUnsupportedFloatType t).
  destruct (isNone (classifyUnsupportedFloatType t)) eqn:E; [done|]. split_and!; [done|congruence|].
  apply classify_cause. by destruct (classifyUnsupportedFloatType t).
Qed.

(** ** Operands *)

Lemma mapConstant_bad c : if badConstant c then mapConstant c = Err UnhandledConstant else ∃ c', mapConstant c = Ok c'.
Proof.
  assert (L : ∀ l, Forall (λ c, if badConstant c then mapConstant c = Err UnhandledConstant else ∃ c', mapConstant c = Ok c') l →
    if existsb badConstant l then mapResult mapConstant l = Err UnhandledConstant else ∃ l', mapResult mapConstant l = Ok l').
  { induction 1 as [|x l Hx _ IH]; cbn; [by eexists|]. destruct (badConstant x); cbn; [by rewrite Hx|]. destruct Hx as [c' ->].
    destruct (existsb badConstant l); [by rewrite IH|]. destruct IH as [l' ->]. by eexists. }
  induction c as [c Ha Hs|t l IH|t l IH] using constant_nested_ind.
  - destruct c; cbn; try (by eexists); [by destruct (Ha t operands)|by destruct (Hs t operands)|]. by destruct (hasFloat t); [|eexists].
  - cbn. specialize (L l IH). destruct (existsb badConstant l); [by rewrite L|]. destruct L as [l' ->]. by eexists.
  - cbn. specialize (L l IH). destruct (existsb badConstant l); [by rewrite L|]. destruct L as [l' ->]. by eexists.
Qed.

Lemma getOperand_Ok o o' c : getOperand o = Ok o' → o = Const c → badConstant c = false.
Proof. intros H ->. cbn in H. pose proof (mapConstant_bad c). destruct (badConstant c); [|done]. by rewrite H0 in H. Qed.

Lemma getOperand_Err o e : getOperand o = Err e → e = UnhandledConstant ∧ ∃ c, o = Const c ∧ badConstant c = true.
Proof.
  destruct o as [| |c]; cbn; try done. pose proof (mapConstant_bad c) as H. destruct (badConstant c) eqn:E; [|by destruct H as [c' ->]].
  rewrite H. intros [= <-]. eauto.
Qed.

Lemma typeOfConstant_mapped c c' : mapConstant c = Ok c' → typeOfConstant c' = mapType (typeOfConstant c).
Proof.
  destruct c; cbn; try (by intros [= <-]).
  - by destruct (mapResult mapConstant operands); [intros [= <-]|].
  - by destruct (mapResult mapConstant operands); [intros [= <-]|].
  - unfold hasFloat. destruct (typeEq (mapType t) t) eqn:E; [|done]. intros [= <-]. by apply typeEq_spec in E.
Qed.

(** ** One instruction *)

(** The cause of a diagnostic of [lowerInstr]. *)
Definition instrCause (linked : string → bool) (i : instr) (e : soft_error) : Prop :=
  match e with
  | UnhandledConstant => ∃ c, Const c ∈ mappedOperands i ∧ badConstant c = true
  | ClassMaskNotConstant => ∃ f32 x mask, i = IClass f32 x mask ∧ ∀ b z, mask ≠ Const (CInt b z)
  | NoIntegerLowering id => ∃ f32 args, i = IIntrinsic id f32 args ∧ intrinsicLibmBase id = None
  | NotLinked name => ∃ id f32 args, i = IIntrinsic id f32 args ∧ libmName id f32 = Some name ∧ linked name = false
  | _ => False
  end.

Lemma operand_cause linked i o e : getOperand o = Err e → o ∈ mappedOperands i → instrCause linked i e.
Proof. intros (-> & c & -> & H)%getOperand_Err Ho. by exists c. Qed.

Lemma operands_cause linked i l e : mapResult getOperand l = Err e → (∀ o, o ∈ l → o ∈ mappedOperands i) → instrCause linked i e.
Proof. intros (o & Ho & H)%mapResult_Err Hl. eapply operand_cause; eauto. Qed.

Lemma lowerInstr_Err linked i e : lowerInstr linked i = Err e → instrCause linked i e.
Proof.
  intros H. assert (G := λ o, operand_cause linked i o e). assert (Gs := λ l, operands_cause linked i l e).
  rewrite lowerInstr_cases in H. destruct i; cbn [lowerCases mappedOperands operandsOf] in *;
    repeat (apply bind_Err in H as [H|(? & _ & H)]; [solve [eapply G; [exact H|set_solver]|eapply Gs; [exact H|set_solver]]|]); try done.
  - by destruct (_ && _).
  - unfold getUnless in H. destruct (trivialPredicate p); [done|].
    repeat (apply bind_Err in H as [H|(? & _ & H)]; [eapply G; [exact H|set_solver]|]). done.
  - assert (N : ∀ mask', mask0 = mask' → (∀ b z, mask' ≠ Const (CInt b z)) → e = ClassMaskNotConstant → instrCause linked (IClass f32 x mask0) e).
    { intros mask' <- Hn ->. by exists f32, x, mask0. }
    destruct mask0 as [| |[b mask| | | | | | | | | |]]; try (injection H as <-; by eapply N). apply bind_Err in H as [H|(? & _ & H)]; [|done].
    unfold getUnless in H. destruct (trivialMask mask); [done|]. eapply G; [exact H|by left].
  - destruct (libmName id f32) as [name|] eqn:En.
    + destruct (linked name) eqn:El; [|injection H as <-; by exists id, f32, args].
      apply bind_Err in H as [H|(? & _ & H)]; [|done]. eapply Gs; [exact H|set_solver].
    + injection H as <-. exists f32, args. split; [done|]. unfold libmName in En. by destruct (intrinsicLibmBase id).
  - destruct f as [name|o]; cbn [getCallee] in H.
    + apply bind_Err in H as [H|(? & _ & H)]; [done|]. apply bind_Err in H as [H|(? & _ & H)]; [|done]. eapply Gs; [exact H|set_solver].
    + apply bind_Err in H as [H|(? & _ & H)].
      * destruct (getOperand o) eqn:Eo; [done|]. injection H as <-. eapply G; [exact Eo|set_solver].
      * apply bind_Err in H as [H|(? & _ & H)]; [|done]. eapply Gs; [exact H|set_solver].
Qed.

(** The operands of a lowered instruction are replacements of its operands. *)
Lemma getOperands_all l l' : mapResult getOperand l = Ok l' → Forall (λ o, ∃ o', getOperand o = Ok o') l.
Proof. intros H%mapResult_Forall2. induction H; constructor; eauto. Qed.

Lemma lowerInstr_Ok linked i i' : sourceInstr i = true → lowerInstr linked i = Ok i' → Forall (λ o, ∃ o', getOperand o = Ok o') (mappedOperands i).
Proof.
  intros Hs H. rewrite lowerInstr_cases in H. destruct i; cbn [lowerCases mappedOperands operandsOf] in *; try done;
    repeat (apply bind_Ok in H as (? & ? & H)); try solve [repeat constructor; eauto]; try (by eapply getOperands_all).
  - unfold getUnless in *. destruct (trivialPredicate p); repeat constructor; eauto.
  - destruct mask0 as [| |[b mask| | | | | | | | | |]]; try done. apply bind_Ok in H as (? & Hx & H). unfold getUnless in Hx.
    destruct (trivialMask mask); repeat constructor; eauto.
  - destruct (libmName id f32) as [name|]; [|done]. destruct (linked name); [|done]. apply bind_Ok in H as (? & ? & H). by eapply getOperands_all.
  - destruct f as [name|o]; cbn [getCallee] in *; [by eapply getOperands_all|]. destruct (getOperand o) eqn:Eo; [|done].
    constructor; [by eexists|by eapply getOperands_all].
Qed.

Lemma lowerInstr_quiet linked i i' : sourceInstr i = true → lowerInstr linked i = Ok i' → ∀ e, ¬ instrCause linked i e.
Proof.
  intros Hs H e C. pose proof (lowerInstr_Ok _ _ _ Hs H) as Hops. rewrite lowerInstr_cases in H. destruct e; cbn in C; try done.
  - destruct C as (c & Hc & Hb). rewrite Forall_forall in Hops. destruct (Hops _ Hc) as [o' Ho].
    by rewrite (getOperand_Ok _ _ c Ho eq_refl) in Hb.
  - destruct C as (f32 & x & mask & -> & Hm). cbn in H. destruct mask as [| |[]]; try done. by destruct (Hm bits z).
  - destruct C as (f32 & args & -> & Hn). cbn in H. unfold libmName in H. by rewrite Hn in H.
  - destruct C as (id & f32 & args & -> & Hn & Hl). cbn in H. by rewrite Hn, Hl in H.
Qed.

(** ** Blocks *)

Definition badType (ts : list type) (e : soft_error) : Prop := ∃ t u, t ∈ ts ∧ e = UnsupportedType u ∧ occurs (causes u) t = true.

Lemma badType_mono ts us e : badType ts e → (∀ t, t ∈ ts → t ∈ us) → badType us e.
Proof. intros (t & u & Ht & H) Hs. exists t, u. split; [by apply Hs|done]. Qed.

Lemma checkInstr_Err i e : checkInstr i = Err e →
  badType (resultType i :: operandTypes i) e ∨ (e = WideConversion ∧ wideConversion i = true).
Proof.
  unfold checkInstr. intros [H|([] & _ & H)]%bind_Err; [left; by apply checkTypes_Err|].
  destruct (wideConversion i); [|done]. injection H as <-. by right.
Qed.

Lemma checkInstr_Ok i : checkInstr i = Ok () ↔ (∀ t, t ∈ resultType i :: operandTypes i → supported t) ∧ wideConversion i = false.
Proof.
  unfold checkInstr. rewrite bind_Ok, <-checkTypes_supported. split.
  - intros ([] & H & Hw). split; [done|]. by destruct (wideConversion i).
  - intros [H Hw]. exists (). by rewrite Hw.
Qed.

Lemma blockTypes_spec b t : t ∈ blockTypes b ↔
  (∃ p, p ∈ b_phis b ∧ t ∈ phiTypes p) ∨ (∃ r i, (r, i) ∈ b_body b ∧ t ∈ resultType i :: operandTypes i) ∨ t ∈ terminatorTypes (b_term b).
Proof.
  unfold blockTypes. rewrite !elem_of_app, !list_elem_of_bind. split.
  - intros [(p & ? & ?)|[([r i] & ? & ?)|?]]; [by left; eauto|right; left; eauto|by right; right].
  - intros [(p & ? & ?)|[(r & i & ? & ?)|?]]; [by left; eauto|right; left; by exists (r, i)|by right; right].
Qed.

Lemma checkBlock_Err b e : checkBlock b = Err e →
  badType (blockTypes b) e ∨ (e = WideConversion ∧ ∃ r i, (r, i) ∈ b_body b ∧ wideConversion i = true).
Proof.
  unfold checkBlock. intros [H|([] & _ & H)]%bind_Err.
  { apply (foldM_unit_Err (λ p, checkTypes (phiTypes p))) in H as (p & Hp & H). apply checkTypes_Err in H. left.
    eapply badType_mono; [exact H|]. intros t Ht. apply blockTypes_spec. eauto. }
  apply bind_Err in H as [H|([] & _ & H)].
  - apply (foldM_unit_Err (λ ri : nat * instr, checkInstr ri.2)) in H as ([r i] & Hi & H). apply checkInstr_Err in H as [H|[-> H]].
    + left. eapply badType_mono; [exact H|]. intros t Ht. apply blockTypes_spec. right. left. eauto.
    + right. eauto.
  - left. apply checkTypes_Err in H. eapply badType_mono; [exact H|]. intros t Ht. apply blockTypes_spec. auto.
Qed.

Lemma checkBlock_Ok b : checkBlock b = Ok () →
  (∀ t, t ∈ blockTypes b → supported t) ∧ ∀ r i, (r, i) ∈ b_body b → wideConversion i = false.
Proof.
  unfold checkBlock. intros ([] & H1 & H)%bind_Ok. apply bind_Ok in H as ([] & H2 & H3).
  rewrite (foldM_unit (λ p, checkTypes (phiTypes p))) in H1. rewrite (foldM_unit (λ ri : nat * instr, checkInstr ri.2)) in H2.
  split.
  - intros t [(p & Hp & Ht)|[(r & i & Hi & Ht)|Ht]]%blockTypes_spec.
    + by eapply checkTypes_supported; [apply H1|].
    + apply H2 in Hi. apply checkInstr_Ok in Hi as [Hi _]. by apply Hi.
    + by eapply checkTypes_supported.
  - intros r i Hi. apply H2 in Hi. by apply checkInstr_Ok in Hi as [_ ?].
Qed.

Lemma blockOperands_spec b o : o ∈ blockOperands b ↔
  (∃ p n, p ∈ b_phis b ∧ (n, o) ∈ ph_incoming p) ∨ (∃ r i, (r, i) ∈ b_body b ∧ o ∈ mappedOperands i) ∨ o ∈ terminatorOperands (b_term b).
Proof.
  unfold blockOperands. rewrite !elem_of_app, !list_elem_of_bind. split.
  - intros [(p & H & ?)|[([r i] & ? & ?)|?]]; [left|right; left; eauto|by right; right].
    apply list_elem_of_fmap in H as ([n o'] & -> & ?). eauto.
  - intros [(p & n & ? & ?)|[(r & i & ? & ?)|?]]; [left|right; left; by exists (r, i)|by right; right].
    exists p. split; [|done]. apply list_elem_of_fmap. by exists (n, o).
Qed.

Definition badOperand (os : list operand) (e : soft_error) : Prop := e = UnhandledConstant ∧ ∃ c, Const c ∈ os ∧ badConstant c = true.

Lemma lowerBlock_Err linked b e : lowerBlock linked b = Err e →
  badOperand (blockOperands b) e ∨ ∃ r i, (r, i) ∈ b_body b ∧ instrCause linked i e.
Proof.
  unfold lowerBlock. intros [H|(ps & _ & H)]%bind_Err.
  { apply mapResult_Err in H as (p & Hp & H). unfold lowerPhi in H. apply bind_Err in H as [H|(? & _ & H)]; [|done].
    apply mapResult_Err in H as ([n o] & Ho & H). cbn in H. destruct (getOperand o) eqn:Eo; [done|]. injection H as <-.
    apply getOperand_Err in Eo as (-> & c & -> & Hc). left. split; [done|]. exists c. split; [|done]. apply blockOperands_spec. eauto. }
  apply bind_Err in H as [H|(bd & _ & H)].
  - apply mapResult_Err in H as ([r i] & Hi & H). cbn in H. destruct (lowerInstr linked i) eqn:Ei; [done|]. injection H as <-.
    right. exists r, i. split; [done|]. by apply lowerInstr_Err.
  - apply bind_Err in H as [H|(? & _ & H)]; [|done]. left. destruct (b_term b) as [|c yes no|[x|]|] eqn:Et; cbn in H; try done;
      apply bind_Err in H as [(-> & k & -> & Hk)%getOperand_Err|(? & _ & H)]; try done; (split; [done|]); exists k; (split; [|done]);
      apply blockOperands_spec; rewrite Et; right; right; by left.
Qed.

Lemma lowerBlock_Ok linked b b' : lowerBlock linked b = Ok b' → (∀ r i, (r, i) ∈ b_body b → sourceInstr i = true) →
  (∀ c, Const c ∈ blockOperands b → badConstant c = false) ∧ ∀ r i e, (r, i) ∈ b_body b → ¬ instrCause linked i e.
Proof.
  intros (Hphi & Hbody & Hterm)%lowerBlock_parts Hs.
  assert (Hi : ∀ r i, (r, i) ∈ b_body b → ∃ i', lowerInstr linked i = Ok i').
  { intros r i (k & Hk)%list_elem_of_lookup. destruct (Forall2_lookup_l _ _ _ _ _ Hbody Hk) as (ri' & _ & H). cbn in H.
    destruct (lowerInstr linked i); [by eexists|done]. }
  split.
  - intros c [(p & n & Hp & Ho)|[(r & i & Hri & Ho)|Ho]]%blockOperands_spec.
    + apply list_elem_of_lookup in Hp as (k & Hk). destruct (Forall2_lookup_l _ _ _ _ _ Hphi Hk) as (p' & _ & H).
      unfold lowerPhi in H. apply bind_Ok in H as (l & Hl%mapResult_Forall2 & _). apply list_elem_of_lookup in Ho as (j & Hj).
      destruct (Forall2_lookup_l _ _ _ _ _ Hl Hj) as (o' & _ & H). cbn [fst snd] in H. destruct (getOperand (Const c)) eqn:E; [|done].
      by eapply getOperand_Ok.
    + destruct (Hi _ _ Hri) as [i' Hl]. pose proof (lowerInstr_Ok _ _ _ (Hs _ _ Hri) Hl) as Hops. rewrite Forall_forall in Hops.
      destruct (Hops _ Ho). by eapply getOperand_Ok.
    + destruct (b_term b) as [|x yes no|[x|]|]; cbn in Ho, Hterm; rewrite ?elem_of_nil, ?list_elem_of_singleton in Ho; try done; subst x;
        apply bind_Ok in Hterm as (? & ? & _); by eapply getOperand_Ok.
  - intros r i e Hri. destruct (Hi _ _ Hri) as [i' Hl]. eapply lowerInstr_quiet; [by eapply Hs|done].
Qed.

(** ** Functions and programs *)

Lemma functionTypes_block f b t : b ∈ f_blocks f → t ∈ blockTypes b → t ∈ functionTypes f.
Proof. intros Hb Ht. right. apply list_elem_of_bind. eauto. Qed.

Lemma checkFunction_Err globals p nf e : nf ∈ p → checkFunction nf.2 = Err e → cause globals p e.
Proof.
  intros Hnf H. unfold checkFunction in H. assert (B : badType (functionTypes nf.2) e → cause globals p e).
  { intros (t & u & Ht & -> & Ho). exists t. split; [right; eauto|done]. }
  apply bind_Err in H as [H|([] & _ & H)].
  - apply B. unfold checkType in H. destruct (isNone _) eqn:E; [done|]. injection H as <-. exists (f_type nf.2), (classifyUnsupportedFloatType (f_type nf.2)).
    split_and!; [by left|done|]. apply classify_cause. by destruct (classifyUnsupportedFloatType _).
  - apply (foldM_unit_Err checkBlock) in H as (b & Hb & H). apply checkBlock_Err in H as [H|(-> & r & i & Hi & Hw)].
    + apply B. eapply badType_mono; [exact H|]. intros t. by apply functionTypes_block.
    + exists i. split; [|done]. apply instructionsOf_spec. eauto 10.
Qed.

Lemma checkFunction_Ok f : checkFunction f = Ok () →
  (∀ t, t ∈ functionTypes f → supported t) ∧ ∀ b, b ∈ f_blocks f → checkBlock b = Ok ().
Proof.
  unfold checkFunction. intros ([] & H1 & H2)%bind_Ok. rewrite (foldM_unit checkBlock) in H2. split; [|done].
  intros t [->|Ht]%elem_of_cons; [by apply checkType_supported|]. apply list_elem_of_bind in Ht as (b & Ht & Hb).
  apply H2, checkBlock_Ok in Hb as [Hb _]. by apply Hb.
Qed.

Lemma instrCause_cause globals p i e : i ∈ instructionsOf p → instrCause (linkedIn p) i e → (∀ c, Const c ∈ mappedOperands i → ∃ nf, nf ∈ p ∧ Const c ∈ functionOperands nf.2) →
  cause globals p e.
Proof.
  intros Hi C Hops. destruct e; cbn in *; try done.
  - destruct C as (c & Hc & Hb). destruct (Hops c Hc) as (nf & ? & ?). eauto.
  - destruct C as (f32 & x & mask & -> & H). eauto.
  - destruct C as (f32 & args & -> & H). exists f32, args. split; [done|]. by apply intrinsicLibmBase_cFunction.
  - destruct C as (id & f32 & args & -> & H & Hl%linkedIn_spec). rewrite libmName_cFunction in H. eauto 10.
Qed.

Lemma lowerFunctions_Err globals p e : lowerFunctions (linkedIn p) p = Err e → cause globals p e.
Proof.
  intros (nf & Hnf & H)%mapResult_Err. destruct (lowerFunction (linkedIn p) nf.2) eqn:E; [done|]. injection H as <-.
  unfold lowerFunction in E. apply bind_Err in E as [E|(? & _ & E)]; [|done]. apply mapResult_Err in E as (b & Hb & E).
  assert (Hops : ∀ o, o ∈ blockOperands b → o ∈ functionOperands nf.2) by (intros o Ho; apply list_elem_of_bind; eauto).
  apply lowerBlock_Err in E as [(-> & c & Hc & Hbad)|(r & i & Hi & C)].
  - exists nf, c. auto.
  - eapply instrCause_cause; [apply instructionsOf_spec; eauto 10|exact C|]. intros c Hc. exists nf. split; [done|]. apply Hops, blockOperands_spec. eauto 10.
Qed.

Lemma accepted_quiet globals p p' : runSoftFloat globals p = Ok p' → sourceProgram p = true → ∀ e, ¬ cause globals p e.
Proof.
  intros (Hg & Hc & Hl)%accepted_shape Hs e C. rewrite checkTypes_supported in Hg.
  rewrite (foldM_unit (λ nf : string * func, checkFunction nf.2)) in Hc. apply mapResult_Forall2 in Hl.
  unfold sourceProgram in Hs. rewrite forallb_forall in Hs. setoid_rewrite <-list_elem_of_In in Hs.
  assert (Hb : ∀ nf b, nf ∈ p → b ∈ f_blocks nf.2 → ∃ b', lowerBlock (linkedIn p) b = Ok b').
  { intros nf b (k & Hk)%list_elem_of_lookup Hb. destruct (Forall2_lookup_l _ _ _ _ _ Hl Hk) as (nf' & _ & H).
    destruct (lowerFunction (linkedIn p) nf.2) eqn:E; [|done]. apply lowerFunction_blocks in E. apply list_elem_of_lookup in Hb as (j & Hj).
    destruct (Forall2_lookup_l _ _ _ _ _ E Hj) as (b' & _ & ?). eauto. }
  assert (Hok : ∀ nf b, nf ∈ p → b ∈ f_blocks nf.2 → (∀ c, Const c ∈ blockOperands b → badConstant c = false) ∧
      ∀ r i e, (r, i) ∈ b_body b → ¬ instrCause (linkedIn p) i e).
  { intros nf b Hnf Hbb. destruct (Hb _ _ Hnf Hbb) as [b' E]. eapply lowerBlock_Ok; [exact E|]. intros r i Hi.
    apply Hs, instructionsOf_spec. eauto 10. }
  destruct e; cbn in C.
  - destruct C as (t & [Ht|(nf & Hnf & Ht)] & Ho); [apply Hg in Ht|apply Hc, checkFunction_Ok in Hnf as [Hnf _]; apply Hnf in Ht];
      by rewrite supported_occurs in Ho.
  - destruct C as (i & (nf & b & r & Hnf & Hbb & Hi)%instructionsOf_spec & Hw). apply Hc, checkFunction_Ok in Hnf as [_ Hnf].
    apply Hnf, checkBlock_Ok in Hbb as [_ Hbb]. by rewrite (Hbb _ _ Hi) in Hw.
  - destruct C as (nf & c & Hnf & Hcc & Hbad). apply list_elem_of_bind in Hcc as (b & Hcc & Hbb).
    destruct (Hok _ _ Hnf Hbb) as [Hq _]. by rewrite Hq in Hbad.
  - destruct C as (f32 & x & mask & (nf & b & r & Hnf & Hbb & Hi)%instructionsOf_spec & H). destruct (Hok _ _ Hnf Hbb) as [_ Hq].
    apply (Hq r _ ClassMaskNotConstant Hi). cbn. eauto.
  - destruct C as (f32 & args & (nf & b & r & Hnf & Hbb & Hi)%instructionsOf_spec & H). destruct (Hok _ _ Hnf Hbb) as [_ Hq].
    apply (Hq r _ (NoIntegerLowering intrinsic) Hi). cbn. exists f32, args. split; [done|]. by apply intrinsicLibmBase_cFunction.
  - destruct C as (id & f32 & args & (nf & b & r & Hnf & Hbb & Hi)%instructionsOf_spec & H & Hnl%linkedIn_spec). rewrite <-libmName_cFunction in H.
    destruct (Hok _ _ Hnf Hbb) as [_ Hq].
    apply (Hq r _ (NotLinked name) Hi). cbn. eauto 10.
Qed.

Lemma rejected_cause globals p e : runSoftFloat globals p = Err e → cause globals p e.
Proof.
  unfold runSoftFloat. intros [H|([] & _ & H)]%bind_Err.
  { apply checkTypes_Err in H as (t & u & Ht & -> & Ho). exists t. auto. }
  apply bind_Err in H as [H|([] & _ & H)]; [|by apply lowerFunctions_Err].
  apply (foldM_unit_Err (λ nf : string * func, checkFunction nf.2)) in H as (nf & Hnf & H). by eapply checkFunction_Err.
Qed.

(** ** What is left of floating point *)

(** The instructions whose result stays floating point: one outside the
    pass's list that yields a float or a double ([freeze], say), and a
    reinterpretation as one of something that is not the integer of its width
    (a vector). *)
Definition escapes (i : instr) : bool :=
  match i with
  | IOther _ (FloatTy | DoubleTy) _ => true
  | IBitCast from FloatTy _ => match from with FloatTy => false | IntegerTy b => negb (b =? 32) | _ => true end
  | IBitCast from DoubleTy _ => match from with DoubleTy => false | IntegerTy b => negb (b =? 64) | _ => true end
  | _ => false
  end.

Lemma floatFree_isFP t : floatFree t = true → isFPOrFPVectorTy t = false.
Proof.
  destruct t; cbn; try done; rewrite ?andb_true_iff. destruct t; cbn; done.
Qed.

Lemma mapType_isFP t : supported t → isFPOrFPVectorTy (mapType t) = false.
Proof. intros H. by apply floatFree_isFP, mapType_floatFree. Qed.

Lemma supported_isFP t : supported t → isFPOrFPVectorTy t = match t with FloatTy | DoubleTy => true | _ => false end.
Proof. destruct t; cbn; try done; tauto. Qed.

Lemma other_escapes op t xs : supported t → escapes (IOther op t xs) = isFPOrFPVectorTy t.
Proof. intros H. rewrite supported_isFP by done. by destruct t. Qed.

Lemma bitcast_escapes from to x : supported to →
  escapes (IBitCast from to x) = isFPOrFPVectorTy to && negb (typeEq (mapType from) (mapType to)).
Proof.
  intros H. rewrite supported_isFP by done. destruct to; try (by destruct from); destruct from; try done;
    by destruct (mapType_struct name packed elements) as [[_ ->]| ->].
Qed.

(** ** Operands *)

(** An operand of the lowered code: a replacement, or an integer constant. *)
Definition replaced (os : list operand) (o' : operand) : Prop :=
  (∃ o, o ∈ os ∧ getOperand o = Ok o') ∨ ∃ w z, o' = Const (CInt w z).

Lemma fcmp_operands p f32 x y o : o ∈ exprOperands (lowerFCmp p f32 x y) →
  o ∈ exprOperands x ++ exprOperands y ∨ ∃ w z, o = Const (CInt w z).
Proof.
  unfold lowerFCmp, compareCall, getBool, constantOf. destruct p; cbn; rewrite ?app_nil_r, ?elem_of_app, ?list_elem_of_singleton; naive_solver.
Qed.

(** Code over the bits and integer constants. *)
Definition over (bits x : expr) : Prop := ∀ o, o ∈ exprOperands x → o ∈ exprOperands bits ∨ ∃ w z, o = Const (CInt w z).

Lemma over_const bits w z : over bits (constantOf w z).
Proof. intros o Ho. cbn in Ho. apply list_elem_of_singleton in Ho. eauto. Qed.

Lemma over_bits bits : over bits bits.
Proof. intros o. auto. Qed.

Lemma over_app bits x y : over bits x → over bits y → ∀ o, o ∈ exprOperands x ++ exprOperands y → o ∈ exprOperands bits ∨ ∃ w z, o = Const (CInt w z).
Proof. intros Hx Hy o [Ho|Ho]%elem_of_app; [by apply Hx|by apply Hy]. Qed.

Lemma over_icmp bits p w x y : over bits x → over bits y → over bits (EICmp p w x y).
Proof. exact (over_app bits x y). Qed.
Lemma over_and bits w x y : over bits x → over bits y → over bits (EAnd w x y).
Proof. exact (over_app bits x y). Qed.
Lemma over_or bits w x y : over bits x → over bits y → over bits (EOr w x y).
Proof. exact (over_app bits x y). Qed.
Lemma over_not bits x : over bits x → over bits (ENot x).
Proof. done. Qed.

Create HintDb over discriminated.
#[local] Hint Resolve over_const over_bits over_icmp over_and over_or over_not : over.

Lemma fpclass_operands f32 mask bits : over bits (lowerFPClass f32 mask bits).
Proof.
  assert (S : ∀ predicate n p result, over bits predicate → over bits result → over bits (includeSigned f32 mask bits predicate n p result)).
  { intros. unfold includeSigned, isNegative. repeat case_match; auto with over. }
  unfold lowerFPClass, includeNan, getBool, isNan, isInf, isZero, isNormal, isSubnormal, isNegative, isFinite, notNan, quiet, exponent, magnitude.
  repeat case_match; auto 10 with over.
Qed.

Lemma getOperands_replaced l l' : mapResult getOperand l = Ok l' → ∀ o', o' ∈ l' → replaced l o'.
Proof.
  intros H%mapResult_Forall2 o' (k & Hk)%list_elem_of_lookup. destruct (Forall2_lookup_r _ _ _ _ _ H Hk) as (o & Ho & E).
  left. exists o. split; [|done]. apply list_elem_of_lookup. eauto.
Qed.

Lemma lowerInstr_operands linked i i' o' : sourceInstr i = true → lowerInstr linked i = Ok i' → o' ∈ operandsOf i' → replaced (operandsOf i) o'.
Proof.
  intros Hs H Ho. assert (R : ∀ o x, getOperand o = Ok x → o ∈ operandsOf i → o' = x → replaced (operandsOf i) o').
  { intros o x E Hin ->. left. eauto. }
  rewrite lowerInstr_cases in H. destruct i; cbn [lowerCases operandsOf] in *; try done; repeat (apply bind_Ok in H as (? & ? & H));
    try (injection H as <-; cbn in Ho; rewrite ?elem_of_app, ?elem_of_cons, ?elem_of_nil in Ho; destruct_or? Ho; try done;
         solve [eapply R; [..|exact Ho]; [eassumption|set_solver]|by eapply getOperands_replaced]).
  - destruct (_ && _); injection H as <-; cbn in Ho; apply list_elem_of_singleton in Ho; (eapply R; [..|exact Ho]; [eassumption|set_solver]).
  - injection H as <-. unfold getUnless in *. destruct (trivialPredicate p) eqn:Et.
    { right. destruct p; try done; cbn in Ho; apply list_elem_of_singleton in Ho; eauto. }
    apply fcmp_operands in Ho as [Ho|?]; [|by right]. cbn in Ho. rewrite !elem_of_cons, elem_of_nil in Ho.
    destruct_or? Ho; try done; (eapply R; [..|exact Ho]; [eassumption|set_solver]).
  - injection H as <-. destruct signed; cbn in Ho; apply list_elem_of_singleton in Ho; (eapply R; [..|exact Ho]; [eassumption|set_solver]).
  - destruct mask0 as [| |[b mask| | | | | | | | | |]]; try done. apply bind_Ok in H as (x' & Hx & H). injection H as <-. cbn [operandsOf] in Ho.
    unfold getUnless in Hx. destruct (trivialMask mask) eqn:Et.
    { rewrite (class_trivial f32 mask _ (getBool false) Et) in Ho. apply fpclass_operands in Ho as [Ho|?]; [|by right]. right.
      cbn in Ho. apply list_elem_of_singleton in Ho. eauto. }
    apply fpclass_operands in Ho as [Ho|?]; [|by right]. cbn in Ho. apply list_elem_of_singleton in Ho. eapply R; [..|exact Ho]; [eassumption|set_solver].
  - destruct (libmName id f32) as [name|]; [|done]. destruct (linked name); [|done]. apply bind_Ok in H as (? & ? & H). injection H as <-.
    by eapply getOperands_replaced.
  - injection H as <-. destruct f as [name|o]; cbn [getCallee] in *.
    + injection H0 as <-. by eapply getOperands_replaced.
    + destruct (getOperand o) as [o1|] eqn:E; [|done]. injection H0 as <-. cbn in Ho. apply elem_of_cons in Ho as [Ho|Ho];
        [eapply R; [exact E|by left|done]|].
      destruct (getOperands_replaced _ _ H1 _ Ho) as [(k & ? & ?)|?]; [|by right]. left. exists k. split; [by right|done].
Qed.

(** ** Types *)

Lemma constantTypes_spec os t : t ∈ constantTypes os ↔ ∃ c, Const c ∈ os ∧ t = typeOfConstant c.
Proof.
  unfold constantTypes. rewrite list_elem_of_omap. split.
  - intros (o & Ho & E). destruct o; try done. injection E as <-. eauto.
  - intros (c & Hc & ->). by exists (Const c).
Qed.

(** Constants of replaced operands are free when the types before are supported. *)
Lemma replaced_free os os' : (∀ t, t ∈ constantTypes os → supported t) → (∀ o, o ∈ os' → replaced os o) →
  ∀ t, t ∈ constantTypes os' → isFPOrFPVectorTy t = false.
Proof.
  intros Hs Hr t (c' & Hc & ->)%constantTypes_spec. destruct (Hr _ Hc) as [(o & Ho & E)|(w & z & [= ->])]; [|done].
  destruct o as [| |c]; try done. cbn in E. destruct (mapConstant c) as [c1|] eqn:Em; [|done]. injection E as <-.
  rewrite (typeOfConstant_mapped _ _ Em). apply mapType_isFP, Hs, constantTypes_spec. eauto.
Qed.

Lemma hasFloat_false t : hasFloat t = false → mapType t = t.
Proof. unfold hasFloat. intros H%negb_false_iff. by apply typeEq_spec. Qed.

(** The types an instruction names itself. *)
Definition namedTypes (i : instr) : list type := match i with IBitCast t _ _ | IStore t _ _ | ICall _ t _ => [t] | _ => [] end.

Lemma operandTypes_named i : operandTypes i = namedTypes i ++ constantTypes (operandsOf i).
Proof. by destruct i. Qed.

Lemma callResult t : supported t → isFPOrFPVectorTy (match mapType t with FunctionTy r _ _ => r | _ => VoidTy end) = false.
Proof.
  destruct t; try done; [by destruct (mapType_struct name packed elements) as [[_ ->]| ->]|].
  cbn [supported mapType]. intros [Hr _]. by apply mapType_isFP.
Qed.

Lemma lowerInstr_named linked i i' : sourceInstr i = true → escapes i = false → (∀ t, t ∈ resultType i :: operandTypes i → supported t) →
  lowerInstr linked i = Ok i' → ∀ t, t ∈ resultType i' :: namedTypes i' → isFPOrFPVectorTy t = false.
Proof.
  intros Hs Ht Hsup H t Hin. pose proof (Hsup (resultType i) ltac:(by left)) as Hres.
  assert (Hnamed : ∀ t, t ∈ namedTypes i → supported t) by (intros u Hu; apply Hsup; right; rewrite operandTypes_named; set_solver).
  rewrite lowerInstr_cases in H. destruct i; cbn [lowerCases resultType namedTypes] in *; try done; repeat (apply bind_Ok in H as (? & _ & H));
    try (injection H as <-; cbn [resultType namedTypes] in Hin; rewrite ?elem_of_cons, ?elem_of_nil in Hin; destruct_or? Hin; subst; try done;
         solve [by apply mapType_isFP|apply mapType_isFP, Hnamed; by left]).
  - destruct (hasFloat to || hasFloat from) eqn:Ef; cbn [andb] in H.
    + destruct (typeEq (mapType from) (mapType to)) eqn:E; injection H as <-; cbn in Hin.
      * apply list_elem_of_singleton in Hin as ->. by apply mapType_isFP.
      * rewrite bitcast_escapes, E, andb_true_r in Ht by done. rewrite !elem_of_cons, elem_of_nil in Hin.
        destruct Hin as [->|[->|?]]; [done|apply mapType_isFP, Hnamed; by left|done].
    + injection H as <-. cbn in Hin. apply orb_false_iff in Ef as [Eto _]. rewrite !elem_of_cons, elem_of_nil in Hin. destruct Hin as [->|[->|?]]; [| |done].
      * rewrite <-(hasFloat_false _ Eto). by apply mapType_isFP.
      * apply mapType_isFP, Hnamed. by left.
  - destruct mask0 as [| |[]]; try done. apply bind_Ok in H as (? & _ & H). injection H as <-. by apply list_elem_of_singleton in Hin as ->.
  - destruct (libmName id f32); [|done]. destruct (linked s); [|done]. apply bind_Ok in H as (? & _ & H). injection H as <-. cbn in Hin.
    rewrite !elem_of_cons, elem_of_nil in Hin. by destruct Hin as [->|[->|?]].
  - injection H as <-. cbn in Hin. rewrite !elem_of_cons, elem_of_nil in Hin. assert (supported t0) by (apply Hnamed; by left).
    destruct Hin as [->|[->|?]]; [by apply callResult|by apply mapType_isFP|done].
  - injection H as <-. cbn [resultType namedTypes] in Hin. apply list_elem_of_singleton in Hin as ->. by rewrite <-(other_escapes opcode t0 args).
Qed.

Lemma lowerInstr_free linked i i' : sourceInstr i = true → escapes i = false → checkInstr i = Ok () → lowerInstr linked i = Ok i' →
  ∀ t, t ∈ resultType i' :: operandTypes i' → isFPOrFPVectorTy t = false.
Proof.
  intros Hs Ht [Hsup _]%checkInstr_Ok H t Hin. rewrite operandTypes_named, app_comm_cons, elem_of_app in Hin. destruct Hin as [Hin|Hin].
  - by eapply lowerInstr_named.
  - eapply replaced_free; [|intros o; by eapply lowerInstr_operands|exact Hin].
    intros u Hu. apply Hsup. right. rewrite operandTypes_named. apply elem_of_app. by right.
Qed.

Lemma lowerInstr_escapes linked i i' : checkInstr i = Ok () → escapes i = true → lowerInstr linked i = Ok i' → isFPOrFPVectorTy (resultType i') = true.
Proof.
  intros [Hsup _]%checkInstr_Ok He H. pose proof (Hsup (resultType i) ltac:(by left)) as Hres. rewrite lowerInstr_cases in H.
  destruct i; try done; cbn [lowerCases resultType] in *; apply bind_Ok in H as (? & _ & H).
  - rewrite bitcast_escapes in He by done. apply andb_true_iff in He as [He E%negb_true_iff]. rewrite E, andb_false_r in H.
    by injection H as <-.
  - rewrite other_escapes in He by done. by injection H as <-.
Qed.

Lemma existsb_false {A} (f : A → bool) l : (∀ x, x ∈ l → f x = false) → existsb f l = false.
Proof.
  intros H. destruct (existsb f l) eqn:E; [|done]. apply existsb_exists in E as (x & Hx & E). apply list_elem_of_In in Hx. by rewrite H in E.
Qed.

Lemma lowerPhi_free p p' : (∀ t, t ∈ phiTypes p → supported t) → lowerPhi p = Ok p' → ∀ t, t ∈ phiTypes p' → isFPOrFPVectorTy t = false.
Proof.
  intros Hs H t Ht. unfold lowerPhi in H. apply bind_Ok in H as (l & Hl%mapResult_Forall2 & H). injection H as <-.
  apply elem_of_cons in Ht as [->|Ht]; [apply mapType_isFP, Hs; by left|]. cbn in Ht.
  eapply (replaced_free (snd <$> ph_incoming p)); [intros u Hu; apply Hs; by right| |exact Ht].
  intros o' ([n o1] & -> & (k & Hk)%list_elem_of_lookup)%list_elem_of_fmap. destruct (Forall2_lookup_r _ _ _ _ _ Hl Hk) as ([m o] & Hj & E).
  cbn in E. destruct (getOperand o) as [o2|] eqn:Eo; [|done]. injection E as <- <-. left. exists o. split; [|done].
  apply list_elem_of_fmap. exists (m, o). split; [done|]. apply list_elem_of_lookup. eauto.
Qed.

Lemma lowerTerminator_free t t' : (∀ u, u ∈ terminatorTypes t → supported u) → lowerTerminator t = Ok t' →
  ∀ u, u ∈ terminatorTypes t' → isFPOrFPVectorTy u = false.
Proof.
  intros Hs H u Hu. assert (R : ∀ x x', getOperand x = Ok x' → (∀ u, u ∈ constantTypes [x] → supported u) →
    u ∈ constantTypes [x'] → isFPOrFPVectorTy u = false).
  { intros x x' Hx Hxs Hxu. eapply replaced_free; [exact Hxs| |exact Hxu]. intros o ->%list_elem_of_singleton. left. exists x. split; [by left|done]. }
  destruct t as [|c yes no|[x|]|]; cbn in H; try (injection H as <-; by apply elem_of_nil in Hu);
    apply bind_Ok in H as (x' & Hx & H); injection H as <-; by eapply R.
Qed.

Lemma lowerFunction_free linked f f' : checkFunction f = Ok () → (∀ b r i, b ∈ f_blocks f → (r, i) ∈ b_body b → sourceInstr i = true ∧ escapes i = false) →
  lowerFunction linked f = Ok f' → UsesFloatingPoint f' = false.
Proof.
  intros Hc Hi Hl. apply checkFunction_Ok in Hc as [Hts Hbs]. pose proof (lowerFunction_blocks _ _ _ Hl) as Hblocks.
  assert (Ht : f_type f' = mapType (f_type f)) by (unfold lowerFunction in Hl; apply bind_Ok in Hl as (? & _ & Hl); by injection Hl as <-).
  unfold UsesFloatingPoint. apply orb_false_iff. split.
  - rewrite Ht. assert (Hs : supported (f_type f)) by (apply Hts; by left). destruct (f_type f); try done;
      [by destruct (mapType_struct name packed elements) as [[_ ->]| ->]|]. cbn [mapType]. cbn [supported] in Hs. rewrite supported_all, Forall_forall in Hs. destruct Hs as [Hr Hps]. rewrite mapType_isFP by done.
    apply existsb_false. intros u (t0 & -> & Hu)%list_elem_of_fmap. by apply mapType_isFP, Hps.
  - apply existsb_false. intros b' (k & Hk)%list_elem_of_lookup. destruct (Forall2_lookup_r _ _ _ _ _ Hblocks Hk) as (b & Hb & E).
    apply list_elem_of_lookup_2 in Hb. specialize (Hbs _ Hb). pose proof (checkBlock_Ok _ Hbs) as [Hbt _]. apply lowerBlock_parts in E as (Hphi & Hbody & Hterm).
    rewrite !orb_false_iff. split_and!; apply existsb_false.
    + intros p' (j & Hj)%list_elem_of_lookup. destruct (Forall2_lookup_r _ _ _ _ _ Hphi Hj) as (p & Hp & E). apply list_elem_of_lookup_2 in Hp.
      apply existsb_false. eapply lowerPhi_free; [|exact E]. intros u Hu. apply Hbt, blockTypes_spec. eauto.
    + eapply lowerTerminator_free; [|exact Hterm]. intros u Hu. apply Hbt, blockTypes_spec. auto.
    + intros ri' (j & Hj)%list_elem_of_lookup. destruct (Forall2_lookup_r _ _ _ _ _ Hbody Hj) as ([r i] & Hri & E). apply list_elem_of_lookup_2 in Hri.
      cbn in E. destruct (lowerInstr linked i) as [i'|] eqn:Ei; [|done]. injection E as <-. cbn. destruct (Hi _ _ _ Hb Hri) as [Hs Htt].
      assert (Hck : checkInstr i = Ok ()).
      { unfold checkBlock in Hbs. apply bind_Ok in Hbs as ([] & _ & Hbs). apply bind_Ok in Hbs as ([] & Hbs & _).
        rewrite (foldM_unit (λ ri : nat * instr, checkInstr ri.2)) in Hbs. by apply (Hbs (r, i)). }
      pose proof (lowerInstr_free _ _ _ Hs Htt Hck Ei) as Hf. apply orb_false_iff. split; [apply Hf; by left|].
      apply existsb_false. intros u Hu. apply Hf. by right.
Qed.

(** The later check finds exactly the instructions that escape. *)
Definition functionInstructions (f : func) : list instr := f_blocks f ≫= λ b, snd <$> b_body b.

Lemma functionInstructions_spec f i : i ∈ functionInstructions f ↔ ∃ b r, b ∈ f_blocks f ∧ (r, i) ∈ b_body b.
Proof.
  unfold functionInstructions. rewrite list_elem_of_bind. split.
  - intros (b & H & Hb). apply list_elem_of_fmap in H as ([r i'] & -> & Hi). eauto.
  - intros (b & r & Hb & Hi). exists b. split; [|done]. apply list_elem_of_fmap. by exists (r, i).
Qed.

Lemma lowerFunction_leftover linked f f' : checkFunction f = Ok () → (∀ i, i ∈ functionInstructions f → sourceInstr i = true) →
  lowerFunction linked f = Ok f' → UsesFloatingPoint f' = true ↔ ∃ i, i ∈ functionInstructions f ∧ escapes i = true.
Proof.
  intros Hc Hs Hl. split.
  - intros Hu. destruct (existsb escapes (functionInstructions f)) eqn:E.
    { apply existsb_exists in E as (i & Hi%list_elem_of_In & He). eauto. }
    rewrite (lowerFunction_free linked f) in Hu; [done|done| |done]. intros b r i Hb Hi.
    assert (Hin : i ∈ functionInstructions f) by (apply functionInstructions_spec; eauto). split; [by apply Hs|].
    apply not_true_is_false. intros He. apply not_true_iff_false in E. apply E, existsb_exists. exists i. split; [by apply list_elem_of_In|done].
  - intros (i & (b & r & Hb & Hi)%functionInstructions_spec & He). apply checkFunction_Ok in Hc as [_ Hbs]. specialize (Hbs _ Hb).
    apply list_elem_of_lookup in Hb as (k & Hk). destruct (Forall2_lookup_l _ _ _ _ _ (lowerFunction_blocks _ _ _ Hl) Hk) as (b' & Hk' & E).
    apply lowerBlock_parts in E as (_ & Hbody & _). apply list_elem_of_lookup_2 in Hk'. unfold UsesFloatingPoint.
    apply orb_true_iff. right. apply existsb_exists. exists b'. split; [by apply list_elem_of_In|]. rewrite !orb_true_iff. right.
    assert (Hck : checkInstr i = Ok ()).
    { unfold checkBlock in Hbs. apply bind_Ok in Hbs as ([] & _ & Hbs). apply bind_Ok in Hbs as ([] & Hbs & _).
      rewrite (foldM_unit (λ ri : nat * instr, checkInstr ri.2)) in Hbs. by apply (Hbs (r, i)). }
    apply list_elem_of_lookup in Hi as (j & Hj). destruct (Forall2_lookup_l _ _ _ _ _ Hbody Hj) as (ri' & Hj' & E). cbn in E.
    destruct (lowerInstr linked i) as [i'|] eqn:Ei; [|done]. injection E as <-. apply list_elem_of_lookup_2 in Hj'.
    apply existsb_exists. exists (r, i'). split; [by apply list_elem_of_In|]. cbn. by erewrite lowerInstr_escapes.
Qed.
