(* ===== verification/SoftFloatProps.v ===== *)
(** * Software floating point: the properties *)

From Stdlib Require Import ZArith Lia.
From stdpp Require Import base numbers list gmap strings.
From S2P Require Import Prelude Bytes SoftFloat SoftFloatRun SoftFloatTypes SoftFloatFacts SoftFloatSim SoftFloatVerdict.
Import SoftFloat.

Local Open Scope Z_scope.

(** ** Routines *)










(** ** Accepted programs *)



(** ** The claims *)

Section soft_float.
Context {FO : FloatOps} {RT : Routines} {RLaws : RoutineLaws FO RT} {LO : Layout} {LLaws : LayoutLaws LO} {EX : Externals} {ELaws : ExternalLaws EX}.

(** C12: the lowered program computes what the original computes.  If the
    original, run on some arguments, returns a value and a memory, the lowered
    program, run on the bits of the arguments, returns the bits of that value
    and the same memory, with the same number of blocks: arithmetic by
    compiler-rt's routines, named as documented, all sixteen comparisons, all
    masks of [llvm.is.fpclass], conversions of every width, the intrinsics of
    the C library, loads, stores and variadic arguments of aggregates,
    constants, calls and phis.  (An instruction the pass has no case for has a
    meaning on integers and pointers only.) *)
Theorem soft_float_correct globals p p' fuel name xs xs' m v m' :
  runSoftFloat globals p = Ok p' → sourceProgram p = true → Forall2 refines xs xs' →
  runFunction p fuel name xs m = Some (v, m') →
  ∃ v', runFunction p' fuel name xs' m = Some (v', m') ∧ refines v v'.
Proof. intros Hrun Hs. apply (runFunction_refines (linkedIn p)). by eapply accepted_lowered. Qed.
End soft_float.

