(* ===== verification/SoftFloatSamples.v ===== *)
(** * Software floating point on IEEE arithmetic

    The parameters of [SoftFloatRun] instantiated by the Standard Library's
    specification of IEEE 754 ([SpecFloat], round to nearest even), routines
    that compute it, a data layout with natural alignment, and a program whose
    runs are compared before and after the pass. *)

From Stdlib Require Import ZArith Lia SpecFloat.
From stdpp Require Import base numbers list gmap strings.
From S2P Require Import Prelude Bytes SoftFloat SoftFloatRun SoftFloatClass SoftFloatTypes SoftFloatFacts SoftFloatSim SoftFloatVerdict SoftFloatProps.
Import SoftFloat.

Local Open Scope Z_scope.

(** ** IEEE arithmetic on bits *)

Section ieee.
Context (f32 : bool).

Let mb : Z := mantissaBits f32.
Definition precision : Z := mantissaBits f32 + 1.
Definition emaximum : Z := if f32 then 128 else 1024.
Let low : Z := SpecFloat.emin precision emaximum.

Definition decode (x : Z) : spec_float :=
  let m := x mod 2 ^ mb in
  let e := magnitudeOf f32 x / 2 ^ mb in
  let s := signOf f32 x in
  if e =? 0 then match m with Zpos q => S754_finite s q low | _ => S754_zero s end
  else if magnitudeOf f32 x <? exponentMask f32 then match m + 2 ^ mb with Zpos q => S754_finite s q (e - 1 + low) | _ => S754_nan end
  else if m =? 0 then S754_infinity s else S754_nan.

Definition encode (v : spec_float) : Z :=
  let signed s z := if s : bool then z + signMask f32 else z in
  match v with
  | S754_zero s => signed s 0
  | S754_infinity s => signed s (exponentMask f32)
  | S754_nan => exponentMask f32 + quietMask f32
  | S754_finite s m e => signed s (if Zpos m <? 2 ^ mb then Zpos m else (e - low + 1) * 2 ^ mb + (Zpos m - 2 ^ mb))
  end.

(** The exact remainder of the truncated quotient. *)
Definition remainder (x y : spec_float) : spec_float :=
  match x, y with
  | S754_finite sx mx ex, S754_finite _ my ey =>
      let e := Z.min ex ey in
      binary_normalize precision emaximum (Z.rem ((if sx then Zneg mx else Zpos mx) * 2 ^ (ex - e)) (Zpos my * 2 ^ (ey - e))) e sx
  | S754_finite _ _ _, S754_infinity _ | S754_zero _, (S754_finite _ _ _ | S754_infinity _) => x
  | _, _ => S754_nan
  end.

Definition ieeeBinary (op : float_binary) (x y : Z) : Z :=
  encode (match op with
          | FAdd => SFadd precision emaximum | FSub => SFsub precision emaximum | FMul => SFmul precision emaximum
          | FDiv => SFdiv precision emaximum | FRem => remainder
          end (decode x) (decode y)).

Definition truncated (x : Z) : option Z :=
  match decode x with
  | S754_zero _ => Some 0
  | S754_finite s m e => Some ((if s then -1 else 1) * (if e <? 0 then Zpos m / 2 ^ (- e) else Zpos m * 2 ^ e))
  | _ => None
  end.
End ieee.

(** Conversion between the two widths. *)
Definition convert (from to : bool) (x : Z) : Z :=
  encode to (match decode from x with
             | S754_finite s m e => binary_normalize (precision to) (emaximum to) (if s then Zneg m else Zpos m) e s
             | v => v
             end).

#[export] Instance ieee : FloatOps := {
  fbinary op f32 := ieeeBinary f32 op;
  fextend := convert true false;
  ftruncate := convert false true;
  fromInteger f32 n := encode f32 (binary_normalize (precision f32) (emaximum f32) n 0 false);
  toInteger := truncated;
}.

(** ** Routines *)

Definition compareResult (unordered : Z) (c : option comparison) : Z :=
  match c with Some Lt => -1 | Some Eq => 0 | Some Gt => 1 | None => unordered end.

(** A routine that meets each contract. *)
Definition contractValue (c : contract) (zs : list Z) : Z :=
  match c, zs with
  | Arithmetic op f32, [x; y] => fbinary op f32 x y
  | Negation f32, [x] => Z.lxor x (signMask f32)
  | Extension, [x] => fextend x
  | Truncation, [x] => ftruncate x
  | FromInteger signed f32, [z] => fromInteger f32 (if signed then sgn 64 z else z)
  | ToInteger _ f32, [x] => default 0 (toInteger f32 x)
  | (Equality f32 | AtMost f32), [x; y] => compareResult 1 (fcompare f32 x y)
  | AtLeast f32, [x; y] => compareResult (-1) (fcompare f32 x y)
  | Unordered f32, [x; y] => if fcompare f32 x y then 0 else 1
  | _, _ => 0
  end.

#[export] Instance ieeeRoutines : Routines := λ name zs,
  match head (filter (λ nc : string * contract, nc.1 = name) runtime) with Some nc => contractValue nc.2 zs | None => 0 end.

Lemma contractValue_meets c : meets (contractValue c) c.
Proof.
  assert (N : ∀ (r : Z) c u, r = compareResult u c → (u = 1 ∨ u = -1) →
    Z.sgn (sgn 64 (r mod 2 ^ 64)) = match c with Some Lt => -1 | Some Eq => 0 | Some Gt => 1 | None => u end).
  { intros r o u -> [-> | ->]; by destruct o as [[]|]. }
  destruct c; cbn [meets contractValue]; try done.
  - intros x n _ E _. by rewrite E.
  - intros x y _ _. destruct (fcompare f32 x y) as [[]|]; done.
  - intros x y _ _. apply (N _ _ 1); [done|by left].
  - intros x y _ _. apply (N _ _ (-1)); [done|by right].
  - intros x y _ _. by destruct (fcompare f32 x y).
Qed.

#[export] Instance ieeeLaws : RoutineLaws ieee ieeeRoutines.
Proof.
  apply Forall_forall. intros nc Hnc. unfold runtime in Hnc. rewrite !elem_of_cons, elem_of_nil in Hnc.
  destruct_or! Hnc; subst; try done; cbn [fst snd]; match goal with |- meets _ ?c => exact (contractValue_meets c) end.
Qed.

(** ** Layout *)

Definition alignUp (a n : Z) : Z := (n + a - 1) / a * a.

Fixpoint place (packed : bool) (at_ : Z) (l : list (Z * Z)) : list Z * Z * Z :=
  match l with
  | [] => ([], at_, 1)
  | (size, al) :: l =>
      let here := if packed then at_ else alignUp al at_ in
      let '(offsets, end_, a) := place packed (here + size) l in
      (here :: offsets, end_, if packed then 1 else Z.max al a)
  end.

Definition structShape (packed : bool) (l : list (Z * Z)) : Z * Z :=
  let '(_, end_, a) := place packed 0 l in (alignUp a end_, a).

Definition bytesOf (bits : Z) : Z := 2 ^ Z.log2_up ((bits + 7) / 8).

(** Size and alignment. *)
Fixpoint shapeOf (t : type) : Z * Z :=
  match t with
  | IntegerTy b => (bytesOf b, bytesOf b)
  | HalfTy | BFloatTy => (2, 2)
  | FloatTy => (4, 4)
  | DoubleTy | PointerTy => (8, 8)
  | X86_FP80Ty | FP128Ty | PPC_FP128Ty => (16, 16)
  | VoidTy | FunctionTy _ _ _ => (0, 1)
  | ArrayTy n e => (Z.of_nat n * (shapeOf e).1, (shapeOf e).2)
  | VectorTy n e => (Z.of_nat n * (shapeOf e).1, Z.of_nat n * (shapeOf e).1)
  | StructTy _ p ts => structShape p (map shapeOf ts)
  end.

#[export] Instance naturalLayout : Layout := {
  sizeOf t := (shapeOf t).1;
  alignOf t := (shapeOf t).2;
  offsetOf p ts i := default 0 ((place p 0 (map shapeOf ts)).1.1 !! i);
}.

Lemma sameShape_shapeOf t u : sameShape t u ↔ shapeOf t = shapeOf u.
Proof. unfold sameShape. cbn. destruct (shapeOf t), (shapeOf u). cbn. naive_solver. Qed.

Lemma sameShapes ts us : Forall2 sameShape ts us → map shapeOf ts = map shapeOf us.
Proof. induction 1 as [|t u ts us H%sameShape_shapeOf _ IH]; cbn; [done|]. by rewrite H, IH. Qed.

#[export] Instance naturalLaws : LayoutLaws naturalLayout.
Proof.
  split; try done.
  - intros n t u H%sameShape_shapeOf. apply sameShape_shapeOf. cbn. by rewrite H.
  - intros n t u H%sameShape_shapeOf. apply sameShape_shapeOf. cbn. by rewrite H.
  - intros a b p ts us H%sameShapes. split; [apply sameShape_shapeOf; cbn; by rewrite H|]. intros i. cbn. by rewrite H.
Qed.

(** ** The outside *)

(** Opcode 0 is [and], opcode 1 [freeze]; [clock] returns an integer; a
    variadic argument is at the next multiple of its alignment, and takes whole
    words. *)
#[export] Instance outside : Externals := {
  symbolAddress _ := 4096;
  functionAt z := if z =? 8192 then Some "fabs"%string else None;
  other op _ vs := match op, vs with O, [VInt b x; VInt _ y] => VInt b (Z.land x y) | _, _ => VUndef end;
  vaNext size al a m := let at_ := alignUp al (loadLE m a 8) in Some (at_, storeLE m a 8 (at_ + alignUp 8 size));
  external name _ m := if bool_decide (name = "clock"%string) then Some (VInt 64 7, m) else None;
}.

#[export] Instance outsideLaws : ExternalLaws outside.
Proof.
  intros name xs xs' m v m' _ H. cbn in *. destruct (bool_decide _); [|done]. injection H as <- <-. eexists. split; [done|constructor].
Qed.

(** ** A program *)

Definition pairTy : type := StructTy (Some "pair"%string) false [FloatTy; DoubleTy].

Definition fabsFunction : func := Func (FunctionTy DoubleTy [DoubleTy] false)
  [Block [] [(0%nat, IBitCast DoubleTy (IntegerTy 64) (Arg 0)); (1%nat, IOther 0 (IntegerTy 64) [Reg 0; Const (CInt 64 0x7fffffffffffffff)]);
             (2%nat, IBitCast (IntegerTy 64) DoubleTy (Reg 1))] (Ret (Some (Reg 2)))].

(** |x * p->first| is stored in p->second when it is above 2, and returned as
    an integer. *)
Definition mainFunction : func := Func (FunctionTy (IntegerTy 32) [DoubleTy; PointerTy] false)
  [Block [] [(0%nat, ILoad pairTy (Arg 1)); (1%nat, IExtract FloatTy (Reg 0) [0%nat]); (2%nat, IFPExt (Reg 1));
             (3%nat, IFBinary FMul false (Arg 0) (Reg 2)); (4%nat, IIntrinsic "fabs" false [Reg 3]);
             (5%nat, IFCmp FCMP_OGT false (Reg 4) (Const (CDouble 0x4000000000000000)))] (CondBr (Reg 5) 1 2);
   Block [] [(6%nat, IInsert pairTy (Reg 0) (Reg 4) [1%nat]); (7%nat, IStore pairTy (Reg 6) (Arg 1))] (Br 3);
   Block [] [(8%nat, IClass false (Reg 4) (Const (CInt 32 fcPosFinite)))] (Br 3);
   Block [Phi 9 DoubleTy [(1%nat, Reg 4); (2%nat, Const (CDouble 0x3ff0000000000000))]] [(10%nat, IFPToI true false 32 (Reg 9))] (Ret (Some (Reg 10)))].

Definition sample : program := [("fabs"%string, fabsFunction); ("main"%string, mainFunction)].

Definition sampleLowered : program := match runSoftFloat [pairTy] sample with Ok p => p | Err _ => [] end.

Definition memory0 : mem := storeLE (λ _, 0) 64 4 0x3fc00000.

Definition outcome (r : option (val * mem)) : option (val * Z) := (λ vm : val * mem, (vm.1, loadLE vm.2 72 8)) <$> r.

(** main(-3.0, p) with 1.5 at p: 4 is returned and 4.5 stored. *)
Example main_runs :
  outcome (runFunction sample 10 "main" [VDouble 0xc008000000000000; VPtr 64] memory0) = Some (VInt 32 4, 0x4012000000000000).
Proof. by vm_compute. Qed.

Example main_lowered_runs :
  outcome (runFunction sampleLowered 10 "main" [VInt 64 0xc008000000000000; VPtr 64] memory0) = Some (VInt 32 4, 0x4012000000000000).
Proof. by vm_compute. Qed.

(** A float, then a double from a variadic argument list at 64. *)
Definition variadicFunction : func := Func (FunctionTy DoubleTy [PointerTy] false)
  [Block [] [(0%nat, IVAArg FloatTy (Arg 0)); (1%nat, IFPExt (Reg 0)); (2%nat, IVAArg DoubleTy (Arg 0)); (3%nat, IFBinary FAdd false (Reg 1) (Reg 2))]
     (Ret (Some (Reg 3)))].

Definition memory1 : mem := storeLE (storeLE (storeLE (λ _, 0) 64 8 128) 128 4 0x3fc00000) 136 8 0x4000000000000000.

Example variadic_runs :
  fst <$> runFunction [("sum"%string, variadicFunction)] 10 "sum" [VPtr 64] memory1 = Some (VDouble 0x400c000000000000) ∧
  match runSoftFloat [] [("sum"%string, variadicFunction)] with
  | Ok p => fst <$> runFunction p 10 "sum" [VPtr 64] memory1 = Some (VInt 64 0x400c000000000000)
  | Err _ => False
  end.
Proof. split; by vm_compute. Qed.

(** A frozen double: the pass leaves the instruction at its type, with the
    integer as its operand, and the later check reports the function. *)
Definition frozen : program :=
  [("id"%string, Func (FunctionTy DoubleTy [DoubleTy] false) [Block [] [(0%nat, IOther 1 DoubleTy [Arg 0])] (Ret (Some (Reg 0)))])].

Definition frozenLowered : program :=
  [("id"%string, Func (FunctionTy (IntegerTy 64) [IntegerTy 64] false) [Block [] [(0%nat, IOther 1 DoubleTy [Arg 0])] (Ret (Some (Reg 0)))])].

Lemma freeze_survives : runSoftFloat [] frozen = Ok frozenLowered ∧ existsb (λ nf : string * func, UsesFloatingPoint nf.2) frozenLowered = true.
Proof. by vm_compute. Qed.

Lemma soft_float_correct_witness : ∃ v m',
  runFunction sample 10 "main" [VDouble 0xc008000000000000; VPtr 64] memory0 = Some (v, m') ∧
  ∃ v', runFunction sampleLowered 10 "main" [VInt 64 0xc008000000000000; VPtr 64] memory0 = Some (v', m') ∧ refines v v'.
Proof.
  destruct (runFunction sample 10 "main" [VDouble 0xc008000000000000; VPtr 64] memory0) as [[v m']|] eqn:E.
  - exists v, m'. split; [done|]. refine (soft_float_correct [pairTy] sample sampleLowered 10 "main" _ _ memory0 v m' _ _ _ E).
    + vm_compute. reflexivity.
    + vm_compute. reflexivity.
    + repeat constructor.
  - exfalso. apply (f_equal outcome) in E. rewrite main_runs in E. discriminate E.
Defined.


